(* ===== verification/_CoqProject ===== *)
-Q . S2P
Prelude.v
Utf8.v
Net.v
Json.v
Matcher.v
Summary.v
Codec.v
Pipeline.v
Transforms.v
Secrets.v
KernelConfig.v
Custody.v
SerdeModel.v
KernelTheorems.v
KernelAudit.v
Hop.v
Tunnel.v
DnsWire.v
DnsServer.v
DnsServe.v
Resolver.v
Dial.v
Ipv6.v
Proxy.v
Http.v
HttpTheorems.v
Listen.v
ListenTheorems.v
ProxyConfig.v
ConfigTheorems.v
Management.v
Serial.v
Tls.v
CertCache.v
Emission.v
AuditSchema.v
Metrics.v
MetricsTheorems.v
AuditSink.v
Boot.v
System.v
