(* ===== verification/Prelude.v ===== *)
(** * hematite: a default-deny egress boundary, modelled and verified

    hematite is a forward proxy that workloads must go through to reach the
    network.  It intercepts DNS, terminates HTTP, HTTPS and tunnels, runs every
    request through a pipeline of transforms that may refuse it, swaps real
    credentials for the tokens a workload holds, dials only addresses a guard
    permits, and leaves one audit record per request in which no credential
    may appear.  This library models the Rust sources under [src/crates/] as
    Rocq functions and proves those promises of them.

    ** The program and the files that model it

    Shared vocabulary.
    - [Prelude] (this file): bytes, results and their notations ([let?], [%bs]),
      the parts of [str] and of the integer parsers the sources call, the byte
      case-analysis tactics and the hint database [hematite].
    - [Utf8]: decoding as [core::str::lossy] does it.  [Net]: [IpAddr], its parser
      and display.  [Json]: [serde_json::Value] and its sorted map.

    The kernel ([hematite-kernel]), pure decisions.
    - [Matcher] ([matcher.rs]), [Codec] ([codec.rs]), [Summary] ([summary.rs],
      [verdict.rs], [secret.rs]), [Pipeline] ([pipeline.rs]: the transform contract
      as a record of operations, [evaluate_request], [evaluate_response]),
      [Transforms] ([transforms.rs]), [Secrets] ([secrets.rs]), [KernelConfig]
      ([config.rs]: a list of specs becomes a pipeline, with the two ordering
      checks), [KernelAudit] ([audit.rs]).
    - [Custody] proves what can reach the audit through a built pipeline;
      [SerdeModel] holds concrete instances of the parameters for witnesses;
      [KernelTheorems] states the kernel's guarantees.

    The proxy ([hematite-proxy]), the same decisions with effects.
    - [Hop] ([hop.rs]), [Tunnel] ([tunnel.rs]), [Resolver] ([resolver.rs]),
      [Dial] ([state.rs]'s guard, [dial.rs]); [Ipv6] follows an address of a SOCKS5
      request through its text to the dialer.
    - [Proxy] ([state.rs], [audit.rs], [dial.rs] with its awaits): handlers are
      programs of a monad over the network, the shared runtime and a trace of
      events; at each [await] the executor may swap the runtime (a reload), let
      others use the resolver, or drop the handler (the client went away), and a
      [PendingAudit] emits its backstop record when dropped.  [Proxy.wp_dial]
      relates the dialer of the handlers to the one of [Dial].
    - [Http] ([http.rs]) is [handle] stage by stage, [Listen] ([listen.rs]) what
      happens on a connection before it; [HttpTheorems] and [ListenTheorems]
      prove their guarantees through the lemmas of the layers below.
    - [ProxyConfig] ([config.rs]: environment overrides, defaults, validation,
      [build_runtime]) with [ConfigTheorems]; [Management] ([management.rs]).
    - [Serial], [Tls], [CertCache] ([tls.rs]): serial numbers, the signing
      authority and its leaves, and the leaf cache as a step relation over
      interleaved tasks.
    - [Emission] describes every record the listeners may emit, by a logic over
      the handlers; [AuditSchema] is the JSON form of a record and the published
      schema ([spec/schema/audit-record.schema.json]).
    - [Metrics] ([metrics.rs]) and [MetricsTheorems], which runs the registry on
      the events of the handlers; [AuditSink] ([audit.rs]): the trait, stderr and
      the counting decorator.

    DNS ([hematite-dns]): [DnsWire] ([wire.rs]), [DnsServer] ([resolve.rs],
    [server.rs]) and [DnsServe], the loops of [server.rs] as tasks run in any order
    and the calls of its upstream exchange.

    The binary ([hematite]): [Boot] ([main.rs], [telemetry.rs]) composes all of it:
    arguments, file, configuration, runtime, telemetry, listeners, shutdown.
    [System] is the process that is left running: the accept loops, the handlers
    and the management calls that come at their awaits, over one shared runtime.

    ** What is shown

    - Credential custody: [HttpTheorems.emitted_record_holds_no_secret],
      [KernelTheorems.inv1_traces_hold_no_secret],
      [KernelTheorems.inv1_capture_is_client_body], for configurations in the
      form the kernel's ordering checks look at ([Custody.plain_spec]; at most
      one [body_capture] for bodies); where secrets may be written, that a
      required one is written where it is reported, and that reports do not
      depend on their values ([Secrets]).
    - Default deny: [HttpTheorems.egress_needs_permission],
      [KernelTheorems.default_deny], [Dial.dial_respects_guard], the tunnel port in
      [ListenTheorems], [Ipv6.socks5_address_is_dialed], and
      [ConfigTheorems.passthrough_hides_no_rule] (a rule written with a [host]
      key is not bypassed by a passthrough domain);
      [HttpTheorems.target_is_the_connections] (what is dialed is the target the
      connection stands for).
    - Composition: [System.process_follows_its_files] starts from the command line
      and, for each step that lets anything out, names the runtime that let this
      step through and the text of the file it was compiled from, loaded at boot
      or at a reload with the key.
    - Audit: [HttpTheorems.one_record_per_request], under cancellation and reload;
      [MetricsTheorems.request_is_counted_once] and
      [MetricsTheorems.metrics_cardinality_bounded] on top of it;
      [AuditSchema.emitted_records_conform] (which records the published schema
      accepts) and [System.stderr_lines_are_the_records] (one line each, after the
      warnings of the configuration).
    - Refinement and reference definitions: [Pipeline.evaluate_request_refines_run]
      (an inductive [run] relation), the matchers against their readings, the
      codecs and DNS messages as round trips, the histogram against counting.
    - Operation: a process serves only what a compiled configuration asks for and
      all of it, but for a DNS section that does not compile ([Boot]), a reload
      is all or nothing and answered accordingly ([Management]), each environment
      variable sets its own key ([ConfigTheorems]), cached secrets are what was
      read, for names without a NUL byte ([Resolver]).
    - Concurrency: for any interleaving the leaf cache returns leaves of the
      right target, mints one at a time per target and always returns
      ([CertCache]); serial numbers do not repeat ([Serial]: the xorshift step has
      period 2^64 - 1); every DNS datagram is answered once, to its sender, and
      only passthrough names reach the upstream resolver ([DnsServe]).

    Theorems that show a defect on a concrete input are kept beside the
    component they are about (for example
    [KernelTheorems.second_capture_records_credential],
    [KernelTheorems.capture_check_misses_array],
    [ConfigTheorems.array_rule_is_bypassed] and [Resolver.cache_key_collides]).

    ** Parameters

    Code that is not in the repository is a type class, with what is documented
    of it and used as a class of laws, and an instance that satisfies them in
    the witnesses: [RegexEngine] (regex), [ConfigDecoder] with [DecoderLaws]
    (the serde derives), [YamlFormat] (serde_yaml, [f64]), [Network] (lookup, TCP,
    TLS), [Hyper] with [HyperLaws], [Leg] (rustls on an accepted connection), [Os]
    with [NulNames] (clock, environment, files), [Lru] with [LruLaws], [CaFormat] and [Rcgen]
    (keys, certificates, signatures), [TelemetrySdk], [JsonText] with
    [JsonTextLaws] (the text of a JSON document); what the operating system
    answers to the calls of the DNS server, the display of an [f64] and the
    outcome of binds are arguments.

    ** Integers, fuel and bounds

    A machine integer is a [Z] with its wrap-around or saturation written out
    (body caps, durations, counters modulo 2^64, ports, lengths of DNS and TLS
    records).  [f64] durations are rationals, so rounding is not modelled.  Error
    texts are a template with its arguments.  Loops that are not structural have
    fuel: the scans of a text take its length ([replace_loop], [percent_decode],
    [from_utf8_lossy], [trim_by]), each turn consuming a byte; the CONNECT head
    and the ClientHello sniff take two more than the 16 KiB cap, and
    [ListenTheorems.read_head_fuel] and [ListenTheorems.sniff_loop_fuel] show that
    more changes nothing; decimal digits take twenty, enough for 64 bits.

    ** Not modelled

    The text of JSON and YAML documents (serde crates): the value a record
    serializes to and the decoded configuration are modelled; tracing spans and
    the batch export of spans, whose set-up and shutdown alone are in [Boot]; the
    process's panics (a poisoned lock, a clock out of range) and writes to stderr
    that fail half way; the timeouts of [Runtime] and its TLS client
    configuration, which are part of [Network].  [CertCache] counts every lookup,
    as a cache does whose metrics are attached ([build_runtime] attaches them to
    the one it makes), and minting a leaf and putting it into the cache are one
    step of the task that does it.  A task of [DnsServe] is one step that is given
    all the answers of the operating system, so that a task comes to its end
    (with the five seconds of the upstream timeout) is taken for granted there.
    A ClientHello that stalls or is over 16 KiB is not checked by the code, and
    the theorems on passthrough speak of the opening bytes that are read.
    In [System] a handler is one
    step: what it shares with the others, the runtime, the resolver's cache and
    the network, may be changed by them at its awaits (the network in any way
    [Network] allows), but the order of the events of two handlers is not
    interleaved.  The library roots ([lib.rs]) hold declarations only.

    ** Plan

    Further work, in order: a reference text for JSON documents with its reader;
    spans as events beside the audit record. *)

From stdpp Require Export prelude list gmap.
From Stdlib Require Export ZArith Lia.
From Stdlib Require Strings.Byte.
Export Byte.ByteSyntaxNotations.
Delimit Scope byte_scope with byte.

#[global] Set Default Goal Selector "!".

(** ** Bytes

    Rust's [u8] is [byte] (256 constructors, so every value is in range by
    construction); [Vec<u8>], [&[u8]], [String] and [&str] are byte lists, a
    string being its UTF-8 encoding. *)

Abbreviation byte := Byte.byte.
Abbreviation bytes := (list Byte.byte).

#[export] Instance byte_eq_dec : EqDecision byte := Byte.byte_eq_dec.

#[export, program] Instance byte_countable : Countable byte :=
  {| encode b := encode (Byte.to_N b);
     decode p := n ← decode p; Byte.of_N n |}.
Next Obligation.
  intros b. cbn beta. rewrite decode_encode. apply Byte.of_to_N.
Qed.

(** Numeric value of a byte, and the truncating cast [as u8]. *)
Definition b2z (b : byte) : Z := Z.of_N (Byte.to_N b).
Definition z2b (z : Z) : byte := default Byte.x00 (Byte.of_N (Z.to_N (z mod 256))).

Lemma b2z_range b : (0 <= b2z b < 256)%Z.
Proof. unfold b2z. pose proof (Byte.to_N_bounded b). lia. Qed.

Lemma b2z_z2b z : b2z (z2b z) = (z mod 256)%Z.
Proof.
  unfold b2z, z2b. pose proof (Z.mod_pos_bound z 256 ltac:(lia)).
  destruct (Byte.of_N _) as [b|] eqn:E; simpl.
  - apply Byte.to_of_N in E. rewrite E. lia.
  - apply Byte.of_N_None_iff in E. lia.
Qed.

Lemma z2b_b2z b : z2b (b2z b) = b.
Proof.
  unfold z2b, b2z. rewrite Z.mod_small by (pose proof (b2z_range b); unfold b2z in *; lia).
  by rewrite N2Z.id, Byte.of_to_N.
Qed.

Lemma b2z_inj b c : b2z b = b2z c → b = c.
Proof. intros E. by rewrite <- (z2b_b2z b), <- (z2b_b2z c), E. Qed.

Lemma b2z_z2b_small z : (0 <= z < 256)%Z → b2z (z2b z) = z.
Proof. intros. by rewrite b2z_z2b, Z.mod_small. Qed.

(** Byte-string literals: ["abc"] in [bytes_scope] is a list of bytes. *)
Inductive bytes_literal := BLNil | BLCons (b : byte) (l : bytes_literal).

Fixpoint bytes_literal_parse (l : list byte) : bytes_literal :=
  match l with [] => BLNil | b :: l => BLCons b (bytes_literal_parse l) end.

Fixpoint bytes_literal_print (l : bytes_literal) : list byte :=
  match l with BLNil => [] | BLCons b l => b :: bytes_literal_print l end.

Definition byte_string : Type := list byte.
Declare Scope bytes_scope.
Delimit Scope bytes_scope with bs.
#[warnings="-via-type-remapping,-via-type-mismatch"]
String Notation byte_string bytes_literal_parse bytes_literal_print
  (via bytes_literal mapping [ [nil] => BLNil, [cons] => BLCons ]) : bytes_scope.

(** Boolean equality on a type with decidable equality. *)
Declare Scope hematite_scope.
Delimit Scope hematite_scope with hem.
Notation "x ≟ y" := (bool_decide (x = y)) (at level 70, no associativity) : hematite_scope.
#[global] Open Scope hematite_scope.

(** ** Results and messages

    [Result<A, E>] is a sum.  A formatted message keeps its template and its
    arguments instead of the rendered text, so two messages are equal exactly
    when the source formats the same values with the same template. *)

Inductive result (A E : Type) : Type :=
| Ok (a : A)
| Err (e : E).
Arguments Ok {A E} a.
Arguments Err {A E} e.

Inductive message : Type :=
| Text (s : bytes)
| Fmt (template : bytes) (args : list message).

Definition result_bind {A B E} (r : result A E) (k : A → result B E) : result B E :=
  match r with Ok a => k a | Err e => Err e end.

(** [map_err]: rewrite the error of a result. *)
Definition map_err {A E F} (f : E → F) (r : result A E) : result A F :=
  match r with Ok a => Ok a | Err e => Err (f e) end.

(** [ok_or]: an option as a result. *)
Definition ok_or {A E} (o : option A) (e : E) : result A E :=
  match o with Some a => Ok a | None => Err e end.

(** [.ok()]: a result as an option. *)
Definition result_ok {A E} (r : result A E) : option A :=
  match r with Ok a => Some a | Err _ => None end.

Definition is_ok {A E} (r : result A E) : bool :=
  match r with Ok _ => true | Err _ => false end.

(** The value of a result that is known to be one. *)
Definition unwrap_or {A E} (d : A) (r : result A E) : A :=
  match r with Ok a => a | Err _ => d end.

Lemma is_ok_unwrap {A E} (d : A) (r : result A E) : is_ok r = true → r = Ok (unwrap_or d r).
Proof. by destruct r. Qed.

(** The [?] operator. *)
Notation "'let?' x ':=' r 'in' k" := (result_bind r (fun x => k))
  (at level 10, x pattern, r at level 100, k at level 200) : hematite_scope.

(** [iter().map(f).collect::<Result<Vec<_>, _>>()]: left to right, stopping
    at the first error. *)
Fixpoint collect_results {A B E} (f : A → result B E) (l : list A) : result (list B) E :=
  match l with
  | [] => Ok []
  | a :: l => let? b := f a in let? bs := collect_results f l in Ok (b :: bs)
  end.

(** [Option<Result<A, E>>::transpose]. *)
Definition transpose {A E} (o : option (result A E)) : result (option A) E :=
  match o with
  | None => Ok None
  | Some (Ok a) => Ok (Some a)
  | Some (Err e) => Err e
  end.

Lemma collect_results_Ok {A B E} (f : A → result B E) l bs :
  collect_results f l = Ok bs ↔ Forall2 (fun a b => f a = Ok b) l bs.
Proof.
  revert bs. induction l as [|a l IH]; intros bs; simpl.
  { split; [intros [= <-]; constructor|]. by inversion 1. }
  destruct (f a) as [b|e] eqn:Ef; simpl.
  2:{ split; [done|]. inversion 1; congruence. }
  destruct (collect_results f l) as [bs'|e] eqn:El; simpl.
  - split.
    + intros [= <-]. constructor; [done|]. by apply IH.
    + inversion 1 as [|? ? ? ? Hf Hl]; subst. apply IH in Hl. congruence.
  - split; [done|]. inversion 1 as [|? ? ? ? Hf Hl]; subst. apply IH in Hl. congruence.
Qed.

Lemma collect_results_length {A B E} (f : A → result B E) l bs :
  collect_results f l = Ok bs → length bs = length l.
Proof. intros H%collect_results_Ok. symmetry. by eapply Forall2_length. Qed.

Lemma collect_results_Err {A B E} (f : A → result B E) l e :
  collect_results f l = Err e →
  ∃ pre a post, l = pre ++ a :: post ∧ f a = Err e ∧ Forall (fun x => is_ok (f x) = true) pre.
Proof.
  induction l as [|a l IH]; simpl; [done|].
  destruct (f a) as [b|e'] eqn:Ef; simpl.
  - destruct (collect_results f l) as [bs'|e'] eqn:El; simpl; [done|]. intros [= ->].
    destruct (IH eq_refl) as (pre & x & post & -> & Hx & Hpre).
    exists (a :: pre), x, post. split; [done|]. split; [done|].
    constructor; [by rewrite Ef|done].
  - intros [= ->]. by exists [], a, l.
Qed.

(** ** ASCII case, as [u8::to_ascii_lowercase] and [to_ascii_uppercase] *)

Definition byte_in (lo hi : Z) (b : byte) : bool := (lo <=? b2z b)%Z && (b2z b <=? hi)%Z.

Definition is_ascii_upper (b : byte) : bool := byte_in 65 90 b.
Definition is_ascii_lower (b : byte) : bool := byte_in 97 122 b.
Definition is_ascii_digit (b : byte) : bool := byte_in 48 57 b.
Definition is_ascii_alphanumeric (b : byte) : bool :=
  is_ascii_upper b || is_ascii_lower b || is_ascii_digit b.

Definition to_lower (b : byte) : byte := if is_ascii_upper b then z2b (b2z b + 32) else b.
Definition to_upper (b : byte) : byte := if is_ascii_lower b then z2b (b2z b - 32) else b.

Definition to_ascii_lowercase (s : bytes) : bytes := map to_lower s.
Definition to_ascii_uppercase (s : bytes) : bytes := map to_upper s.

Definition eq_ignore_ascii_case (a b : bytes) : bool :=
  to_ascii_lowercase a ≟ to_ascii_lowercase b.

(** A statement about one byte, decided by evaluating it on all 256. *)
Ltac byte_cases b := destruct b; vm_compute.

Lemma to_lower_idemp b : to_lower (to_lower b) = to_lower b.
Proof. byte_cases b; reflexivity. Qed.

Lemma to_lower_upper b : to_lower (to_upper b) = to_lower b.
Proof. byte_cases b; reflexivity. Qed.

Lemma lowercase_idemp s : to_ascii_lowercase (to_ascii_lowercase s) = to_ascii_lowercase s.
Proof. induction s; simpl; [done|]. by rewrite to_lower_idemp, IHs. Qed.

Lemma lowercase_uppercase s : to_ascii_lowercase (to_ascii_uppercase s) = to_ascii_lowercase s.
Proof. induction s; simpl; [done|]. by rewrite to_lower_upper, IHs. Qed.

Lemma lowercase_app a b :
  to_ascii_lowercase (a ++ b) = to_ascii_lowercase a ++ to_ascii_lowercase b.
Proof. apply map_app. Qed.

Lemma lowercase_length s : length (to_ascii_lowercase s) = length s.
Proof. apply length_map. Qed.

(** Lower-casing neither creates nor removes a byte that is not a letter. *)
Lemma to_lower_eq_nonletter b c :
  is_ascii_upper c = false → is_ascii_lower c = false → to_lower b = c ↔ b = c.
Proof.
  intros Hu Hl. unfold to_lower. destruct (is_ascii_upper b) eqn:Hb.
  - split; intros <-; [|congruence].
    unfold is_ascii_upper, is_ascii_lower, byte_in in *.
    rewrite b2z_z2b_small in Hl by lia. lia.
  - done.
Qed.

Lemma elem_of_lowercase_nonletter c s :
  is_ascii_upper c = false → is_ascii_lower c = false →
  c ∈ to_ascii_lowercase s ↔ c ∈ s.
Proof.
  intros Hu Hl. unfold to_ascii_lowercase. rewrite list_elem_of_In, in_map_iff, list_elem_of_In.
  split.
  - intros (b & Hb & Hin). apply (to_lower_eq_nonletter b c Hu Hl) in Hb. by subst.
  - intros Hin. exists c. split; [|done]. by apply to_lower_eq_nonletter.
Qed.

(** ** Substring operations of [str] and of slices *)

Fixpoint strip_prefix (p s : bytes) : option bytes :=
  match p, s with
  | [], _ => Some s
  | a :: p, b :: s => if a ≟ b then strip_prefix p s else None
  | _ :: _, [] => None
  end.

Definition starts_with (p s : bytes) : bool := bool_decide (is_Some (strip_prefix p s)).

Definition strip_suffix (p s : bytes) : option bytes :=
  reverse <$> strip_prefix (reverse p) (reverse s).

Definition ends_with (p s : bytes) : bool := bool_decide (is_Some (strip_suffix p s)).

Definition contains_byte (c : byte) (s : bytes) : bool := bool_decide (c ∈ s).

(** [str::find] of a substring: the offset of its first occurrence. *)
Fixpoint find_sub (needle s : bytes) : option nat :=
  if starts_with needle s then Some 0
  else match s with [] => None | _ :: s => S <$> find_sub needle s end.

(** [str::find] of a byte class. *)
Fixpoint find_byte (f : byte → bool) (s : bytes) : option nat :=
  match s with
  | [] => None
  | b :: s => if f b then Some 0 else S <$> find_byte f s
  end.

(** [str::split] on one ASCII character: never empty. *)
Fixpoint split_on (c : byte) (s : bytes) : list bytes :=
  match s with
  | [] => [[]]
  | b :: s =>
      if b ≟ c then [] :: split_on c s
      else match split_on c s with [] => [[b]] | w :: ws => (b :: w) :: ws end
  end.

(** [join] on a list of strings. *)
Fixpoint join_with (sep : bytes) (l : list bytes) : bytes :=
  match l with
  | [] => []
  | [w] => w
  | w :: ws => w ++ sep ++ join_with sep ws
  end.

(** [split_once] and [rsplit_once] on one ASCII character. *)
Fixpoint split_once (c : byte) (s : bytes) : option (bytes * bytes) :=
  match s with
  | [] => None
  | b :: s => if b ≟ c then Some ([], s)
              else '(x, y) ← split_once c s; Some (b :: x, y)
  end.

Fixpoint rsplit_once (c : byte) (s : bytes) : option (bytes * bytes) :=
  match s with
  | [] => None
  | b :: s =>
      match rsplit_once c s with
      | Some (x, y) => Some (b :: x, y)
      | None => if b ≟ c then Some ([], s) else None
      end
  end.

(** [slice.get(a..b)]: [None] when the range does not lie in the slice. *)
Definition get_range {A} (a b : nat) (l : list A) : option (list A) :=
  if bool_decide (a ≤ b ∧ b ≤ length l) then Some (take (b - a) (drop a l)) else None.

(** [slice.chunks(n)], for [n > 0]: the fuel is the length of the slice. *)
Fixpoint chunks_fuel {A} (fuel n : nat) (l : list A) : list (list A) :=
  match fuel, l with
  | _, [] => []
  | 0, _ => []
  | S fuel, _ => take n l :: chunks_fuel fuel n (drop n l)
  end.
Definition chunks {A} (n : nat) (l : list A) : list (list A) := chunks_fuel (length l) n l.

(** *** Their specifications *)

Lemma strip_prefix_Some p s r : strip_prefix p s = Some r ↔ s = p ++ r.
Proof.
  revert s. induction p as [|a p IH]; intros s; simpl.
  { split; [by intros [= ->]|by intros ->]. }
  destruct s as [|b s]; [done|]. case_bool_decide as E.
  - subst b. rewrite IH. split; [by intros ->|by intros [= ->]].
  - split; [done|]. by intros [= <- _].
Qed.

Lemma starts_with_spec p s : starts_with p s = true ↔ ∃ r, s = p ++ r.
Proof.
  unfold starts_with. rewrite bool_decide_eq_true. unfold is_Some.
  by setoid_rewrite strip_prefix_Some.
Qed.

Lemma strip_suffix_Some p s r : strip_suffix p s = Some r ↔ s = r ++ p.
Proof.
  unfold strip_suffix. rewrite fmap_Some. setoid_rewrite strip_prefix_Some. split.
  - intros (x & Hx & ->). apply (f_equal reverse) in Hx.
    by rewrite reverse_involutive, reverse_app, reverse_involutive in Hx.
  - intros ->. exists (reverse r). by rewrite reverse_app, reverse_involutive.
Qed.

Lemma ends_with_spec p s : ends_with p s = true ↔ ∃ r, s = r ++ p.
Proof.
  unfold ends_with. rewrite bool_decide_eq_true. unfold is_Some.
  by setoid_rewrite strip_suffix_Some.
Qed.

Lemma contains_byte_spec c s : contains_byte c s = true ↔ c ∈ s.
Proof. apply bool_decide_eq_true. Qed.

(** [find_sub] returns the first occurrence: the needle is there, and no
    shorter prefix of the text is followed by it. *)
Lemma find_sub_Some needle s i :
  find_sub needle s = Some i →
  ∃ pre post, s = pre ++ needle ++ post ∧ length pre = i ∧
    ∀ pre' post', s = pre' ++ needle ++ post' → i ≤ length pre'.
Proof.
  revert i. induction s as [|b s IH]; intros i; simpl.
  - case_match eqn:E; [|done]. intros [= <-]. apply starts_with_spec in E as [r E].
    exists [], r. split; [done|]. split; [done|]. intros; lia.
  - case_match eqn:E.
    + intros [= <-]. apply starts_with_spec in E as [r E].
      exists [], r. split; [done|]. split; [done|]. intros; lia.
    + intros (j & Hj & ->)%fmap_Some. destruct (IH j Hj) as (pre & post & -> & <- & Hmin).
      exists (b :: pre), post. split; [done|]. split; [done|].
      intros [|c pre'] post' Heq.
      * exfalso. assert (starts_with needle (b :: pre ++ needle ++ post) = true); [|congruence].
        apply starts_with_spec. exists post'. by simpl in Heq.
      * injection Heq as -> Heq. apply Hmin in Heq. simpl. lia.
Qed.

Lemma find_sub_None needle s :
  find_sub needle s = None ↔ ∀ pre post, s ≠ pre ++ needle ++ post.
Proof.
  induction s as [|b s IH]; simpl.
  - case_match eqn:E.
    + apply starts_with_spec in E as [r E]. split; [done|].
      intros H. exfalso. by apply (H [] r).
    + split; [|done]. intros _ pre post Heq.
      destruct pre; [|done]. simpl in Heq.
      assert (starts_with needle [] = true); [|congruence].
      apply starts_with_spec. by exists post.
  - case_match eqn:E.
    + apply starts_with_spec in E as [r E]. split; [done|].
      intros H. exfalso. by apply (H [] r).
    + rewrite fmap_None, IH. split.
      * intros H [|c pre] post Heq.
        -- assert (starts_with needle (b :: s) = true); [|congruence].
           apply starts_with_spec. by exists post.
        -- injection Heq as -> Heq. by apply (H pre post).
      * intros H pre post ->. by apply (H (b :: pre) post).
Qed.

Lemma split_on_cons_ne c b s :
  b ≠ c → split_on c (b :: s) =
    match split_on c s with [] => [[b]] | w :: ws => (b :: w) :: ws end.
Proof. intros. simpl. by rewrite bool_decide_eq_false_2. Qed.

Lemma split_on_not_nil c s : split_on c s ≠ [].
Proof. destruct s; simpl; [done|]. by repeat case_match. Qed.

(** Splitting loses nothing: joining the pieces gives the text back. *)
Lemma join_split_on c s : join_with [c] (split_on c s) = s.
Proof.
  induction s as [|b s IH]; simpl; [done|].
  pose proof (split_on_not_nil c s) as Hnil. case_bool_decide as E.
  - subst b. destruct (split_on c s); [done|]. simpl in *. by rewrite <- IH.
  - destruct (split_on c s) as [|w [|w' ws]]; [done| |]; simpl in *; by rewrite <- IH.
Qed.

(** No piece contains the separator. *)
Lemma split_on_no_sep c s : Forall (fun w => c ∉ w) (split_on c s).
Proof.
  induction s as [|b s IH]; simpl.
  { constructor; [apply not_elem_of_nil|constructor]. }
  case_bool_decide as E.
  { constructor; [apply not_elem_of_nil|done]. }
  destruct (split_on c s) as [|w ws].
  - constructor; [|constructor]. set_solver.
  - inversion IH; subst. constructor; [set_solver|done].
Qed.

Lemma split_on_no_byte c s : c ∉ s → split_on c s = [s].
Proof.
  induction s as [|b s IH]; intros H; [done|].
  rewrite not_elem_of_cons in H. destruct H as [Hb Hs].
  rewrite split_on_cons_ne by congruence. by rewrite IH.
Qed.

Lemma split_on_app c w s : c ∉ w → split_on c (w ++ c :: s) = w :: split_on c s.
Proof.
  induction w as [|b w IH]; intros H; simpl.
  - by rewrite bool_decide_eq_true_2.
  - rewrite not_elem_of_cons in H. destruct H as [Hb Hw].
    rewrite bool_decide_eq_false_2 by congruence. by rewrite IH.
Qed.

(** Splitting is the inverse of joining separator-free pieces. *)
Lemma split_on_join c ws :
  ws ≠ [] → Forall (fun w => c ∉ w) ws → split_on c (join_with [c] ws) = ws.
Proof.
  intros Hne Hws. induction Hws as [|w ws Hw Hws IH]; [done|].
  destruct ws as [|w' ws].
  - simpl. by apply split_on_no_byte.
  - change (join_with [c] (w :: w' :: ws)) with (w ++ c :: join_with [c] (w' :: ws)).
    rewrite split_on_app by done. by rewrite IH.
Qed.

Lemma split_once_Some c s x y : split_once c s = Some (x, y) ↔ s = x ++ c :: y ∧ c ∉ x.
Proof.
  revert x. induction s as [|b s IH]; intros x; simpl.
  { split; [done|]. intros [H _]. by destruct x. }
  case_bool_decide as E.
  - subst b. split.
    + intros [= <- <-]. split; [done|apply not_elem_of_nil].
    + intros [Heq Hc]. destruct x as [|a x]; [by injection Heq as ->|].
      injection Heq as -> _. set_solver.
  - rewrite bind_Some. split.
    + intros ([x' y'] & Hs & [= <- <-]). apply IH in Hs as [-> Hc].
      split; [done|set_solver].
    + intros [Heq Hc]. destruct x as [|a x]; [by injection Heq as -> _|].
      injection Heq as -> ->. exists (x, y). split; [|done]. apply IH. set_solver.
Qed.

Lemma split_once_None c s : split_once c s = None ↔ c ∉ s.
Proof.
  induction s as [|b s IH]; simpl; [split; [intros; apply not_elem_of_nil|done]|].
  rewrite not_elem_of_cons. case_bool_decide as E; [naive_solver|].
  rewrite bind_None. split.
  - intros [H|([] & _ & ?)]; [|done]. split; [congruence|]. by apply IH.
  - intros [_ H%IH]. by left.
Qed.

Lemma rsplit_once_None c s : rsplit_once c s = None ↔ c ∉ s.
Proof.
  induction s as [|b s IH]; simpl; [split; [intros; apply not_elem_of_nil|done]|].
  rewrite not_elem_of_cons.
  destruct (rsplit_once c s) as [[]|] eqn:E; [naive_solver|].
  case_bool_decide; naive_solver.
Qed.

Lemma rsplit_once_Some c s x y : rsplit_once c s = Some (x, y) ↔ s = x ++ c :: y ∧ c ∉ y.
Proof.
  revert x y. induction s as [|b s IH]; intros x y; simpl.
  { split; [done|]. intros [H _]. by destruct x. }
  destruct (rsplit_once c s) as [[x' y']|] eqn:E.
  - destruct (proj1 (IH x' y') eq_refl) as [Hs Hy']. split.
    + intros [= <- <-]. by rewrite Hs.
    + intros [Heq Hy]. destruct x as [|a x].
      * injection Heq as _ ->. set_solver.
      * injection Heq as -> Heq. assert (Some (x', y') = Some (x, y)) as [= -> ->]; [|done].
        by apply (IH x y).
  - apply rsplit_once_None in E. case_bool_decide as Eb.
    + subst b. split.
      * by intros [= <- <-].
      * intros [Heq Hy]. destruct x as [|a x]; [by injection Heq as ->|].
        injection Heq as -> Heq. set_solver.
    + split; [done|]. intros [Heq Hy]. destruct x as [|a x]; [by injection Heq as -> _|].
      injection Heq as -> Heq. set_solver.
Qed.

Lemma get_range_Some {A} a b (l r : list A) :
  get_range a b l = Some r →
  ∃ pre post, l = pre ++ r ++ post ∧ length pre = a ∧ length r = b - a ∧ a ≤ b.
Proof.
  unfold get_range. case_bool_decide as E; [|done]. intros [= <-].
  exists (take a l), (drop (b - a) (drop a l)).
  rewrite take_drop, take_drop, !length_take, length_drop. repeat split; try done; lia.
Qed.

Lemma get_range_at {A} (pre l post s : list A) a b :
  s = pre ++ l ++ post → a = length pre → b = length pre + length l → get_range a b s = Some l.
Proof.
  intros -> -> ->. unfold get_range. rewrite bool_decide_true by (rewrite !length_app; lia).
  rewrite drop_app_length. f_equal. replace (length pre + length l - length pre) with (length l) by lia.
  apply take_app_length.
Qed.

Lemma get_range_app {A} (pre l post : list A) a b :
  a = length pre → b = length pre + length l → get_range a b (pre ++ l ++ post) = Some l.
Proof. by apply (get_range_at pre l post). Qed.

(** ** White space, as [char::is_whitespace] on UTF-8 text

    [ws_head s] is the length of the white-space character at the head of
    [s], 0 when there is none: the ASCII ones, U+0085, U+00A0, U+1680,
    U+2000..U+200A, U+2028, U+2029, U+202F, U+205F and U+3000. *)

Definition is_ascii_ws (b : byte) : bool := byte_in 9 13 b || (b2z b =? 32)%Z.

Definition ws_head (s : bytes) : nat :=
  match map b2z s with
  | [] => 0
  | b :: r =>
      if ((9 <=? b) && (b <=? 13) || (b =? 32))%Z then 1
      else match r with
           | [] => 0
           | c :: r =>
               if ((b =? 194) && ((c =? 133) || (c =? 160)))%Z then 2
               else match r with
                    | [] => 0
                    | d :: _ =>
                        if (((b =? 225) && (c =? 154) && (d =? 128))
                            || ((b =? 226) && (c =? 128) &&
                                (((128 <=? d) && (d <=? 138)) || (d =? 168) || (d =? 169)
                                 || (d =? 175)))
                            || ((b =? 226) && (c =? 129) && (d =? 159))
                            || ((b =? 227) && (c =? 128) && (d =? 128)))%Z
                        then 3 else 0
                    end
           end
  end.

(** The same at the end of a text, which is given reversed. *)
Definition ws_last (r : bytes) : nat :=
  match r with
  | [] => 0
  | d :: r =>
      if ws_head [d] =? 1 then 1
      else match r with
           | [] => 0
           | c :: r =>
               if ws_head [c; d] =? 2 then 2
               else match r with
                    | [] => 0
                    | b :: _ => if ws_head [b; c; d] =? 3 then 3 else 0
                    end
           end
  end.

Fixpoint trim_by (head : bytes → nat) (fuel : nat) (s : bytes) : bytes :=
  match fuel with
  | 0 => s
  | S fuel => match head s with 0 => s | n => trim_by head fuel (drop n s) end
  end.

(** [str::trim]: a text has at most as many white-space characters as bytes. *)
Definition trim (s : bytes) : bytes :=
  let s := trim_by ws_head (length s) s in
  reverse (trim_by ws_last (length s) (reverse s)).

(** [str::split_whitespace]: [skip] counts the bytes left of a white-space
    character that was met, [cur] is the word being read. *)
Fixpoint split_ws (skip : nat) (cur s : bytes) : list bytes :=
  let emit ws := match cur with [] => ws | _ => cur :: ws end in
  match s with
  | [] => emit []
  | b :: r =>
      match skip with
      | S skip => split_ws skip cur r
      | 0 => match ws_head s with
             | 0 => split_ws 0 (cur ++ [b]) r
             | S n => emit (split_ws n [] r)
             end
      end
  end.
Definition split_whitespace (s : bytes) : list bytes := split_ws 0 [] s.

(** [str::lines().next()]: up to the first newline, which takes a carriage
    return before it along. *)
Definition first_line (s : bytes) : option bytes :=
  match s with
  | [] => None
  | _ => match split_once Byte.x0a s with
         | Some (l, _) => Some (default l (strip_suffix [Byte.x0d] l))
         | None => Some s
         end
  end.

Lemma trim_by_id head fuel s : head s = 0 → trim_by head fuel s = s.
Proof. destruct fuel; simpl; [done|]. by intros ->. Qed.

(** A printable ASCII byte: it is neither white space nor part of one. *)
Definition is_ascii_graphic (b : byte) : bool := byte_in 33 126 b.

Lemma ws_head_graphic b s : is_ascii_graphic b = true → ws_head (b :: s) = 0.
Proof.
  unfold is_ascii_graphic, byte_in, ws_head. intros Hb. simpl map.
  repeat (case_match; simplify_eq/=; try done); lia.
Qed.

Lemma ws_last_graphic b s : is_ascii_graphic b = true → ws_last (b :: s) = 0.
Proof.
  unfold is_ascii_graphic, byte_in, ws_last, ws_head. intros Hb. simpl map.
  repeat (case_match; simplify_eq/=; try done); lia.
Qed.

Lemma trim_by_nil head fuel : head [] = 0 → trim_by head fuel [] = [].
Proof. apply trim_by_id. Qed.

(** Text that starts and ends with a printable byte is left alone. *)
Lemma trim_graphic s :
  Forall (fun b => is_ascii_graphic b = true) s → trim s = s.
Proof.
  intros Hs. unfold trim. rewrite (trim_by_id ws_head).
  - rewrite trim_by_id; [by rewrite reverse_involutive|].
    apply Forall_reverse in Hs. destruct (reverse s); [done|].
    inversion Hs. by apply ws_last_graphic.
  - destruct s; [done|]. inversion Hs. by apply ws_head_graphic.
Qed.

(** ** Numbers as text *)

(** [char::to_digit]. *)
Definition to_digit (radix : Z) (b : byte) : option Z :=
  let v := if is_ascii_digit b then (b2z b - 48)%Z
           else if is_ascii_lower b then (b2z b - 87)%Z
           else if is_ascii_upper b then (b2z b - 55)%Z
           else radix in
  if (v <? radix)%Z then Some v else None.

Fixpoint parse_digits (radix max acc : Z) (s : bytes) : option Z :=
  match s with
  | [] => Some acc
  | b :: s =>
      d ← to_digit radix b;
      let acc := (acc * radix + d)%Z in
      if (acc <=? max)%Z then parse_digits radix max acc s else None
  end.

(** [uN::from_str_radix] (and [parse], with radix 10) for an unsigned type
    with the given largest value: one leading [+] is accepted. *)
Definition parse_uint (radix max : Z) (s : bytes) : option Z :=
  match s with
  | [] => None
  | b :: r =>
      if b ≟ "+"%byte then match r with [] => None | _ => parse_digits radix max 0 r end
      else parse_digits radix max 0 s
  end.

Definition u8_max : Z := 255.
Definition u16_max : Z := 65535.
Definition u32_max : Z := 4294967295.
Definition u64_max : Z := 18446744073709551615.

Definition parse_u8 : bytes → option Z := parse_uint 10 u8_max.
Definition parse_u16 : bytes → option Z := parse_uint 10 u16_max.
Definition parse_u64 : bytes → option Z := parse_uint 10 u64_max.

(** Display of an unsigned integer below [radix ^ fuel], lower-case digits. *)
Definition digit (z : Z) : byte := if (z <? 10)%Z then z2b (48 + z) else z2b (87 + z).

Fixpoint show_radix (fuel : nat) (radix z : Z) (rest : bytes) : bytes :=
  match fuel with
  | 0 => rest
  | S fuel =>
      let rest := digit (z mod radix) :: rest in
      if (z <? radix)%Z then rest else show_radix fuel radix (z / radix) rest
  end.

(** [{}] of an integer: twenty digits are enough for a [u64]. *)
Definition show_dec (z : Z) : bytes := show_radix 20 10 z [].

(** [{:x}] of a [u16]. *)
Definition show_hex16 (z : Z) : bytes := show_radix 4 16 z [].

Definition is_digit (radix : Z) (b : byte) : bool := bool_decide (is_Some (to_digit radix b)).

Lemma to_digit_digit radix d :
  (0 <= d < radix)%Z → (radix <= 16)%Z → to_digit radix (digit d) = Some d.
Proof.
  intros Hd Hr. unfold to_digit, is_ascii_digit, is_ascii_lower, byte_in, digit.
  destruct (Z.ltb_spec d 10); rewrite b2z_z2b_small by lia.
  - rewrite !(proj2 (Z.leb_le _ _)) by lia. simpl.
    rewrite (proj2 (Z.ltb_lt _ _)) by lia. f_equal. lia.
  - rewrite (proj2 (Z.leb_gt (87 + d) 57)) by lia. rewrite andb_false_r.
    rewrite !(proj2 (Z.leb_le _ _)) by lia. simpl.
    rewrite (proj2 (Z.ltb_lt _ _)) by lia. f_equal. lia.
Qed.

Section show_radix.
Context (radix : Z) (Hlo : (2 <= radix)%Z) (Hhi : (radix <= 16)%Z).

Lemma parse_digits_show_radix max fuel z rest :
  (0 <= z)%Z → (z < radix ^ Z.of_nat fuel)%Z → (z <= max)%Z →
  parse_digits radix max 0 (show_radix fuel radix z rest) = parse_digits radix max z rest.
Proof using Hlo Hhi.
  revert z rest. induction fuel as [|fuel IH]; intros z rest H0 Hlt Hmax.
  { simpl in *. by replace z with 0%Z by lia. }
  cbn [show_radix]. pose proof (Z.mod_pos_bound z radix ltac:(lia)).
  destruct (Z.ltb_spec z radix).
  - rewrite Z.mod_small by lia. simpl. rewrite to_digit_digit by lia. simpl.
    by rewrite (proj2 (Z.leb_le _ _)) by lia.
  - rewrite Nat2Z.inj_succ, Z.pow_succ_r in Hlt by lia.
    rewrite IH; [|apply Z.div_pos; lia|apply Z.div_lt_upper_bound; lia|].
    2:{ pose proof (Z.div_le_upper_bound z radix z ltac:(lia) ltac:(nia)). lia. }
    cbn [parse_digits]. rewrite to_digit_digit by lia. cbn [mbind option_bind].
    replace (z / radix * radix + z mod radix)%Z with z
      by (pose proof (Z.div_mod z radix); lia).
    by rewrite (proj2 (Z.leb_le _ _)) by lia.
Qed.

Lemma show_radix_digits fuel z rest :
  Forall (fun b => is_digit radix b = true) rest →
  Forall (fun b => is_digit radix b = true) (show_radix fuel radix z rest).
Proof using Hlo Hhi.
  revert z rest. induction fuel as [|fuel IH]; intros z rest Hr; [done|].
  cbn [show_radix]. pose proof (Z.mod_pos_bound z radix ltac:(lia)).
  assert (Forall (fun b => is_digit radix b = true) (digit (z mod radix) :: rest)).
  { constructor; [|done]. unfold is_digit. rewrite to_digit_digit by lia. by apply bool_decide_true. }
  destruct (z <? radix)%Z; [done|]. by apply IH.
Qed.

Lemma show_radix_length fuel z rest n :
  (0 <= z)%Z → (z < radix ^ Z.of_nat (S n))%Z →
  length (show_radix fuel radix z rest) ≤ S n + length rest.
Proof using Hlo Hhi.
  revert z rest n. induction fuel as [|fuel IH]; intros z rest n Hz Hlt; simpl; [lia|].
  destruct (Z.ltb_spec z radix); simpl; [lia|].
  destruct n as [|n]; [simpl in Hlt; lia|].
  rewrite (Nat2Z.inj_succ (S n)), Z.pow_succ_r in Hlt by lia.
  etransitivity; [apply (IH _ _ n)|simpl; lia].
  - apply Z.div_pos; lia.
  - apply Z.div_lt_upper_bound; lia.
Qed.

Lemma show_radix_not_nil fuel z rest : rest ≠ [] → show_radix fuel radix z rest ≠ [].
Proof using.
  revert z rest. induction fuel as [|fuel IH]; intros z rest Hr; [done|].
  cbn [show_radix]. case_match; [done|]. by apply IH.
Qed.

Lemma show_radix_S_not_nil fuel z rest : show_radix (S fuel) radix z rest ≠ [].
Proof using. cbn [show_radix]. case_match; [done|]. by apply show_radix_not_nil. Qed.

End show_radix.

Lemma show_dec_not_nil z : show_dec z ≠ [].
Proof. apply show_radix_S_not_nil. Qed.

Lemma show_dec_digits z : (0 <= z)%Z → Forall (fun b => is_digit 10 b = true) (show_dec z).
Proof. intros. by apply show_radix_digits. Qed.

Lemma show_hex16_not_nil z : show_hex16 z ≠ [].
Proof. apply show_radix_S_not_nil. Qed.

(** Printing then parsing gives the number back. *)
Lemma parse_show_dec max z :
  (0 <= z <= max)%Z → (max <= u64_max)%Z → parse_uint 10 max (show_dec z) = Some z.
Proof.
  intros Hz Hmax. unfold u64_max in *. unfold parse_uint.
  pose proof (show_dec_digits z ltac:(lia)) as Hd.
  assert (parse_digits 10 max 0 (show_dec z) = Some z) as Hp.
  { unfold show_dec. rewrite parse_digits_show_radix by lia. done. }
  destruct (show_dec z) as [|b s] eqn:E; [by apply show_dec_not_nil in E|].
  inversion Hd as [|? ? Hb]; subst. case_bool_decide; [by subst b|done].
Qed.

(** ** Proof automation shared by the components

    [crush_match] splits every [match] and [if] of the goal and closes the
    branches that are equalities of constructors; the hint database
    [hematite] collects the facts the components resolve with. *)

Create HintDb hematite.
#[export] Hint Resolve b2z_range z2b_b2z : hematite.
#[export] Hint Resolve split_on_not_nil split_on_no_sep join_split_on : hematite.
Create Rewrite HintDb hematite.
#[export] Hint Rewrite @lowercase_idemp lowercase_app lowercase_length z2b_b2z : hematite.

Ltac crush_match :=
  repeat (case_match; simplify_eq/=); try done.

(** Split every [match] of a hypothesis, dropping the impossible branches. *)
Ltac split_match_in H :=
  repeat (match type of H with
          | context [match ?x with _ => _ end] => destruct x eqn:?
          end; try discriminate H).

(** Turn boolean tests of the code into propositions. *)
Ltac bool_simpl :=
  repeat match goal with
  | H : _ && _ = true |- _ => apply andb_true_iff in H as [? ?]
  | H : _ || _ = false |- _ => apply orb_false_iff in H as [? ?]
  | H : negb _ = true |- _ => apply negb_true_iff in H
  | H : negb _ = false |- _ => apply negb_false_iff in H
  | H : bool_decide _ = true |- _ => apply bool_decide_eq_true in H
  | H : bool_decide _ = false |- _ => apply bool_decide_eq_false in H
  | H : context [negb true] |- _ => simpl in H
  end.

Lemma join_with_cons sep w ws : ws ≠ [] → join_with sep (w :: ws) = w ++ sep ++ join_with sep ws.
Proof. by destruct ws. Qed.

(** Splitting distributes over a separator. *)
Lemma split_on_app_sep c x y : split_on c (x ++ c :: y) = split_on c x ++ split_on c y.
Proof.
  induction x as [|b x IH]; simpl.
  - by rewrite bool_decide_true.
  - rewrite IH. case_bool_decide; [done|].
    pose proof (split_on_not_nil c x). by destruct (split_on c x).
Qed.

Lemma split_on_inj c x y : split_on c x = split_on c y → x = y.
Proof. intros H. by rewrite <- (join_split_on c x), H, join_split_on. Qed.

Lemma join_with_app c l1 l2 :
  l1 ≠ [] → l2 ≠ [] → join_with [c] (l1 ++ l2) = join_with [c] l1 ++ c :: join_with [c] l2.
Proof.
  intros H1 H2. induction l1 as [|w [|w' l1] IH]; [done| |].
  - by destruct l2.
  - rewrite <- app_comm_cons, (join_with_cons _ w), (join_with_cons _ w) by done.
    rewrite IH by done. by rewrite <- !app_assoc.
Qed.

(** ** Bit fields *)

(** On disjoint bits [lor] is addition. *)
Lemma lor_add k a b :
  (0 <= k)%Z → (a mod 2 ^ k = 0)%Z → (0 <= b < 2 ^ k)%Z → Z.lor a b = (a + b)%Z.
Proof.
  intros Hk Ha Hb. symmetry. apply Z.add_nocarry_lor. apply Z.bits_inj'. intros i Hi.
  rewrite Z.land_spec, Z.bits_0. destruct (Z.lt_ge_cases i k).
  - rewrite <- (Z.mod_pow2_bits_low a k i), Ha, Z.bits_0 by lia. done.
  - rewrite <- (Z.mod_small b (2 ^ k)), Z.mod_pow2_bits_high by lia. apply andb_false_r.
Qed.

(** Masks and right shifts by a constant, as remainder and quotient. *)
Lemma land_low n k : (0 <= k)%Z → Z.land n (2 ^ k - 1) = (n mod 2 ^ k)%Z.
Proof. intros. rewrite <- Z.land_ones, Z.ones_equiv by done. do 2 f_equal. Qed.

(** ** Big-endian integers ([from_be_bytes], [to_be_bytes]) *)

Definition be16 (hi lo : byte) : Z := (b2z hi * 256 + b2z lo)%Z.

Definition to_be16 (z : Z) : bytes := [z2b (z / 256); z2b z].
Definition to_be32 (z : Z) : bytes := [z2b (z / 16777216); z2b (z / 65536); z2b (z / 256); z2b z].

Lemma be16_range hi lo : (0 <= be16 hi lo < 65536)%Z.
Proof. unfold be16. pose proof (b2z_range hi). pose proof (b2z_range lo). lia. Qed.

Lemma be16_to_be16 z : (0 <= z < 65536)%Z → be16 (z2b (z / 256)) (z2b z) = z.
Proof.
  intros Hz. unfold be16. rewrite !b2z_z2b.
  rewrite (Z.mod_small (z / 256)) by (split; [apply Z.div_pos; lia|apply Z.div_lt_upper_bound; lia]).
  pose proof (Z.div_mod z 256). lia.
Qed.

Lemma to_be16_be16 hi lo : to_be16 (be16 hi lo) = [hi; lo].
Proof.
  unfold to_be16, be16. pose proof (b2z_range hi). pose proof (b2z_range lo). repeat f_equal.
  - rewrite Z.div_add_l, Z.div_small, Z.add_0_r by lia. apply z2b_b2z.
  - apply b2z_inj. rewrite b2z_z2b, Z.add_comm, Z.mod_add, Z.mod_small by lia. done.
Qed.
