(* ===== verification/Utf8.v ===== *)
(** * UTF-8 decoding, as the Rust standard library does it

    [String::from_utf8_lossy] and [std::str::from_utf8] decide which bytes of
    a secret, a header value, a DNS label or a TLS server name survive as
    text.  [utf8_head] follows [core::str::lossy]: it reads one character, or
    the maximal part of a broken one that is replaced by a single U+FFFD. *)

From S2P Require Import Prelude.

Definition is_cont (z : Z) : bool := (128 <=? z)%Z && (z <=? 191)%Z.

(** The second byte allowed after a three-byte or a four-byte lead. *)
Definition second3 (b c : Z) : bool :=
  ((b =? 224) && (160 <=? c) && (c <=? 191))%Z
  || ((225 <=? b) && (b <=? 236))%Z && is_cont c
  || ((b =? 237) && (128 <=? c) && (c <=? 159))%Z
  || ((238 <=? b) && (b <=? 239))%Z && is_cont c.

Definition second4 (b c : Z) : bool :=
  ((b =? 240) && (144 <=? c) && (c <=? 191))%Z
  || ((241 <=? b) && (b <=? 243))%Z && is_cont c
  || ((b =? 244) && (128 <=? c) && (c <=? 143))%Z.

(** Is the head of the text a whole character, and how many bytes does it
    (or the broken part) take? *)
Definition utf8_head (s : bytes) : bool * nat :=
  match map b2z s with
  | [] => (true, 0)
  | b :: r =>
      if (b <? 128)%Z then (true, 1)
      else match r with
      | [] => (false, 1)
      | c :: r =>
          if ((194 <=? b) && (b <=? 223))%Z then
            if is_cont c then (true, 2) else (false, 1)
          else if ((224 <=? b) && (b <=? 239))%Z && second3 b c then
            match r with
            | d :: _ => if is_cont d then (true, 3) else (false, 2)
            | [] => (false, 2)
            end
          else if ((240 <=? b) && (b <=? 244))%Z && second4 b c then
            match r with
            | d :: r =>
                if is_cont d then
                  match r with
                  | e :: _ => if is_cont e then (true, 4) else (false, 3)
                  | [] => (false, 3)
                  end
                else (false, 2)
            | [] => (false, 2)
            end
          else (false, 1)
      end
  end.

(** U+FFFD. *)
Definition replacement_char : bytes := [Byte.xef; Byte.xbf; Byte.xbd].

Fixpoint lossy_fuel (fuel : nat) (s : bytes) : bytes :=
  match fuel, s with
  | 0, _ | _, [] => []
  | S fuel, _ =>
      let '(ok, n) := utf8_head s in
      (if ok then take n s else replacement_char) ++ lossy_fuel fuel (drop n s)
  end.

(** Every step consumes a byte, so the length is enough fuel. *)
Definition from_utf8_lossy (s : bytes) : bytes := lossy_fuel (length s) s.

Fixpoint valid_fuel (fuel : nat) (s : bytes) : bool :=
  match fuel, s with
  | _, [] => true
  | 0, _ => false
  | S fuel, _ => let '(ok, n) := utf8_head s in ok && valid_fuel fuel (drop n s)
  end.

Definition utf8_valid (s : bytes) : bool := valid_fuel (length s) s.

(** [std::str::from_utf8]. *)
Definition from_utf8 (s : bytes) : option bytes := if utf8_valid s then Some s else None.

Lemma utf8_head_bounds s ok n :
  s ≠ [] → utf8_head s = (ok, n) → 1 ≤ n ≤ length s.
Proof.
  intros Hs. unfold utf8_head. destruct s as [|b1 s]; [done|].
  destruct s as [|b2 s]; [|destruct s as [|b3 s]; [|destruct s as [|b4 s]]];
    simpl map; intros H; repeat (case_match; simplify_eq/=); lia.
Qed.

(** The bytes after the character at the head do not change how it is read. *)
Lemma utf8_head_take s n r :
  s ≠ [] → utf8_head s = (true, n) → utf8_head (take n s ++ r) = (true, n).
Proof.
  unfold utf8_head. intros Hs E. destruct s as [|b1 s]; [done|].
  destruct s as [|b2 s]; [|destruct s as [|b3 s]; [|destruct s as [|b4 s]]];
    cbn [map] in E; split_match_in E; injection E as <-;
    cbn [take app map];
    repeat match goal with H : ?x = _ |- context [?x] => rewrite H end; done.
Qed.

Lemma valid_fuel_mono fuel fuel' s :
  fuel ≤ fuel' → valid_fuel fuel s = true → valid_fuel fuel' s = true.
Proof.
  revert fuel' s. induction fuel as [|fuel IH]; intros [|fuel'] s Hle; simpl;
    try (destruct s; [done|]; first [done|lia]).
  destruct s as [|b s]; [done|]. destruct (utf8_head (b :: s)) as [ok n].
  destruct ok; [|done]. simpl. apply IH. lia.
Qed.

(** Lossy decoding keeps valid text. *)
Lemma lossy_valid_fuel fuel s : valid_fuel fuel s = true → lossy_fuel fuel s = s.
Proof.
  revert s. induction fuel as [|fuel IH]; intros [|b s]; simpl; try done.
  destruct (utf8_head (b :: s)) as [ok n] eqn:E.
  destruct ok; [|done]. simpl. intros H. rewrite IH by done. apply take_drop.
Qed.

Lemma from_utf8_lossy_valid s : utf8_valid s = true → from_utf8_lossy s = s.
Proof. apply lossy_valid_fuel. Qed.

Lemma valid_fuel_step fuel s n :
  utf8_head s = (true, n) → s ≠ [] →
  valid_fuel fuel (drop n s) = true → valid_fuel (S fuel) s = true.
Proof. intros E Hs H. destruct s; [done|]. cbn [valid_fuel]. by rewrite E, H. Qed.

(** Prepending a character to valid text gives valid text. *)
Lemma valid_fuel_char fuel s n r :
  utf8_head s = (true, n) → s ≠ [] →
  valid_fuel fuel r = true → valid_fuel (S fuel) (take n s ++ r) = true.
Proof.
  intros E Hs Hr. pose proof (utf8_head_take s n r Hs E) as E'.
  apply utf8_head_bounds in E as Hn; [|done].
  apply (valid_fuel_step _ _ n); [done| |].
  - destruct s; [done|]. by destruct n; [lia|].
  - by rewrite drop_app_length' by (rewrite length_take; lia).
Qed.

(** Lossy decoding always produces valid text. *)
Lemma lossy_fuel_valid fuel s : valid_fuel fuel (lossy_fuel fuel s) = true.
Proof.
  revert s. induction fuel as [|fuel IH]; intros [|b s]; try done.
  cbn [lossy_fuel]. destruct (utf8_head (b :: s)) as [[] n] eqn:E.
  - by apply valid_fuel_char.
  - exact (valid_fuel_char fuel replacement_char 3 _ eq_refl ltac:(done) (IH _)).
Qed.

Lemma valid_fuel_of_length fuel s : valid_fuel fuel s = true → utf8_valid s = true.
Proof.
  unfold utf8_valid. revert s. induction fuel as [|fuel IH]; intros s; [by destruct s|].
  destruct s as [|b s]; [done|]. cbn [valid_fuel length].
  destruct (utf8_head (b :: s)) as [ok n] eqn:E. destruct ok; [|done]. simpl.
  intros H%IH. eapply valid_fuel_mono; [|done].
  apply utf8_head_bounds in E; [|done]. rewrite length_drop. simpl in *. lia.
Qed.

(** Every text that passes through lossy decoding is well-formed UTF-8. *)
Lemma from_utf8_lossy_is_valid s : utf8_valid (from_utf8_lossy s) = true.
Proof. eapply valid_fuel_of_length, lossy_fuel_valid. Qed.

(** ASCII text is valid. *)
Definition is_ascii (b : byte) : bool := (b2z b <? 128)%Z.

Lemma ascii_valid s : Forall (fun b => is_ascii b = true) s → utf8_valid s = true.
Proof.
  unfold utf8_valid. induction 1 as [|b s Hb Hs IH]; [done|].
  cbn [length]. apply (valid_fuel_step _ _ 1); [|done|done].
  unfold utf8_head, is_ascii in *. cbn. by rewrite Hb.
Qed.

Lemma from_utf8_lossy_ascii s :
  Forall (fun b => is_ascii b = true) s → from_utf8_lossy s = s.
Proof. intros. by apply from_utf8_lossy_valid, ascii_valid. Qed.

#[export] Hint Resolve from_utf8_lossy_is_valid ascii_valid : hematite.

(** Lossy decoding makes up no ASCII byte. *)
Lemma lossy_fuel_elem fuel s x :
  is_ascii x = true → x ∈ lossy_fuel fuel s → x ∈ s.
Proof.
  intros Hx. revert s. induction fuel as [|fuel IH]; intros s; simpl; [set_solver|].
  destruct s as [|b s]; [set_solver|]. destruct (utf8_head (b :: s)) as [ok n].
  rewrite elem_of_app. intros [H|H].
  - destruct ok; [rewrite <- (take_drop n (b :: s)); set_solver|].
    unfold replacement_char in H.
    repeat (apply elem_of_cons in H as [->|H]; [discriminate Hx|]). set_solver.
  - apply IH in H. rewrite <- (take_drop n (b :: s)). set_solver.
Qed.

Lemma from_utf8_lossy_elem s x : is_ascii x = true → x ∈ from_utf8_lossy s → x ∈ s.
Proof. apply lossy_fuel_elem. Qed.
