(* ===== verification/Net.v ===== *)
(** * IP addresses: [std::net::IpAddr], its parser and its display

    The matcher, the guard, the dialer and the SOCKS5 listener decide on what
    [host.parse::<IpAddr>()] returns, so the standard library's parser is
    modelled as it is written: a cursor over the text, four decimal octets
    without leading zeros, colon-separated hexadecimal groups with one [::]
    and an embedded IPv4 tail.  An address is its numeric value. *)

From S2P Require Import Prelude.

Inductive IpAddr : Type :=
| V4 (a : Z)
| V6 (a : Z).

#[export] Instance IpAddr_eq_dec : EqDecision IpAddr.
Proof. solve_decision. Defined.

(** A value fits the address family. *)
Definition ip_wf (ip : IpAddr) : Prop :=
  match ip with
  | V4 a => (0 <= a < 2 ^ 32)%Z
  | V6 a => (0 <= a < 2 ^ 128)%Z
  end.

Definition is_ipv4 (ip : IpAddr) : bool := match ip with V4 _ => true | V6 _ => false end.

(** [IpAddr::to_canonical]: [::ffff:a.b.c.d] becomes the IPv4 address. *)
Definition to_canonical (ip : IpAddr) : IpAddr :=
  match ip with
  | V4 a => V4 a
  | V6 a => if (a / 2 ^ 32 =? 65535)%Z then V4 (a mod 2 ^ 32) else V6 a
  end.

(** ** The parser *)

Fixpoint read_digits (radix max : Z) (room : nat) (acc : Z) (count : nat) (s : bytes) {struct s} :
    option (Z * nat * bytes) :=
  match s with
  | [] => Some (acc, count, [])
  | b :: r =>
      match to_digit radix b with
      | None => Some (acc, count, s)
      | Some d =>
          let acc := (acc * radix + d)%Z in
          match room with
          | 0 => None
          | S room => if (acc <=? max)%Z then read_digits radix max room acc (S count) r else None
          end
      end
  end.

(** [Parser::read_number]. *)
Definition read_number (radix max : Z) (max_digits : nat) (allow_zero_prefix : bool) (s : bytes) :
    option (Z * bytes) :=
  let has_leading_zero := head s ≟ Some "0"%byte in
  '(v, n, r) ← read_digits radix max max_digits 0 0 s;
  if n =? 0 then None
  else if negb allow_zero_prefix && has_leading_zero && (1 <? n) then None
  else Some (v, r).

Definition read_given_char (c : byte) (s : bytes) : option bytes :=
  match s with b :: r => if b ≟ c then Some r else None | [] => None end.

(** [Parser::read_separator]: the separator is only read after the first item. *)
Definition read_separator {A} (sep : byte) (index : nat) (inner : bytes → option (A * bytes))
    (s : bytes) : option (A * bytes) :=
  match index with
  | 0 => inner s
  | _ => s ← read_given_char sep s; inner s
  end.

Definition read_octet : bytes → option (Z * bytes) := read_number 10 255 3 false.

Definition read_ipv4_addr (s : bytes) : option (Z * bytes) :=
  '(a, s) ← read_separator "."%byte 0 read_octet s;
  '(b, s) ← read_separator "."%byte 1 read_octet s;
  '(c, s) ← read_separator "."%byte 2 read_octet s;
  '(d, s) ← read_separator "."%byte 3 read_octet s;
  Some (((a * 256 + b) * 256 + c) * 256 + d, s)%Z.

Definition read_group : bytes → option (Z * bytes) := read_number 16 u16_max 4 true.

(** [read_groups], with [room] slots to fill starting at slot [i]: the groups
    read, whether the last two came from an embedded IPv4 address, and the
    rest of the text. *)
Fixpoint read_groups (room i : nat) (s : bytes) : list Z * bool * bytes :=
  match room with
  | 0 => ([], false, s)
  | S room =>
      let ipv4 := if 1 <=? room then read_separator ":"%byte i read_ipv4_addr s else None in
      match ipv4 with
      | Some (a, r) => ([a / 65536; a mod 65536]%Z, true, r)
      | None =>
          match read_separator ":"%byte i read_group s with
          | Some (g, r) =>
              let '(gs, v4, r) := read_groups room (S i) r in (g :: gs, v4, r)
          | None => ([], false, s)
          end
      end
  end.

(** Eight groups as one 128-bit value. *)
Definition of_segments (gs : list Z) : Z := fold_left (fun a g => a * 65536 + g)%Z gs 0%Z.

Definition read_ipv6_addr (s : bytes) : option (Z * bytes) :=
  let '(head, head_ipv4, r) := read_groups 8 0 s in
  if length head =? 8 then Some (of_segments head, r)
  else if head_ipv4 then None
  else
    r ← read_given_char ":"%byte r;
    r ← read_given_char ":"%byte r;
    let '(tail, _, r) := read_groups (8 - (length head + 1)) 0 r in
    Some (of_segments (head ++ replicate (8 - length head - length tail) 0%Z ++ tail), r).

(** [str::parse::<IpAddr>()]: IPv4 first, then IPv6, and nothing may follow. *)
Definition parse_ip (s : bytes) : option IpAddr :=
  match read_ipv4_addr s with
  | Some (a, r) => if r ≟ [] then Some (V4 a) else None
  | None =>
      '(a, r) ← read_ipv6_addr s;
      if r ≟ [] then Some (V6 a) else None
  end.

(** [str::parse::<Ipv4Addr>()]. *)
Definition parse_ipv4 (s : bytes) : option Z :=
  if 15 <? length s then None
  else '(a, r) ← read_ipv4_addr s; if r ≟ [] then Some a else None.

(** ** Display *)

Definition octets (a : Z) : list Z :=
  [a / 16777216; a / 65536 mod 256; a / 256 mod 256; a mod 256]%Z.

Definition show_ipv4 (a : Z) : bytes := join_with ["."%byte] (map show_dec (octets a)).

Definition segments (a : Z) : list Z :=
  map (fun k => (a / 2 ^ (16 * Z.of_nat k)) mod 65536)%Z [7; 6; 5; 4; 3; 2; 1; 0].

(** The first longest run of zero segments: its start and its length. *)
Definition zero_span (gs : list Z) : nat * nat :=
  let '(_, _, longest) :=
    fold_left (fun '(i, (cs, cl), (ls, ll)) g =>
      if (g =? 0)%Z then
        let cs := if cl =? 0 then i else cs in
        let cl := S cl in
        (S i, (cs, cl), if ll <? cl then (cs, cl) else (ls, ll))
      else (S i, (0, 0), (ls, ll))) gs (0, (0, 0), (0, 0)) in
  longest.

Definition fmt_subslice (gs : list Z) : bytes := join_with [":"%byte] (map show_hex16 gs).

Definition show_ipv6 (a : Z) : bytes :=
  if (a / 2 ^ 32 =? 65535)%Z then "::ffff:"%bs ++ show_ipv4 (a mod 2 ^ 32)
  else
    let gs := segments a in
    let '(start, len) := zero_span gs in
    if 1 <? len then fmt_subslice (take start gs) ++ "::"%bs ++ fmt_subslice (drop (start + len) gs)
    else fmt_subslice gs.

Definition show_ip (ip : IpAddr) : bytes :=
  match ip with V4 a => show_ipv4 a | V6 a => show_ipv6 a end.

(** ** What the parser accepts *)

(** A text whose next byte is not a digit. *)
Definition stops (radix : Z) (r : bytes) : Prop :=
  match r with [] => True | b :: _ => to_digit radix b = None end.

Lemma read_digits_parse radix max room acc count ds r v :
  parse_digits radix max acc ds = Some v → stops radix r → length ds ≤ room →
  read_digits radix max room acc count (ds ++ r) = Some (v, count + length ds, r).
Proof.
  revert room acc count. induction ds as [|b ds IH]; intros room acc count Hp Hr Hl; simpl in *.
  - injection Hp as ->. rewrite Nat.add_0_r. destruct r as [|b r]; simpl; [done|].
    simpl in Hr. by rewrite Hr.
  - destruct (to_digit radix b) as [d|]; [|done]. simpl in Hp.
    destruct room as [|room]; [lia|]. destruct (_ <=? max)%Z; [|done].
    rewrite IH by (done || lia). do 3 f_equal. lia.
Qed.

Lemma read_number_show radix max maxd zero_ok fuel z r :
  (2 <= radix <= 16)%Z → (0 <= z <= max)%Z →
  fuel ≠ 0 → fuel = maxd → (max < radix ^ Z.of_nat maxd)%Z →
  stops radix r →
  (zero_ok = true ∨ z = 0%Z ∨ head (show_radix fuel radix z [] ++ r) ≠ Some "0"%byte) →
  read_number radix max maxd zero_ok (show_radix fuel radix z [] ++ r) = Some (z, r).
Proof.
  intros Hr Hz Hf -> Hmax Hs H0. unfold read_number.
  assert (length (show_radix maxd radix z []) ≤ maxd) as Hlen.
  { destruct maxd as [|n]; [done|].
    pose proof (show_radix_length radix ltac:(lia) ltac:(lia) (S n) z [] n). simpl length in *. lia. }
  rewrite (read_digits_parse _ _ _ _ _ _ _ z);
    [|by rewrite parse_digits_show_radix by lia|done|done].
  cbn [mbind option_bind].
  assert (show_radix maxd radix z [] ≠ []) as Hne.
  { destruct maxd; [done|]. apply show_radix_S_not_nil. }
  destruct (show_radix maxd radix z []) as [|b ds] eqn:E; [done|].
  simpl length. cbn [Nat.add Nat.eqb app head]. cbn [app head] in H0.
  destruct H0 as [->|[->|Hb]].
  - done.
  - destruct maxd as [|n]; [done|]. cbn [show_radix] in E.
    rewrite (proj2 (Z.ltb_lt 0 radix)) in E by lia. injection E as <- <-.
    by rewrite andb_false_r.
  - rewrite bool_decide_eq_false_2 by done. by rewrite andb_false_r.
Qed.

Lemma read_octet_show (b : byte) r :
  stops 10 r → read_octet (show_dec (b2z b) ++ r) = Some (b2z b, r).
Proof.
  intros Hr. pose proof (b2z_range b).
  replace (show_dec (b2z b)) with (show_radix 3 10 (b2z b) []) by (byte_cases b; reflexivity).
  apply read_number_show; try done; try lia.
  right. byte_cases b; first [by left|by right].
Qed.

Lemma octets_bytes a :
  (0 <= a < 2 ^ 32)%Z → ∃ b1 b2 b3 b4,
    octets a = [b2z b1; b2z b2; b2z b3; b2z b4] ∧
    a = (((b2z b1 * 256 + b2z b2) * 256 + b2z b3) * 256 + b2z b4)%Z.
Proof.
  intros Ha. exists (z2b (a / 16777216)), (z2b (a / 65536)), (z2b (a / 256)), (z2b a).
  rewrite !b2z_z2b. split.
  - unfold octets. repeat f_equal. symmetry. apply Z.mod_small.
    split; [apply Z.div_pos; lia|apply Z.div_lt_upper_bound; lia].
  - rewrite (Z.mod_small (a / 16777216)) by (Z.div_mod_to_equations; lia).
    Z.div_mod_to_equations. lia.
Qed.

Lemma read_separator_0 {A} sep (inner : bytes → option (A * bytes)) s :
  read_separator sep 0 inner s = inner s.
Proof. done. Qed.

Lemma read_separator_S {A} sep i (inner : bytes → option (A * bytes)) r :
  read_separator sep (S i) inner (sep :: r) = inner r.
Proof. simpl. by rewrite bool_decide_true. Qed.

Lemma read_ipv4_addr_show a r :
  (0 <= a < 2 ^ 32)%Z → stops 10 r → read_ipv4_addr (show_ipv4 a ++ r) = Some (a, r).
Proof.
  intros Ha Hr. destruct (octets_bytes a Ha) as (b1 & b2 & b3 & b4 & Ho & Hv).
  unfold show_ipv4, read_ipv4_addr. rewrite Ho. cbn [map join_with].
  rewrite <- !app_assoc. cbn [app]. rewrite read_separator_0.
  do 3 (rewrite read_octet_show by done; cbn [mbind option_bind]; rewrite read_separator_S).
  rewrite read_octet_show by done. cbn [mbind option_bind]. by rewrite <- Hv.
Qed.

(** An IPv4 address is read back from its display. *)
Lemma parse_show_ipv4 a : (0 <= a < 2 ^ 32)%Z → parse_ip (show_ipv4 a) = Some (V4 a).
Proof.
  intros Ha. unfold parse_ip. rewrite <- (app_nil_r (show_ipv4 a)).
  by rewrite read_ipv4_addr_show by done.
Qed.

(** The values the parser returns fit their family. *)
Lemma read_digits_bound radix max room acc count s v n r :
  (0 <= acc <= max)%Z → (0 <= radix)%Z →
  read_digits radix max room acc count s = Some (v, n, r) → (0 <= v <= max)%Z.
Proof.
  revert room acc count. induction s as [|b s IH]; intros room acc count Ha Hrad; simpl.
  { by intros [= <- <- <-]. }
  destruct (to_digit radix b) as [d|] eqn:Ed; [|by intros [= <- <- <-]].
  destruct room as [|room]; [done|]. destruct (Z.leb_spec (acc * radix + d) max); [|done].
  apply IH; [|done]. split; [|done].
  assert (0 <= d)%Z.
  { unfold to_digit, is_ascii_digit, is_ascii_lower, is_ascii_upper, byte_in in Ed.
    repeat case_match; simplify_eq; lia. }
  nia.
Qed.

Lemma read_number_bound radix max maxd z s v r :
  (0 <= max)%Z → (0 <= radix)%Z →
  read_number radix max maxd z s = Some (v, r) → (0 <= v <= max)%Z.
Proof.
  intros Hm Hrad. unfold read_number.
  destruct (read_digits _ _ _ _ _ _) as [[[v' n] r']|] eqn:E; [|done]. simpl.
  apply read_digits_bound in E; [|lia|lia]. repeat case_match; try done. by intros [= <- <-].
Qed.

Lemma read_separator_bound {A} (P : A → Prop) sep i inner s v r :
  (∀ s v r, inner s = Some (v, r) → P v) →
  read_separator sep i inner s = Some (v, r) → P v.
Proof.
  intros H. unfold read_separator. destruct i; [apply H|].
  destruct (read_given_char _ _); [|done]. apply H.
Qed.

Lemma read_octet_bound s v r : read_octet s = Some (v, r) → (0 <= v <= 255)%Z.
Proof. by apply read_number_bound. Qed.

Lemma read_ipv4_addr_bound s a r : read_ipv4_addr s = Some (a, r) → (0 <= a < 2 ^ 32)%Z.
Proof.
  unfold read_ipv4_addr. intros H.
  repeat match type of H with
  | context [mbind _ (read_separator ?c ?i read_octet ?s)] =>
      let E := fresh "E" in
      destruct (read_separator c i read_octet s) as [[? ?]|] eqn:E; [|done];
      apply (read_separator_bound (fun v => 0 <= v <= 255)%Z _ _ _ _ _ _ read_octet_bound) in E;
      cbn [mbind option_bind] in H
  end.
  injection H as <- _. lia.
Qed.

Lemma read_groups_bound room i s gs v4 r :
  read_groups room i s = (gs, v4, r) →
  Forall (fun g => 0 <= g < 65536)%Z gs ∧ length gs ≤ room.
Proof.
  revert i s gs v4 r. induction room as [|room IH]; intros i s gs v4 r; simpl.
  { intros [= <- <- <-]. split; [constructor|done]. }
  destruct (if 1 <=? room then _ else _) as [[a r']|] eqn:E4.
  - intros [= <- <- <-]. destruct (Nat.leb_spec 1 room); [|done].
    apply (read_separator_bound (fun a => 0 <= a < 2 ^ 32)%Z _ _ _ _ _ _ read_ipv4_addr_bound) in E4.
    split; [|simpl; lia].
    repeat constructor; Z.div_mod_to_equations; lia.
  - destruct (read_separator ":"%byte i read_group s) as [[g r']|] eqn:Eg.
    + destruct (read_groups room (S i) r') as [[gs' v4'] r''] eqn:Er.
      intros [= <- <- <-]. apply IH in Er as [Hgs Hlen]. split; [|simpl; lia].
      constructor; [|done].
      apply (read_separator_bound (fun v => 0 <= v <= u16_max)%Z) in Eg;
        [unfold u16_max in *; lia|].
      intros ? ? ?. by apply read_number_bound.
    + intros [= <- <- <-]. split; [constructor|simpl; lia].
Qed.

Lemma of_segments_bound gs :
  Forall (fun g => 0 <= g < 65536)%Z gs →
  (0 <= of_segments gs < 65536 ^ Z.of_nat (length gs))%Z.
Proof.
  unfold of_segments. induction gs as [|g gs IH] using rev_ind; intros H; [simpl; lia|].
  apply Forall_app in H as [H Hg]. inversion Hg; subst.
  rewrite fold_left_app, length_app. simpl fold_left. simpl length.
  rewrite Nat2Z.inj_add, Z.pow_add_r by lia. specialize (IH H). simpl Z.of_nat. lia.
Qed.

Lemma read_ipv6_addr_bound s a r : read_ipv6_addr s = Some (a, r) → (0 <= a < 2 ^ 128)%Z.
Proof.
  unfold read_ipv6_addr.
  destruct (read_groups 8 0 s) as [[hd v4] r1] eqn:Eh.
  apply read_groups_bound in Eh as [Hh Hl].
  destruct (Nat.eqb_spec (length hd) 8) as [E8|].
  { intros [= <- <-]. apply of_segments_bound in Hh. by rewrite E8 in Hh. }
  destruct v4; [done|].
  destruct (read_given_char _ r1) as [r2|]; [|done]. simpl.
  destruct (read_given_char _ r2) as [r3|]; [|done]. simpl.
  destruct (read_groups _ 0 r3) as [[tl ?] r4] eqn:Et.
  apply read_groups_bound in Et as [Ht Hlt]. intros [= <- <-].
  assert (Forall (fun g => 0 <= g < 65536)%Z
            (hd ++ replicate (8 - length hd - length tl) 0%Z ++ tl)) as Hall.
  { apply Forall_app. split; [done|]. apply Forall_app. split; [|done].
    apply Forall_replicate. lia. }
  apply of_segments_bound in Hall.
  rewrite !length_app, length_replicate in Hall.
  replace (length hd + (8 - length hd - length tl + length tl)) with 8 in Hall by lia.
  exact Hall.
Qed.

(** A parsed address is well formed. *)
Lemma parse_ip_wf s ip : parse_ip s = Some ip → ip_wf ip.
Proof.
  unfold parse_ip. destruct (read_ipv4_addr s) as [[a r]|] eqn:E4.
  - case_bool_decide; [|done]. intros [= <-]. by apply read_ipv4_addr_bound in E4.
  - destruct (read_ipv6_addr s) as [[a r]|] eqn:E6; [|done]. simpl.
    case_bool_decide; [|done]. intros [= <-]. by apply read_ipv6_addr_bound in E6.
Qed.

Lemma to_canonical_wf ip : ip_wf ip → ip_wf (to_canonical ip).
Proof.
  destruct ip as [a|a]; simpl; [done|]. intros Ha. case_match; simpl; [|done].
  apply Z.mod_pos_bound. lia.
Qed.

#[export] Hint Resolve parse_ip_wf to_canonical_wf : hematite.
