(* ===== verification/Json.v ===== *)
(** * JSON values and sorted string maps

    [serde_json::Value] as the kernel uses it: configuration arrives as a
    value, annotations leave as one.  [serde_json::Map] (built without
    [preserve_order]) is a map sorted by key, kept here as its sorted list of
    entries, which is also its serialization order. *)

From stdpp Require Import sorting.
From S2P Require Import Prelude.

(** ** Byte-wise string order ([Ord] of [str]) *)

Fixpoint bytes_compare (a b : bytes) : comparison :=
  match a, b with
  | [], [] => Eq
  | [], _ :: _ => Lt
  | _ :: _, [] => Gt
  | x :: a, y :: b =>
      match (b2z x ?= b2z y)%Z with Eq => bytes_compare a b | c => c end
  end.

Definition bytes_le (a b : bytes) : Prop := bytes_compare a b ≠ Gt.

#[export] Instance bytes_le_dec : RelDecision bytes_le.
Proof. intros a b. unfold bytes_le. solve_decision. Defined.

Lemma bytes_compare_eq a b : bytes_compare a b = Eq ↔ a = b.
Proof.
  revert b. induction a as [|x a IH]; intros [|y b]; simpl; try done.
  destruct (Z.compare_spec (b2z x) (b2z y)) as [E|E|E].
  - apply b2z_inj in E as ->. rewrite IH. split; [by intros ->|by intros [= ->]].
  - split; [done|]. intros [= -> ->]. lia.
  - split; [done|]. intros [= -> ->]. lia.
Qed.

Lemma bytes_compare_antisym a b : bytes_compare b a = CompOpp (bytes_compare a b).
Proof.
  revert b. induction a as [|x a IH]; intros [|y b]; simpl; try done.
  rewrite (Z.compare_antisym (b2z x) (b2z y)).
  by destruct (b2z x ?= b2z y)%Z; simpl.
Qed.

#[export] Instance bytes_le_total : Total bytes_le.
Proof.
  intros a b. unfold bytes_le. rewrite (bytes_compare_antisym b a).
  destruct (bytes_compare b a); simpl; [by left|by right|by left].
Qed.

Lemma bytes_compare_lt_trans a b c :
  bytes_compare a b = Lt → bytes_compare b c = Lt → bytes_compare a c = Lt.
Proof.
  revert b c. induction a as [|x a IH]; intros [|y b] [|z c]; simpl; try done.
  destruct (Z.compare_spec (b2z x) (b2z y)) as [E1|E1|E1]; try done;
  destruct (Z.compare_spec (b2z y) (b2z z)) as [E2|E2|E2]; try done;
    intros H1 H2; destruct (Z.compare_spec (b2z x) (b2z z)); try lia; try done; eauto.
Qed.

#[export] Instance bytes_le_antisymm : AntiSymm (=) bytes_le.
Proof.
  intros a b. unfold bytes_le. rewrite (bytes_compare_antisym a b).
  destruct (bytes_compare a b) eqn:E; simpl; try done.
  intros _ _. by apply bytes_compare_eq.
Qed.

#[export] Instance bytes_le_trans : Transitive bytes_le.
Proof.
  intros a b c. unfold bytes_le. intros H1 H2.
  destruct (bytes_compare a b) eqn:E1; try done.
  - by apply bytes_compare_eq in E1 as ->.
  - destruct (bytes_compare b c) eqn:E2; try done.
    + apply bytes_compare_eq in E2 as <-. by rewrite E1.
    + by rewrite (bytes_compare_lt_trans a b c).
Qed.

(** [Vec<String>::sort] and [dedup]. *)
Definition sort_strings (l : list bytes) : list bytes := merge_sort bytes_le l.

Fixpoint dedup (l : list bytes) : list bytes :=
  match l with
  | [] => []
  | x :: l =>
      match dedup l with
      | [] => [x]
      | y :: r => if x ≟ y then y :: r else x :: y :: r
      end
  end.

Lemma dedup_elem x l : x ∈ dedup l ↔ x ∈ l.
Proof.
  induction l as [|a l IH]; simpl; [done|].
  destruct (dedup l) as [|y r] eqn:E.
  - rewrite (elem_of_cons l), <- IH. set_solver.
  - rewrite (elem_of_cons l), <- IH. case_bool_decide as Ea; set_solver.
Qed.

Lemma dedup_head_le a l :
  Forall (bytes_le a) l → Forall (bytes_le a) (dedup l).
Proof.
  rewrite !Forall_forall. intros H x Hx. by apply H, dedup_elem.
Qed.

(** On a sorted list [dedup] leaves each element once, in strict order. *)
Definition bytes_lt (a b : bytes) : Prop := bytes_compare a b = Lt.

Lemma bytes_le_ne_lt a b : bytes_le a b → a ≠ b → bytes_lt a b.
Proof.
  unfold bytes_le, bytes_lt. intros Hle Hne.
  destruct (bytes_compare a b) eqn:E; try done. by apply bytes_compare_eq in E.
Qed.

Lemma dedup_sorted l : StronglySorted bytes_le l → StronglySorted bytes_lt (dedup l).
Proof.
  induction 1 as [|a l Hl IH Ha]; simpl; [constructor|].
  apply dedup_head_le in Ha. destruct (dedup l) as [|y r] eqn:E; [by repeat constructor|].
  case_bool_decide as Ea; [done|].
  constructor; [done|]. apply StronglySorted_inv in IH as [IHr Hy].
  apply Forall_cons in Ha as [Hay Har].
  assert (bytes_lt a y) by by apply bytes_le_ne_lt.
  constructor; [done|]. eapply Forall_impl; [exact Hy|].
  intros z Hz. by eapply bytes_compare_lt_trans.
Qed.

Lemma sort_strings_sorted l : StronglySorted bytes_le (sort_strings l).
Proof. apply StronglySorted_merge_sort; apply _. Qed.

Lemma sort_strings_perm l : sort_strings l ≡ₚ l.
Proof. apply merge_sort_Permutation. Qed.

(** ** Sorted maps *)

Section map.
Context {A : Type}.

Fixpoint map_get (k : bytes) (m : list (bytes * A)) : option A :=
  match m with
  | [] => None
  | (k', v) :: m => if k ≟ k' then Some v else map_get k m
  end.

(** [BTreeMap::insert]: replace or insert at the sorted place. *)
Fixpoint map_insert (k : bytes) (v : A) (m : list (bytes * A)) : list (bytes * A) :=
  match m with
  | [] => [(k, v)]
  | (k', v') :: m' =>
      match bytes_compare k k' with
      | Lt => (k, v) :: m
      | Eq => (k, v) :: m'
      | Gt => (k', v') :: map_insert k v m'
      end
  end.

Lemma map_get_insert_eq k v m : map_get k (map_insert k v m) = Some v.
Proof.
  induction m as [|[k' v'] m IH]; simpl; [by rewrite bool_decide_true|].
  destruct (bytes_compare k k') eqn:E; simpl; try by rewrite bool_decide_true.
  rewrite bool_decide_false; [done|].
  intros ->. by rewrite (proj2 (bytes_compare_eq k' k') eq_refl) in E.
Qed.

Lemma map_get_insert_ne k k0 v m : k ≠ k0 → map_get k (map_insert k0 v m) = map_get k m.
Proof.
  intros Hne. induction m as [|[k' v'] m IH]; simpl; [by rewrite bool_decide_false|].
  destruct (bytes_compare k0 k') eqn:E; simpl.
  - apply bytes_compare_eq in E as <-. by rewrite bool_decide_false.
  - by rewrite (bool_decide_false (k = k0)).
  - case_bool_decide; [done|]. apply IH.
Qed.

Lemma map_insert_Forall (P : bytes → Prop) k v m :
  P k → Forall P (map fst m) → Forall P (map fst (map_insert k v m)).
Proof.
  intros Hk. induction m as [|[k' v'] m IH]; simpl; [by repeat constructor|].
  intros [? ?]%Forall_cons. destruct (bytes_compare k k'); simpl; repeat constructor; auto.
Qed.

(** The keys stay strictly sorted. *)
Lemma map_insert_keys k v m :
  StronglySorted bytes_lt (map fst m) → StronglySorted bytes_lt (map fst (map_insert k v m)).
Proof.
  induction m as [|[k' v'] m IH]; simpl; [by repeat constructor|].
  intros [Hs Hk']%StronglySorted_inv.
  destruct (bytes_compare k k') eqn:E; simpl.
  - apply bytes_compare_eq in E as ->. by constructor.
  - constructor; [by constructor|]. constructor; [done|].
    eapply Forall_impl; [exact Hk'|]. intros z Hz. by eapply bytes_compare_lt_trans.
  - constructor; [by apply IH|]. apply map_insert_Forall; [|done].
    unfold bytes_lt. by rewrite bytes_compare_antisym, E.
Qed.

End map.

(** ** Values *)

(** A number is a non-negative integer, a negative one, or a float kept as
    its text. *)
Inductive number : Type :=
| PosInt (n : Z)
| NegInt (n : Z)
| Float (repr : bytes).

Inductive Value : Type :=
| Null
| Bool (b : bool)
| Number (n : number)
| String_ (s : bytes)
| Array (l : list Value)
| Object (m : list (bytes * Value)).

(** [Value::get] with a string index. *)
Definition get (k : bytes) (v : Value) : option Value :=
  match v with Object m => map_get k m | _ => None end.

Definition as_array (v : Value) : option (list Value) :=
  match v with Array l => Some l | _ => None end.

Definition as_str (v : Value) : option bytes :=
  match v with String_ s => Some s | _ => None end.

Definition as_bool (v : Value) : option bool :=
  match v with Bool b => Some b | _ => None end.

(** [json!] of a list of strings. *)
Definition json_strings (l : list bytes) : Value := Array (map String_ l).

#[export] Hint Rewrite @map_get_insert_eq : hematite.
