(* ===== verification/Matcher.v ===== *)
(** * The shared matcher ([hematite-kernel/src/matcher.rs])

    Domain globs, CIDR prefixes, path globs, header-name entries and the rule
    that combines them.  The regular-expression crate is a parameter: the
    class [RegexEngine] is the part of it the code calls. *)

From S2P Require Import Prelude Net.

(** [regex::RegexBuilder::new(p).case_insensitive(true).build()] and
    [Regex::is_match]. *)
Class RegexEngine := {
  Regex : Type;
  regex_build : bytes → result Regex bytes;
  regex_is_match : Regex → bytes → bool;
}.

Definition MatchConfigError : Type := message.

(** [impl Display for MatchConfigError]. *)
Definition display_match_error (e : MatchConfigError) : message := Fmt "invalid matcher: {}"%bs [e].

(** ** Header names in display form *)

Definition canonical_token (token : bytes) : bytes :=
  match token with
  | first :: rest => to_upper first :: to_ascii_lowercase rest
  | [] => []
  end.

Definition canonical_name (name : bytes) : bytes :=
  join_with ["-"%byte] (map canonical_token (split_on "-"%byte name)).

(** ** Domain globs *)

Record DomainGlob : Type := { suffix : bytes; wildcard : bool }.

Definition star_error (pattern : bytes) : MatchConfigError :=
  Fmt "`*` is only valid as the leading label: {pattern:?}"%bs [Text pattern].

Definition domain_parse (pattern : bytes) : result DomainGlob MatchConfigError :=
  let p := to_ascii_lowercase pattern in
  match strip_prefix "*."%bs p with
  | Some rest =>
      if (rest ≟ []) || contains_byte "*"%byte rest then Err (star_error pattern)
      else Ok {| suffix := rest; wildcard := true |}
  | None =>
      if contains_byte "*"%byte p then Err (star_error pattern)
      else if p ≟ [] then Err (Text "empty domain pattern"%bs)
      else Ok {| suffix := p; wildcard := false |}
  end.

(** The host as it is compared: lower case, one trailing dot removed. *)
Definition normal_host (host : bytes) : bytes :=
  let h := to_ascii_lowercase host in
  default h (strip_suffix ["."%byte] h).

(** [h.as_bytes()[boundary - 1] == b'.'], read as a lookup; that the index is
    in range whenever it is evaluated is [domain_boundary_in_range]. *)
Definition domain_matches (g : DomainGlob) (host : bytes) : bool :=
  let h := normal_host host in
  if h ≟ suffix g then true
  else wildcard g && ends_with (suffix g) h &&
       (h !! (length h - length (suffix g) - 1) ≟ Some "."%byte).

(** ** CIDR prefixes *)

Record Cidr : Type := { net : IpAddr; prefix : Z }.

Definition cidr_parse (s : bytes) : result Cidr MatchConfigError :=
  match split_once "/"%byte s with
  | None => Err (Fmt "bare IP without prefix length: {s:?} (write /32 or /128 explicitly)"%bs [Text s])
  | Some (addr, len) =>
      match parse_ip addr with
      | None => Err (Fmt "invalid CIDR address: {s:?}"%bs [Text s])
      | Some net =>
          match parse_u8 len with
          | None => Err (Fmt "invalid CIDR prefix: {s:?}"%bs [Text s])
          | Some prefix =>
              let max := if is_ipv4 net then 32%Z else 128%Z in
              if (max <? prefix)%Z then Err (Fmt "CIDR prefix out of range: {s:?}"%bs [Text s])
              else Ok {| net := net; prefix := prefix |}
          end
      end
  end.

(** [uN::MAX << (N - prefix)], the bits shifted out being lost. *)
Definition mask (width prefix : Z) : Z :=
  if (prefix =? 0)%Z then 0%Z
  else (Z.shiftl (2 ^ width - 1) (width - prefix) mod 2 ^ width)%Z.

Definition contains_literal (c : Cidr) (ip : IpAddr) : bool :=
  match net c, ip with
  | V4 n, V4 a => (Z.land n (mask 32 (prefix c)) =? Z.land a (mask 32 (prefix c)))%Z
  | V6 n, V6 a => (Z.land n (mask 128 (prefix c)) =? Z.land a (mask 128 (prefix c)))%Z
  | _, _ => false
  end.

Definition cidr_contains (c : Cidr) (ip : IpAddr) : bool :=
  if contains_literal c ip then true
  else
    let canonical := to_canonical ip in
    negb (canonical ≟ ip) && contains_literal c canonical.

Definition cidr_matches_host (c : Cidr) (host : bytes) : bool :=
  match parse_ip host with Some ip => cidr_contains c ip | None => false end.

(** ** Path globs *)

Definition PathGlob : Type := bytes.

Definition path_parse (pattern : bytes) : result PathGlob MatchConfigError := Ok pattern.

(** The loop over the middle parts: each is found at its first occurrence. *)
Fixpoint match_middle (mids : list bytes) (rest : bytes) : option bytes :=
  match mids with
  | [] => Some rest
  | mid :: mids =>
      if mid ≟ [] then match_middle mids rest
      else match find_sub mid rest with
           | Some i => match_middle mids (drop (i + length mid) rest)
           | None => None
           end
  end.

Definition path_matches (pattern : PathGlob) (path : bytes) : bool :=
  let parts := split_on "*"%byte pattern in
  match parts with
  | [_] | [] => pattern ≟ path
  | p0 :: others =>
      match strip_prefix p0 path with
      | None => false
      | Some rest =>
          match match_middle (removelast others) rest with
          | None => false
          | Some rest => ends_with (List.last others []) rest
          end
      end
  end.

Section matcher.
Context `{RE : RegexEngine}.

(** ** Header-name entries *)

Inductive HeaderNameEntry : Type :=
| Literal (l : bytes)
| RegexEntry (re : Regex).

Definition header_entry_parse (entry : bytes) (allow_regex : bool) :
    result HeaderNameEntry MatchConfigError :=
  if (2 <=? length entry) && starts_with ["/"%byte] entry && ends_with ["/"%byte] entry then
    if negb allow_regex then
      Err (Fmt "regex entries are not allowed here: {entry:?}"%bs [Text entry])
    else
      let inner := take (length entry - 2) (drop 1 entry) in
      match regex_build inner with
      | Ok re => Ok (RegexEntry re)
      | Err e => Err (Fmt "invalid header regex {entry:?}: {e}"%bs [Text entry; Text e])
      end
  else if entry ≟ [] then Err (Text "empty header-name entry"%bs)
  else Ok (Literal (to_ascii_lowercase entry)).

Definition header_entry_matches (e : HeaderNameEntry) (header_name : bytes) : bool :=
  let lower := to_ascii_lowercase header_name in
  match e with
  | Literal l => l ≟ lower
  | RegexEntry re => regex_is_match re lower
  end.

End matcher.

(** ** Rules *)

Inductive HostClause : Type :=
| HGlob (g : DomainGlob)
| HCidr (c : Cidr).

Definition host_parse (s : bytes) : result HostClause MatchConfigError :=
  if contains_byte "/"%byte s then let? c := cidr_parse s in Ok (HCidr c)
  else let? g := domain_parse s in Ok (HGlob g).

Definition host_matches (h : HostClause) (host : bytes) : bool :=
  match h with
  | HGlob g => domain_matches g host
  | HCidr c => cidr_matches_host c host
  end.

Record Rule : Type := {
  rule_host : HostClause;
  rule_methods : option (list bytes);
  rule_paths : option (list PathGlob);
}.

Definition rule_matches (r : Rule) (host method path : bytes) : bool :=
  if negb (host_matches (rule_host r) host) then false
  else if match rule_methods r with
          | Some methods => negb (existsb (fun m => m ≟ method) methods)
          | None => false
          end then false
  else if match rule_paths r with
          | Some paths => negb (existsb (fun p => path_matches p path) paths)
          | None => false
          end then false
  else true.

Definition any_rule_matches (rules : list Rule) (host method path : bytes) : bool :=
  existsb (fun r => rule_matches r host method path) rules.

(** ** Properties *)

(** *** Header names *)

Lemma canonical_token_lower t : to_ascii_lowercase (canonical_token t) = to_ascii_lowercase t.
Proof. destruct t; simpl; [done|]. by rewrite to_lower_upper, lowercase_idemp. Qed.

Lemma to_upper_lower b : to_upper (to_lower b) = to_upper b.
Proof. byte_cases b; reflexivity. Qed.

Lemma canonical_token_of_lower t : canonical_token (to_ascii_lowercase t) = canonical_token t.
Proof. destruct t; simpl; [done|]. by rewrite to_upper_lower, lowercase_idemp. Qed.

Lemma lowercase_split c s :
  is_ascii_upper c = false → is_ascii_lower c = false →
  split_on c (to_ascii_lowercase s) = map to_ascii_lowercase (split_on c s).
Proof.
  intros Hu Hl. induction s as [|b s IH]; simpl; [done|]. rewrite IH.
  rewrite (bool_decide_ext _ _ (to_lower_eq_nonletter b c Hu Hl)).
  case_bool_decide; [done|]. by destruct (split_on c s).
Qed.

Lemma lowercase_join c ws :
  is_ascii_upper c = false →
  to_ascii_lowercase (join_with [c] ws) = join_with [c] (map to_ascii_lowercase ws).
Proof.
  intros Hc. induction ws as [|w [|w' ws] IH]; [done|done|].
  rewrite join_with_cons, !lowercase_app, IH by done. rewrite (map_cons _ w), join_with_cons by done.
  simpl. unfold to_lower at 1. by rewrite Hc.
Qed.

Lemma canonical_name_lower name : to_ascii_lowercase (canonical_name name) = to_ascii_lowercase name.
Proof.
  unfold canonical_name. rewrite lowercase_join by done. rewrite map_map.
  rewrite (map_ext _ _ canonical_token_lower), <- lowercase_split by done.
  apply join_split_on.
Qed.

Lemma canonical_name_of_lower name : canonical_name (to_ascii_lowercase name) = canonical_name name.
Proof.
  unfold canonical_name. rewrite lowercase_split, map_map by done.
  by rewrite (map_ext _ _ canonical_token_of_lower).
Qed.

(** Two header names get the same display form exactly when they are equal
    up to ASCII case. *)
Lemma canonical_name_eq_iff a b :
  canonical_name a = canonical_name b ↔ eq_ignore_ascii_case a b = true.
Proof.
  unfold eq_ignore_ascii_case. rewrite bool_decide_eq_true. split.
  - intros H. by rewrite <- (canonical_name_lower a), H, canonical_name_lower.
  - intros H. by rewrite <- (canonical_name_of_lower a), H, canonical_name_of_lower.
Qed.

(** *** Domain globs *)

(** Splitting off a byte from the end of a text of known shape. *)
Lemma lookup_before_suffix (x s : bytes) c :
  x ≠ [] → (x ++ s) !! (length x - 1) = Some c ↔ ∃ y, x = y ++ [c].
Proof.
  intros Hx. destruct (exists_last Hx) as (y & d & ->).
  rewrite length_app. simpl. replace (length y + 1 - 1) with (length y) by lia.
  rewrite <- app_assoc. simpl. rewrite list_lookup_middle by done. split.
  - intros [= ->]. by exists y.
  - intros (y' & Heq). apply app_inj_tail in Heq as [_ ->]. done.
Qed.

(** Whenever the boundary byte is read, the index is in range: no panic. *)
Lemma domain_boundary_in_range g host :
  let h := normal_host host in
  h ≠ suffix g → ends_with (suffix g) h = true →
  1 ≤ length h - length (suffix g) ∧ length h - length (suffix g) - 1 < length h.
Proof.
  intros h Hne [x Hx]%ends_with_spec. rewrite Hx, length_app.
  destruct x; [done|]. simpl. lia.
Qed.

Lemma domain_matches_spec g host :
  domain_matches g host = true ↔
  normal_host host = suffix g ∨
  wildcard g = true ∧ ∃ x, normal_host host = x ++ "."%byte :: suffix g.
Proof.
  unfold domain_matches. set (h := normal_host host).
  destruct (decide (h = suffix g)) as [E|E].
  { rewrite bool_decide_true by done. naive_solver. }
  rewrite bool_decide_false by done. rewrite !andb_true_iff, bool_decide_eq_true, ends_with_spec.
  split.
  - intros [[Hw [x Hx]] Hc]. right. split; [done|].
    assert (x ≠ []) by by intros ->.
    rewrite Hx, length_app, Nat.add_sub in Hc.
    apply lookup_before_suffix in Hc as [y ->]; [|done].
    exists y. by rewrite Hx, <- app_assoc.
  - intros [?|[Hw [x Hx]]]; [done|]. split; [split; [done|]|].
    + exists (x ++ ["."%byte]). by rewrite Hx, <- app_assoc.
    + replace (x ++ "."%byte :: suffix g) with ((x ++ ["."%byte]) ++ suffix g) in Hx
        by by rewrite <- app_assoc.
      rewrite Hx, length_app, Nat.add_sub. apply lookup_before_suffix; [by destruct x|].
      by exists x.
Qed.

(** The labels of a host name. *)
Definition labels (h : bytes) : list bytes := split_on "."%byte h.

(** A glob matches on label boundaries only: the labels of the pattern are
    the last labels of the host, all of them unless the glob has a leading
    star. *)
Lemma domain_matches_labels g host :
  domain_matches g host = true ↔
  ∃ pre, labels (normal_host host) = pre ++ labels (suffix g) ∧ (wildcard g = true ∨ pre = []).
Proof.
  rewrite domain_matches_spec. unfold labels. split.
  - intros [->|[Hw [x ->]]]; [by exists []; eauto|].
    exists (split_on "."%byte x). split; [apply split_on_app_sep|by left].
  - intros (pre & Hpre & Hw). destruct pre as [|l pre].
    + left. by apply split_on_inj in Hpre.
    + right. destruct Hw as [Hw|?]; [|done]. split; [done|].
      exists (join_with ["."%byte] (l :: pre)).
      rewrite <- (join_split_on "."%byte (normal_host host)), Hpre.
      rewrite join_with_app by (done || apply split_on_not_nil).
      by rewrite join_split_on.
Qed.

(** What an accepted pattern compiles to. *)
Lemma domain_parse_Ok p g :
  domain_parse p = Ok g →
  suffix g ≠ [] ∧ ("*"%byte ∉ suffix g) ∧
  to_ascii_lowercase p = (if wildcard g then "*."%bs else []) ++ suffix g.
Proof.
  unfold domain_parse. destruct (strip_prefix _ _) as [rest|] eqn:E.
  - apply strip_prefix_Some in E. rewrite E. intros H. case_match eqn:C; [done|].
    injection H as <-. apply orb_false_iff in C as [C1 C2].
    apply bool_decide_eq_false in C1, C2. done.
  - intros H. case_match eqn:C1; [done|]. case_match eqn:C2; [done|]. injection H as <-.
    by apply bool_decide_eq_false in C1, C2.
Qed.

Lemma domain_parse_star p :
  is_ok (domain_parse p) = false ↔
  p = [] ∨ ("*"%byte ∈ p ∧ ∀ rest, to_ascii_lowercase p = "*."%bs ++ rest → rest = [] ∨ "*"%byte ∈ rest).
Proof.
  assert (Hstar : "*"%byte ∈ to_ascii_lowercase p ↔ "*"%byte ∈ p)
    by by apply elem_of_lowercase_nonletter.
  unfold domain_parse. destruct (strip_prefix _ _) as [rest|] eqn:E.
  - apply strip_prefix_Some in E.
    assert ("*"%byte ∈ p) by (apply Hstar; rewrite E; set_solver).
    assert (p ≠ []) by (intros ->; discriminate E).
    case_match eqn:C; simpl.
    + split; [intros _|done]. right. split; [done|]. intros r Hr.
      rewrite E in Hr. simpl in Hr. injection Hr as <-.
      apply orb_true_iff in C as [C|C]; apply bool_decide_eq_true in C; auto.
    + split; [done|]. intros [?|[_ H3]]; [done|]. specialize (H3 rest E).
      apply orb_false_iff in C as [C1 C2]. apply bool_decide_eq_false in C1, C2. naive_solver.
  - case_match eqn:C1; [|case_match eqn:C2]; simpl.
    + split; [intros _|done]. right. apply bool_decide_eq_true in C1. split; [by apply Hstar|].
      intros r Hr. assert (strip_prefix "*."%bs (to_ascii_lowercase p) = Some r) by by apply strip_prefix_Some.
      congruence.
    + split; [intros _|done]. left. apply bool_decide_eq_true in C2. by destruct p.
    + split; [done|]. apply bool_decide_eq_false in C1, C2. intros [->|[? _]]; [done|]. naive_solver.
Qed.

(** *** CIDR prefixes *)

(** Two addresses of one family agree on their first [p] bits. *)
Definition same_prefix (p : Z) (x y : IpAddr) : Prop :=
  match x, y with
  | V4 a, V4 b => (a / 2 ^ (32 - p) = b / 2 ^ (32 - p))%Z
  | V6 a, V6 b => (a / 2 ^ (128 - p) = b / 2 ^ (128 - p))%Z
  | _, _ => False
  end.

Definition cidr_wf (c : Cidr) : Prop :=
  ip_wf (net c) ∧ (0 <= prefix c <= if is_ipv4 (net c) then 32 else 128)%Z.

Lemma mask_bits w p i :
  (0 < p <= w)%Z → (0 <= i)%Z →
  Z.testbit (mask w p) i = ((w - p <=? i) && (i <? w))%Z.
Proof.
  intros Hp Hi. unfold mask. rewrite (proj2 (Z.eqb_neq p 0)) by lia.
  destruct (Z.ltb_spec i w).
  - rewrite Z.mod_pow2_bits_low, Z.shiftl_spec by lia.
    replace (2 ^ w - 1)%Z with (Z.ones w) by (rewrite Z.ones_equiv; lia).
    rewrite andb_true_r. destruct (Z.leb_spec (w - p) i).
    + apply Z.ones_spec_low. lia.
    + apply Z.testbit_neg_r. lia.
  - rewrite Z.mod_pow2_bits_high by lia. by rewrite andb_false_r.
Qed.

Lemma land_mask w p a :
  (0 <= p <= w)%Z → (0 <= a < 2 ^ w)%Z →
  Z.land a (mask w p) = Z.shiftl (a / 2 ^ (w - p)) (w - p).
Proof.
  intros Hp Ha. rewrite <- Z.shiftr_div_pow2 by lia.
  apply Z.bits_inj'. intros i Hi. rewrite Z.land_spec, Z.shiftl_spec by lia.
  destruct (Z.leb_spec (w - p) i) as [Hle|Hgt].
  2:{ rewrite (Z.testbit_neg_r _ (i - _)) by lia.
      destruct (Z.eqb_spec p 0) as [->|].
      - unfold mask. simpl. rewrite Z.testbit_0_l. by rewrite andb_false_r.
      - rewrite mask_bits by lia. rewrite (proj2 (Z.leb_gt _ _)) by lia. apply andb_false_r. }
  rewrite Z.shiftr_spec by lia. replace (i - (w - p) + (w - p))%Z with i by lia.
  destruct (Z.ltb_spec i w) as [Hlt|Hge].
  - rewrite mask_bits by lia.
    rewrite (proj2 (Z.leb_le _ _)), (proj2 (Z.ltb_lt _ _)) by lia. apply andb_true_r.
  - assert (Z.testbit a i = false) as ->; [|done].
    rewrite <- (Z.mod_small a (2 ^ w)) by lia. apply Z.mod_pow2_bits_high. lia.
Qed.

Lemma masked_eq w p a b :
  (0 <= p <= w)%Z → (0 <= a < 2 ^ w)%Z → (0 <= b < 2 ^ w)%Z →
  (Z.land a (mask w p) =? Z.land b (mask w p))%Z = true ↔
  (a / 2 ^ (w - p) = b / 2 ^ (w - p))%Z.
Proof.
  intros Hp Ha Hb. rewrite Z.eqb_eq, !land_mask by done.
  rewrite !Z.shiftl_mul_pow2 by lia.
  pose proof (Z.pow_pos_nonneg 2 (w - p) ltac:(lia) ltac:(lia)).
  split; [|by intros ->]. apply Z.mul_reg_r. lia.
Qed.

Lemma contains_literal_spec c ip :
  cidr_wf c → ip_wf ip → contains_literal c ip = true ↔ same_prefix (prefix c) (net c) ip.
Proof.
  intros [Hn Hp] Hip. unfold contains_literal, same_prefix.
  destruct (net c), ip; simpl in *; try done; by apply masked_eq.
Qed.

(** A prefix contains an address exactly when they agree on the prefix bits,
    as written or after an IPv4-mapped address is read as IPv4. *)
Lemma cidr_contains_spec c ip :
  cidr_wf c → ip_wf ip →
  cidr_contains c ip = true ↔
  same_prefix (prefix c) (net c) ip ∨ same_prefix (prefix c) (net c) (to_canonical ip).
Proof.
  intros Hc Hip. unfold cidr_contains.
  rewrite <- (contains_literal_spec c ip), <- (contains_literal_spec c (to_canonical ip))
    by auto with hematite.
  destruct (contains_literal c ip) eqn:E; [naive_solver|].
  case_bool_decide as Eq; simpl; [|naive_solver].
  rewrite Eq, E. naive_solver.
Qed.

Lemma parse_digits_bound radix max acc s v :
  (0 <= radix)%Z → (0 <= acc <= max)%Z →
  parse_digits radix max acc s = Some v → (0 <= v <= max)%Z.
Proof.
  intros Hr. revert acc. induction s as [|b s IH]; intros acc Ha; simpl; [by intros [= <-]|].
  destruct (to_digit radix b) as [d|] eqn:Ed; [|done]. simpl.
  destruct (Z.leb_spec (acc * radix + d) max); [|done]. apply IH. split; [|done].
  assert (0 <= d)%Z; [|nia].
  unfold to_digit, is_ascii_digit, is_ascii_lower, is_ascii_upper, byte_in in Ed.
  repeat case_match; simplify_eq; lia.
Qed.

Lemma parse_uint_bound radix max s v :
  (0 <= radix)%Z → (0 <= max)%Z → parse_uint radix max s = Some v → (0 <= v <= max)%Z.
Proof.
  intros Hr Hm. unfold parse_uint. repeat case_match; try done;
    intros H'; eapply parse_digits_bound in H'; eauto; lia.
Qed.

(** A compiled prefix is well formed. *)
Lemma cidr_parse_wf s c : cidr_parse s = Ok c → cidr_wf c.
Proof.
  unfold cidr_parse. destruct (split_once _ _) as [[addr len]|]; [|done].
  destruct (parse_ip addr) as [ip|] eqn:Eip; [|done].
  destruct (parse_u8 len) as [p|] eqn:Ep; [|done].
  destruct (Z.ltb_spec (if is_ipv4 ip then 32 else 128) p); [done|].
  intros [= <-]. split; simpl; [by eapply parse_ip_wf|].
  apply parse_uint_bound in Ep; [|done|done]. lia.
Qed.

(** *** Path globs *)

(** The reference reading of a pattern: a star stands for any run of bytes,
    every other byte for itself. *)
Inductive glob : bytes → bytes → Prop :=
| glob_nil : glob [] []
| glob_skip p s : glob p s → glob ("*"%byte :: p) s
| glob_eat p b s : glob ("*"%byte :: p) s → glob ("*"%byte :: p) (b :: s)
| glob_byte b p s : b ≠ "*"%byte → glob p s → glob (b :: p) (b :: s).

Lemma glob_star p s : glob ("*"%byte :: p) s ↔ ∃ x y, s = x ++ y ∧ glob p y.
Proof.
  split.
  - remember ("*"%byte :: p) as q eqn:Eq. induction 1 as [|p' s H _|p' b s H IH|b p' s Hb H _];
      simplify_eq.
    + by exists [], s.
    + destruct (IH eq_refl) as (x & y & -> & Hy). by exists (b :: x), y.
  - intros (x & y & -> & Hy). induction x as [|b x IH]; simpl; by constructor.
Qed.

Lemma glob_literal w q s :
  "*"%byte ∉ w → glob (w ++ q) s ↔ ∃ r, s = w ++ r ∧ glob q r.
Proof.
  revert s. induction w as [|b w IH]; intros s Hw; simpl.
  { split; [by exists s|]. by intros (r & -> & ?). }
  apply not_elem_of_cons in Hw as [Hb Hw]. split.
  - intros H. inversion H; subst; [done|done|].
    apply IH in H4 as (r & -> & Hr); [|done]. by exists r.
  - intros (r & -> & Hr). constructor; [done|]. apply IH; [done|]. by exists r.
Qed.

(** The parts after the first one, each preceded by any run of bytes. *)
Fixpoint tail_match (ms : list bytes) (s : bytes) : Prop :=
  match ms with
  | [] => s = []
  | m :: ms => ∃ x y, s = x ++ m ++ y ∧ tail_match ms y
  end.

Lemma glob_parts p0 ms s :
  "*"%byte ∉ p0 → Forall (fun w => "*"%byte ∉ w) ms →
  glob (join_with ["*"%byte] (p0 :: ms)) s ↔ ∃ r, s = p0 ++ r ∧ tail_match ms r.
Proof.
  intros Hp0 Hms. revert p0 s Hp0. induction Hms as [|m ms Hm Hms IH]; intros p0 s Hp0.
  - simpl. rewrite <- (app_nil_r p0) at 1. rewrite glob_literal by done.
    split; intros (r & -> & Hr); exists r; (split; [done|]).
    + by inversion Hr.
    + rewrite Hr. constructor.
  - rewrite join_with_cons, glob_literal by done. simpl app. f_equiv. intros r. f_equiv.
    rewrite glob_star. setoid_rewrite IH; [|done]. simpl. split.
    + intros (x & y & -> & z & -> & Hz). by exists x, z.
    + intros (x & y & -> & Hz). exists x, (m ++ y). split; [done|]. by exists y.
Qed.

Lemma tail_match_mono ms z s : ms ≠ [] → tail_match ms s → tail_match ms (z ++ s).
Proof.
  destruct ms as [|m ms]; [done|]. intros _ (x & y & -> & H). exists (z ++ x), y.
  by rewrite <- app_assoc.
Qed.

(** Taking the first occurrence of each middle part loses no match. *)
Lemma match_middle_greedy mids lst s :
  (∃ r, match_middle mids s = Some r ∧ ends_with lst r = true) ↔ tail_match (mids ++ [lst]) s.
Proof.
  revert s. induction mids as [|m mids IH]; intros s; simpl.
  - setoid_rewrite ends_with_spec. split.
    + intros (r & [= ->] & x & ->). exists x, []. by rewrite app_nil_r.
    + intros (x & y & -> & ->). exists (x ++ lst ++ []). rewrite app_nil_r. eauto.
  - assert (mids ++ [lst] ≠ []) as Hne by by destruct mids.
    case_bool_decide as Em.
    + subst m. rewrite IH. split.
      * intros H. by exists [], s.
      * intros (x & y & -> & H). by apply tail_match_mono.
    + destruct (find_sub m s) as [i|] eqn:Ef.
      * apply find_sub_Some in Ef as (pre & post & -> & <- & Hmin).
        rewrite app_assoc, drop_app_length' by by rewrite length_app.
        rewrite IH. split.
        -- intros H. exists pre, post. by rewrite <- app_assoc.
        -- intros (x & y & Heq & H). rewrite <- app_assoc in Heq.
           apply Hmin in Heq as Hlen.
           assert (∃ z, post = z ++ y) as [z ->]; [|by apply tail_match_mono].
           apply (f_equal (drop (length pre + length m))) in Heq.
           rewrite app_assoc, drop_app_length' in Heq by by rewrite length_app.
           rewrite Heq, app_assoc, drop_app_le by (rewrite length_app; lia). eauto.
      * rewrite find_sub_None in Ef. split; [by intros (? & ? & ?)|].
        intros (x & y & -> & _). by destruct (Ef x y).
Qed.

(** [PathGlob::matches] decides the reference reading of the pattern. *)
Lemma path_matches_glob pat path : path_matches pat path = true ↔ glob pat path.
Proof.
  unfold path_matches.
  pose proof (split_on_no_sep "*"%byte pat) as Hsep.
  rewrite <- (join_split_on "*"%byte pat) at 2.
  pose proof (join_split_on "*"%byte pat) as Hjoin.
  destruct (split_on "*"%byte pat) as [|p0 others] eqn:E; [by apply split_on_not_nil in E|].
  apply Forall_cons in Hsep as [Hp0 Hothers].
  rewrite glob_parts by done. destruct others as [|p1 others].
  - simpl in Hjoin. subst p0. rewrite bool_decide_eq_true. simpl. split.
    + intros <-. exists []. by rewrite app_nil_r.
    + intros (r & -> & ->). by rewrite app_nil_r.
  - assert (p1 :: others ≠ []) as Hne by done.
    pose proof (app_removelast_last [] Hne) as Hsplit.
    set (mids := removelast (p1 :: others)) in *. set (lst := List.last (p1 :: others) []) in *.
    clearbody mids lst. rewrite Hsplit. cbv zeta. clear Hsplit Hjoin Hothers E Hne p1 others.
    destruct (strip_prefix p0 path) as [r|] eqn:Ep.
    + apply strip_prefix_Some in Ep as ->. split.
      * intros H. exists r. split; [done|]. apply match_middle_greedy.
        destruct (match_middle mids r) as [r'|]; [|done]. eauto.
      * intros (r' & Heq & H). apply app_inv_head in Heq as <-.
        apply match_middle_greedy in H as (r'' & -> & H). done.
    + split; [done|]. intros (r & -> & _).
      assert (strip_prefix p0 (p0 ++ r) = Some r) by by apply strip_prefix_Some. congruence.
Qed.

(** ** Guarantees *)

(** C34: a host matches an accepted domain pattern exactly when its labels,
    lower-cased and without one trailing dot, are the labels of the
    lower-cased pattern, or, for a pattern that starts with a star and a dot,
    end with the labels of what follows them. *)
Theorem domain_glob_matches_labels p g host :
  domain_parse p = Ok g →
  domain_matches g host = true ↔
  match strip_prefix "*."%bs (to_ascii_lowercase p) with
  | Some rest => ∃ pre, labels (normal_host host) = pre ++ labels rest
  | None => labels (normal_host host) = labels (to_ascii_lowercase p)
  end.
Proof.
  intros H. destruct (domain_parse_Ok _ _ H) as (_ & Hstar & Hp). rewrite domain_matches_labels, Hp.
  destruct (wildcard g).
  - rewrite (proj2 (strip_prefix_Some "*."%bs _ (suffix g)) eq_refl).
    split; intros (pre & Hl); exists pre; [apply Hl|auto].
  - destruct (strip_prefix _ _) as [rest|] eqn:E.
    + apply strip_prefix_Some in E. simpl in E. rewrite E in Hstar. set_solver.
    + split; [intros (pre & Hl & [?| ->]); [done|exact Hl]|]. intros Hl. exists []. auto.
Qed.

Lemma domain_glob_matches_labels_witness :
  domain_matches {| suffix := "example.com"%bs; wildcard := true |} "API.Example.com."%bs = true ↔
  ∃ pre, labels (normal_host "API.Example.com."%bs) = pre ++ labels "example.com"%bs.
Proof. apply (domain_glob_matches_labels "*.Example.COM"%bs). vm_compute. reflexivity. Defined.

(** C35: a compiled CIDR contains an address exactly when the two agree on the
    prefix bits, the address read as written or as the IPv4 address it maps;
    the prefix length is within the family's width. *)
Theorem cidr_matches_prefix s c ip :
  cidr_parse s = Ok c → ip_wf ip →
  (0 <= prefix c <= if is_ipv4 (net c) then 32 else 128)%Z ∧
  (cidr_contains c ip = true ↔
   same_prefix (prefix c) (net c) ip ∨ same_prefix (prefix c) (net c) (to_canonical ip)).
Proof.
  intros H%cidr_parse_wf Hip. split; [apply H|]. by apply cidr_contains_spec.
Qed.

Lemma cidr_matches_prefix_witness :
  (0 <= 8 <= 32)%Z ∧
  (cidr_contains {| net := V4 167772160; prefix := 8 |} (V6 281470849548289) = true ↔
   same_prefix 8 (V4 167772160) (V6 281470849548289) ∨
   same_prefix 8 (V4 167772160) (to_canonical (V6 281470849548289))).
Proof.
  apply (cidr_matches_prefix "10.0.0.0/8"%bs {| net := V4 167772160; prefix := 8 |} (V6 281470849548289)).
  - vm_compute. reflexivity.
  - vm_compute. done.
Defined.

(** The greedy scan of [PathGlob::matches] decides the reference reading
    of a pattern, in which a star stands for any run of bytes. *)
Theorem path_glob_sound_complete pat path : path_matches pat path = true ↔ glob pat path.
Proof. apply path_matches_glob. Qed.

(** A rule applies exactly when its host clause, its methods (if given)
    and its path globs (if given) all accept the request. *)
Theorem rule_matches_iff r host method path :
  rule_matches r host method path = true ↔
  host_matches (rule_host r) host = true ∧
  (∀ ms, rule_methods r = Some ms → method ∈ ms) ∧
  (∀ ps, rule_paths r = Some ps → ∃ p, p ∈ ps ∧ glob p path).
Proof.
  unfold rule_matches. destruct (host_matches (rule_host r) host); simpl; [|naive_solver].
  assert (∀ ms, existsb (fun m => m ≟ method) ms = true ↔ method ∈ ms) as Hm.
  { intros ms. rewrite existsb_exists. setoid_rewrite <- list_elem_of_In.
    setoid_rewrite bool_decide_eq_true. naive_solver. }
  assert (∀ ps, existsb (fun p => path_matches p path) ps = true ↔ ∃ p, p ∈ ps ∧ glob p path) as Hp.
  { intros ps. rewrite existsb_exists. setoid_rewrite <- list_elem_of_In.
    by setoid_rewrite path_matches_glob. }
  destruct (rule_methods r) as [ms|]; [specialize (Hm ms); destruct (existsb _ ms)|];
  (destruct (rule_paths r) as [ps|]; [specialize (Hp ps); destruct (existsb _ ps)|]);
    simpl; naive_solver.
Qed.
