(* ===== verification/Summary.v ===== *)
(** * The kernel's data ([summary.rs], [verdict.rs], [secret.rs])

    The request summary with its header multimap and buffered body, verdicts
    and traces, secrets and the resolver they come from. *)

From Stdlib Require Import QArith.
From S2P Require Import Prelude Json Matcher.
#[local] Close Scope Q_scope.

(** ** Requests ([summary.rs]) *)

Inductive Mode : Type := Http | Https | Tunnel.

#[export] Instance mode_eq_dec : EqDecision Mode.
Proof. solve_decision. Defined.

(** The ordered header multimap: wire order and casing kept. *)
Definition Headers : Type := list (bytes * bytes).

Definition headers_first (hs : Headers) (name : bytes) : option bytes :=
  let want := to_ascii_lowercase name in
  snd <$> List.find (fun h => to_ascii_lowercase h.1 ≟ want) hs.

(** [Headers::map_values]: the closure also updates what it captures, here
    the state [st]. *)
Fixpoint map_values {S} (f : S → bytes → bytes → option bytes * S) (st : S) (hs : Headers) :
    Headers * S :=
  match hs with
  | [] => ([], st)
  | (n, v) :: hs =>
      let '(new, st) := f st n v in
      let '(hs, st) := map_values f st hs in
      ((n, default v new) :: hs, st)
  end.

(** [Headers::retain]: what is kept, and the canonical names removed. *)
Fixpoint retain (keep : bytes → bool) (hs : Headers) : Headers * list bytes :=
  match hs with
  | [] => ([], [])
  | (n, v) :: hs =>
      let '(kept, removed) := retain keep hs in
      if keep n then ((n, v) :: kept, removed) else (kept, canonical_name n :: removed)
  end.

Record Body : Type := { body_bytes : bytes; over_cap : bool }.

Inductive OverCapError : Type := MkOverCapError.

(** [Body::replace]: the result, and the body afterwards. *)
Definition body_replace (b : Body) (new : bytes) : result unit OverCapError * Body :=
  if over_cap b then (Err MkOverCapError, b)
  else (Ok tt, {| body_bytes := new; over_cap := over_cap b |}).

Record RequestSummary : Type := {
  mode : Mode;
  method : bytes;
  host : bytes;
  port : Z;
  path : bytes;
  query : bytes;
  headers : Headers;
  body : Body;
  sni : option bytes;
  remote_addr : option bytes;
}.

(** Assignment to one field. *)
Definition set_headers (hs : Headers) (r : RequestSummary) : RequestSummary :=
  {| mode := mode r; method := method r; host := host r; port := port r; path := path r;
     query := query r; headers := hs; body := body r; sni := sni r; remote_addr := remote_addr r |}.
Definition set_query (q : bytes) (r : RequestSummary) : RequestSummary :=
  {| mode := mode r; method := method r; host := host r; port := port r; path := path r;
     query := q; headers := headers r; body := body r; sni := sni r; remote_addr := remote_addr r |}.
Definition set_path (p : bytes) (r : RequestSummary) : RequestSummary :=
  {| mode := mode r; method := method r; host := host r; port := port r; path := p;
     query := query r; headers := headers r; body := body r; sni := sni r; remote_addr := remote_addr r |}.
Definition set_body (b : Body) (r : RequestSummary) : RequestSummary :=
  {| mode := mode r; method := method r; host := host r; port := port r; path := path r;
     query := query r; headers := headers r; body := b; sni := sni r; remote_addr := remote_addr r |}.

(** ** Verdicts and traces ([verdict.rs]) *)

Record Response : Type := {
  status : Z;
  resp_headers : list (bytes * bytes);
  resp_body : bytes;
}.

Inductive Verdict : Type :=
| Continue
| Reject (response : option Response)
| Stub (response : Response).

Inductive TraceVerdict : Type := TContinue | TReject | TStub | TError.

#[export] Instance trace_verdict_eq_dec : EqDecision TraceVerdict.
Proof. solve_decision. Defined.

(** A duration in milliseconds is a rational here. *)
Record Trace : Type := {
  trace_name : bytes;
  trace_verdict : TraceVerdict;
  trace_duration_ms : Q;
  trace_error : option message;
  annotations : list (bytes * Value);
}.

(** ** Secrets ([secret.rs]) *)

(** A secret's bytes are reached through [expose_for_swap] only. *)
Inductive Secret : Type := MkSecret (value : bytes).

Definition expose_for_swap {R} (s : Secret) (f : bytes → R) : R :=
  match s with MkSecret b => f b end.

(** [impl Debug for Secret]. *)
Definition debug_secret (s : Secret) : bytes := "Secret(<redacted>)"%bs.

(** [std::time::Duration], in nanoseconds. *)
Definition Duration : Type := Z.

Definition duration_from_secs (n : Z) : Duration := (n * 1000000000)%Z.
Definition duration_from_millis (n : Z) : Duration := (n * 1000000)%Z.

Inductive SourceKind : Type :=
| Env (var : bytes)
| File (path : bytes).

Record SourceRef : Type := {
  kind : SourceKind;
  json_key : option bytes;
  ttl : option Duration;
  failure_ttl : option Duration;
}.

#[export] Instance source_kind_eq_dec : EqDecision SourceKind.
Proof. solve_decision. Defined.
#[export] Instance source_ref_eq_dec : EqDecision SourceRef.
Proof. solve_decision. Defined.

Definition source_name (s : SourceRef) : bytes :=
  match kind s with Env var => var | File path => path end.

Record ResolveError : Type := { err_source : SourceRef; reason : message }.

(** [impl Display for ResolveError]. *)
Definition display_resolve_error (e : ResolveError) : message :=
  Fmt "secret source {:?} failed to resolve: {}"%bs [Text (source_name (err_source e)); reason e].

(** The trait: resolution does I/O and keeps a cache, so it reads and
    updates a world of type [W]. *)
Record SecretResolver (W : Type) : Type := {
  resolve : SourceRef → W → result Secret ResolveError * W;
}.
Arguments resolve {W} r source w : rename.

(** ** Lemmas on headers *)

Lemma map_values_names {S} (f : S → bytes → bytes → option bytes * S) st hs :
  map fst (map_values f st hs).1 = map fst hs.
Proof.
  revert st. induction hs as [|[n v] hs IH]; intros st; simpl; [done|].
  destruct (f st n v) as [new st']. specialize (IH st').
  destruct (map_values f st' hs). simpl in *. by rewrite IH.
Qed.

(** [first] sees names up to ASCII case only. *)
Lemma headers_first_case hs a b :
  eq_ignore_ascii_case a b = true → headers_first hs a = headers_first hs b.
Proof.
  unfold eq_ignore_ascii_case, headers_first. rewrite bool_decide_eq_true. by intros ->.
Qed.

Lemma retain_spec keep hs :
  retain keep hs =
    (List.filter (fun h => keep h.1) hs,
     map (fun h => canonical_name h.1) (List.filter (fun h => negb (keep h.1)) hs)).
Proof.
  induction hs as [|[n v] hs IH]; simpl; [done|]. rewrite IH. by destruct (keep n).
Qed.
