(* ===== verification/Codec.v ===== *)
(** * Byte codecs of the swap engine ([hematite-kernel/src/codec.rs]) *)

From S2P Require Import Prelude.

(** ** Base64 *)

Definition B64 : bytes := "ABCDEFGHIJKLMNOPQRSTUVWXYZabcdefghijklmnopqrstuvwxyz0123456789+/"%bs.

(** [B64[i]]: the code masks every index with 0x3f. *)
Definition b64_char (i : Z) : byte := default Byte.x00 (B64 !! Z.to_nat i).

Definition encode_chunk (chunk : bytes) : bytes :=
  let b0 := b2z (default Byte.x00 (chunk !! 0)) in
  let b1 := b2z (default Byte.x00 (chunk !! 1)) in
  let b2 := b2z (default Byte.x00 (chunk !! 2)) in
  let n := Z.lor (Z.lor (Z.shiftl b0 16) (Z.shiftl b1 8)) b2 in
  [ b64_char (Z.land (Z.shiftr n 18) 63);
    b64_char (Z.land (Z.shiftr n 12) 63);
    (if 1 <? length chunk then b64_char (Z.land (Z.shiftr n 6) 63) else "="%byte);
    (if 2 <? length chunk then b64_char (Z.land n 63) else "="%byte) ].

Definition base64_encode (input : bytes) : bytes :=
  concat (map encode_chunk (chunks 3 input)).

Definition val (c : byte) : option Z :=
  if byte_in 65 90 c then Some (b2z c - 65)%Z
  else if byte_in 97 122 c then Some (b2z c - 97 + 26)%Z
  else if byte_in 48 57 c then Some (b2z c - 48 + 52)%Z
  else if c ≟ "+"%byte then Some 62%Z
  else if c ≟ "/"%byte then Some 63%Z
  else None.

(** The loop over one chunk: [i] is the position, [n] the accumulator. *)
Fixpoint decode_sextets (i n : Z) (chunk : bytes) : option Z :=
  match chunk with
  | [] => Some n
  | c :: chunk =>
      v ← (if c ≟ "="%byte then Some 0%Z else val c);
      if (c ≟ "="%byte) && (i <? 2)%Z then None
      else decode_sextets (i + 1) (Z.lor n (Z.shiftl v (18 - 6 * i))) chunk
  end.

Definition decode_chunk (chunk : bytes) : option bytes :=
  let pad := length (List.filter (fun c => c ≟ "="%byte) chunk) in
  if 2 <? pad then None
  else
    n ← decode_sextets 0 0 chunk;
    Some ([z2b (Z.land (Z.shiftr n 16) 255)]
          ++ (if pad <? 2 then [z2b (Z.land (Z.shiftr n 8) 255)] else [])
          ++ (if pad <? 1 then [z2b (Z.land n 255)] else [])).

Fixpoint decode_chunks (cs : list bytes) : option bytes :=
  match cs with
  | [] => Some []
  | c :: cs => x ← decode_chunk c; y ← decode_chunks cs; Some (x ++ y)
  end.

Definition base64_decode (input : bytes) : option bytes :=
  let s := trim input in
  if s ≟ [] then Some []
  else if negb (length s mod 4 =? 0) then None
  else decode_chunks (chunks 4 s).

(** ** Percent-encoding *)

Definition is_unreserved (b : byte) : bool :=
  is_ascii_alphanumeric b || (b ≟ "-"%byte) || (b ≟ "."%byte) || (b ≟ "_"%byte) || (b ≟ "~"%byte).

Definition percent_byte (b : byte) : bytes :=
  if is_unreserved b then [b]
  else [ "%"%byte; to_upper (digit (Z.shiftr (b2z b) 4)); to_upper (digit (Z.land (b2z b) 15)) ].

Definition percent_encode (s : bytes) : bytes := concat (map percent_byte s).

(** ** Replace-all

    One iteration of the [while] loop per unit of fuel; each advances [i] by
    at least one, so the length of the haystack is enough fuel. *)

Fixpoint replace_loop (fuel : nat) (haystack needle replacement : bytes) : bytes * nat :=
  match fuel, haystack with
  | _, [] => ([], 0)
  | 0, _ => ([], 0)
  | S fuel, b :: rest =>
      match strip_prefix needle haystack with
      | Some rest =>
          let '(out, count) := replace_loop fuel rest needle replacement in
          (replacement ++ out, S count)
      | None =>
          let '(out, count) := replace_loop fuel rest needle replacement in
          (b :: out, count)
      end
  end.

Definition replace_all (haystack needle replacement : bytes) : bytes * nat :=
  if needle ≟ [] then (haystack, 0)
  else replace_loop (length haystack) haystack needle replacement.

(** ** Properties of base64 *)

(** [lia] on quotients and remainders by constants. *)
#[local] Ltac Zify.zify_post_hook ::= Z.to_euclidean_division_equations.

Lemma chunks_fuel_more {A} (n f f' : nat) (l : list A) :
  0 < n → length l ≤ f → length l ≤ f' → chunks_fuel f n l = chunks_fuel f' n l.
Proof.
  intros Hn. revert f' l. induction f as [|f IH]; intros f' l Hf Hf'; destruct l as [|a l];
    destruct f'; simpl in *; try done; try lia.
  f_equal. apply IH; rewrite length_drop; simpl; lia.
Qed.

Lemma chunks_app {A} n (c l : list A) :
  0 < n → length c = n → chunks n (c ++ l) = c :: chunks n l.
Proof.
  intros Hn Hc. unfold chunks. destruct c as [|a c]; [simpl in *; lia|].
  assert (take n ((a :: c) ++ l) = a :: c) as Ht by by apply take_app_length'.
  assert (drop n ((a :: c) ++ l) = l) as Hd by by apply drop_app_length'.
  rewrite length_app. simpl app in *. simpl length. cbn [plus chunks_fuel].
  rewrite Ht, Hd. f_equal. apply chunks_fuel_more; [done|lia|lia].
Qed.

Lemma chunks_short {A} n (l : list A) : l ≠ [] → length l ≤ n → chunks n l = [l].
Proof.
  intros Hne Hn. unfold chunks. destruct l as [|a l]; [done|]. simpl length. cbn [chunks_fuel].
  rewrite take_ge, drop_ge by done. by destruct (length l).
Qed.

Lemma chunks_concat {A} n (cs : list (list A)) :
  0 < n → Forall (fun c => length c = n) cs → chunks n (concat cs) = cs.
Proof.
  intros Hn. induction 1 as [|c cs Hc _ IH]; simpl; [done|]. by rewrite chunks_app, IH.
Qed.

(** Cutting a text into chunks loses nothing and leaves no empty chunk. *)
Lemma chunks_ind (P : bytes → list bytes → Prop) n :
  0 < n → P [] [] →
  (∀ c l, c ≠ [] → length c ≤ n → P l (chunks n l) → P (c ++ l) (c :: chunks n l)) →
  ∀ l, P l (chunks n l).
Proof.
  intros Hn H0 HS l.
  remember (length l) as k eqn:Hk. revert l Hk.
  induction (lt_wf k) as [k _ IH]. intros l ->.
  destruct (decide (l = [])) as [->|Hne]; [done|].
  destruct (decide (length l ≤ n)) as [Hle|Hgt].
  - rewrite chunks_short by done. specialize (HS l [] Hne Hle).
    rewrite app_nil_r in HS. by apply HS.
  - rewrite <- (take_drop n l). rewrite chunks_app by (rewrite ?length_take; lia).
    apply HS; [|rewrite length_take; lia|].
    + destruct l; [done|]. by destruct n; [lia|].
    + apply (IH (length (drop n l))); [rewrite length_drop; lia|done].
Qed.

Lemma b64_alphabet i :
  (0 <= i < 64)%Z →
  (val (b64_char i) ≟ Some i) && is_ascii_graphic (b64_char i) && negb (b64_char i ≟ "="%byte) = true.
Proof.
  intros Hi.
  assert (forallb (fun i => (val (b64_char i) ≟ Some i) && is_ascii_graphic (b64_char i)
                            && negb (b64_char i ≟ "="%byte)) (seqZ 0 64) = true) as H
    by (vm_compute; reflexivity).
  rewrite forallb_forall in H. apply H, list_elem_of_In, elem_of_seqZ. lia.
Qed.

Lemma val_b64_char i : (0 <= i < 64)%Z → val (b64_char i) = Some i.
Proof. intros Hi. pose proof (b64_alphabet i Hi). by bool_simpl. Qed.

(** The alphabet avoids the padding byte and white space. *)
Lemma b64_char_graphic i :
  (0 <= i < 64)%Z → is_ascii_graphic (b64_char i) = true ∧ b64_char i ≠ "="%byte.
Proof. intros Hi. pose proof (b64_alphabet i Hi). by bool_simpl. Qed.

Lemma sextet_range n : (0 <= Z.land n 63 < 64)%Z.
Proof. change 63%Z with (Z.ones 6). rewrite Z.land_ones by lia. apply Z.mod_pos_bound. lia. Qed.

(** The 24-bit group of three bytes, and its four sextets. *)
Definition group (b0 b1 b2 : Z) : Z := (b0 * 65536 + b1 * 256 + b2)%Z.

Lemma group_lor b0 b1 b2 :
  (0 <= b1 < 256)%Z → (0 <= b2 < 256)%Z →
  Z.lor (Z.lor (Z.shiftl b0 16) (Z.shiftl b1 8)) b2 = group b0 b1 b2.
Proof.
  intros H1 H2. rewrite !Z.shiftl_mul_pow2 by lia.
  rewrite (lor_add 16 (b0 * _)) by lia. rewrite (lor_add 8) by lia. unfold group. lia.
Qed.

Lemma sextets_lor v0 v1 v2 v3 :
  (0 <= v1 < 64)%Z → (0 <= v2 < 64)%Z → (0 <= v3 < 64)%Z →
  Z.lor (Z.lor (Z.lor (Z.lor 0 (Z.shiftl v0 18)) (Z.shiftl v1 12)) (Z.shiftl v2 6)) (Z.shiftl v3 0)
  = (v0 * 262144 + v1 * 4096 + v2 * 64 + v3)%Z.
Proof.
  intros H1 H2 H3. rewrite Z.lor_0_l, !Z.shiftl_mul_pow2 by lia.
  rewrite (lor_add 18 (v0 * _)) by lia. rewrite (lor_add 12 (_ + v1 * _)) by lia.
  rewrite (lor_add 6) by lia. lia.
Qed.

Lemma decode_sextets_4 c0 c1 c2 c3 v0 v1 v2 v3 :
  c0 ≠ "="%byte → c1 ≠ "="%byte →
  val c0 = Some v0 → val c1 = Some v1 →
  (if c2 ≟ "="%byte then Some 0%Z else val c2) = Some v2 →
  (if c3 ≟ "="%byte then Some 0%Z else val c3) = Some v3 →
  (0 <= v1 < 64)%Z → (0 <= v2 < 64)%Z → (0 <= v3 < 64)%Z →
  decode_sextets 0 0 [c0; c1; c2; c3] = Some (v0 * 262144 + v1 * 4096 + v2 * 64 + v3)%Z.
Proof.
  intros N0 N1 E0 E1 E2 E3 H1 H2 H3.
  cbn [decode_sextets]. rewrite (bool_decide_false (c0 = _)), (bool_decide_false (c1 = _)) by done.
  rewrite E0, E1, E2, E3. cbn [mbind option_bind andb Z.ltb Z.compare Z.add Pos.compare].
  rewrite !andb_false_r. f_equal. by apply sextets_lor.
Qed.

Lemma sextet_of n k : (0 <= k)%Z → Z.land (Z.shiftr n k) 63 = (n / 2 ^ k mod 64)%Z.
Proof.
  intros. change 63%Z with (Z.ones 6). by rewrite Z.land_ones, Z.shiftr_div_pow2 by lia.
Qed.

Lemma octet_of n k : (0 <= k)%Z → z2b (Z.land (Z.shiftr n k) 255) = z2b (n / 2 ^ k).
Proof.
  intros. change 255%Z with (Z.ones 8). rewrite Z.land_ones, Z.shiftr_div_pow2 by lia.
  apply b2z_inj. rewrite !b2z_z2b. change (2 ^ 8)%Z with 256%Z. by rewrite Z.mod_mod.
Qed.

Lemma z2b_mod_eq x b : (x mod 256 = b2z b)%Z → z2b x = b.
Proof. intros H. apply b2z_inj. by rewrite b2z_z2b. Qed.

(** What decoding four characters gives, by the amount of padding. *)
Lemma decode_chunk_4 v0 v1 v2 v3 (p2 p3 : bool) :
  (0 <= v0 < 64)%Z → (0 <= v1 < 64)%Z → (0 <= v2 < 64)%Z → (0 <= v3 < 64)%Z →
  (p2 = true → v2 = 0%Z ∧ p3 = true) → (p3 = true → v3 = 0%Z) →
  let n := (v0 * 262144 + v1 * 4096 + v2 * 64 + v3)%Z in
  decode_chunk [b64_char v0; b64_char v1;
                if p2 then "="%byte else b64_char v2; if p3 then "="%byte else b64_char v3]
  = Some ([z2b (n / 65536)] ++ (if p2 then [] else [z2b (n / 256)]) ++ (if p3 then [] else [z2b n])).
Proof.
  intros H0 H1 H2 H3 Hp2 Hp3 n. unfold decode_chunk.
  destruct (b64_char_graphic v0 H0) as [_ N0]. destruct (b64_char_graphic v1 H1) as [_ N1].
  destruct (b64_char_graphic v2 H2) as [_ N2]. destruct (b64_char_graphic v3 H3) as [_ N3].
  rewrite (decode_sextets_4 _ _ _ _ v0 v1 v2 v3); try done; try by apply val_b64_char.
  - cbn [List.filter length mbind option_bind]. rewrite !(bool_decide_false (b64_char _ = _)) by done.
    fold n. rewrite (octet_of n 16), (octet_of n 8) by lia.
    replace (z2b (Z.land n 255)) with (z2b n)
      by (rewrite <- (Z.shiftr_0_r n) at 2; rewrite octet_of, Z.div_1_r by lia; done).
    destruct p2, p3; simpl; rewrite ?bool_decide_false by done; try done.
    by destruct (Hp2 eq_refl).
  - destruct p2; [destruct Hp2 as [-> _]; done|]. rewrite bool_decide_false by done. by apply val_b64_char.
  - destruct p3; [rewrite Hp3; done|]. rewrite bool_decide_false by done. by apply val_b64_char.
Qed.

Lemma decode_encode_chunk c :
  c ≠ [] → length c ≤ 3 → decode_chunk (encode_chunk c) = Some c.
Proof.
  intros Hne Hlen. unfold encode_chunk. cbv zeta.
  rewrite group_lor by apply b2z_range.
  destruct c as [|b0 [|b1 [|b2 [|b3 c]]]]; [done| | | |simpl in Hlen; lia]; simpl lookup; simpl default;
    pose proof (b2z_range b0); try pose proof (b2z_range b1); try pose proof (b2z_range b2);
    change (b2z Byte.x00) with 0%Z; unfold group;
    match goal with |- context [Z.land (Z.shiftr ?m 18) 63] => set (n := m) end;
    rewrite !sextet_of by lia; replace (Z.land n 63) with (n mod 64)%Z
      by (symmetry; change 63%Z with (Z.ones 6); apply Z.land_ones; lia);
    cbn [length Nat.ltb Nat.leb].
  - rewrite (decode_chunk_4 _ _ 0 0 true true) by (try lia; done). simpl. do 2 f_equal.
    apply z2b_mod_eq. lia.
  - rewrite (decode_chunk_4 _ _ _ 0 false true) by (try lia; done). simpl.
    do 2 f_equal; [|f_equal]; apply z2b_mod_eq; lia.
  - rewrite (decode_chunk_4 _ _ _ _ false false) by (try lia; done). simpl.
    do 2 f_equal; [|f_equal; [|f_equal]]; apply z2b_mod_eq; lia.
Qed.

Lemma encode_chunk_length c : length (encode_chunk c) = 4.
Proof. done. Qed.

Lemma encode_chunk_graphic c : Forall (fun b => is_ascii_graphic b = true) (encode_chunk c).
Proof.
  unfold encode_chunk. cbv zeta.
  repeat constructor; try case_match; try done; apply b64_char_graphic, sextet_range.
Qed.

Lemma base64_encode_graphic s : Forall (fun b => is_ascii_graphic b = true) (base64_encode s).
Proof.
  unfold base64_encode. apply Forall_concat, Forall_map. apply Forall_true.
  intros c. apply encode_chunk_graphic.
Qed.

Lemma base64_encode_chunks s : chunks 4 (base64_encode s) = map encode_chunk (chunks 3 s).
Proof.
  unfold base64_encode. apply chunks_concat; [lia|].
  apply Forall_map, Forall_true. intros c. apply encode_chunk_length.
Qed.

Lemma concat_length_const {A} n (cs : list (list A)) :
  Forall (fun c => length c = n) cs → length (concat cs) = length cs * n.
Proof. induction 1; simpl; [done|]. rewrite length_app. lia. Qed.

Lemma base64_encode_length s : length (base64_encode s) = length (chunks 3 s) * 4.
Proof.
  unfold base64_encode. rewrite (concat_length_const 4), length_map; [done|].
  by apply Forall_map, Forall_true.
Qed.

Lemma decode_encode_chunks s : decode_chunks (map encode_chunk (chunks 3 s)) = Some s.
Proof.
  apply (chunks_ind (fun l cs => decode_chunks (map encode_chunk cs) = Some l) 3); [lia|done|].
  intros c l Hne Hlen IH. cbn [map decode_chunks]. rewrite decode_encode_chunk by assumption.
  by rewrite IH.
Qed.

(** Decoding what was encoded gives the input back. *)
Lemma base64_decode_encode s : base64_decode (base64_encode s) = Some s.
Proof.
  unfold base64_decode. rewrite trim_graphic by apply base64_encode_graphic.
  cbv zeta. case_bool_decide as E.
  - destruct s as [|b s]; [done|]. pose proof (base64_encode_length (b :: s)) as H.
    rewrite E in H. unfold chunks in H. cbn [length chunks_fuel] in H. lia.
  - rewrite base64_encode_length, Nat.Div0.mod_mul. simpl.
    rewrite base64_encode_chunks. apply decode_encode_chunks.
Qed.

(** ** Properties of percent-encoding *)

(** The bytes an encoded text is made of. *)
Definition is_pct_byte (b : byte) : bool := is_unreserved b || (b ≟ "%"%byte).

Lemma percent_byte_chars b : forallb is_pct_byte (percent_byte b) = true.
Proof. byte_cases b; reflexivity. Qed.

Lemma percent_encode_chars s : Forall (fun b => is_pct_byte b = true) (percent_encode s).
Proof.
  unfold percent_encode. apply Forall_concat, Forall_map, Forall_true. intros b.
  pose proof (percent_byte_chars b) as H. rewrite forallb_forall in H.
  apply Forall_forall. intros x Hx. apply H. by apply list_elem_of_In.
Qed.

(** Reading [%XX] escapes back. *)
Fixpoint percent_read (s : bytes) : option bytes :=
  match s with
  | [] => Some []
  | c :: s =>
      if c ≟ "%"%byte then
        match s with
        | h :: l :: s =>
            x ← to_digit 16 h; y ← to_digit 16 l;
            r ← percent_read s; Some (z2b (x * 16 + y) :: r)
        | _ => None
        end
      else r ← percent_read s; Some (c :: r)
  end.

Lemma percent_byte_inv b :
  match percent_byte b with
  | [c] => (c ≟ b) && negb (c ≟ "%"%byte)
  | [p; h; l] =>
      (p ≟ "%"%byte) &&
      match to_digit 16 h, to_digit 16 l with Some x, Some y => z2b (x * 16 + y) ≟ b | _, _ => false end
  | _ => false
  end = true.
Proof. byte_cases b; reflexivity. Qed.

Lemma percent_read_byte b s r :
  percent_read s = Some r → percent_read (percent_byte b ++ s) = Some (b :: r).
Proof.
  intros H. pose proof (percent_byte_inv b) as Hb.
  destruct (percent_byte b) as [|p [|h [|l [|]]]]; try discriminate Hb; bool_simpl; subst; simpl.
  - by rewrite bool_decide_false, H.
  - destruct (to_digit 16 h) as [x|]; [|discriminate]. destruct (to_digit 16 l) as [y|]; [|discriminate].
    bool_simpl. rewrite H. simpl. by subst b.
Qed.

Lemma percent_read_encode s : percent_read (percent_encode s) = Some s.
Proof. induction s as [|b s IH]; [done|]. by apply percent_read_byte. Qed.

(** ** Properties of replace-all *)

(** The text between the leftmost, non-overlapping occurrences of a needle. *)
Inductive pieces (needle : bytes) : bytes → list bytes → Prop :=
| pieces_last s : find_sub needle s = None → pieces needle s [s]
| pieces_next p s ps :
    find_sub needle (p ++ needle ++ s) = Some (length p) →
    pieces needle s ps → pieces needle (p ++ needle ++ s) (p :: ps).

Lemma find_sub_head needle s : starts_with needle s = true → find_sub needle s = Some 0.
Proof. intros H. destruct s; simpl; by rewrite H. Qed.

Lemma pieces_cons needle b s ps :
  starts_with needle (b :: s) = false → pieces needle s ps →
  ∃ p ps', ps = p :: ps' ∧ pieces needle (b :: s) ((b :: p) :: ps').
Proof.
  intros Hb H. assert (find_sub needle (b :: s) = S <$> find_sub needle s) as Hf
    by (simpl; by rewrite Hb).
  inversion H as [s' Hs|p s' ps' Hs Hp]; subst.
  - exists s, []. split; [done|]. constructor. by rewrite Hf, Hs.
  - exists p, ps'. split; [done|]. apply (pieces_next _ (b :: p)); [|done].
    simpl app. by rewrite Hf, Hs.
Qed.

Lemma pieces_join needle s ps : pieces needle s ps → s = join_with needle ps.
Proof.
  induction 1 as [s Hs|p s ps Hf Hps IH]; [done|].
  rewrite join_with_cons by by destruct Hps. by rewrite <- IH.
Qed.

Lemma pieces_not_nil needle s ps : pieces needle s ps → ps ≠ [].
Proof. by destruct 1. Qed.

(** The loop computes the pieces and puts the replacement between them; any
    fuel from the length of the haystack on gives the same answer. *)
Lemma replace_loop_pieces fuel s needle r :
  needle ≠ [] → length s ≤ fuel →
  ∃ ps, pieces needle s ps ∧ replace_loop fuel s needle r = (join_with r ps, length ps - 1).
Proof.
  intros Hn. revert s. induction fuel as [|fuel IH]; intros s Hlen.
  - destruct s; [|simpl in Hlen; lia]. exists [[]]. split; [|done]. constructor. by destruct needle.
  - destruct s as [|b s]; [exists [[]]; split; [constructor; by destruct needle|done]|].
    cbn [replace_loop]. destruct (strip_prefix needle (b :: s)) as [rest|] eqn:E.
    + assert (starts_with needle (b :: s) = true) as Hs
        by (unfold starts_with; rewrite E; by apply bool_decide_true).
      apply find_sub_head in Hs. apply strip_prefix_Some in E. rewrite E in Hs |- *.
      destruct (IH rest) as (ps & Hps & ->).
      { apply (f_equal length) in E. rewrite length_app in E. simpl in *.
        destruct needle; [done|simpl in *; lia]. }
      exists ([] :: ps). split; [by apply (pieces_next _ [])|].
      apply pieces_not_nil in Hps. destruct ps; [done|]. simpl. f_equal. lia.
    + assert (starts_with needle (b :: s) = false) as Hs
        by (unfold starts_with; rewrite E; apply bool_decide_false; by intros []).
      destruct (IH s) as (ps & Hps & ->); [simpl in Hlen; lia|].
      destruct (pieces_cons _ _ _ _ Hs Hps) as (p & ps' & -> & H').
      exists ((b :: p) :: ps'). split; [done|]. by destruct ps'.
Qed.

Lemma replace_all_pieces s needle r :
  needle ≠ [] →
  ∃ ps, pieces needle s ps ∧ replace_all s needle r = (join_with r ps, length ps - 1).
Proof.
  intros Hn. unfold replace_all. rewrite bool_decide_false by done. by apply replace_loop_pieces.
Qed.

(** Nothing is counted exactly when nothing occurs, and then nothing changes. *)
Lemma replace_all_none s needle r :
  needle ≠ [] → (replace_all s needle r).2 = 0 ↔ find_sub needle s = None.
Proof.
  intros Hn. destruct (replace_all_pieces s needle r Hn) as (ps & Hps & ->). simpl.
  destruct Hps as [s Hs|p s ps Hf Hps]; simpl; [done|].
  apply pieces_not_nil in Hps. destruct ps; [done|]. simpl. rewrite Hf. naive_solver lia.
Qed.

Lemma replace_all_zero s needle r : (replace_all s needle r).2 = 0 → (replace_all s needle r).1 = s.
Proof.
  destruct (decide (needle = [])) as [->|Hn]; [done|].
  destruct (replace_all_pieces s needle r Hn) as (ps & Hps & ->). simpl.
  destruct Hps as [s Hs|p s ps Hf Hps]; simpl; [done|].
  apply pieces_not_nil in Hps. destruct ps; [done|]. simpl. lia.
Qed.

(** The bytes of the result come from the text or from the replacement. *)
Lemma replace_loop_elem fuel s needle r x :
  x ∈ (replace_loop fuel s needle r).1 → x ∈ s ∨ x ∈ r.
Proof.
  revert s. induction fuel as [|fuel IH]; intros [|b s]; cbn [replace_loop]; try (simpl; set_solver).
  destruct (strip_prefix needle (b :: s)) as [rest|] eqn:E.
  - apply strip_prefix_Some in E. specialize (IH rest). destruct (replace_loop fuel rest needle r).
    simpl in *. rewrite E. set_solver.
  - specialize (IH s). destruct (replace_loop fuel s needle r). simpl in *. set_solver.
Qed.

Lemma replace_all_elem s needle r x : x ∈ (replace_all s needle r).1 → x ∈ s ∨ x ∈ r.
Proof.
  unfold replace_all. case_bool_decide; [by left|]. apply replace_loop_elem.
Qed.

(** ** Guarantees *)

(** Round trip: decoding an encoded text gives the text back; the
    encoding has four printable characters per three bytes. *)
Theorem base64_round_trip s :
  base64_decode (base64_encode s) = Some s ∧
  length (base64_encode s) = 4 * length (chunks 3 s) ∧
  Forall (fun b => is_ascii_graphic b = true) (base64_encode s).
Proof.
  split; [apply base64_decode_encode|]. split; [|apply base64_encode_graphic].
  rewrite base64_encode_length. lia.
Qed.

(** Round trip: percent-encoding uses unreserved bytes and [%XX] only,
    and reading the escapes back gives the input. *)
Theorem percent_round_trip s :
  percent_read (percent_encode s) = Some s ∧
  Forall (fun b => is_unreserved b || (b ≟ "%"%byte) = true) (percent_encode s).
Proof. split; [apply percent_read_encode|apply percent_encode_chars]. Qed.

(** [replace_all] replaces the leftmost, non-overlapping occurrences of
    the needle, counts them, and leaves the rest of the text as it is. *)
Theorem replace_all_leftmost s needle r :
  needle ≠ [] →
  ∃ ps, pieces needle s ps ∧ s = join_with needle ps ∧
    replace_all s needle r = (join_with r ps, length ps - 1) ∧
    ((replace_all s needle r).2 = 0 ↔ find_sub needle s = None).
Proof.
  intros Hn. destruct (replace_all_pieces s needle r Hn) as (ps & Hps & E).
  exists ps. split; [done|]. split; [by apply pieces_join|]. split; [done|].
  by apply replace_all_none.
Qed.

Lemma replace_all_leftmost_witness :
  ∃ ps, pieces "aa"%bs "aaab"%bs ps ∧ "aaab"%bs = join_with "aa"%bs ps ∧
    replace_all "aaab"%bs "aa"%bs "x"%bs = (join_with "x"%bs ps, length ps - 1) ∧
    ((replace_all "aaab"%bs "aa"%bs "x"%bs).2 = 0 ↔ find_sub "aa"%bs "aaab"%bs = None).
Proof. apply (replace_all_leftmost "aaab"%bs "aa"%bs "x"%bs). discriminate. Defined.

(** Divergence: the decoder accepts padding followed by a digit and
    padded groups before the end, which are not base64. *)
Theorem base64_decode_lenient :
  base64_decode "QQ=A"%bs = Some [Byte.x41; Byte.x00] ∧ base64_decode "QQ==QQ=="%bs = Some "AA"%bs.
Proof. vm_compute. done. Qed.
