(* ===== verification/Pipeline.v ===== *)
(** * The transform pipeline ([hematite-kernel/src/pipeline.rs])

    The transform contract as a record of operations, the request and
    response paths, and what their outcomes say about the transforms that
    ran. *)

From Stdlib Require Import QArith.
From S2P Require Import Prelude Json Summary.
#[local] Close Scope Q_scope.

(** INV-2: in the source only the kernel can build this value. *)
Inductive AllowProof : Type := MkAllowProof.

Inductive Outcome : Type :=
| OContinue (proof : AllowProof)
| OReject (by_ : bytes) (response : option Response)
| OStub (by_ : bytes) (response : Response)
| OError (by_ : bytes) (msg : message).

Record BodyCapture : Type := { request_body : bytes; request_body_truncated : bool }.

Record PipelineOutcome : Type := {
  outcome : Outcome;
  request_traces : list Trace;
  body_capture : option BodyCapture;
  request_path : bytes;
}.

(** ** The invocation context *)

Record Ctx : Type := {
  ctx_annotations : list (bytes * Value);
  ctx_body_capture : option BodyCapture;
}.

Definition ctx_default : Ctx := {| ctx_annotations := []; ctx_body_capture := None |}.

Definition annotate (key : bytes) (value : Value) (ctx : Ctx) : Ctx :=
  {| ctx_annotations := map_insert key value (ctx_annotations ctx);
     ctx_body_capture := ctx_body_capture ctx |}.

Definition set_body_capture (capture : BodyCapture) (ctx : Ctx) : Ctx :=
  {| ctx_annotations := ctx_annotations ctx; ctx_body_capture := Some capture |}.

Definition TransformError : Type := message.

(** ** The transform contract

    A transform updates the context and the request it is given, also when it
    fails; [W] is the world behind the secret resolver. *)
Record Transform (W : Type) : Type := {
  name : bytes;
  on_request : Ctx → RequestSummary → W →
    result Verdict TransformError * Ctx * RequestSummary * W;
  on_response : Ctx → RequestSummary → W → result Verdict TransformError * Ctx * W;
}.
Arguments name {W} t : rename.
Arguments on_request {W} t ctx req w : rename.
Arguments on_response {W} t ctx req w : rename.

(** The default method of the trait. *)
Definition on_response_default {W} (ctx : Ctx) (req : RequestSummary) (w : W) :
    result Verdict TransformError * Ctx * W := (Ok Continue, ctx, w).

Definition Pipeline (W : Type) : Type := list (Transform W).

Definition transform_names {W} (p : Pipeline W) : list bytes := map name p.

Definition trace (name : bytes) (verdict : TraceVerdict) (error : option message)
    (annotations : list (bytes * Value)) : Trace :=
  {| trace_name := name; trace_verdict := verdict; trace_duration_ms := 0%Q;
     trace_error := error; Summary.annotations := annotations |}.

(** ** The request path *)

Section request.
Context {W : Type}.

(** The loop: [traces] and [cap] are the accumulators of the code. *)
Fixpoint request_loop (ts : list (Transform W)) (traces : list Trace)
    (cap : option BodyCapture) (path : bytes) (req : RequestSummary) (w : W) :
    PipelineOutcome * RequestSummary * W :=
  match ts with
  | [] =>
      ({| outcome := OContinue MkAllowProof; request_traces := traces;
          body_capture := cap; request_path := path |}, req, w)
  | t :: ts =>
      let '(res, ctx, req, w) := on_request t ctx_default req w in
      let cap := match ctx_body_capture ctx with Some c => Some c | None => cap end in
      let tr v e := trace (name t) v e (ctx_annotations ctx) in
      match res with
      | Ok Continue => request_loop ts (traces ++ [tr TContinue None]) cap path req w
      | Ok (Reject response) =>
          ({| outcome := OReject (name t) response; request_traces := traces ++ [tr TReject None];
              body_capture := cap; request_path := path |}, req, w)
      | Ok (Stub response) =>
          ({| outcome := OStub (name t) response; request_traces := traces ++ [tr TStub None];
              body_capture := cap; request_path := path |}, req, w)
      | Err msg =>
          ({| outcome := OError (name t) msg; request_traces := traces ++ [tr TError (Some msg)];
              body_capture := cap; request_path := path |}, req, w)
      end
  end.

Definition evaluate_request (p : Pipeline W) (req : RequestSummary) (w : W) :
    PipelineOutcome * RequestSummary * W :=
  request_loop p [] None (path req) req w.

End request.

(** ** The response path *)

Inductive ResponseAction : Type :=
| Forward
| Replace (by_ : bytes) (response : Response) (stub : bool)
| RError (by_ : bytes) (msg : message).

Record ResponseOutcome : Type := { traces : list Trace; action : ResponseAction }.

(** [unwrap_or] of a bare [Reject]: an empty 403. *)
Definition empty_403 : Response := {| status := 403; resp_headers := []; resp_body := [] |}.

Section response.
Context {W : Type}.

Fixpoint response_loop (ts : list (Transform W)) (traces : list Trace) (req : RequestSummary) (w : W) :
    ResponseOutcome * W :=
  match ts with
  | [] => ({| traces := traces; action := Forward |}, w)
  | t :: ts =>
      let '(res, ctx, w) := on_response t ctx_default req w in
      let tr v e := trace (name t) v e (ctx_annotations ctx) in
      match res with
      | Ok Continue => response_loop ts (traces ++ [tr TContinue None]) req w
      | Ok (Reject response) =>
          ({| traces := traces ++ [tr TReject None];
              action := Replace (name t) (default empty_403 response) false |}, w)
      | Ok (Stub response) =>
          ({| traces := traces ++ [tr TStub None]; action := Replace (name t) response true |}, w)
      | Err msg =>
          ({| traces := traces ++ [tr TError (Some msg)]; action := RError (name t) msg |}, w)
      end
  end.

Definition evaluate_response (p : Pipeline W) (req : RequestSummary) (w : W) : ResponseOutcome * W :=
  response_loop p [] req w.

End response.

(** ** What a run is, independently of the loop *)

Section runs.
Context {W : Type}.

(** All of [ts], in order, let the request continue: from a request and world
    to the ones after, with the traces written and the body captures made. *)
Inductive continues : list (Transform W) → RequestSummary → W → list Trace → list BodyCapture →
    RequestSummary → W → Prop :=
| continues_nil req w : continues [] req w [] [] req w
| continues_cons t ts req w ctx req1 w1 trs caps req2 w2 :
    on_request t ctx_default req w = (Ok Continue, ctx, req1, w1) →
    continues ts req1 w1 trs caps req2 w2 →
    continues (t :: ts) req w
      (trace (name t) TContinue None (ctx_annotations ctx) :: trs)
      (option_list (ctx_body_capture ctx) ++ caps) req2 w2.

(** The outcome and the trace a result other than [Continue] leads to. *)
Definition stops (t : Transform W) (res : result Verdict TransformError) :
    option (Outcome * TraceVerdict * option message) :=
  match res with
  | Ok Continue => None
  | Ok (Reject response) => Some (OReject (name t) response, TReject, None)
  | Ok (Stub response) => Some (OStub (name t) response, TStub, None)
  | Err msg => Some (OError (name t) msg, TError, Some msg)
  end.

(** The run of a pipeline: some prefix continues, and then either the
    pipeline ends or the next transform stops it. *)
Inductive run : list (Transform W) → RequestSummary → W →
    Outcome → list Trace → list BodyCapture → RequestSummary → W → Prop :=
| run_all ts req w trs caps req' w' :
    continues ts req w trs caps req' w' →
    run ts req w (OContinue MkAllowProof) trs caps req' w'
| run_stop pre t post req w trs caps req1 w1 res ctx req' w' o v e :
    continues pre req w trs caps req1 w1 →
    on_request t ctx_default req1 w1 = (res, ctx, req', w') →
    stops t res = Some (o, v, e) →
    run (pre ++ t :: post) req w o
      (trs ++ [trace (name t) v e (ctx_annotations ctx)])
      (caps ++ option_list (ctx_body_capture ctx)) req' w'.

Lemma run_cons t ts req w ctx req1 w1 o trs caps req2 w2 :
  on_request t ctx_default req w = (Ok Continue, ctx, req1, w1) →
  run ts req1 w1 o trs caps req2 w2 →
  run (t :: ts) req w o (trace (name t) TContinue None (ctx_annotations ctx) :: trs)
    (option_list (ctx_body_capture ctx) ++ caps) req2 w2.
Proof.
  intros Ht Hr. destruct Hr as [ts req1 w1 trs caps req' w' Hc
                               |pre t' post req1 w1 trs caps r w' res ctx' req' w'' o v e Hc Ht' Hs].
  - apply run_all. by econstructor.
  - rewrite app_assoc.
    apply (run_stop (t :: pre) t' post _ _ (_ :: trs) _ r w' res); [by econstructor|done|done].
Qed.

(** The last capture made, or what was there before. *)
Definition last_capture (cap : option BodyCapture) (caps : list BodyCapture) : option BodyCapture :=
  match last caps with Some c => Some c | None => cap end.

Lemma last_capture_app cap o caps :
  last_capture cap (option_list o ++ caps)
  = last_capture (match o with Some c => Some c | None => cap end) caps.
Proof.
  unfold last_capture. destruct o as [c|]; simpl; [|done].
  rewrite last_cons. by destruct (last caps).
Qed.

Lemma request_loop_run ts traces0 cap path req w :
  ∃ o trs caps req' w',
    run ts req w o trs caps req' w' ∧
    request_loop ts traces0 cap path req w =
      ({| outcome := o; request_traces := traces0 ++ trs;
          body_capture := last_capture cap caps; request_path := path |}, req', w').
Proof.
  revert traces0 cap req w. induction ts as [|t ts IH]; intros traces0 cap req w; simpl.
  { exists (OContinue MkAllowProof), [], [], req, w.
    rewrite app_nil_r. split; [|done]. apply run_all. constructor. }
  destruct (on_request t ctx_default req w) as [[[res ctx] req1] w1] eqn:Et.
  destruct (stops t res) as [[[o v] e]|] eqn:Es.
  - exists o, [trace (name t) v e (ctx_annotations ctx)], (option_list (ctx_body_capture ctx)), req1, w1.
    split; [by apply (run_stop [] t ts req w [] [] req w res ctx); [constructor| |]|].
    rewrite <- (app_nil_r (option_list _)), last_capture_app.
    by destruct res as [[| |]|]; simpl in Es; simplify_eq.
  - destruct res as [[| |]|]; try discriminate Es. clear Es.
    destruct (IH (traces0 ++ [trace (name t) TContinue None (ctx_annotations ctx)])
                (match ctx_body_capture ctx with Some c => Some c | None => cap end) req1 w1)
      as (o & trs & caps & req' & w' & Hr & ->).
    do 5 eexists. split; [by eapply run_cons|].
    by rewrite last_capture_app, <- app_assoc.
Qed.

(** The request path is a run of the pipeline: its outcome, traces, final
    request and world are the run's, the body capture is the last one made,
    and the recorded path is the one the client sent. *)
Lemma evaluate_request_run p req w po req' w' :
  evaluate_request p req w = (po, req', w') →
  ∃ caps, run p req w (outcome po) (request_traces po) caps req' w' ∧
    body_capture po = last caps ∧ request_path po = path req.
Proof.
  unfold evaluate_request. intros H.
  destruct (request_loop_run p [] None (path req) req w) as (o & trs & caps & r & w1 & Hr & E).
  rewrite H in E. simplify_eq. exists caps. split; [done|]. split; [|done].
  unfold last_capture. simpl. by destruct (last caps).
Qed.

(** Conversely, every run is the one the loop performs. *)
Lemma request_loop_continues ts post q w trs caps q' w' tr0 cap p :
  continues ts q w trs caps q' w' →
  request_loop (ts ++ post) tr0 cap p q w =
    request_loop post (tr0 ++ trs) (last_capture cap caps) p q' w'.
Proof.
  intros H. revert tr0 cap. induction H as [|t ts q w ctx q1 w1 trs caps q2 w2 Ht Hc IH]; intros tr0 cap.
  - by rewrite app_nil_r.
  - simpl. rewrite Ht, IH, last_capture_app, <- app_assoc. done.
Qed.

Lemma run_request_loop ts q w o trs caps q' w' tr0 cap p :
  run ts q w o trs caps q' w' →
  request_loop ts tr0 cap p q w =
    ({| outcome := o; request_traces := tr0 ++ trs;
        body_capture := last_capture cap caps; request_path := p |}, q', w').
Proof.
  destruct 1 as [ts q w trs caps q' w' Hc
                |pre t post q w trs caps r1 w1 res ctx q' w' o v e Hc Ht Hs].
  - rewrite <- (app_nil_r ts). by rewrite (request_loop_continues _ _ _ _ _ _ _ _ _ _ _ Hc).
  - rewrite (request_loop_continues _ _ _ _ _ _ _ _ _ _ _ Hc). simpl. rewrite Ht.
    assert (last_capture cap (caps ++ option_list (ctx_body_capture ctx))
      = match ctx_body_capture ctx with Some c => Some c | None => last_capture cap caps end) as ->.
    { unfold last_capture. destruct (ctx_body_capture ctx); simpl; [by rewrite last_snoc|by rewrite app_nil_r]. }
    rewrite app_assoc. destruct res as [[| |]|]; simpl in Hs; by simplify_eq.
Qed.

Lemma continues_names ts req w trs caps req' w' :
  continues ts req w trs caps req' w' →
  map trace_name trs = transform_names ts ∧
  map trace_verdict trs = replicate (length ts) TContinue.
Proof.
  induction 1 as [|t ts req w ctx req1 w1 trs caps req2 w2 Ht Hc [IH1 IH2]]; [done|].
  simpl. by rewrite IH1, IH2.
Qed.

(** A run that ends with the proof let every transform continue. *)
Lemma run_continue_inv ts req w trs caps req' w' a :
  run ts req w (OContinue a) trs caps req' w' → continues ts req w trs caps req' w'.
Proof.
  inversion 1 as [|? ? ? ? ? ? ? ? ? res ? ? ? ? ? ? Hc Ht Hs]; subst; [done|].
  by destruct res as [[| |]|]; simpl in Hs; simplify_eq.
Qed.

Lemma continues_app_inv ts1 ts2 req w trs caps req' w' :
  continues (ts1 ++ ts2) req w trs caps req' w' →
  ∃ trs1 caps1 trs2 caps2 req1 w1,
    continues ts1 req w trs1 caps1 req1 w1 ∧ continues ts2 req1 w1 trs2 caps2 req' w' ∧
    trs = trs1 ++ trs2 ∧ caps = caps1 ++ caps2.
Proof.
  revert req w trs caps. induction ts1 as [|t ts1 IH]; intros req w trs caps H.
  - exists [], [], trs, caps, req, w. split; [constructor|done].
  - inversion H as [|? ? ? ? ctx req1 w1 trs' caps' ? ? Ht Hc]; subst.
    destruct (IH _ _ _ _ Hc) as (trs1 & caps1 & trs2 & caps2 & r & w2 & H1 & H2 & -> & ->).
    exists (trace (name t) TContinue None (ctx_annotations ctx) :: trs1),
      (option_list (ctx_body_capture ctx) ++ caps1), trs2, caps2, r, w2.
    split; [by econstructor|]. split; [done|]. split; [done|]. by rewrite app_assoc.
Qed.

(** Every trace is that of one transform, run on the request as the ones
    before it left it. *)
Lemma continues_trace ts req w trs caps req' w' tr :
  continues ts req w trs caps req' w' → tr ∈ trs →
  ∃ pre t post trs1 caps1 req1 w1 res ctx req2 w2,
    ts = pre ++ t :: post ∧ continues pre req w trs1 caps1 req1 w1 ∧
    on_request t ctx_default req1 w1 = (res, ctx, req2, w2) ∧
    trace_name tr = name t ∧ Summary.annotations tr = ctx_annotations ctx.
Proof.
  induction 1 as [|t ts req w ctx req1 w1 trs caps req2 w2 Ht Hc IH]; [set_solver|].
  rewrite elem_of_cons. intros [->|Hin].
  - exists [], t, ts, [], [], req, w, (Ok Continue), ctx, req1, w1. split; [done|].
    split; [constructor|done].
  - destruct (IH Hin) as (pre & t' & post & trs1 & caps1 & r1 & w1' & res & ctx' & r2 & w2' & -> & Hp & Hq).
    exists (t :: pre), t', post. do 8 eexists. split; [done|]. split; [by econstructor|done].
Qed.

Lemma run_trace ts req w o trs caps req' w' tr :
  run ts req w o trs caps req' w' → tr ∈ trs →
  ∃ pre t post trs1 caps1 req1 w1 res ctx req2 w2,
    ts = pre ++ t :: post ∧ continues pre req w trs1 caps1 req1 w1 ∧
    on_request t ctx_default req1 w1 = (res, ctx, req2, w2) ∧
    trace_name tr = name t ∧ Summary.annotations tr = ctx_annotations ctx.
Proof.
  intros Hr Hin. destruct Hr as [ts req w trs caps req' w' Hc
                          |pre t post req w trs caps r1 w1 res ctx req' w' o v e Hc Ht Hs].
  - by eapply continues_trace.
  - apply elem_of_app in Hin as [Hin|Hin%list_elem_of_singleton].
    + destruct (continues_trace _ _ _ _ _ _ _ _ Hc Hin)
        as (pre' & t' & post' & trs1 & caps1 & r1' & w1' & res' & ctx' & r2 & w2' & -> & Hp & Hq).
      exists pre', t', (post' ++ t :: post). do 8 eexists. split; [by rewrite <- app_assoc|]. done.
    + subst tr. exists pre, t, post. do 8 eexists. done.
Qed.

(** The same of every body capture. *)
Lemma continues_capture ts req w trs caps req' w' c :
  continues ts req w trs caps req' w' → c ∈ caps →
  ∃ pre t post trs1 caps1 req1 w1 res ctx req2 w2,
    ts = pre ++ t :: post ∧ continues pre req w trs1 caps1 req1 w1 ∧
    on_request t ctx_default req1 w1 = (res, ctx, req2, w2) ∧ ctx_body_capture ctx = Some c.
Proof.
  induction 1 as [|t ts req w ctx req1 w1 trs caps req2 w2 Ht Hc IH]; [set_solver|].
  rewrite elem_of_app. intros [Hin|Hin].
  - exists [], t, ts, [], [], req, w, (Ok Continue), ctx, req1, w1. split; [done|].
    split; [constructor|]. split; [done|]. destruct (ctx_body_capture ctx); set_solver.
  - destruct (IH Hin) as (pre & t' & post & trs1 & caps1 & r1 & w1' & res & ctx' & r2 & w2' & -> & Hp & Hq).
    exists (t :: pre), t', post. do 8 eexists. split; [done|]. split; [by econstructor|done].
Qed.

Lemma run_capture ts req w o trs caps req' w' c :
  run ts req w o trs caps req' w' → c ∈ caps →
  ∃ pre t post trs1 caps1 req1 w1 res ctx req2 w2,
    ts = pre ++ t :: post ∧ continues pre req w trs1 caps1 req1 w1 ∧
    on_request t ctx_default req1 w1 = (res, ctx, req2, w2) ∧ ctx_body_capture ctx = Some c.
Proof.
  intros Hr Hin. destruct Hr as [ts req w trs caps req' w' Hc
                          |pre t post req w trs caps r1 w1 res ctx req' w' o v e Hc Ht Hs].
  - by eapply continues_capture.
  - apply elem_of_app in Hin as [Hin|Hin].
    + destruct (continues_capture _ _ _ _ _ _ _ _ Hc Hin)
        as (pre' & t' & post' & trs1 & caps1 & r1' & w1' & res' & ctx' & r2 & w2' & -> & Hp & Hq).
      exists pre', t', (post' ++ t :: post). do 8 eexists. split; [by rewrite <- app_assoc|]. done.
    + exists pre, t, post. do 8 eexists. split; [done|]. split; [done|]. split; [done|].
      destruct (ctx_body_capture ctx); set_solver.
Qed.

(** A relation on requests every transform of a prefix respects relates the
    ends of the prefix. *)
Lemma continues_rel (R : RequestSummary → RequestSummary → Prop) ts req w trs caps req' w' :
  (∀ r, R r r) → (∀ a b c, R a b → R b c → R a c) →
  Forall (fun t => ∀ r v ctx r' v', on_request t ctx_default r v = (Ok Continue, ctx, r', v') → R r r') ts →
  continues ts req w trs caps req' w' → R req req'.
Proof.
  intros Hrefl Htrans. induction 2 as [|t ts req w ctx req1 w1 trs caps req2 w2 Ht Hc IH]; [done|].
  apply Forall_cons in H as [H1 H2]. eauto.
Qed.

End runs.

(** A response path of transforms that keep the default method forwards. *)
Lemma response_loop_default {W} (ts : list (Transform W)) trs req w :
  Forall (fun t => on_response t = on_response_default) ts →
  response_loop ts trs req w =
    ({| traces := trs ++ map (fun t => trace (name t) TContinue None []) ts; action := Forward |}, w).
Proof.
  intros H. revert trs. induction H as [|t ts Ht _ IH]; intros trs; simpl.
  - by rewrite app_nil_r.
  - rewrite Ht. simpl. by rewrite IH, <- app_assoc.
Qed.

(** ** Guarantees of the two paths *)

(** C10 (refinement): the request path implements the abstract run, and
    nothing else: some prefix of the transforms continues, then either the
    pipeline ends with the permission proof or the next transform's reject,
    stub or error is the outcome and no later transform runs; the recorded
    path is the client's and the capture is the last one made. *)
Theorem evaluate_request_refines_run {W} (p : Pipeline W) q w po q' w' :
  evaluate_request p q w = (po, q', w') ↔
  ∃ caps, run p q w (outcome po) (request_traces po) caps q' w' ∧
    body_capture po = last caps ∧ request_path po = path q.
Proof.
  split; [apply evaluate_request_run|]. intros (caps & Hr & Hc & Hp). unfold evaluate_request.
  rewrite (run_request_loop _ _ _ _ _ _ _ _ [] None _ Hr). destruct po; simpl in *. subst.
  unfold last_capture. by destruct (last caps).
Qed.

(** INV-2: the permission proof is handed out exactly when every
    transform of the pipeline ran and returned [Continue]. *)
Theorem allow_proof_iff_all_continue {W} (p : Pipeline W) q w :
  (∃ proof, outcome (evaluate_request p q w).1.1 = OContinue proof) ↔
  ∃ trs caps q' w', continues p q w trs caps q' w'.
Proof.
  destruct (evaluate_request p q w) as [[po q'] w'] eqn:E. simpl. split.
  - intros [proof Ho]. apply evaluate_request_run in E as (caps & Hr & _). rewrite Ho in Hr.
    apply run_continue_inv in Hr. eauto 6.
  - intros (trs & caps & q1 & w1 & Hc). apply run_all in Hc.
    unfold evaluate_request in E. rewrite (run_request_loop _ _ _ _ _ _ _ _ [] None _ Hc) in E.
    simplify_eq. by exists MkAllowProof.
Qed.

(** The traces are those of a prefix of the transforms, in order, and
    all but the last say [Continue]; the last one says what the outcome is. *)
Theorem traces_follow_transforms {W} (p : Pipeline W) q w :
  let po := (evaluate_request p q w).1.1 in
  map trace_name (request_traces po) `prefix_of` transform_names p ∧
  match outcome po with
  | OContinue _ =>
      map trace_verdict (request_traces po) = replicate (length p) TContinue
  | OReject n _ => ∃ k, map trace_verdict (request_traces po) = replicate k TContinue ++ [TReject] ∧
      transform_names p !! k = Some n
  | OStub n _ => ∃ k, map trace_verdict (request_traces po) = replicate k TContinue ++ [TStub] ∧
      transform_names p !! k = Some n
  | OError n _ => ∃ k, map trace_verdict (request_traces po) = replicate k TContinue ++ [TError] ∧
      transform_names p !! k = Some n
  end.
Proof.
  destruct (evaluate_request p q w) as [[po q'] w'] eqn:E. simpl.
  apply evaluate_request_run in E as (caps & Hr & _).
  destruct Hr as [ts q w trs caps q' w' Hc
                 |pre t post q w trs caps r1 w1 res ctx q' w' o v e Hc Ht Hs];
    apply continues_names in Hc as [Hn Hv].
  - by rewrite Hn.
  - unfold transform_names. rewrite !map_app, Hn, Hv. simpl. split.
    + exists (map name post). by rewrite <- app_assoc.
    + assert ((map name pre ++ name t :: map name post) !! length pre = Some (name t)) as Hl
        by (rewrite <- (length_map name pre); by apply list_lookup_middle).
      destruct res as [[| |]|]; simpl in Hs; simplify_eq; eauto.
Qed.
