(* ===== verification/Transforms.v ===== *)
(** * The observation and filter transforms ([hematite-kernel/src/transforms.rs]) *)

From stdpp Require Import sorting.
From S2P Require Import Prelude Utf8 Net Json Matcher Summary Pipeline.

(** ** allowlist *)

Record Allowlist : Type := {
  al_domains : list DomainGlob;
  al_cidrs : list Cidr;
  al_warn : bool;
}.

(** The test at the head of [Allowlist::on_request]. *)
Definition allowed (al : Allowlist) (host : bytes) : bool :=
  existsb (fun g => domain_matches g host) (al_domains al)
  || existsb (fun c => cidr_matches_host c host) (al_cidrs al).

Definition allowlist_on_request {W} (al : Allowlist) (ctx : Ctx) (req : RequestSummary) (w : W) :
    result Verdict TransformError * Ctx * RequestSummary * W :=
  if allowed al (host req) then (Ok Continue, ctx, req, w)
  else if al_warn al then (Ok Continue, annotate "warn"%bs (Bool true) ctx, req, w)
  else (Ok (Reject None), ctx, req, w).

Definition allowlist_transform {W} (al : Allowlist) : Transform W :=
  {| name := "allowlist"%bs; on_request := allowlist_on_request al;
     on_response := on_response_default |}.

(** ** annotate *)

Record AnnotateGroup : Type := { ag_rules : list Rule; ag_headers : list bytes }.
Record Annotate : Type := { an_groups : list AnnotateGroup }.

(** The inner loop: one group's header names. *)
Fixpoint annotate_headers (names : list bytes) (hs : Headers) (ctx : Ctx) : Ctx :=
  match names with
  | [] => ctx
  | n :: names =>
      let ctx := match headers_first hs n with
                 | Some value => annotate ("header:"%bs ++ canonical_name n) (String_ value) ctx
                 | None => ctx
                 end in
      annotate_headers names hs ctx
  end.

Fixpoint annotate_groups (gs : list AnnotateGroup) (req : RequestSummary) (ctx : Ctx) : Ctx :=
  match gs with
  | [] => ctx
  | g :: gs =>
      let ctx := if any_rule_matches (ag_rules g) (host req) (method req) (path req)
                 then annotate_headers (ag_headers g) (headers req) ctx else ctx in
      annotate_groups gs req ctx
  end.

Definition annotate_on_request {W} (a : Annotate) (ctx : Ctx) (req : RequestSummary) (w : W) :
    result Verdict TransformError * Ctx * RequestSummary * W :=
  (Ok Continue, annotate_groups (an_groups a) req ctx, req, w).

Definition annotate_transform {W} (a : Annotate) : Transform W :=
  {| name := "annotate"%bs; on_request := annotate_on_request a; on_response := on_response_default |}.

(** ** header_allowlist *)

Section header_allowlist.
Context `{RE : RegexEngine}.

Record HeaderAllowlist : Type := {
  ha_entries : list HeaderNameEntry;
  ha_rules : option (list Rule);
}.

Definition header_allowlist_on_request {W} (h : HeaderAllowlist) (ctx : Ctx) (req : RequestSummary)
    (w : W) : result Verdict TransformError * Ctx * RequestSummary * W :=
  if match ha_rules h with
     | Some rules => negb (any_rule_matches rules (host req) (method req) (path req))
     | None => false
     end then (Ok Continue, ctx, req, w)
  else
    let '(kept, removed) :=
      retain (fun n => existsb (fun e => header_entry_matches e n) (ha_entries h)) (headers req) in
    let ctx := if removed ≟ [] then ctx
               else annotate "stripped_headers"%bs (json_strings (dedup (sort_strings removed))) ctx in
    (Ok Continue, ctx, set_headers kept req, w).

Definition header_allowlist_transform {W} (h : HeaderAllowlist) : Transform W :=
  {| name := "header_allowlist"%bs; on_request := header_allowlist_on_request h;
     on_response := on_response_default |}.

End header_allowlist.

(** ** body_capture *)

Record BodyCaptureTransform : Type := {
  max_request_body_bytes : Z;
  bc_rules : list Rule;
}.

Definition body_capture_on_request {W} (b : BodyCaptureTransform) (ctx : Ctx) (req : RequestSummary)
    (w : W) : result Verdict TransformError * Ctx * RequestSummary * W :=
  if negb (any_rule_matches (bc_rules b) (host req) (method req) (path req))
  then (Ok Continue, ctx, req, w)
  else
    let bs := body_bytes (body req) in
    let len := Z.of_nat (length bs) in
    let cap := Z.min (max_request_body_bytes b) len in
    let truncated := (max_request_body_bytes b <? len)%Z || over_cap (body req) in
    let ctx := annotate "captured_bytes"%bs (Number (PosInt cap)) ctx in
    let ctx := annotate "truncated"%bs (Bool truncated) ctx in
    let ctx := set_body_capture
                 {| request_body := from_utf8_lossy (take (Z.to_nat cap) bs);
                    request_body_truncated := truncated |} ctx in
    (Ok Continue, ctx, req, w).

Definition body_capture_transform {W} (b : BodyCaptureTransform) : Transform W :=
  {| name := "body_capture"%bs; on_request := body_capture_on_request b;
     on_response := on_response_default |}.

(** ** Properties *)

(** The allowlist is default-deny: without [warn], a request goes on exactly
    when some entry covers its host, and it is rejected without a response
    otherwise. *)
Lemma allowlist_decides {W} al ctx req (w : W) :
  al_warn al = false →
  allowlist_on_request al ctx req w =
    ((if allowed al (host req) then Ok Continue else Ok (Reject None)), ctx, req, w).
Proof. intros H. unfold allowlist_on_request. rewrite H. by destruct (allowed al (host req)). Qed.

Lemma allowed_spec al h :
  allowed al h = true ↔
  (∃ g, g ∈ al_domains al ∧ domain_matches g h = true) ∨
  (∃ c ip, c ∈ al_cidrs al ∧ parse_ip h = Some ip ∧ cidr_contains c ip = true).
Proof.
  unfold allowed, cidr_matches_host. rewrite orb_true_iff, !existsb_exists.
  setoid_rewrite <- list_elem_of_In. split.
  - intros [(g & ? & ?)|(c & Hc & H)]; [by left; eauto|]. right.
    destruct (parse_ip h) as [ip|]; [|done]. by exists c, ip.
  - intros [(g & ? & ?)|(c & ip & Hc & -> & ?)]; eauto.
Qed.

(** What [annotate] records is the request's own headers, of the names it
    was given. *)
Definition header_annotation (names : list bytes) (req : RequestSummary) (kv : bytes * Value) : Prop :=
  ∃ n v, n ∈ names ∧ kv = ("header:"%bs ++ canonical_name n, String_ v) ∧
    headers_first (headers req) n = Some v.

Lemma map_insert_Forall_kv {A} (P : bytes * A → Prop) k v m :
  P (k, v) → Forall P m → Forall P (map_insert k v m).
Proof.
  intros Hk. induction m as [|[k' v'] m IH]; simpl; [by repeat constructor|].
  intros [? ?]%Forall_cons. destruct (bytes_compare k k'); repeat constructor; auto.
Qed.

Lemma annotate_headers_own all names req ctx :
  names ⊆ all →
  Forall (header_annotation all req) (ctx_annotations ctx) →
  Forall (header_annotation all req) (ctx_annotations (annotate_headers names (headers req) ctx)).
Proof.
  revert ctx. induction names as [|n names IH]; intros ctx Hn H; simpl; [done|].
  apply IH; [set_solver|]. destruct (headers_first (headers req) n) as [v|] eqn:E; [|done].
  simpl. apply map_insert_Forall_kv; [|done]. exists n, v. split; [set_solver|done].
Qed.

Definition group_names (gs : list AnnotateGroup) : list bytes := concat (map ag_headers gs).

Lemma annotate_groups_own all gs req ctx :
  group_names gs ⊆ all →
  Forall (header_annotation all req) (ctx_annotations ctx) →
  Forall (header_annotation all req) (ctx_annotations (annotate_groups gs req ctx)).
Proof.
  unfold group_names. revert ctx. induction gs as [|g gs IH]; intros ctx Hn H; simpl in *; [done|].
  apply IH; [set_solver|]. case_match; [|done]. apply annotate_headers_own; [set_solver|done].
Qed.

Lemma annotate_headers_capture names hs ctx :
  ctx_body_capture (annotate_headers names hs ctx) = ctx_body_capture ctx.
Proof.
  revert ctx. induction names as [|n names IH]; intros ctx; simpl; [done|].
  rewrite IH. by case_match.
Qed.

Lemma annotate_groups_capture gs req ctx :
  ctx_body_capture (annotate_groups gs req ctx) = ctx_body_capture ctx.
Proof.
  revert ctx. induction gs as [|g gs IH]; intros ctx; simpl; [done|].
  rewrite IH. case_match; [apply annotate_headers_capture|done].
Qed.

(** Only header values are read: two requests that agree on the headers a
    group names (and on what the rules look at) are annotated alike. *)
Definition same_target (r r' : RequestSummary) : Prop :=
  host r = host r' ∧ method r = method r' ∧ path r = path r'.

Lemma annotate_headers_ext names hs hs' ctx :
  (∀ n, n ∈ names → headers_first hs n = headers_first hs' n) →
  annotate_headers names hs ctx = annotate_headers names hs' ctx.
Proof.
  revert ctx. induction names as [|n names IH]; intros ctx H; simpl; [done|].
  rewrite H by set_solver. apply IH. set_solver.
Qed.

Lemma annotate_groups_ext gs r r' ctx :
  same_target r r' →
  (∀ g n, g ∈ gs → n ∈ ag_headers g → headers_first (headers r) n = headers_first (headers r') n) →
  annotate_groups gs r ctx = annotate_groups gs r' ctx.
Proof.
  intros (Hh & Hm & Hp). revert ctx. induction gs as [|g gs IH]; intros ctx H; simpl; [done|].
  rewrite Hh, Hm, Hp. rewrite (annotate_headers_ext _ _ (headers r')) by (intros; by eapply H; [left|]).
  apply IH. intros g' n Hg. apply H. by right.
Qed.

(** The header filter keeps exactly the headers an entry covers, in order,
    with their values. *)
Section header_allowlist_props.
Context `{RE : RegexEngine}.

Definition covered (entries : list HeaderNameEntry) (n : bytes) : bool :=
  existsb (fun e => header_entry_matches e n) entries.

Definition filter_active (h : HeaderAllowlist) (req : RequestSummary) : bool :=
  match ha_rules h with
  | Some rules => any_rule_matches rules (host req) (method req) (path req)
  | None => true
  end.

Lemma header_allowlist_filters {W} h ctx req (w : W) res ctx' req' w' :
  header_allowlist_on_request h ctx req w = (res, ctx', req', w') →
  res = Ok Continue ∧ w' = w ∧ ctx_body_capture ctx' = ctx_body_capture ctx ∧
  req' = set_headers (if filter_active h req
                      then List.filter (fun hd => covered (ha_entries h) hd.1) (headers req)
                      else headers req) req.
Proof.
  unfold header_allowlist_on_request, filter_active. rewrite retain_spec.
  destruct (ha_rules h) as [rules|]; [destruct (any_rule_matches rules _ _ _)|]; simpl;
    intros H; simplify_eq; (repeat split; try done); try (by case_bool_decide); by destruct req'.
Qed.

(** The names it reports are the removed ones, each once, in order. *)
Lemma dedup_sort_elem l x : x ∈ dedup (sort_strings l) ↔ x ∈ l.
Proof. by rewrite dedup_elem, sort_strings_perm. Qed.

Lemma dedup_sort_nil l : dedup (sort_strings l) = [] ↔ l = [].
Proof.
  split; [|by intros ->]. intros H. destruct l as [|x l]; [done|].
  assert (x ∈ dedup (sort_strings (x :: l))) by (apply dedup_sort_elem; left).
  rewrite H in *. set_solver.
Qed.

Lemma header_allowlist_reports {W} h req (w : W) res ctx' req' w' :
  header_allowlist_on_request h ctx_default req w = (res, ctx', req', w') →
  filter_active h req = true →
  ∃ names, StronglySorted bytes_lt names ∧
    (∀ x, x ∈ names ↔
       ∃ hd, hd ∈ headers req ∧ covered (ha_entries h) hd.1 = false ∧ x = canonical_name hd.1) ∧
    ctx_annotations ctx' = (if names ≟ [] then [] else [("stripped_headers"%bs, json_strings names)]).
Proof.
  intros H Hact. set (removed := (retain (covered (ha_entries h)) (headers req)).2).
  exists (dedup (sort_strings removed)).
  split; [apply dedup_sorted, sort_strings_sorted|]. split.
  { intros x. unfold removed. rewrite dedup_sort_elem, retain_spec. simpl.
    rewrite list_elem_of_In, in_map_iff. setoid_rewrite filter_In.
    setoid_rewrite negb_true_iff. setoid_rewrite <- list_elem_of_In. naive_solver. }
  unfold header_allowlist_on_request in H. unfold filter_active in Hact.
  replace (match ha_rules h with Some rules => negb (any_rule_matches rules (host req) (method req) (path req)) | None => false end)
    with false in H by (destruct (ha_rules h); by rewrite ?Hact).
  fold (covered (ha_entries h)) in H.
  destruct (retain (covered (ha_entries h)) (headers req)) as [kept rm]. simpl in removed. subst removed.
  simplify_eq. rewrite (bool_decide_ext _ _ (dedup_sort_nil rm)). by case_bool_decide.
Qed.

End header_allowlist_props.

(** The capture is the first [cap] bytes of the body, marked truncated when
    bytes are missing from it. *)
Lemma body_capture_records {W} b ctx req (w : W) res ctx' req' w' :
  body_capture_on_request b ctx req w = (res, ctx', req', w') →
  any_rule_matches (bc_rules b) (host req) (method req) (path req) = true →
  (0 <= max_request_body_bytes b)%Z →
  res = Ok Continue ∧ req' = req ∧ w' = w ∧
  ∃ kept rest, body_bytes (body req) = kept ++ rest ∧
    (Z.of_nat (length kept) <= max_request_body_bytes b)%Z ∧
    ctx_body_capture ctx' = Some {| request_body := from_utf8_lossy kept;
      request_body_truncated := negb (rest ≟ []) || over_cap (body req) |} ∧
    map_get "captured_bytes"%bs (ctx_annotations ctx') = Some (Number (PosInt (Z.of_nat (length kept)))) .
Proof.
  unfold body_capture_on_request. intros H Hr Hm. rewrite Hr in H. simpl in H. simplify_eq.
  split; [done|]. split; [done|]. split; [done|].
  set (bs := body_bytes (body req')). set (m := max_request_body_bytes b) in *.
  set (n := Z.to_nat (m `min` Z.of_nat (length bs))).
  exists (take n bs), (drop n bs). rewrite take_drop, length_take.
  assert (n ≤ length bs) by lia. split; [done|]. split; [lia|]. split.
  - simpl. do 2 f_equal. destruct (Z.ltb_spec m (Z.of_nat (length bs))) as [Hlt|Hge].
    + rewrite bool_decide_false; [done|]. intros E%(f_equal length). rewrite length_drop in E.
      simpl in E. lia.
    + rewrite bool_decide_true; [done|]. apply drop_ge. lia.
  - simpl ctx_annotations. rewrite map_get_insert_ne by done. rewrite map_get_insert_eq.
    do 3 f_equal. lia.
Qed.

