(* ===== verification/Secrets.v ===== *)
(** * The secrets transform ([hematite-kernel/src/secrets.rs])

    The workload sends proxy tokens; the transform swaps in the resolved
    values at the places a secret opts in to. *)

From S2P Require Import Prelude Utf8 Json Matcher Summary Codec Pipeline.

Section secrets.
Context `{RE : RegexEngine}.

Record ConfiguredSecret : Type := {
  cs_source : SourceRef;
  cs_source_name : bytes;
  cs_proxy_value : bytes;
  cs_match_headers : option (list HeaderNameEntry);
  cs_match_query : bool;
  cs_match_path : bool;
  cs_match_body : bool;
  cs_require : bool;
  cs_rules : list Rule;
}.

Record Secrets (W : Type) : Type := {
  secrets : list ConfiguredSecret;
  resolver : SecretResolver W;
}.

Record SecretSpec : Type := {
  ss_source : SourceRef;
  ss_proxy_value : bytes;
  ss_match_headers : option (list HeaderNameEntry);
  ss_match_query : bool;
  ss_match_path : bool;
  ss_match_body : bool;
  ss_require : bool;
  ss_rules : list Rule;
}.

Definition configure (s : SecretSpec) : ConfiguredSecret :=
  {| cs_source_name := source_name (ss_source s);
     cs_source := ss_source s;
     cs_proxy_value := ss_proxy_value s;
     cs_match_headers := ss_match_headers s;
     cs_match_query := ss_match_query s;
     cs_match_path := ss_match_path s;
     cs_match_body := ss_match_body s;
     cs_require := ss_require s;
     cs_rules := ss_rules s |}.

(** [Secrets::build]. *)
Definition secrets_build {W} (specs : list SecretSpec) (r : SecretResolver W) : Secrets W :=
  {| secrets := map configure specs; resolver := r |}.

(** ** Swapping in one place *)

Definition swap_header_value (value proxy secret : bytes) : bytes * bool :=
  let plain :=
    let '(new, n) := replace_all value proxy secret in
    if 0 <? n then (from_utf8_lossy new, true) else (value, false) in
  match strip_prefix "Basic "%bs value with
  | Some b64 =>
      match base64_decode b64 with
      | Some decoded =>
          let '(new_decoded, n) := replace_all decoded proxy secret in
          if 0 <? n then ("Basic "%bs ++ base64_encode new_decoded, true) else (value, false)
      | None => plain
      end
  | None => plain
  end.

(** One [key=value] pair of a query: the new pair, and whether it was hit. *)
Definition swap_pair (proxy repl pair : bytes) : bytes * bool :=
  match split_once "="%byte pair with
  | Some (k, v) =>
      let '(new_v, n) := replace_all v proxy repl in
      (k ++ "="%byte :: from_utf8_lossy new_v, 0 <? n)
  | None => (pair, false)
  end.

Definition swap_query (query proxy secret : bytes) : option bytes :=
  let repl := percent_encode secret in
  let swapped := map (swap_pair proxy repl) (split_on "&"%byte query) in
  let rebuilt := join_with ["&"%byte] (map fst swapped) in
  if existsb snd swapped then Some rebuilt else None.

(** ** Scanning a request for one secret *)

Definition selects_header (entries : option (list HeaderNameEntry)) (n : bytes) : bool :=
  match entries with
  | None => true
  | Some entries => existsb (fun e => header_entry_matches e n) entries
  end.

(** The closure given to [map_values]: it captures [locations]. *)
Definition swap_header (entries : option (list HeaderNameEntry)) (proxy secret_bytes : bytes)
    (locations : list bytes) (n value : bytes) : option bytes * list bytes :=
  if negb (selects_header entries n) then (None, locations)
  else
    let '(new_value, swapped) := swap_header_value value proxy secret_bytes in
    if swapped then (Some new_value, locations ++ ["header:"%bs ++ canonical_name n])
    else (None, locations).

Definition scan_headers (req : RequestSummary) (s : ConfiguredSecret) (secret_bytes : bytes) :
    RequestSummary * list bytes :=
  let '(hs, locations) :=
    map_values (swap_header (cs_match_headers s) (cs_proxy_value s) secret_bytes) [] (headers req) in
  (set_headers hs req, locations).

Definition scan_query (req : RequestSummary) (s : ConfiguredSecret) (secret_bytes : bytes)
    (locations : list bytes) : RequestSummary * list bytes :=
  if cs_match_query s && negb (query req ≟ []) then
    match swap_query (query req) (cs_proxy_value s) secret_bytes with
    | Some q => (set_query q req, locations ++ ["query"%bs])
    | None => (req, locations)
    end
  else (req, locations).

Definition scan_path (req : RequestSummary) (s : ConfiguredSecret) (secret_bytes : bytes)
    (locations : list bytes) : RequestSummary * list bytes :=
  if cs_match_path s then
    let '(new_path, n) := replace_all (path req) (cs_proxy_value s) (percent_encode secret_bytes) in
    if 0 <? n then (set_path (from_utf8_lossy new_path) req, locations ++ ["path"%bs])
    else (req, locations)
  else (req, locations).

Definition scan_body (req : RequestSummary) (s : ConfiguredSecret) (secret_bytes : bytes)
    (locations : list bytes) : RequestSummary * list bytes :=
  if cs_match_body s then
    let '(new_body, n) := replace_all (body_bytes (body req)) (cs_proxy_value s) secret_bytes in
    if 0 <? n then (set_body (body_replace (body req) new_body).2 req, locations ++ ["body"%bs])
    else (req, locations)
  else (req, locations).

Definition scan_and_swap (req : RequestSummary) (s : ConfiguredSecret) (secret_bytes : bytes) :
    RequestSummary * list bytes :=
  let '(req, locations) := scan_headers req s secret_bytes in
  let '(req, locations) := scan_query req s secret_bytes locations in
  let '(req, locations) := scan_path req s secret_bytes locations in
  scan_body req s secret_bytes locations.

(** ** The transform *)

(** One entry of the [swapped] annotation. *)
Definition swapped_entry (s : ConfiguredSecret) (locations : list bytes) : Value :=
  Object [("locations"%bs, json_strings locations); ("secret"%bs, String_ (cs_source_name s))].

(** The annotations written after the loop. *)
Definition secrets_finish (swapped : list Value) (unavailable : list bytes) (ctx : Ctx) : Ctx :=
  let ctx := match swapped with
             | [] => ctx
             | _ => annotate "swapped"%bs (Array swapped) ctx
             end in
  match unavailable with
  | [] => ctx
  | _ => annotate "secret_unavailable"%bs (json_strings unavailable) ctx
  end.

Section on_request.
Context {W : Type} (r : SecretResolver W).

(** The loop over the configured secrets; the context is only written after
    it, so an early return leaves it alone. *)
Fixpoint secrets_loop (ss : list ConfiguredSecret) (swapped : list Value) (unavailable : list bytes)
    (ctx : Ctx) (req : RequestSummary) (w : W) :
    result Verdict TransformError * Ctx * RequestSummary * W :=
  match ss with
  | [] => (Ok Continue, secrets_finish swapped unavailable ctx, req, w)
  | s :: ss =>
      if negb (any_rule_matches (cs_rules s) (host req) (method req) (path req)) then
        secrets_loop ss swapped unavailable ctx req w
      else
        let '(resolved, w) := resolve r (cs_source s) w in
        match resolved with
        | Err _ =>
            if cs_require s then (Ok (Reject None), ctx, req, w)
            else secrets_loop ss swapped (unavailable ++ [cs_source_name s]) ctx req w
        | Ok resolved =>
            if cs_match_body s && over_cap (body req) then
              (Err (Fmt "secret {:?}: cannot swap in an over-cap body"%bs [Text (cs_source_name s)]),
               ctx, req, w)
            else
              let '(req, locations) := expose_for_swap resolved (scan_and_swap req s) in
              if cs_require s && (locations ≟ []) then (Ok (Reject None), ctx, req, w)
              else
                let swapped := if locations ≟ [] then swapped
                               else swapped ++ [swapped_entry s locations] in
                secrets_loop ss swapped unavailable ctx req w
        end
  end.

End on_request.

Definition secrets_on_request {W} (t : Secrets W) (ctx : Ctx) (req : RequestSummary) (w : W) :
    result Verdict TransformError * Ctx * RequestSummary * W :=
  secrets_loop (resolver W t) (secrets W t) [] [] ctx req w.

Definition secrets_transform {W} (t : Secrets W) : Transform W :=
  {| name := "secrets"%bs; on_request := secrets_on_request t; on_response := on_response_default |}.

(** ** What a swap may change

    [frame hdr q p b r r']: between the two requests only the values of
    headers selected by [hdr], and the query, path and body where the flag
    allows it, may differ. *)

Record frame (hdr : bytes → bool) (q p b : bool) (r r' : RequestSummary) : Prop := {
  frame_mode : mode r' = mode r;
  frame_method : method r' = method r;
  frame_host : host r' = host r;
  frame_port : port r' = port r;
  frame_sni : sni r' = sni r;
  frame_remote : remote_addr r' = remote_addr r;
  frame_headers :
    Forall2 (fun h h' => h'.1 = h.1 ∧ (hdr h.1 = false → h'.2 = h.2)) (headers r) (headers r');
  frame_query : q = false → query r' = query r;
  frame_path : p = false → path r' = path r;
  frame_body : b = false → body r' = body r;
  frame_over_cap : over_cap (body r') = over_cap (body r);
}.

Lemma frame_refl hdr q p b r : frame hdr q p b r r.
Proof. split; try done. apply Forall_Forall2_diag, Forall_true. done. Qed.

#[local] Ltac specialize_hyps E :=
  repeat match goal with H : _ = false → _ |- _ => specialize (H E) || clear H end.

Lemma frame_trans hdr q p b r1 r2 r3 :
  frame hdr q p b r1 r2 → frame hdr q p b r2 r3 → frame hdr q p b r1 r3.
Proof.
  intros H1 H2. destruct H1, H2.
  split; try congruence; try (intros E; specialize_hyps E; congruence).
  eapply Forall2_trans; [|done|done]. simpl. intros h1 h2 h3 [E1 V1] [E2 V2].
  split; [congruence|]. intros Hh. rewrite V2, V1; [done|done|congruence].
Qed.

Lemma frame_mono (hdr hdr' : bytes → bool) (q q' p p' b b' : bool) r r' :
  (∀ n, hdr n = true → hdr' n = true) → (q = true → q' = true) → (p = true → p' = true) →
  (b = true → b' = true) → frame hdr q p b r r' → frame hdr' q' p' b' r r'.
Proof.
  intros Hh Hq Hp Hb []. split; try done.
  - eapply Forall2_impl; [done|]. simpl. intros h h' [? Hv]. split; [done|].
    intros Hf. apply Hv. destruct (hdr h.1) eqn:E; [|done]. apply Hh in E. congruence.
  - intros ->. destruct q; [by discriminate Hq|auto].
  - intros ->. destruct p; [by discriminate Hp|auto].
  - intros ->. destruct b; [by discriminate Hb|auto].
Qed.

Definition secret_frame (s : ConfiguredSecret) : RequestSummary → RequestSummary → Prop :=
  frame (selects_header (cs_match_headers s)) (cs_match_query s) (cs_match_path s) (cs_match_body s).

Lemma map_values_swap hdrs proxy sec locs hs :
  Forall2 (fun h h' => h'.1 = h.1 ∧ (selects_header hdrs h.1 = false → h'.2 = h.2)) hs
    (map_values (swap_header hdrs proxy sec) locs hs).1.
Proof.
  revert locs. induction hs as [|[n v] hs IH]; intros locs; simpl; [constructor|].
  destruct (swap_header hdrs proxy sec locs n v) as [new locs'] eqn:E. specialize (IH locs').
  destruct (map_values _ locs' hs) as [hs' l]. simpl in *. constructor; [|done].
  split; [done|]. simpl. intros Hn. unfold swap_header in E. rewrite Hn in E. simpl in E.
  by injection E as <- _.
Qed.

Lemma scan_headers_frame req s sec : secret_frame s req (scan_headers req s sec).1.
Proof.
  unfold scan_headers.
  pose proof (map_values_swap (cs_match_headers s) (cs_proxy_value s) sec [] (headers req)) as H.
  destruct (map_values _ [] (headers req)) as [hs l]. by split.
Qed.

Lemma diag_headers (P : bytes → bool) (hs : Headers) :
  Forall2 (fun h h' => h'.1 = h.1 ∧ (P h.1 = false → h'.2 = h.2)) hs hs.
Proof. by apply Forall_Forall2_diag, Forall_true. Qed.

Lemma scan_query_frame req s sec l : secret_frame s req (scan_query req s sec l).1.
Proof.
  unfold scan_query. destruct (cs_match_query s) eqn:E; simpl; [|apply frame_refl].
  repeat case_match; try apply frame_refl. split; try done; [apply diag_headers|]. simpl. congruence.
Qed.

Lemma scan_path_frame req s sec l : secret_frame s req (scan_path req s sec l).1.
Proof.
  unfold scan_path. destruct (cs_match_path s) eqn:E; simpl; [|apply frame_refl].
  repeat case_match; try apply frame_refl. split; try done; [apply diag_headers|]. simpl. congruence.
Qed.

Lemma body_replace_over_cap b new : over_cap (body_replace b new).2 = over_cap b.
Proof. unfold body_replace. by destruct (over_cap b) eqn:E. Qed.

Lemma scan_body_frame req s sec l : secret_frame s req (scan_body req s sec l).1.
Proof.
  unfold scan_body. destruct (cs_match_body s) eqn:E; simpl; [|apply frame_refl].
  repeat case_match; try apply frame_refl. split; try done; [apply diag_headers| |].
  - simpl. congruence.
  - apply body_replace_over_cap.
Qed.

Lemma scan_and_swap_frame req s sec : secret_frame s req (scan_and_swap req s sec).1.
Proof.
  unfold scan_and_swap.
  pose proof (scan_headers_frame req s sec) as H1. destruct (scan_headers req s sec) as [r1 l1].
  pose proof (scan_query_frame r1 s sec l1) as H2. destruct (scan_query r1 s sec l1) as [r2 l2].
  pose proof (scan_path_frame r2 s sec l2) as H3. destruct (scan_path r2 s sec l2) as [r3 l3].
  pose proof (scan_body_frame r3 s sec l3) as H4. simpl in *.
  do 3 (eapply frame_trans; [eassumption|]). done.
Qed.

(** The frame of a list of secrets: what any of them opts in to. *)
Definition secrets_frame (ss : list ConfiguredSecret) : RequestSummary → RequestSummary → Prop :=
  frame (fun n => existsb (fun s => selects_header (cs_match_headers s) n) ss)
    (existsb cs_match_query ss) (existsb cs_match_path ss) (existsb cs_match_body ss).

Lemma secret_frame_in s ss r r' : s ∈ ss → secret_frame s r r' → secrets_frame ss r r'.
Proof.
  intros Hs. apply frame_mono; intros; apply existsb_exists; exists s; by rewrite <- list_elem_of_In.
Qed.

Lemma secrets_loop_frame {W} (r : SecretResolver W) all ss swapped un ctx req w res ctx' req' w' :
  ss ⊆ all →
  secrets_loop r ss swapped un ctx req w = (res, ctx', req', w') → secrets_frame all req req'.
Proof.
  revert swapped un req w. induction ss as [|s ss IH]; intros swapped un req w Hsub; simpl.
  { intros H. simplify_eq. apply frame_refl. }
  assert (s ∈ all) by set_solver. assert (ss ⊆ all) by set_solver.
  case_match; [by apply IH|]. destruct (resolve r (cs_source s) w) as [[sec|e] w1].
  2:{ case_match; [|by apply IH]. intros [= <- <- <- <-]. apply frame_refl. }
  case_match; [intros [= <- <- <- <-]; apply frame_refl|].
  destruct sec as [sec]. simpl. pose proof (scan_and_swap_frame req s sec) as Hf.
  destruct (scan_and_swap req s sec) as [req1 locs]. simpl in Hf.
  apply (secret_frame_in _ all) in Hf; [|done].
  case_match; [by intros [= <- <- <- <-]|].
  intros H'%IH; [|done]. by eapply frame_trans.
Qed.

(** ** What a swap reports

    Where the proxy token is found, said without the secret. *)

Definition hits (needle hay : bytes) : bool :=
  negb (needle ≟ []) && bool_decide (is_Some (find_sub needle hay)).

Lemma replace_all_hits s needle r : (0 <? (replace_all s needle r).2) = hits needle s.
Proof.
  unfold hits. destruct (decide (needle = [])) as [->|Hn]; [done|].
  rewrite (bool_decide_false (needle = [])) by done. simpl.
  pose proof (replace_all_none s needle r Hn) as H.
  destruct (replace_all s needle r).2 as [|n]; simpl.
  - rewrite (proj1 H) by done. done.
  - destruct (find_sub needle s); [done|]. discriminate (proj2 H eq_refl).
Qed.

(** A [Basic] value that decodes is searched in decoded form. *)
Definition header_hit (proxy value : bytes) : bool :=
  match strip_prefix "Basic "%bs value with
  | Some b64 => match base64_decode b64 with
                | Some decoded => hits proxy decoded
                | None => hits proxy value
                end
  | None => hits proxy value
  end.

Lemma swap_header_value_hit value proxy sec :
  (swap_header_value value proxy sec).2 = header_hit proxy value.
Proof.
  unfold swap_header_value, header_hit.
  destruct (strip_prefix _ value) as [b64|]; [destruct (base64_decode b64) as [d|]|];
    rewrite <- (replace_all_hits _ _ sec); destruct (replace_all _ _ _); simpl; by case_match.
Qed.

Definition pair_hit (proxy pair : bytes) : bool :=
  match split_once "="%byte pair with Some (_, v) => hits proxy v | None => false end.

Lemma swap_pair_hit proxy repl pair : (swap_pair proxy repl pair).2 = pair_hit proxy pair.
Proof.
  unfold swap_pair, pair_hit. destruct (split_once _ pair) as [[k v]|]; [|done].
  rewrite <- (replace_all_hits _ _ repl). by destruct (replace_all _ _ _).
Qed.

Definition query_hit (proxy query : bytes) : bool :=
  negb (query ≟ []) && existsb (pair_hit proxy) (split_on "&"%byte query).

Lemma swap_query_hit query proxy sec :
  bool_decide (is_Some (swap_query query proxy sec))
  = existsb (pair_hit proxy) (split_on "&"%byte query).
Proof.
  unfold swap_query. cbv zeta.
  assert (∀ l, existsb snd (map (swap_pair proxy (percent_encode sec)) l) = existsb (pair_hit proxy) l)
    as -> by (induction l as [|x l IH]; simpl; [done|]; by rewrite IH, swap_pair_hit).
  by case_match.
Qed.

Definition header_location (h : bytes * bytes) : bytes := "header:"%bs ++ canonical_name h.1.

(** The report of one scan: the hit headers in wire order, then query, path
    and body. *)
Definition report (req : RequestSummary) (s : ConfiguredSecret) : list bytes :=
  map header_location
    (List.filter (fun h => selects_header (cs_match_headers s) h.1 && header_hit (cs_proxy_value s) h.2)
       (headers req))
  ++ (if cs_match_query s && query_hit (cs_proxy_value s) (query req) then ["query"%bs] else [])
  ++ (if cs_match_path s && hits (cs_proxy_value s) (path req) then ["path"%bs] else [])
  ++ (if cs_match_body s && hits (cs_proxy_value s) (body_bytes (body req)) then ["body"%bs] else []).

Lemma map_values_report hdrs proxy sec locs hs :
  (map_values (swap_header hdrs proxy sec) locs hs).2
  = locs ++ map header_location
      (List.filter (fun h => selects_header hdrs h.1 && header_hit proxy h.2) hs).
Proof.
  revert locs. induction hs as [|[n v] hs IH]; intros locs; simpl; [by rewrite app_nil_r|].
  assert ((swap_header hdrs proxy sec locs n v).2
    = locs ++ if selects_header hdrs n && header_hit proxy v then [header_location (n, v)] else []) as H.
  { unfold swap_header. destruct (selects_header hdrs n); simpl; [|by rewrite app_nil_r].
    rewrite <- (swap_header_value_hit _ _ sec). destruct (swap_header_value v proxy sec) as [x f]. simpl.
    destruct f; [done|by rewrite app_nil_r]. }
  destruct (swap_header hdrs proxy sec locs n v) as [new locs']. simpl in H. subst locs'.
  specialize (IH (locs ++ (if selects_header hdrs n && header_hit proxy v then [header_location (n, v)] else []))).
  destruct (map_values _ _ hs). simpl in *. rewrite IH, <- app_assoc. by case_match.
Qed.

Lemma scan_query_report req s sec l :
  (scan_query req s sec l).2
  = l ++ if cs_match_query s && query_hit (cs_proxy_value s) (query req) then ["query"%bs] else [].
Proof.
  unfold scan_query, query_hit. rewrite <- (swap_query_hit _ _ sec).
  destruct (cs_match_query s); [|by rewrite app_nil_r].
  case_bool_decide; simpl; [by rewrite app_nil_r|].
  destruct (swap_query _ _ _); simpl; [done|by rewrite app_nil_r].
Qed.

Lemma scan_path_report req s sec l :
  (scan_path req s sec l).2
  = l ++ if cs_match_path s && hits (cs_proxy_value s) (path req) then ["path"%bs] else [].
Proof.
  unfold scan_path. rewrite <- (replace_all_hits _ _ (percent_encode sec)).
  destruct (cs_match_path s); [|by rewrite app_nil_r].
  destruct (replace_all _ _ _). simpl. case_match; [done|by rewrite app_nil_r].
Qed.

Lemma scan_body_report req s sec l :
  (scan_body req s sec l).2
  = l ++ if cs_match_body s && hits (cs_proxy_value s) (body_bytes (body req)) then ["body"%bs] else [].
Proof.
  unfold scan_body. rewrite <- (replace_all_hits _ _ sec).
  destruct (cs_match_body s); [|by rewrite app_nil_r].
  destruct (replace_all _ _ _). simpl. case_match; [done|by rewrite app_nil_r].
Qed.

(** The four places are independent of each other. *)
Lemma scan_query_keeps req s sec l :
  path (scan_query req s sec l).1 = path req ∧ body (scan_query req s sec l).1 = body req.
Proof. unfold scan_query. by repeat case_match. Qed.

Lemma scan_path_keeps req s sec l : body (scan_path req s sec l).1 = body req.
Proof. unfold scan_path. by repeat case_match. Qed.

(** What is reported is where the token was found, whatever the secret is. *)
Lemma scan_and_swap_report req s sec : (scan_and_swap req s sec).2 = report req s.
Proof.
  unfold scan_and_swap, scan_headers, report.
  pose proof (map_values_report (cs_match_headers s) (cs_proxy_value s) sec [] (headers req)) as H0.
  destruct (map_values _ [] (headers req)) as [hs l0]. simpl in H0. rewrite <- H0. clear H0.
  pose proof (scan_query_report (set_headers hs req) s sec l0) as H1.
  pose proof (scan_query_keeps (set_headers hs req) s sec l0) as [K1 K1'].
  destruct (scan_query (set_headers hs req) s sec l0) as [r1 l1]. simpl in *. subst l1.
  pose proof (scan_path_report r1 s sec (l0 ++ if cs_match_query s && query_hit (cs_proxy_value s) (query req)
    then ["query"%bs] else [])) as H2.
  pose proof (scan_path_keeps r1 s sec (l0 ++ if cs_match_query s && query_hit (cs_proxy_value s) (query req)
    then ["query"%bs] else [])) as K2.
  destruct (scan_path r1 s sec _) as [r2 l2]. simpl in *. subst l2.
  rewrite scan_body_report, K2, K1', K1. by rewrite <- !app_assoc.
Qed.

(** ** What a swap writes

    Every leftmost occurrence of the token is replaced, and there is one. *)
Definition substituted (token value old new : bytes) : Prop :=
  token ≠ [] ∧ ∃ ps, pieces token old ps ∧ 2 ≤ length ps ∧ new = join_with value ps.

Lemma replace_all_substituted old token value :
  hits token old = true → substituted token value old (replace_all old token value).1.
Proof.
  intros H. pose proof H as [Hn%negb_true_iff%bool_decide_eq_false _]%andb_true_iff. split; [done|].
  rewrite <- (replace_all_hits _ _ value) in H.
  destruct (replace_all_pieces old token value Hn) as (ps & Hps & Hr). rewrite Hr in *. simpl in *.
  exists ps. apply Nat.ltb_lt in H. split_and!; [done|lia|done].
Qed.

(** A header value: a [Basic] one that decodes is written in decoded form. *)
Definition header_written (token value old new : bytes) : Prop :=
  match strip_prefix "Basic "%bs old ≫= base64_decode with
  | Some d => ∃ d', substituted token value d d' ∧ new = "Basic "%bs ++ base64_encode d'
  | None => ∃ x, substituted token value old x ∧ new = from_utf8_lossy x
  end.

(** A part of the query, with the escaped value. *)
Definition pair_written (token value old new : bytes) : Prop :=
  match split_once "="%byte old with
  | Some (k, v) => ∃ x, new = k ++ "="%byte :: from_utf8_lossy x ∧
      if pair_hit token old then substituted token (percent_encode value) v x else x = v
  | None => new = old
  end.

(** The value stands at every place that is reported, and the rest is as it
    was. *)
Record written (s : ConfiguredSecret) (value : bytes) (r r' : RequestSummary) : Prop := {
  written_headers : Forall2 (fun h h' => h'.1 = h.1 ∧
    if selects_header (cs_match_headers s) h.1 && header_hit (cs_proxy_value s) h.2
    then header_written (cs_proxy_value s) value h.2 h'.2 else h'.2 = h.2) (headers r) (headers r');
  written_query :
    if cs_match_query s && query_hit (cs_proxy_value s) (query r)
    then ∃ ps, query r' = join_with ["&"%byte] ps ∧
           Forall2 (pair_written (cs_proxy_value s) value) (split_on "&"%byte (query r)) ps
    else query r' = query r;
  written_path :
    if cs_match_path s && hits (cs_proxy_value s) (path r)
    then ∃ x, substituted (cs_proxy_value s) (percent_encode value) (path r) x ∧ path r' = from_utf8_lossy x
    else path r' = path r;
  written_body :
    if cs_match_body s && hits (cs_proxy_value s) (body_bytes (body r))
    then substituted (cs_proxy_value s) value (body_bytes (body r)) (body_bytes (body r'))
    else body r' = body r;
}.

Lemma swap_header_value_written value proxy sec :
  header_hit proxy value = true → header_written proxy sec value (swap_header_value value proxy sec).1.
Proof.
  unfold header_hit, swap_header_value, header_written. intros H.
  destruct (strip_prefix "Basic "%bs value) as [b64|]; cbn [mbind option_bind];
    [destruct (base64_decode b64) as [d|]|];
    pose proof (replace_all_substituted _ _ sec H) as Hs; rewrite <- (replace_all_hits _ _ sec) in H;
    destruct (replace_all _ _ _) as [x n]; simpl in *; rewrite H; eauto.
Qed.

Lemma map_values_written hdrs proxy sec locs hs :
  Forall2 (fun h h' => h'.1 = h.1 ∧ if selects_header hdrs h.1 && header_hit proxy h.2
                                    then header_written proxy sec h.2 h'.2 else h'.2 = h.2)
    hs (map_values (swap_header hdrs proxy sec) locs hs).1.
Proof.
  revert locs. induction hs as [|[n v] hs IH]; intros locs; simpl; [constructor|].
  destruct (swap_header hdrs proxy sec locs n v) as [new locs'] eqn:E. specialize (IH locs').
  destruct (map_values _ locs' hs) as [hs' l]. simpl in *. constructor; [|done]. split; [done|]. simpl.
  unfold swap_header in E. destruct (selects_header hdrs n); simpl in *; [|by injection E as <- _].
  pose proof (swap_header_value_hit v proxy sec) as Hh. pose proof (swap_header_value_written v proxy sec) as Hw.
  destruct (swap_header_value v proxy sec) as [x f]. simpl in *. subst f.
  destruct (header_hit proxy v); injection E as <- _; simpl; auto.
Qed.

Lemma swap_pair_written proxy sec pair : pair_written proxy sec pair (swap_pair proxy (percent_encode sec) pair).1.
Proof.
  unfold pair_written, swap_pair, pair_hit. destruct (split_once "="%byte pair) as [[k v]|]; [|done].
  pose proof (replace_all_substituted v proxy (percent_encode sec)) as Hs.
  pose proof (replace_all_zero v proxy (percent_encode sec)) as Hz. rewrite <- (replace_all_hits _ _ (percent_encode sec)) in *.
  destruct (replace_all v proxy (percent_encode sec)) as [x n]. simpl in *. exists x. split; [done|].
  destruct n; simpl in *; auto.
Qed.

Lemma swap_query_written query proxy sec q :
  swap_query query proxy sec = Some q → ∃ ps, q = join_with ["&"%byte] ps ∧
    Forall2 (pair_written proxy sec) (split_on "&"%byte query) ps.
Proof.
  unfold swap_query. cbv zeta. destruct (existsb _ _); [|done]. intros [= <-]. eexists. split; [done|].
  rewrite map_map. induction (split_on "&"%byte query) as [|p l IH]; simpl; constructor; [apply swap_pair_written|done].
Qed.

Lemma scan_and_swap_written req s sec :
  cs_match_body s && over_cap (body req) = false → written s sec req (scan_and_swap req s sec).1.
Proof.
  intros Hcap. unfold scan_and_swap, scan_headers.
  pose proof (map_values_written (cs_match_headers s) (cs_proxy_value s) sec [] (headers req)) as Hh.
  destruct (map_values _ [] (headers req)) as [hs l0]. simpl in Hh.
  assert (headers (scan_query (set_headers hs req) s sec l0).1 = hs ∧
    path (scan_query (set_headers hs req) s sec l0).1 = path req ∧
    body (scan_query (set_headers hs req) s sec l0).1 = body req ∧
    if cs_match_query s && query_hit (cs_proxy_value s) (query req)
    then ∃ ps, query (scan_query (set_headers hs req) s sec l0).1 = join_with ["&"%byte] ps ∧
      Forall2 (pair_written (cs_proxy_value s) sec) (split_on "&"%byte (query req)) ps
    else query (scan_query (set_headers hs req) s sec l0).1 = query req) as (Q1 & Q2 & Q3 & Q4).
  { unfold scan_query, query_hit. rewrite <- (swap_query_hit _ _ sec). simpl.
    destruct (cs_match_query s), (negb (query req ≟ [])); simpl; try done.
    pose proof (swap_query_written (query req) (cs_proxy_value s) sec) as Hq.
    destruct (swap_query _ _ _); simpl; [|done]. split_and!; [done..|]. by apply Hq. }
  destruct (scan_query (set_headers hs req) s sec l0) as [r1 l1]. simpl in *.
  assert (headers (scan_path r1 s sec l1).1 = hs ∧ query (scan_path r1 s sec l1).1 = query r1 ∧
    body (scan_path r1 s sec l1).1 = body req ∧
    if cs_match_path s && hits (cs_proxy_value s) (path req)
    then ∃ x, substituted (cs_proxy_value s) (percent_encode sec) (path req) x ∧
      path (scan_path r1 s sec l1).1 = from_utf8_lossy x
    else path (scan_path r1 s sec l1).1 = path req) as (P1 & P2 & P3 & P4).
  { unfold scan_path. rewrite Q2. destruct (cs_match_path s); simpl; [|done].
    pose proof (replace_all_substituted (path req) (cs_proxy_value s) (percent_encode sec)) as Hs.
    rewrite <- (replace_all_hits _ _ (percent_encode sec)) in *.
    destruct (replace_all _ _ _) as [x n]. simpl in *. destruct (0 <? n); simpl; [|done]. split_and!; [done..|]. eauto. }
  destruct (scan_path r1 s sec l1) as [r2 l2]. simpl in *.
  assert (headers (scan_body r2 s sec l2).1 = hs ∧ query (scan_body r2 s sec l2).1 = query r2 ∧
    path (scan_body r2 s sec l2).1 = path r2 ∧
    if cs_match_body s && hits (cs_proxy_value s) (body_bytes (body req))
    then substituted (cs_proxy_value s) sec (body_bytes (body req)) (body_bytes (body (scan_body r2 s sec l2).1))
    else body (scan_body r2 s sec l2).1 = body req) as (B1 & B2 & B3 & B4).
  { unfold scan_body. rewrite P3. destruct (cs_match_body s); simpl in *; [|done].
    pose proof (replace_all_substituted (body_bytes (body req)) (cs_proxy_value s) sec) as Hs.
    rewrite <- (replace_all_hits _ _ sec) in *.
    destruct (replace_all _ _ _) as [x n]. simpl in *. destruct (0 <? n); simpl; [|done].
    unfold body_replace. rewrite Hcap. simpl. auto. }
  destruct (scan_body r2 s sec l2) as [r3 l3]. simpl in *.
  split; [by rewrite B1| |by rewrite B3|done]. rewrite B2, P2. done.
Qed.

(** The places a report can name, given the names of the request's headers. *)
Definition location_of (names : list bytes) (l : bytes) : Prop :=
  l = "query"%bs ∨ l = "path"%bs ∨ l = "body"%bs ∨
  ∃ n, n ∈ names ∧ l = "header:"%bs ++ canonical_name n.

Lemma report_locations req s : Forall (location_of (map fst (headers req))) (report req s).
Proof.
  unfold report. repeat (apply Forall_app; split).
  2-4: case_match; [constructor; [unfold location_of; auto|done]|done].
  apply Forall_map, Forall_forall. intros h [Hh _]%list_elem_of_In%filter_In.
  do 3 right. exists h.1. split; [|done]. apply list_elem_of_In, in_map_iff. eauto.
Qed.

(** An entry of the [swapped] annotation that names a configured secret and
    places of the request, and nothing else. *)
Definition safe_entry (ss : list ConfiguredSecret) (names : list bytes) (v : Value) : Prop :=
  ∃ s locs, s ∈ ss ∧ v = swapped_entry s locs ∧ locs ≠ [] ∧ Forall (location_of names) locs.

Definition applies (s : ConfiguredSecret) (req : RequestSummary) : bool :=
  any_rule_matches (cs_rules s) (host req) (method req) (path req).

Lemma frame_names hdr q p b r r' :
  frame hdr q p b r r' → map fst (headers r') = map fst (headers r).
Proof. intros []. induction frame_headers0 as [|h h' ? ? [E _]]; simpl; congruence. Qed.

Lemma frame_applies hdr q b r r' s : frame hdr q false b r r' → applies s r' = applies s r.
Proof. intros []. unfold applies. rewrite frame_host0, frame_method0, frame_path0; done. Qed.

Lemma safe_entry_cons s ss names v : safe_entry ss names v → safe_entry (s :: ss) names v.
Proof. intros (s' & locs & ? & ? & ? & ?). exists s', locs. split; [set_solver|done]. Qed.

Section loop.
Context {W : Type} (r : SecretResolver W).

Lemma secrets_loop_continue ss sw un ctx req w ctx' req' w' :
  secrets_loop r ss sw un ctx req w = (Ok Continue, ctx', req', w') →
  ∃ l un', ctx' = secrets_finish (sw ++ l) (un ++ un') ctx ∧
    Forall (safe_entry ss (map fst (headers req))) l ∧
    un' ⊆ map cs_source_name ss ∧
    (Forall (fun s => cs_match_path s = false) ss →
     ∀ s, s ∈ ss → cs_require s = true → applies s req = true →
     ∃ locs, locs ≠ [] ∧ swapped_entry s locs ∈ l).
Proof.
  revert sw un req w. induction ss as [|s ss IH]; intros sw un req w; cbn [secrets_loop].
  { intros H. simplify_eq. exists [], []. rewrite !app_nil_r. repeat split; try done; set_solver. }
  assert (∀ l names, Forall (safe_entry ss names) l → Forall (safe_entry (s :: ss) names) l) as Hmono
    by (intros; eapply Forall_impl; [done|apply safe_entry_cons]).
  destruct (negb (any_rule_matches (cs_rules s) _ _ _)) eqn:Ea.
  { intros (l & un' & -> & Hl & Hu & Hr)%IH. exists l, un'. split; [done|]. split; [auto|].
    split; [set_solver|]. intros Hp s' Hs' Hq Hap. apply Forall_cons in Hp as [_ Hp].
    apply elem_of_cons in Hs' as [->|Hs']; [|by apply Hr].
    apply negb_true_iff in Ea. unfold applies in Hap. congruence. }
  destruct (resolve r (cs_source s) w) as [[sec|e] w1].
  2:{ destruct (cs_require s) eqn:Eq; [done|].
      intros (l & un' & -> & Hl & Hu & Hr)%IH. exists l, (cs_source_name s :: un').
      rewrite <- app_assoc. split; [done|]. split; [auto|]. split; [set_solver|].
      intros Hp s' Hs' Hq Hap. apply Forall_cons in Hp as [_ Hp].
      apply elem_of_cons in Hs' as [->|Hs']; [congruence|by apply Hr]. }
  destruct (cs_match_body s && _); [done|]. destruct sec as [sec]. simpl.
  pose proof (scan_and_swap_frame req s sec) as Hf. pose proof (scan_and_swap_report req s sec) as Hloc.
  pose proof (report_locations req s) as Hrep.
  destruct (scan_and_swap req s sec) as [req1 locs]. simpl in *. rewrite <- Hloc in Hrep. clear Hloc.
  destruct (cs_require s && (locs ≟ [])) eqn:Eq; [done|].
  intros (l & un' & -> & Hl & Hu & Hr)%IH. rewrite (frame_names _ _ _ _ _ _ Hf) in Hl.
  exists ((if locs ≟ [] then [] else [swapped_entry s locs]) ++ l), un'.
  split; [by case_bool_decide; rewrite <- ?app_assoc|]. split; [|split; [set_solver|]].
  - apply Forall_app. split; [|auto]. case_bool_decide as El; repeat constructor.
    exists s, locs. split; [set_solver|done].
  - intros Hp s' Hs' Hq Hap. apply Forall_cons in Hp as [Hp0 Hp].
    apply elem_of_cons in Hs' as [->|Hs'].
    + rewrite Hq in Eq. simpl in Eq. rewrite Eq. apply bool_decide_eq_false in Eq.
      exists locs. split; [done|set_solver].
    + unfold secret_frame in Hf. rewrite Hp0 in Hf.
      destruct (Hr Hp s' Hs' Hq) as (locs' & ? & ?); [by rewrite (frame_applies _ _ _ _ _ _ Hf)|].
      exists locs'. set_solver.
Qed.

(** When the loop goes on to its end, each required secret that applies had its
    turn: it was resolved, found, written at every place that is reported, and
    reported. *)
Lemma secrets_loop_writes all ss sw un ctx req w ctx' req' w' :
  ss ⊆ all → Forall (fun s => cs_match_path s = false) ss →
  secrets_loop r ss sw un ctx req w = (Ok Continue, ctx', req', w') →
  ∃ l un', ctx' = secrets_finish (sw ++ l) (un ++ un') ctx ∧
    ∀ s, s ∈ ss → cs_require s = true → applies s req = true →
      ∃ r1 r2 value w1 w2, resolve r (cs_source s) w1 = (Ok (MkSecret value), w2) ∧
        secrets_frame all req r1 ∧ report r1 s ≠ [] ∧ written s value r1 r2 ∧ secrets_frame all r2 req' ∧
        swapped_entry s (report r1 s) ∈ l.
Proof.
  revert sw un req w. induction ss as [|s ss IH]; intros sw un req w Hsub Hp; cbn [secrets_loop].
  { intros H. simplify_eq. exists [], []. rewrite !app_nil_r. split; [done|]. by intros s ?%elem_of_nil. }
  assert (s ∈ all) as Hs by set_solver. assert (ss ⊆ all) as Hss by set_solver. apply Forall_cons in Hp as [Hp0 Hp].
  destruct (negb (any_rule_matches (cs_rules s) _ _ _)) eqn:Ea.
  { intros (l & un' & -> & Hr)%IH; [|done..]. exists l, un'. split; [done|].
    intros s' [->|Hs']%elem_of_cons Hq Hap; [|by apply Hr]. apply negb_true_iff in Ea. unfold applies in Hap. congruence. }
  destruct (resolve r (cs_source s) w) as [[[sec]|e] w1] eqn:Er.
  2:{ destruct (cs_require s) eqn:Eq; [done|].
      intros (l & un' & -> & Hr)%IH; [|done..]. exists l, (cs_source_name s :: un').
      rewrite <- app_assoc. split; [done|]. intros s' [->|Hs']%elem_of_cons Hq Hap; [congruence|by apply Hr]. }
  destruct (cs_match_body s && over_cap (body req)) eqn:Ec; [done|]. simpl.
  pose proof (scan_and_swap_frame req s sec) as Hf. pose proof (scan_and_swap_report req s sec) as Hloc.
  pose proof (scan_and_swap_written req s sec Ec) as Hw.
  destruct (scan_and_swap req s sec) as [req1 locs]. simpl in *. subst locs.
  destruct (cs_require s && (report req s ≟ [])) eqn:Eq; [done|].
  intros H. pose proof (secrets_loop_frame r all _ _ _ _ _ _ _ _ _ _ Hss H) as Hrest.
  pose proof (secret_frame_in _ _ _ _ Hs Hf) as Hf1.
  apply IH in H as (l & un' & -> & Hr); [|done..].
  exists ((if report req s ≟ [] then [] else [swapped_entry s (report req s)]) ++ l), un'.
  split; [by case_bool_decide; rewrite <- ?app_assoc|]. intros s' [->|Hs']%elem_of_cons Hq Hap.
  - rewrite Hq in Eq. simpl in Eq. rewrite Eq. apply bool_decide_eq_false in Eq.
    exists req, req1, sec, w, w1. split_and!; [done|apply frame_refl|done|done|done|set_solver].
  - unfold secret_frame in Hf. rewrite Hp0 in Hf.
    destruct (Hr s' Hs' Hq) as (r1 & r2 & v & w2 & w3 & ? & ? & ? & ? & ? & ?);
      [by rewrite (frame_applies _ _ _ _ _ _ Hf)|].
    exists r1, r2, v, w2, w3. split_and!; try done; [by eapply frame_trans|set_solver].
Qed.

(** Any other end is a rejection without a response or the over-cap error,
    with nothing annotated: the transform fails closed. *)
Lemma secrets_loop_stop ss sw un ctx req w res ctx' req' w' :
  secrets_loop r ss sw un ctx req w = (res, ctx', req', w') → res ≠ Ok Continue →
  ctx' = ctx ∧ ∃ s, s ∈ ss ∧
    (res = Ok (Reject None) ∧ cs_require s = true ∨
     res = Err (Fmt "secret {:?}: cannot swap in an over-cap body"%bs [Text (cs_source_name s)]) ∧
     cs_match_body s = true ∧ over_cap (body req) = true).
Proof.
  revert sw un req w. induction ss as [|s ss IH]; intros sw un req w; cbn [secrets_loop].
  { intros H Hne. by simplify_eq. }
  intros H Hne.
  assert (∀ sw un req1 w1, over_cap (body req1) = over_cap (body req) →
    secrets_loop r ss sw un ctx req1 w1 = (res, ctx', req', w') →
    ctx' = ctx ∧ ∃ s0, s0 ∈ s :: ss ∧
    (res = Ok (Reject None) ∧ cs_require s0 = true ∨
     res = Err (Fmt "secret {:?}: cannot swap in an over-cap body"%bs [Text (cs_source_name s0)]) ∧
     cs_match_body s0 = true ∧ over_cap (body req) = true)) as IH'.
  { intros sw0 un0 req1 w1 Ho Hl. destruct (IH _ _ _ _ Hl Hne) as (? & s0 & ? & ?).
    rewrite Ho in *. split; [done|]. exists s0. split; [set_solver|done]. }
  clear IH. assert (s ∈ s :: ss) by left.
  destruct (negb _); [by eapply IH'|]. destruct (resolve r (cs_source s) w) as [[[sec]|e] w1].
  2:{ destruct (cs_require s) eqn:Eq; [|by eapply IH']. simplify_eq. eauto 10. }
  destruct (cs_match_body s && over_cap (body req)) eqn:Eb.
  { simplify_eq. bool_simpl. eauto 10. }
  simpl in H. pose proof (scan_and_swap_frame req s sec) as Hf.
  destruct (scan_and_swap req s sec) as [req1 locs].
  destruct (cs_require s && _) eqn:Eq.
  { simplify_eq. bool_simpl. eauto 10. }
  eapply IH'; [|exact H]. by apply Hf.
Qed.

End loop.

(** ** The shape of a swapped query and of a swapped Basic value *)

(** The keys of a query, [None] for a part without [=]. *)
Definition query_keys (q : bytes) : list (option bytes) :=
  map (fun pair => fst <$> split_once "="%byte pair) (split_on "&"%byte q).

Lemma percent_encode_no c s : is_pct_byte c = false → c ∉ percent_encode s.
Proof.
  intros Hc Hin. pose proof (percent_encode_chars s) as H. rewrite Forall_forall in H.
  specialize (H c Hin). simpl in H. congruence.
Qed.

Lemma swap_pair_shape proxy sec pair :
  ("&"%byte ∉ pair) →
  ("&"%byte ∉ (swap_pair proxy (percent_encode sec) pair).1) ∧
  fst <$> split_once "="%byte (swap_pair proxy (percent_encode sec) pair).1
  = fst <$> split_once "="%byte pair.
Proof.
  intros Hp. unfold swap_pair. destruct (split_once "="%byte pair) as [[k v]|] eqn:E.
  2:{ simpl. by rewrite E. }
  apply split_once_Some in E as [-> Hk].
  pose proof (replace_all_elem v proxy (percent_encode sec) "&"%byte) as Hv.
  destruct (replace_all v proxy (percent_encode sec)) as [nv n]. simpl in *. split.
  - rewrite elem_of_app, elem_of_cons. intros [H|[H|H]]; [set_solver|done|].
    apply from_utf8_lossy_elem in H; [|done]. apply Hv in H as [H|H]; [set_solver|].
    by apply percent_encode_no in H.
  - replace (split_once "="%byte (k ++ "="%byte :: from_utf8_lossy nv))
      with (Some (k, from_utf8_lossy nv)); [done|].
    symmetry. by apply split_once_Some.
Qed.

(** A swap changes values only: the parts of the query and their keys stay. *)
Lemma swap_query_keys q proxy sec q' :
  swap_query q proxy sec = Some q' → query_keys q' = query_keys q.
Proof.
  unfold swap_query. cbv zeta. case_match; [|done]. intros [= <-].
  unfold query_keys. rewrite split_on_join.
  - rewrite !map_map. apply map_ext_Forall. eapply Forall_impl; [apply split_on_no_sep|].
    intros p Hp. by apply swap_pair_shape.
  - pose proof (split_on_not_nil "&"%byte q). by destruct (split_on "&"%byte q).
  - apply Forall_map, Forall_map. eapply Forall_impl; [apply split_on_no_sep|].
    intros p Hp. by apply swap_pair_shape.
Qed.

Lemma swap_header_basic cred proxy sec :
  swap_header_value ("Basic "%bs ++ base64_encode cred) proxy sec =
    if hits proxy cred
    then ("Basic "%bs ++ base64_encode (replace_all cred proxy sec).1, true)
    else ("Basic "%bs ++ base64_encode cred, false).
Proof.
  unfold swap_header_value.
  rewrite (proj2 (strip_prefix_Some "Basic "%bs _ (base64_encode cred)) eq_refl), base64_decode_encode.
  rewrite <- (replace_all_hits _ _ sec). by destruct (replace_all cred proxy sec).
Qed.

(** With nothing found nothing changes. *)
Lemma map_values_idle hdrs proxy sec locs hs :
  List.filter (fun h => selects_header hdrs h.1 && header_hit proxy h.2) hs = [] →
  (map_values (swap_header hdrs proxy sec) locs hs).1 = hs.
Proof.
  revert locs. induction hs as [|[n v] hs IH]; intros locs; simpl; [done|].
  destruct (selects_header hdrs n && header_hit proxy v) eqn:E; [done|]. intros H.
  assert (swap_header hdrs proxy sec locs n v = (None, locs)) as ->.
  { unfold swap_header. destruct (selects_header hdrs n); [|done]. simpl in *.
    rewrite <- (swap_header_value_hit _ _ sec) in E.
    destruct (swap_header_value v proxy sec) as [x f]. simpl in E. by subst f. }
  specialize (IH locs H). destruct (map_values _ locs hs). simpl in *. by subst.
Qed.

Lemma scan_and_swap_idle req s sec : report req s = [] → (scan_and_swap req s sec).1 = req.
Proof.
  unfold report. intros [H0 [H1 [H2 H3]%app_eq_nil]%app_eq_nil]%app_eq_nil.
  apply map_eq_nil in H0. unfold scan_and_swap, scan_headers.
  pose proof (map_values_idle _ _ sec [] _ H0) as Hh.
  destruct (map_values _ [] (headers req)) as [hs l]. simpl in Hh. subst hs.
  assert (set_headers (headers req) req = req) as -> by by destruct req.
  assert (scan_query req s sec l = (req, l)) as ->.
  { unfold scan_query. unfold query_hit in H1. rewrite <- (swap_query_hit _ _ sec) in H1.
    destruct (cs_match_query s); [|done]. case_bool_decide; [done|]. simpl in *.
    by destruct (swap_query _ _ _). }
  assert (scan_path req s sec l = (req, l)) as ->.
  { unfold scan_path. rewrite <- (replace_all_hits _ _ (percent_encode sec)) in H2.
    destruct (cs_match_path s); [|done]. by destruct (replace_all _ _ _) as [x [|n]]. }
  unfold scan_body. rewrite <- (replace_all_hits _ _ sec) in H3.
  destruct (cs_match_body s); [|done]. by destruct (replace_all _ _ _) as [x [|n]].
Qed.

End secrets.
Arguments secrets {RE W} s : rename.
Arguments resolver {RE W} s : rename.

(** ** Guarantees *)

Section guarantees.
Context `{RE : RegexEngine} {W : Type}.

(** C11 (frame): whatever the transform returns, between the request it was
    given and the one it leaves only the values of headers some secret
    selects, and the query, path or body where some secret opts in, may
    differ; header names, their order and everything else are kept. *)
Theorem secrets_touch_only_opted_in (t : Secrets W) ctx req w res ctx' req' w' :
  secrets_on_request t ctx req w = (res, ctx', req', w') →
  frame (fun n => existsb (fun s => selects_header (cs_match_headers s) n) (secrets t))
    (existsb cs_match_query (secrets t)) (existsb cs_match_path (secrets t))
    (existsb cs_match_body (secrets t)) req req'.
Proof. by apply secrets_loop_frame. Qed.

(** C12 (non-interference): the places reported for a secret are where its
    proxy token was found, whatever the secret's value; with none reported
    the request is unchanged. *)
Theorem swap_report_ignores_value (s : ConfiguredSecret) req a b :
  (scan_and_swap req s a).2 = (scan_and_swap req s b).2 ∧
  (scan_and_swap req s a).2 = report req s ∧
  ((scan_and_swap req s a).2 = [] → (scan_and_swap req s a).1 = req).
Proof.
  rewrite !scan_and_swap_report. split; [done|]. split; [done|]. apply scan_and_swap_idle.
Qed.


(** Fail closed: any other result is a rejection without a response
    because of a required secret, or the error of a body-matching secret on
    an over-cap body, and then nothing is annotated. *)
Theorem secrets_fail_closed (t : Secrets W) ctx req w res ctx' req' w' :
  secrets_on_request t ctx req w = (res, ctx', req', w') → res ≠ Ok Continue →
  ctx' = ctx ∧ ∃ s, s ∈ secrets t ∧
    (res = Ok (Reject None) ∧ cs_require s = true ∨
     res = Err (Fmt "secret {:?}: cannot swap in an over-cap body"%bs [Text (cs_source_name s)]) ∧
     cs_match_body s = true ∧ over_cap (body req) = true).
Proof. apply secrets_loop_stop. Qed.

(** A swap in the query changes values only, the pairs and their keys
    stay, whatever bytes the secret has. *)
Theorem query_swap_keeps_keys q proxy secret q' :
  swap_query q proxy secret = Some q' → query_keys q' = query_keys q.
Proof. apply swap_query_keys. Qed.

(** A well-formed [Basic] value is swapped in its decoded form and
    encoded again. *)
Theorem basic_auth_swap cred proxy secret :
  swap_header_value ("Basic "%bs ++ base64_encode cred) proxy secret =
    if hits proxy cred
    then ("Basic "%bs ++ base64_encode (replace_all cred proxy secret).1, true)
    else ("Basic "%bs ++ base64_encode cred, false).
Proof. apply swap_header_basic. Qed.

End guarantees.
