(* ===== verification/KernelConfig.v ===== *)
(** * Building a pipeline from configuration ([hematite-kernel/src/config.rs])

    The specs of the [transforms:] list, their compilation, and the two
    ordering checks that keep credentials out of the audit log.  The code
    that [serde] generates for the configuration structs is a parameter
    ([ConfigDecoder]); [DecoderLaws] states what is documented of it and used
    here.  An executable instance is in [SerdeModel]. *)

From S2P Require Import Prelude Net Json Matcher Summary Pipeline Transforms Secrets.

Definition ConfigError : Type := message.

(** [impl From<MatchConfigError> for ConfigError]. *)
Definition from_match_error (e : MatchConfigError) : ConfigError := display_match_error e.

(** ** Configuration data *)

Record TransformSpec : Type := { spec_name : bytes; spec_config : Value }.

Record RuleSpec : Type := {
  rs_host : bytes;
  rs_methods : option (list bytes);
  rs_paths : option (list bytes);
}.

Record AllowlistConfig : Type := { alc_domains : list bytes; alc_cidrs : list bytes; alc_warn : bool }.
Record AnnotateGroupSpec : Type := { ags_rules : list RuleSpec; ags_headers : list bytes }.
Record AnnotateConfig : Type := { anc_annotations : list AnnotateGroupSpec }.
Record HeaderAllowlistConfig : Type := { hac_headers : list bytes; hac_rules : option (list RuleSpec) }.
Record BodyCaptureConfig : Type := { bcc_max_request_body_bytes : Z; bcc_rules : list RuleSpec }.

Inductive SourceSpec : Type :=
| SEnv (var : bytes) (json_key : option bytes)
| SFile (path : bytes) (ttl failure_ttl json_key : option bytes).

Record SecretEntry : Type := {
  se_source : SourceSpec;
  se_proxy_value : bytes;
  se_match_headers : option (list bytes);
  se_match_query : bool;
  se_match_path : bool;
  se_match_body : bool;
  se_require : bool;
  se_rules : list RuleSpec;
}.
Record SecretsConfig : Type := { sc_secrets : list SecretEntry }.

(** [serde_json::from_value] at the five configuration types; the error is
    its text. *)
Class ConfigDecoder := {
  de_allowlist : Value → result AllowlistConfig bytes;
  de_annotate : Value → result AnnotateConfig bytes;
  de_header_allowlist : Value → result HeaderAllowlistConfig bytes;
  de_body_capture : Value → result BodyCaptureConfig bytes;
  de_secrets : Value → result SecretsConfig bytes;
}.

Definition deser {T} (decode : Value → result T bytes) (name : bytes) (config : Value) :
    result T ConfigError :=
  map_err (fun e => Fmt "transform {name:?}: {e}"%bs [Text name; Text e]) (decode config).

(** ** Rules and durations *)

Definition compile_rule (s : RuleSpec) : result Rule ConfigError :=
  let? h := map_err from_match_error (host_parse (rs_host s)) in
  let methods := map to_ascii_uppercase <$> rs_methods s in
  let? paths := map_err from_match_error (transpose (collect_results path_parse <$> rs_paths s)) in
  Ok {| rule_host := h; rule_methods := methods; rule_paths := paths |}.

Definition compile_rules (specs : list RuleSpec) : result (list Rule) ConfigError :=
  match specs with
  | [] => Err (Text "empty rule list"%bs)
  | _ => collect_results compile_rule specs
  end.

(** [n * 60] on [u64], which wraps in a release build. *)
Definition parse_duration (s : bytes) : result Duration ConfigError :=
  let s := trim s in
  let '(digits, unit) :=
    match find_byte (fun c => negb (is_ascii_digit c)) s with
    | Some i => (take i s, drop i s)
    | None => (s, "s"%bs)
    end in
  let? n := ok_or (parse_u64 digits) (Fmt "invalid duration: {s:?}"%bs [Text s]) in
  if unit ≟ "ms"%bs then Ok (duration_from_millis n)
  else if unit ≟ "s"%bs then Ok (duration_from_secs n)
  else if unit ≟ "m"%bs then Ok (duration_from_secs (n * 60 mod 2 ^ 64))
  else Err (Fmt "invalid duration unit {other:?} in {s:?}"%bs [Text unit; Text s]).

Definition into_ref (s : SourceSpec) : result SourceRef ConfigError :=
  match s with
  | SEnv var json_key =>
      Ok {| kind := Env var; json_key := json_key; ttl := None; failure_ttl := None |}
  | SFile path ttl failure_ttl json_key =>
      let? t := transpose (parse_duration <$> ttl) in
      let? f := transpose (parse_duration <$> failure_ttl) in
      Ok {| kind := File path; json_key := json_key; ttl := t; failure_ttl := f |}
  end.

(** ** Transforms *)

(** [Iterator::position]. *)
Fixpoint position {A} (f : A → bool) (l : list A) : option nat :=
  match l with
  | [] => None
  | x :: l => if f x then Some 0 else S <$> position f l
  end.

Section build.
Context `{RE : RegexEngine} `{CD : ConfigDecoder}.

Definition parse_entries (l : list bytes) : result (list HeaderNameEntry) ConfigError :=
  collect_results (fun h => map_err from_match_error (header_entry_parse h true)) l.

Definition is_rfc3986_unreserved (b : byte) : bool :=
  is_ascii_alphanumeric b || existsb (fun c => b ≟ c) "-._~"%bs.

Definition build_secret_spec (entry : SecretEntry) : result SecretSpec ConfigError :=
  let? match_headers :=
    match se_match_headers entry with
    | None => Ok None
    | Some [] => Ok None
    | Some l => let? es := parse_entries l in Ok (Some es)
    end in
  if se_match_path entry && negb (forallb is_rfc3986_unreserved (se_proxy_value entry)) then
    Err (Text "secrets: proxy_value must be RFC 3986 unreserved-only when match_path is set"%bs)
  else
    let? source := into_ref (se_source entry) in
    let? rules := compile_rules (se_rules entry) in
    Ok {| ss_source := source; ss_proxy_value := se_proxy_value entry;
          ss_match_headers := match_headers; ss_match_query := se_match_query entry;
          ss_match_path := se_match_path entry; ss_match_body := se_match_body entry;
          ss_require := se_require entry; ss_rules := rules |}.

(** One header name of an [annotate] group.  The regex branch is
    [unreachable!] in the source; [annotate_header_reachable] shows that it
    is. *)
Definition unreachable_regex : ConfigError :=
  Text "internal error: entered unreachable code: allow_regex = false"%bs.

Definition annotate_header (h : bytes) : result bytes ConfigError :=
  let? e := map_err from_match_error (header_entry_parse h false) in
  match e with Literal l => Ok l | RegexEntry _ => Err unreachable_regex end.

Definition build_group (g : AnnotateGroupSpec) : result AnnotateGroup ConfigError :=
  let? headers := collect_results annotate_header (ags_headers g) in
  let? rules := compile_rules (ags_rules g) in
  Ok {| ag_rules := rules; ag_headers := headers |}.

Section with_world.
Context {W : Type}.

Definition build_allowlist (config : Value) : result (Transform W) ConfigError :=
  let? c := deser de_allowlist "allowlist"%bs config in
  if (alc_domains c ≟ []) && (alc_cidrs c ≟ []) then
    Err (Text "allowlist: at least one of domains/cidrs must be non-empty (Part 04 §1)"%bs)
  else
    let? domains := map_err from_match_error (collect_results domain_parse (alc_domains c)) in
    let? cidrs := map_err from_match_error (collect_results cidr_parse (alc_cidrs c)) in
    Ok (allowlist_transform {| al_domains := domains; al_cidrs := cidrs; al_warn := alc_warn c |}).

Definition build_annotate (config : Value) : result (Transform W) ConfigError :=
  let? c := deser de_annotate "annotate"%bs config in
  let? groups := collect_results build_group (anc_annotations c) in
  Ok (annotate_transform {| an_groups := groups |}).

Definition build_header_allowlist (config : Value) : result (Transform W) ConfigError :=
  let? c := deser de_header_allowlist "header_allowlist"%bs config in
  if hac_headers c ≟ [] then Err (Text "header_allowlist: headers must be non-empty"%bs)
  else
    let? entries := parse_entries (hac_headers c) in
    let? rules := transpose (compile_rules <$> hac_rules c) in
    Ok (header_allowlist_transform {| ha_entries := entries; ha_rules := rules |}).

Definition build_body_capture (config : Value) : result (Transform W) ConfigError :=
  let? c := deser de_body_capture "body_capture"%bs config in
  let? rules := compile_rules (bcc_rules c) in
  Ok (body_capture_transform
        {| max_request_body_bytes := bcc_max_request_body_bytes c; bc_rules := rules |}).

Definition no_resolver : ConfigError :=
  Text "the `secrets` transform is L3; build with a SecretResolver (build_pipeline_with_resolver)"%bs.

Definition build_secrets (r : option (SecretResolver W)) (config : Value) :
    result (Transform W) ConfigError :=
  let? r := ok_or r no_resolver in
  let? c := deser de_secrets "secrets"%bs config in
  match sc_secrets c with
  | [] => Err (Text "secrets: at least one secret required"%bs)
  | entries =>
      let? specs := collect_results build_secret_spec entries in
      Ok (secrets_transform (secrets_build specs r))
  end.

Definition build_transform (r : option (SecretResolver W)) (spec : TransformSpec) :
    result (Transform W) ConfigError :=
  if spec_name spec ≟ "allowlist"%bs then build_allowlist (spec_config spec)
  else if spec_name spec ≟ "annotate"%bs then build_annotate (spec_config spec)
  else if spec_name spec ≟ "header_allowlist"%bs then build_header_allowlist (spec_config spec)
  else if spec_name spec ≟ "body_capture"%bs then build_body_capture (spec_config spec)
  else if spec_name spec ≟ "secrets"%bs then build_secrets r (spec_config spec)
  else Err (Fmt "unknown transform {other:?}: the v1 registry is closed (Part 03 §5)"%bs
              [Text (spec_name spec)]).

End with_world.

(** ** The ordering checks *)

Definition entry_matches_body (e : Value) : bool :=
  match get "match_body"%bs e with
  | Some v => as_bool v ≟ Some true
  | None => false
  end.

Definition is_body_matching (s : TransformSpec) : bool :=
  (spec_name s ≟ "secrets"%bs) &&
  match get "secrets"%bs (spec_config s) with
  | Some v => match as_array v with
              | Some arr => existsb entry_matches_body arr
              | None => false
              end
  | None => false
  end.

Definition body_capture_ordering (specs : list TransformSpec) : result unit ConfigError :=
  let body_matching_secrets := position is_body_matching specs in
  let body_capture_pos := position (fun s => spec_name s ≟ "body_capture"%bs) specs in
  match body_matching_secrets, body_capture_pos with
  | Some secrets_i, Some capture_i =>
      if secrets_i <? capture_i then
        Err (Text "body_capture follows a secrets entry with match_body: true; the log would hold real credentials — move body_capture before the secrets entry (Part 04 §6, Part 08 §3)"%bs)
      else Ok tt
  | _, _ => Ok tt
  end.

Inductive SwapHeaders : Type :=
| SwapAll
| SwapSome (entries : list HeaderNameEntry).

Definition covers (s : SwapHeaders) (name : bytes) : bool :=
  match s with
  | SwapAll => true
  | SwapSome entries => existsb (fun e => header_entry_matches e name) entries
  end.

(** [list.iter().filter_map(|v| v.as_str())], each parsed, failures dropped. *)
Fixpoint swap_names (l : list Value) : list HeaderNameEntry :=
  match l with
  | [] => []
  | v :: l =>
      match as_str v with
      | Some h => match header_entry_parse h true with
                  | Ok e => e :: swap_names l
                  | Err _ => swap_names l
                  end
      | None => swap_names l
      end
  end.

Fixpoint swap_headers_loop (entries : list Value) (names : list HeaderNameEntry) : SwapHeaders :=
  match entries with
  | [] => SwapSome names
  | e :: entries =>
      match get "match_headers"%bs e with
      | None => SwapAll
      | Some (Array []) => SwapAll
      | Some (Array l) => swap_headers_loop entries (names ++ swap_names l)
      | _ => swap_headers_loop entries names
      end
  end.

Definition secret_swap_headers (spec : TransformSpec) : SwapHeaders :=
  match get "secrets"%bs (spec_config spec) with
  | Some v => match as_array v with
              | Some arr => swap_headers_loop arr []
              | None => SwapSome []
              end
  | None => SwapSome []
  end.

(** The header names the annotate config lists, read from the raw value. *)
Definition captured_headers (spec : TransformSpec) : list bytes :=
  match get "annotations"%bs (spec_config spec) with
  | Some v =>
      match as_array v with
      | Some groups =>
          map to_ascii_lowercase
            (omap as_str
               (concat (omap (fun g => h ← get "headers"%bs g; as_array h) groups)))
      | None => []
      end
  | None => []
  end.

Definition annotate_error (n : bytes) : ConfigError :=
  Fmt "annotate captures header {name:?} that a preceding secrets entry may swap; the log would hold the real credential — place annotate before secrets (Part 04 §2, Part 08 §3)"%bs [Text n].

(** The inner loop over [specs[..a_idx]]. *)
Fixpoint check_priors (captured : list bytes) (priors : list TransformSpec) : result unit ConfigError :=
  match priors with
  | [] => Ok tt
  | prior :: priors =>
      if negb (spec_name prior ≟ "secrets"%bs) then check_priors captured priors
      else match List.find (covers (secret_swap_headers prior)) captured with
           | Some n => Err (annotate_error n)
           | None => check_priors captured priors
           end
  end.

Fixpoint annotate_check_loop (priors specs : list TransformSpec) : result unit ConfigError :=
  match specs with
  | [] => Ok tt
  | spec :: specs =>
      let? _ :=
        (if negb (spec_name spec ≟ "annotate"%bs) then Ok tt
         else match captured_headers spec with
              | [] => Ok tt
              | captured => check_priors captured priors
              end) in
      annotate_check_loop (priors ++ [spec]) specs
  end.

Definition annotate_after_secret_swap (specs : list TransformSpec) : result unit ConfigError :=
  annotate_check_loop [] specs.

(** ** The pipeline *)

Record BuiltPipeline (W : Type) : Type := { pipeline : Pipeline W; warnings : list message }.

Definition build_pipeline_inner {W} (specs : list TransformSpec) (r : option (SecretResolver W)) :
    result (BuiltPipeline W) ConfigError :=
  let allowlist_pos := position (fun s => spec_name s ≟ "allowlist"%bs) specs in
  match allowlist_pos with
  | None => Err (Text "no allowlist transform: default-deny is structural (Part 04 §1)"%bs)
  | Some _ =>
      let warnings :=
        if allowlist_pos ≟ Some 0 then []
        else [Text "allowlist is present but not first in the pipeline (Part 04 §1)"%bs] in
      let? _ := body_capture_ordering specs in
      let? _ := annotate_after_secret_swap specs in
      let? transforms := collect_results (build_transform r) specs in
      Ok {| pipeline := transforms; warnings := warnings |}
  end.

Definition build_pipeline {W} (specs : list TransformSpec) : result (BuiltPipeline W) ConfigError :=
  build_pipeline_inner specs None.

Definition build_pipeline_with_resolver {W} (specs : list TransformSpec) (r : SecretResolver W) :
    result (BuiltPipeline W) ConfigError :=
  build_pipeline_inner specs (Some r).

End build.
Arguments pipeline {W} b : rename.
Arguments warnings {W} b : rename.

(** ** What a built transform is *)

Section built.
Context `{RE : RegexEngine} `{CD : ConfigDecoder} {W : Type} (r : option (SecretResolver W)).

Lemma result_bind_Ok {A B E} (x : result A E) (k : A → result B E) b :
  result_bind x k = Ok b ↔ ∃ a, x = Ok a ∧ k a = Ok b.
Proof. destruct x; simpl; split; [eauto|by intros (? & [= ->] & ?)|done|by intros (? & ? & ?)]. Qed.

Lemma map_err_Ok {A E F} (f : E → F) (x : result A E) a : map_err f x = Ok a ↔ x = Ok a.
Proof. destruct x; simpl; split; congruence. Qed.

Inductive built (spec : TransformSpec) : Transform W → Prop :=
| built_allowlist c domains cidrs :
    spec_name spec = "allowlist"%bs → de_allowlist (spec_config spec) = Ok c →
    collect_results domain_parse (alc_domains c) = Ok domains →
    collect_results cidr_parse (alc_cidrs c) = Ok cidrs →
    (domains ≠ [] ∨ cidrs ≠ []) →
    built spec (allowlist_transform {| al_domains := domains; al_cidrs := cidrs; al_warn := alc_warn c |})
| built_annotate c groups :
    spec_name spec = "annotate"%bs → de_annotate (spec_config spec) = Ok c →
    collect_results build_group (anc_annotations c) = Ok groups →
    built spec (annotate_transform {| an_groups := groups |})
| built_header_allowlist c entries rules :
    spec_name spec = "header_allowlist"%bs → de_header_allowlist (spec_config spec) = Ok c →
    parse_entries (hac_headers c) = Ok entries →
    built spec (header_allowlist_transform {| ha_entries := entries; ha_rules := rules |})
| built_body_capture c rules :
    spec_name spec = "body_capture"%bs → de_body_capture (spec_config spec) = Ok c →
    compile_rules (bcc_rules c) = Ok rules →
    built spec (body_capture_transform
      {| max_request_body_bytes := bcc_max_request_body_bytes c; bc_rules := rules |})
| built_secrets c specs rr :
    spec_name spec = "secrets"%bs → r = Some rr → de_secrets (spec_config spec) = Ok c →
    collect_results build_secret_spec (sc_secrets c) = Ok specs → specs ≠ [] →
    built spec (secrets_transform (secrets_build specs rr)).

(** Peel the [?]s of a successful computation. *)
Ltac ok_inv H :=
  repeat match type of H with
  | result_bind _ _ = Ok _ => let a := fresh "a" in let E := fresh "E" in
      apply result_bind_Ok in H as (a & E & H)
  end;
  unfold deser in *;
  repeat match goal with
  | E : map_err _ _ = Ok _ |- _ => apply map_err_Ok in E
  end.

Lemma collect_results_nil {A B E} (f : A → result B E) l bs :
  collect_results f l = Ok bs → bs = [] ↔ l = [].
Proof.
  intros H%collect_results_length. destruct bs, l; simpl in H; try done; lia.
Qed.

Lemma build_transform_Ok spec t : build_transform r spec = Ok t → built spec t.
Proof.
  unfold build_transform. intros H.
  case_bool_decide as N1; [|case_bool_decide as N2; [|case_bool_decide as N3; [|case_bool_decide as N4;
    [|case_bool_decide as N5; [|done]]]]].
  - unfold build_allowlist in H. apply result_bind_Ok in H as (c & Ec & H).
    destruct (_ && _) eqn:En; [done|]. ok_inv H. injection H as <-. econstructor; try done.
    apply andb_false_iff in En as [En|En]; apply bool_decide_eq_false in En; [left|right].
    + by rewrite (collect_results_nil _ _ _ E).
    + by rewrite (collect_results_nil _ _ _ E0).
  - unfold build_annotate in H. ok_inv H. injection H as <-. by econstructor.
  - unfold build_header_allowlist in H. apply result_bind_Ok in H as (c & Ec & H).
    case_match; [done|]. ok_inv H. injection H as <-. by econstructor.
  - unfold build_body_capture in H. ok_inv H. injection H as <-. by econstructor.
  - unfold build_secrets in H. ok_inv H. destruct (sc_secrets _) as [|e es] eqn:Es; [done|].
    apply result_bind_Ok in H as (specs & Esp & H). injection H as <-.
    destruct r as [rr|] eqn:Er; [|done]. simpl in E. injection E as <-.
    rewrite <- Es in Esp. eapply built_secrets; [exact N5|exact Er|exact E0|exact Esp|].
    by rewrite (collect_results_nil _ _ _ Esp), Es.
Qed.

(** The regex branch of an annotate header is never reached. *)
Lemma annotate_header_reachable h e : header_entry_parse h false = Ok e → ∃ l, e = Literal l.
Proof.
  unfold header_entry_parse. cbn [negb]. destruct (_ && _ && _); [done|].
  case_bool_decide; [done|]. intros [= <-]. eauto.
Qed.

Lemma annotate_header_Ok h l : annotate_header h = Ok l → l = to_ascii_lowercase h.
Proof.
  unfold annotate_header. intros H. ok_inv H.
  unfold header_entry_parse in E. cbn [negb] in E. destruct (_ && _ && _); [done|].
  case_bool_decide; [done|]. injection E as <-. by injection H as <-.
Qed.

(** Every built transform keeps the default response method and its spec's
    name. *)
Lemma built_default spec t :
  built spec t → on_response t = on_response_default ∧ name t = spec_name spec.
Proof. by destruct 1. Qed.

Lemma build_pipeline_Ok specs bp :
  build_pipeline_inner specs r = Ok bp →
  body_capture_ordering specs = Ok tt ∧ annotate_after_secret_swap specs = Ok tt ∧
  Forall2 built specs (pipeline bp) ∧
  (∃ i, position (fun s => spec_name s ≟ "allowlist"%bs) specs = Some i ∧
     (warnings bp = [] ↔ i = 0)).
Proof.
  unfold build_pipeline_inner. destruct (position _ specs) as [i|]; [|done]. intros H.
  ok_inv H. injection H as <-. destruct a, a0. split; [done|]. split; [done|]. split.
  - simpl. apply collect_results_Ok in E1. eapply Forall2_impl; [done|]. apply build_transform_Ok.
  - exists i. split; [done|]. simpl. case_bool_decide; naive_solver.
Qed.

End built.

Lemma position_Some {A} (f : A → bool) l i :
  position f l = Some i →
  ∃ pre x post, l = pre ++ x :: post ∧ length pre = i ∧ f x = true ∧ Forall (fun y => f y = false) pre.
Proof.
  revert i. induction l as [|a l IH]; intros i; simpl; [done|].
  destruct (f a) eqn:Ea.
  - intros [= <-]. by exists [], a, l.
  - intros (j & Hj & ->)%fmap_Some. destruct (IH j Hj) as (pre & x & post & -> & <- & ? & ?).
    exists (a :: pre), x, post. simpl. repeat split; try done. by constructor.
Qed.

Lemma position_None {A} (f : A → bool) l : position f l = None ↔ Forall (fun y => f y = false) l.
Proof.
  induction l as [|a l IH]; simpl; [by split|]. destruct (f a) eqn:Ea.
  - split; [done|]. intros [? _]%Forall_cons. congruence.
  - rewrite fmap_None, IH, Forall_cons. naive_solver.
Qed.
