(* ===== verification/Custody.v ===== *)
(** * Credential custody through a built pipeline (INV-1)

    What the audit-visible outputs of a pipeline accepted by
    [build_pipeline_inner] can contain: the values [annotate] records and the
    body [body_capture] records are the client's own, and what the [secrets]
    transform reports is names of sources and places. *)

From S2P Require Import Prelude Utf8 Net Json Matcher Summary Codec Pipeline Transforms Secrets KernelConfig.

(** ** What is documented of the decoders and used here

    A struct read from an object takes its fields from the keys of the same
    name; a defaulted field is the default when its key is absent, and an
    [Option] is [None] on [null]. *)

Definition entry_law (e : Value) (x : SecretEntry) : Prop :=
  ∀ m, e = Object m →
    (se_match_body x = true → map_get "match_body"%bs m = Some (Bool true)) ∧
    match se_match_headers x with
    | None => map_get "match_headers"%bs m = None ∨ map_get "match_headers"%bs m = Some Null
    | Some l => map_get "match_headers"%bs m = Some (Array (map String_ l))
    end.

Definition group_law (g : Value) (x : AnnotateGroupSpec) : Prop :=
  ∀ m, g = Object m → map_get "headers"%bs m = Some (Array (map String_ (ags_headers x))).

Class DecoderLaws `{CD : ConfigDecoder} : Prop := {
  de_secrets_object m c :
    de_secrets (Object m) = Ok c →
    ∃ arr, map_get "secrets"%bs m = Some (Array arr) ∧ Forall2 entry_law arr (sc_secrets c);
  de_annotate_object m c :
    de_annotate (Object m) = Ok c →
    ∃ arr, map_get "annotations"%bs m = Some (Array arr) ∧ Forall2 group_law arr (anc_annotations c);
}.

(** Configuration written with objects, and without [match_headers: null]:
    the form the ordering checks look at. *)
Definition is_object (v : Value) : bool := match v with Object _ => true | _ => false end.

Definition plain_entry (e : Value) : bool :=
  is_object e && match get "match_headers"%bs e with Some Null => false | _ => true end.

Definition array_field (k : bytes) (v : Value) : list Value :=
  match get k v with Some (Array l) => l | _ => [] end.

Definition plain_spec (s : TransformSpec) : bool :=
  if spec_name s ≟ "secrets"%bs then
    is_object (spec_config s) && forallb plain_entry (array_field "secrets"%bs (spec_config s))
  else if spec_name s ≟ "annotate"%bs then
    is_object (spec_config s) && forallb is_object (array_field "annotations"%bs (spec_config s))
  else true.

Section custody.
Context `{RE : RegexEngine} `{CD : ConfigDecoder} {DL : DecoderLaws}.

(** ** The checks read the configuration right *)

Lemma header_entry_matches_lower e n :
  header_entry_matches e (to_ascii_lowercase n) = header_entry_matches e n.
Proof. unfold header_entry_matches. by rewrite lowercase_idemp. Qed.

Lemma selects_header_lower es n m :
  to_ascii_lowercase n = to_ascii_lowercase m → selects_header es n = selects_header es m.
Proof.
  intros H. destruct es as [es|]; [|done]. simpl.
  induction es as [|e es IH]; simpl; [done|].
  by rewrite IH, <- (header_entry_matches_lower e n), <- (header_entry_matches_lower e m), H.
Qed.

Lemma swap_names_parsed l es : parse_entries l = Ok es → swap_names (map String_ l) = es.
Proof.
  unfold parse_entries. rewrite collect_results_Ok.
  induction 1 as [|h e l es He _ IH]; simpl; [done|].
  apply map_err_Ok in He. by rewrite He, IH.
Qed.

Lemma build_secret_spec_Ok x sp :
  build_secret_spec x = Ok sp →
  ss_match_body sp = se_match_body x ∧
  match se_match_headers x with
  | None | Some [] => ss_match_headers sp = None
  | Some l => ∃ es, parse_entries l = Ok es ∧ ss_match_headers sp = Some es
  end.
Proof.
  unfold build_secret_spec. intros (mh & Emh & H)%result_bind_Ok.
  destruct (_ && _); [done|]. apply result_bind_Ok in H as (src & _ & H).
  apply result_bind_Ok in H as (rl & _ & H). injection H as <-. split; [done|]. simpl.
  destruct (se_match_headers x) as [[|h l]|]; simplify_eq; try done.
  apply result_bind_Ok in Emh as (es & Ees & Emh). injection Emh as <-. eauto.
Qed.

(** The headers the check says are not covered are not selected by any
    secret of the transform. *)
Lemma swap_headers_loop_sound arr xs sps names n :
  Forall2 entry_law arr xs → Forall2 (fun x sp => build_secret_spec x = Ok sp) xs sps →
  forallb plain_entry arr = true →
  covers (swap_headers_loop arr names) n = false →
  covers (SwapSome names) n = false ∧
  Forall (fun sp => selects_header (ss_match_headers sp) n = false) sps.
Proof.
  intros Hl. revert sps names. induction Hl as [|e x arr xs He _ IH]; intros sps names Hb Hp Hc.
  { inversion Hb; subst. by split. }
  inversion Hb as [|? sp ? sps' Hsp Hb']; subst. simpl in Hp. apply andb_true_iff in Hp as [Hpe Hp].
  unfold plain_entry in Hpe. apply andb_true_iff in Hpe as [Ho Hn].
  destruct e as [| | | | |m]; try discriminate Ho. destruct (He m eq_refl) as [_ Hmh].
  apply build_secret_spec_Ok in Hsp as [_ Hsp]. simpl in Hn, Hc.
  destruct (se_match_headers x) as [[|h l]|].
  - rewrite Hmh in Hc. done.
  - rewrite Hmh in Hc. simpl map in Hc.
    destruct (IH _ _ Hb' Hp Hc) as [Hc' Hs]. destruct Hsp as (es & Hes & Hmhs).
    change (String_ h :: map String_ l) with (map String_ (h :: l)) in Hc'.
    rewrite (swap_names_parsed _ _ Hes) in Hc'. simpl in Hc'.
    rewrite existsb_app in Hc'. apply orb_false_iff in Hc' as [Hc1 Hc2].
    split; [done|]. constructor; [|done]. by rewrite Hmhs.
  - destruct Hmh as [Hmh|Hmh]; rewrite Hmh in *; done.
Qed.

Lemma not_covered_not_selected spec c specs n :
  spec_name spec = "secrets"%bs → plain_spec spec = true →
  de_secrets (spec_config spec) = Ok c → collect_results build_secret_spec (sc_secrets c) = Ok specs →
  covers (secret_swap_headers spec) n = false →
  existsb (fun s => selects_header (cs_match_headers s) n) (map configure specs) = false.
Proof.
  intros Hn Hp Hc Hs Hcov. unfold plain_spec in Hp. rewrite bool_decide_true in Hp by done.
  apply andb_true_iff in Hp as [Ho Hp]. destruct (spec_config spec) as [| | | | |m] eqn:Em; try discriminate Ho.
  destruct (de_secrets_object _ _ Hc) as (arr & Harr & Hlaw).
  unfold array_field in Hp. simpl in Hp. rewrite Harr in Hp.
  unfold secret_swap_headers in Hcov. rewrite Em in Hcov. simpl in Hcov. rewrite Harr in Hcov. simpl in Hcov.
  apply collect_results_Ok in Hs.
  destruct (swap_headers_loop_sound _ _ _ _ _ Hlaw Hs Hp Hcov) as [_ Hf].
  clear -Hf. induction Hf as [|sp sps H _ IH]; simpl; [done|]. by rewrite H, IH.
Qed.

Lemma not_body_matching spec c specs :
  spec_name spec = "secrets"%bs → plain_spec spec = true →
  de_secrets (spec_config spec) = Ok c → collect_results build_secret_spec (sc_secrets c) = Ok specs →
  is_body_matching spec = false → existsb cs_match_body (map configure specs) = false.
Proof.
  intros Hn Hp Hc Hs Hm. unfold plain_spec in Hp. rewrite bool_decide_true in Hp by done.
  apply andb_true_iff in Hp as [Ho Hp]. destruct (spec_config spec) as [| | | | |m] eqn:Em; try discriminate Ho.
  destruct (de_secrets_object _ _ Hc) as (arr & Harr & Hlaw).
  unfold array_field in Hp. simpl in Hp. rewrite Harr in Hp.
  unfold is_body_matching in Hm. rewrite Em, bool_decide_true in Hm by done. simpl in Hm.
  rewrite Harr in Hm. simpl in Hm. apply collect_results_Ok in Hs.
  destruct c as [xs]. simpl in *. clear Hc Harr. revert specs Hs Hp Hm.
  induction Hlaw as [|e x arr xs He _ IH]; intros specs Hs Hp Hm; inversion Hs; subst; [done|].
  simpl in *. apply andb_true_iff in Hp as [Hpe Hp]. apply orb_false_iff in Hm as [Hme Hm].
  match goal with H : build_secret_spec x = Ok _ |- _ => apply build_secret_spec_Ok in H as [-> _] end.
  erewrite IH by done. rewrite orb_false_r. apply not_true_iff_false. intros Hx.
  unfold plain_entry in Hpe. apply andb_true_iff in Hpe as [Hoe _].
  destruct e as [| | | | |me]; try discriminate Hoe. destruct (He me eq_refl) as [Hb _].
  unfold entry_matches_body in Hme. simpl in Hme. by rewrite (Hb Hx) in Hme.
Qed.

(** ** What each transform may do to the request *)

(** The value read under a name is one the earlier request had there. *)
Definition first_own (n : bytes) (q q' : RequestSummary) : Prop :=
  ∀ v, headers_first (headers q') n = Some v → headers_first (headers q) n = Some v.

Lemma first_own_frame (hdr : bytes → bool) fq fp fb n q q' :
  (∀ m, to_ascii_lowercase m = to_ascii_lowercase n → hdr m = false) →
  frame hdr fq fp fb q q' → first_own n q q'.
Proof.
  intros Hh Hf v. apply frame_headers in Hf. unfold headers_first.
  enough (snd <$> List.find (fun h => to_ascii_lowercase h.1 ≟ to_ascii_lowercase n) (headers q')
        = snd <$> List.find (fun h => to_ascii_lowercase h.1 ≟ to_ascii_lowercase n) (headers q)) as ->
    by done.
  clear -Hh Hf. induction Hf as [|h h' hs hs' [E V] _ IH]; simpl; [done|].
  rewrite E. case_bool_decide as El; [|done]. simpl. by rewrite V by by apply Hh.
Qed.

Lemma find_filter_name (keep : bytes → bool) (hs : Headers) n h :
  (∀ a b, to_ascii_lowercase a = to_ascii_lowercase b → keep a = keep b) →
  List.find (fun h => to_ascii_lowercase h.1 ≟ to_ascii_lowercase n)
    (List.filter (fun h => keep h.1) hs) = Some h →
  List.find (fun h => to_ascii_lowercase h.1 ≟ to_ascii_lowercase n) hs = Some h.
Proof.
  intros Hk. induction hs as [|h0 hs IH]; simpl; [done|].
  destruct (keep h0.1) eqn:E0; simpl.
  - case_bool_decide; [done|]. done.
  - intros Hf. case_bool_decide as El; [|by apply IH]. exfalso.
    apply find_some in Hf as [Hin Hn]. apply filter_In in Hin as [_ Hkeep].
    apply bool_decide_eq_true in Hn. rewrite (Hk h.1 h0.1) in Hkeep by congruence. congruence.
Qed.

Lemma covered_lower entries a b :
  to_ascii_lowercase a = to_ascii_lowercase b → covered entries a = covered entries b.
Proof. exact (selects_header_lower (Some entries) a b). Qed.

Context {W : Type} (rs : option (SecretResolver W)).

Lemma secrets_on_request_frame specs (rr : SecretResolver W) ctx q w res ctx' q' w' :
  secrets_on_request (secrets_build specs rr) ctx q w = (res, ctx', q', w') →
  secrets_frame (map configure specs) q q'.
Proof. by apply secrets_loop_frame. Qed.

(** A built transform other than a covering [secrets] leaves the header alone
    (or removes it). *)
Lemma built_first_own spec t n ctx q w res ctx' q' w' :
  built rs spec t → plain_spec spec = true →
  (spec_name spec = "secrets"%bs → covers (secret_swap_headers spec) n = false) →
  on_request t ctx q w = (res, ctx', q', w') → first_own n q q'.
Proof.
  intros Hb Hp Hc H. destruct Hb as [c ds cs Hn|c gs Hn|c es rules Hn Hd He|c rules Hn|c specs rr Hn Hr Hd Hs _];
    simpl in H.
  - unfold allowlist_on_request in H. repeat case_match; simplify_eq; by intros v.
  - unfold annotate_on_request in H. simplify_eq. by intros v.
  - apply header_allowlist_filters in H as (_ & _ & _ & ->). intros v. unfold headers_first. simpl.
    case_match; [|done]. rewrite !fmap_Some. intros (h & Hf & ->). exists h. split; [|done].
    apply find_filter_name in Hf; [done|]. apply covered_lower.
  - unfold body_capture_on_request in H. repeat case_match; simplify_eq; by intros v.
  - apply secrets_on_request_frame in H. eapply first_own_frame; [|exact H]. intros m Hm. cbv beta.
    pose proof (not_covered_not_selected spec c specs n Hn Hp Hd Hs (Hc Hn)) as Hsel.
    rewrite <- Hsel. clear -Hm. induction (map configure specs) as [|s ss IH]; simpl; [done|].
    by rewrite IH, (selects_header_lower _ _ _ Hm).
Qed.

Lemma built_body_own spec t ctx q w res ctx' q' w' :
  built rs spec t → plain_spec spec = true → is_body_matching spec = false →
  on_request t ctx q w = (res, ctx', q', w') → body q' = body q.
Proof.
  intros Hb Hp Hm H. destruct Hb as [c ds cs Hn|c gs Hn|c es rules Hn Hd He|c rules Hn|c specs rr Hn Hr Hd Hs _];
    simpl in H.
  - unfold allowlist_on_request in H. repeat case_match; by simplify_eq.
  - unfold annotate_on_request in H. by simplify_eq.
  - by apply header_allowlist_filters in H as (_ & _ & _ & ->).
  - unfold body_capture_on_request in H. repeat case_match; by simplify_eq.
  - apply secrets_on_request_frame in H. apply H. by eapply not_body_matching.
Qed.

Lemma built_names_own spec t ctx q w res ctx' q' w' :
  built rs spec t → on_request t ctx q w = (res, ctx', q', w') →
  map fst (headers q') ⊆ map fst (headers q).
Proof.
  intros Hb H. destruct Hb as [c ds cs Hn|c gs Hn|c es rules Hn Hd He|c rules Hn|c specs rr Hn Hr Hd Hs _];
    simpl in H.
  - unfold allowlist_on_request in H. repeat case_match; by simplify_eq.
  - unfold annotate_on_request in H. by simplify_eq.
  - apply header_allowlist_filters in H as (_ & _ & _ & ->). simpl. case_match; [|done].
    intros x. rewrite !list_elem_of_In, !in_map_iff. intros (h & <- & [Hin _]%filter_In). eauto.
  - unfold body_capture_on_request in H. repeat case_match; by simplify_eq.
  - apply secrets_on_request_frame in H. by rewrite (frame_names _ _ _ _ _ _ H).
Qed.

(** ** The ordering checks *)

Lemma check_priors_Ok captured priors :
  check_priors captured priors = Ok tt →
  ∀ prior n, prior ∈ priors → spec_name prior = "secrets"%bs → n ∈ captured →
  covers (secret_swap_headers prior) n = false.
Proof.
  induction priors as [|p priors IH]; simpl; [set_solver|]. intros H prior n.
  rewrite elem_of_cons. destruct (spec_name p ≟ "secrets"%bs) eqn:En; simpl in H.
  - destruct (List.find _ captured) eqn:Ef; [done|].
    intros [->|Hin]; [|by apply IH]. intros _ Hn. eapply find_none in Ef; [done|].
    by apply list_elem_of_In.
  - apply bool_decide_eq_false in En. intros [->|Hin]; [done|by apply IH].
Qed.

Lemma annotate_check_loop_Ok priors specs :
  annotate_check_loop priors specs = Ok tt →
  ∀ pre spec post prior n, specs = pre ++ spec :: post → spec_name spec = "annotate"%bs →
  prior ∈ priors ++ pre → spec_name prior = "secrets"%bs → n ∈ captured_headers spec →
  covers (secret_swap_headers prior) n = false.
Proof.
  revert priors. induction specs as [|s specs IH]; intros priors H pre spec post prior n Hspecs Ha Hin Hs Hn.
  { by destruct pre. }
  simpl in H. apply result_bind_Ok in H as ([] & H1 & H2). destruct pre as [|s' pre].
  - injection Hspecs as -> ->. rewrite app_nil_r in Hin. rewrite bool_decide_true in H1 by done. simpl in H1.
    destruct (captured_headers spec) eqn:Ec; [set_solver|]. by eapply check_priors_Ok.
  - injection Hspecs as -> ->. eapply IH; try done. rewrite <- app_assoc. done.
Qed.

Lemma captured_headers_built spec c groups :
  spec_name spec = "annotate"%bs → plain_spec spec = true →
  de_annotate (spec_config spec) = Ok c → collect_results build_group (anc_annotations c) = Ok groups →
  captured_headers spec = group_names groups.
Proof.
  intros Hn Hp Hc Hg. unfold plain_spec in Hp. rewrite Hn in Hp. simpl in Hp.
  apply andb_true_iff in Hp as [Ho Hp]. destruct (spec_config spec) as [| | | | |m] eqn:Em; try discriminate Ho.
  destruct (de_annotate_object _ _ Hc) as (arr & Harr & Hlaw).
  unfold array_field in Hp. simpl in Hp. rewrite Harr in Hp.
  unfold captured_headers. rewrite Em. simpl. rewrite Harr. simpl.
  apply collect_results_Ok in Hg. destruct c as [xs]. simpl in *. clear Hc Harr.
  revert groups Hg Hp. induction Hlaw as [|g x arr xs Hgl _ IH]; intros groups Hg Hp; inversion Hg; subst; [done|].
  simpl in Hp. apply andb_true_iff in Hp as [Hog Hp]. destruct g as [| | | | |mg]; try discriminate Hog.
  simpl. rewrite (Hgl mg eq_refl). simpl. unfold group_names in *. simpl.
  rewrite omap_app, map_app. f_equal; [|by apply IH].
  match goal with H : build_group x = Ok _ |- _ => rename H into Hb end.
  unfold build_group in Hb. apply result_bind_Ok in Hb as (hs & Hhs & Hb).
  apply result_bind_Ok in Hb as (rl & _ & Hb). injection Hb as <-. simpl.
  apply collect_results_Ok in Hhs. clear -Hhs. induction Hhs as [|h l hs ls Hh _ IH]; simpl; [done|].
  apply annotate_header_Ok in Hh. rewrite Hh. f_equal. exact IH.
Qed.

(** ** What the traces of a built pipeline hold *)

(** The names of the sources the configuration gives. *)
Definition config_source (specs : list TransformSpec) (x : bytes) : Prop :=
  ∃ spec c sps sp, spec ∈ specs ∧ spec_name spec = "secrets"%bs ∧
    de_secrets (spec_config spec) = Ok c ∧ collect_results build_secret_spec (sc_secrets c) = Ok sps ∧
    sp ∈ sps ∧ x = source_name (ss_source sp).

(** An annotation made of the client's request and the configuration only:
    there is no place in it for a resolved secret. *)
Inductive safe_annotation (specs : list TransformSpec) (q : RequestSummary) : bytes * Value → Prop :=
| safe_warn : safe_annotation specs q ("warn"%bs, Bool true)
| safe_header n v :
    headers_first (headers q) n = Some v →
    safe_annotation specs q ("header:"%bs ++ canonical_name n, String_ v)
| safe_stripped names :
    (∀ x, x ∈ names → ∃ n, n ∈ map fst (headers q) ∧ x = canonical_name n) →
    safe_annotation specs q ("stripped_headers"%bs, json_strings names)
| safe_captured z : safe_annotation specs q ("captured_bytes"%bs, Number (PosInt z))
| safe_truncated b : safe_annotation specs q ("truncated"%bs, Bool b)
| safe_unavailable names :
    (∀ x, x ∈ names → config_source specs x) →
    safe_annotation specs q ("secret_unavailable"%bs, json_strings names)
| safe_swapped l :
    Forall (fun v => ∃ src locs, config_source specs src ∧
              Forall (location_of (map fst (headers q))) locs ∧
              v = Object [("locations"%bs, json_strings locs); ("secret"%bs, String_ src)]) l →
    safe_annotation specs q ("swapped"%bs, Array l).

Lemma Forall2_split {A B} (R : A → B → Prop) l pre t post :
  Forall2 R l (pre ++ t :: post) →
  ∃ lpre x lpost, l = lpre ++ x :: lpost ∧ Forall2 R lpre pre ∧ R x t.
Proof.
  intros H. apply Forall2_app_inv_r in H as (lpre & lrest & H1 & H2 & ->).
  inversion H2; subst. eauto 6.
Qed.

Lemma map_insert_nil {A} k (v : A) : map_insert k v [] = [(k, v)].
Proof. done. Qed.

Lemma secrets_annotations specs spec c sps (rr : SecretResolver W) q0 q w res ctx q' w' :
  spec ∈ specs → spec_name spec = "secrets"%bs → de_secrets (spec_config spec) = Ok c →
  collect_results build_secret_spec (sc_secrets c) = Ok sps →
  map fst (headers q) ⊆ map fst (headers q0) →
  secrets_on_request (secrets_build sps rr) ctx_default q w = (res, ctx, q', w') →
  Forall (safe_annotation specs q0) (ctx_annotations ctx).
Proof.
  intros Hin Hn Hd Hs Hnames H.
  assert (∀ x, x ∈ map cs_source_name (map configure sps) → config_source specs x) as Hsrc.
  { intros x. rewrite list_elem_of_In, map_map, in_map_iff. intros (sp & <- & Hsp%list_elem_of_In).
    by exists spec, c, sps, sp. }
  assert (res = Ok Continue ∨ res ≠ Ok Continue) as [->|Hne] by (destruct res as [[]|]; auto; by right).
  2:{ apply secrets_loop_stop in H as [-> _]; [constructor|done]. }
  apply secrets_loop_continue in H as (l & un & -> & Hl & Hu & _). simpl.
  assert (Forall (fun v => ∃ src locs, config_source specs src ∧
              Forall (location_of (map fst (headers q0))) locs ∧
              v = Object [("locations"%bs, json_strings locs); ("secret"%bs, String_ src)]) l) as Hsafe.
  { eapply Forall_impl; [exact Hl|]. intros v (s & locs & Hs' & -> & _ & Hlocs).
    exists (cs_source_name s), locs. split; [|split; [|done]].
    - apply Hsrc. apply list_elem_of_In, in_map. by apply list_elem_of_In.
    - eapply Forall_impl; [exact Hlocs|]. intros loc. unfold location_of. set_solver. }
  assert (∀ x, x ∈ un → config_source specs x) as Hun by set_solver.
  apply safe_swapped in Hsafe. apply safe_unavailable with (q := q0) in Hun.
  unfold secrets_finish. destruct l as [|v l], un as [|u un]; simpl; repeat (apply Forall_cons; split);
    try done; by apply Forall_nil.
Qed.

Lemma trace_annotations specs bp q0 w o trs caps q' w' tr :
  build_pipeline_inner specs rs = Ok bp → Forall (fun s => plain_spec s = true) specs →
  run (pipeline bp) q0 w o trs caps q' w' → tr ∈ trs →
  Forall (safe_annotation specs q0) (Summary.annotations tr).
Proof.
  intros (_ & Hann & Hbuilt & _)%build_pipeline_Ok Hplain Hrun Htr.
  destruct (run_trace _ _ _ _ _ _ _ _ _ Hrun Htr)
    as (pre & t & post & trs1 & caps1 & q1 & w1 & res & ctx & q2 & w2 & Hts & Hpre & Ht & _ & ->).
  rewrite Hts in Hbuilt. destruct (Forall2_split _ _ _ _ _ Hbuilt) as (spre & spec & spost & -> & Hbpre & Hb).
  assert (map fst (headers q1) ⊆ map fst (headers q0)) as Hnames.
  { eapply (continues_rel (fun a b => map fst (headers b) ⊆ map fst (headers a))); [..|exact Hpre].
    - done.
    - set_solver.
    - apply Forall_forall. intros t' Ht'.
      apply list_elem_of_lookup in Ht' as [i Hi]. eapply Forall2_lookup_r in Hi as (s & _ & Hs); [|exact Hbpre].
      intros. by eapply built_names_own. }
  apply Forall_app in Hplain as [Hppre [Hp _]%Forall_cons].
  destruct Hb as [c ds cs Hn|c gs Hn Hd Hg|c es rules Hn Hd He|c rules Hn|c sps rr Hn Hr Hd Hs _];
    simpl in Ht.
  - unfold allowlist_on_request in Ht. repeat case_match; simplify_eq; simpl; repeat constructor.
  - unfold annotate_on_request in Ht. simplify_eq.
    pose proof (captured_headers_built _ _ _ Hn Hp Hd Hg) as Hcap.
    assert (Forall (header_annotation (group_names gs) q2)
              (ctx_annotations (annotate_groups gs q2 ctx_default))) as Hown
      by by apply annotate_groups_own.
    eapply Forall_impl; [exact Hown|]. intros kv (n & v & Hin & -> & Hv). apply safe_header.
    eapply (continues_rel (first_own n)); [..|exact Hpre|exact Hv].
    + by intros ? ?.
    + intros a b d H1 H2 v' Hv'. by apply H1, H2.
    + apply Forall_forall. intros t' Ht'.
      apply list_elem_of_lookup in Ht' as [i Hi]. eapply Forall2_lookup_r in Hi as (s & Hsi & Hs); [|exact Hbpre].
      intros. eapply built_first_own; [done| | |done].
      * rewrite Forall_forall in Hppre. apply Hppre. by eapply list_elem_of_lookup_2.
      * intros Hsn. eapply annotate_check_loop_Ok; [exact Hann|done|exact Hn| |exact Hsn|by rewrite Hcap].
        simpl. by eapply list_elem_of_lookup_2.
  - destruct (filter_active {| ha_entries := es; ha_rules := rules |} q1) eqn:Ea.
    + destruct (header_allowlist_reports _ _ _ _ _ _ _ Ht Ea) as (names & _ & Hnm & ->).
      case_bool_decide; [constructor|]. constructor; [|constructor]. apply safe_stripped.
      intros x (hd & Hhd & _ & ->)%Hnm. exists hd.1. split; [|done]. apply Hnames.
      apply list_elem_of_In, in_map. by apply list_elem_of_In.
    + unfold header_allowlist_on_request in Ht. unfold filter_active in Ea. simpl in *.
      destruct rules as [rules|]; [|done]. rewrite Ea in Ht. simpl in Ht. simplify_eq. constructor.
  - unfold body_capture_on_request in Ht. repeat case_match; simplify_eq; simpl; repeat constructor.
  - eapply (secrets_annotations _ spec); try done. set_solver.
Qed.

(** ** What a built pipeline captures of the body *)

Definition is_capture (s : TransformSpec) : bool := spec_name s ≟ "body_capture"%bs.

Lemma capture_unique spre spec spost i :
  length (List.filter is_capture (spre ++ spec :: spost)) ≤ 1 → is_capture spec = true →
  position is_capture (spre ++ spec :: spost) = Some i → i = length spre.
Proof.
  intros Hlen Hc. rewrite List.filter_app, length_app in Hlen. simpl in Hlen. rewrite Hc in Hlen. simpl in Hlen.
  assert (List.filter is_capture spre = []) as Hpre
    by (destruct (List.filter is_capture spre); [done|simpl in Hlen; lia]).
  clear Hlen. revert i. induction spre as [|s spre IH]; intros i; simpl.
  - rewrite Hc. by intros [= <-].
  - simpl in Hpre. destruct (is_capture s); [done|]. intros (j & Hj & ->)%fmap_Some.
    by rewrite (IH Hpre _ Hj).
Qed.

Lemma no_swap_before_capture spre spec spost :
  body_capture_ordering (spre ++ spec :: spost) = Ok tt → is_capture spec = true →
  length (List.filter is_capture (spre ++ spec :: spost)) ≤ 1 →
  Forall (fun s => is_body_matching s = false) spre.
Proof.
  unfold body_capture_ordering. fold is_capture. intros H Hc Hlen.
  destruct (position is_body_matching _) as [j|] eqn:Ej.
  2:{ apply position_None in Ej. by apply Forall_app in Ej as [? _]. }
  destruct (position is_capture _) as [i|] eqn:Ei.
  2:{ apply position_None, Forall_app in Ei as [_ [Ei _]%Forall_cons]. congruence. }
  apply capture_unique in Ei as ->; [|done|done].
  destruct (Nat.ltb_spec j (length spre)) as [|Hge]; [done|].
  apply position_Some in Ej as (pre & x & post & Heq & <- & _ & Hpre).
  apply (f_equal (take (length spre))) in Heq. rewrite take_app_length in Heq. rewrite Heq.
  rewrite take_app_le by done. by apply Forall_take.
Qed.

(** Only [body_capture] records a body, and it records the body it sees. *)
Lemma built_capture spec t q w res ctx q' w' cap :
  built rs spec t → on_request t ctx_default q w = (res, ctx, q', w') →
  ctx_body_capture ctx = Some cap →
  is_capture spec = true ∧ ∃ kept rest, body_bytes (body q) = kept ++ rest ∧
    request_body cap = from_utf8_lossy kept.
Proof.
  intros Hb H Hcap.
  destruct Hb as [c ds cs Hn|c gs Hn|c es rules Hn Hd He|c rules Hn|c specs rr Hn Hr Hd Hs _]; simpl in H.
  - unfold allowlist_on_request in H. by repeat case_match; simplify_eq.
  - unfold annotate_on_request in H. simplify_eq. by rewrite annotate_groups_capture in Hcap.
  - apply header_allowlist_filters in H as (_ & _ & H & _). by rewrite H in Hcap.
  - split; [by apply bool_decide_eq_true|].
    unfold body_capture_on_request in H. case_match; [by simplify_eq|]. simpl in H. simplify_eq. injection Hcap as <-.
    eexists _, _. split; [symmetry; apply take_drop|done].
  - assert (res = Ok Continue ∨ res ≠ Ok Continue) as [->|Hne] by (destruct res as [[]|]; auto; by right).
    + apply secrets_loop_continue in H as (l & un & -> & _). unfold secrets_finish in Hcap.
      by repeat case_match.
    + by apply secrets_loop_stop in H as [-> _].
Qed.

Lemma capture_own specs bp q0 w o trs caps q' w' cap :
  build_pipeline_inner specs rs = Ok bp → Forall (fun s => plain_spec s = true) specs →
  length (List.filter is_capture specs) ≤ 1 →
  run (pipeline bp) q0 w o trs caps q' w' → cap ∈ caps →
  ∃ kept rest, body_bytes (body q0) = kept ++ rest ∧ request_body cap = from_utf8_lossy kept.
Proof.
  intros (Hord & _ & Hbuilt & _)%build_pipeline_Ok Hplain Hone Hrun Hcap.
  destruct (run_capture _ _ _ _ _ _ _ _ _ Hrun Hcap)
    as (pre & t & post & trs1 & caps1 & q1 & w1 & res & ctx & q2 & w2 & Hts & Hpre & Ht & Hc).
  rewrite Hts in Hbuilt. destruct (Forall2_split _ _ _ _ _ Hbuilt) as (spre & spec & spost & -> & Hbpre & Hb).
  destruct (built_capture _ _ _ _ _ _ _ _ _ Hb Ht Hc) as [His Hown].
  pose proof (no_swap_before_capture _ _ _ Hord His Hone) as Hno.
  assert (body q1 = body q0) as <-; [|done].
  eapply (continues_rel (fun a b => body b = body a)); [..|exact Hpre]; [done|congruence|].
  apply Forall_app in Hplain as [Hppre _]. apply Forall_forall. intros t' Ht'.
  apply list_elem_of_lookup in Ht' as [i Hi]. eapply Forall2_lookup_r in Hi as (s & Hsi & Hs); [|exact Hbpre].
  apply list_elem_of_lookup_2 in Hsi. rewrite Forall_forall in Hppre, Hno.
  intros. eapply built_body_own; eauto.
Qed.

(** ** Default deny *)

(** What no transform changes. *)
Definition same_meta (q q' : RequestSummary) : Prop :=
  host q' = host q ∧ method q' = method q ∧ mode q' = mode q ∧ port q' = port q ∧
  sni q' = sni q ∧ remote_addr q' = remote_addr q.

Lemma built_meta_own spec t ctx q w res ctx' q' w' :
  built rs spec t → on_request t ctx q w = (res, ctx', q', w') → same_meta q q'.
Proof.
  intros Hb H. destruct Hb as [c ds cs Hn|c gs Hn|c es rules Hn Hd He|c rules Hn|c specs rr Hn Hr Hd Hs _];
    simpl in H.
  - unfold allowlist_on_request in H. repeat case_match; by simplify_eq.
  - unfold annotate_on_request in H. by simplify_eq.
  - by apply header_allowlist_filters in H as (_ & _ & _ & ->).
  - unfold body_capture_on_request in H. repeat case_match; by simplify_eq.
  - apply secrets_on_request_frame in H. by destruct H.
Qed.

Lemma same_meta_trans a b c : same_meta a b → same_meta b c → same_meta a c.
Proof. unfold same_meta. naive_solver congruence. Qed.

Lemma continues_meta specs ts q w trs caps q' w' :
  Forall2 (built rs) specs ts → continues ts q w trs caps q' w' → same_meta q q'.
Proof.
  intros Hb. apply (continues_rel same_meta); [done|apply same_meta_trans|].
  apply Forall_forall. intros t Ht. apply list_elem_of_lookup in Ht as [j Hj].
  eapply Forall2_lookup_r in Hj as (s & _ & Hs); [|exact Hb]. intros. by eapply built_meta_own.
Qed.

Lemma run_meta specs bp q w o trs caps q' w' :
  build_pipeline_inner specs rs = Ok bp → run (pipeline bp) q w o trs caps q' w' → same_meta q q'.
Proof.
  intros (_ & _ & Hb & _)%build_pipeline_Ok Hr.
  inversion Hr as [|pre t post ? ? ? ? q1 w1 res ctx ? ? ? ? ? Hc Ht Hs Heq]; subst.
  - by eapply continues_meta.
  - rewrite <- Heq in Hb. destruct (Forall2_split _ _ _ _ _ Hb) as (sp & s & _ & _ & H1 & H2).
    eapply same_meta_trans; [by eapply continues_meta|by eapply built_meta_own].
Qed.

(** The text of a pipeline error names a source and nothing else. *)
Lemma run_error specs bp q w by_ msg trs caps q' w' :
  build_pipeline_inner specs rs = Ok bp → run (pipeline bp) q w (OError by_ msg) trs caps q' w' →
  ∃ src, config_source specs src ∧
    msg = Fmt "secret {:?}: cannot swap in an over-cap body"%bs [Text src].
Proof.
  intros (_ & _ & Hb & _)%build_pipeline_Ok Hr.
  inversion Hr as [|pre t post ? ? ? ? q1 w1 res ctx ? ? ? ? ? Hc Ht Hs Heq]; subst.
  rewrite <- Heq in Hb. destruct (Forall2_split _ _ _ _ _ Hb) as (sp & s & spost & -> & _ & H2).
  assert (res = Err msg) as -> by (destruct res as [[| |]|]; simpl in Hs; by simplify_eq). clear Hs.
  destruct H2 as [c ds cs Hn|c gs Hn|c es rules Hn Hd He|c rules Hn|c sps rr Hn Hr' Hd Hss _]; simpl in Ht.
  - unfold allowlist_on_request in Ht. by repeat case_match; simplify_eq.
  - unfold annotate_on_request in Ht. by simplify_eq.
  - by apply header_allowlist_filters in Ht as (? & _).
  - unfold body_capture_on_request in Ht. by repeat case_match; simplify_eq.
  - apply secrets_loop_stop in Ht as (_ & cs & Hcs & [[? _]|[E _]]); [done| |done].
    injection E as ->. apply list_elem_of_In, in_map_iff in Hcs as (ss & <- & Hin%list_elem_of_In).
    exists (source_name (ss_source ss)). split; [|done].
    exists s, c, sps, ss. split; [set_solver|done].
Qed.

(** The compiled form of an allowlist spec. *)
Definition compiled_allowlist (spec : TransformSpec) (al : Allowlist) : Prop :=
  spec_name spec = "allowlist"%bs ∧ ∃ c, de_allowlist (spec_config spec) = Ok c ∧
    collect_results domain_parse (alc_domains c) = Ok (al_domains al) ∧
    collect_results cidr_parse (alc_cidrs c) = Ok (al_cidrs al) ∧ al_warn al = alc_warn c.

Lemma continue_allowed specs bp q0 w trs caps q' w' :
  build_pipeline_inner specs rs = Ok bp →
  continues (pipeline bp) q0 w trs caps q' w' →
  (∃ spec, spec ∈ specs ∧ spec_name spec = "allowlist"%bs) ∧
  ∀ spec, spec ∈ specs → spec_name spec = "allowlist"%bs →
  ∃ al, compiled_allowlist spec al ∧ (allowed al (host q0) = true ∨ al_warn al = true).
Proof.
  intros (_ & _ & Hbuilt & i & Hpos & _)%build_pipeline_Ok Hc. split.
  { apply position_Some in Hpos as (pre & x & post & -> & _ & Hx & _). exists x.
    split; [set_solver|]. by apply bool_decide_eq_true in Hx. }
  intros spec Hin Hn. apply list_elem_of_split in Hin as (spre & spost & ->).
  apply Forall2_app_inv_l in Hbuilt as (pre & rest & Hpre & Hrest & Hts).
  inversion Hrest as [|? t ? post Hb _]; subst. rewrite Hts in Hc.
  apply continues_app_inv in Hc as (trs1 & caps1 & trs2 & caps2 & q1 & w1 & Hc1 & Hc2 & _).
  assert (host q1 = host q0) as <-.
  { by apply (continues_meta _ _ _ _ _ _ _ _ Hpre Hc1). }
  inversion Hc2 as [|? ? ? ? ctx q2 w2 ? ? ? ? Ht _]; subst.
  destruct Hb as [c ds cs _ Hd Hds Hcs _|c gs Hn'|c es rules Hn'|c rules Hn'|c sps rr Hn'];
    try (rewrite Hn in Hn'; discriminate Hn').
  exists {| al_domains := ds; al_cidrs := cs; al_warn := alc_warn c |}. split.
  - split; [done|]. by exists c.
  - simpl in Ht. unfold allowlist_on_request in Ht. repeat case_match; simplify_eq; auto.
Qed.

End custody.
