(* ===== verification/SerdeModel.v ===== *)
(** * Concrete instances of the parameters

    An executable reading of what the [Deserialize] derives of the
    configuration structs document (objects by key with unknown keys refused,
    arrays by position, defaults, [null] for [None]), a regex engine for
    patterns without metacharacters, and a resolver over a fixed table.  The
    witnesses evaluate the model with them; no theorem of the development is
    about them. *)

From S2P Require Import Prelude Net Json Matcher Summary Pipeline Transforms Secrets KernelConfig Custody.

(** ** Field readers *)

Definition dec (A : Type) : Type := Value → result A bytes.

Definition dec_string : dec bytes := fun v =>
  match v with String_ s => Ok s | _ => Err "expected a string"%bs end.
Definition dec_bool : dec bool := fun v =>
  match v with Bool b => Ok b | _ => Err "expected a boolean"%bs end.
Definition dec_usize : dec Z := fun v =>
  match v with Number (PosInt n) => Ok n | _ => Err "expected usize"%bs end.
Definition dec_vec {A} (d : dec A) : dec (list A) := fun v =>
  match v with Array l => collect_results d l | _ => Err "expected a sequence"%bs end.
Definition dec_option {A} (d : dec A) : dec (option A) := fun v =>
  match v with Null => Ok None | _ => let? a := d v in Ok (Some a) end.

(** The fields of a struct: by key in an object, by position in an array. *)
Definition struct_fields (known : list bytes) (v : Value) : result (bytes → option Value) bytes :=
  match v with
  | Object m =>
      if forallb (fun kv => existsb (fun k => k ≟ kv.1) known) m
      then Ok (fun k => map_get k m) else Err "unknown field"%bs
  | Array l =>
      if length l <=? length known then Ok (fun k => map_get k (zip known l))
      else Err "invalid length"%bs
  | _ => Err "expected a struct"%bs
  end.

Definition req {A} (f : bytes → option Value) (k : bytes) (d : dec A) : result A bytes :=
  match f k with Some v => d v | None => Err "missing field"%bs end.
Definition dflt {A} (f : bytes → option Value) (k : bytes) (d : dec A) (a : A) : result A bytes :=
  match f k with Some v => d v | None => Ok a end.

(** ** The structs *)

Definition dec_rule : dec RuleSpec := fun v =>
  let? f := struct_fields ["host"%bs; "methods"%bs; "paths"%bs] v in
  let? h := req f "host"%bs dec_string in
  let? m := dflt f "methods"%bs (dec_option (dec_vec dec_string)) None in
  let? p := dflt f "paths"%bs (dec_option (dec_vec dec_string)) None in
  Ok {| rs_host := h; rs_methods := m; rs_paths := p |}.

Definition dec_allowlist : dec AllowlistConfig := fun v =>
  let? f := struct_fields ["domains"%bs; "cidrs"%bs; "warn"%bs] v in
  let? d := dflt f "domains"%bs (dec_vec dec_string) [] in
  let? c := dflt f "cidrs"%bs (dec_vec dec_string) [] in
  let? w := dflt f "warn"%bs dec_bool false in
  Ok {| alc_domains := d; alc_cidrs := c; alc_warn := w |}.

Definition dec_group : dec AnnotateGroupSpec := fun v =>
  let? f := struct_fields ["rules"%bs; "headers"%bs] v in
  let? r := req f "rules"%bs (dec_vec dec_rule) in
  let? h := req f "headers"%bs (dec_vec dec_string) in
  Ok {| ags_rules := r; ags_headers := h |}.

Definition dec_annotate : dec AnnotateConfig := fun v =>
  let? f := struct_fields ["annotations"%bs] v in
  let? a := req f "annotations"%bs (dec_vec dec_group) in
  Ok {| anc_annotations := a |}.

Definition dec_header_allowlist : dec HeaderAllowlistConfig := fun v =>
  let? f := struct_fields ["headers"%bs; "rules"%bs] v in
  let? h := req f "headers"%bs (dec_vec dec_string) in
  let? r := dflt f "rules"%bs (dec_option (dec_vec dec_rule)) None in
  Ok {| hac_headers := h; hac_rules := r |}.

Definition dec_body_capture : dec BodyCaptureConfig := fun v =>
  let? f := struct_fields ["max_request_body_bytes"%bs; "rules"%bs] v in
  let? n := req f "max_request_body_bytes"%bs dec_usize in
  let? r := req f "rules"%bs (dec_vec dec_rule) in
  Ok {| bcc_max_request_body_bytes := n; bcc_rules := r |}.

Definition dec_source : dec SourceSpec := fun v =>
  match get "type"%bs v with
  | Some (String_ t) =>
      if t ≟ "env"%bs then
        let? f := struct_fields ["type"%bs; "var"%bs; "json_key"%bs] v in
        let? x := req f "var"%bs dec_string in
        let? j := dflt f "json_key"%bs (dec_option dec_string) None in
        Ok (SEnv x j)
      else if t ≟ "file"%bs then
        let? f := struct_fields ["type"%bs; "path"%bs; "ttl"%bs; "failure_ttl"%bs; "json_key"%bs] v in
        let? p := req f "path"%bs dec_string in
        let? t := dflt f "ttl"%bs (dec_option dec_string) None in
        let? u := dflt f "failure_ttl"%bs (dec_option dec_string) None in
        let? j := dflt f "json_key"%bs (dec_option dec_string) None in
        Ok (SFile p t u j)
      else Err "unknown variant"%bs
  | _ => Err "missing field `type`"%bs
  end.

Definition dec_entry : dec SecretEntry := fun v =>
  let? f := struct_fields ["source"%bs; "proxy_value"%bs; "match_headers"%bs; "match_query"%bs;
                           "match_path"%bs; "match_body"%bs; "require"%bs; "rules"%bs] v in
  let? s := req f "source"%bs dec_source in
  let? p := req f "proxy_value"%bs dec_string in
  let? mh := dflt f "match_headers"%bs (dec_option (dec_vec dec_string)) None in
  let? mq := dflt f "match_query"%bs dec_bool false in
  let? mp := dflt f "match_path"%bs dec_bool false in
  let? mb := dflt f "match_body"%bs dec_bool false in
  let? rq := dflt f "require"%bs dec_bool false in
  let? r := req f "rules"%bs (dec_vec dec_rule) in
  Ok {| se_source := s; se_proxy_value := p; se_match_headers := mh; se_match_query := mq;
        se_match_path := mp; se_match_body := mb; se_require := rq; se_rules := r |}.

Definition dec_secrets : dec SecretsConfig := fun v =>
  let? f := struct_fields ["secrets"%bs] v in
  let? s := req f "secrets"%bs (dec_vec dec_entry) in
  Ok {| sc_secrets := s |}.

#[export] Instance serde_decoder : ConfigDecoder := {|
  de_allowlist := dec_allowlist; de_annotate := dec_annotate;
  de_header_allowlist := dec_header_allowlist; de_body_capture := dec_body_capture;
  de_secrets := dec_secrets |}.

(** ** They have the laws *)

Lemma dec_strings_inv l ss : collect_results dec_string l = Ok ss → l = map String_ ss.
Proof.
  rewrite collect_results_Ok. induction 1 as [|v s l ss Hv _ IH]; simpl; [done|].
  destruct v; simpl in Hv; simplify_eq. done.
Qed.

Lemma struct_fields_object known m f : struct_fields known (Object m) = Ok f → f = fun k => map_get k m.
Proof. simpl. case_match; [|done]. by intros [= <-]. Qed.

Ltac dec_inv H :=
  repeat match type of H with
  | result_bind _ _ = Ok _ =>
      let a := fresh "x" in let E := fresh "E" in apply result_bind_Ok in H as (a & E & H)
  end; injection H as <-.

Lemma dec_entry_law e x : dec_entry e = Ok x → entry_law e x.
Proof.
  intros H m ->. unfold dec_entry in H. dec_inv H. apply struct_fields_object in E. subst x0. simpl. split.
  - intros ->. unfold dflt in E5. destruct (map_get "match_body"%bs m) as [[]|]; simpl in E5; simplify_eq. done.
  - unfold dflt in E2. destruct (map_get "match_headers"%bs m) as [v|]; [|simplify_eq; by left].
    destruct v; simpl in E2; simplify_eq; [by right|].
    apply result_bind_Ok in E2 as (ss & Hss & E2). injection E2 as <-.
    by apply dec_strings_inv in Hss as ->.
Qed.

Lemma dec_group_law g x : dec_group g = Ok x → group_law g x.
Proof.
  intros H m ->. unfold dec_group in H. dec_inv H. apply struct_fields_object in E. subst x0. simpl.
  unfold req in E1. destruct (map_get "headers"%bs m) as [[]|]; simpl in E1; simplify_eq.
  by apply dec_strings_inv in E1 as ->.
Qed.

#[export] Instance serde_laws : DecoderLaws.
Proof.
  split; intros m c H; simpl in H.
  - unfold dec_secrets in H. dec_inv H. apply struct_fields_object in E. subst x. unfold req in E0.
    destruct (map_get "secrets"%bs m) as [[]|]; simpl in E0; simplify_eq. exists l. split; [done|].
    apply collect_results_Ok in E0. eapply Forall2_impl; [exact E0|]. apply dec_entry_law.
  - unfold dec_annotate in H. dec_inv H. apply struct_fields_object in E. subst x. unfold req in E0.
    destruct (map_get "annotations"%bs m) as [[]|]; simpl in E0; simplify_eq. exists l. split; [done|].
    apply collect_results_Ok in E0. eapply Forall2_impl; [exact E0|]. apply dec_group_law.
Qed.

(** ** A regex engine and a resolver *)

(** Patterns without metacharacters match as substrings, ignoring case. *)
#[export] Instance literal_regex : RegexEngine := {|
  Regex := bytes;
  regex_build p := Ok (to_ascii_lowercase p);
  regex_is_match re s := bool_decide (is_Some (find_sub re (to_ascii_lowercase s))) |}.

(** A resolver that knows some environment variables and counts its calls. *)
Definition table_resolver (table : list (bytes * bytes)) : SecretResolver nat := {|
  resolve source w :=
    (match map_get (source_name source) table with
     | Some v => Ok (MkSecret v)
     | None => Err {| err_source := source; reason := Text "environment variable not set"%bs |}
     end, S w) |}.
