(* ===== verification/KernelTheorems.v ===== *)
(** * The kernel's guarantees

    The theorems a user of the kernel relies on, stated on [build_pipeline]
    and [evaluate_request] and drawn from the lemmas of the component files. *)

From S2P Require Import Prelude Utf8 Net Json Matcher Summary Codec Pipeline Transforms Secrets KernelConfig Custody SerdeModel.

(** ** Example configurations *)

Definition rule_all (h : bytes) : Value := Array [Object [("host"%bs, String_ h)]].

Definition ex_allowlist : TransformSpec :=
  {| spec_name := "allowlist"%bs;
     spec_config := Object [("domains"%bs, Array [String_ "*.example.com"%bs])] |}.

Definition ex_annotate : TransformSpec :=
  {| spec_name := "annotate"%bs;
     spec_config := Object [("annotations"%bs,
       Array [Object [("headers"%bs, Array [String_ "Authorization"%bs]);
                      ("rules"%bs, rule_all "*.example.com"%bs)]])] |}.

Definition ex_capture : TransformSpec :=
  {| spec_name := "body_capture"%bs;
     spec_config := Object [("max_request_body_bytes"%bs, Number (PosInt 64));
                            ("rules"%bs, rule_all "*.example.com"%bs)] |}.

Definition ex_header_allowlist : TransformSpec :=
  {| spec_name := "header_allowlist"%bs;
     spec_config := Object [("headers"%bs, Array [String_ "authorization"%bs])] |}.

Definition ex_source : Value := Object [("type"%bs, String_ "env"%bs); ("var"%bs, String_ "API_KEY"%bs)].

Definition ex_secrets : TransformSpec :=
  {| spec_name := "secrets"%bs;
     spec_config := Object [("secrets"%bs, Array [Object
       [("match_body"%bs, Bool true); ("match_headers"%bs, Array [String_ "authorization"%bs]);
        ("proxy_value"%bs, String_ "tok-1"%bs); ("require"%bs, Bool true);
        ("rules"%bs, rule_all "*.example.com"%bs); ("source"%bs, ex_source)]])] |}.

Definition ex_specs : list TransformSpec :=
  [ex_allowlist; ex_annotate; ex_header_allowlist; ex_capture; ex_secrets].

Definition ex_request : RequestSummary :=
  {| mode := Https; method := "POST"%bs; host := "api.example.com"%bs; port := 443; path := "/v1"%bs;
     query := []; headers := [("Authorization"%bs, "Bearer tok-1"%bs); ("X-Trace"%bs, "1"%bs)];
     body := {| body_bytes := "key=tok-1"%bs; over_cap := false |}; sni := None; remote_addr := None |}.

Definition ex_resolver : SecretResolver nat := table_resolver [("API_KEY"%bs, "s3cr3t"%bs)].

(** ** INV-1: credentials stay out of the audit data *)

Section inv1.
Context `{RE : RegexEngine} `{CD : ConfigDecoder} {DL : DecoderLaws} {W : Type}.

(** C5 (INV-1): take a pipeline the loader accepts whose [secrets] and
    [annotate] configurations are written with objects and have no
    [match_headers: null] ([plain_spec]).  Every annotation of every trace of
    a request is made of the client's own request and the names in the
    configuration; the resolver's values cannot reach it.  The loader also
    accepts configurations that are not written so, and there this fails:
    [annotate_check_misses_null_and_array]. *)
Theorem inv1_traces_hold_no_secret specs (r : option (SecretResolver W)) bp q w po q' w' :
  build_pipeline_inner specs r = Ok bp → forallb plain_spec specs = true →
  evaluate_request (pipeline bp) q w = (po, q', w') →
  ∀ tr, tr ∈ request_traces po → Forall (safe_annotation specs q) (annotations tr).
Proof.
  intros Hb Hp He tr Htr. apply evaluate_request_run in He as (caps & Hrun & _).
  eapply trace_annotations; [done| |done|done].
  rewrite forallb_forall in Hp. apply Forall_forall. intros s Hs. by apply Hp, list_elem_of_In.
Qed.

(** C6 (INV-1): take a pipeline the loader accepts that has at most one
    [body_capture] and whose [secrets] and [annotate] configurations are
    written with objects ([plain_spec]).  The body recorded for the audit is
    a prefix of the body the client sent, never the swapped one.  Both
    conditions are needed: [second_capture_records_credential],
    [capture_check_misses_array]. *)
Theorem inv1_capture_is_client_body specs (r : option (SecretResolver W)) bp q w po q' w' cap :
  build_pipeline_inner specs r = Ok bp → forallb plain_spec specs = true →
  length (List.filter is_capture specs) ≤ 1 →
  evaluate_request (pipeline bp) q w = (po, q', w') → body_capture po = Some cap →
  ∃ kept rest, body_bytes (body q) = kept ++ rest ∧ request_body cap = from_utf8_lossy kept.
Proof.
  intros Hb Hp H1 He Hc. apply evaluate_request_run in He as (caps & Hrun & Hlast & _).
  rewrite Hlast in Hc. apply last_Some_elem_of in Hc.
  eapply capture_own; [done| |done|done|done].
  rewrite forallb_forall in Hp. apply Forall_forall. intros s Hs. by apply Hp, list_elem_of_In.
Qed.

(** C7 (default deny): a request leaves a loaded pipeline with a proof of
    permission only if every allowlist of the configuration, of which there
    is at least one, covers its host or is set to warn only. *)
Theorem default_deny specs (r : option (SecretResolver W)) bp q w po q' w' proof :
  build_pipeline_inner specs r = Ok bp →
  evaluate_request (pipeline bp) q w = (po, q', w') → outcome po = OContinue proof →
  (∃ spec, spec ∈ specs ∧ spec_name spec = "allowlist"%bs) ∧
  ∀ spec, spec ∈ specs → spec_name spec = "allowlist"%bs →
  ∃ al, compiled_allowlist spec al ∧ (allowed al (host q) = true ∨ al_warn al = true).
Proof.
  intros Hb He Ho. apply evaluate_request_run in He as (caps & Hrun & _). rewrite Ho in Hrun.
  apply run_continue_inv in Hrun. by eapply continue_allowed.
Qed.

End inv1.

Definition no_pipeline {W} : BuiltPipeline W := {| pipeline := []; warnings := [] |}.

Definition ex_built : BuiltPipeline nat :=
  unwrap_or no_pipeline (build_pipeline_inner ex_specs (Some ex_resolver)).

(** What a pipeline does with a request, and a destructor for it. *)
Lemma outcome_eta {A B C} (x : A * B * C) : x = (x.1.1, x.1.2, x.2).
Proof. by destruct x as [[? ?] ?]. Qed.

(** The example configuration loads, the request goes out with the secret in
    place and the records keep the token. *)
Example ex_run :
  let '(po, q, w) := evaluate_request (pipeline ex_built) ex_request 0 in
  headers q = [("Authorization"%bs, "Bearer s3cr3t"%bs)] ∧ body_bytes (body q) = "key=s3cr3t"%bs ∧
  outcome po = OContinue MkAllowProof ∧
  body_capture po = Some {| request_body := "key=tok-1"%bs; request_body_truncated := false |} ∧
  map annotations (request_traces po) =
    [[]; [("header:Authorization"%bs, String_ "Bearer tok-1"%bs)];
     [("stripped_headers"%bs, json_strings ["X-Trace"%bs])];
     [("captured_bytes"%bs, Number (PosInt 9)); ("truncated"%bs, Bool false)];
     [("swapped"%bs, Array [Object [("locations"%bs, json_strings ["header:Authorization"%bs; "body"%bs]);
                                    ("secret"%bs, String_ "API_KEY"%bs)]])]] ∧
  warnings ex_built = [] ∧ w = 1.
Proof. vm_compute. done. Qed.

Lemma inv1_traces_hold_no_secret_witness :
  length (request_traces (evaluate_request (pipeline ex_built) ex_request 0).1.1) = length ex_specs ∧
  ∀ tr, tr ∈ request_traces (evaluate_request (pipeline ex_built) ex_request 0).1.1 →
  Forall (safe_annotation ex_specs ex_request) (annotations tr).
Proof.
  split; [vm_compute; reflexivity|].
  apply (inv1_traces_hold_no_secret ex_specs (Some ex_resolver) ex_built ex_request 0
           _ (evaluate_request (pipeline ex_built) ex_request 0).1.2
             (evaluate_request (pipeline ex_built) ex_request 0).2).
  - apply is_ok_unwrap. vm_compute. reflexivity.
  - vm_compute. reflexivity.
  - apply outcome_eta.
Defined.

Lemma inv1_capture_is_client_body_witness :
  ∃ kept rest, body_bytes (body ex_request) = kept ++ rest ∧ "key=tok-1"%bs = from_utf8_lossy kept.
Proof.
  apply (inv1_capture_is_client_body ex_specs (Some ex_resolver) ex_built ex_request 0
           (evaluate_request (pipeline ex_built) ex_request 0).1.1
           (evaluate_request (pipeline ex_built) ex_request 0).1.2
           (evaluate_request (pipeline ex_built) ex_request 0).2
           {| request_body := "key=tok-1"%bs; request_body_truncated := false |}).
  - apply is_ok_unwrap. vm_compute. reflexivity.
  - vm_compute. reflexivity.
  - vm_compute. lia.
  - apply outcome_eta.
  - vm_compute. reflexivity.
Defined.

Lemma default_deny_witness :
  ∃ al, compiled_allowlist ex_allowlist al ∧ (allowed al (host ex_request) = true ∨ al_warn al = true).
Proof.
  apply (default_deny ex_specs (Some ex_resolver) ex_built ex_request 0
           (evaluate_request (pipeline ex_built) ex_request 0).1.1
           (evaluate_request (pipeline ex_built) ex_request 0).1.2
           (evaluate_request (pipeline ex_built) ex_request 0).2 MkAllowProof).
  - apply is_ok_unwrap. vm_compute. reflexivity.
  - apply outcome_eta.
  - vm_compute. reflexivity.
  - by left.
  - reflexivity.
Defined.

(** ** Witnesses for the secrets transform *)

Definition ex_secret : ConfiguredSecret :=
  {| cs_source := {| kind := Env "API_KEY"%bs; json_key := None; ttl := None; failure_ttl := None |};
     cs_source_name := "API_KEY"%bs; cs_proxy_value := "tok-1"%bs; cs_match_headers := None;
     cs_match_query := true; cs_match_path := false; cs_match_body := true; cs_require := true;
     cs_rules := [{| rule_host := HGlob {| suffix := "example.com"%bs; wildcard := true |};
                     rule_methods := None; rule_paths := None |}] |}.

Definition ex_transform : Secrets nat := {| secrets := [ex_secret]; resolver := ex_resolver |}.

Definition ex_over_cap : RequestSummary :=
  set_body {| body_bytes := "key=tok-1"%bs; over_cap := true |} ex_request.

(** The result of the transform on a request, part by part. *)
Definition swap_run (q : RequestSummary) := secrets_on_request ex_transform ctx_default q 0.

Lemma result_eta {A B C D} (x : A * B * C * D) : x = (x.1.1.1, x.1.1.2, x.1.2, x.2).
Proof. by destruct x as [[[? ?] ?] ?]. Qed.

Lemma secrets_touch_only_opted_in_witness :
  frame (fun _ => true) true false true ex_request (swap_run ex_request).1.2.
Proof.
  apply (secrets_touch_only_opted_in ex_transform ctx_default ex_request 0
           (swap_run ex_request).1.1.1 (swap_run ex_request).1.1.2 (swap_run ex_request).1.2
           (swap_run ex_request).2).
  apply result_eta.
Defined.


Lemma secrets_fail_closed_witness :
  (swap_run ex_over_cap).1.1.2 = ctx_default ∧ ∃ s, s ∈ secrets ex_transform ∧
    ((swap_run ex_over_cap).1.1.1 = Ok (Reject None) ∧ cs_require s = true ∨
     (swap_run ex_over_cap).1.1.1
     = Err (Fmt "secret {:?}: cannot swap in an over-cap body"%bs [Text (cs_source_name s)]) ∧
     cs_match_body s = true ∧ over_cap (body ex_over_cap) = true).
Proof.
  apply (secrets_fail_closed ex_transform ctx_default ex_over_cap 0
           (swap_run ex_over_cap).1.1.1 (swap_run ex_over_cap).1.1.2 (swap_run ex_over_cap).1.2
           (swap_run ex_over_cap).2).
  - apply result_eta.
  - vm_compute. discriminate.
Defined.

Lemma query_swap_keeps_keys_witness :
  query_keys "a=1&k=%26%3D"%bs = query_keys "a=1&k=tok"%bs.
Proof. apply (query_swap_keeps_keys "a=1&k=tok"%bs "tok"%bs "&="%bs). vm_compute. reflexivity. Defined.

(** ** The response path *)

(** A loaded pipeline forwards every upstream response unchanged, with
    one [Continue] trace per transform. *)
Theorem response_path_forwards `{RE : RegexEngine} `{CD : ConfigDecoder} {W}
    specs (r : option (SecretResolver W)) bp q w :
  build_pipeline_inner specs r = Ok bp →
  evaluate_response (pipeline bp) q w =
    ({| traces := map (fun s => trace (spec_name s) TContinue None []) specs; action := Forward |}, w).
Proof.
  intros (_ & _ & Hb & _)%build_pipeline_Ok. unfold evaluate_response.
  rewrite response_loop_default.
  - simpl. do 2 f_equal. induction Hb as [|s t ss ts Hst _ IH]; simpl; [done|].
    apply built_default in Hst as [_ ->]. by rewrite IH.
  - induction Hb as [|s t ss ts Hst _ IH]; constructor; [|done]. by apply built_default in Hst as [? _].
Qed.

Lemma response_path_forwards_witness :
  evaluate_response (pipeline ex_built) ex_request 0 =
    ({| traces := map (fun s => trace (spec_name s) TContinue None []) ex_specs; action := Forward |}, 0).
Proof.
  apply (response_path_forwards ex_specs (Some ex_resolver)).
  apply is_ok_unwrap. vm_compute. reflexivity.
Defined.

(** ** Configurations that load and record a credential *)

Definition leak_built (specs : list TransformSpec) : BuiltPipeline nat :=
  unwrap_or no_pipeline (build_pipeline_inner specs (Some ex_resolver)).

Definition leak_outcome (specs : list TransformSpec) : PipelineOutcome :=
  (evaluate_request (pipeline (leak_built specs)) ex_request 0).1.1.

(** Finding: only the first [body_capture] is compared with the
    body-matching secrets, so a configuration with a second one after them
    loads, and that one records the credential. *)
Theorem second_capture_records_credential :
  let specs := [ex_allowlist; ex_capture; ex_secrets; ex_capture] in
  is_ok (build_pipeline_inner specs (Some ex_resolver)) = true ∧
  body_capture (leak_outcome specs)
  = Some {| request_body := "key=s3cr3t"%bs; request_body_truncated := false |}.
Proof. vm_compute. done. Qed.

(** [match_headers: null], which the loader reads as "scan all headers". *)
Definition null_secrets : TransformSpec :=
  {| spec_name := "secrets"%bs;
     spec_config := Object [("secrets"%bs, Array [Object
       [("match_headers"%bs, Null); ("proxy_value"%bs, String_ "tok-1"%bs);
        ("rules"%bs, rule_all "*.example.com"%bs); ("source"%bs, ex_source)]])] |}.

(** The same secret with its struct given as an array. *)
Definition seq_secrets : TransformSpec :=
  {| spec_name := "secrets"%bs;
     spec_config := Array [Array [Object
       [("proxy_value"%bs, String_ "tok-1"%bs);
        ("rules"%bs, rule_all "*.example.com"%bs); ("source"%bs, ex_source)]]] |}.

(** Finding: the check on [annotate] does not see a [secrets] transform
    that gives [match_headers: null] or whose configuration is an array; both
    load, scan all headers, and [annotate] then records the credential. *)
Theorem annotate_check_misses_null_and_array :
  ∀ s, s ∈ [null_secrets; seq_secrets] →
  let specs := [ex_allowlist; s; ex_annotate] in
  is_ok (build_pipeline_inner specs (Some ex_resolver)) = true ∧
  map annotations (request_traces (leak_outcome specs)) !! 2
  = Some [("header:Authorization"%bs, String_ "Bearer s3cr3t"%bs)].
Proof.
  intros s. rewrite !elem_of_cons, elem_of_nil. intros [->|[->|[]]]; vm_compute; done.
Qed.

(** A body-matching secret with its struct given as an array. *)
Definition seq_body_secrets : TransformSpec :=
  {| spec_name := "secrets"%bs;
     spec_config := Array [Array [Object
       [("match_body"%bs, Bool true); ("proxy_value"%bs, String_ "tok-1"%bs);
        ("rules"%bs, rule_all "*.example.com"%bs); ("source"%bs, ex_source)]]] |}.

(** Finding: the check on [body_capture] does not see it either: with one
    [body_capture] after it the configuration loads, and the capture holds
    the credential. *)
Example capture_check_misses_array :
  let specs := [ex_allowlist; seq_body_secrets; ex_capture] in
  is_ok (build_pipeline_inner specs (Some ex_resolver)) = true ∧
  body_capture (leak_outcome specs)
  = Some {| request_body := "key=s3cr3t"%bs; request_body_truncated := false |}.
Proof. vm_compute. done. Qed.

Lemma annotate_check_misses_null_and_array_witness :
  is_ok (build_pipeline_inner [ex_allowlist; null_secrets; ex_annotate] (Some ex_resolver)) = true.
Proof. apply (annotate_check_misses_null_and_array null_secrets). by left. Defined.

(** ** Durations *)

(** Finding: minutes are multiplied on 64 bits without a check, so a
    long lifetime wraps to a short one. *)
Theorem minutes_wrap :
  parse_duration "307445734561825861m"%bs = Ok (duration_from_secs 44) ∧
  parse_duration "5m"%bs = Ok (duration_from_secs 300).
Proof. vm_compute. done. Qed.

Lemma find_byte_digits s t :
  Forall (fun b => is_digit 10 b = true) s → (∀ b t', t = b :: t' → is_ascii_digit b = false) →
  find_byte (fun c => negb (is_ascii_digit c)) (s ++ t)
  = match t with [] => None | _ => Some (length s) end.
Proof.
  intros Hs Ht. induction Hs as [|b s Hb _ IH]; simpl.
  - destruct t as [|b t]; [done|]. simpl. by rewrite (Ht b t).
  - assert (is_ascii_digit b = true) as ->.
    { revert Hb. clear. byte_cases b; done. }
    simpl. rewrite IH. by destruct t.
Qed.

Lemma digit_graphic b : is_digit 10 b = true → is_ascii_graphic b = true.
Proof. byte_cases b; done. Qed.

(** A duration written as a decimal number with a unit is read as that
    many units, as long as the number of seconds fits 64 bits. *)
Theorem parse_duration_units n :
  (0 <= n <= u64_max)%Z →
  parse_duration (show_dec n) = Ok (duration_from_secs n) ∧
  parse_duration (show_dec n ++ "s"%bs) = Ok (duration_from_secs n) ∧
  parse_duration (show_dec n ++ "ms"%bs) = Ok (duration_from_millis n) ∧
  ((n * 60 <= u64_max)%Z → parse_duration (show_dec n ++ "m"%bs) = Ok (duration_from_secs (n * 60))).
Proof.
  intros Hn.
  assert (∀ t, Forall (fun b => is_ascii_graphic b = true) t →
    (∀ b t', t = b :: t' → is_ascii_digit b = false) →
    parse_duration (show_dec n ++ t) =
      let unit := match t with [] => "s"%bs | _ => t end in
      if unit ≟ "ms"%bs then Ok (duration_from_millis n)
      else if unit ≟ "s"%bs then Ok (duration_from_secs n)
      else if unit ≟ "m"%bs then Ok (duration_from_secs (n * 60 mod 2 ^ 64))
      else Err (Fmt "invalid duration unit {other:?} in {s:?}"%bs [Text unit; Text (show_dec n ++ t)])) as H.
  { intros t Hg Ht. unfold parse_duration.
    pose proof (show_dec_digits n ltac:(lia)) as Hd.
    rewrite trim_graphic; [|apply Forall_app; split; [|done]; eapply Forall_impl; [exact Hd|apply digit_graphic]].
    rewrite find_byte_digits by done. unfold parse_u64.
    destruct t as [|b t].
    - rewrite app_nil_r, parse_show_dec by (done || lia). done.
    - rewrite take_app_length, drop_app_length, parse_show_dec by (done || lia). done. }
  split; [|split; [|split]].
  - rewrite <- (app_nil_r (show_dec n)) at 1. rewrite H; [done|constructor|done].
  - rewrite H; [done|by repeat constructor|by intros ? ? [= <- <-]].
  - rewrite H; [done|by repeat constructor|by intros ? ? [= <- <-]].
  - intros Hm. rewrite H; [|by repeat constructor|by intros ? ? [= <- <-]].
    simpl. rewrite Z.mod_small; [done|]. unfold u64_max in *. lia.
Qed.

Lemma parse_duration_units_witness : parse_duration (show_dec 90) = Ok (duration_from_secs 90).
Proof. apply (parse_duration_units 90). vm_compute. split; discriminate. Defined.
