(* ===== verification/KernelAudit.v ===== *)
(** * The audit record ([hematite-kernel/src/audit.rs]) *)

From Stdlib Require Import QArith.
From S2P Require Import Prelude Utf8 Json Matcher Summary Pipeline Secrets KernelConfig Custody SerdeModel KernelTheorems.
#[local] Close Scope Q_scope.

Inductive Action : Type := Allow | AReject | AStub | AError | ClientCancel.

#[export] Instance action_eq_dec : EqDecision Action.
Proof. solve_decision. Defined.

Record GuardDenial : Type := { denied_addr : bytes; denied_prefix : bytes }.

Record TunnelGroup : Type := {
  tg_target : bytes;
  tg_request_transforms : list Trace;
  tg_passthrough : bool;
}.

Record AuditRecord : Type := {
  ar_host : bytes;
  ar_method : bytes;
  ar_path : bytes;
  ar_remote_addr : option bytes;
  ar_sni : option bytes;
  ar_mode : Mode;
  ar_action : Action;
  ar_status_code : option Z;
  ar_duration_ms : Q;
  ar_rejected_by : option bytes;
  ar_stubbed_by : option bytes;
  ar_error : option message;
  ar_request_transforms : list Trace;
  ar_response_transforms : list Trace;
  ar_tunnel : option TunnelGroup;
  ar_guard : option GuardDenial;
  ar_body_capture : option BodyCapture;
}.

Definition conformance_record (summary : RequestSummary) (po : PipelineOutcome) : AuditRecord :=
  let '(action, status_code, rejected_by, stubbed_by, error) :=
    match outcome po with
    | OContinue _ => (Allow, None, None, None, None)
    | OReject by_ response =>
        (AReject, Some (match response with Some r => status r | None => 403%Z end), Some by_, None, None)
    | OStub by_ response => (AStub, Some (status response), None, Some by_, None)
    | OError _ msg => (AError, Some 502%Z, None, None, Some msg)
    end in
  {| ar_host := host summary;
     ar_method := method summary;
     ar_path := request_path po;
     ar_remote_addr := remote_addr summary;
     ar_sni := sni summary;
     ar_mode := mode summary;
     ar_action := action;
     ar_status_code := status_code;
     ar_duration_ms := 0%Q;
     ar_rejected_by := rejected_by;
     ar_stubbed_by := stubbed_by;
     ar_error := error;
     ar_request_transforms := request_traces po;
     ar_response_transforms := [];
     ar_tunnel := None;
     ar_guard := None;
     ar_body_capture := body_capture po |}.

(** ** Guarantees *)

(** INV-1, the record: built from the request the pipeline left behind,
    the record of a request still holds the client's data: its host, method,
    path, SNI and address are those of the request as received, its traces
    are free of secrets, its captured body is a prefix of the client's, and
    its error text names at most a source. *)
Theorem record_holds_client_data `{RE : RegexEngine} `{CD : ConfigDecoder} {DL : DecoderLaws} {W}
    specs (r : option (SecretResolver W)) bp q w po q' w' :
  build_pipeline_inner specs r = Ok bp → forallb plain_spec specs = true →
  length (List.filter is_capture specs) ≤ 1 →
  evaluate_request (pipeline bp) q w = (po, q', w') →
  let rec := conformance_record q' po in
  ar_host rec = host q ∧ ar_method rec = method q ∧ ar_path rec = path q ∧ ar_sni rec = sni q ∧
  ar_remote_addr rec = remote_addr q ∧ ar_mode rec = mode q ∧
  (∀ tr, tr ∈ ar_request_transforms rec → Forall (safe_annotation specs q) (annotations tr)) ∧
  (∀ cap, ar_body_capture rec = Some cap → ∃ kept rest,
     body_bytes (body q) = kept ++ rest ∧ request_body cap = from_utf8_lossy kept) ∧
  (∀ msg, ar_error rec = Some msg → ∃ src, config_source specs src ∧
     msg = Fmt "secret {:?}: cannot swap in an over-cap body"%bs [Text src]).
Proof.
  intros Hb Hp H1 He rec.
  assert (Forall (fun s => plain_spec s = true) specs) as Hp'.
  { rewrite forallb_forall in Hp. apply Forall_forall. intros s Hs. by apply Hp, list_elem_of_In. }
  apply evaluate_request_run in He as (caps & Hr & Hc & Hpath).
  destruct (run_meta _ _ _ _ _ _ _ _ _ _ Hb Hr) as (Hh & Hm & Hmo & _ & Hsni & Hra).
  assert (ar_host rec = host q' ∧ ar_method rec = method q' ∧ ar_path rec = request_path po ∧
    ar_sni rec = sni q' ∧ ar_remote_addr rec = remote_addr q' ∧ ar_mode rec = mode q' ∧
    ar_request_transforms rec = request_traces po ∧ ar_body_capture rec = body_capture po ∧
    (∀ msg, ar_error rec = Some msg → ∃ n, outcome po = OError n msg))
    as (-> & -> & -> & -> & -> & -> & -> & -> & Herr).
  { unfold rec, conformance_record. destruct (outcome po); simpl; repeat split; try done.
    intros msg' [= <-]. eauto. }
  repeat split; try congruence.
  - intros tr Htr. by eapply trace_annotations.
  - intros cap Hcap. rewrite Hc in Hcap. apply last_Some_elem_of in Hcap. by eapply capture_own.
  - intros msg Hmsg. apply Herr in Hmsg as [n Ho]. rewrite Ho in Hr. by eapply run_error.
Qed.

Lemma record_holds_client_data_witness :
  ar_path (conformance_record (evaluate_request (pipeline ex_built) ex_request 0).1.2
             (evaluate_request (pipeline ex_built) ex_request 0).1.1) = "/v1"%bs.
Proof.
  apply (record_holds_client_data ex_specs (Some ex_resolver) ex_built ex_request 0
           (evaluate_request (pipeline ex_built) ex_request 0).1.1
           (evaluate_request (pipeline ex_built) ex_request 0).1.2
           (evaluate_request (pipeline ex_built) ex_request 0).2).
  - apply is_ok_unwrap. vm_compute. reflexivity.
  - vm_compute. reflexivity.
  - vm_compute. lia.
  - apply outcome_eta.
Defined.

(** The action of a record is the pipeline's outcome, with its status:
    none for an allowed request, the transform's or 403 for a rejection, the
    stub's, and 502 for an error. *)
Theorem record_action_is_outcome q po :
  let rec := conformance_record q po in
  match outcome po with
  | OContinue _ => ar_action rec = Allow ∧ ar_status_code rec = None ∧ ar_rejected_by rec = None
  | OReject n None => ar_action rec = AReject ∧ ar_status_code rec = Some 403%Z ∧ ar_rejected_by rec = Some n
  | OReject n (Some r) =>
      ar_action rec = AReject ∧ ar_status_code rec = Some (status r) ∧ ar_rejected_by rec = Some n
  | OStub n r => ar_action rec = AStub ∧ ar_status_code rec = Some (status r) ∧ ar_stubbed_by rec = Some n
  | OError _ m => ar_action rec = AError ∧ ar_status_code rec = Some 502%Z ∧ ar_error rec = Some m
  end.
Proof. unfold conformance_record. by destruct (outcome po) as [|? []| |]. Qed.
