(* ===== verification/Hop.v ===== *)
(** * Hop-by-hop header hygiene ([hematite-proxy/src/hop.rs]) *)

From S2P Require Import Prelude.

Definition HOP_BY_HOP : list bytes :=
  ["connection"%bs; "proxy-connection"%bs; "keep-alive"%bs; "proxy-authenticate"%bs;
   "proxy-authorization"%bs; "te"%bs; "trailer"%bs; "transfer-encoding"%bs; "upgrade"%bs].

(** The lower-cased, non-empty tokens of one comma-separated value. *)
Definition tokens (value : bytes) : list bytes :=
  map to_ascii_lowercase
    (List.filter (fun t => negb (t ≟ [])) (map trim (split_on ","%byte value))).

(** The first loop: the headers named in any [Connection] value. *)
Fixpoint connection_named (hs : list (bytes * bytes)) : list bytes :=
  match hs with
  | [] => []
  | (n, v) :: hs =>
      (if eq_ignore_ascii_case n "connection"%bs then tokens v else []) ++ connection_named hs
  end.

(** The body of the second loop: what is pushed for one header. *)
Definition strip_one (named : list bytes) (ws : bool) (h : bytes * bytes) : option (bytes * bytes) :=
  let lower := to_ascii_lowercase h.1 in
  if lower ≟ "te"%bs then
    if existsb (fun t => eq_ignore_ascii_case (trim t) "trailers"%bs) (split_on ","%byte h.2)
    then Some (h.1, "trailers"%bs) else None
  else if ws && ((lower ≟ "upgrade"%bs) || (lower ≟ "connection"%bs)) then Some h
  else if bool_decide (lower ∈ HOP_BY_HOP) || bool_decide (lower ∈ named) then None
  else Some h.

Definition strip_hop_by_hop (hs : list (bytes * bytes)) (valid_websocket_handshake : bool) :
    list (bytes * bytes) :=
  omap (strip_one (connection_named hs) valid_websocket_handshake) hs.

(** ** Lemmas *)

Lemma strip_one_name named ws h h' : strip_one named ws h = Some h' → h'.1 = h.1.
Proof. unfold strip_one. intros H. repeat case_match; by simplify_eq. Qed.

(** What is stripped is stripped for good, whatever smaller set of names is
    used the second time. *)
Lemma strip_one_again named named' ws h h' :
  named' ⊆ named → strip_one named ws h = Some h' → strip_one named' ws h' = Some h'.
Proof.
  intros Hsub H. pose proof (strip_one_name _ _ _ _ H) as Hn. unfold strip_one in *. rewrite Hn.
  case_bool_decide as Et.
  - case_match; [|done]. injection H as <-. done.
  - destruct (ws && _); [done|].
    destruct (bool_decide (_ ∈ HOP_BY_HOP)); [done|]. simpl in *.
    case_bool_decide as Ein; [done|]. injection H as <-.
    rewrite bool_decide_false; [done|]. set_solver.
Qed.

Lemma connection_named_app a b : connection_named (a ++ b) = connection_named a ++ connection_named b.
Proof. induction a as [|[n v] a IH]; simpl; [done|]. by rewrite IH, app_assoc. Qed.

Lemma omap_strip_again named named' ws (hs : list (bytes * bytes)) :
  named' ⊆ named →
  omap (strip_one named' ws) (omap (strip_one named ws) hs) = omap (strip_one named ws) hs.
Proof.
  intros Hsub. induction hs as [|h hs IH]; simpl; [done|].
  destruct (strip_one named ws h) as [h'|] eqn:E; simpl; [|done].
  rewrite (strip_one_again named named' ws h h') by done. f_equal. exact IH.
Qed.

(** A [Connection] header that survives is unchanged. *)
Lemma connection_named_strip named ws (hs : list (bytes * bytes)) :
  connection_named (omap (strip_one named ws) hs) ⊆ connection_named hs.
Proof.
  induction hs as [|h hs IH]; [done|].
  change (omap (strip_one named ws) (h :: hs)) with
    (match strip_one named ws h with Some h' => h' :: omap (strip_one named ws) hs
     | None => omap (strip_one named ws) hs end).
  destruct (strip_one named ws h) as [[n' v']|] eqn:E.
  - pose proof (strip_one_name _ _ _ _ E) as Hn. simpl in Hn. subst n'.
    destruct h as [n v]. simpl in *.
    destruct (eq_ignore_ascii_case n "connection"%bs) eqn:En; [|set_solver].
    assert (v' = v) as ->; [|set_solver].
    unfold eq_ignore_ascii_case in En. apply bool_decide_eq_true in En.
    unfold strip_one in E. simpl in E. rewrite En in E. vm_compute (bool_decide _) in E at 1.
    simpl in E. repeat case_match; by simplify_eq.
  - destruct h as [n v]. simpl. set_solver.
Qed.

(** A header that survives outside a WebSocket handshake. *)
Lemma strip_survivor hs n v :
  (n, v) ∈ strip_hop_by_hop hs false →
  (to_ascii_lowercase n = "te"%bs ∧ v = "trailers"%bs) ∨
  ((to_ascii_lowercase n ∉ HOP_BY_HOP) ∧ (to_ascii_lowercase n ∉ connection_named hs) ∧ (n, v) ∈ hs).
Proof.
  unfold strip_hop_by_hop. rewrite list_elem_of_omap. intros ([n' v'] & Hin & H).
  pose proof (strip_one_name _ _ _ _ H) as Hn. simpl in Hn. subst n'.
  unfold strip_one in H. simpl in H. case_bool_decide as Et.
  - case_match; simplify_eq. by left.
  - destruct (bool_decide (_ ∈ HOP_BY_HOP)) eqn:E1; [done|].
    destruct (bool_decide (_ ∈ connection_named hs)) eqn:E2; [done|].
    simpl in H. apply bool_decide_eq_false in E1, E2. simplify_eq. right. done.
Qed.

(** ** Guarantees *)

(** Outside a WebSocket handshake nothing hop-by-hop leaves: a header that
    survives is neither of the fixed set nor named in a [Connection] value
    (both up to case) and was received as it is, except [TE], whose value is
    then [trailers]. *)
Theorem hop_headers_do_not_survive hs n v :
  (n, v) ∈ strip_hop_by_hop hs false →
  (to_ascii_lowercase n = "te"%bs ∧ v = "trailers"%bs) ∨
  ((to_ascii_lowercase n ∉ HOP_BY_HOP) ∧ (to_ascii_lowercase n ∉ connection_named hs) ∧ (n, v) ∈ hs).
Proof. apply strip_survivor. Qed.

(** A header that is not hop-by-hop is forwarded unchanged, in place. *)
Theorem end_to_end_headers_kept hs ws :
  (∀ h, h ∈ hs → to_ascii_lowercase h.1 ∉ HOP_BY_HOP ++ connection_named hs) →
  strip_hop_by_hop hs ws = hs.
Proof.
  unfold strip_hop_by_hop. generalize (connection_named hs) as named. intros named H.
  induction hs as [|h hs IH]; [done|].
  assert (strip_one named ws h = Some h) as Hh.
  { assert (to_ascii_lowercase h.1 ∉ HOP_BY_HOP ++ named) as [Hn Hm]%not_elem_of_app by (apply H; left).
    unfold strip_one. rewrite (bool_decide_false (_ = "te"%bs)) by (unfold HOP_BY_HOP in Hn; set_solver).
    rewrite (bool_decide_false (_ ∈ HOP_BY_HOP)), (bool_decide_false (_ ∈ named)) by done.
    by destruct (ws && _). }
  simpl. rewrite Hh. f_equal. apply IH. intros h' Hh'. apply H. by right.
Qed.

(** Stripping is idempotent, in both modes. *)
Theorem strip_idempotent hs ws :
  strip_hop_by_hop (strip_hop_by_hop hs ws) ws = strip_hop_by_hop hs ws.
Proof. apply omap_strip_again, connection_named_strip. Qed.

Definition ex_hop : list (bytes * bytes) :=
  [("Connection"%bs, "close, X-Hop"%bs); ("x-hop"%bs, "1"%bs); ("TE"%bs, "gzip, Trailers"%bs);
   ("Accept"%bs, "*/*"%bs)].

Lemma hop_headers_do_not_survive_witness :
  (to_ascii_lowercase "TE"%bs = "te"%bs ∧ "trailers"%bs = "trailers"%bs) ∨
  ((to_ascii_lowercase "TE"%bs ∉ HOP_BY_HOP) ∧ (to_ascii_lowercase "TE"%bs ∉ connection_named ex_hop) ∧
   ("TE"%bs, "trailers"%bs) ∈ ex_hop).
Proof.
  apply (hop_headers_do_not_survive ex_hop "TE"%bs "trailers"%bs).
  vm_compute (strip_hop_by_hop _ _). by left.
Defined.

Lemma end_to_end_headers_kept_witness :
  strip_hop_by_hop [("Accept"%bs, "*/*"%bs)] false = [("Accept"%bs, "*/*"%bs)].
Proof.
  apply (end_to_end_headers_kept [("Accept"%bs, "*/*"%bs)] false).
  intros h ->%list_elem_of_singleton. by apply (bool_decide_unpack _).
Defined.
