(* ===== verification/Tunnel.v ===== *)
(** * Tunnel handshakes ([hematite-proxy/src/tunnel.rs])

    First-byte dispatch, CONNECT request lines, SOCKS5 negotiation and the
    scan of a TLS ClientHello for its server name. *)

From S2P Require Import Prelude Utf8 Net.

(** ** Dispatch *)

Inductive ClientProtocol : Type := Socks5 | CHttp | CUnknown.

Definition dispatch (first_byte : byte) : ClientProtocol :=
  if (b2z first_byte =? 5)%Z then Socks5
  else if is_ascii_upper first_byte then CHttp
  else CUnknown.

Inductive InnerProtocol : Type := ITls | IHttp | IUnknown.

Definition sniff_inner (first_byte : byte) : InnerProtocol :=
  if (b2z first_byte =? 22)%Z then ITls
  else if is_ascii_upper first_byte then IHttp
  else IUnknown.

(** ** CONNECT *)

Record ConnectTarget : Type := { ct_host : bytes; ct_port : Z }.

Definition split_authority (authority : bytes) (default_port : Z) : option (bytes * Z) :=
  match strip_prefix ["["%byte] authority with
  | Some rest =>
      e ← find_byte (fun c => c ≟ "]"%byte) rest;
      let host := to_ascii_lowercase (take e rest) in
      port ← match strip_prefix [":"%byte] (drop (e + 1) rest) with
             | Some p => parse_u16 p
             | None => Some default_port
             end;
      Some (host, port)
  | None =>
      let whole := Some (to_ascii_lowercase authority, default_port) in
      match rsplit_once ":"%byte authority with
      | Some (h, p) =>
          if negb (contains_byte ":"%byte h) then
            port ← parse_u16 p; Some (to_ascii_lowercase h, port)
          else whole
      | None => whole
      end
  end.

Definition parse_connect (raw : bytes) : option ConnectTarget :=
  line ← first_line raw;
  match split_whitespace line with
  | verb :: parts =>
      if negb (verb ≟ "CONNECT"%bs) then None
      else match parts with
           | authority :: _ =>
               '(host, port) ← split_authority authority 443;
               Some {| ct_host := host; ct_port := port |}
           | [] => None
           end
  | [] => None
  end.

(** ** SOCKS5 *)

Inductive Socks5Method : Type := NoAuth | Unacceptable.

Definition parse_socks5_methods (rest : bytes) : option Socks5Method :=
  first ← head rest;
  let nmethods := Z.to_nat (b2z first) in
  methods ← get_range 1 (1 + nmethods) rest;
  Some (if contains_byte Byte.x00 methods then NoAuth else Unacceptable).

Inductive Socks5Reject : Type := CommandNotSupported | AddressNotSupported | Malformed.

Definition reply_code (r : Socks5Reject) : byte :=
  match r with
  | CommandNotSupported => Byte.x07
  | AddressNotSupported => Byte.x08
  | Malformed => Byte.x01
  end.

(** The big-endian value of a run of bytes: [Ipv6Addr::from] of the eight
    segments read from it, or the four octets of an IPv4 address. *)
Definition be_value (bs : bytes) : Z := fold_left (fun a b => a * 256 + b2z b)%Z bs 0%Z.

(** The address part: the host, and where the port is. *)
Definition socks5_address (atyp : byte) (req : bytes) : result (bytes * nat) Socks5Reject :=
  if (b2z atyp =? 1)%Z then
    let? addr := ok_or (get_range 4 8 req) Malformed in
    Ok (join_with ["."%byte] (map (fun b => show_dec (b2z b)) addr), 8)
  else if (b2z atyp =? 3)%Z then
    let? len := ok_or (req !! 4) Malformed in
    let len := Z.to_nat (b2z len) in
    let? name := ok_or (get_range 5 (5 + len) req) Malformed in
    let? host := ok_or (from_utf8 name) Malformed in
    Ok (to_ascii_lowercase host, 5 + len)
  else if (b2z atyp =? 4)%Z then
    let? addr := ok_or (get_range 4 20 req) Malformed in
    Ok (show_ipv6 (be_value addr), 20)
  else Err AddressNotSupported.

Definition parse_socks5_request (req : bytes) : result ConnectTarget Socks5Reject :=
  match req with
  | ver :: cmd :: rsv :: atyp :: _ =>
      if negb (b2z ver =? 5)%Z then Err Malformed
      else if negb (b2z cmd =? 1)%Z then Err CommandNotSupported
      else
        let? hp := socks5_address atyp req in
        let '(host, port_offset) := hp in
        let? port_bytes := ok_or (get_range port_offset (port_offset + 2) req) Malformed in
        match port_bytes with
        | [p0; p1] => Ok {| ct_host := host; ct_port := be16 p0 p1 |}
        | _ => Err Malformed
        end
  | _ => Err Malformed
  end.

Definition SOCKS5_SUCCESS : bytes :=
  [Byte.x05; Byte.x00; Byte.x00; Byte.x01; Byte.x00; Byte.x00; Byte.x00; Byte.x00; Byte.x00; Byte.x00].

Definition socks5_failure (code : byte) : bytes :=
  [Byte.x05; code; Byte.x00; Byte.x01; Byte.x00; Byte.x00; Byte.x00; Byte.x00; Byte.x00; Byte.x00].

(** ** The ClientHello scan *)

Inductive SniScan : Type :=
| Incomplete
| NoSni
| Sni (name : bytes)
| NotTls.

(** A two-byte length field at a position. *)
Definition get_be16 (i : nat) (s : bytes) : option nat :=
  match get_range i (i + 2) s with
  | Some [hi; lo] => Some (Z.to_nat (be16 hi lo))
  | _ => None
  end.

(** The server_name extension: list_len(2) name_type(1) name_len(2) name. *)
Definition scan_server_name (ext : bytes) : SniScan :=
  match ext with
  | _ :: _ :: ty :: n0 :: n1 :: _ =>
      if negb (b2z ty =? 0)%Z then NoSni
      else
        let name_len := Z.to_nat (be16 n0 n1) in
        match get_range 5 (5 + name_len) ext with
        | None => NoSni
        | Some name =>
            match from_utf8 name with
            | Some n => Sni (to_ascii_lowercase n)
            | None => NoSni
            end
        end
  | _ => NoSni
  end.

(** The [while] loop over the extensions; [i] grows by at least four each
    round, so the length of the body is enough fuel. *)
Fixpoint scan_extensions (fuel : nat) (body : bytes) (ext_end i : nat) : SniScan :=
  match fuel with
  | 0 => NoSni
  | S fuel =>
      if i + 4 <=? Nat.min ext_end (length body) then
        match get_be16 i body, get_be16 (i + 2) body with
        | Some ext_type, Some ext_len =>
            let i := i + 4 in
            match get_range i (i + ext_len) body with
            | None => NoSni
            | Some ext =>
                if ext_type =? 0 then scan_server_name ext
                else scan_extensions fuel body ext_end (i + ext_len)
            end
        | _, _ => NoSni
        end
      else NoSni
  end.

(** From the handshake body on: skip version and random, session id, cipher
    suites and compression methods. *)
Definition scan_body_hello (body : bytes) : SniScan :=
  let i := 34 in
  match body !! i with
  | None => NotTls
  | Some sid_len =>
      let i := i + (1 + Z.to_nat (b2z sid_len)) in
      match get_be16 i body with
      | None => NotTls
      | Some cs =>
          let i := i + (2 + cs) in
          match body !! i with
          | None => NotTls
          | Some comp_len =>
              let i := i + (1 + Z.to_nat (b2z comp_len)) in
              match get_be16 i body with
              | None => NoSni
              | Some ext_total =>
                  let ext_end := i + 2 + ext_total in
                  scan_extensions (length body) body ext_end (i + 2)
              end
          end
      end
  end.

Definition scan_client_hello_sni (buf : bytes) : SniScan :=
  match buf with
  | ty :: _ :: _ :: l0 :: l1 :: _ =>
      if negb (b2z ty =? 22)%Z then NotTls
      else
        let record_len := Z.to_nat (be16 l0 l1) in
        match get_range 5 (5 + record_len) buf with
        | None => Incomplete
        | Some record =>
            match record with
            | hty :: h1 :: h2 :: h3 :: b =>
                if negb (b2z hty =? 1)%Z then NotTls
                else
                  let hs_len := Z.to_nat (b2z h1 * 65536 + b2z h2 * 256 + b2z h3) in
                  if hs_len <=? length b then scan_body_hello (take hs_len b) else NoSni
            | _ => NotTls
            end
        end
  | _ => Incomplete
  end.

(** ** SOCKS5 requests: the wire format *)

Inductive SocksAddr : Type :=
| SocksV4 (a : bytes)
| SocksDomain (name : bytes)
| SocksV6 (a : bytes).

Definition socks_addr_wf (a : SocksAddr) : Prop :=
  match a with
  | SocksV4 a => length a = 4
  | SocksDomain name => length name < 256 ∧ utf8_valid name = true
  | SocksV6 a => length a = 16
  end.

Definition socks_addr_wire (a : SocksAddr) : bytes :=
  match a with
  | SocksV4 a => Byte.x01 :: a
  | SocksDomain name => Byte.x03 :: z2b (Z.of_nat (length name)) :: name
  | SocksV6 a => Byte.x04 :: a
  end.

Definition socks_request_wire (rsv : byte) (a : SocksAddr) (port rest : bytes) : bytes :=
  Byte.x05 :: Byte.x01 :: rsv :: socks_addr_wire a ++ port ++ rest.

Definition socks_host (a : SocksAddr) : bytes :=
  match a with
  | SocksV4 a => show_ipv4 (be_value a)
  | SocksDomain name => to_ascii_lowercase name
  | SocksV6 a => show_ipv6 (be_value a)
  end.

Lemma b2z_eqb (b c : byte) : (b2z b =? b2z c)%Z = true ↔ b = c.
Proof. rewrite Z.eqb_eq. split; [apply b2z_inj|by intros ->]. Qed.

Lemma show_octets_ipv4 a b c d :
  show_ipv4 (be_value [a; b; c; d]) = join_with ["."%byte] (map (fun x => show_dec (b2z x)) [a; b; c; d]).
Proof.
  unfold show_ipv4. f_equal. rewrite <- (map_map b2z show_dec). f_equal.
  unfold octets, be_value. simpl fold_left.
  pose proof (b2z_range a). pose proof (b2z_range b). pose proof (b2z_range c). pose proof (b2z_range d).
  assert (∀ x k r, 0 <= r < k → (x * k + r) / k = x)%Z as Hdiv
    by (intros x k r Hr; rewrite Z.div_add_l, (Z.div_small r) by lia; lia).
  assert (∀ x r, 0 <= r < 256 → (x * 256 + r) mod 256 = r)%Z as Hmod
    by (intros x r Hr; rewrite Z.add_comm, Z.mod_add, Z.mod_small by lia; lia).
  set (v := ((((0 * 256 + b2z a) * 256 + b2z b) * 256 + b2z c) * 256 + b2z d)%Z).
  replace (v / 16777216)%Z with (b2z a)
    by (replace v with (b2z a * 16777216 + (b2z b * 65536 + b2z c * 256 + b2z d))%Z by (unfold v; lia);
        rewrite Hdiv by lia; done).
  replace (v / 65536)%Z with (b2z a * 256 + b2z b)%Z
    by (replace v with ((b2z a * 256 + b2z b) * 65536 + (b2z c * 256 + b2z d))%Z by (unfold v; lia);
        rewrite Hdiv by lia; done).
  replace (v / 256)%Z with ((b2z a * 256 + b2z b) * 256 + b2z c)%Z
    by (replace v with (((b2z a * 256 + b2z b) * 256 + b2z c) * 256 + b2z d)%Z by (unfold v; lia);
        rewrite Hdiv by lia; done).
  unfold v. by rewrite !Hmod by done.
Qed.

Lemma socks5_address_wire rsv a port rest :
  socks_addr_wf a →
  socks5_address (default Byte.x00 (head (socks_addr_wire a))) (socks_request_wire rsv a port rest)
  = Ok (socks_host a, 3 + length (socks_addr_wire a)).
Proof.
  destruct a as [a|n|a]; intros Hwf; cbn [socks_addr_wf] in Hwf; unfold socks5_address, socks_request_wire;
    cbn [socks_addr_wire head default].
  - change (b2z Byte.x01 =? 1)%Z with true. cbv iota.
    assert (get_range 4 8 (Byte.x05 :: Byte.x01 :: rsv :: (Byte.x01 :: a) ++ port ++ rest) = Some a) as ->.
    { apply (get_range_app [Byte.x05; Byte.x01; rsv; Byte.x01]); simpl; lia. }
    destruct a as [|a [|b [|c [|d []]]]]; try discriminate Hwf. cbn [ok_or result_bind socks_host length Nat.add].
    by rewrite show_octets_ipv4.
  - destruct Hwf as [Hlen Hv].
    change (b2z Byte.x03 =? 1)%Z with false. change (b2z Byte.x03 =? 3)%Z with true. cbv iota.
    simpl lookup. cbn [ok_or result_bind].
    rewrite b2z_z2b_small by lia. rewrite Nat2Z.id.
    assert (get_range 5 (5 + length n)
      (Byte.x05 :: Byte.x01 :: rsv :: (Byte.x03 :: z2b (Z.of_nat (length n)) :: n) ++ port ++ rest) = Some n) as ->.
    { apply (get_range_app [Byte.x05; Byte.x01; rsv; Byte.x03; z2b (Z.of_nat (length n))]); simpl; lia. }
    cbn [ok_or result_bind]. unfold from_utf8. rewrite Hv. done.
  - change (b2z Byte.x04 =? 1)%Z with false. change (b2z Byte.x04 =? 3)%Z with false.
    change (b2z Byte.x04 =? 4)%Z with true. cbv iota.
    assert (get_range 4 20 (Byte.x05 :: Byte.x01 :: rsv :: (Byte.x04 :: a) ++ port ++ rest) = Some a) as ->.
    { apply (get_range_app [Byte.x05; Byte.x01; rsv; Byte.x04]); simpl; lia. }
    cbn [ok_or result_bind length]. by rewrite Hwf.
Qed.

(** Reading what was written. *)
Lemma parse_socks5_wire rsv a p0 p1 rest :
  socks_addr_wf a →
  parse_socks5_request (socks_request_wire rsv a [p0; p1] rest)
  = Ok {| ct_host := socks_host a; ct_port := be16 p0 p1 |}.
Proof.
  intros Hwf. pose proof (socks5_address_wire rsv a [p0; p1] rest Hwf) as H.
  assert (get_range (3 + length (socks_addr_wire a)) (3 + length (socks_addr_wire a) + 2)
            (socks_request_wire rsv a [p0; p1] rest) = Some [p0; p1]) as Hp.
  { unfold socks_request_wire.
    apply (get_range_app (Byte.x05 :: Byte.x01 :: rsv :: socks_addr_wire a) [p0; p1] rest); simpl; lia. }
  unfold parse_socks5_request. unfold socks_request_wire in *.
  destruct a as [a|n|a]; cbn [socks_addr_wire app head default from_option] in *; unfold id in *;
    change (negb (b2z Byte.x05 =? 5)%Z) with false; change (negb (b2z Byte.x01 =? 1)%Z) with false;
    cbv iota; rewrite H; cbn [result_bind]; rewrite Hp; done.
Qed.

Lemma get_range_tail {A} (pre l : list A) a b r :
  a = length pre → get_range a b (pre ++ l) = Some r → ∃ post, l = r ++ post ∧ length r = b - a.
Proof.
  intros -> H. unfold get_range in H. case_bool_decide as E; [|done]. injection H as <-.
  rewrite drop_app_length. exists (drop (b - length pre) l). split; [by rewrite take_drop|].
  rewrite length_app in E. rewrite length_take. lia.
Qed.

Lemma ok_or_Ok {A E} (o : option A) (e : E) a : ok_or o e = Ok a → o = Some a.
Proof. destruct o; simpl; congruence. Qed.

Lemma socks5_address_inv rsv atyp rest hp :
  socks5_address atyp (Byte.x05 :: Byte.x01 :: rsv :: atyp :: rest) = Ok hp →
  ∃ a post, socks_addr_wf a ∧ atyp :: rest = socks_addr_wire a ++ post ∧
    hp = (socks_host a, 3 + length (socks_addr_wire a)).
Proof.
  unfold socks5_address. intros H.
  destruct (b2z atyp =? 1)%Z eqn:E1; [|destruct (b2z atyp =? 3)%Z eqn:E3; [|destruct (b2z atyp =? 4)%Z eqn:E4; [|done]]].
  - apply (b2z_eqb atyp Byte.x01) in E1 as ->.
    destruct (get_range 4 8 _) as [a|] eqn:Eg; [|done]. cbn [ok_or result_bind] in H. injection H as <-.
    apply (get_range_tail [Byte.x05; Byte.x01; rsv; Byte.x01]) in Eg as (post & -> & Hl); [|done].
    exists (SocksV4 a), post. split; [done|]. split; [done|].
    destruct a as [|a [|b [|c [|d []]]]]; try discriminate Hl.
    unfold socks_host. rewrite show_octets_ipv4. done.
  - apply (b2z_eqb atyp Byte.x03) in E3 as ->. simpl lookup in H.
    destruct rest as [|len rest]; [done|]. cbn [lookup list_lookup ok_or result_bind] in H.
    destruct (get_range 5 _ _) as [n|] eqn:Eg; [|done]. cbn [ok_or result_bind] in H.
    apply (get_range_tail [Byte.x05; Byte.x01; rsv; Byte.x03; len]) in Eg as (post & -> & Hl); [|done].
    unfold from_utf8 in H. destruct (utf8_valid n) eqn:Ev; [|done]. injection H as <-.
    pose proof (b2z_range len).
    assert (len = z2b (Z.of_nat (length n))) as ->.
    { apply b2z_inj. rewrite b2z_z2b_small by lia. lia. }
    exists (SocksDomain n), post. split; [split; [lia|done]|]. split; [done|].
    simpl. f_equal. rewrite b2z_z2b_small by lia. lia.
  - apply (b2z_eqb atyp Byte.x04) in E4 as ->.
    destruct (get_range 4 20 _) as [a|] eqn:Eg; [|done]. cbn [ok_or result_bind] in H. injection H as <-.
    apply (get_range_tail [Byte.x05; Byte.x01; rsv; Byte.x04]) in Eg as (post & -> & Hl); [|done].
    exists (SocksV6 a), post. split; [done|]. split; [done|]. simpl. by rewrite Hl.
Qed.

(** A SOCKS5 request is accepted exactly when it is a CONNECT with a
    complete IPv4, domain or IPv6 address and a port; the target is then the
    address and port on the wire. *)
Theorem socks5_request_iff req t :
  parse_socks5_request req = Ok t ↔
  ∃ rsv a p0 p1 rest, socks_addr_wf a ∧ req = socks_request_wire rsv a [p0; p1] rest ∧
    t = {| ct_host := socks_host a; ct_port := be16 p0 p1 |}.
Proof.
  split.
  2:{ intros (rsv & a & p0 & p1 & rest & Hwf & -> & ->). by apply parse_socks5_wire. }
  unfold parse_socks5_request. destruct req as [|ver [|cmd [|rsv [|atyp rest]]]]; try done.
  destruct (b2z ver =? 5)%Z eqn:Ev; [|done]. apply (b2z_eqb ver Byte.x05) in Ev as ->.
  destruct (b2z cmd =? 1)%Z eqn:Ec; [|done]. apply (b2z_eqb cmd Byte.x01) in Ec as ->.
  cbn [negb]. destruct (socks5_address _ _) as [hp|e] eqn:Ea; [|done].
  apply socks5_address_inv in Ea as (a & post & Hwf & Heq & ->). cbn [result_bind]. rewrite Heq.
  destruct (get_range _ _ _) as [p|] eqn:Ep; [|done]. cbn [ok_or result_bind].
  destruct p as [|p0 [|p1 [|]]]; try done. intros [= <-].
  apply (get_range_tail (Byte.x05 :: Byte.x01 :: rsv :: socks_addr_wire a)) in Ep as (rest' & -> & _); [|done].
  by exists rsv, a, p0, p1, rest'.
Qed.

(** Every refusal has the reply code the protocol gives it: 1 for a
    request that is cut short or not SOCKS5, 7 for another command, 8 for
    another address type. *)
Theorem socks5_reject_reason req r :
  parse_socks5_request req = Err r →
  match r with
  | Malformed => reply_code r = Byte.x01
  | CommandNotSupported => reply_code r = Byte.x07 ∧
      ∃ cmd rest, cmd ≠ Byte.x01 ∧ req = Byte.x05 :: cmd :: rest
  | AddressNotSupported => reply_code r = Byte.x08 ∧
      ∃ rsv atyp rest, (atyp ∉ [Byte.x01; Byte.x03; Byte.x04]) ∧
        req = Byte.x05 :: Byte.x01 :: rsv :: atyp :: rest
  end.
Proof.
  unfold parse_socks5_request. destruct req as [|ver [|cmd [|rsv [|atyp rest]]]]; try by intros [= <-].
  destruct (b2z ver =? 5)%Z eqn:Ev; [|by intros [= <-]]. apply (b2z_eqb ver Byte.x05) in Ev as ->.
  destruct (b2z cmd =? 1)%Z eqn:Ec; cbn [negb].
  2:{ intros [= <-]. split; [done|]. exists cmd, (rsv :: atyp :: rest). split; [|done].
      intros ->. done. }
  apply (b2z_eqb cmd Byte.x01) in Ec as ->. unfold socks5_address.
  destruct (b2z atyp =? 1)%Z eqn:E1; [|destruct (b2z atyp =? 3)%Z eqn:E3; [|destruct (b2z atyp =? 4)%Z eqn:E4]];
    unfold ok_or, result_bind; intros H.
  1-3: repeat (case_match; simplify_eq); done.
  injection H as <-. split; [done|]. exists rsv, atyp, rest. split; [|done].
  rewrite !elem_of_cons, elem_of_nil. intros [->|[->|[->|[]]]]; done.
Qed.

Definition ex_socks : bytes :=
  [Byte.x05; Byte.x01; Byte.x00; Byte.x01; Byte.x0a; Byte.x00; Byte.x00; Byte.x07; Byte.x01; Byte.xbb].

Example ex_socks_target :
  parse_socks5_request ex_socks = Ok {| ct_host := "10.0.0.7"%bs; ct_port := 443 |}.
Proof. vm_compute. reflexivity. Qed.

Lemma socks5_reject_reason_witness :
  reply_code CommandNotSupported = Byte.x07 ∧
  ∃ cmd rest, cmd ≠ Byte.x01 ∧
    [Byte.x05; Byte.x02; Byte.x00; Byte.x01] = Byte.x05 :: cmd :: rest.
Proof.
  apply (socks5_reject_reason [Byte.x05; Byte.x02; Byte.x00; Byte.x01] CommandNotSupported).
  vm_compute. reflexivity.
Defined.

(** ** ClientHello messages: the wire format *)

Record ClientHello : Type := {
  version_random : bytes;
  session_id : bytes;
  cipher_suites : bytes;
  compression_methods : bytes;
  extensions : list (Z * bytes);
}.

Definition extension_wire (e : Z * bytes) : bytes :=
  to_be16 e.1 ++ to_be16 (Z.of_nat (length e.2)) ++ e.2.

Definition extensions_wire (es : list (Z * bytes)) : bytes := concat (map extension_wire es).

Definition hello_prefix (h : ClientHello) : bytes :=
  version_random h ++ [z2b (Z.of_nat (length (session_id h)))] ++ session_id h
  ++ to_be16 (Z.of_nat (length (cipher_suites h))) ++ cipher_suites h
  ++ [z2b (Z.of_nat (length (compression_methods h)))] ++ compression_methods h.

Definition hello_body (h : ClientHello) : bytes :=
  hello_prefix h ++ to_be16 (Z.of_nat (length (extensions_wire (extensions h))))
  ++ extensions_wire (extensions h).

(** One record that holds the whole message. *)
Definition hello_record (v0 v1 : byte) (h : ClientHello) : bytes :=
  [Byte.x16; v0; v1] ++ to_be16 (Z.of_nat (4 + length (hello_body h)))
  ++ [Byte.x01; z2b (Z.of_nat (length (hello_body h)) / 65536);
      z2b (Z.of_nat (length (hello_body h)) / 256); z2b (Z.of_nat (length (hello_body h)))]
  ++ hello_body h.

Record hello_wf (h : ClientHello) : Prop := {
  wf_random : length (version_random h) = 34;
  wf_session : length (session_id h) < 256;
  wf_ciphers : (Z.of_nat (length (cipher_suites h)) < 65536)%Z;
  wf_compression : length (compression_methods h) < 256;
  wf_extensions :
    Forall (fun e => 0 <= e.1 < 65536 ∧ Z.of_nat (length e.2) < 65536)%Z (extensions h);
  wf_total : (4 + Z.of_nat (length (hello_body h)) < 65536)%Z;
}.

(** The answer the scan should give: the first server_name extension. *)
Fixpoint first_sni (es : list (Z * bytes)) : SniScan :=
  match es with
  | [] => NoSni
  | (ty, d) :: es => if (ty =? 0)%Z then scan_server_name d else first_sni es
  end.

Definition server_name_wire (n : bytes) : bytes :=
  to_be16 (Z.of_nat (3 + length n)) ++ [Byte.x00] ++ to_be16 (Z.of_nat (length n)) ++ n.

Lemma get_be16_app pre z post :
  (0 <= z < 65536)%Z → get_be16 (length pre) (pre ++ to_be16 z ++ post) = Some (Z.to_nat z).
Proof.
  intros Hz. unfold get_be16. rewrite (get_range_app pre (to_be16 z) post) by (simpl; lia).
  unfold to_be16. by rewrite be16_to_be16.
Qed.

Lemma get_be16_at pre z post s i :
  s = pre ++ to_be16 z ++ post → i = length pre → (0 <= z < 65536)%Z → get_be16 i s = Some (Z.to_nat z).
Proof. intros -> ->. apply get_be16_app. Qed.

Lemma lookup_at {A} (pre : list A) x post s i :
  s = pre ++ [x] ++ post → i = length pre → s !! i = Some x.
Proof. intros -> ->. by apply list_lookup_middle. Qed.

Lemma extension_wire_length e : length (extension_wire e) = 4 + length e.2.
Proof. unfold extension_wire. rewrite !length_app. simpl. lia. Qed.

Lemma scan_extensions_wire fuel pre es :
  Forall (fun e => 0 <= e.1 < 65536 ∧ Z.of_nat (length e.2) < 65536)%Z es → length es < fuel →
  scan_extensions fuel (pre ++ extensions_wire es) (length (pre ++ extensions_wire es)) (length pre)
  = first_sni es.
Proof.
  intros Hes. revert fuel pre. induction Hes as [|[ty d] es [Hty Hd] Hes IH]; intros fuel pre Hfuel;
    (destruct fuel as [|fuel]; [lia|]); cbn [scan_extensions].
  - unfold extensions_wire. simpl. rewrite app_nil_r, (proj2 (Nat.leb_gt _ _)) by lia. done.
  - simpl in Hty, Hd, Hfuel.
    assert (extensions_wire ((ty, d) :: es)
      = to_be16 ty ++ to_be16 (Z.of_nat (length d)) ++ d ++ extensions_wire es) as ->
      by (unfold extensions_wire; cbn [map concat]; unfold extension_wire at 1; cbn [fst snd]; by rewrite <- !app_assoc).
    rewrite (proj2 (Nat.leb_le _ _)) by (rewrite !length_app; simpl; lia).
    rewrite get_be16_app by done.
    replace (get_be16 (length pre + 2) (pre ++ to_be16 ty ++ to_be16 (Z.of_nat (length d)) ++ d ++ extensions_wire es))
      with (Some (length d)).
    2:{ symmetry. rewrite (app_assoc pre). replace (length pre + 2) with (length (pre ++ to_be16 ty))
          by (rewrite length_app; done).
        rewrite get_be16_app by lia. f_equal. lia. }
    replace (get_range (length pre + 4) (length pre + 4 + length d)
      (pre ++ to_be16 ty ++ to_be16 (Z.of_nat (length d)) ++ d ++ extensions_wire es)) with (Some d).
    2:{ symmetry. rewrite (app_assoc pre), (app_assoc (pre ++ _)).
        apply get_range_app; rewrite !length_app; simpl; lia. }
    cbn [first_sni].
    destruct (Z.eqb_spec ty 0) as [->|Hne]; [done|].
    rewrite (proj2 (Nat.eqb_neq _ 0)) by lia.
    rewrite <- (IH fuel (pre ++ to_be16 ty ++ to_be16 (Z.of_nat (length d)) ++ d)) by lia.
    rewrite !app_assoc. f_equal. rewrite !length_app. simpl. lia.
Qed.

Lemma scan_body_hello_wire h : hello_wf h → scan_body_hello (hello_body h) = first_sni (extensions h).
Proof.
  intros [Hr Hs Hc Hm He Ht]. unfold scan_body_hello.
  pose proof (scan_extensions_wire (length (hello_body h))
    (hello_prefix h ++ to_be16 (Z.of_nat (length (extensions_wire (extensions h))))) (extensions h) He) as Hx.
  assert (length (extensions h) ≤ length (extensions_wire (extensions h))) as Hel.
  { clear. unfold extensions_wire. induction (extensions h) as [|e es IH]; cbn [map concat length]; [lia|].
    rewrite length_app, extension_wire_length. lia. }
  assert (Z.of_nat (length (extensions_wire (extensions h))) < 65536)%Z as Hew.
  { unfold hello_body in Ht. rewrite !length_app in Ht. lia. }
  assert (length (extensions h) < length (hello_body h)) as Hlt.
  { unfold hello_body. rewrite !length_app. simpl. lia. }
  specialize (Hx Hlt). clear Hlt. rewrite <- app_assoc in Hx. fold (hello_body h) in Hx.
  rewrite <- Hx. clear Hx.
  set (ew := extensions_wire (extensions h)) in *.
  assert (hello_body h = version_random h ++ [z2b (Z.of_nat (length (session_id h)))]
    ++ session_id h ++ to_be16 (Z.of_nat (length (cipher_suites h))) ++ cipher_suites h
    ++ [z2b (Z.of_nat (length (compression_methods h)))] ++ compression_methods h
    ++ to_be16 (Z.of_nat (length ew)) ++ ew) as Hb
    by (unfold hello_body, hello_prefix; fold ew; by rewrite <- !app_assoc).
  assert (length (hello_body h) = 34 + 1 + length (session_id h) + 2 + length (cipher_suites h) + 1
    + length (compression_methods h) + 2 + length ew) as Hlen
    by (rewrite Hb, !length_app; simpl; lia).
  set (vr := version_random h) in *. set (sid := session_id h) in *.
  set (cs := cipher_suites h) in *. set (cm := compression_methods h) in *.
  set (bsid := z2b (Z.of_nat (length sid))) in *. set (bcm := z2b (Z.of_nat (length cm))) in *.
  rewrite (lookup_at vr bsid _ _ 34 Hb) by done.
  assert (b2z bsid = Z.of_nat (length sid)) as -> by (apply b2z_z2b_small; lia). rewrite Nat2Z.id.
  rewrite (get_be16_at (vr ++ [bsid] ++ sid) (Z.of_nat (length cs))
             (cs ++ [bcm] ++ cm ++ to_be16 (Z.of_nat (length ew)) ++ ew))
    by (try (rewrite Hb; by rewrite <- !app_assoc); rewrite ?length_app; simpl; lia).
  rewrite Nat2Z.id.
  rewrite (lookup_at (vr ++ [bsid] ++ sid ++ to_be16 (Z.of_nat (length cs)) ++ cs) bcm
             (cm ++ to_be16 (Z.of_nat (length ew)) ++ ew))
    by (try (rewrite Hb; by rewrite <- !app_assoc); rewrite ?length_app; simpl; lia).
  assert (b2z bcm = Z.of_nat (length cm)) as -> by (apply b2z_z2b_small; lia). rewrite Nat2Z.id.
  rewrite (get_be16_at (hello_prefix h) (Z.of_nat (length ew)) ew)
    by (try done; unfold hello_prefix; rewrite ?length_app; fold vr sid cs cm; simpl; lia).
  rewrite Nat2Z.id. f_equal.
  - rewrite Hlen. lia.
  - unfold hello_prefix. fold vr sid cs cm. rewrite !length_app. simpl. lia.
Qed.

Lemma record_length v0 v1 h : length (hello_record v0 v1 h) = 9 + length (hello_body h).
Proof. unfold hello_record. rewrite !length_app. simpl. lia. Qed.

Lemma scan_record v0 v1 h rest :
  hello_wf h → scan_client_hello_sni (hello_record v0 v1 h ++ rest) = first_sni (extensions h).
Proof.
  intros Hwf. pose proof (scan_body_hello_wire h Hwf) as Hs. destruct Hwf as [_ _ _ _ _ Ht].
  unfold scan_client_hello_sni, hello_record.
  set (n := Z.of_nat (length (hello_body h))) in *.
  unfold to_be16. cbn [app]. change (negb (b2z Byte.x16 =? 22)%Z) with false. cbv iota.
  replace (Z.of_nat (4 + length (hello_body h))) with (4 + n)%Z by lia.
  rewrite be16_to_be16 by lia.
  set (hd := [Byte.x01; z2b (n / 65536); z2b (n / 256); z2b n]).
  assert (get_range 5 (5 + Z.to_nat (4 + n))
    (Byte.x16 :: v0 :: v1 :: z2b ((4 + n) / 256) :: z2b (4 + n) ::
     Byte.x01 :: z2b (n / 65536) :: z2b (n / 256) :: z2b n :: hello_body h ++ rest)
    = Some (hd ++ hello_body h)) as ->.
  { apply (get_range_app [Byte.x16; v0; v1; z2b ((4 + n) / 256); z2b (4 + n)] (hd ++ hello_body h) rest).
    - done.
    - rewrite length_app. simpl. lia. }
  unfold hd. cbn [app]. change (negb (b2z Byte.x01 =? 1)%Z) with false. cbv iota.
  rewrite !b2z_z2b.
  replace (n / 65536 mod 256 * 65536 + n / 256 mod 256 * 256 + n mod 256)%Z with n
    by (Z.to_euclidean_division_equations; lia).
  unfold n. rewrite Nat2Z.id, Nat.leb_refl, take_ge by done. done.
Qed.

Lemma scan_server_name_wire n :
  utf8_valid n = true → (Z.of_nat (length n) < 65533)%Z →
  scan_server_name (server_name_wire n) = Sni (to_ascii_lowercase n).
Proof.
  intros Hv Hl. unfold scan_server_name, server_name_wire, to_be16. cbn [app].
  change (negb (b2z Byte.x00 =? 0)%Z) with false. cbv iota.
  rewrite be16_to_be16, Nat2Z.id by lia.
  assert (∀ a b c d e, get_range 5 (5 + length n) (a :: b :: c :: d :: e :: n) = Some n) as ->.
  { intros a b c d e. pose proof (get_range_app [a; b; c; d; e] n [] 5 (5 + length n) eq_refl eq_refl) as H.
    by rewrite app_nil_r in H. }
  unfold from_utf8. by rewrite Hv.
Qed.

(** The scan finds the server name: on a record that holds a whole
    ClientHello, whatever follows it, the result is what the first server_name
    extension says, and no name when there is no such extension; a name is
    returned in lower case. *)
Theorem sni_scan_complete v0 v1 h rest :
  hello_wf h →
  scan_client_hello_sni (hello_record v0 v1 h ++ rest) = first_sni (extensions h) ∧
  ∀ pre n post, extensions h = pre ++ (0%Z, server_name_wire n) :: post →
    Forall (fun e => e.1 ≠ 0%Z) pre → utf8_valid n = true → (Z.of_nat (length n) < 65533)%Z →
    scan_client_hello_sni (hello_record v0 v1 h ++ rest) = Sni (to_ascii_lowercase n).
Proof.
  intros Hwf. rewrite scan_record by done. split; [done|]. intros pre n post -> Hpre Hv Hl.
  induction Hpre as [|[ty d] pre Hty _ IH]; simpl.
  - by apply scan_server_name_wire.
  - simpl in Hty. by rewrite (proj2 (Z.eqb_neq _ _)).
Qed.

(** On a strict prefix of such a record the scan waits for more. *)
Theorem sni_scan_waits v0 v1 h pre rest :
  hello_wf h → hello_record v0 v1 h = pre ++ rest → rest ≠ [] →
  scan_client_hello_sni pre = Incomplete.
Proof.
  intros [_ _ _ _ _ Ht] Heq Hrest. pose proof (record_length v0 v1 h) as Hl.
  set (n := Z.of_nat (length (hello_body h))) in *. unfold hello_record in Heq.
  unfold to_be16 in Heq. cbn [app] in Heq.
  destruct pre as [|t [|x [|y [|l0 [|l1 pre]]]]]; try done. injection Heq as <- <- <- <- <- Heq.
  unfold scan_client_hello_sni. change (negb (b2z Byte.x16 =? 22)%Z) with false. cbv iota.
  replace (Z.of_nat (4 + length (hello_body h))) with (4 + n)%Z by lia.
  rewrite be16_to_be16 by lia.
  apply (f_equal length) in Heq. rewrite length_app in Heq. simpl in Heq.
  destruct rest as [|r rest]; [done|]. simpl in Heq.
  unfold get_range. rewrite bool_decide_false; [done|]. simpl. lia.
Qed.

Definition ex_hello : ClientHello :=
  {| version_random := replicate 34 Byte.x03; session_id := "id"%bs; cipher_suites := "abcd"%bs;
     compression_methods := [Byte.x00];
     extensions := [(10%Z, "xy"%bs); (0%Z, server_name_wire "Api.Example.com"%bs)] |}.

Lemma ex_hello_wf : hello_wf ex_hello.
Proof.
  split.
  - reflexivity.
  - simpl. lia.
  - by vm_compute.
  - simpl. lia.
  - repeat (apply Forall_cons; split); [..|by apply Forall_nil]; by vm_compute.
  - by vm_compute.
Qed.

Example ex_hello_sni :
  scan_client_hello_sni (hello_record Byte.x03 Byte.x01 ex_hello) = Sni "api.example.com"%bs.
Proof. vm_compute. reflexivity. Qed.

Lemma sni_scan_complete_witness :
  scan_client_hello_sni (hello_record Byte.x03 Byte.x01 ex_hello ++ "zz"%bs)
  = Sni (to_ascii_lowercase "Api.Example.com"%bs).
Proof.
  apply (sni_scan_complete Byte.x03 Byte.x01 ex_hello "zz"%bs) with (pre := [(10%Z, "xy"%bs)]) (post := []).
  - apply ex_hello_wf.
  - reflexivity.
  - repeat constructor. discriminate.
  - vm_compute. reflexivity.
  - by vm_compute.
Defined.

Lemma sni_scan_waits_witness :
  scan_client_hello_sni (take 20 (hello_record Byte.x03 Byte.x01 ex_hello)) = Incomplete.
Proof.
  apply (sni_scan_waits Byte.x03 Byte.x01 ex_hello _ (drop 20 (hello_record Byte.x03 Byte.x01 ex_hello))).
  - apply ex_hello_wf.
  - by rewrite take_drop.
  - vm_compute. discriminate.
Defined.

(** ** CONNECT request lines *)

Definition all_graphic (s : bytes) : Prop := Forall (fun b => is_ascii_graphic b = true) s.

Lemma split_ws_word cur g rest :
  all_graphic g → cur ++ g ≠ [] →
  split_ws 0 cur (g ++ " "%byte :: rest) = (cur ++ g) :: split_ws 0 [] rest.
Proof.
  intros Hg. revert cur. induction Hg as [|b g Hb _ IH]; intros cur Hne.
  - rewrite app_nil_r in *. simpl. by destruct cur.
  - cbn [app split_ws]. rewrite ws_head_graphic by done.
    rewrite IH by (by destruct cur). by rewrite <- app_assoc.
Qed.

Lemma split_ws_last cur g : all_graphic g → cur ++ g ≠ [] → split_ws 0 cur g = [cur ++ g].
Proof.
  intros Hg. revert cur. induction Hg as [|b g Hb _ IH]; intros cur Hne.
  - rewrite app_nil_r in *. simpl. by destruct cur.
  - cbn [split_ws]. rewrite ws_head_graphic by done.
    rewrite IH by (by destruct cur). by rewrite <- app_assoc.
Qed.

Lemma first_line_crlf l tail :
  (Byte.x0a ∉ l) → first_line (l ++ [Byte.x0d; Byte.x0a] ++ tail) = Some l.
Proof.
  intros Hl. unfold first_line.
  assert (split_once Byte.x0a (l ++ [Byte.x0d; Byte.x0a] ++ tail) = Some (l ++ [Byte.x0d], tail)) as ->.
  { apply split_once_Some. split; [by rewrite <- app_assoc|]. set_solver. }
  rewrite (proj2 (strip_suffix_Some [Byte.x0d] (l ++ [Byte.x0d]) l) eq_refl).
  by destruct l.
Qed.

Lemma graphic_no_nl s : all_graphic s → Byte.x0a ∉ s.
Proof. intros Hs Hin. unfold all_graphic in Hs. rewrite Forall_forall in Hs. by discriminate (Hs _ Hin). Qed.

(** A request line with the given authority. *)
Definition connect_head (authority tail : bytes) : bytes :=
  ("CONNECT "%bs ++ authority ++ " HTTP/1.1"%bs) ++ [Byte.x0d; Byte.x0a] ++ tail.

Lemma parse_connect_head authority tail :
  all_graphic authority → authority ≠ [] →
  parse_connect (connect_head authority tail)
  = '(h, p) ← split_authority authority 443; Some {| ct_host := h; ct_port := p |}.
Proof.
  intros Hg Hne. unfold parse_connect, connect_head. rewrite first_line_crlf.
  2:{ rewrite !not_elem_of_app. split; [by apply (bool_decide_unpack _)|].
      split; [by apply graphic_no_nl|by apply (bool_decide_unpack _)]. }
  cbn [mbind option_bind]. unfold split_whitespace.
  change ("CONNECT "%bs ++ authority ++ " HTTP/1.1"%bs)
    with ("CONNECT"%bs ++ " "%byte :: authority ++ " "%byte :: "HTTP/1.1"%bs).
  rewrite split_ws_word by (try done; by repeat constructor).
  rewrite split_ws_word by done. simpl app. by rewrite bool_decide_true.
Qed.

Lemma show_dec_graphic z : (0 <= z)%Z → all_graphic (show_dec z).
Proof.
  intros Hz. eapply Forall_impl; [by apply show_dec_digits|]. intros b. byte_cases b; done.
Qed.

Lemma show_dec_no_colon z : (0 <= z)%Z → ":"%byte ∉ show_dec z.
Proof.
  intros Hz Hin. pose proof (show_dec_digits z Hz) as H. rewrite Forall_forall in H.
  by discriminate (H _ Hin).
Qed.

Lemma strip_prefix_head c s : head s ≠ Some c → strip_prefix [c] s = None.
Proof. destruct s as [|b s]; simpl; [done|]. intros H. case_bool_decide; congruence. Qed.

Lemma split_authority_host_port h port dp :
  (":"%byte ∉ h) → head (h ++ [":"%byte]) ≠ Some "["%byte → (0 <= port <= u16_max)%Z →
  split_authority (h ++ ":"%byte :: show_dec port) dp = Some (to_ascii_lowercase h, port).
Proof.
  intros Hc Hh Hp. unfold split_authority.
  rewrite strip_prefix_head by (destruct h; simpl in *; congruence).
  rewrite (proj2 (rsplit_once_Some ":"%byte _ h (show_dec port))) by (split; [done|apply show_dec_no_colon; lia]).
  unfold contains_byte. rewrite bool_decide_false by done. simpl.
  unfold parse_u16. by rewrite parse_show_dec by (unfold u16_max, u64_max in *; lia).
Qed.

(** Round trip: a CONNECT line for [host:port] gives that host in lower
    case and that port; without a port it gives 443; a bracketed IPv6 literal
    gives the address between the brackets. *)
Theorem connect_round_trip h port tail :
  all_graphic h → h ≠ [] → (":"%byte ∉ h) → ("["%byte ∉ h) → (0 <= port <= u16_max)%Z →
  parse_connect (connect_head (h ++ ":"%byte :: show_dec port) tail)
    = Some {| ct_host := to_ascii_lowercase h; ct_port := port |} ∧
  parse_connect (connect_head h tail) = Some {| ct_host := to_ascii_lowercase h; ct_port := 443 |} ∧
  ∀ v6, all_graphic v6 → ("]"%byte ∉ v6) →
    parse_connect (connect_head ("["%byte :: v6 ++ "]:"%bs ++ show_dec port) tail)
    = Some {| ct_host := to_ascii_lowercase v6; ct_port := port |}.
Proof.
  intros Hg Hne Hc Hb Hp. split; [|split].
  - rewrite parse_connect_head; [|apply Forall_app; split; [done|constructor; [done|apply show_dec_graphic; lia]]|by destruct h].
    rewrite split_authority_host_port; [done|done| |done].
    destruct h as [|b h]; [done|]. simpl. intros [= ->]. set_solver.
  - rewrite parse_connect_head by done. unfold split_authority.
    rewrite strip_prefix_head by (destruct h as [|b h]; [done|]; simpl; intros [= ->]; set_solver).
    by rewrite (proj2 (rsplit_once_None _ _) Hc).
  - intros v6 Hv Hnb. rewrite parse_connect_head; [|constructor; [done|]; apply Forall_app; split;
      [done|apply Forall_app; split; [by repeat constructor|apply show_dec_graphic; lia]]|done].
    unfold split_authority. simpl strip_prefix.
    assert (find_byte (fun c => c ≟ "]"%byte) (v6 ++ "]:"%bs ++ show_dec port) = Some (length v6)) as Hf.
    { clear -Hnb. induction v6 as [|b v6 IH]; [done|]. cbn [app find_byte].
      rewrite not_elem_of_cons in Hnb. destruct Hnb as [Hb Hnb].
      rewrite bool_decide_false by done. specialize (IH Hnb). cbn [app] in IH. by rewrite IH. }
    cbn [app] in Hf |- *. rewrite Hf. cbn [mbind option_bind].
    rewrite take_app_length. replace (length v6 + 1) with (length (v6 ++ ["]"%byte])) by (rewrite length_app; done).
    change (v6 ++ "]"%byte :: ":"%byte :: show_dec port) with (v6 ++ ["]"%byte] ++ ":"%byte :: show_dec port).
    rewrite (app_assoc v6), drop_app_length. simpl strip_prefix. rewrite bool_decide_true by done.
    unfold parse_u16. by rewrite parse_show_dec by (unfold u16_max, u64_max in *; lia).
Qed.

Lemma connect_round_trip_witness :
  parse_connect (connect_head "Api.example.com:8443"%bs []) =
    Some {| ct_host := to_ascii_lowercase "Api.example.com"%bs; ct_port := 8443 |}.
Proof.
  apply (connect_round_trip "Api.example.com"%bs 8443 []).
  - by repeat constructor.
  - discriminate.
  - by apply (bool_decide_unpack _).
  - by apply (bool_decide_unpack _).
  - split; by vm_compute.
Defined.
