(* ===== verification/DnsWire.v ===== *)
(** * DNS messages ([hematite-dns/src/wire.rs]) *)

From S2P Require Import Prelude Utf8 Net.

Definition TYPE_A : Z := 1.
Definition TYPE_CNAME : Z := 5.
Definition TYPE_AAAA : Z := 28.
Definition CLASS_IN : Z := 1.
Definition RCODE_NOERROR : Z := 0.
Definition RCODE_SERVFAIL : Z := 2.

Record Query : Type := {
  q_id : Z;
  q_rd : bool;
  q_name : bytes;
  q_type : Z;
  q_class : Z;
  question_raw : bytes;
}.

(** ** Reading a query *)

(** The loop over the labels, from offset [i] with the name read so far; a
    round moves [i] forward, so the length of the message is enough fuel.
    The result is the name and the offset after the root label. *)
Fixpoint read_labels (fuel : nat) (msg : bytes) (i : nat) (name : bytes) : option (bytes * nat) :=
  match fuel with
  | 0 => None
  | S fuel =>
      len ← msg !! i;
      let len := b2z len in
      if (len =? 0)%Z then Some (name, i + 1)
      else if negb (Z.land len 192 =? 0)%Z then None
      else
        let name := if name ≟ [] then name else name ++ ["."%byte] in
        let len := Z.to_nat len in
        label ← get_range (i + 1) (i + 1 + len) msg;
        read_labels fuel msg (i + (1 + len)) (name ++ from_utf8_lossy label)
  end.

Definition parse_query (msg : bytes) : option Query :=
  match msg with
  | m0 :: m1 :: m2 :: m3 :: m4 :: m5 :: _ :: _ :: _ :: _ :: _ :: _ :: _ =>
      let id := be16 m0 m1 in
      let flags := be16 m2 m3 in
      if negb (Z.land flags 32768 =? 0)%Z then None
      else
        let rd := negb (Z.land flags 256 =? 0)%Z in
        let qdcount := be16 m4 m5 in
        if (qdcount <? 1)%Z then None
        else
          '(name, i) ← read_labels (length msg) msg 12 [];
          t0 ← msg !! i; t1 ← msg !! (i + 1);
          c0 ← msg !! (i + 2); c1 ← msg !! (i + 3);
          raw ← get_range 12 (i + 4) msg;
          Some {| q_id := id; q_rd := rd; q_name := to_ascii_lowercase name;
                  q_type := be16 t0 t1; q_class := be16 c0 c1; question_raw := raw |}
  | _ => None
  end.

(** ** Writing a response *)

(** [label.len() as u8] keeps the low eight bits. *)
Definition encode_label (label : bytes) : bytes := z2b (Z.of_nat (length label)) :: label.

Definition encode_name (name : bytes) : bytes :=
  concat (map encode_label (List.filter (fun l => negb (l ≟ [])) (split_on "."%byte name)))
  ++ [Byte.x00].

Inductive Answer : Type :=
| AnswerA (ip : Z) (ttl : Z)
| AnswerCname (name : bytes) (ttl : Z).

Definition header (id : Z) (rd aa : bool) (rcode ancount : Z) : bytes :=
  let flags := 32768%Z in
  let flags := if aa then Z.lor flags 1024 else flags in
  let flags := if rd then Z.lor flags 256 else flags in
  let flags := Z.lor flags 128 in
  let flags := Z.lor flags (Z.land rcode 15) in
  to_be16 id ++ to_be16 flags ++ [Byte.x00; Byte.x01] ++ to_be16 ancount
  ++ [Byte.x00; Byte.x00; Byte.x00; Byte.x00].

Definition answer_wire (a : Answer) : bytes :=
  [Byte.xc0; Byte.x0c] ++
  match a with
  | AnswerA ip ttl =>
      to_be16 TYPE_A ++ to_be16 CLASS_IN ++ to_be32 ttl ++ to_be16 4 ++ map z2b (octets ip)
  | AnswerCname name ttl =>
      let encoded := encode_name name in
      to_be16 TYPE_CNAME ++ to_be16 CLASS_IN ++ to_be32 ttl
      ++ to_be16 (Z.of_nat (length encoded)) ++ encoded
  end.

Definition build_response (query : Query) (answers : list Answer) (aa : bool) : bytes :=
  header (q_id query) (q_rd query) aa RCODE_NOERROR (Z.of_nat (length answers))
  ++ question_raw query ++ concat (map answer_wire answers).

Definition build_empty_noerror (query : Query) (aa : bool) : bytes := build_response query [] aa.

Definition build_servfail (query : Query) : bytes :=
  header (q_id query) (q_rd query) false RCODE_SERVFAIL 0 ++ question_raw query.

(** ** Queries: the wire format *)

Record QuerySpec : Type := {
  qs_id : Z;
  qs_flags : Z;
  qs_counts : bytes;
  qs_labels : list bytes;
  qs_type : Z;
  qs_class : Z;
  qs_rest : bytes;
}.

(** Labels of ordinary names: 1 to 63 ASCII bytes. *)
Definition label_wf (l : bytes) : Prop :=
  l ≠ [] ∧ length l < 64 ∧ Forall (fun b => is_ascii b = true) l.

Record query_wf (q : QuerySpec) : Prop := {
  wf_id : (0 <= qs_id q < 65536)%Z;
  wf_flags : (0 <= qs_flags q < 32768)%Z;
  wf_counts : length (qs_counts q) = 6;
  wf_labels : Forall label_wf (qs_labels q);
  wf_type : (0 <= qs_type q < 65536)%Z;
  wf_class : (0 <= qs_class q < 65536)%Z;
}.

Definition question_wire (q : QuerySpec) : bytes :=
  concat (map encode_label (qs_labels q)) ++ [Byte.x00] ++ to_be16 (qs_type q) ++ to_be16 (qs_class q).

(** One question, then whatever follows. *)
Definition query_wire (q : QuerySpec) : bytes :=
  to_be16 (qs_id q) ++ to_be16 (qs_flags q) ++ [Byte.x00; Byte.x01] ++ qs_counts q
  ++ question_wire q ++ qs_rest q.

Definition dotted (name label : bytes) : bytes :=
  (if name ≟ [] then name else name ++ ["."%byte]) ++ label.

Lemma label_len l : label_wf l →
  b2z (z2b (Z.of_nat (length l))) = Z.of_nat (length l) ∧ (0 < Z.of_nat (length l) < 64)%Z.
Proof.
  intros (Hne & Hl & _). assert (0 < length l) by (destruct l; [done|simpl; lia]).
  rewrite b2z_z2b_small by lia. lia.
Qed.

(** A length below 64 has the two high bits clear. *)
Lemma land_192 z : (0 <= z < 64)%Z → Z.land z 192 = 0%Z.
Proof.
  intros Hz. assert (forallb (fun z => Z.land z 192 =? 0)%Z (seqZ 0 64) = true) as H by (vm_compute; reflexivity).
  rewrite forallb_forall in H. apply Z.eqb_eq, H, list_elem_of_In, elem_of_seqZ. lia.
Qed.

Lemma read_labels_wire fuel msg pre ls post name :
  Forall label_wf ls → length ls < fuel →
  msg = pre ++ concat (map encode_label ls) ++ [Byte.x00] ++ post →
  read_labels fuel msg (length pre) name
  = Some (fold_left dotted ls name, length pre + length (concat (map encode_label ls)) + 1).
Proof.
  intros Hls. revert fuel pre name. induction Hls as [|l ls Hl Hls IH]; intros fuel pre name Hf Hm;
    (destruct fuel as [|fuel]; [simpl in Hf; lia|]); cbn [read_labels].
  - subst msg. simpl. rewrite list_lookup_middle by done. cbn [mbind option_bind].
    change (b2z Byte.x00 =? 0)%Z with true. cbv iota. f_equal. f_equal. lia.
  - simpl in Hf. destruct (label_len l Hl) as [Hb Hr]. destruct Hl as (Hne & Hlen & Hascii).
    assert (msg !! length pre = Some (z2b (Z.of_nat (length l)))) as ->
      by (subst msg; simpl; by rewrite list_lookup_middle).
    cbn [mbind option_bind]. rewrite Hb, (proj2 (Z.eqb_neq _ _)) by lia.
    rewrite land_192 by lia. cbn [Z.eqb negb]. rewrite Nat2Z.id.
    assert (msg = (pre ++ encode_label l) ++ concat (map encode_label ls) ++ [Byte.x00] ++ post) as Hm'
      by (rewrite Hm; simpl; by rewrite <- !app_assoc).
    rewrite (get_range_at (pre ++ [z2b (Z.of_nat (length l))]) l (concat (map encode_label ls) ++ [Byte.x00] ++ post))
      by (try (rewrite Hm; simpl; by rewrite <- !app_assoc); rewrite length_app; simpl; lia).
    cbn [mbind option_bind]. rewrite from_utf8_lossy_ascii by done.
    assert (length pre + (1 + length l) = length (pre ++ encode_label l)) as ->
      by (rewrite length_app; simpl; lia).
    fold (dotted name l). rewrite (IH fuel _ _ ltac:(lia) Hm'). simpl. do 2 f_equal.
    rewrite !length_app. simpl. lia.
Qed.

(** The name read from labels is the labels joined with dots. *)
Lemma fold_dotted ls name :
  Forall label_wf ls → name ≠ [] →
  fold_left dotted ls name = name ++ concat (map (cons "."%byte) ls).
Proof.
  intros Hls. revert name. induction Hls as [|l ls Hl _ IH]; intros name Hne; simpl; [by rewrite app_nil_r|].
  assert (dotted name l = name ++ "."%byte :: l) as ->
    by (unfold dotted; rewrite bool_decide_false by done; by rewrite <- app_assoc).
  rewrite IH by by destruct name. by rewrite <- app_assoc.
Qed.

Lemma join_concat l ls : join_with ["."%byte] (l :: ls) = l ++ concat (map (cons "."%byte) ls).
Proof.
  revert l. induction ls as [|l' ls IH]; intros l; [by rewrite app_nil_r|].
  rewrite join_with_cons, IH by done. done.
Qed.

Lemma dotted_join ls : Forall label_wf ls → fold_left dotted ls [] = join_with ["."%byte] ls.
Proof.
  destruct 1 as [|l ls Hl Hls]; [done|]. simpl fold_left. rewrite join_concat.
  change (dotted [] l) with l. apply fold_dotted; [done|]. apply Hl.
Qed.

Lemma land_pow2_high f k : (0 <= k)%Z → (0 <= f < 2 ^ k)%Z → Z.land f (2 ^ k) = 0%Z.
Proof.
  intros Hk Hf. apply Z.bits_inj'. intros i Hi. rewrite Z.land_spec, Z.bits_0.
  destruct (Z.eq_dec i k) as [->|Hne].
  - rewrite <- (Z.mod_small f (2 ^ k)), Z.mod_pow2_bits_high by lia. done.
  - rewrite Z.pow2_bits_false by lia. apply andb_false_r.
Qed.

Lemma labels_fit ls : Forall label_wf ls → length ls ≤ length (concat (map encode_label ls)).
Proof. induction 1; simpl; [done|]. rewrite length_app. lia. Qed.

(** Reading what was written. *)
Lemma parse_query_wire q :
  query_wf q →
  parse_query (query_wire q) = Some
    {| q_id := qs_id q; q_rd := negb (Z.land (qs_flags q) 256 =? 0)%Z;
       q_name := to_ascii_lowercase (join_with ["."%byte] (qs_labels q));
       q_type := qs_type q; q_class := qs_class q; question_raw := question_wire q |}.
Proof.
  intros [Hid Hfl Hc Hls Hty Hcl].
  set (ew := concat (map encode_label (qs_labels q))).
  destruct (qs_counts q) as [|c1 [|c2 [|c3 [|c4 [|c5 [|c6 []]]]]]] eqn:Ec; try discriminate Hc. clear Hc.
  set (hd := to_be16 (qs_id q) ++ to_be16 (qs_flags q) ++ [Byte.x00; Byte.x01] ++ [c1; c2; c3; c4; c5; c6]).
  set (msg := query_wire q).
  assert (msg = hd ++ question_wire q ++ qs_rest q) as Hmsg
    by (unfold msg, query_wire, hd; rewrite Ec; by rewrite <- !app_assoc).
  assert (msg = hd ++ ew ++ [Byte.x00] ++ to_be16 (qs_type q) ++ to_be16 (qs_class q) ++ qs_rest q) as Hm
    by (rewrite Hmsg; unfold question_wire; fold ew; by rewrite <- !app_assoc).
  assert (read_labels (length msg) msg 12 [] = Some (join_with ["."%byte] (qs_labels q), 12 + length ew + 1)) as Hr.
  { rewrite <- dotted_join by done. apply (read_labels_wire _ msg hd _ (to_be16 (qs_type q) ++ to_be16 (qs_class q) ++ qs_rest q) [] Hls); [|exact Hm].
    rewrite Hm, !length_app. pose proof (labels_fit _ Hls). simpl. fold ew in H. lia. }
  assert (length hd = 12) as Hhd by done.
  set (i := 12 + length ew + 1) in *.
  assert (msg = (hd ++ ew ++ [Byte.x00]) ++ [z2b (qs_type q / 256); z2b (qs_type q);
    z2b (qs_class q / 256); z2b (qs_class q)] ++ qs_rest q) as Hm4
    by (rewrite Hm; by rewrite <- !app_assoc).
  assert (length (hd ++ ew ++ [Byte.x00]) = i) as Hi by (rewrite !length_app; simpl; lia).
  assert (∀ k, msg !! (i + k) = ([z2b (qs_type q / 256); z2b (qs_type q); z2b (qs_class q / 256);
    z2b (qs_class q)] ++ qs_rest q) !! k) as Hk
    by (intros k; rewrite Hm4, <- Hi, lookup_app_r by lia; f_equal; lia).
  assert (get_range 12 (i + 4) msg = Some (question_wire q)) as Hraw.
  { apply (get_range_at hd (question_wire q) (qs_rest q)); [done|done|].
    unfold question_wire. fold ew. rewrite !length_app. simpl. lia. }
  assert (parse_query msg =
    (let flags := be16 (z2b (qs_flags q / 256)) (z2b (qs_flags q)) in
     if negb (Z.land flags 32768 =? 0)%Z then None
     else if (be16 Byte.x00 Byte.x01 <? 1)%Z then None
     else
       '(name, i) ← read_labels (length msg) msg 12 [];
       t0 ← msg !! i; t1 ← msg !! (i + 1); c0 ← msg !! (i + 2); c1 ← msg !! (i + 3);
       raw ← get_range 12 (i + 4) msg;
       Some {| q_id := be16 (z2b (qs_id q / 256)) (z2b (qs_id q));
               q_rd := negb (Z.land flags 256 =? 0)%Z; q_name := to_ascii_lowercase name;
               q_type := be16 t0 t1; q_class := be16 c0 c1; question_raw := raw |})) as ->.
  { rewrite Hmsg. done. }
  cbv zeta. rewrite !be16_to_be16 by lia. change 32768%Z with (2 ^ 15)%Z. rewrite land_pow2_high by lia.
  change (be16 Byte.x00 Byte.x01 <? 1)%Z with false. cbn [Z.eqb negb]. rewrite Hr. cbn [mbind option_bind].
  rewrite <- (Nat.add_0_r i) at 1. rewrite !Hk, Hraw. cbn [app lookup list_lookup mbind option_bind].
  by rewrite !be16_to_be16 by lia.
Qed.

(** ** Responses: reading the answers back *)

Definition be32 (a b c d : byte) : Z := (be16 a b * 65536 + be16 c d)%Z.

Definition read_rdata (ty ttl : Z) (rdata : bytes) : option Answer :=
  if (ty =? TYPE_A)%Z then
    match rdata with
    | [a; b; c; d] => Some (AnswerA (be32 a b c d) ttl)
    | _ => None
    end
  else if (ty =? TYPE_CNAME)%Z then
    '(name, n) ← read_labels (length rdata) rdata 0 [];
    if n =? length rdata then Some (AnswerCname name ttl) else None
  else None.

(** One resource record whose name is the pointer to the question. *)
Definition read_answer (s : bytes) : option (Answer * bytes) :=
  match s with
  | n0 :: n1 :: t0 :: t1 :: k0 :: k1 :: a :: b :: c :: d :: l0 :: l1 :: r =>
      if (be16 n0 n1 =? 49164)%Z && (be16 k0 k1 =? CLASS_IN)%Z then
        let len := Z.to_nat (be16 l0 l1) in
        rdata ← get_range 0 len r;
        answer ← read_rdata (be16 t0 t1) (be32 a b c d) rdata;
        Some (answer, drop len r)
      else None
  | _ => None
  end.

Fixpoint read_answers (n : nat) (s : bytes) : option (list Answer * bytes) :=
  match n with
  | 0 => Some ([], s)
  | S n => '(a, s) ← read_answer s; '(l, s) ← read_answers n s; Some (a :: l, s)
  end.

Definition u32_wf (z : Z) : Prop := (0 <= z < 2 ^ 32)%Z.

Definition answer_wf (a : Answer) : Prop :=
  match a with
  | AnswerA ip ttl => u32_wf ip ∧ u32_wf ttl
  | AnswerCname name ttl =>
      Forall label_wf (split_on "."%byte name) ∧ u32_wf ttl ∧
      (Z.of_nat (length (encode_name name)) < 65536)%Z
  end.

Lemma be32_to_be32 z :
  u32_wf z → be32 (z2b (z / 16777216)) (z2b (z / 65536)) (z2b (z / 256)) (z2b z) = z.
Proof.
  unfold u32_wf, be32, be16. intros Hz. rewrite !b2z_z2b. Z.to_euclidean_division_equations. lia.
Qed.

Lemma encode_name_labels name :
  Forall label_wf (split_on "."%byte name) →
  encode_name name = concat (map encode_label (split_on "."%byte name)) ++ [Byte.x00].
Proof.
  intros H. unfold encode_name. f_equal. do 2 f_equal.
  induction H as [|l ls Hl _ IH]; simpl; [done|].
  rewrite bool_decide_false by apply Hl. simpl. by rewrite IH.
Qed.

Lemma read_rdata_cname name ttl :
  Forall label_wf (split_on "."%byte name) →
  read_rdata TYPE_CNAME ttl (encode_name name) = Some (AnswerCname name ttl).
Proof.
  intros H. unfold read_rdata. change (TYPE_CNAME =? TYPE_A)%Z with false.
  change (TYPE_CNAME =? TYPE_CNAME)%Z with true. cbv iota.
  rewrite (encode_name_labels name H).
  set (w := concat (map encode_label (split_on "."%byte name))).
  rewrite (read_labels_wire _ (w ++ [Byte.x00]) [] (split_on "."%byte name) [] []);
    [|done| |by rewrite app_nil_r].
  - cbn [mbind option_bind]. rewrite dotted_join, join_split_on by done.
    rewrite length_app. simpl length. fold w. rewrite Nat.add_0_l, Nat.eqb_refl. done.
  - rewrite length_app. pose proof (labels_fit _ H). fold w in H0. simpl. lia.
Qed.

(** The bytes of one record, with its type, TTL and data. *)
Definition record_wire (ty ttl : Z) (rdata : bytes) : bytes :=
  [Byte.xc0; Byte.x0c] ++ to_be16 ty ++ to_be16 CLASS_IN ++ to_be32 ttl
  ++ to_be16 (Z.of_nat (length rdata)) ++ rdata.

Lemma read_answer_record ty ttl rdata rest a :
  (0 <= ty < 65536)%Z → u32_wf ttl → (Z.of_nat (length rdata) < 65536)%Z →
  read_rdata ty ttl rdata = Some a → read_answer (record_wire ty ttl rdata ++ rest) = Some (a, rest).
Proof.
  intros Hty Httl Hlen Ha. unfold record_wire, to_be16, to_be32. cbn [app].
  unfold read_answer. change (be16 Byte.xc0 Byte.x0c =? 49164)%Z with true.
  change (be16 (z2b (CLASS_IN / 256)) (z2b CLASS_IN) =? CLASS_IN)%Z with true. cbn [andb].
  rewrite !be16_to_be16, be32_to_be32, Nat2Z.id by (done || lia).
  rewrite (get_range_at [] rdata rest) by done. cbn [mbind option_bind]. rewrite Ha.
  cbn [mbind option_bind]. by rewrite drop_app_length.
Qed.

Lemma z2b_mod z : z2b (z mod 256) = z2b z.
Proof. apply b2z_inj. rewrite !b2z_z2b. apply Z.mod_mod. lia. Qed.

Lemma octets_be32 ip :
  map z2b (octets ip) = [z2b (ip / 16777216); z2b (ip / 65536); z2b (ip / 256); z2b ip].
Proof. unfold octets. cbn [map]. by rewrite !z2b_mod. Qed.

Lemma read_answer_wire a rest :
  answer_wf a → read_answer (answer_wire a ++ rest) = Some (a, rest).
Proof.
  destruct a as [ip ttl|name ttl]; simpl.
  - intros [Hip Httl]. apply (read_answer_record TYPE_A ttl (map z2b (octets ip))); try done.
    rewrite octets_be32. unfold read_rdata. change (TYPE_A =? TYPE_A)%Z with true. cbv iota.
    by rewrite be32_to_be32.
  - intros (Hls & Httl & Hlen). apply (read_answer_record TYPE_CNAME ttl (encode_name name)); try done.
    by apply read_rdata_cname.
Qed.

Lemma read_answers_wire answers rest :
  Forall answer_wf answers →
  read_answers (length answers) (concat (map answer_wire answers) ++ rest) = Some (answers, rest).
Proof.
  induction 1 as [|a l Ha _ IH]; [done|]. cbn [length map concat read_answers].
  rewrite <- app_assoc, read_answer_wire by done. cbn [mbind option_bind]. by rewrite IH.
Qed.

(** ** Guarantees *)

(** C37 (round trip): a query with ordinary labels is read as it was written:
    its id, recursion bit, lower-cased dotted name, type and class, and the
    question bytes to echo. *)
Theorem query_round_trip q :
  query_wf q →
  parse_query (query_wire q) = Some
    {| q_id := qs_id q; q_rd := negb (Z.land (qs_flags q) 256 =? 0)%Z;
       q_name := to_ascii_lowercase (join_with ["."%byte] (qs_labels q));
       q_type := qs_type q; q_class := qs_class q; question_raw := question_wire q |}.
Proof. apply parse_query_wire. Qed.

Definition ex_query : QuerySpec :=
  {| qs_id := 4660; qs_flags := 256; qs_counts := replicate 6 Byte.x00;
     qs_labels := ["Api"%bs; "example"%bs; "com"%bs]; qs_type := 1; qs_class := 1; qs_rest := [] |}.

Lemma ex_query_wf : query_wf ex_query.
Proof.
  split; try (by vm_compute); try done.
  repeat constructor; simpl; try done; lia.
Qed.

Lemma query_round_trip_witness :
  parse_query (query_wire ex_query) = Some
    {| q_id := 4660; q_rd := true; q_name := "api.example.com"%bs; q_type := 1; q_class := 1;
       question_raw := question_wire ex_query |}.
Proof. apply (query_round_trip ex_query). apply ex_query_wf. Defined.

(** The flags word of a response. *)
Definition response_flags (rd aa : bool) (rcode : Z) : Z :=
  (32768 + (if aa then 1024 else 0) + (if rd then 256 else 0) + 128 + rcode)%Z.

Lemma header_fields id rd aa rcode ancount :
  (0 <= rcode < 16)%Z →
  header id rd aa rcode ancount =
    to_be16 id ++ to_be16 (response_flags rd aa rcode) ++ [Byte.x00; Byte.x01] ++ to_be16 ancount
    ++ [Byte.x00; Byte.x00; Byte.x00; Byte.x00].
Proof.
  intros Hr. unfold header, response_flags. cbv zeta.
  change 15%Z with (Z.ones 4). rewrite Z.land_ones, (Z.mod_small rcode) by lia.
  destruct aa, rd; simpl Z.lor; rewrite (lor_add 4 _ rcode) by (done || lia); done.
Qed.

(** Round trip: a response echoes the query's id, recursion bit and
    question, is marked as a response with the given authority bit, and its
    answer section, read by the rules of RFC 1035, is the answers. *)
Theorem response_round_trip q answers aa :
  Forall answer_wf answers → (Z.of_nat (length answers) < 65536)%Z →
  ∃ answers_raw,
    build_response q answers aa =
      to_be16 (q_id q) ++ to_be16 (response_flags (q_rd q) aa 0) ++ to_be16 1
      ++ to_be16 (Z.of_nat (length answers)) ++ to_be16 0 ++ to_be16 0
      ++ question_raw q ++ answers_raw ∧
    read_answers (length answers) answers_raw = Some (answers, []).
Proof.
  intros Ha Hn. exists (concat (map answer_wire answers)). split.
  - unfold build_response. rewrite header_fields by done. by rewrite <- !app_assoc.
  - rewrite <- (app_nil_r (concat _)). by apply read_answers_wire.
Qed.

Lemma response_round_trip_witness :
  ∃ answers_raw,
    build_response {| q_id := 7; q_rd := true; q_name := "a.b"%bs; q_type := 1; q_class := 1;
                      question_raw := question_wire ex_query |}
      [AnswerA 167772161 60; AnswerCname "x.example.com"%bs 60] true =
      to_be16 7 ++ to_be16 (response_flags true true 0) ++ to_be16 1 ++ to_be16 2
      ++ to_be16 0 ++ to_be16 0 ++ question_wire ex_query ++ answers_raw ∧
    read_answers 2 answers_raw = Some ([AnswerA 167772161 60; AnswerCname "x.example.com"%bs 60], []).
Proof.
  apply (response_round_trip
    {| q_id := 7; q_rd := true; q_name := "a.b"%bs; q_type := 1; q_class := 1;
       question_raw := question_wire ex_query |}
    [AnswerA 167772161 60; AnswerCname "x.example.com"%bs 60] true).
  - repeat (apply Forall_cons; split); [..|by apply Forall_nil].
    + by vm_compute.
    + split; [|by vm_compute]. repeat constructor; simpl; try done; lia.
  - by vm_compute.
Defined.
