(* ===== verification/DnsServer.v ===== *)
(** * The DNS server ([hematite-dns/src/resolve.rs], [server.rs])

    Precedence of static records, passthrough zones and interception, and the
    answer to one request.  The upstream exchange is an argument that
    reads and updates a world; [DnsServe] has the [forward] of the server. *)

From S2P Require Import Prelude Net Matcher DnsWire.

(** ** Resolution ([resolve.rs]) *)

Inductive StaticRecord : Type :=
| RecordA (ip : Z)
| RecordCname (target : bytes).

Record DnsConfig : Type := {
  proxy_ip : Z;
  passthrough : list DomainGlob;
  records : gmap bytes StaticRecord;
  dns_ttl : Z;
}.

Inductive Decision : Type :=
| DAnswer (answers : list Answer)
| DEmptyNoError
| DPassthrough.

Definition normalize (name : bytes) : bytes := default name (strip_suffix ["."%byte] name).

Definition resolve (config : DnsConfig) (query : Query) : Decision :=
  let name := normalize (q_name query) in
  match records config !! name with
  | Some record =>
      match record with
      | RecordA ip =>
          if (q_type query =? TYPE_A)%Z then DAnswer [AnswerA ip (dns_ttl config)]
          else DEmptyNoError
      | RecordCname target =>
          if (q_type query =? TYPE_CNAME)%Z || (q_type query =? TYPE_A)%Z
          then DAnswer [AnswerCname target (dns_ttl config)]
          else DEmptyNoError
      end
  | None =>
      if existsb (fun g => domain_matches g name) (passthrough config) then DPassthrough
      else if (q_type query =? TYPE_A)%Z then DAnswer [AnswerA (proxy_ip config) (dns_ttl config)]
      else DEmptyNoError
  end.

(** ** The server ([server.rs]) *)

Inductive DnsDecisionKind : Type := Static | Intercept | Passthrough | DnsError.

Record DnsServer : Type := {
  ds_config : DnsConfig;
  ds_on_decision : bool;
}.

Section server.
Context {W : Type} (forward : bytes → W → option bytes * W).

(** The calls of the decision callback, when one is attached. *)
Definition callback (s : DnsServer) (k : DnsDecisionKind) : list DnsDecisionKind :=
  if ds_on_decision s then [k] else [].

Definition local_kind (s : DnsServer) (query : Query) : DnsDecisionKind :=
  if bool_decide (is_Some (records (ds_config s) !! default (q_name query) (strip_suffix ["."%byte] (q_name query))))
  then Static else Intercept.

(** The response, the callback calls and the world afterwards. *)
Definition respond (s : DnsServer) (request : bytes) (w : W) :
    option bytes * list DnsDecisionKind * W :=
  match parse_query request with
  | None => (None, [], w)
  | Some query =>
      match resolve (ds_config s) query with
      | DAnswer answers =>
          (Some (build_response query answers true), callback s (local_kind s query), w)
      | DEmptyNoError =>
          (Some (build_empty_noerror query true), callback s (local_kind s query), w)
      | DPassthrough =>
          let '(r, w) := forward request w in
          match r with
          | Some response => (Some response, callback s Passthrough, w)
          | None => (Some (build_servfail query), callback s DnsError, w)
          end
      end
  end.

(** One TCP connection: what the client sends, what is written back.  Both
    [read_exact]s give up when the client sends less. *)
Definition tcp_session (s : DnsServer) (input : bytes) (w : W) : bytes * list DnsDecisionKind * W :=
  match input with
  | l0 :: l1 :: r =>
      match get_range 0 (Z.to_nat (be16 l0 l1)) r with
      | Some request =>
          let '(response, log, w) := respond s request w in
          match response with
          | Some response => (to_be16 (Z.of_nat (length response)) ++ response, log, w)
          | None => ([], log, w)
          end
      | None => ([], [], w)
      end
  | _ => ([], [], w)
  end.

End server.

(** ** Guarantees *)

(** Precedence. A static record always decides; otherwise a passthrough
    zone does; otherwise the name is intercepted: an A query gets the proxy's
    address, anything else an empty answer. *)
Theorem resolve_precedence config query :
  let name := normalize (q_name query) in
  match records config !! name with
  | Some (RecordA ip) =>
      resolve config query = (if (q_type query =? TYPE_A)%Z then DAnswer [AnswerA ip (dns_ttl config)]
                              else DEmptyNoError)
  | Some (RecordCname _) => resolve config query ≠ DPassthrough
  | None =>
      (resolve config query = DPassthrough ↔
       ∃ g, g ∈ passthrough config ∧ domain_matches g name = true) ∧
      (resolve config query ≠ DPassthrough →
       resolve config query = (if (q_type query =? TYPE_A)%Z
                               then DAnswer [AnswerA (proxy_ip config) (dns_ttl config)]
                               else DEmptyNoError))
  end.
Proof.
  unfold resolve. cbv zeta. destruct (records config !! normalize (q_name query)) as [[ip|target]|]; [done| |].
  - by case_match.
  - assert (existsb (fun g => domain_matches g (normalize (q_name query))) (passthrough config) = true ↔
      ∃ g, g ∈ passthrough config ∧ domain_matches g (normalize (q_name query)) = true) as He.
    { rewrite existsb_exists. by setoid_rewrite <- list_elem_of_In. }
    destruct (existsb _ _); [naive_solver|]. split; [|done].
    split; [by case_match|]. intros Hg. by apply He in Hg.
Qed.

(** The name is in a passthrough zone and has no static record. *)
Definition forwarded (s : DnsServer) (request : bytes) : Prop :=
  ∃ query g, parse_query request = Some query ∧
    records (ds_config s) !! normalize (q_name query) = None ∧
    g ∈ passthrough (ds_config s) ∧ domain_matches g (normalize (q_name query)) = true.

Lemma resolve_passthrough s request query :
  parse_query request = Some query → resolve (ds_config s) query = DPassthrough → forwarded s request.
Proof.
  unfold resolve, forwarded. intros Hp Er. cbv zeta in Er.
  destruct (records _ !! _) as [[]|] eqn:Erec; [by case_match|by case_match|].
  destruct (existsb _ _) eqn:Ee; [|by case_match].
  apply existsb_exists in Ee as (g & Hg%list_elem_of_In & Hm). by exists query, g.
Qed.

(** The server asks its upstream only about names in a passthrough zone
    that have no static record; every other request leaves the world as it
    is. *)
Theorem forward_only_passthrough {W} (forward : bytes → W → option bytes * W) s request w :
  (respond forward s request w).2 ≠ w → forwarded s request.
Proof.
  unfold respond. intros H. destruct (parse_query request) as [query|] eqn:Hp; [|done].
  destruct (resolve (ds_config s) query) as [| |] eqn:Er; [done|done|]. by eapply resolve_passthrough.
Qed.

Definition ex_dns : DnsServer :=
  {| ds_config := {| proxy_ip := 167772161; passthrough := [{| suffix := "internal"%bs; wildcard := true |}];
                     records := {[ "static.test"%bs := RecordA 3232235521 ]}; dns_ttl := 60 |};
     ds_on_decision := true |}.

Definition ex_internal : QuerySpec :=
  {| qs_id := 1; qs_flags := 0; qs_counts := replicate 6 Byte.x00; qs_labels := ["db"%bs; "internal"%bs];
     qs_type := 1; qs_class := 1; qs_rest := [] |}.

Lemma forward_only_passthrough_witness :
  ∃ query g, parse_query (query_wire ex_internal) = Some query ∧
    records (ds_config ex_dns) !! normalize (q_name query) = None ∧
    g ∈ passthrough (ds_config ex_dns) ∧ domain_matches g (normalize (q_name query)) = true.
Proof.
  apply (forward_only_passthrough (fun r n => (None, S n)) ex_dns (query_wire ex_internal) 0).
  vm_compute. discriminate.
Defined.

(** Every request that parses gets exactly one response and one call of
    the decision callback; a failed upstream exchange gives SERVFAIL; what
    does not parse is dropped without a trace. *)
Theorem respond_total {W} (forward : bytes → W → option bytes * W) s request w :
  match parse_query request with
  | None => respond forward s request w = (None, [], w)
  | Some query => ∃ response kind w',
      respond forward s request w = (Some response, callback s kind, w') ∧
      (kind = DnsError → (forward request w).1 = None ∧ response = build_servfail query) ∧
      (kind = Passthrough → (forward request w).1 = Some response) ∧
      (kind = Static ∨ kind = Intercept →
       w' = w ∧ ∃ answers, response = build_response query answers true)
  end.
Proof.
  unfold respond. destruct (parse_query request) as [query|]; [|done].
  assert (local_kind s query = Static ∨ local_kind s query = Intercept) as Hk
    by (unfold local_kind; case_match; auto).
  destruct (resolve (ds_config s) query) as [answers| |].
  - eexists _, _, _. split; [done|]. destruct Hk as [->| ->]; naive_solver.
  - eexists _, _, _. split; [done|]. unfold build_empty_noerror. destruct Hk as [->| ->]; naive_solver.
  - destruct (forward request w) as [[r|] w']; simpl; eexists _, _, _; (split; [done|]); naive_solver.
Qed.

(** Over TCP the reply is the UDP reply behind its length, as long as the
    length fits the two bytes of the prefix. *)
Theorem tcp_frames_reply {W} (forward : bytes → W → option bytes * W) s request tail w response log w' :
  respond forward s request w = (Some response, log, w') →
  (Z.of_nat (length request) < 65536)%Z → (Z.of_nat (length response) < 65536)%Z →
  let out := tcp_session forward s (to_be16 (Z.of_nat (length request)) ++ request ++ tail) w in
  out.1.2 = log ∧ out.2 = w' ∧
  ∃ l0 l1, out.1.1 = l0 :: l1 :: response ∧ be16 l0 l1 = Z.of_nat (length response).
Proof.
  intros H Hq Hr. unfold tcp_session, to_be16. cbn [app]. rewrite be16_to_be16, Nat2Z.id by lia.
  rewrite (get_range_at [] request tail) by done. rewrite H. simpl. split; [done|]. split; [done|].
  eexists _, _. split; [done|]. apply be16_to_be16. lia.
Qed.

Definition no_upstream (r : bytes) (w : unit) : option bytes * unit := (None, w).

Lemma tcp_frames_reply_witness :
  let out := tcp_session no_upstream ex_dns
    (to_be16 (Z.of_nat (length (query_wire ex_query))) ++ query_wire ex_query ++ []) tt in
  out.1.2 = [Intercept] ∧ out.2 = tt ∧
  ∃ l0 l1, out.1.1 = l0 :: l1 :: unwrap_or [] (ok_or (respond no_upstream ex_dns (query_wire ex_query) tt).1.1 tt) ∧
    be16 l0 l1 = Z.of_nat (length (unwrap_or [] (ok_or (respond no_upstream ex_dns (query_wire ex_query) tt).1.1 tt))).
Proof.
  apply (tcp_frames_reply no_upstream ex_dns (query_wire ex_query) [] tt); by vm_compute.
Defined.
