(* ===== verification/DnsServe.v ===== *)
(** * The sockets of the DNS server ([hematite-dns/src/server.rs])

    [forward] call by call, and the two loops that serve UDP and TCP: each
    datagram or connection becomes a task, tasks are run in any order, and the
    loop ends when its socket fails.  What the operating system answers (to a
    bind, a connect, a send, a receive) is an input of the task, which then is one
    step; the calls made are its output. *)

From S2P Require Import Prelude Utf8 Net Matcher DnsWire DnsServer.

(** ** The exchange with the upstream resolver *)

Definition UPSTREAM_TIMEOUT : Z := 5.

(** [vec![0u8; 4096]], of [forward] and of [serve_udp]. *)
Definition BUFFER : nat := 4096.

(** [sock.recv(&mut buf)] within the timeout: the timeout passed, the socket
    failed, or a datagram arrived. *)
Inductive Received : Type :=
| Elapsed
| RecvFailed
| Datagram (d : bytes).

(** How the operating system answers the calls of one exchange. *)
Record Answers : Type := {
  bind_ok : bool;
  connect_ok : bool;
  send_ok : bool;
  received : Received;
}.

(** The part of a datagram a receive into a buffer of [cap] bytes keeps:
    the first [n] bytes of the buffer, with [n] what the call returned. *)
Definition recv_into (cap : nat) (d : bytes) : bytes :=
  let n := length d `min` cap in
  let buf := take cap (d ++ replicate cap Byte.x00) in
  take n buf.

Section upstream.
Context {Addr : Type}.

Inductive UdpCall : Type :=
| Bind
| Connect (a : Addr)
| Send (request : bytes)
| Recv (timeout : Z).

(** The response and the calls, each [?] ending the exchange. *)
Definition forward (upstream_resolver : Addr) (answers : Answers) (request : bytes) :
    option bytes * list UdpCall :=
  if negb (bind_ok answers) then (None, [Bind])
  else if negb (connect_ok answers) then (None, [Bind; Connect upstream_resolver])
  else if negb (send_ok answers) then (None, [Bind; Connect upstream_resolver; Send request])
  else
    (match received answers with
     | Elapsed | RecvFailed => None
     | Datagram d => Some (recv_into BUFFER d)
     end,
     [Bind; Connect upstream_resolver; Send request; Recv UPSTREAM_TIMEOUT]).

(** [respond] of a task with these answers, from the calls made so far. *)
Definition respond_calls (upstream : Addr) (s : DnsServer) (request : bytes) (answers : Answers) :
    option bytes * list DnsDecisionKind * list UdpCall :=
  respond (fun request calls => let '(r, more) := forward upstream answers request in (r, calls ++ more))
    s request [].

End upstream.
Arguments UdpCall : clear implicits.

(** ** Accept, spawn, repeat

    The shape of both loops, for jobs of type [Job] and a task body [run]: a
    spawned task is run by the executor whenever its inputs are there, also
    after the loop has returned. *)
Section spawn.
Context {Job In Out : Type} (run : Job → In → Out).

Inductive Task : Type :=
| Spawned (j : Job)
| Finished (j : Job) (i : In).

Record Loop : Type := {
  looping : bool;
  tasks : list Task;
}.

Inductive Event : Type :=
| Accept (j : Job)
| SocketError
| Run (k : nat) (i : In).

Definition loop_step (ev : Event) (l : Loop) : option Loop :=
  match ev with
  | Accept j =>
      if looping l then Some {| looping := true; tasks := tasks l ++ [Spawned j] |} else None
  | SocketError => if looping l then Some {| looping := false; tasks := tasks l |} else None
  | Run k i =>
      match tasks l !! k with
      | Some (Spawned j) => Some {| looping := looping l; tasks := <[k := Finished j i]> (tasks l) |}
      | _ => None
      end
  end.

Fixpoint loop_steps (evs : list Event) (l : Loop) : option Loop :=
  match evs with
  | [] => Some l
  | ev :: evs => l ← loop_step ev l; loop_steps evs l
  end.

Definition loop_start : Loop := {| looping := true; tasks := [] |}.

Definition task_job (t : Task) : Job := match t with Spawned j | Finished j _ => j end.

Definition task_out (t : Task) : option Out :=
  match t with Spawned _ => None | Finished j i => Some (run j i) end.

Definition is_spawned (t : Task) : bool := match t with Spawned _ => true | Finished _ _ => false end.

Definition accepted_job (ev : Event) : option Job := match ev with Accept j => Some j | _ => None end.

Definition is_run (ev : Event) : bool := match ev with Run _ _ => true | _ => false end.

(** How many tasks have not run. *)
Definition waiting (l : Loop) : nat := length (List.filter is_spawned (tasks l)).

Lemma loop_steps_app evs1 evs2 l :
  loop_steps (evs1 ++ evs2) l = (l ← loop_steps evs1 l; loop_steps evs2 l).
Proof.
  revert l. induction evs1 as [|ev evs1 IH]; intros l; simpl; [done|].
  destruct (loop_step ev l) as [l'|]; simpl; [apply IH|done].
Qed.

(** The jobs of the tasks are the accepted ones, in order. *)
Lemma loop_jobs evs l l' :
  loop_steps evs l = Some l' → map task_job (tasks l') = map task_job (tasks l) ++ omap accepted_job evs.
Proof.
  revert l. induction evs as [|ev evs IH]; intros l H; simpl in H; [simplify_eq; by rewrite app_nil_r|].
  destruct (loop_step ev l) as [l1|] eqn:E; [|done]. apply IH in H. rewrite H.
  unfold loop_step in E. destruct ev as [j| |k i]; simpl.
  - destruct (looping l); [|done]. simplify_eq/=. by rewrite map_app, <- app_assoc.
  - destruct (looping l); [|done]. by simplify_eq/=.
  - destruct (tasks l !! k) as [[j|j i']|] eqn:Ek; [|done|done]. simplify_eq/=. f_equal.
    change (map task_job ?x) with (task_job <$> x). rewrite list_fmap_insert. simpl. apply list_insert_id.
    by rewrite list_lookup_fmap, Ek.
Qed.

Lemma filter_length_insert (ts : list Task) k t t' :
  ts !! k = Some t → is_spawned t = true → is_spawned t' = false →
  S (length (List.filter is_spawned (<[k := t']> ts))) = length (List.filter is_spawned ts).
Proof.
  revert k. induction ts as [|u ts IH]; intros [|k] Hk Ht Ht'; try done; simpl in *.
  - simplify_eq. by rewrite Ht, Ht'.
  - specialize (IH k Hk Ht Ht'). destruct (is_spawned u); simpl; lia.
Qed.

(** Every run takes one task off the waiting ones and nothing else does. *)
Lemma loop_waiting evs l l' :
  loop_steps evs l = Some l' →
  waiting l' + length (List.filter is_run evs) = waiting l + length (omap accepted_job evs).
Proof.
  revert l. induction evs as [|ev evs IH]; intros l H; simpl in H; [simplify_eq; simpl; lia|].
  destruct (loop_step ev l) as [l1|] eqn:E; [|done]. apply IH in H.
  unfold loop_step in E. unfold waiting in *. destruct ev as [j| |k i]; simpl;
    change (list_omap _ _ accepted_job evs) with (omap accepted_job evs).
  - destruct (looping l); [|done]. simplify_eq/=. rewrite List.filter_app, length_app in H. simpl in H. lia.
  - destruct (looping l); [|done]. simplify_eq/=. lia.
  - destruct (tasks l !! k) as [[j|j i']|] eqn:Ek; [|done|done]. simplify_eq/=.
    pose proof (filter_length_insert (tasks l) k _ (Finished j i) Ek eq_refl eq_refl). lia.
Qed.

(** A waiting task can run, whatever else has happened, and with any answers. *)
Lemma waiting_can_run l :
  waiting l ≠ 0 → ∃ k, ∀ i, ∃ l', loop_step (Run k i) l = Some l'.
Proof.
  unfold waiting, loop_step. intros H.
  assert (∃ k j, tasks l !! k = Some (Spawned j)) as (k & j & Hk).
  { induction (tasks l) as [|[j|j i] ts IH]; simpl in H; [done|by exists 0, j|].
    destruct (IH H) as (k & j' & Hk). by exists (S k), j'. }
  exists k. intros i. rewrite Hk. eauto.
Qed.

(** When no task can run, the k-th job accepted is finished. *)
Lemma stuck_finished (i : In) evs l :
  loop_steps evs loop_start = Some l → (∀ k i, loop_step (Run k i) l = None) →
  waiting l = 0 ∧
  ∀ k j, omap accepted_job evs !! k = Some j → ∃ i, tasks l !! k = Some (Finished j i).
Proof.
  intros Hl Hstuck. assert (waiting l = 0) as H0.
  { destruct (decide (waiting l = 0)) as [|Hne]; [done|]. destruct (waiting_can_run l Hne) as [k Hk].
    destruct (Hk i) as [l' Hr]. by rewrite Hstuck in Hr. }
  split; [done|]. intros k j Hk. apply loop_jobs in Hl. simpl in Hl. rewrite <- Hl in Hk.
  change (map task_job ?x) with (task_job <$> x) in Hk. rewrite list_lookup_fmap in Hk.
  apply fmap_Some in Hk as ([j'|j' i'] & Hk & Hj); simpl in Hj; subst j'; [|by exists i'].
  exfalso. unfold waiting in H0. apply length_zero_iff_nil in H0.
  apply (not_elem_of_nil (Spawned j)). rewrite <- H0. apply list_elem_of_In, filter_In.
  split; [|done]. apply list_elem_of_In. by eapply list_elem_of_lookup_2.
Qed.

(** Nothing stops the waiting tasks from running: as many runs as there are
    of them leave none. *)
Lemma loop_drains (i : In) n l :
  waiting l = n → ∃ evs l', length evs = n ∧ forallb is_run evs = true ∧
    loop_steps evs l = Some l' ∧ waiting l' = 0.
Proof.
  revert l. induction n as [|n IH]; intros l Hn; [by exists [], l|].
  destruct (waiting_can_run l) as [k Hk]; [lia|]. destruct (Hk i) as [l1 H1].
  assert (waiting l1 = n) as Hn1.
  { pose proof (loop_waiting [Run k i] l l1) as Hw. cbn [loop_steps] in Hw. rewrite H1 in Hw.
    specialize (Hw eq_refl). cbn in Hw. lia. }
  destruct (IH l1 Hn1) as (evs & l' & Hlen & Hall & Hs & H0).
  exists (Run k i :: evs), l'. cbn [loop_steps length]. rewrite H1, Hlen. by repeat split.
Qed.

End spawn.
Arguments Task : clear implicits.
Arguments Loop : clear implicits.
Arguments Event : clear implicits.

(** ** The two servers *)

Section servers.
Context {Addr Peer : Type} (upstream : Addr) (s : DnsServer).

(** What a task leaves: the reply it sends, the decisions it reports and the
    calls it makes upstream.  The job is the datagram as it arrived: it is
    received into the loop's buffer and copied out of it ([buf[..n].to_vec()])
    before the task is spawned, so later datagrams do not touch it. *)
Definition udp_task (job : bytes * Peer) (answers : Answers) :
    option (bytes * Peer) * list DnsDecisionKind * list (UdpCall Addr) :=
  let '(d, peer) := job in
  let request := recv_into BUFFER d in
  let '(response, log, calls) := respond_calls upstream s request answers in
  (match response with Some response => Some (response, peer) | None => None end, log, calls).

(** A connection is the bytes its client sends. *)
Definition tcp_task (input : bytes) (answers : Answers) :
    bytes * list DnsDecisionKind * list (UdpCall Addr) :=
  tcp_session (fun request calls => let '(r, more) := forward upstream answers request in (r, calls ++ more))
    s input [].

End servers.

(** ** Guarantees *)

Lemma recv_into_take cap d : recv_into cap d = take cap d.
Proof.
  unfold recv_into. rewrite take_take. replace ((length d `min` cap) `min` cap) with (length d `min` cap) by lia.
  rewrite take_app_le by lia. destruct (Nat.le_ge_cases (length d) cap).
  - by rewrite Nat.min_l, !take_ge by lia.
  - by rewrite Nat.min_r by lia.
Qed.

(** A question: labels of 1 to 63 bytes, the root label, the type and the
    class. *)
Definition is_question (raw : bytes) : Prop :=
  ∃ ls ty cl, Forall (fun l : bytes => 0 < length l < 64) ls ∧ length ty = 2 ∧ length cl = 2 ∧
    raw = concat (map encode_label ls) ++ [Byte.x00] ++ ty ++ cl.

(** The reply carries the id of the request, has the response bit set, counts
    one question, and its question is the whole first question of the
    request; the answers follow. *)
Definition echoes (request reply : bytes) : Prop :=
  ∃ flags counts question tail,
    reply = take 2 request ++ to_be16 flags ++ [Byte.x00; Byte.x01] ++ counts ++ question ++ tail ∧
    Z.testbit flags 15 = true ∧ length counts = 6 ∧
    is_question question ∧ question `prefix_of` drop 12 request.

(** A byte with the two high bits clear is below 64. *)
Lemma label_length_small b : Z.land (b2z b) 192 = 0%Z → (b2z b < 64)%Z.
Proof.
  intros Hl. destruct (Z.lt_ge_cases (b2z b) 64) as [|Hge]; [done|]. pose proof (b2z_range b).
  assert (forallb (fun z => negb (Z.land z 192 =? 0)%Z) (seqZ 64 192) = true) as H'' by (vm_compute; reflexivity).
  rewrite forallb_forall in H''. specialize (H'' (b2z b)). rewrite Hl in H''.
  discriminate H''. apply list_elem_of_In, elem_of_seqZ. lia.
Qed.

(** The bytes that [read_labels] passes over are labels and the root label. *)
Lemma read_labels_over fuel msg i name name' j :
  read_labels fuel msg i name = Some (name', j) →
  ∃ ls rest, Forall (fun l : bytes => 0 < length l < 64) ls ∧
    drop i msg = concat (map encode_label ls) ++ [Byte.x00] ++ rest ∧
    j = i + length (concat (map encode_label ls)) + 1.
Proof.
  revert i name. induction fuel as [|fuel IH]; intros i name; [done|]. cbn [read_labels].
  intros (b & Hb & H)%bind_Some. pose proof (drop_S _ _ _ Hb) as Hd. cbv zeta in H.
  destruct (Z.eqb_spec (b2z b) 0) as [E0|E0].
  - injection H as <- <-. exists [], (drop (S i) msg). rewrite Hd.
    assert (b = Byte.x00) as -> by (apply b2z_inj; exact E0). split_and!; [done|done|simpl; lia].
  - destruct (Z.eqb_spec (Z.land (b2z b) 192) 0) as [E192|]; [|done]. cbn [negb] in H.
    apply bind_Some in H as (l & Hl & H). apply IH in H as (ls & rest & Hls & Hrest & ->).
    apply get_range_Some in Hl as (pre & post & -> & Hpre & Hlen & _).
    pose proof (label_length_small b E192). pose proof (b2z_range b).
    assert (b = z2b (Z.of_nat (length l))) as Hbl
      by (rewrite <- (z2b_b2z b) at 1; f_equal; lia).
    exists (l :: ls), rest. split_and!; [constructor; [lia|done]| |simpl; rewrite length_app; lia].
    rewrite Hd, Hbl. replace (S i) with (length pre) by lia. rewrite drop_app_length.
    replace (i + (1 + Z.to_nat (b2z b))) with (length (pre ++ l)) in Hrest by (rewrite length_app; lia).
    rewrite app_assoc, drop_app_length in Hrest. rewrite Hrest. simpl. by rewrite <- !app_assoc.
Qed.

Lemma concat_replicate_length {A} n (l : list A) : length (concat (replicate n l)) = n * length l.
Proof. induction n as [|n IH]; simpl; [done|]. rewrite length_app. lia. Qed.

Lemma header_length id rd aa rcode n : length (header id rd aa rcode n) = 12.
Proof. done. Qed.

Lemma parse_query_echo request query :
  parse_query request = Some query →
  to_be16 (q_id query) = take 2 request ∧ is_question (question_raw query) ∧
  question_raw query `prefix_of` drop 12 request.
Proof.
  intros H.
  assert (∃ name i t0 t1 c0 c1, to_be16 (q_id query) = take 2 request ∧
            read_labels (length request) request 12 [] = Some (name, i) ∧
            request !! i = Some t0 ∧ request !! (i + 1) = Some t1 ∧
            request !! (i + 2) = Some c0 ∧ request !! (i + 3) = Some c1 ∧
            get_range 12 (i + 4) request = Some (question_raw query))
    as (name & i & t0 & t1 & c0 & c1 & Hid & Hr & Ht0 & Ht1 & Hc0 & Hc1 & Hg).
  { unfold parse_query in H. set (msg := request) in H at 2 3 4 5 6 7 8.
    do 12 (destruct request as [|? request]; [done|]). fold msg.
    do 2 (case_match; [done|]). apply bind_Some in H as ([name i] & Hr & H).
    apply bind_Some in H as (t0 & Ht0 & H). apply bind_Some in H as (t1 & Ht1 & H).
    apply bind_Some in H as (c0 & Hc0 & H). apply bind_Some in H as (c1 & Hc1 & H).
    apply bind_Some in H as (raw & Hg & H). exists name, i, t0, t1, c0, c1. injection H as <-.
    split_and!; try assumption. apply to_be16_be16. }
  split; [done|]. apply read_labels_over in Hr as (ls & rest & Hls & Hd & Hi).
  apply get_range_Some in Hg as (pre & post & Hreq & Hpre & Hlen & _).
  assert (drop 12 request = question_raw query ++ post) as Hq by (by rewrite Hreq, <- Hpre, drop_app_length).
  split; [|by rewrite Hq; eexists].
  assert (∀ k b, request !! (i + k) = Some b → rest !! k = Some b) as Hk.
  { intros k b Hb. rewrite <- Hb. replace (i + k) with (12 + (i - 12 + k)) by lia.
    rewrite <- lookup_drop, Hd. rewrite app_assoc, lookup_app_r by (rewrite length_app; simpl; lia).
    f_equal. rewrite length_app. simpl. lia. }
  rewrite <- (Nat.add_0_r i) in Ht0. apply Hk in Ht0, Ht1, Hc0, Hc1.
  destruct rest as [|r0 [|r1 [|r2 [|r3 rest]]]]; try done. simplify_eq/=.
  exists ls, [t0; t1], [c0; c1]. split_and!; [done..|].
  rewrite Hd in Hq. apply (f_equal (take (length (question_raw query)))) in Hq.
  rewrite take_app_length in Hq. rewrite <- Hq.
  change (?x ++ Byte.x00 :: t0 :: t1 :: c0 :: c1 :: rest) with (x ++ [Byte.x00; t0; t1; c0; c1] ++ rest).
  rewrite app_assoc, take_app_length'; [done|]. rewrite length_app. simpl. lia.
Qed.

Lemma header_response id rd aa rcode n :
  ∃ flags counts, Z.testbit flags 15 = true ∧ length counts = 6 ∧
    header id rd aa rcode n = to_be16 id ++ to_be16 flags ++ [Byte.x00; Byte.x01] ++ counts.
Proof.
  eexists _, _. split; [|split; [|reflexivity]]; [|done].
  rewrite !Z.lor_spec. by destruct aa, rd; rewrite ?Z.lor_spec.
Qed.

Lemma echoes_header request query aa rcode n tail :
  parse_query request = Some query →
  echoes request (header (q_id query) (q_rd query) aa rcode n ++ question_raw query ++ tail).
Proof.
  intros (Hid & Hw & Hq)%parse_query_echo.
  destruct (header_response (q_id query) (q_rd query) aa rcode n) as (flags & counts & Hf & Hc & ->).
  rewrite Hid, <- !app_assoc. by eexists flags, counts, _, tail.
Qed.

Lemma echoes_local request query answers aa :
  parse_query request = Some query → echoes request (build_response query answers aa).
Proof. apply echoes_header. Qed.

Lemma echoes_servfail request query :
  parse_query request = Some query → echoes request (build_servfail query).
Proof.
  intros H. unfold build_servfail. rewrite <- (app_nil_r (question_raw query)). by apply echoes_header.
Qed.

(** The answers to a query that need no upstream. *)
Definition local_answers (config : DnsConfig) (query : Query) : option (list Answer) :=
  match resolve config query with
  | DAnswer answers => Some answers
  | DEmptyNoError => Some []
  | DPassthrough => None
  end.

(** A parsed query is answered from the configuration without a call, or its
    bytes go upstream and the answer, or SERVFAIL, comes back. *)
Lemma respond_calls_cases {Addr} (upstream : Addr) s request query answers :
  parse_query request = Some query →
  respond_calls upstream s request answers =
    match local_answers (ds_config s) query with
    | Some local => (Some (build_response query local true), callback s (local_kind s query), [])
    | None =>
        match forward upstream answers request with
        | (Some response, calls) => (Some response, callback s Passthrough, calls)
        | (None, calls) => (Some (build_servfail query), callback s DnsError, calls)
        end
    end.
Proof.
  intros Hp. unfold respond_calls, respond, local_answers. rewrite Hp.
  destruct (resolve (ds_config s) query); [done|done|].
  by destruct (forward upstream answers request) as [[response|] calls].
Qed.

(** What [forward] does, whatever it is answered: at most one bind, connect,
    send and receive, in this order, and a reply only out of a receive. *)
Lemma forward_calls {Addr} (upstream : Addr) answers request :
  (forward upstream answers request).2 `prefix_of`
    [Bind; Connect upstream; Send request; Recv UPSTREAM_TIMEOUT] ∧
  ∀ reply, (forward upstream answers request).1 = Some reply →
    ∃ d, received answers = Datagram d ∧ reply = take BUFFER d.
Proof.
  unfold forward.
  destruct (bind_ok answers); simpl; [|split; [by eexists [_; _; _]|done]].
  destruct (connect_ok answers); simpl; [|split; [by eexists [_; _]|done]].
  destruct (send_ok answers); simpl; [|split; [by eexists [_]|done]].
  split; [done|]. destruct (received answers) as [| |d]; try done.
  intros reply [= <-]. exists d. by rewrite recv_into_take.
Qed.

(** What one request may lead to: nothing when it does not parse; a reply
    out of the configuration; or, for a forwarded name, calls that end in a
    relayed datagram or in SERVFAIL. *)
Inductive outcome {Addr} (upstream : Addr) (s : DnsServer) (request : bytes) (answers : Answers) :
    option bytes → list (UdpCall Addr) → Prop :=
| dropped : parse_query request = None → outcome upstream s request answers None []
| local query local_ :
    parse_query request = Some query → local_answers (ds_config s) query = Some local_ →
    outcome upstream s request answers (Some (build_response query local_ true)) []
| relayed d calls :
    forwarded s request → received answers = Datagram d →
    calls `prefix_of` [Bind; Connect upstream; Send request; Recv UPSTREAM_TIMEOUT] →
    outcome upstream s request answers (Some (take BUFFER d)) calls
| unreachable query calls :
    forwarded s request → parse_query request = Some query →
    calls `prefix_of` [Bind; Connect upstream; Send request; Recv UPSTREAM_TIMEOUT] →
    outcome upstream s request answers (Some (build_servfail query)) calls.

Lemma respond_calls_outcome {Addr} (upstream : Addr) s request answers :
  let '(reply, _, calls) := respond_calls upstream s request answers in
  outcome upstream s request answers reply calls.
Proof.
  destruct (parse_query request) as [query|] eqn:Hp.
  - rewrite (respond_calls_cases _ _ _ query) by done.
    destruct (local_answers (ds_config s) query) as [local_|] eqn:El; [by apply local|].
    assert (forwarded s request) as Hf.
    { apply (resolve_passthrough s request query Hp). unfold local_answers in El. by case_match. }
    pose proof (forward_calls upstream answers request) as [Hc Hr].
    destruct (forward upstream answers request) as [[reply|] calls]; simpl in *.
    + destruct (Hr reply eq_refl) as (d & Hd & ->). by apply relayed.
    + by apply unreachable.
  - unfold respond_calls, respond. rewrite Hp. by apply dropped.
Qed.

Lemma calls_only_upstream {Addr} (upstream : Addr) s request calls :
  forwarded s request →
  calls `prefix_of` [Bind; Connect upstream; Send request; Recv UPSTREAM_TIMEOUT] →
  (∀ a, Connect a ∈ calls → a = upstream) ∧ (∀ q, Send q ∈ calls → q = request ∧ forwarded s q).
Proof.
  intros Hf [rest Hr].
  assert (∀ c, c ∈ calls → c ∈ [Bind; Connect upstream; Send request; Recv UPSTREAM_TIMEOUT]) as Hin.
  { intros c Hc. rewrite Hr. set_solver. }
  split; intros x Hx%Hin; repeat (apply elem_of_cons in Hx as [?|Hx]; [by simplify_eq|]);
    by apply not_elem_of_nil in Hx.
Qed.

(** C39 (safety): whatever the order in which datagrams arrive and tasks run, a
    UDP reply goes to the peer whose datagram its task was spawned for.  It is
    a response with the id of that datagram and its whole first question
    (labels, type and class), or it is what the upstream
    resolver sent back for a name in a passthrough zone without a static record.
    Only the resolver is ever contacted, and only with the datagram of such a
    name. *)
Theorem udp_replies_to_its_peer {Addr Peer} (upstream : Addr) s evs l k d (peer0 : Peer) answers reply peer log calls :
  loop_steps evs loop_start = Some l →
  tasks l !! k = Some (Finished (d, peer0) answers) →
  udp_task upstream s (d, peer0) answers = (Some (reply, peer), log, calls) →
  omap accepted_job evs !! k = Some (d, peer) ∧
  (echoes (take BUFFER d) reply ∨
   forwarded s (take BUFFER d) ∧ ∃ up, received answers = Datagram up ∧ reply = take BUFFER up) ∧
  (∀ a, Connect a ∈ calls → a = upstream) ∧
  (∀ q, Send q ∈ calls → q = take BUFFER d ∧ forwarded s q).
Proof.
  intros Hl Hk Ht. unfold udp_task in Ht. rewrite recv_into_take in Ht.
  pose proof (respond_calls_outcome upstream s (take BUFFER d) answers) as Ho.
  destruct (respond_calls upstream s (take BUFFER d) answers) as [[[r|] log'] calls']; [|done]. simplify_eq.
  split.
  { apply loop_jobs in Hl. simpl in Hl. rewrite <- Hl.
    change (map task_job ?x) with (task_job <$> x). by rewrite list_lookup_fmap, Hk. }
  inversion Ho as [|query local_ Hp|up ? Hf Hd Hpre|query ? Hf Hp Hpre]; subst.
  - split; [left; by apply echoes_local|]. split; intros ? Hin; by apply not_elem_of_nil in Hin.
  - split; [eauto|]. by apply calls_only_upstream.
  - split; [left; by apply echoes_servfail|]. by apply calls_only_upstream.
Qed.

Definition ex_answers : Answers :=
  {| bind_ok := true; connect_ok := true; send_ok := true; received := Datagram "answer"%bs |}.

Definition ex_no_answers : Answers :=
  {| bind_ok := false; connect_ok := true; send_ok := true; received := Elapsed |}.

(** Two peers; the second is answered first, the first after the socket failed. *)
Definition ex_events : list (Event (bytes * nat) Answers) :=
  [Accept (query_wire ex_internal, 7); Accept (query_wire ex_query, 9); Run 1 ex_no_answers;
   SocketError; Run 0 ex_answers].

Definition ex_loop : Loop (bytes * nat) Answers :=
  {| looping := false;
     tasks := [Finished (query_wire ex_internal, 7) ex_answers; Finished (query_wire ex_query, 9) ex_no_answers] |}.

Lemma udp_replies_to_its_peer_witness :
  let calls := [Bind; Connect "1.1.1.1"%bs; Send (query_wire ex_internal); Recv 5] in
  omap accepted_job ex_events !! 0 = Some (query_wire ex_internal, 7) ∧
  (echoes (take BUFFER (query_wire ex_internal)) "answer"%bs ∨
   forwarded ex_dns (take BUFFER (query_wire ex_internal)) ∧
     ∃ up, received ex_answers = Datagram up ∧ "answer"%bs = take BUFFER up) ∧
  (∀ a, Connect a ∈ calls → a = "1.1.1.1"%bs) ∧
  (∀ q, Send q ∈ calls → q = take BUFFER (query_wire ex_internal) ∧ forwarded ex_dns q).
Proof.
  apply (udp_replies_to_its_peer "1.1.1.1"%bs ex_dns ex_events ex_loop 0 (query_wire ex_internal) 7 ex_answers
           "answer"%bs 7 [Passthrough]); by vm_compute.
Defined.

(** A finished task has its job's reply exactly when the request parses. *)
Lemma udp_task_replies {Addr Peer} (upstream : Addr) s d (peer : Peer) answers :
  is_Some (udp_task upstream s (d, peer) answers).1.1 ↔ is_Some (parse_query (take BUFFER d)).
Proof.
  unfold udp_task. rewrite recv_into_take.
  pose proof (respond_calls_outcome upstream s (take BUFFER d) answers) as Ho.
  destruct (respond_calls upstream s (take BUFFER d) answers) as [[r log] calls].
  inversion Ho as [Hp|query ? Hp|? ? (query & ? & Hp & _)|query ? ? Hp]; subst; rewrite Hp; simpl;
    [by rewrite !is_Some_alt|..]; split; eauto.
Qed.

(** C40 (termination): however the executor orders the tasks, it runs at most as
    many as datagrams were received; as long as one has not run it can, also
    after the socket failed; and when none can be run any more, every datagram
    that parses as a query has been answered once, to its peer, and no other
    has. *)
Theorem udp_server_answers_everything {Addr Peer} (upstream : Addr) s evs (l : Loop (bytes * Peer) Answers) :
  loop_steps evs loop_start = Some l →
  length (List.filter is_run evs) ≤ length (omap accepted_job evs) ∧
  ((∀ k answers, loop_step (Run k answers) l = None) →
   length (List.filter is_run evs) = length (omap accepted_job evs) ∧
   ∀ k d peer, omap accepted_job evs !! k = Some (d, peer) →
     ∃ answers, tasks l !! k = Some (Finished (d, peer) answers) ∧
       match parse_query (take BUFFER d) with
       | Some _ => ∃ reply, (udp_task upstream s (d, peer) answers).1.1 = Some (reply, peer)
       | None => udp_task upstream s (d, peer) answers = (None, [], [])
       end).
Proof.
  intros Hl. pose proof (loop_waiting _ _ _ Hl) as Hw. change (waiting loop_start) with 0 in Hw.
  split; [lia|]. intros Hstuck. destruct (stuck_finished ex_answers evs l Hl Hstuck) as [H0 Hfin].
  split; [lia|]. intros k d peer Hk. destruct (Hfin k _ Hk) as [answers Ht].
  exists answers. split; [done|]. pose proof (udp_task_replies upstream s d peer answers) as Hr.
  unfold udp_task in *. rewrite recv_into_take in *. destruct (parse_query (take BUFFER d)) as [query|] eqn:Hp.
  - destruct (respond_calls upstream s (take BUFFER d) answers) as [[[r|] log] calls]; [by eexists|].
    simpl in Hr. destruct Hr as [_ [? Hr]]; done.
  - unfold respond_calls, respond. by rewrite Hp.
Qed.

Lemma udp_server_answers_everything_witness :
  2 ≤ 2 ∧
  (True → 2 = 2 ∧
   ∀ k d peer, omap accepted_job ex_events !! k = Some (d, peer) →
     ∃ answers, tasks ex_loop !! k = Some (Finished (d, peer) answers) ∧
       match parse_query (take BUFFER d) with
       | Some _ => ∃ reply, (udp_task tt ex_dns (d, peer) answers).1.1 = Some (reply, peer)
       | None => udp_task tt ex_dns (d, peer) answers = (None, [], [])
       end).
Proof.
  destruct (udp_server_answers_everything tt ex_dns ex_events ex_loop) as [H1 H2]; [done|].
  split; [exact H1|]. intros _. apply H2. by intros [|[|k]] answers.
Defined.

(** ** TCP *)

(** A connection gets the framed reply to the one request it sends in full,
    and nothing otherwise; the calls upstream are those of the request. *)
Theorem tcp_replies {Addr} (upstream : Addr) s input answers :
  let '(out, _, calls) := tcp_task upstream s input answers in
  (out = [] ∧ calls = []) ∨
  ∃ request rest reply,
    input = to_be16 (Z.of_nat (length request)) ++ request ++ rest ∧
    outcome upstream s request answers (Some reply) calls ∧
    out = to_be16 (Z.of_nat (length reply)) ++ reply.
Proof.
  unfold tcp_task, tcp_session. destruct input as [|l0 [|l1 r]]; [by left|by left|].
  destruct (get_range 0 (Z.to_nat (be16 l0 l1)) r) as [request|] eqn:Hg; [|by left].
  pose proof (respond_calls_outcome upstream s request answers) as Ho. unfold respond_calls in Ho.
  destruct (respond _ s request []) as [[[reply|] log] calls]; [|left; by inversion Ho].
  right. apply get_range_Some in Hg as (pre & rest & -> & Hpre & Hlen & _).
  apply length_zero_iff_nil in Hpre as ->. exists request, rest, reply.
  split; [|done]. rewrite Hlen, Nat.sub_0_r, Z2Nat.id by (pose proof (be16_range l0 l1); lia).
  by rewrite to_be16_be16.
Qed.

(** An intercepted A query without trailing bytes gets a reply sixteen bytes
    longer than itself. *)
Lemma intercept_reply_length (q : QuerySpec) query ip ttl :
  query_wf q → qs_rest q = [] → parse_query (query_wire q) = Some query →
  length (build_response query [AnswerA ip ttl] true) = length (query_wire q) + 16.
Proof.
  intros Hq Hr Hp. rewrite parse_query_wire in Hp by done. simplify_eq.
  unfold build_response, query_wire. rewrite Hr. simpl question_raw.
  rewrite !length_app, header_length, (wf_counts q Hq). simpl. lia.
Qed.

(** A server that intercepts every name. *)
Definition ex_intercept : DnsServer :=
  {| ds_config := {| proxy_ip := 167772161; passthrough := []; records := ∅; dns_ttl := 60 |};
     ds_on_decision := true |}.

(** A reply of 65536 bytes or more is announced by the low sixteen bits of its
    length: a query of more than 65519 bytes, which a frame can carry since
    names are not limited to 255 bytes, gets a prefix of at most 15. *)
Lemma tcp_length_wraps q :
  query_wf q → qs_rest q = [] → qs_type q = 1%Z → (65519 < Z.of_nat (length (query_wire q)) < 65536)%Z →
  let n := Z.of_nat (length (query_wire q)) in
  ∃ reply, Z.of_nat (length reply) = (n + 16)%Z ∧
    (tcp_task tt ex_intercept (to_be16 n ++ query_wire q) ex_answers).1.1 = to_be16 (n - 65520) ++ reply.
Proof.
  intros Hq Hr Ht Hn. cbv zeta. pose proof (parse_query_wire q Hq) as Hp.
  set (query := Build_Query _ _ _ _ _ _) in Hp. exists (build_response query [AnswerA 167772161 60] true).
  assert (length (build_response query [AnswerA 167772161 60] true) = length (query_wire q) + 16) as Hl
    by (by apply intercept_reply_length).
  split; [lia|].
  unfold tcp_task, tcp_session, to_be16. cbn [app]. rewrite be16_to_be16, Nat2Z.id by lia.
  assert (get_range 0 (length (query_wire q)) (query_wire q) = Some (query_wire q)) as ->.
  { apply (get_range_at [] (query_wire q) []); [by rewrite app_nil_r|done|done]. }
  unfold respond. rewrite Hp. unfold resolve. cbn [ds_config ex_intercept records passthrough].
  rewrite lookup_empty. cbn [existsb]. change (q_type query) with (qs_type q). rewrite Ht.
  cbn [TYPE_A Z.eqb Pos.eqb fst]. change (proxy_ip _) with 167772161%Z. change (dns_ttl _) with 60%Z.
  f_equal; [|f_equal]; apply b2z_inj; rewrite !b2z_z2b, Hl;
    generalize dependent (length (query_wire q)); intros; Z.div_mod_to_equations; lia.
Qed.

(** Names of [n] labels of 63 bytes and one of [k]. *)
Definition long_query (n k : nat) : QuerySpec :=
  {| qs_id := 1; qs_flags := 0; qs_counts := replicate 6 Byte.x00;
     qs_labels := replicate n (replicate 63 "a"%byte) ++ [replicate k "a"%byte];
     qs_type := 1; qs_class := 1; qs_rest := [] |}.

Lemma long_query_wf n k : 0 < k < 64 → query_wf (long_query n k).
Proof.
  intros Hk. split; try done. apply Forall_app. split; [apply Forall_replicate|apply Forall_singleton].
  - split; [done|]. split; [rewrite length_replicate; lia|]. by apply Forall_replicate.
  - split; [destruct k; [lia|done]|]. split; [rewrite length_replicate; lia|]. by apply Forall_replicate.
Qed.

Lemma long_query_length n k : length (query_wire (long_query n k)) = 64 * n + k + 18.
Proof.
  unfold query_wire, question_wire. cbn [qs_labels qs_rest qs_counts long_query].
  rewrite map_app. change (map ?f (replicate ?m ?x)) with (f <$> replicate m x).
  rewrite fmap_replicate, concat_app, !length_app, concat_replicate_length.
  cbn [map concat]. rewrite length_app. unfold encode_label. cbn [length app]. rewrite !length_replicate. simpl. lia.
Qed.

(** The longest query there is: 65551 bytes are announced as 15. *)
Example longest_query_wraps :
  ∃ reply, Z.of_nat (length reply) = 65551%Z ∧
    (tcp_task tt ex_intercept (to_be16 65535 ++ query_wire (long_query 1023 45)) ex_answers).1.1 =
      to_be16 15 ++ reply.
Proof.
  pose proof (tcp_length_wraps (long_query 1023 45) (long_query_wf 1023 45 ltac:(lia)) eq_refl eq_refl) as H.
  rewrite long_query_length in H. apply H. lia.
Qed.
