(* ===== verification/Resolver.v ===== *)
(** * The environment and file resolver ([hematite-proxy/src/resolver.rs])

    The cache in front of the secret sources.  The operating system is the
    class [Os]: what the clock, the environment and the files say in a given
    state of it; [from_slice] is [serde_json::from_slice]. *)

From S2P Require Import Prelude Json Matcher Summary.

(** [std::env::var], [std::fs::read] and the monotonic clock. *)
Class Os (Sys : Type) := {
  now_ms : Sys → Z;
  env_var : bytes → Sys → option bytes;
  read_file : bytes → Sys → result bytes bytes;
  from_slice : bytes → option Value;
}.

Definition DEFAULT_FAILURE_TTL : Duration := duration_from_secs 60.

(** [Duration::as_millis() as u64]. *)
Definition as_millis_u64 (d : Duration) : Z := (d / 1000000 mod 2 ^ 64)%Z.

Definition saturating_sub (a b : Z) : Z := Z.max 0 (a - b).

Definition cache_key (source : SourceRef) : bytes :=
  let base := match kind source with
              | Env var => "env:"%bs ++ var
              | File path => "file:"%bs ++ path
              end in
  match json_key source with
  | Some key => base ++ Byte.x00 :: key
  | None => base
  end.

Record Entry : Type := { e_value : option bytes; e_stamp : Z; e_ok : bool }.

Section resolver.
Context `{OS : Os Sys}.

(** The resolver's cache, and the operating system as it is at the call. *)
Record World : Type := { cache : gmap bytes Entry; os : Sys }.

Definition set_cache (c : gmap bytes Entry) (w : World) : World := {| cache := c; os := os w |}.

Definition apply_json_key (value : bytes) (source : SourceRef) : result bytes ResolveError :=
  match json_key source with
  | None => Ok value
  | Some key =>
      match from_slice value with
      | None => Err {| err_source := source; reason := Text "value is not JSON"%bs |}
      | Some parsed =>
          match get key parsed ≫= as_str with
          | Some s => Ok s
          | None => Err {| err_source := source;
                           reason := Fmt "json_key {key:?} missing or not a string"%bs [Text key] |}
          end
      end
  end.

Definition read (source : SourceRef) (o : Sys) : result bytes ResolveError :=
  let? raw :=
    match kind source with
    | Env var =>
        match env_var var o with
        | Some (b :: v) => Ok (b :: v)
        | _ => Err {| err_source := source; reason := Text "env var unset or empty"%bs |}
        end
    | File path =>
        map_err (fun e => {| err_source := source; reason := Fmt "cannot read file: {e}"%bs [Text e] |})
          (read_file path o)
    end in
  apply_json_key raw source.

(** The last part of [resolve]: no entry, or an expired failure. *)
Definition read_fresh (source : SourceRef) (w : World) : result Secret ResolveError * World :=
  let now := now_ms (os w) in
  match read source (os w) with
  | Ok b =>
      (Ok (MkSecret b),
       set_cache (<[cache_key source := {| e_value := Some b; e_stamp := now; e_ok := true |}]> (cache w)) w)
  | Err e =>
      (Err e,
       set_cache (<[cache_key source := {| e_value := None; e_stamp := now; e_ok := false |}]> (cache w)) w)
  end.

Definition env_file_resolve (source : SourceRef) (w : World) : result Secret ResolveError * World :=
  let now := now_ms (os w) in
  let name := cache_key source in
  let ttl_ms := as_millis_u64 <$> ttl source in
  let failure_ttl_ms := as_millis_u64 (default DEFAULT_FAILURE_TTL (failure_ttl source)) in
  match cache w !! name with
  | Some entry =>
      if e_ok entry then
        let fresh := match ttl_ms with
                     | None => true
                     | Some ttl => (saturating_sub now (e_stamp entry) <? ttl)%Z
                     end in
        if fresh then (Ok (MkSecret (default [] (e_value entry))), w)
        else
          match read source (os w) with
          | Ok b =>
              (Ok (MkSecret b),
               set_cache (<[name := {| e_value := Some b; e_stamp := now; e_ok := true |}]> (cache w)) w)
          | Err _ =>
              let stale := default [] (e_value entry) in
              let retry_stamp := match ttl_ms with
                                 | Some ttl => saturating_sub now (ttl / 2)
                                 | None => now
                                 end in
              (Ok (MkSecret stale),
               set_cache (<[name := {| e_value := Some stale; e_stamp := retry_stamp; e_ok := true |}]> (cache w)) w)
          end
      else if (saturating_sub now (e_stamp entry) <? failure_ttl_ms)%Z then
        (Err {| err_source := source; reason := Text "cached failure"%bs |}, w)
      else read_fresh source w
  | None => read_fresh source w
  end.

(** [impl SecretResolver for EnvFileResolver]. *)
Definition EnvFileResolver : SecretResolver World := {| resolve := env_file_resolve |}.

(** ** Properties *)

(** A good entry holds a value. *)
Definition cache_wf (c : gmap bytes Entry) : Prop :=
  ∀ k e, c !! k = Some e → e_ok e = true ↔ is_Some (e_value e).

Lemma cache_wf_insert c k e :
  cache_wf c → (e_ok e = true ↔ is_Some (e_value e)) → cache_wf (<[k := e]> c).
Proof.
  intros Hc He k' e' H. apply lookup_insert_Some in H as [[<- <-]|[_ H]]; [done|]. by eapply Hc.
Qed.

Lemma env_file_resolve_wf source w : cache_wf (cache w) → cache_wf (cache (env_file_resolve source w).2).
Proof.
  intros Hw.
  assert (cache_wf (cache (read_fresh source w).2)) as Hf.
  { unfold read_fresh. destruct (read source (os w)); simpl; apply cache_wf_insert; simpl; done. }
  unfold env_file_resolve. destruct (cache w !! cache_key source) as [entry|]; [|done].
  destruct (e_ok entry).
  - case_match; [done|]. destruct (read source (os w)); simpl; apply cache_wf_insert; simpl; done.
  - case_match; done.
Qed.

(** *** Cache keys *)

(** Names without a NUL byte. *)
Definition nul_free (source : SourceRef) : Prop :=
  match kind source with Env var => Byte.x00 ∉ var | File path => Byte.x00 ∉ path end.

(** What the operating system does with the others: no variable has such a
    name, and a path with a NUL byte is an invalid argument. *)
Class NulNames : Prop := {
  env_var_nul var o : Byte.x00 ∈ var → env_var var o = None;
  read_file_nul path o : Byte.x00 ∈ path → is_ok (read_file path o) = false;
}.

Definition key_base (source : SourceRef) : bytes :=
  match kind source with Env var => "env:"%bs ++ var | File path => "file:"%bs ++ path end.

Lemma key_base_nul source : nul_free source → Byte.x00 ∉ key_base source.
Proof.
  unfold nul_free, key_base. destruct (kind source); rewrite not_elem_of_app; intros H;
    (split; [|done]); by apply (bool_decide_unpack _).
Qed.

Lemma key_base_inj a b : key_base a = key_base b → kind a = kind b.
Proof. unfold key_base. destruct (kind a), (kind b); simpl; congruence. Qed.

Lemma cache_key_split a : nul_free a →
  (key_base a, json_key a) = match split_once Byte.x00 (cache_key a) with
                             | Some (x, y) => (x, Some y)
                             | None => (cache_key a, None)
                             end.
Proof.
  intros Ha. apply key_base_nul in Ha. unfold cache_key. fold (key_base a).
  destruct (json_key a) as [j|].
  - by rewrite (proj2 (split_once_Some Byte.x00 _ (key_base a) j) (conj eq_refl Ha)).
  - by rewrite (proj2 (split_once_None _ _) Ha).
Qed.

Lemma cache_key_inj a b :
  nul_free a → nul_free b → cache_key a = cache_key b → kind a = kind b ∧ json_key a = json_key b.
Proof.
  intros Ha%cache_key_split Hb%cache_key_split H. rewrite H, <- Hb in Ha. injection Ha as Hk Hj.
  split; [by apply key_base_inj|done].
Qed.

Lemma read_same a b o v :
  kind a = kind b → json_key a = json_key b → read a o = Ok v → read b o = Ok v.
Proof.
  unfold read, apply_json_key. intros -> ->.
  destruct (kind b) as [x|p]; [destruct (env_var x o) as [[|]|]|destruct (read_file p o)]; simpl;
    (destruct (json_key b); [|done]); try done; repeat case_match; simpl; congruence.
Qed.

Lemma read_nul_free `{NN : NulNames} s o v : read s o = Ok v → nul_free s.
Proof.
  unfold read, nul_free. destruct (kind s) as [x|p]; intros Hread Hnul.
  - by rewrite env_var_nul in Hread.
  - pose proof (read_file_nul p o Hnul). by destruct (read_file p o).
Qed.

(** *** Histories

    The system changes at will between calls; a call updates the cache. *)
Inductive reach : list Sys → World → Prop :=
| reach_init o : reach [o] {| cache := ∅; os := o |}
| reach_os h w o : reach h w → reach (o :: h) {| cache := cache w; os := o |}
| reach_resolve h w s : reach h w → reach h (env_file_resolve s w).2.

(** Every cached value was read from its source at some point. *)
Definition provenance (h : list Sys) (c : gmap bytes Entry) : Prop :=
  ∀ k e v, c !! k = Some e → e_value e = Some v →
  ∃ s o, nul_free s ∧ cache_key s = k ∧ o ∈ h ∧ read s o = Ok v.

Lemma reach_os_current h w : reach h w → os w ∈ h.
Proof.
  induction 1 as [o|h w o H IH|h w s H IH]; [set_solver|set_solver|].
  unfold env_file_resolve, read_fresh. by repeat case_match.
Qed.

Lemma provenance_insert h c s v e :
  provenance h c → (∀ x, e_value e = Some x → x = v) →
  (is_Some (e_value e) → ∃ s' o, nul_free s' ∧ cache_key s' = cache_key s ∧ o ∈ h ∧ read s' o = Ok v) →
  provenance h (<[cache_key s := e]> c).
Proof.
  intros Hc Hv He k e' x H Hx. apply lookup_insert_Some in H as [[<- <-]|[_ H]]; [|by eapply Hc].
  pose proof (Hv x Hx) as ->. apply He. by exists v.
Qed.

Lemma reach_invariant `{NN : NulNames} h w : reach h w → cache_wf (cache w) ∧ provenance h (cache w).
Proof.
  induction 1 as [o|h w o H [IHw IHp]|h w s H [IHw IHp]].
  - split; intros k e; simpl; by rewrite lookup_empty.
  - split; [done|]. intros k e v Hk Hv. destruct (IHp k e v Hk Hv) as (s & o' & ? & ? & ? & ?).
    exists s, o'. set_solver.
  - split; [by apply env_file_resolve_wf|]. apply reach_os_current in H.
    assert (provenance h (cache (read_fresh s w).2)) as Hf.
    { unfold read_fresh. destruct (read s (os w)) as [b|e] eqn:Er; simpl.
      - apply (provenance_insert _ _ _ b); [done|by intros x [= <-]|]. intros _. exists s, (os w).
        split_and!; [by eapply read_nul_free|done..].
      - apply (provenance_insert _ _ _ []); [done|done|]. by intros []. }
    unfold env_file_resolve. destruct (cache w !! cache_key s) as [entry|] eqn:Ek; [|done].
    destruct (e_ok entry) eqn:Eok; [|by case_match].
    destruct (match as_millis_u64 <$> ttl s with None => true | Some _ => _ end); [done|].
    destruct (read s (os w)) as [b|e] eqn:Er; simpl.
    + apply (provenance_insert _ _ _ b); [done|by intros x [= <-]|]. intros _. exists s, (os w).
      split_and!; [by eapply read_nul_free|done..].
    + destruct (proj1 (IHw _ _ Ek) Eok) as [v Ev]. rewrite Ev. simpl.
      apply (provenance_insert _ _ _ v); [done|by intros x [= <-]|]. intros _. by apply (IHp _ _ _ Ek).
Qed.

(** ** Guarantees *)

(** C36: whatever the history of calls, for any sources, and of the system, a
    value the resolver serves for a source whose variable or path has no NUL
    byte was read from that very source at some point of the history: caching
    does not mix it up with another.  The system reads no name with a NUL
    byte ([NulNames]).  For a source with one, see [cache_key_collides]. *)
Theorem served_value_was_read `{NN : NulNames} h w s v :
  reach h w → nul_free s → (env_file_resolve s w).1 = Ok (MkSecret v) →
  ∃ o, o ∈ h ∧ read s o = Ok v.
Proof.
  intros Hr Hs H. pose proof (reach_os_current _ _ Hr) as Hos.
  destruct (reach_invariant _ _ Hr) as [Hwf Hp].
  assert (∀ e x, cache w !! cache_key s = Some e → e_value e = Some x → ∃ o, o ∈ h ∧ read s o = Ok x) as Hc.
  { intros e x He Hx. destruct (Hp _ _ _ He Hx) as (s' & o & Hs' & Hk & Ho & Hread).
    destruct (cache_key_inj s' s Hs' Hs Hk) as [Hkind Hj]. exists o. split; [done|]. by eapply read_same. }
  unfold env_file_resolve, read_fresh in H.
  destruct (cache w !! cache_key s) as [entry|] eqn:Ek.
  2:{ destruct (read s (os w)) eqn:Er; [|done]. injection H as ->. eauto. }
  destruct (e_ok entry) eqn:Eok.
  - destruct (proj1 (Hwf _ _ Ek) Eok) as [x Ex]. rewrite Ex in H. simpl in H.
    destruct (match as_millis_u64 <$> ttl s with None => true | Some _ => _ end); simpl in H.
    + injection H as ->. by eapply Hc.
    + destruct (read s (os w)) eqn:Er; injection H as ->; eauto.
  - destruct (_ <? _)%Z; [done|]. destruct (read s (os w)) eqn:Er; [|done]. injection H as ->. eauto.
Qed.

(** Once a source has resolved it keeps resolving: a good cache entry
    makes every later call succeed, and no call, for this source or another,
    makes the entry bad. *)
Theorem good_entry_stays_good w s s' e :
  cache w !! cache_key s = Some e → e_ok e = true →
  is_ok (env_file_resolve s w).1 = true ∧
  ∃ e', cache (env_file_resolve s' w).2 !! cache_key s = Some e' ∧ e_ok e' = true.
Proof.
  intros He Hok. split.
  { unfold env_file_resolve. rewrite He, Hok.
    destruct (match as_millis_u64 <$> ttl s with None => true | Some _ => _ end); [done|].
    by destruct (read s (os w)). }
  destruct (decide (cache_key s' = cache_key s)) as [Heq|Hne].
  - unfold env_file_resolve. rewrite Heq, He, Hok.
    destruct (match as_millis_u64 <$> ttl s' with None => true | Some _ => _ end); [eauto|].
    destruct (read s' (os w)); simpl; rewrite lookup_insert_eq; eauto.
  - exists e. split; [|done]. unfold env_file_resolve, read_fresh.
    repeat case_match; simpl; rewrite ?lookup_insert_ne by done; done.
Qed.

(** A failure is answered from the cache until its lifetime is over, and
    then the source is read again. *)
Theorem failure_held_until_ttl w s stamp :
  cache w !! cache_key s = Some {| e_value := None; e_stamp := stamp; e_ok := false |} →
  (stamp <= now_ms (os w))%Z →
  env_file_resolve s w =
    if (now_ms (os w) <? stamp + as_millis_u64 (default DEFAULT_FAILURE_TTL (failure_ttl s)))%Z
    then (Err {| err_source := s; reason := Text "cached failure"%bs |}, w)
    else read_fresh s w.
Proof.
  intros He Hle. unfold env_file_resolve. rewrite He. cbn [e_ok e_stamp]. unfold saturating_sub.
  rewrite Z.max_r by lia.
  destruct (Z.ltb_spec (now_ms (os w) - stamp) (as_millis_u64 (default DEFAULT_FAILURE_TTL (failure_ttl s))));
    destruct (Z.ltb_spec (now_ms (os w)) (stamp + as_millis_u64 (default DEFAULT_FAILURE_TTL (failure_ttl s))));
    try done; lia.
Qed.

(** When a refresh fails, the old value is served and kept for half a
    lifetime: until then the source is not read, from then on it is. *)
Theorem stale_retry_at_half_ttl w s v stamp d o' :
  cache w !! cache_key s = Some {| e_value := Some v; e_stamp := stamp; e_ok := true |} →
  ttl s = Some d → (0 <= stamp)%Z → (0 < as_millis_u64 d <= now_ms (os w) - stamp)%Z →
  is_ok (read s (os w)) = false →
  let w1 := (env_file_resolve s w).2 in
  let w2 := {| cache := cache w1; os := o' |} in
  let retry := (now_ms (os w) + (as_millis_u64 d - as_millis_u64 d / 2))%Z in
  (env_file_resolve s w).1 = Ok (MkSecret v) ∧
  ((now_ms (os w) <= now_ms o' < retry)%Z → env_file_resolve s w2 = (Ok (MkSecret v), w2)) ∧
  ((retry <= now_ms o')%Z → ∀ b, read s o' = Ok b → (env_file_resolve s w2).1 = Ok (MkSecret b)).
Proof.
  intros He Ht Hst Hexp Hread. cbv zeta. set (T := as_millis_u64 d) in *.
  assert (0 <= T / 2 <= T)%Z by (split; [apply Z.div_pos; lia|apply Z.div_le_upper_bound; lia]).
  assert (env_file_resolve s w = (Ok (MkSecret v),
    set_cache (<[cache_key s := {| e_value := Some v; e_stamp := (now_ms (os w) - T / 2)%Z; e_ok := true |}]>
      (cache w)) w)) as ->.
  { unfold env_file_resolve. rewrite He, Ht. cbn [e_ok e_stamp e_value fmap option_fmap option_map]. fold T.
    unfold saturating_sub. rewrite Z.max_r by lia. rewrite (proj2 (Z.ltb_ge _ _)) by lia.
    destruct (read s (os w)); [done|]. cbn [default from_option id]. by rewrite Z.max_r by lia. }
  simpl. split; [done|].
  split; intros Hn; unfold env_file_resolve; cbn [cache os]; rewrite lookup_insert_eq, Ht;
    cbn [e_ok e_stamp e_value fmap option_fmap option_map]; fold T; unfold saturating_sub.
  - rewrite Z.max_r by lia. rewrite (proj2 (Z.ltb_lt _ _)) by lia. done.
  - intros b Hb. rewrite Z.max_r by lia. rewrite (proj2 (Z.ltb_ge _ _)) by lia. by rewrite Hb.
Qed.

End resolver.

(** ** Witnesses *)

(** A system that is a clock and an environment; files and JSON are absent. *)
#[export] Instance table_os : Os (Z * list (bytes * bytes)) := {|
  now_ms o := o.1;
  env_var k o := if bool_decide (Byte.x00 ∈ k) then None else map_get k o.2;
  read_file _ _ := Err "No such file"%bs;
  from_slice _ := None |}.

#[export] Instance table_os_nul : NulNames (OS := table_os).
Proof. split; [|done]. intros var o H. simpl. by rewrite bool_decide_true. Qed.

Definition ex_env : SourceRef :=
  {| kind := Env "KEY"%bs; json_key := None; ttl := Some (duration_from_secs 10); failure_ttl := None |}.

Definition ex_env_world (t : Z) : World := {| cache := ∅; os := (t, [("KEY"%bs, "v1"%bs)]) |}.

Definition ex_cached : World := (env_file_resolve ex_env (ex_env_world 5)).2.

Lemma served_value_was_read_witness :
  ∃ o, o ∈ [os (ex_env_world 5)] ∧ read ex_env o = Ok "v1"%bs.
Proof.
  apply (served_value_was_read [os (ex_env_world 5)] ex_cached ex_env "v1"%bs).
  - apply reach_resolve, reach_init.
  - by apply (bool_decide_unpack _).
  - vm_compute. reflexivity.
Defined.

(** The condition on the served source is needed.  A file [p] holds an object
    whose member [k] is a secret; once it was read, the source whose path is
    [p], a NUL byte and [k] is served that secret, though reading it fails. *)
#[local] Instance object_os : Os unit := {|
  now_ms _ := 0%Z;
  env_var _ _ := None;
  read_file path _ := if path ≟ "p"%bs then Ok "{k:v}"%bs else Err "invalid argument"%bs;
  from_slice _ := Some (Object [("k"%bs, String_ "s3cr3t"%bs)]) |}.

Definition member_source : SourceRef :=
  {| kind := File "p"%bs; json_key := Some "k"%bs; ttl := None; failure_ttl := None |}.

Definition nul_source : SourceRef :=
  {| kind := File ("p"%bs ++ Byte.x00 :: "k"%bs); json_key := None; ttl := None; failure_ttl := None |}.

Example cache_key_collides :
  let w := (env_file_resolve member_source {| cache := ∅; os := () |}).2 in
  (env_file_resolve nul_source w).1 = Ok (MkSecret "s3cr3t"%bs) ∧ is_ok (read nul_source ()) = false.
Proof. by vm_compute. Qed.

Lemma good_entry_stays_good_witness : is_ok (env_file_resolve ex_env ex_cached).1 = true.
Proof.
  apply (good_entry_stays_good ex_cached ex_env ex_env
           {| e_value := Some "v1"%bs; e_stamp := 5; e_ok := true |}); vm_compute; reflexivity.
Defined.

Definition ex_failed (t : Z) : World :=
  {| cache := {[ cache_key ex_env := {| e_value := None; e_stamp := 5; e_ok := false |} ]}; os := (t, ([] : list (bytes * bytes))) |}.

Lemma failure_held_until_ttl_witness :
  env_file_resolve ex_env (ex_failed 100)
  = (Err {| err_source := ex_env; reason := Text "cached failure"%bs |}, ex_failed 100).
Proof.
  rewrite (failure_held_until_ttl (ex_failed 100) ex_env 5); [reflexivity|reflexivity|by vm_compute].
Defined.

Definition ex_stale : World :=
  {| cache := cache ex_cached; os := (10005%Z, ([] : list (bytes * bytes))) |}.

Lemma stale_retry_at_half_ttl_witness :
  (env_file_resolve ex_env ex_stale).1 = Ok (MkSecret "v1"%bs).
Proof.
  apply (stale_retry_at_half_ttl ex_stale ex_env "v1"%bs 5 (duration_from_secs 10) (0%Z, [])).
  - vm_compute. reflexivity.
  - reflexivity.
  - by vm_compute.
  - by vm_compute.
  - vm_compute. reflexivity.
Defined.
