(* ===== verification/Dial.v ===== *)
(** * The guard and the dialer ([hematite-proxy/src/state.rs], [dial.rs])

    The guard's deny list and [connect_upstream], the only way to an upstream
    socket.  Name resolution, TCP and TLS are the class [Network]. *)

From S2P Require Import Prelude Net Matcher Pipeline KernelAudit.

(** ** The guard ([state.rs]) *)

Record Guard : Type := { deny : list (Cidr * bytes) }.

Definition DEFAULT_DENY : list bytes :=
  ["169.254.169.254/32"%bs; "fd00:ec2::254/128"%bs; "fd20:ce::254/128"%bs; "127.0.0.0/8"%bs; "::1/128"%bs].

Definition guard_new (prefixes : list bytes) : result Guard message :=
  let? d := collect_results
              (fun p => match cidr_parse p with
                        | Ok c => Ok (c, p)
                        | Err e => Err (display_match_error e)
                        end) prefixes in
  Ok {| deny := d |}.

(** [expect]s that the default set compiles; see [default_set_compiles]. *)
Definition default_set : Guard := unwrap_or {| deny := [] |} (guard_new DEFAULT_DENY).

Fixpoint check_loop (d : list (Cidr * bytes)) (ip : IpAddr) : result unit GuardDenial :=
  match d with
  | [] => Ok tt
  | (cidr, p) :: d =>
      if cidr_contains cidr ip then Err {| denied_addr := show_ip ip; denied_prefix := p |}
      else check_loop d ip
  end.

Definition check (g : Guard) (ip : IpAddr) : result unit GuardDenial := check_loop (deny g) ip.

Lemma guard_new_prefixes prefixes g : guard_new prefixes = Ok g → map snd (deny g) = prefixes.
Proof.
  unfold guard_new. destruct (collect_results _ _) as [d|] eqn:E; [|done]. intros [= <-]. simpl.
  apply collect_results_Ok in E. induction E as [|p [c q] l l' H _ IH]; simpl; [done|].
  destruct (cidr_parse p); simplify_eq/=. by f_equal.
Qed.

(** [Runtime::passthrough_matches]. *)
Definition passthrough_matches (globs : list DomainGlob) (host : bytes) : bool :=
  existsb (fun g => domain_matches g host) globs.

(** ** The dialer ([dial.rs]) *)

Record SocketAddr : Type := { sa_ip : IpAddr; sa_port : Z }.

Inductive DialResult : Type := DialOk | GuardDenied | DnsFailed | ConnectError | TlsError.

Inductive DialError : Type :=
| Denied (denial : GuardDenial)
| Failed (msg : message).

(** The outcome of one connection attempt under the dial timeout. *)
Inductive Attempt (Stream : Type) : Type :=
| Connected (s : Stream)
| ConnectFailed (e : bytes)
| TimedOut.
Arguments Connected {Stream} s.
Arguments ConnectFailed {Stream} e.
Arguments TimedOut {Stream}.

(** What the operating system and rustls provide; [N] is their state. *)
Class Network (N Stream : Type) := {
  lookup_host : bytes → Z → N → result (list SocketAddr) bytes * N;
  tcp_connect : SocketAddr → N → Attempt Stream * N;
  valid_server_name : bytes → bool;
  tls_connect : bytes → Stream → N → result Stream bytes * N;
}.

Section dial.
Context {N Stream : Type} `{NW : !Network N Stream}.

Definition show_addr (a : SocketAddr) : message :=
  Fmt "{addr}"%bs [Text (show_ip (sa_ip a)); Text (show_dec (sa_port a))].

(** What a call did: its result, the metrics it counted, the addresses it
    tried to connect to, and the network afterwards. *)
Definition DialRun : Type :=
  result Stream DialError * list DialResult * list SocketAddr * N.

(** The loop over the addresses; [last_err] is the text of the last failed
    attempt, [tried] the attempts so far. *)
Fixpoint dial_loop (g : Guard) (host : bytes) (scheme_https : bool) (addrs : list SocketAddr)
    (last_err : option message) (tried : list SocketAddr) (n : N) : DialRun :=
  match addrs with
  | [] => (Err (Failed (default (Text "dial failed"%bs) last_err)), [ConnectError], tried, n)
  | addr :: addrs =>
      match check g (sa_ip addr) with
      | Err denial => (Err (Denied denial), [GuardDenied], tried, n)
      | Ok _ =>
          let '(tcp, n) := tcp_connect addr n in
          let tried := tried ++ [addr] in
          match tcp with
          | ConnectFailed e =>
              dial_loop g host scheme_https addrs
                (Some (Fmt "connect {addr}: {e}"%bs [show_addr addr; Text e])) tried n
          | TimedOut =>
              dial_loop g host scheme_https addrs
                (Some (Fmt "connect {addr}: dial timeout"%bs [show_addr addr])) tried n
          | Connected s =>
              if negb scheme_https then (Ok s, [DialOk], tried, n)
              else if negb (valid_server_name host) then
                (Err (Failed (Fmt "invalid upstream server name {host:?}"%bs [Text host])), [], tried, n)
              else
                let '(tls, n) := tls_connect host s n in
                match tls with
                | Ok s => (Ok s, [DialOk], tried, n)
                | Err e => (Err (Failed (Fmt "upstream TLS: {e}"%bs [Text e])), [TlsError], tried, n)
                end
          end
      end
  end.

(** [connect_upstream] consumes the permission proof. *)
Definition connect_upstream (proof : AllowProof) (host : bytes) (port : Z) (scheme_https : bool)
    (g : Guard) (n : N) : DialRun :=
  let '(addrs, n) :=
    match parse_ip host with
    | Some ip => (Ok [{| sa_ip := ip; sa_port := port |}], n)
    | None => lookup_host host port n
    end in
  match addrs with
  | Err e =>
      (Err (Failed (Fmt "resolution failed for {host:?}: {e}"%bs [Text host; Text e])), [DnsFailed], [], n)
  | Ok [] => (Err (Failed (Fmt "no addresses for {host:?}"%bs [Text host])), [DnsFailed], [], n)
  | Ok addrs => dial_loop g host scheme_https addrs None [] n
  end.

(** ** Lemmas *)

Lemma check_loop_Ok d ip :
  check_loop d ip = Ok tt ↔ Forall (fun cp => cidr_contains cp.1 ip = false) d.
Proof.
  induction d as [|[c p] d IH]; simpl; [by split; [constructor|]|].
  rewrite Forall_cons. simpl. destruct (cidr_contains c ip); naive_solver.
Qed.

Lemma check_loop_Err d ip e :
  check_loop d ip = Err e →
  ∃ pre c post, d = pre ++ (c, denied_prefix e) :: post ∧ cidr_contains c ip = true ∧
    denied_addr e = show_ip ip ∧ Forall (fun cp => cidr_contains cp.1 ip = false) pre.
Proof.
  induction d as [|[c p] d IH]; simpl; [done|]. destruct (cidr_contains c ip) eqn:E.
  - intros [= <-]. by exists [], c, d.
  - intros (pre & c' & post & -> & ? & ? & ?)%IH. exists ((c, p) :: pre), c', post.
    repeat split; try done. by constructor.
Qed.

Definition permitted (g : Guard) (a : SocketAddr) : Prop :=
  Forall (fun cp => cidr_contains cp.1 (sa_ip a) = false) (deny g).

Lemma check_permitted g a u : check g (sa_ip a) = Ok u → permitted g a.
Proof. destruct u. apply check_loop_Ok. Qed.

Lemma dial_loop_permitted g host https addrs last_err tried n res m tried' n' :
  dial_loop g host https addrs last_err tried n = (res, m, tried', n') →
  Forall (permitted g) tried → Forall (permitted g) tried'.
Proof.
  revert last_err tried n. induction addrs as [|a addrs IH]; intros last_err tried n; simpl.
  { by intros [= <- <- <- <-]. }
  destruct (check g (sa_ip a)) as [u|d] eqn:Ec; [|by intros [= <- <- <- <-]].
  apply check_permitted in Ec. destruct (tcp_connect a n) as [tcp n1]. intros H Ht.
  assert (Forall (permitted g) (tried ++ [a])) by (apply Forall_app; split; [done|by constructor]).
  destruct tcp as [s|e|]; [|by apply (IH _ _ _ H)|by apply (IH _ _ _ H)].
  destruct (negb https); [by simplify_eq|]. destruct (negb _); [by simplify_eq|].
  destruct (tls_connect host s n1) as [[?|?] ?]; by simplify_eq.
Qed.

Lemma dial_loop_prefix g host https addrs last_err tried n res m tried' n' :
  dial_loop g host https addrs last_err tried n = (res, m, tried', n') →
  ∃ pre post, addrs = pre ++ post ∧ tried' = tried ++ pre.
Proof.
  revert last_err tried n. induction addrs as [|a addrs IH]; intros last_err tried n; simpl.
  { intros [= <- <- <- <-]. exists [], []. split; [done|]. by rewrite app_nil_r. }
  destruct (check g (sa_ip a)) as [u|d] eqn:Ec.
  2:{ intros [= <- <- <- <-]. exists [], (a :: addrs). split; [done|]. by rewrite app_nil_r. }
  destruct (tcp_connect a n) as [tcp n1]. intros H.
  assert (tried' = tried ++ [a] ∨ ∃ pre post, addrs = pre ++ post ∧ tried' = (tried ++ [a]) ++ pre)
    as [->|(pre & post & -> & ->)].
  { destruct tcp as [s|e|]; [left|right; by apply (IH _ _ _ H)|right; by apply (IH _ _ _ H)].
    destruct (negb https); [by simplify_eq|]. destruct (negb _); [by simplify_eq|].
    destruct (tls_connect host s n1) as [[?|?] ?]; by simplify_eq. }
  - by exists [a], addrs.
  - exists (a :: pre), post. split; [done|]. by rewrite <- app_assoc.
Qed.

Lemma connect_permitted proof host port https g n res m tried n' :
  connect_upstream proof host port https g n = (res, m, tried, n') → Forall (permitted g) tried.
Proof.
  unfold connect_upstream. intros H.
  destruct (match parse_ip host with Some _ => _ | None => _ end) as [[[|a l]|e] n1]; try by simplify_eq.
  by apply (dial_loop_permitted _ _ _ _ _ _ _ _ _ _ _ H).
Qed.

(** ** Guarantees *)

(** C14 (guard): no connection is ever attempted to an address inside a denied
    prefix, whatever the resolver answers; and the attempts are made in the
    order of the answer. *)
Theorem dial_respects_guard proof host port https g n res m tried n' :
  connect_upstream proof host port https g n = (res, m, tried, n') →
  Forall (permitted g) tried ∧
  ∀ ip, parse_ip host = Some ip → tried `prefix_of` [{| sa_ip := ip; sa_port := port |}].
Proof.
  intros H. split; [by eapply connect_permitted|]. unfold connect_upstream in H.
  intros ip Hip. rewrite Hip in H. apply dial_loop_prefix in H as (pre & post & -> & ->). by exists post.
Qed.

(** When an address is denied the request fails as a denial: what is
    reported is the address as dialed and the first configured prefix that
    contains it, and no later address is tried. *)
Theorem guard_denial_is_final g host https addrs last_err tried n denial m tried' n' :
  dial_loop g host https addrs last_err tried n = (Err (Denied denial), m, tried', n') →
  m = [GuardDenied] ∧
  ∃ pre addr post dpre c dpost, addrs = pre ++ addr :: post ∧ tried' = tried ++ pre ∧
    deny g = dpre ++ (c, denied_prefix denial) :: dpost ∧
    cidr_contains c (sa_ip addr) = true ∧ denied_addr denial = show_ip (sa_ip addr) ∧
    Forall (fun cp => cidr_contains cp.1 (sa_ip addr) = false) dpre.
Proof.
  revert last_err tried n. induction addrs as [|a addrs IH]; intros last_err tried n; simpl; [done|].
  destruct (check g (sa_ip a)) as [u|d] eqn:Ec.
  2:{ intros [= <- <- <- <-]. split; [done|].
      destruct (check_loop_Err _ _ _ Ec) as (dpre & c & dpost & Hd & ? & ? & ?).
      exists [], a, addrs, dpre, c, dpost. rewrite app_nil_r. done. }
  destruct (tcp_connect a n) as [tcp n1]. intros H.
  assert (∃ le n2, dial_loop g host https addrs le (tried ++ [a]) n2 = (Err (Denied denial), m, tried', n'))
    as (le & n2 & H').
  { destruct tcp as [s|e|]; [|eauto|eauto]. exfalso.
    destruct (negb https); [by simplify_eq|]. destruct (negb _); [by simplify_eq|].
    destruct (tls_connect host s n1) as [[?|?] ?]; by simplify_eq. }
  apply IH in H' as (-> & pre & addr & post & dpre & c & dpost & -> & -> & Hrest).
  split; [done|]. exists (a :: pre), addr, post, dpre, c, dpost. rewrite <- app_assoc. done.
Qed.

End dial.

(** The default deny list compiles, and covers the cloud metadata
    services and the loopback addresses, also when an IPv4 one is written as
    an IPv4-mapped IPv6 address. *)
Theorem default_guard_denies a :
  is_ok (guard_new DEFAULT_DENY) = true ∧
  ((0 <= a < 2 ^ 32)%Z → (a / 2 ^ 24 = 127)%Z ∨ a = 2852039166%Z →
   is_ok (check default_set (V4 a)) = false ∧
   is_ok (check default_set (V6 (281470681743360 + a))) = false) ∧
  is_ok (check default_set (V6 1)) = false.
Proof.
  split; [by vm_compute|]. split; [|by vm_compute]. intros Ha Hin.
  assert (Hdeny : ∀ c p ip, (c, p) ∈ deny default_set → cidr_contains c ip = true →
    is_ok (check default_set ip) = false).
  { intros c p ip Hcp Hc. destruct (check default_set ip) as [[]|] eqn:E; [|done].
    apply check_loop_Ok in E. rewrite Forall_forall in E. specialize (E _ Hcp). simpl in E. congruence. }
  assert (Hmap : to_canonical (V6 (281470681743360 + a)) = V4 a).
  { unfold to_canonical.
    replace ((281470681743360 + a) / 2 ^ 32)%Z with 65535%Z
      by (apply Z.div_unique_pos with a; lia).
    simpl. f_equal. symmetry. apply Z.mod_unique_pos with 65535%Z; lia. }
  assert (∀ c, (c, "127.0.0.0/8"%bs) ∈ deny default_set ∨ (c, "169.254.169.254/32"%bs) ∈ deny default_set →
    cidr_wf c → same_prefix (prefix c) (net c) (V4 a) →
    is_ok (check default_set (V4 a)) = false ∧ is_ok (check default_set (V6 (281470681743360 + a))) = false) as Hfin.
  { intros c Hc Hwf Hs. assert (ip_wf (V4 a)) by done.
    assert (ip_wf (V6 (281470681743360 + a))) by (simpl; lia).
    split; destruct Hc as [Hc|Hc]; eapply Hdeny; try exact Hc; apply cidr_contains_spec; try done.
    - by left.
    - by left.
    - right. by rewrite Hmap.
    - right. by rewrite Hmap. }
  destruct Hin as [H127| ->].
  - apply (Hfin {| net := V4 2130706432; prefix := 8 |}).
    + left. vm_compute. do 3 right. left.
    + split; simpl; lia.
    + simpl. change (2 ^ (32 - 8))%Z with (2 ^ 24)%Z. rewrite H127. reflexivity.
  - apply (Hfin {| net := V4 2852039166; prefix := 32 |}).
    + right. vm_compute. left.
    + split; simpl; lia.
    + reflexivity.
Qed.

(** ** A network to run the dialer on

    Names resolve through a table; the connection attempts succeed on the
    addresses listed as up; every certificate is accepted. *)
Definition table_network (names : list (bytes * list SocketAddr)) (up : list IpAddr) : Network nat nat := {|
  lookup_host h _ n :=
    (match List.find (fun e => e.1 ≟ h) names with
     | Some e => Ok e.2
     | None => Err "no such host"%bs
     end, n);
  tcp_connect a n :=
    if existsb (fun ip => sa_ip a ≟ ip) up then (Connected n, S n) else (TimedOut, n);
  valid_server_name h := negb (h ≟ []);
  tls_connect h s n := (Ok s, n);
|}.

(** A public address that does not answer, then the metadata service. *)
Definition ex_network : Network nat nat :=
  table_network [("metadata.test"%bs, [{| sa_ip := V4 134744072; sa_port := 80 |};
                                       {| sa_ip := V4 2852039166; sa_port := 80 |}])] [V4 2852039166].

Lemma dial_respects_guard_witness :
  Forall (permitted default_set) [{| sa_ip := V4 134744072; sa_port := 80 |}].
Proof.
  apply (dial_respects_guard (NW := ex_network) MkAllowProof "metadata.test"%bs 80 false default_set 0
           (connect_upstream (NW := ex_network) MkAllowProof "metadata.test"%bs 80 false default_set 0).1.1.1
           (connect_upstream (NW := ex_network) MkAllowProof "metadata.test"%bs 80 false default_set 0).1.1.2
           _ 0).
  vm_compute. reflexivity.
Defined.

Lemma guard_denial_is_final_witness :
  ∃ pre addr post, [{| sa_ip := V4 134744072; sa_port := 80 |}; {| sa_ip := V4 2852039166; sa_port := 80 |}]
    = pre ++ addr :: post ∧ [{| sa_ip := V4 134744072; sa_port := 80%Z |}] = [] ++ pre.
Proof.
  destruct (guard_denial_is_final (NW := ex_network) default_set "metadata.test"%bs false
    [{| sa_ip := V4 134744072; sa_port := 80 |}; {| sa_ip := V4 2852039166; sa_port := 80 |}] None [] 0
    {| denied_addr := "169.254.169.254"%bs; denied_prefix := "169.254.169.254/32"%bs |}
    [GuardDenied] [{| sa_ip := V4 134744072; sa_port := 80 |}] 0 ltac:(vm_compute; reflexivity))
    as (_ & pre & addr & post & _ & _ & _ & Ha & Ht & _).
  by exists pre, addr, post.
Defined.

Lemma default_guard_denies_witness : is_ok (check default_set (V4 2130706433)) = false.
Proof.
  destruct (default_guard_denies 2130706433) as (_ & H & _).
  apply H; [lia|left; reflexivity].
Defined.
