(* ===== verification/Ipv6.v ===== *)
(** * Addresses as text and back

    [IpAddr]'s display is read back by its parser, for both families: an
    address that travels through the program as a host name (a SOCKS5 target, a
    denied address) still means the same address. *)

From S2P Require Import Prelude Utf8 Matcher Pipeline Tunnel Dial Net.

(** ** Groups *)

Lemma read_digits_suffix radix max room acc count s v n r :
  read_digits radix max room acc count s = Some (v, n, r) → ∃ p, s = p ++ r.
Proof.
  revert room acc count. induction s as [|b s IH]; intros room acc count; simpl; [intros [= <- <- <-]; by exists []|].
  destruct (to_digit radix b) as [d|]; [|intros [= <- <- <-]; by exists []].
  destruct room as [|room]; [done|]. destruct (_ <=? max)%Z; [|done].
  intros [p ->]%IH. by exists (b :: p).
Qed.

Lemma read_number_suffix radix max maxd z s v r : read_number radix max maxd z s = Some (v, r) → ∃ p, s = p ++ r.
Proof.
  unfold read_number. destruct (read_digits _ _ _ _ _ s) as [[[v' n] r']|] eqn:E; [|done]. cbn [mbind option_bind].
  repeat case_match; try done. intros [= <- <-]. by eapply read_digits_suffix.
Qed.

(** A text without a dot is no IPv4 address. *)
Lemma read_ipv4_no_dot s : "."%byte ∉ s → read_ipv4_addr s = None.
Proof.
  intros Hs. unfold read_ipv4_addr. rewrite read_separator_0.
  destruct (read_octet s) as [[a r]|] eqn:E; [|done]. apply read_number_suffix in E as [p ->]. cbn [mbind option_bind].
  unfold read_separator. destruct r as [|b r]; [done|]. cbn [read_given_char].
  case_bool_decide; [subst; set_solver|done].
Qed.

Lemma read_group_show g r : (0 <= g < 65536)%Z → stops 16 r → read_group (show_hex16 g ++ r) = Some (g, r).
Proof. intros Hg Hr. apply read_number_show; unfold u16_max; try done; try lia; by left. Qed.

(** What may follow the groups: the end, or the [::]. *)
Definition ends_groups (r : bytes) : Prop := r = [] ∨ ∃ t, r = ":"%byte :: ":"%byte :: t.

Fixpoint group_text (i : nat) (gs : list Z) : bytes :=
  match gs with
  | [] => []
  | g :: gs => (match i with 0 => [] | S _ => [":"%byte] end) ++ show_hex16 g ++ group_text (S i) gs
  end.

Lemma ends_stops r : ends_groups r → stops 16 r.
Proof. by intros [->|[t ->]]. Qed.

Lemma group_text_stops i gs r : ends_groups r → stops 16 (group_text (S i) gs ++ r).
Proof. intros Hr. destruct gs; [by apply ends_stops|done]. Qed.

Lemma read_group_colon t : read_group (":"%byte :: t) = None.
Proof. done. Qed.

Lemma read_groups_show gs room i r :
  Forall (fun g => 0 <= g < 65536)%Z gs → length gs ≤ room → ends_groups r →
  "."%byte ∉ group_text i gs ++ r →
  read_groups room i (group_text i gs ++ r) = (gs, false, r).
Proof.
  revert room i. induction gs as [|g gs IH]; intros room i Hgs Hl Hr Hd; destruct room as [|room]; simpl in Hl; try lia; [done| |].
  - cbn [group_text app] in *. cbn [read_groups].
    assert (read_separator ":"%byte i read_ipv4_addr r = None) as Hv4.
    { destruct i; unfold read_separator; [by apply read_ipv4_no_dot|]. destruct Hr as [->|[t ->]]; [done|].
      cbn [read_given_char]. rewrite bool_decide_true by done. cbn [mbind option_bind]. apply read_ipv4_no_dot. set_solver. }
    assert (read_separator ":"%byte i read_group r = None) as Hg.
    { destruct i; unfold read_separator; destruct Hr as [->|[t ->]]; try done. }
    rewrite Hv4, Hg. by destruct (1 <=? room).
  - apply Forall_cons in Hgs as [Hg Hgs]. cbn [read_groups].
    assert (∃ s, group_text i (g :: gs) ++ r = match i with 0 => s | S _ => ":"%byte :: s end ∧
                 s = show_hex16 g ++ group_text (S i) gs ++ r ∧ "."%byte ∉ s) as (s & Hs & Es & Hsd).
    { exists (show_hex16 g ++ group_text (S i) gs ++ r). cbn [group_text] in *. rewrite <- !app_assoc in *.
      destruct i; cbn [app] in *; split_and!; try done. set_solver. }
    rewrite Hs.
    assert (∀ (A : Type) (f : bytes → option (A * bytes)),
      read_separator ":"%byte i f match i with 0 => s | S _ => ":"%byte :: s end = f s) as Hsep.
    { intros A f. destruct i; [apply read_separator_0|apply read_separator_S]. }
    rewrite !Hsep, (read_ipv4_no_dot s) by done.
    rewrite Es, read_group_show by (done || by apply group_text_stops).
    rewrite IH; [by destruct (1 <=? room)|done|lia|done|]. subst s. set_solver.
Qed.

(** ** The run of zeros that is left out *)

(** A stretch of a list that is all zeros. *)
Definition zeros_at (gs : list Z) (start len : nat) : Prop :=
  start + len ≤ length gs ∧ ∀ k, k < len → gs !! (start + k) = Some 0%Z.

Lemma zeros_at_app gs gs' start len : zeros_at gs start len → zeros_at (gs ++ gs') start len.
Proof.
  intros [Hl Hz]. split; [rewrite length_app; lia|]. intros k Hk. rewrite lookup_app_l by lia. by apply Hz.
Qed.

Definition span_step : nat * (nat * nat) * (nat * nat) → Z → nat * (nat * nat) * (nat * nat) :=
  fun '(i, (cs, cl), (ls, ll)) g =>
  if (g =? 0)%Z then
    let cs := if cl =? 0 then i else cs in
    (S i, (cs, S cl), if ll <? S cl then (cs, S cl) else (ls, ll))
  else (S i, (0, 0), (ls, ll)).

Lemma zero_span_fold gs i cs cl ls ll :
  fold_left span_step gs (0, (0, 0), (0, 0)) = (i, (cs, cl), (ls, ll)) →
  i = length gs ∧ (cl ≠ 0 → cs + cl = length gs) ∧ zeros_at gs cs cl ∧ zeros_at gs ls ll.
Proof.
  revert i cs cl ls ll. induction gs as [|g gs IH] using rev_ind; intros i cs cl ls ll.
  { intros [= <- <- <- <- <-]. repeat split; simpl; lia. }
  rewrite fold_left_app. simpl. destruct (fold_left span_step gs _) as [[i0 [cs0 cl0]] [ls0 ll0]] eqn:E.
  destruct (IH _ _ _ _ _ eq_refl) as (-> & Hc & Hzc & Hzl). unfold span_step. rewrite length_app. simpl.
  destruct (Z.eqb_spec g 0) as [->|Hg].
  - assert (∃ cs1, (if cl0 =? 0 then length gs else cs0) = cs1 ∧ cs1 + cl0 = length gs) as (cs1 & -> & Hcs).
    { destruct (Nat.eqb_spec cl0 0) as [->|]; eexists; (split; [done|]); [lia|auto]. }
    assert (zeros_at (gs ++ [0%Z]) cs1 (S cl0)) as Hz1.
    { split; [rewrite length_app; simpl; lia|]. intros k Hk. destruct (decide (k = cl0)) as [->|].
      - rewrite lookup_app_r, Hcs, Nat.sub_diag by lia. done.
      - rewrite lookup_app_l by lia. destruct cl0 as [|cl0]; [lia|]. destruct Hzc as [_ Hzc].
        rewrite <- (Hzc k) by lia. f_equal. specialize (Hc ltac:(lia)). lia. }
    destruct (ll0 <? S cl0); intros [= <- <- <- <- <-]; split_and!; try done; try lia. by apply zeros_at_app.
  - intros [= <- <- <- <- <-]. split_and!; try lia; [|by apply zeros_at_app]. split; [lia|]. lia.
Qed.

Lemma zero_span_zeros gs start len : zero_span gs = (start, len) → zeros_at gs start len.
Proof.
  intros H. change (zero_span gs) with (let '(_, _, l) := fold_left span_step gs (0, (0, 0), (0, 0)) in l) in H.
  destruct (fold_left span_step gs _) as [[i [cs cl]] [ls ll]] eqn:E. injection H as -> ->.
  by apply zero_span_fold in E as (_ & _ & _ & Hz).
Qed.

Lemma zeros_at_split gs start len :
  zeros_at gs start len → gs = take start gs ++ replicate len 0%Z ++ drop (start + len) gs.
Proof.
  intros [Hl Hz]. rewrite <- (take_drop start gs) at 1. f_equal.
  rewrite <- (take_drop len (drop start gs)) at 1. rewrite drop_drop. f_equal.
  apply list_eq. intros k. destruct (decide (k < len)) as [Hk|Hk].
  - rewrite lookup_take_lt, lookup_drop, lookup_replicate_2 by done. by apply Hz.
  - rewrite lookup_take_ge by lia. symmetry. apply lookup_ge_None. rewrite length_replicate. lia.
Qed.

(** ** Segments *)

Lemma segments_range a : Forall (fun g => 0 <= g < 65536)%Z (segments a).
Proof. unfold segments. apply Forall_fmap, Forall_true. intros k. simpl. by apply Z.mod_pos_bound. Qed.

(** The number above the [k] low segments, a segment at a time. *)
Lemma div_segment a k :
  (a / 2 ^ (16 * Z.of_nat k) = a / 2 ^ (16 * Z.of_nat (S k)) * 65536 + (a / 2 ^ (16 * Z.of_nat k)) mod 65536)%Z.
Proof.
  replace (2 ^ (16 * Z.of_nat (S k)))%Z with (2 ^ (16 * Z.of_nat k) * 65536)%Z
    by (rewrite Nat2Z.inj_succ; replace (16 * Z.succ (Z.of_nat k))%Z with (16 * Z.of_nat k + 16)%Z by lia;
        by rewrite Z.pow_add_r by lia).
  rewrite <- Z.div_div by (try apply Z.pow_nonzero; lia).
  pose proof (Z.div_mod (a / 2 ^ (16 * Z.of_nat k)) 65536). lia.
Qed.

Lemma of_segments_segments a : (0 <= a < 2 ^ 128)%Z → of_segments (segments a) = a.
Proof.
  intros Ha. unfold of_segments, segments. cbn [map fold_left].
  assert (a / 2 ^ (16 * Z.of_nat 8) = 0)%Z as H8 by (by apply Z.div_small).
  pose proof (div_segment a 7) as H7. rewrite H8 in H7. rewrite <- H7.
  do 7 (match goal with |- context [(a / 2 ^ (16 * Z.of_nat (S ?k)) * 65536 + _)%Z] => rewrite <- (div_segment a k) end).
  apply Z.div_1_r.
Qed.

(** ** Printing and reading *)

Lemma group_text_S i j gs : group_text (S i) gs = group_text (S j) gs.
Proof. revert i j. induction gs as [|g gs IH]; intros i j; [done|]. simpl. by rewrite (IH (S i) (S j)). Qed.

Lemma fmt_group_text gs : fmt_subslice gs = group_text 0 gs.
Proof.
  unfold fmt_subslice. induction gs as [|g gs IH]; [done|]. destruct gs as [|g' gs]; [simpl; by rewrite app_nil_r|].
  cbn [map] in *. change (join_with ?sep (?w :: ?w' :: ?ws)) with (w ++ sep ++ join_with sep (w' :: ws)).
  rewrite IH. cbn [group_text app]. do 3 f_equal. apply (group_text_S 0 1).
Qed.

Lemma show_hex16_no_dot g : "."%byte ∉ show_hex16 g.
Proof.
  pose proof (show_radix_digits 16 ltac:(lia) ltac:(lia) 4 g [] ltac:(constructor)) as H.
  rewrite Forall_forall in H. by intros Hd%H.
Qed.

Lemma group_text_no_dot i gs : "."%byte ∉ group_text i gs.
Proof.
  revert i. induction gs as [|g gs IH]; intros i; simpl; [set_solver|].
  pose proof (show_hex16_no_dot g). specialize (IH (S i)). destruct i; set_solver.
Qed.

(** Groups, written in full. *)
Lemma read_ipv6_full gs :
  Forall (fun g => 0 <= g < 65536)%Z gs → length gs = 8 →
  read_ipv6_addr (fmt_subslice gs) = Some (of_segments gs, []).
Proof.
  intros Hgs Hl. unfold read_ipv6_addr. rewrite fmt_group_text, <- (app_nil_r (group_text 0 gs)).
  rewrite read_groups_show; [by rewrite Hl|done|lia|by left|]. rewrite app_nil_r. apply group_text_no_dot.
Qed.

(** Groups with a run of zeros left out. *)
Lemma read_ipv6_short hd len tl :
  Forall (fun g => 0 <= g < 65536)%Z (hd ++ tl) → 1 < len → length hd + len + length tl = 8 →
  read_ipv6_addr (fmt_subslice hd ++ "::"%bs ++ fmt_subslice tl) = Some (of_segments (hd ++ replicate len 0%Z ++ tl), []).
Proof.
  intros [Hh Ht]%Forall_app Hlen Hl. unfold read_ipv6_addr. rewrite !fmt_group_text.
  pose proof (group_text_no_dot 0 hd). pose proof (group_text_no_dot 0 tl).
  rewrite read_groups_show; [|done|lia|right; by eexists|set_solver].
  destruct (Nat.eqb_spec (length hd) 8); [lia|]. cbn [app read_given_char]. rewrite !bool_decide_true by done.
  cbn [mbind option_bind read_given_char]. rewrite bool_decide_true by done. cbn [mbind option_bind].
  rewrite <- (app_nil_r (group_text 0 tl)), read_groups_show; [|done|lia|by left|set_solver].
  by replace (8 - length hd - length tl) with len by lia.
Qed.

Lemma read_ipv6_mapped v :
  (0 <= v < 2 ^ 32)%Z → read_ipv6_addr ("::ffff:"%bs ++ show_ipv4 v) = Some (65535 * 2 ^ 32 + v, [])%Z.
Proof.
  intros Hv. unfold read_ipv6_addr.
  change (read_groups 8 0 ("::ffff:"%bs ++ show_ipv4 v)) with ([] : list Z, false, "::ffff:"%bs ++ show_ipv4 v).
  cbn [length Nat.eqb]. change ("::ffff:"%bs ++ show_ipv4 v) with (":"%byte :: ":"%byte :: "ffff:"%bs ++ show_ipv4 v).
  cbn [read_given_char]. rewrite bool_decide_true by done. cbn [mbind option_bind read_given_char].
  rewrite bool_decide_true by done. cbn [mbind option_bind].
  change (8 - (0 + 1)) with (S (S 5)). cbn [read_groups]. change (1 <=? 6) with true. cbv iota.
  change (read_separator ":"%byte 0 read_ipv4_addr ("ffff:"%bs ++ show_ipv4 v)) with (@None (Z * bytes)). cbv iota.
  rewrite read_separator_0. change ("ffff:"%bs ++ show_ipv4 v) with (show_hex16 65535 ++ ":"%byte :: show_ipv4 v).
  rewrite read_group_show by done. change (1 <=? 5) with true. cbv iota.
  rewrite read_separator_S, <- (app_nil_r (show_ipv4 v)), read_ipv4_addr_show by done.
  unfold of_segments. cbn [length Nat.sub replicate app fold_left]. do 2 f_equal. Z.div_mod_to_equations. lia.
Qed.

Lemma read_show_ipv6 a : (0 <= a < 2 ^ 128)%Z → read_ipv6_addr (show_ipv6 a) = Some (a, []).
Proof.
  intros Ha. unfold show_ipv6. destruct (Z.eqb_spec (a / 2 ^ 32) 65535) as [Hm|_].
  { rewrite read_ipv6_mapped by (by apply Z.mod_pos_bound). do 2 f_equal.
    pose proof (Z.div_mod a (2 ^ 32)). lia. }
  destruct (zero_span (segments a)) as [st len] eqn:Ez. apply zero_span_zeros in Ez.
  pose proof (segments_range a) as Hr. pose proof (zeros_at_split _ _ _ Ez) as Hs. destruct Ez as [Hl _].
  change (length (segments a)) with 8 in Hl. destruct (Nat.ltb_spec 1 len).
  - rewrite read_ipv6_short with (len := len); [by rewrite <- Hs, of_segments_segments| |done|].
    + rewrite Hs in Hr. apply Forall_app in Hr as [? Hr]. apply Forall_app in Hr as [_ ?]. by apply Forall_app.
    + rewrite length_take, length_drop. change (length (segments a)) with 8. lia.
  - rewrite read_ipv6_full by done. by rewrite of_segments_segments.
Qed.

Lemma show_ipv6_not_ipv4 a : read_ipv4_addr (show_ipv6 a) = None.
Proof.
  unfold show_ipv6. destruct (_ =? 65535)%Z; [done|]. destruct (zero_span _) as [st len].
  apply read_ipv4_no_dot. rewrite !fmt_group_text. destruct (1 <? len); [|apply group_text_no_dot].
  pose proof (group_text_no_dot 0 (take st (segments a))). pose proof (group_text_no_dot 0 (drop (st + len) (segments a))).
  set_solver.
Qed.

Lemma parse_show_ip ip : ip_wf ip → parse_ip (show_ip ip) = Some ip.
Proof.
  destruct ip as [a|a]; intros Ha; [by apply parse_show_ipv4|]. unfold parse_ip, show_ip.
  rewrite show_ipv6_not_ipv4, read_show_ipv6 by done. done.
Qed.

(** ** From the wire to the dialer *)

Lemma be_value_range bs : (0 <= be_value bs < 256 ^ Z.of_nat (length bs))%Z.
Proof.
  unfold be_value. induction bs as [|b bs IH] using rev_ind; [simpl; lia|].
  rewrite fold_left_app, length_app, Nat2Z.inj_add, Z.pow_add_r by lia. simpl. pose proof (b2z_range b). lia.
Qed.

(** The address a SOCKS5 request names, when it names one. *)
Definition socks_ip (a : SocksAddr) : option IpAddr :=
  match a with
  | SocksV4 a => Some (V4 (be_value a))
  | SocksV6 a => Some (V6 (be_value a))
  | SocksDomain _ => None
  end.

Lemma socks_host_ip a ip : socks_addr_wf a → socks_ip a = Some ip → parse_ip (socks_host a) = Some ip.
Proof.
  destruct a as [a|n|a]; simpl; intros Hwf [= <-]; pose proof (be_value_range a) as Hr; rewrite Hwf in Hr.
  - by apply (parse_show_ip (V4 _)).
  - by apply (parse_show_ip (V6 _)).
Qed.

Section dialed.
Context {N Stream : Type} `{NW : !Network N Stream}.

(** C15 (SOCKS5): an address in a SOCKS5 request is the address that is dialed.
    It becomes a host name on its way through the pipeline and is read back by
    the dialer: of both families, the name means the very address and port on
    the wire, no name is ever looked up, and a denied address is not tried. *)
Theorem socks5_address_is_dialed rsv a ip p0 p1 rest proof https g n :
  socks_addr_wf a → socks_ip a = Some ip →
  ∃ t, parse_socks5_request (socks_request_wire rsv a [p0; p1] rest) = Ok t ∧
    ct_port t = be16 p0 p1 ∧ parse_ip (ct_host t) = Some ip ∧
    let '(res, m, tried, n') := connect_upstream proof (ct_host t) (ct_port t) https g n in
    tried `prefix_of` [{| sa_ip := ip; sa_port := be16 p0 p1 |}] ∧
    (∀ d, check g ip = Err d → tried = [] ∧ res = Err (Denied d) ∧ n' = n).
Proof.
  intros Hwf Hip. pose proof (socks_host_ip a ip Hwf Hip) as Hp. eexists. split; [by apply parse_socks5_wire|].
  cbn [ct_host ct_port]. split; [done|]. split; [done|].
  unfold connect_upstream. rewrite Hp.
  destruct (dial_loop g _ https _ None [] n) as [[[res m] tried] n'] eqn:E. split.
  - pose proof E as (pre & post & Heq & ->)%dial_loop_prefix. rewrite Heq. by exists post.
  - intros d Hd. cbn [dial_loop sa_ip] in E. rewrite Hd in E. by injection E as <- <- <- <-.
Qed.

End dialed.

(** The cloud metadata service, given as an address in an IPv4-mapped form. *)
Definition ex_mapped : SocksAddr :=
  SocksV6 (replicate 10 Byte.x00 ++ [Byte.xff; Byte.xff; Byte.xa9; Byte.xfe; Byte.xa9; Byte.xfe]).

Lemma socks5_address_is_dialed_witness :
  ∃ t, parse_socks5_request (socks_request_wire Byte.x00 ex_mapped [Byte.x00; Byte.x50] []) = Ok t ∧
    ct_host t = "::ffff:169.254.169.254"%bs ∧
    (connect_upstream (NW := table_network [] []) MkAllowProof (ct_host t) (ct_port t) false default_set 0).1.2 = [].
Proof.
  destruct (socks5_address_is_dialed (NW := table_network [] []) Byte.x00 ex_mapped (V6 281473533782526) Byte.x00 Byte.x50
    [] MkAllowProof false default_set 0) as (t & Ht & Hport & Hip & H).
  - reflexivity.
  - vm_compute. reflexivity.
  - exists t. split; [exact Ht|]. assert (ct_host t = "::ffff:169.254.169.254"%bs) as Hh.
    { vm_compute in Ht. injection Ht as <-. reflexivity. }
    split; [exact Hh|]. destruct (connect_upstream _ _ _ _ _ _) as [[[res m] tried] n'].
    destruct H as [_ H]. simpl. destruct (check default_set (V6 281473533782526)) as [u|d] eqn:E; [vm_compute in E; discriminate E|].
    destruct (H d eq_refl) as [-> _]. reflexivity.
Defined.
