(* ===== verification/Proxy.v ===== *)
(** * The proxy's runtime and effects ([hematite-proxy/src/state.rs], [audit.rs], [dial.rs])

    The runtime a configuration builds and the cell it is swapped in, the
    effects a connection handler has as a monad, the dialer with its awaits, and
    the pending audit record with its [Drop].  A handler is an async function: at each [await] the
    executor may first swap in a new runtime (a reload), let other tasks use the
    resolver, or drop the handler (the client went away). *)

From Stdlib Require Import QArith.
From S2P Require Import Prelude Net Matcher Summary Pipeline KernelAudit Dial.
#[local] Close Scope Q_scope.

(** ** The runtime ([state.rs]) *)

Record Runtime (W : Type) : Type := {
  rt_pipeline : Pipeline W;
  rt_guard : Guard;
  max_request_body_bytes : Z;
  tls_configured : bool;  (* [cert_cache.is_some()] *)
  tunnel_passthrough : list DomainGlob;
}.
Arguments rt_pipeline {W} r.
Arguments rt_guard {W} r.
Arguments max_request_body_bytes {W} r.
Arguments tls_configured {W} r.
Arguments tunnel_passthrough {W} r.

(** ** Messages as hyper hands them over *)

Inductive Frame : Type := DataFrame (data : bytes) | TrailersFrame (trailers : list (bytes * bytes)).

(** [Incoming]: the frames a body still yields, up to its end or an error. *)
Definition Incoming : Type := list (result Frame bytes).

(** Bodies the proxy sends: [Full], or what is left of a stream. *)
Inductive OutBody : Type :=
| FullBody (data : bytes)
| ChainBody (prefix : option bytes) (inner : Incoming)
| IncomingBody (frames : Incoming).

Record UpstreamRequest : Type := {
  ur_method : bytes;
  ur_uri : bytes;
  ur_headers : list (bytes * bytes);
  ur_body : OutBody;
}.

(** ** What a handler does to the outside, in order *)

Inductive Level : Type := Info | Warn | LError.

Inductive Event : Type :=
| Dialed (addr : SocketAddr)
| Counted (m : DialResult)
| Sent (req : UpstreamRequest)
| Emitted (record : AuditRecord) (level : Level)
| Replied (data : bytes)
| Spliced (data : bytes)
| Bridged.

(** Part 08 §1. *)
Definition level_for (action : Action) : Level :=
  match action with
  | Allow | AStub | ClientCancel => Info
  | AReject => Warn
  | AError => LError
  end.

(** ** The monad of handlers *)

(** What the executor does when a handler awaits: it completes the operation,
    drops the handler, lets a reload swap the runtime, or lets other tasks and
    time move the world the secrets are resolved in. *)
Inductive Tick (W : Type) : Type :=
| Proceed
| DropFuture
| Swap (runtime : Runtime W)
| Others (world : W).
Arguments Proceed {W}.
Arguments DropFuture {W}.
Arguments Swap {W} runtime.
Arguments Others {W} world.

(** [emitted] is the flag of the pending audit record in scope, [shared] the
    cell of [SharedState], [sched] what is to happen at the next awaits. *)
Record St (N W : Type) : Type := {
  emitted : bool;
  net : N;
  world : W;
  shared : Runtime W;
  sched : list (Tick W);
}.
Arguments emitted {N W} s.
Arguments net {N W} s.
Arguments world {N W} s.
Arguments shared {N W} s.
Arguments sched {N W} s.

Inductive Exit (A : Type) : Type := Done (a : A) | Dropped.
Arguments Done {A} a.
Arguments Dropped {A}.

Section effects.
Context {N W : Type}.
Implicit Types (st : St N W).

Definition set_emitted (b : bool) st : St N W :=
  {| emitted := b; net := net st; world := world st; shared := shared st; sched := sched st |}.
Definition set_net (n : N) st : St N W :=
  {| emitted := emitted st; net := n; world := world st; shared := shared st; sched := sched st |}.
Definition set_world (w : W) st : St N W :=
  {| emitted := emitted st; net := net st; world := w; shared := shared st; sched := sched st |}.

(** A computation: how it ended, what it did, and the state afterwards. *)
Definition Proc (A : Type) : Type := St N W → Exit A * list Event * St N W.

#[global] Instance proc_ret : MRet Proc := fun A a st => (Done a, [], st).

#[global] Instance proc_bind : MBind Proc := fun A B k m st =>
  let '(ex, evs, st) := m st in
  match ex with
  | Done a => let '(ex, evs', st) := k a st in (ex, evs ++ evs', st)
  | Dropped => (Dropped, evs, st)
  end.

(** Reading the state, and logging an effect. *)
Definition get {A} (f : St N W → A) : Proc A := fun st => (Done (f st), [], st).
Definition log (evs : list Event) : Proc unit := fun st => (Done tt, evs, st).

(** The ticks up to the point where the awaited operation completes. *)
Fixpoint ticks (rt : Runtime W) (w : W) (s : list (Tick W)) : bool * Runtime W * W * list (Tick W) :=
  match s with
  | [] => (true, rt, w, [])
  | Proceed :: s => (true, rt, w, s)
  | DropFuture :: s => (false, rt, w, s)
  | Swap rt :: s => ticks rt w s
  | Others w :: s => ticks rt w s
  end.

(** [.await] on an operation of the network. *)
Definition await {A} (op : N → A * list Event * N) : Proc A := fun st =>
  let '(alive, rt, w, s) := ticks (shared st) (world st) (sched st) in
  let at_ n := {| emitted := emitted st; net := n; world := w; shared := rt; sched := s |} in
  if alive then let '(a, evs, n) := op (net st) in (Done a, evs, at_ n)
  else (Dropped, [], at_ (net st)).

(** A synchronous run of code that uses the resolver's world. *)
Definition with_world {A} (f : W → A * W) : Proc A := fun st =>
  let '(a, w) := f (world st) in (Done a, [], set_world w st).

(** [SharedState::current]. *)
Definition current : Proc (Runtime W) := get shared.

(** [PendingAudit::emit]. *)
Definition pending_emit (record : AuditRecord) : Proc unit := fun st =>
  (Done tt, [Emitted record (level_for (ar_action record))], set_emitted true st).

(** The record [PendingAudit::drop] emits when nothing was. *)
Definition drop_record (remote : option bytes) : AuditRecord :=
  {| ar_host := []; ar_method := []; ar_path := []; ar_remote_addr := remote; ar_sni := None;
     ar_mode := Http; ar_action := AError; ar_status_code := None; ar_duration_ms := 0%Q;
     ar_rejected_by := None; ar_stubbed_by := None;
     ar_error := Some (Text "request handler terminated without emitting audit"%bs);
     ar_request_transforms := []; ar_response_transforms := []; ar_tunnel := None;
     ar_guard := None; ar_body_capture := None |}.

(** [PendingAudit::drop]. *)
Definition pending_drop (remote : option bytes) (emitted : bool) : list Event :=
  if emitted then [] else [Emitted (drop_record remote) LError].

(** The scope of a [PendingAudit]: created on entry, dropped on every way
    out. *)
Definition with_pending {A} (remote : option bytes) (m : Proc A) : Proc A := fun st =>
  let '(ex, evs, st) := m (set_emitted false st) in
  (ex, evs ++ pending_drop remote (emitted st), st).

End effects.
Arguments Proc N W A : clear implicits.

(** [connect_upstream] as the handlers await it: the lookup, each connection
    attempt and the TLS handshake are awaits of their own, and an attempt has
    begun when its await is reached, so a handler dropped in the middle leaves
    the attempts it made. [wp_dial] relates it to [Dial.connect_upstream]. *)
Section dialing.
Context {N W Stream : Type} `{NW : !Network N Stream}.
Implicit Types (rt : Runtime W).

(** [runtime.metrics.inc_dial], and the result. *)
Definition counted (m : DialResult) (r : result Stream DialError) : Proc N W (result Stream DialError) :=
  log [Counted m];; mret r.

Fixpoint dial_addrs rt (host : bytes) (scheme_https : bool) (addrs : list SocketAddr) (last_err : option message) :
    Proc N W (result Stream DialError) :=
  match addrs with
  | [] => counted ConnectError (Err (Failed (default (Text "dial failed"%bs) last_err)))
  | addr :: addrs =>
      match check (rt_guard rt) (sa_ip addr) with
      | Err denial => counted GuardDenied (Err (Denied denial))
      | Ok _ =>
          log [Dialed addr];;
          tcp ← await (fun n => let '(r, n) := tcp_connect addr n in (r, [], n));
          match tcp with
          | ConnectFailed e =>
              dial_addrs rt host scheme_https addrs
                (Some (Fmt "connect {addr}: {e}"%bs [show_addr addr; Text e]))
          | TimedOut =>
              dial_addrs rt host scheme_https addrs
                (Some (Fmt "connect {addr}: dial timeout"%bs [show_addr addr]))
          | Connected s =>
              if negb scheme_https then counted DialOk (Ok s)
              else if negb (valid_server_name host) then
                mret (Err (Failed (Fmt "invalid upstream server name {host:?}"%bs [Text host])))
              else
                tls ← await (fun n => let '(r, n) := tls_connect host s n in (r, [], n));
                match tls with
                | Ok s => counted DialOk (Ok s)
                | Err e => counted TlsError (Err (Failed (Fmt "upstream TLS: {e}"%bs [Text e])))
                end
          end
      end
  end.

Definition dial (proof : AllowProof) (host : bytes) (port : Z) (scheme_https : bool) rt :
    Proc N W (result Stream DialError) :=
  addrs ← match parse_ip host with
          | Some ip => mret (Ok [{| sa_ip := ip; sa_port := port |}])
          | None => await (fun n => let '(r, n) := lookup_host host port n in (r, [], n))
          end;
  match addrs with
  | Err e =>
      counted DnsFailed (Err (Failed (Fmt "resolution failed for {host:?}: {e}"%bs [Text host; Text e])))
  | Ok [] => counted DnsFailed (Err (Failed (Fmt "no addresses for {host:?}"%bs [Text host])))
  | Ok addrs => dial_addrs rt host scheme_https addrs None
  end.

End dialing.

(** ** Assignments to one field of a record *)

Definition set_action (a : Action) (r : AuditRecord) : AuditRecord :=
  let '(Build_AuditRecord h m p ra s mo _ st d rb sb e rt rs t g b) := r in
  Build_AuditRecord h m p ra s mo a st d rb sb e rt rs t g b.
Definition set_status (st : option Z) (r : AuditRecord) : AuditRecord :=
  let '(Build_AuditRecord h m p ra s mo a _ d rb sb e rt rs t g b) := r in
  Build_AuditRecord h m p ra s mo a st d rb sb e rt rs t g b.
Definition set_duration (d : Q) (r : AuditRecord) : AuditRecord :=
  let '(Build_AuditRecord h m p ra s mo a st _ rb sb e rt rs t g b) := r in
  Build_AuditRecord h m p ra s mo a st d rb sb e rt rs t g b.
Definition set_rejected_by (rb : option bytes) (r : AuditRecord) : AuditRecord :=
  let '(Build_AuditRecord h m p ra s mo a st d _ sb e rt rs t g b) := r in
  Build_AuditRecord h m p ra s mo a st d rb sb e rt rs t g b.
Definition set_stubbed_by (sb : option bytes) (r : AuditRecord) : AuditRecord :=
  let '(Build_AuditRecord h m p ra s mo a st d rb _ e rt rs t g b) := r in
  Build_AuditRecord h m p ra s mo a st d rb sb e rt rs t g b.
Definition set_error (e : option message) (r : AuditRecord) : AuditRecord :=
  let '(Build_AuditRecord h m p ra s mo a st d rb sb _ rt rs t g b) := r in
  Build_AuditRecord h m p ra s mo a st d rb sb e rt rs t g b.
Definition set_request_transforms (rt : list Trace) (r : AuditRecord) : AuditRecord :=
  let '(Build_AuditRecord h m p ra s mo a st d rb sb e _ rs t g b) := r in
  Build_AuditRecord h m p ra s mo a st d rb sb e rt rs t g b.
Definition set_response_transforms (rs : list Trace) (r : AuditRecord) : AuditRecord :=
  let '(Build_AuditRecord h m p ra s mo a st d rb sb e rt _ t g b) := r in
  Build_AuditRecord h m p ra s mo a st d rb sb e rt rs t g b.
Definition set_sni (s : option bytes) (r : AuditRecord) : AuditRecord :=
  let '(Build_AuditRecord h m p ra _ mo a st d rb sb e rt rs t g b) := r in
  Build_AuditRecord h m p ra s mo a st d rb sb e rt rs t g b.
Definition set_tunnel (t : option TunnelGroup) (r : AuditRecord) : AuditRecord :=
  let '(Build_AuditRecord h m p ra s mo a st d rb sb e rt rs _ g b) := r in
  Build_AuditRecord h m p ra s mo a st d rb sb e rt rs t g b.
Definition set_guard (g : option GuardDenial) (r : AuditRecord) : AuditRecord :=
  let '(Build_AuditRecord h m p ra s mo a st d rb sb e rt rs t _ b) := r in
  Build_AuditRecord h m p ra s mo a st d rb sb e rt rs t g b.
Definition set_capture (b : option BodyCapture) (r : AuditRecord) : AuditRecord :=
  let '(Build_AuditRecord h m p ra s mo a st d rb sb e rt rs t g _) := r in
  Build_AuditRecord h m p ra s mo a st d rb sb e rt rs t g b.

(** ** Reasoning about handlers *)

Section wp.
Context {N W : Type}.
Implicit Types (st : St N W).

(** However [m] goes from [st], the postcondition holds of how it ended, what
    it did, and the state it left. *)
Definition wp {A} (m : Proc N W A) (Q : Exit A → list Event → St N W → Prop) st : Prop :=
  let '(ex, evs, st') := m st in Q ex evs st'.

Lemma wp_ret {A} (a : A) (Q : Exit A → list Event → St N W → Prop) st :
  Q (Done a) [] st → wp (mret a) Q st.
Proof. done. Qed.

Lemma wp_bind {A B} (m : Proc N W A) (k : A → Proc N W B) Q st :
  wp m (fun ex evs st' => match ex with
                          | Done a => wp (k a) (fun ex evs' => Q ex (evs ++ evs')) st'
                          | Dropped => Q Dropped evs st'
                          end) st → wp (m ≫= k) Q st.
Proof.
  unfold wp, mbind, proc_bind. destruct (m st) as [[[a|] evs] st1]; [|done].
  by destruct (k a st1) as [[ex evs'] st2].
Qed.

Lemma wp_mono {A} (m : Proc N W A) (P Q : Exit A → list Event → St N W → Prop) st :
  wp m P st → (∀ ex evs st', P ex evs st' → Q ex evs st') → wp m Q st.
Proof. unfold wp. destruct (m st) as [[ex evs] st1]. auto. Qed.

Lemma wp_true {A} (m : Proc N W A) st : wp m (fun _ _ _ => True) st.
Proof. unfold wp. by destruct (m st) as [[ex evs] st1]. Qed.

Lemma wp_and {A} (m : Proc N W A) (P Q : Exit A → list Event → St N W → Prop) st :
  wp m P st → wp m Q st → wp m (fun ex evs st' => P ex evs st' ∧ Q ex evs st') st.
Proof. unfold wp. by destruct (m st) as [[ex evs] st1]. Qed.

Lemma wp_get {A} (f : St N W → A) Q st : Q (Done (f st)) [] st → wp (get f) Q st.
Proof. done. Qed.

Lemma wp_log evs Q st : Q (Done tt) evs st → wp (log evs) Q st.
Proof. done. Qed.

Lemma wp_emit r Q st :
  Q (Done tt) [Emitted r (level_for (ar_action r))] (set_emitted true st) → wp (pending_emit r) Q st.
Proof. done. Qed.

Lemma wp_with_world {A} (f : W → A * W) Q st :
  Q (Done (f (world st)).1) [] (set_world (f (world st)).2 st) → wp (with_world f) Q st.
Proof. unfold wp, with_world. by destruct (f (world st)). Qed.

(** *** The runtimes and worlds of a run *)

(** The runtime in force, and those the schedule swaps in. *)
Definition swapped_in (t : Tick W) : option (Runtime W) := match t with Swap rt => Some rt | _ => None end.

Definition runtimes st : list (Runtime W) := shared st :: omap swapped_in (sched st).

(** The world secrets are resolved in, and those others leave it in. *)
Definition moved_to (t : Tick W) : option W := match t with Others w => Some w | _ => None end.

Definition worlds st : list W := world st :: omap moved_to (sched st).

Lemma world_in_worlds st : world st ∈ worlds st.
Proof. left. Qed.

Lemma ticks_states (rt : Runtime W) w s :
  (ticks rt w s).1.1.2 :: omap swapped_in (ticks rt w s).2 ⊆ rt :: omap swapped_in s ∧
  (ticks rt w s).1.2 :: omap moved_to (ticks rt w s).2 ⊆ w :: omap moved_to s.
Proof.
  revert rt w. induction s as [|[| |rt'|w'] s IH]; intros rt w; [done..| |].
  - change (omap swapped_in (Swap rt' :: s)) with (rt' :: omap swapped_in s).
    destruct (IH rt' w) as [H1 H2]. split; [|done]. etrans; [exact H1|]. set_solver.
  - change (omap moved_to (Others w' :: s)) with (w' :: omap moved_to s).
    destruct (IH rt w') as [H1 H2]. split; [done|]. etrans; [exact H2|]. set_solver.
Qed.

(** An await keeps the pending flag, and no runtime or world comes from
    elsewhere; it runs its operation on the network once, or not at all when
    the handler is dropped. *)
Lemma wp_await_states {A} (op : N → A * list Event * N) st :
  wp (await op) (fun _ _ st' => runtimes st' ⊆ runtimes st ∧ worlds st' ⊆ worlds st) st.
Proof.
  unfold wp, await, runtimes, worlds. pose proof (ticks_states (shared st) (world st) (sched st)) as H.
  destruct (ticks _ _ _) as [[[[] rt] w] s]; [|done]. by destruct (op (net st)) as [[a evs] n].
Qed.

Lemma wp_await {A} (op : N → A * list Event * N) Q st :
  (∀ st', emitted st' = emitted st → worlds st' ⊆ worlds st → net st' = net st → Q Dropped [] st') →
  (∀ st' a evs, op (net st) = (a, evs, net st') → emitted st' = emitted st → worlds st' ⊆ worlds st →
     Q (Done a) evs st') →
  wp (await op) Q st.
Proof.
  intros Hd Hk. pose proof (wp_await_states op st) as Hs. unfold wp, await in *.
  destruct (ticks _ _ _) as [[[[] rt] w] s]; [|destruct Hs; by apply Hd].
  destruct (op (net st)) as [[a evs] n] eqn:E. destruct Hs. by apply Hk.
Qed.

(** *** Dialing *)

Context {Stream : Type} `{NW : !Network N Stream}.

(** What other tasks may have changed when a computation awaited. *)
Definition awaited st st' : Prop := emitted st' = emitted st ∧ worlds st' ⊆ worlds st.

Lemma awaited_trans st1 st2 st3 : awaited st1 st2 → awaited st2 st3 → awaited st1 st3.
Proof. intros [? ?] [? ?]. split; [congruence|by etrans]. Qed.

Lemma wp_counted m r Q st : Q (Done r) [Counted m] st → wp (counted (Stream := Stream) m r) Q st.
Proof. done. Qed.

(** A call of the network that no event goes with. *)
Lemma wp_await_op {A} (f : N → A * N) Q st :
  (∀ st', awaited st st' → Q Dropped [] st') →
  (∀ st', awaited st st' → net st' = (f (net st)).2 → Q (Done (f (net st)).1) [] st') →
  wp (await (fun n => let '(r, n) := f n in (r, [], n))) Q st.
Proof.
  intros Hd Hk. apply wp_await; [intros; by apply Hd|]. intros st' a evs Hop He Hw.
  destruct (f (net st)) as [r n]. injection Hop as <- <- Hn. by apply Hk.
Qed.

Lemma app_own_nil {A} (l k : list A) : l = l ++ k → k = [].
Proof. intros H. apply (inj (app l)). by rewrite app_nil_r. Qed.

(** The loop over the addresses runs as [dial_loop] does, up to where it is
    dropped. *)
Lemma wp_dial_addrs rt host https addrs last_err tried res m more n' Q st :
  dial_loop (rt_guard rt) host https addrs last_err tried (net st) = (res, m, tried ++ more, n') →
  (∀ pre st', pre `prefix_of` more → awaited st st' → Q Dropped (map Dialed pre) st') →
  (∀ st', awaited st st' → net st' = n' → Q (Done res) (map Dialed more ++ map Counted m) st') →
  wp (dial_addrs rt host https addrs last_err) Q st.
Proof.
  revert last_err tried more Q st. induction addrs as [|a addrs IH]; intros last_err tried more Q st; simpl.
  { intros [= <- <- ->%app_own_nil <-] Hd Hk. by apply wp_counted, Hk. }
  destruct (check (rt_guard rt) (sa_ip a)) as [u|denial]; intros H Hd Hk.
  2:{ injection H as <- <- ->%app_own_nil <-. by apply wp_counted, Hk. }
  destruct (tcp_connect a (net st)) as [tcp n1] eqn:Ec.
  apply wp_bind, wp_log. cbn [app]. apply wp_bind, wp_await_op; rewrite ?Ec; simpl.
  { assert (∃ more', more = a :: more') as [more' ->].
    { destruct tcp as [s|e|].
      - assert (tried ++ more = tried ++ [a]) as ?%(inj _) by (repeat case_match; by simplify_eq). by exists [].
      - apply dial_loop_prefix in H as (pre & post & _ & H). rewrite <- app_assoc in H. simplify_list_eq. eauto.
      - apply dial_loop_prefix in H as (pre & post & _ & H). rewrite <- app_assoc in H. simplify_list_eq. eauto. }
    intros st' Hst. apply (Hd [a]); [by exists more'|done]. }
  intros st1 H1 Hn1.
  assert (∀ le, dial_loop (rt_guard rt) host https addrs le (tried ++ [a]) n1 = (res, m, tried ++ more, n') →
    wp (dial_addrs rt host https addrs le) (fun ex evs' => Q ex (Dialed a :: evs')) st1) as Hnext.
  { intros le Hl. rewrite <- Hn1 in Hl. pose proof Hl as (pre & post & _ & Hp)%dial_loop_prefix.
    rewrite <- app_assoc in Hp. apply (inj _) in Hp as ->. rewrite app_assoc in Hl.
    eapply IH; [exact Hl|..].
    - intros pre' st' [k ->] Hst. apply (Hd (a :: pre')); [by exists k|by eapply awaited_trans].
    - intros st' Hst Hn. apply (Hk st'); [by eapply awaited_trans|done]. }
  destruct tcp as [s|e|]; [|by apply Hnext..]. clear Hnext IH.
  assert (more = [a]) as ->.
  { assert (tried ++ more = tried ++ [a]) as ?%(inj _) by (repeat case_match; by simplify_eq). done. }
  destruct https; simpl in *; [|simplify_eq; apply wp_counted; by apply Hk].
  destruct (valid_server_name host); simpl in *; [|simplify_eq; apply wp_ret; by apply Hk].
  destruct (tls_connect host s n1) as [tls n2] eqn:Et.
  apply wp_bind, wp_await_op; rewrite ?Hn1, ?Et; simpl.
  - intros st' Hst. apply (Hd [a]); [done|by eapply awaited_trans].
  - intros st2 H2 Hn2. destruct tls; simplify_eq; apply wp_counted; apply Hk; try done; by eapply awaited_trans.
Qed.

(** The awaited dial is [connect_upstream], up to where it is dropped: the
    attempts made then are a first part of those it would make. *)
Lemma wp_dial proof host port https rt res m tried n' Q st :
  connect_upstream proof host port https (rt_guard rt) (net st) = (res, m, tried, n') →
  (∀ pre st', pre `prefix_of` tried → awaited st st' → Q Dropped (map Dialed pre) st') →
  (∀ st', awaited st st' → net st' = n' → Q (Done res) (map Dialed tried ++ map Counted m) st') →
  wp (dial proof host port https rt) Q st.
Proof.
  unfold connect_upstream, dial. intros H Hd Hk. apply wp_bind.
  assert (∀ addrs n1 st1, awaited st st1 → net st1 = n1 →
    match addrs with
    | Err e => (Err (Failed (Fmt "resolution failed for {host:?}: {e}"%bs [Text host; Text e])), [DnsFailed], [], n1)
    | Ok [] => (Err (Failed (Fmt "no addresses for {host:?}"%bs [Text host])), [DnsFailed], [], n1)
    | Ok addrs => dial_loop (rt_guard rt) host https addrs None [] n1
    end = (res, m, tried, n') →
    wp match addrs with
       | Err e => counted DnsFailed (Err (Failed (Fmt "resolution failed for {host:?}: {e}"%bs [Text host; Text e])))
       | Ok [] => counted DnsFailed (Err (Failed (Fmt "no addresses for {host:?}"%bs [Text host])))
       | Ok addrs => dial_addrs rt host https addrs None
       end (fun ex evs' => Q ex ([] ++ evs')) st1) as Hrest.
  { intros addrs n1 st1 H1 Hn1 Hl. cbn [app]. destruct addrs as [[|a addrs]|e].
    1,3: simplify_eq; apply wp_counted; by apply Hk.
    rewrite <- Hn1 in Hl. eapply (wp_dial_addrs _ _ _ _ _ [] _ _ tried); [exact Hl|..].
    - intros pre st' Hp Hst. apply Hd; [done|by eapply awaited_trans].
    - intros st' Hst Hn. apply Hk; [by eapply awaited_trans|done]. }
  destruct (parse_ip host) as [ip|].
  - apply wp_ret. by apply (Hrest (Ok [{| sa_ip := ip; sa_port := port |}]) (net st)).
  - destruct (lookup_host host port (net st)) as [r n1] eqn:El. apply wp_await_op; rewrite ?El.
    + intros st' Hst. by apply (Hd []); [apply prefix_nil|].
    + intros st1 H1 Hn1. by apply (Hrest r n1).
Qed.

(** *** Audit records *)

Definition records (evs : list Event) : list (AuditRecord * Level) :=
  omap (fun e => match e with Emitted r l => Some (r, l) | _ => None end) evs.

Lemma records_app a b : records (a ++ b) = records a ++ records b.
Proof. apply omap_app. Qed.

(** Nothing but the dialer's events. *)
Lemma records_dial tried counted : records (map Dialed tried ++ map Counted counted) = [].
Proof.
  rewrite records_app. induction tried; simpl; [|done]. by induction counted.
Qed.

Lemma records_dialed tried : records (map Dialed tried) = [].
Proof. pose proof (records_dial tried []) as H. by rewrite app_nil_r in H. Qed.

(** Until its record is out, a computation may only end by being dropped. *)
Definition audits {A} (P : Exit A → AuditRecord → Prop) (ex : Exit A) (evs : list Event) st : Prop :=
  if emitted st then ∃ r, records evs = [(r, level_for (ar_action r))] ∧ P ex r
  else records evs = [] ∧ ex = Dropped.

(** The scope of a pending record emits exactly one, with the level of its
    action: the handler's own, or the one of [drop]. *)
Lemma with_pending_once {A} remote (m : Proc N W A) P st :
  wp m (audits P) (set_emitted false st) →
  wp (with_pending remote m) (fun ex evs _ => ∃ r,
    records evs = [(r, level_for (ar_action r))] ∧
    (r = drop_record remote ∧ ex = Dropped ∨ P ex r)) st.
Proof.
  unfold wp, with_pending, audits. destruct (m _) as [[ex evs] st1].
  destruct (emitted st1); simpl.
  - intros (r & Hr & HP). exists r. rewrite records_app, Hr. eauto.
  - intros [Hr ->]. exists (drop_record remote). rewrite records_app, Hr. simpl. eauto.
Qed.

End wp.

(** *** Reloads

    Two states that differ only in the runtime of the shared cell, now or
    when it is swapped later on. *)
Section reload.
Context {N W : Type}.

Definition is_swap (t : Tick W) : bool := match t with Swap _ => true | _ => false end.
Definition no_swaps (s : list (Tick W)) : list (Tick W) := List.filter (fun t => negb (is_swap t)) s.

#[global] Instance st_equiv : Equiv (St N W) := fun a b =>
  emitted a = emitted b ∧ net a = net b ∧ world a = world b ∧ no_swaps (sched a) = no_swaps (sched b).

#[global] Instance st_equivalence : Equivalence (≡@{St N W}).
Proof.
  split.
  - by intros st.
  - intros a b (? & ? & ? & ?). by split_and!.
  - intros a b c (? & ? & ? & ?) (? & ? & ? & ?). split_and!; by etrans.
Qed.

(** The results agree, and so do the states left behind. *)
Definition run_equiv {A} (x y : Exit A * list Event * St N W) : Prop := x.1 = y.1 ∧ x.2 ≡ y.2.

Class Stable {A} (m : Proc N W A) : Prop := stable : Proper ((≡) ==> run_equiv) m.

#[global] Instance ret_stable {A} (a : A) : Stable (mret a).
Proof. by intros x y H. Qed.

#[global] Instance bind_stable {A B} (m : Proc N W A) (k : A → Proc N W B) :
  Stable m → (∀ a, Stable (k a)) → Stable (m ≫= k).
Proof.
  intros Hm Hk x y Hxy. specialize (Hm x y Hxy). unfold mbind, proc_bind.
  destruct (m x) as [[ex evs] x1], (m y) as [[ex' evs'] y1]. destruct Hm as [[= <- <-] H1]; simpl in *.
  destruct ex as [a|]; [|by split]. specialize (Hk a x1 y1 H1).
  destruct (k a x1) as [[ex2 evs2] x2], (k a y1) as [[ex2' evs2'] y2].
  destruct Hk as [[= <- <-] H2]. by split.
Qed.

#[global] Instance get_net_stable : Stable (get net).
Proof. intros x y H. split; [|done]. destruct H as (_ & Hn & _). simpl. by rewrite Hn. Qed.

#[global] Instance log_stable evs : Stable (log evs).
Proof. by intros x y H. Qed.

#[global] Instance emit_stable r : Stable (pending_emit r).
Proof. intros x y (? & ? & ? & ?). by split; [|split_and!]. Qed.

#[global] Instance with_world_stable {A} (f : W → A * W) : Stable (with_world f).
Proof.
  intros x y (He & Hn & Hw & Hs). unfold with_world. rewrite Hw. destruct (f (world y)) as [a w].
  by split; [|split_and!].
Qed.

Lemma ticks_no_swaps rt rt' w s s' :
  no_swaps s = no_swaps s' →
  (ticks rt w s).1.1.1 = (ticks rt' w s').1.1.1 ∧ (ticks rt w s).1.2 = (ticks rt' w s').1.2 ∧
  no_swaps (ticks rt w s).2 = no_swaps (ticks rt' w s').2.
Proof.
  revert rt rt' w s'. induction s as [|[] s IH]; intros rt rt' w s' H; simpl in *; [..|by apply IH|].
  all: revert rt' H; induction s' as [|[] s' IH']; intros rt' H; simpl in *; try done; try by apply IH'.
  all: injection H; intros; subst; first [done|by apply IH].
Qed.

#[global] Instance await_stable {A} (op : N → A * list Event * N) : Stable (await op).
Proof.
  intros x y (He & Hn & Hw & Hs). unfold await.
  rewrite Hw. destruct (ticks_no_swaps (shared x) (shared y) (world y) _ _ Hs) as (Ha & Hv & Ht).
  destruct (ticks (shared x) (world y) (sched x)) as [[[b rt] w] s], (ticks (shared y) (world y) (sched y)) as [[[b' rt'] w'] s'].
  simpl in *. subst b' w'. rewrite Hn. destruct b; [|by split; [|split_and!]].
  destruct (op (net y)) as [[a evs] n]. by split; [|split_and!].
Qed.

#[global] Instance dial_addrs_stable {Stream} `{NW : !Network N Stream} rt host https addrs last_err :
  Stable (dial_addrs rt host https addrs last_err).
Proof.
  revert last_err. induction addrs as [|a addrs IH]; intros last_err; simpl; [apply _|].
  destruct (check _ _); [|apply _]. apply bind_stable; [apply _|intros _].
  apply bind_stable; [apply _|intros [s|e|]; [|apply IH..]]. unfold counted.
  destruct (negb https); [apply _|]. destruct (negb _); [apply _|].
  apply bind_stable; [apply _|intros [s'|e]; apply _].
Qed.

#[global] Instance dial_stable {Stream} `{NW : !Network N Stream} proof host port https rt :
  Stable (dial proof host port https rt).
Proof.
  apply bind_stable; [destruct (parse_ip host); apply _|]. intros [[|a addrs]|e]; unfold counted; apply _.
Qed.

#[global] Instance with_pending_stable {A} remote (m : Proc N W A) :
  Stable m → Stable (with_pending remote m).
Proof.
  intros Hm x y (He & Hn & Hw & Hs). unfold with_pending.
  specialize (Hm (set_emitted false x) (set_emitted false y)).
  destruct (m (set_emitted false x)) as [[ex evs] x1], (m (set_emitted false y)) as [[ex' evs'] y1].
  destruct Hm as [[= <- <-] H]; [by split_and!|]. simpl in *.
  split; simpl; [|done]. by destruct H as (-> & _).
Qed.

End reload.
