(* ===== verification/Http.v ===== *)
(** * Request handling ([hematite-proxy/src/http.rs])

    From the request hyper hands over to the response it is given back:
    the target, the buffered body, the pipeline, the dial, the request sent
    upstream and the audit record of each way out.  hyper itself is the class
    [Hyper]. *)

From Stdlib Require Import QArith.
From S2P Require Import Prelude Utf8 Net Matcher Summary Pipeline KernelAudit Hop Dial Proxy.
#[local] Close Scope Q_scope.

(** ** Requests and responses *)

(** The accessors of [http::Uri] the code uses. *)
Record Uri : Type := {
  uri_path : bytes;
  uri_query : option bytes;
  uri_authority : option (bytes * option Z);
}.

(** Header names come lower-cased from hyper. *)
Record HttpRequest : Type := {
  rq_method : bytes;
  rq_uri : Uri;
  rq_headers : list (bytes * bytes);
  rq_body : Incoming;
}.

Record UpstreamResponse : Type := {
  us_status : Z;
  us_headers : list (bytes * bytes);
  us_body : Incoming;
}.

Record HttpResponse : Type := {
  hr_status : Z;
  hr_headers : list (bytes * bytes);
  hr_body : OutBody;
}.

Record ConnCtx : Type := {
  cc_remote_addr : bytes;
  cc_mode : Mode;
  cc_sni : option bytes;
  scheme_https : bool;
  forced_upstream : option (bytes * Z);
  tunnel_target : option bytes;
  tunnel_traces : list Trace;
}.

(** What the handlers use of hyper, and the clock, in seconds.  Parsers give
    the parsed value's bytes; [send_request] gives [None] when the header
    timeout elapses first. *)
Class Hyper (N Stream : Type) := {
  clock : N → Q;
  header_to_str : bytes → option bytes;
  method_from_bytes : bytes → result bytes bytes;
  uri_parse : bytes → result bytes bytes;
  header_name_from_bytes : bytes → result bytes bytes;
  header_value_from_bytes : bytes → result bytes bytes;
  response_build : Z → list (bytes * bytes) → option (Z * list (bytes * bytes));
  client_handshake : Stream → N → result Stream bytes * N;
  send_request : Stream → UpstreamRequest → N → option (result UpstreamResponse bytes) * N;
}.

(** ** Targets *)

(** [host[:port]] to the lower-cased host and the port. *)
Definition split_host_port (s : bytes) : bytes * option Z :=
  let s := trim s in
  let unbracketed :=
    match rsplit_once ":"%byte s with
    | Some (h, p) =>
        if negb (contains_byte ":"%byte h) then (to_ascii_lowercase h, parse_u16 p)
        else (to_ascii_lowercase s, None)
    | None => (to_ascii_lowercase s, None)
    end in
  match strip_prefix ["["%byte] s with
  | Some rest =>
      match find_byte (fun c => c ≟ "]"%byte) rest with
      | Some e =>
          (to_ascii_lowercase (take e rest),
           p ← strip_prefix [":"%byte] (drop (e + 1) rest); parse_u16 p)
      | None => unbracketed
      end
  | None => unbracketed
  end.

(** The loop of [percent_decode], on the bytes from the index on; the fuel
    is their number. *)
Fixpoint percent_decode_loop (fuel : nat) (s : bytes) : bytes :=
  match fuel, s with
  | S fuel, b :: r =>
      let escape :=
        if b ≟ "%"%byte then
          hex ← get_range 0 2 r;
          parse_uint 16 u8_max (default "zz"%bs (from_utf8 hex))
        else None in
      match escape with
      | Some v => z2b v :: percent_decode_loop fuel (drop 2 r)
      | None => b :: percent_decode_loop fuel r
      end
  | _, _ => []
  end.

Definition percent_decode (segment : bytes) : bytes := percent_decode_loop (length segment) segment.

Definition has_dot_segment (path : bytes) : bool :=
  existsb (fun seg => (percent_decode seg ≟ "."%bs) || (percent_decode seg ≟ ".."%bs))
    (split_on "/"%byte path).

Record Target : Type := { t_host : bytes; t_port : Z; t_path : bytes; t_query : bytes }.

Inductive TargetError : Type := Bad (reason : bytes) (host : bytes).

(** [HeaderMap::get]: the first value of the name. *)
Definition header_get (name : bytes) (hs : list (bytes * bytes)) : option bytes :=
  snd <$> List.find (fun h => h.1 ≟ name) hs.

Section http.
Context {N W Stream : Type} `{NW : !Network N Stream} `{HY : !Hyper N Stream}.

Definition header_str (name : bytes) (hs : list (bytes * bytes)) : option bytes :=
  v ← header_get name hs; header_to_str v.

Definition extract_target (req : HttpRequest) (default_port : Z) : result Target TargetError :=
  let uri := rq_uri req in
  let host_header := split_host_port <$> header_str "host"%bs (rq_headers req) in
  let authority := prod_map to_ascii_lowercase id <$> uri_authority uri in
  let? hp :=
    match authority, host_header with
    | Some (ah, ap), Some (hh, _) =>
        if negb (ah ≟ hh) then
          Err (Bad "request-target authority disagrees with Host header"%bs ah)
        else Ok (ah, default default_port ap)
    | Some (ah, ap), None => Ok (ah, default default_port ap)
    | None, Some (hh, hp) =>
        if negb (hh ≟ []) then Ok (hh, default default_port hp)
        else Err (Bad "missing or empty Host / authority"%bs [])
    | None, None => Err (Bad "missing or empty Host / authority"%bs [])
    end in
  Ok {| t_host := hp.1; t_port := hp.2; t_path := uri_path uri; t_query := default [] (uri_query uri) |}.

Definition resolve_target (req : HttpRequest) (ctx : ConnCtx) : result Target TargetError :=
  match forced_upstream ctx with
  | Some (host, port) =>
      Ok {| t_host := host; t_port := port; t_path := uri_path (rq_uri req);
            t_query := default [] (uri_query (rq_uri req)) |}
  | None =>
      let default_port := if scheme_https ctx then 443%Z else 80%Z in
      let? target := extract_target req default_port in
      match cc_sni ctx with
      | Some sni =>
          if negb ((split_host_port sni).1 ≟ t_host target) then
            Err (Bad "SNI does not match Host"%bs (t_host target))
          else Ok target
      | None => Ok target
      end
  end.

Definition base_record (ctx : ConnCtx) (host method path : bytes) (action : Action) : AuditRecord :=
  {| ar_host := host; ar_method := method; ar_path := path;
     ar_remote_addr := Some (cc_remote_addr ctx); ar_sni := cc_sni ctx; ar_mode := cc_mode ctx;
     ar_action := action; ar_status_code := None; ar_duration_ms := 0%Q;
     ar_rejected_by := None; ar_stubbed_by := None; ar_error := None;
     ar_request_transforms := []; ar_response_transforms := [];
     ar_tunnel := (fun target => {| tg_target := target; tg_request_transforms := tunnel_traces ctx;
                                    tg_passthrough := false |}) <$> tunnel_target ctx;
     ar_guard := None; ar_body_capture := None |}.

Definition is_websocket (req : HttpRequest) : bool :=
  if negb (rq_method req ≟ "GET"%bs) then false
  else
    let upgrade :=
      match header_str "upgrade"%bs (rq_headers req) with
      | Some v => eq_ignore_ascii_case v "websocket"%bs
      | None => false
      end in
    let connection :=
      match header_str "connection"%bs (rq_headers req) with
      | Some v => existsb (fun t => eq_ignore_ascii_case (trim t) "upgrade"%bs) (split_on ","%byte v)
      | None => false
      end in
    upgrade && connection.

(** ** Responses the proxy makes itself *)

Definition status_response (status : Z) : HttpResponse :=
  {| hr_status := status; hr_headers := []; hr_body := FullBody [] |}.

Definition build_response (r : Response) : HttpResponse :=
  match response_build (status r) (resp_headers r) with
  | Some (s, hs) => {| hr_status := s; hr_headers := hs; hr_body := FullBody (resp_body r) |}
  | None => status_response 502
  end.

Definition ms_since (started : Q) (n : N) : Q := ((clock n - started) * 1000)%Q.

(** The end of every path: the duration, the record, the response. *)
Definition finish (started : Q) (record : AuditRecord) (response : HttpResponse) : Proc N W HttpResponse :=
  n ← get net;
  pending_emit (set_duration (ms_since started n) record);;
  mret response.

(** An error path: 502 with the message. *)
Definition fail (started : Q) (record : AuditRecord) (msg : message) : Proc N W HttpResponse :=
  finish started (set_error (Some msg) (set_status (Some 502%Z) (set_action AError record)))
    (status_response 502).

(** ** The body *)

(** [ChainBody::poll_frame]. *)
Definition poll_frame (prefix : option bytes) (inner : Incoming) :
    option (result Frame bytes) * (option bytes * Incoming) :=
  match prefix with
  | Some p => (Some (Ok (DataFrame p)), (None, inner))
  | None => match inner with [] => (None, (None, [])) | f :: inner => (Some f, (None, inner)) end
  end.

(** Buffer up to the cap: the bytes, whether there were more, and the rest
    of the stream; [Err] when the client went away. *)
Fixpoint read_body (cap : Z) (buffered : bytes) (incoming : Incoming) :
    Proc N W (result (bytes * bool * Incoming) unit) :=
  if (cap <? Z.of_nat (length buffered))%Z then mret (Ok (buffered, true, incoming))
  else
    await (fun n => (tt, [], n));;
    match incoming with
    | [] => mret (Ok (buffered, false, []))
    | Ok (DataFrame data) :: incoming => read_body cap (buffered ++ data) incoming
    | Ok (TrailersFrame _) :: incoming => read_body cap buffered incoming
    | Err _ :: _ => mret (Err tt)
    end.

(** ** The request sent upstream *)

Definition lossy_headers (hs : list (bytes * bytes)) : list (bytes * bytes) :=
  map (fun h => (h.1, from_utf8_lossy h.2)) hs.

(** The headers that are forwarded. *)
Definition out_headers (summary : RequestSummary) (is_ws over : bool) : list (bytes * bytes) :=
  let hs := strip_hop_by_hop (headers summary) is_ws in
  if negb over then List.filter (fun h => negb (eq_ignore_ascii_case h.1 "content-length"%bs)) hs else hs.

Definition path_and_query (summary : RequestSummary) : bytes :=
  if query summary ≟ [] then path summary else path summary ++ "?"%bs ++ query summary.

Definition build_upstream (summary : RequestSummary) (is_ws over : bool) (buffered : bytes)
    (incoming : Incoming) : result UpstreamRequest bytes :=
  let body :=
    if over then ChainBody (Some buffered) incoming else FullBody (body_bytes (body summary)) in
  let? m := method_from_bytes (method summary) in
  let? uri := uri_parse (path_and_query summary) in
  let? hs := collect_results
               (fun h => let? n := header_name_from_bytes h.1 in
                         let? v := header_value_from_bytes h.2 in
                         Ok (n, v)) (out_headers summary is_ws over) in
  Ok {| ur_method := m; ur_uri := uri; ur_headers := hs; ur_body := body |}.

(** [send_upstream]: the handshake, then the response headers in time. *)
Definition send_upstream (stream : Stream) (req : UpstreamRequest) :
    Proc N W (result UpstreamResponse message) :=
  hs ← await (fun n => let '(r, n) := client_handshake stream n in (r, [], n));
  match hs with
  | Err e => mret (Err (Fmt "upstream handshake: {e}"%bs [Text e]))
  | Ok sender =>
      resp ← await (fun n => let '(r, n) := send_request sender req n in (r, [Sent req], n));
      mret match resp with
           | Some (Ok resp) => Ok resp
           | Some (Err e) => Err (Fmt "upstream request: {e}"%bs [Text e])
           | None => Err (Text "upstream response header timeout"%bs)
           end
  end.

(** ** The response given back *)

(** Headers of an upstream response, stripped and appended again; what does
    not parse is left out. *)
Definition response_headers (hs : list (bytes * bytes)) (is_ws : bool) : list (bytes * bytes) :=
  omap (fun h => match header_name_from_bytes h.1, header_value_from_bytes h.2 with
                 | Ok n, Ok v => Some (n, v)
                 | _, _ => None
                 end) (strip_hop_by_hop (lossy_headers hs) is_ws).

(** A 101 to a WebSocket handshake: bridge the connections, and answer. *)
Definition websocket_reply (started : Q) (record : AuditRecord) (resp : UpstreamResponse) :
    Proc N W HttpResponse :=
  log [Bridged];;
  finish started (set_status (Some 101%Z) (set_action Allow record))
    {| hr_status := us_status resp; hr_headers := response_headers (us_headers resp) true;
       hr_body := FullBody [] |}.

(** The response path. *)
Definition response_stage (rt : Runtime W) (started : Q) (record : AuditRecord)
    (summary : RequestSummary) (resp : UpstreamResponse) : Proc N W HttpResponse :=
  out ← with_world (evaluate_response (rt_pipeline rt) summary);
  let record := set_response_transforms (traces out) record in
  match action out with
  | Forward =>
      finish started (set_status (Some (us_status resp)) (set_action Allow record))
        {| hr_status := us_status resp; hr_headers := response_headers (us_headers resp) false;
           hr_body := IncomingBody (us_body resp) |}
  | Replace by_ response stub =>
      let record := set_status (Some (status response))
                      (set_action (if stub then AStub else AReject) record) in
      let record := if stub then set_stubbed_by (Some by_) record else set_rejected_by (Some by_) record in
      finish started record (build_response response)
  | RError _ msg => fail started record msg
  end.

(** Build the request on the open stream, send it, and answer. *)
Definition exchange (rt : Runtime W) (started : Q) (record : AuditRecord) (is_ws over : bool)
    (buffered : bytes) (incoming : Incoming) (summary : RequestSummary) (stream : Stream) :
    Proc N W HttpResponse :=
  match build_upstream summary is_ws over buffered incoming with
  | Err e => fail started record (Fmt "building upstream request: {e}"%bs [Text e])
  | Ok upstream_req =>
      resp ← send_upstream stream upstream_req;
      match resp with
      | Err msg => fail started record msg
      | Ok resp =>
          if is_ws && (us_status resp =? 101)%Z then websocket_reply started record resp
          else response_stage rt started record summary resp
      end
  end.

(** ** The handler *)

(** A request the pipeline let through: dial with the proof, and forward. *)
Definition dial_stage (rt : Runtime W) (ctx : ConnCtx) (started : Q) (record : AuditRecord)
    (is_ws over : bool) (buffered : bytes) (incoming : Incoming) (summary : RequestSummary)
    (proof : AllowProof) : Proc N W HttpResponse :=
  let '(dial_host, dial_port) :=
    match forced_upstream ctx with
    | Some hp => hp
    | None => (host summary, port summary)
    end in
  stream ← dial proof dial_host dial_port (scheme_https ctx) rt;
  match stream with
  | Err (Denied denial) =>
      finish started (set_guard (Some denial) (set_status (Some 502%Z)
        (set_rejected_by (Some "guard"%bs) (set_action AReject record)))) (status_response 502)
  | Err (Failed msg) => fail started record msg
  | Ok stream => exchange rt started record is_ws over buffered incoming summary stream
  end.

(** What becomes of a pipeline outcome. *)
Definition outcome_stage (rt : Runtime W) (ctx : ConnCtx) (started : Q) (record : AuditRecord)
    (is_ws over : bool) (buffered : bytes) (incoming : Incoming) (summary : RequestSummary)
    (o : Outcome) : Proc N W HttpResponse :=
  match o with
  | OReject by_ response =>
      finish started (set_rejected_by (Some by_)
          (set_status (Some (match response with Some r => status r | None => 403%Z end))
             (set_action AReject record)))
        (match response with Some r => build_response r | None => status_response 403 end)
  | OStub by_ response =>
      finish started (set_stubbed_by (Some by_) (set_status (Some (status response))
                        (set_action AStub record)))
        (build_response response)
  | OError _ msg => fail started record msg
  | OContinue proof =>
      dial_stage rt ctx started record is_ws over buffered incoming summary proof
  end.

Definition listener_reject (ctx : ConnCtx) (started : Q) (host method path : bytes) : Proc N W HttpResponse :=
  finish started (set_status (Some 400%Z) (set_rejected_by (Some "listener"%bs)
                    (base_record ctx host method path AReject)))
    (status_response 400).

(** The request as the pipeline sees it. *)
Definition request_summary (ctx : ConnCtx) (req : HttpRequest) (target : Target) (cap : Z)
    (over : bool) (buffered : bytes) : RequestSummary :=
  {| mode := cc_mode ctx; method := rq_method req; host := t_host target; port := t_port target;
     path := t_path target; query := t_query target; headers := lossy_headers (rq_headers req);
     body := if over then
               {| body_bytes := take (Z.to_nat (Z.min cap (Z.of_nat (length buffered)))) buffered;
                  over_cap := true |}
             else {| body_bytes := buffered; over_cap := false |};
     sni := cc_sni ctx; remote_addr := Some (cc_remote_addr ctx) |}.

(** [handle] from the runtime it takes at its start on. *)
Definition handle_with (rt : Runtime W) (req : HttpRequest) (ctx : ConnCtx) : Proc N W HttpResponse :=
  n ← get net;
  let started := clock n in
  let is_ws := is_websocket req in
  match resolve_target req ctx with
  | Err (Bad _ host) => listener_reject ctx started host (rq_method req) (uri_path (rq_uri req))
  | Ok target =>
      if has_dot_segment (t_path target) then
        listener_reject ctx started (t_host target) (rq_method req) (t_path target)
      else
        let cap := max_request_body_bytes rt in
        read ← read_body cap [] (rq_body req);
        match read with
        | Err _ =>
            finish started (base_record ctx (t_host target) (rq_method req) (t_path target) ClientCancel)
              (status_response 400)
        | Ok (buffered, over, incoming) =>
            let summary := request_summary ctx req target cap over buffered in
            run ← with_world (fun w => let '(po, summary, w) :=
                                evaluate_request (rt_pipeline rt) summary w in ((po, summary), w));
            let '(po, summary) := run in
            let record := set_capture (body_capture po) (set_request_transforms (request_traces po)
                (base_record ctx (host summary) (rq_method req) (request_path po) Allow)) in
            outcome_stage rt ctx started record is_ws over buffered incoming summary (outcome po)
        end
  end.

Definition handle (req : HttpRequest) (ctx : ConnCtx) : Proc N W HttpResponse :=
  rt ← current;
  with_pending (Some (cc_remote_addr ctx)) (handle_with rt req ctx).

End http.
