(* ===== verification/HttpTheorems.v ===== *)
(** * Guarantees of the request handler

    Every way through [handle], by its stages: the one audit record, the
    egress events, the request sent upstream, and what a reload in between
    changes. *)

From Stdlib Require Import QArith.
From S2P Require Import Prelude Utf8 Net Json Matcher Summary Pipeline Secrets KernelConfig Custody SerdeModel KernelTheorems KernelAudit Hop Dial Proxy Http.
#[local] Close Scope Q_scope.

(** Documented behaviour of hyper's builders. *)
Class HyperLaws {N Stream} (HY : Hyper N Stream) : Prop := {
  response_build_status s hs s' hs' : response_build s hs = Some (s', hs') → s' = s;
  header_name_lower n n' : header_name_from_bytes n = Ok n' → n' = to_ascii_lowercase n;
}.

(** The fields of a record that come from the request and the pipeline. *)
Definition same_client (r r' : AuditRecord) : Prop :=
  ar_host r' = ar_host r ∧ ar_method r' = ar_method r ∧ ar_path r' = ar_path r ∧
  ar_remote_addr r' = ar_remote_addr r ∧ ar_sni r' = ar_sni r ∧ ar_mode r' = ar_mode r ∧
  ar_request_transforms r' = ar_request_transforms r ∧ ar_tunnel r' = ar_tunnel r ∧
  ar_body_capture r' = ar_body_capture r.

(** The bytes a stream of frames still carries, up to its end or an error. *)
Fixpoint body_data (frames : Incoming) : bytes :=
  match frames with
  | Ok (DataFrame d) :: frames => d ++ body_data frames
  | Ok (TrailersFrame _) :: frames => body_data frames
  | _ => []
  end.

(** The frames [poll_frame] yields, one after the other. *)
Fixpoint polled (fuel : nat) (prefix : option bytes) (inner : Incoming) : Incoming :=
  match fuel with
  | 0 => []
  | S fuel =>
      match poll_frame prefix inner with
      | (Some f, (prefix, inner)) => f :: polled fuel prefix inner
      | (None, _) => []
      end
  end.

Definition out_data (b : OutBody) : bytes :=
  match b with
  | FullBody d => d
  | ChainBody prefix inner => body_data (polled (S (length inner)) prefix inner)
  | IncomingBody frames => body_data frames
  end.

Lemma polled_inner fuel inner : length inner ≤ fuel → polled fuel None inner = inner.
Proof.
  revert inner. induction fuel as [|fuel IH]; intros [|f inner] H; simpl in *; try done; [lia|].
  f_equal. apply IH. lia.
Qed.

Lemma chain_data prefix inner : out_data (ChainBody (Some prefix) inner) = prefix ++ body_data inner.
Proof. simpl. by rewrite polled_inner. Qed.

(** ** Spellings of a path segment

    [spells s t]: [s] stands for the bytes [t], each written as it is or as an
    escape with hexadecimal digits of either case. *)
Inductive spells : bytes → bytes → Prop :=
| spells_nil : spells [] []
| spells_raw b s t : b ≠ "%"%byte → spells s t → spells (b :: s) (b :: t)
| spells_hex hi lo h l s t :
    to_digit 16 hi = Some h → to_digit 16 lo = Some l → spells s t →
    spells ("%"%byte :: hi :: lo :: s) (z2b (16 * h + l) :: t).

Lemma hex_digit_ascii b h :
  to_digit 16 b = Some h → is_ascii b = true ∧ b ≠ "+"%byte ∧ (0 <= h < 16)%Z.
Proof.
  intros H. assert (match to_digit 16 b with
    | Some h => is_ascii b && negb (b ≟ "+"%byte) && (0 <=? h)%Z && (h <? 16)%Z | None => true end = true) as Hb
    by (clear H; byte_cases b; reflexivity).
  rewrite H in Hb. bool_simpl. repeat split; try lia; try done.
Qed.

Lemma percent_decode_spells s t : spells s t → percent_decode s = t.
Proof.
  unfold percent_decode. intros H. assert (∀ fuel, length s ≤ fuel → percent_decode_loop fuel s = t); [|auto].
  induction H as [|b s t Hb _ IH|hi lo h l s t Hh Hl _ IH]; intros fuel Hf.
  - by destruct fuel.
  - destruct fuel; simpl in *; [lia|]. rewrite bool_decide_false by done. f_equal. apply IH. lia.
  - destruct fuel as [|fuel]; simpl in Hf; [lia|].
    destruct (hex_digit_ascii _ _ Hh) as (Ha & Hp & Hr), (hex_digit_ascii _ _ Hl) as (Ha' & _ & Hr').
    cbn [percent_decode_loop]. rewrite bool_decide_true by done.
    assert (get_range 0 2 (hi :: lo :: s) = Some [hi; lo]) as ->.
    { unfold get_range. rewrite bool_decide_true; [done|]. simpl. lia. }
    simpl. unfold from_utf8. rewrite ascii_valid by (by repeat constructor). simpl.
    rewrite bool_decide_false by done. cbn [parse_digits]. rewrite Hh, Hl. cbn [mbind option_bind].
    rewrite !(proj2 (Z.leb_le _ u8_max)) by (unfold u8_max; lia).
    f_equal; [f_equal; lia|]. apply IH. lia.
Qed.

Section http_wp.
Context {N W Stream : Type} `{NW : !Network N Stream} `{HY : !Hyper N Stream} {HL : HyperLaws HY}.
Implicit Types (st : St N W) (rt : Runtime W).

(** The status in the record is the one the client sees; a response that
    hyper refuses to build is replaced by a 502, and a client that went away
    has no status. *)
Definition status_reported (r : AuditRecord) (resp : HttpResponse) : Prop :=
  ar_status_code r = Some (hr_status resp) ∨
  (ar_action r = ClientCancel ∧ ar_status_code r = None) ∨
  ∃ s hs, response_build s hs = None ∧ ar_status_code r = Some s ∧ hr_status resp = 502%Z.

(** The response traces are those of the pipeline, if it got that far. *)
Definition answered_by rt (r0 r : AuditRecord) : Prop :=
  ar_response_transforms r = ar_response_transforms r0 ∨
  ∃ q w, ar_response_transforms r = traces (evaluate_response (rt_pipeline rt) q w).1.

Definition reported rt (r0 : AuditRecord) (ex : Exit HttpResponse) (r : AuditRecord) : Prop :=
  ∃ resp, ex = Done resp ∧ (same_client r0 r ∧ answered_by rt r0 r) ∧ status_reported r resp.

(** What may leave: connections to given addresses, one request, the bridge of
    a WebSocket. *)
Definition egress_ok (addrs : list SocketAddr) (sent : UpstreamRequest → Prop) (is_ws : bool) (e : Event) : Prop :=
  match e with
  | Dialed a => a ∈ addrs
  | Sent ur => sent ur
  | Bridged => is_ws = true
  | Counted _ | Emitted _ _ => True
  | Replied _ | Spliced _ => False
  end.

Definition is_egress (e : Event) : bool :=
  match e with Dialed _ | Sent _ | Bridged | Spliced _ => true | _ => false end.

(** The postcondition of the stages after the pipeline. *)
Definition stage_post rt addrs sent is_ws (r0 : AuditRecord) (ex : Exit HttpResponse) evs st : Prop :=
  audits (reported rt r0) ex evs st ∧ Forall (egress_ok addrs sent is_ws) evs.

Lemma stage_post_app rt addrs sent is_ws r0 ex pre evs st :
  records pre = [] → Forall (egress_ok addrs sent is_ws) pre →
  stage_post rt addrs sent is_ws r0 ex evs st → stage_post rt addrs sent is_ws r0 ex (pre ++ evs) st.
Proof.
  intros Hr Hpre [Ha He]. split; [|by apply Forall_app].
  unfold audits in *. by rewrite records_app, Hr.
Qed.

Lemma build_response_status r rec :
  ar_status_code rec = Some (status r) → status_reported rec (build_response r).
Proof.
  intros H. unfold build_response. destruct (response_build _ _) as [[s hs]|] eqn:E.
  - left. simpl. by rewrite H, (response_build_status _ _ _ _ E).
  - right; right. eauto 6.
Qed.

Lemma wp_finish started record response Q st :
  (∀ d, Q (Done response) [Emitted (set_duration d record) (level_for (ar_action record))] (set_emitted true st)) →
  wp (finish started record response) Q st.
Proof. intros H. apply wp_bind, wp_get, wp_bind, wp_emit, wp_ret. simpl. destruct record. apply H. Qed.

Lemma finish_post rt addrs sent is_ws r0 started record response st :
  same_client r0 record → answered_by rt r0 record → status_reported record response →
  wp (finish started record response) (stage_post rt addrs sent is_ws r0) st.
Proof.
  intros Hc Ha Hs. apply wp_finish. intros d. split; [|by repeat constructor].
  exists (set_duration d record). destruct record. split; [done|]. by exists response.
Qed.

Lemma fail_post rt addrs sent is_ws r0 started msg st :
  wp (fail started r0 msg) (stage_post rt addrs sent is_ws r0) st.
Proof. apply finish_post; destruct r0; [by split_and!|by left|by left]. Qed.

Lemma response_stage_post addrs sent is_ws rt started r0 summary resp st :
  wp (response_stage rt started r0 summary resp) (stage_post rt addrs sent is_ws r0) st.
Proof.
  apply wp_bind, wp_with_world.
  assert (∀ r', ar_response_transforms r' = traces (evaluate_response (rt_pipeline rt) summary (world st)).1 →
    answered_by rt r0 r') as Ha by (intros r' Hr; right; eauto).
  destruct (evaluate_response _ _ _) as [[trs act] w]. simpl in *.
  destruct act as [|by_ response stub|by_ msg].
  - apply finish_post; [destruct r0; by split_and!|apply Ha; by destruct r0|left; by destruct r0].
  - apply finish_post; [destruct r0, stub; by split_and!|apply Ha; by destruct r0, stub|].
    apply build_response_status. by destruct r0, stub.
  - apply finish_post; [destruct r0; by split_and!|apply Ha; by destruct r0|left; by destruct r0].
Qed.

Lemma websocket_post rt addrs sent r0 started resp st :
  us_status resp = 101%Z → wp (websocket_reply started r0 resp) (stage_post rt addrs sent true r0) st.
Proof.
  intros H101. apply wp_bind, wp_log. simpl. apply wp_finish. intros d. split.
  - exists (set_duration d (set_status (Some 101%Z) (set_action Allow r0))). destruct r0. split; [done|].
    eexists. split; [done|]. split; [split; [by split_and!|by left]|]. left. simpl. by rewrite H101.
  - repeat constructor.
Qed.

(** While nothing was emitted, being dropped is the only other way out. *)
Lemma dropped_post rt addrs sent is_ws r0 st : emitted st = false → stage_post rt addrs sent is_ws r0 Dropped [] st.
Proof. intros He. split; [|done]. unfold audits. by rewrite He. Qed.

Lemma exchange_post rt addrs started r0 is_ws over buffered incoming summary stream st :
  emitted st = false →
  wp (exchange rt started r0 is_ws over buffered incoming summary stream)
    (stage_post rt addrs (fun ur => build_upstream summary is_ws over buffered incoming = Ok ur) is_ws r0) st.
Proof.
  intros He. unfold exchange. destruct (build_upstream _ _ _ _ _) as [ur|e] eqn:Eb; [|apply fail_post].
  apply wp_bind, wp_bind, wp_await.
  { intros st' Hst _ _. apply dropped_post. by rewrite Hst. }
  intros st1 hs evs Hop He1 _. destruct (client_handshake _ _) as [h n]. injection Hop as -> <- _.
  destruct hs as [sender|e].
  2:{ apply wp_ret. apply fail_post. }
  apply wp_bind, wp_await.
  { intros st' Hst _ _. apply dropped_post. by rewrite Hst, He1. }
  intros st2 resp evs Hop He2 _. destruct (send_request _ _ _) as [rs n']. injection Hop as -> <- _.
  apply wp_ret. simpl. eapply wp_mono with (P := stage_post rt addrs _ is_ws r0).
  2:{ intros ex evs st' H. apply (stage_post_app _ _ _ _ _ _ [Sent ur]); [done| |exact H]. by repeat constructor. }
  destruct resp as [[resp|e]|]; [|apply fail_post..].
  destruct (is_ws && (us_status resp =? 101)%Z) eqn:E101; [|apply response_stage_post].
  apply andb_true_iff in E101 as [-> ?%Z.eqb_eq]. by apply websocket_post.
Qed.

(** The dialer's events, of a dial that ran to its end and of one that was
    dropped. *)
Lemma dial_events addrs sent is_ws tried m :
  tried `prefix_of` addrs →
  records (map Dialed tried ++ map Counted m) = [] ∧
  Forall (egress_ok addrs sent is_ws) (map Dialed tried ++ map Counted m).
Proof.
  intros [more ->]. split; [apply records_dial|]. apply Forall_app. split; apply Forall_fmap.
  - apply Forall_forall. intros a Ha. apply elem_of_app. by left.
  - by apply Forall_true.
Qed.

(** Where a request is dialed: the target its connection is bound to, or the
    one of the request. *)
Definition dial_target ctx (summary : RequestSummary) : bytes * Z :=
  match forced_upstream ctx with Some hp => hp | None => (host summary, port summary) end.

(** The addresses a dial for the request tries on the network [n]. *)
Definition dialed_for rt ctx (summary : RequestSummary) (n : N) : list SocketAddr :=
  (connect_upstream MkAllowProof (dial_target ctx summary).1 (dial_target ctx summary).2 (scheme_https ctx)
     (rt_guard rt) n).1.2.

Lemma dialed_for_permitted rt ctx summary n : Forall (permitted (rt_guard rt)) (dialed_for rt ctx summary n).
Proof.
  unfold dialed_for. destruct (connect_upstream _ _ _ _ _ _) as [[[res m] tried] n'] eqn:E.
  by eapply connect_permitted.
Qed.

Lemma dial_stage_post rt ctx started r0 is_ws over buffered incoming summary proof st :
  emitted st = false →
  wp (dial_stage rt ctx started r0 is_ws over buffered incoming summary proof)
    (stage_post rt (dialed_for rt ctx summary (net st))
       (fun ur => build_upstream summary is_ws over buffered incoming = Ok ur) is_ws r0) st.
Proof.
  intros He. unfold dial_stage. change (match forced_upstream ctx with Some _ => _ | None => _ end)
    with (dial_target ctx summary). unfold dialed_for. destruct (dial_target ctx summary) as [h p], proof. simpl.
  destruct (connect_upstream MkAllowProof h p (scheme_https ctx) (rt_guard rt) (net st)) as [[[res m] tried] n1] eqn:Ec.
  simpl. apply wp_bind. eapply wp_dial; [exact Ec|..].
  { intros pre st' Hpre [Hst _]. rewrite <- (app_nil_r (map Dialed pre)).
    apply stage_post_app; [apply records_dialed| |apply dropped_post; congruence].
    rewrite <- (app_nil_r (map Dialed pre)). by apply (dial_events _ _ _ _ []). }
  intros st1 [He1 _] _. rewrite He in He1. destruct (dial_events tried (fun ur => build_upstream summary is_ws over
    buffered incoming = Ok ur) is_ws tried m (reflexivity _)) as [Hrec Hok].
  eapply wp_mono; [|intros ex evs st' H; apply stage_post_app; [exact Hrec|exact Hok|exact H]].
  destruct res as [stream|[denial|msg]]; [by apply exchange_post| |apply fail_post].
  apply finish_post; destruct r0; [by split_and!|by left|by left].
Qed.

(** Without the proof nothing leaves and the network is untouched. *)
Lemma outcome_stage_post rt ctx started r0 is_ws over buffered incoming summary o st :
  emitted st = false →
  wp (outcome_stage rt ctx started r0 is_ws over buffered incoming summary o)
    (fun ex evs st' =>
       stage_post rt (dialed_for rt ctx summary (net st))
         (fun ur => build_upstream summary is_ws over buffered incoming = Ok ur) is_ws r0 ex evs st' ∧
       ((∃ proof, o = OContinue proof) ∨
        existsb is_egress evs = false ∧ net st' = net st)) st.
Proof.
  intros He. destruct o as [proof|by_ response|by_ response|by_ msg]; simpl.
  - eapply wp_mono; [by apply dial_stage_post|]. eauto.
  - apply wp_and; [|apply wp_finish; auto].
    apply finish_post; [destruct r0; by split_and!|left; by destruct r0|].
    destruct response as [r|]; [apply build_response_status|left]; by destruct r0.
  - apply wp_and; [|apply wp_finish; auto].
    apply finish_post; [destruct r0; by split_and!|left; by destruct r0|]. apply build_response_status; by destruct r0.
  - apply wp_and; [apply fail_post|apply wp_finish; auto].
Qed.

(** *** Reading the body *)

Definition body_read (cap : Z) (buffered : bytes) (incoming : Incoming)
    (r : result (bytes * bool * Incoming) unit) : Prop :=
  match r with
  | Ok (b, over, rest) =>
      buffered ++ body_data incoming = b ++ body_data rest ∧
      if over then (cap < Z.of_nat (length b))%Z
      else (Z.of_nat (length b) <= cap)%Z ∧ rest = [] ∧ Forall (fun f => is_ok f = true) incoming
  | Err _ => ∃ e, Err e ∈ incoming
  end.

(** Only the pending ticks differ, and what they did to the world. *)
Definition idle st st' : Prop := emitted st' = emitted st ∧ worlds st' ⊆ worlds st ∧ net st' = net st.

Lemma wp_read_body cap buffered incoming Q st :
  (∀ st', idle st st' → Q Dropped [] st') →
  (∀ r st', idle st st' → body_read cap buffered incoming r → Q (Done r) [] st') →
  wp (read_body cap buffered incoming) Q st.
Proof.
  revert buffered st. induction incoming as [|f incoming IH]; intros buffered st Hd Hk; simpl;
    destruct (Z.ltb_spec cap (Z.of_nat (length buffered))) as [Hc|Hc]; try (apply wp_ret, Hk; by split_and!).
  - apply wp_bind, wp_await; [intros; by apply Hd|]. intros st' a evs [= <- <- Hn] He Hw.
    apply wp_ret, Hk; [by split_and!|]. simpl. split_and!; [done|lia|done|done].
  - apply wp_bind, wp_await; [intros; by apply Hd|]. intros st1 a evs [= <- <- Hn] He Hw.
    assert (∀ st', idle st1 st' → idle st st') as Hi.
    { intros st' (? & Hws & ?). unfold idle in *. split_and!; [congruence|by etrans|congruence]. }
    destruct f as [[d|t]|err].
    + apply IH; [auto|]. intros r st' Hst Hr. apply Hk; [auto|].
      destruct r as [[[b over] rest]|]; simpl in *; [|destruct Hr as [err Hr]; exists err; by right].
      rewrite app_assoc. destruct Hr as [Hr Ho]. split; [done|]. destruct over; [done|].
      destruct Ho as (? & ? & ?). split_and!; [done..|by constructor].
    + apply IH; [auto|]. intros r st' Hst Hr. apply Hk; [auto|].
      destruct r as [[[b over] rest]|]; simpl in *; [|destruct Hr as [err Hr]; exists err; by right].
      destruct Hr as [Hr Ho]. split; [done|]. destruct over; [done|].
      destruct Ho as (? & ? & ?). split_and!; [done..|by constructor].
    + apply wp_ret, Hk; [by split_and!|]. exists err. left.
Qed.

(** *** The handler *)

(** The pipeline was reached, in one of the worlds, and what it was given and
    did. *)
Definition ran rt req ctx (ws : list W) target buffered over rest po summary : Prop :=
  resolve_target req ctx = Ok target ∧ has_dot_segment (t_path target) = false ∧
  body_read (max_request_body_bytes rt) [] (rq_body req) (Ok (buffered, over, rest)) ∧
  ∃ w w', w ∈ ws ∧
    evaluate_request (rt_pipeline rt)
      (request_summary ctx req target (max_request_body_bytes rt) over buffered) w = (po, summary, w').

Definition silent st evs st' : Prop := existsb is_egress evs = false ∧ net st' = net st.

(** The record of a request that did not get to the pipeline. *)
Definition early_record rt ctx req (ex : Exit HttpResponse) (r : AuditRecord) : Prop :=
  ∃ host action, reported rt (base_record ctx host (rq_method req) (uri_path (rq_uri req)) action) ex r.

Definition run_record ctx req po summary : AuditRecord :=
  set_capture (body_capture po) (set_request_transforms (request_traces po)
    (base_record ctx (host summary) (rq_method req) (request_path po) Allow)).

Definition handle_post rt req ctx st (ex : Exit HttpResponse) evs st' : Prop :=
  (audits (early_record rt ctx req) ex evs st' ∧ silent st evs st') ∨
  ∃ target buffered over rest po summary,
    ran rt req ctx (worlds st) target buffered over rest po summary ∧
    stage_post rt (dialed_for rt ctx summary (net st))
      (fun ur => build_upstream summary (is_websocket req) over buffered rest = Ok ur)
      (is_websocket req) (run_record ctx req po summary) ex evs st' ∧
    ((∃ proof, outcome po = OContinue proof) ∨ silent st evs st').

Lemma resolve_target_path req ctx target : resolve_target req ctx = Ok target → t_path target = uri_path (rq_uri req).
Proof.
  unfold resolve_target, extract_target. intros H.
  destruct (forced_upstream ctx) as [[h p]|]; [by simplify_eq|].
  destruct (match _ <$> uri_authority _ with Some _ => _ | None => _ end) as [hp|e]; [|done]. simpl in H.
  destruct (cc_sni ctx); [case_match|]; by simplify_eq.
Qed.

Lemma early_finish rt ctx req started host path record response st0 st :
  net st = net st0 → path = uri_path (rq_uri req) →
  same_client (base_record ctx host (rq_method req) path Allow) record → ar_response_transforms record = [] →
  status_reported record response →
  wp (finish started record response) (fun ex evs st' => audits (early_record rt ctx req) ex evs st' ∧ silent st0 evs st') st.
Proof.
  intros Hn -> Hc Hr Hs. apply wp_finish. intros d. split; [|done].
  exists (set_duration d record). destruct record. split; [done|]. exists host, Allow, response.
  split; [done|]. split; [|done]. split; [done|]. left. exact Hr.
Qed.

Lemma handle_with_post rt req ctx st :
  emitted st = false → wp (handle_with rt req ctx) (handle_post rt req ctx st) st.
Proof.
  intros He. apply wp_bind, wp_get. unfold handle_post. simpl.
  destruct (resolve_target req ctx) as [target|[reason h]] eqn:Et.
  2:{ eapply wp_mono; [|intros ex evs st' H; left; exact H].
      by apply (early_finish _ _ _ _ h (uri_path (rq_uri req))); [| |split_and!| |left]. }
  pose proof (resolve_target_path _ _ _ Et) as Hpath.
  destruct (has_dot_segment (t_path target)) eqn:Ed.
  { eapply wp_mono; [|intros ex evs st' H; left; exact H].
    by apply (early_finish _ _ _ _ (t_host target) (t_path target)); [| |split_and!| |left]. }
  apply wp_bind, wp_read_body.
  { intros st' (He' & _ & Hn). left. unfold audits. rewrite He', He. by split_and!. }
  intros r st1 (He1 & Hw1 & Hn1) Hr. destruct r as [[[buffered over] rest]|[]].
  2:{ eapply wp_mono; [|intros ex evs st' H; left; exact H].
      apply (early_finish _ _ _ _ (t_host target) (t_path target)); [done|done|by split_and!|done|]. right; left. done. }
  apply wp_bind, wp_with_world.
  destruct (evaluate_request _ _ (world st1)) as [[po summary] w'] eqn:Ev. simpl.
  eapply wp_mono; [by apply outcome_stage_post; simpl; congruence|]. simpl.
  intros ex evs st' [Hp Hs]. rewrite Hn1 in Hp. right. exists target, buffered, over, rest, po, summary.
  split; [|split; [exact Hp|]].
  - split_and!; try done. exists (world st1), w'. split; [apply Hw1, world_in_worlds|done].
  - unfold silent. rewrite <- Hn1. exact Hs.
Qed.

Lemma handle_runs req ctx st ex evs st' :
  handle req ctx st = (ex, evs, st') →
  ∃ evs0, evs = evs0 ++ pending_drop (Some (cc_remote_addr ctx)) (emitted st') ∧
    handle_post (shared st) req ctx (set_emitted false st) ex evs0 st'.
Proof.
  pose proof (handle_with_post (shared st) req ctx (set_emitted false st) eq_refl) as Hp.
  unfold handle, current, with_pending, wp, mbind, proc_bind, get in *. simpl in *.
  destruct (handle_with (shared st) req ctx (set_emitted false st)) as [[ex0 evs0] st0].
  intros [= <- <- <-]. by exists evs0.
Qed.

Lemma is_egress_existsb e evs : e ∈ evs → is_egress e = true → existsb is_egress evs = true.
Proof. intros Hin He. apply existsb_exists. exists e. split; [by apply list_elem_of_In|done]. Qed.

(** Dropping the pending record is no egress. *)
Lemma drop_not_egress remote b e : e ∈ pending_drop remote b → is_egress e = false.
Proof. destruct b; simpl; [by intros ?%elem_of_nil|]. by intros ->%list_elem_of_singleton. Qed.

Lemma egress_event evs b remote e :
  e ∈ evs ++ pending_drop remote b → is_egress e = true → e ∈ evs ∧ existsb is_egress evs = true.
Proof.
  intros [Hin|Hin]%elem_of_app He; [|by rewrite (drop_not_egress _ _ _ Hin) in He].
  split; [done|]. by eapply is_egress_existsb.
Qed.

(** When something left or the network changed, the pipeline ran and allowed
    the request. *)
Lemma egress_ran req ctx st ex evs st' :
  handle req ctx st = (ex, evs, st') →
  (∃ e, e ∈ evs ∧ is_egress e = true) ∨ net st' ≠ net st →
  ∃ target buffered over rest po summary,
    ran (shared st) req ctx (worlds st) target buffered over rest po summary ∧
    (∃ proof, outcome po = OContinue proof) ∧
    ∀ e, e ∈ evs → is_egress e = true →
      egress_ok (dialed_for (shared st) ctx summary (net st))
        (fun ur => build_upstream summary (is_websocket req) over buffered rest = Ok ur) (is_websocket req) e.
Proof.
  intros (evs0 & -> & Hp)%handle_runs Hleft.
  assert (¬ silent (set_emitted false st) evs0 st') as Hns.
  { intros [Hs Hn]. destruct Hleft as [(e & Hin & He)|Hne]; [|by apply Hne].
    apply egress_event in Hin as [_ Hx]; [|done]. congruence. }
  destruct Hp as [[_ ?]|(target & buffered & over & rest & po & summary & Hr & [_ Hev] & Ho)]; [done|].
  exists target, buffered, over, rest, po, summary. split; [exact Hr|]. split; [by destruct Ho|].
  intros e Hin He. apply egress_event in Hin as [Hin _]; [|done]. rewrite Forall_forall in Hev. by apply Hev.
Qed.

(** The parts of the request that was built. *)
Lemma build_upstream_Ok summary is_ws over b rest ur :
  build_upstream summary is_ws over b rest = Ok ur →
  ur_body ur = (if over then ChainBody (Some b) rest else FullBody (body_bytes (body summary))) ∧
  ∀ h, h ∈ ur_headers ur → ∃ h0, h0 ∈ out_headers summary is_ws over ∧ h.1 = to_ascii_lowercase h0.1.
Proof.
  unfold build_upstream. intros H.
  destruct (method_from_bytes _) as [m|]; simpl in H; [|done].
  destruct (uri_parse _) as [u|]; simpl in H; [|done].
  destruct (collect_results _ _) as [hs|] eqn:Eh; simpl in H; [|done]. injection H as <-. simpl.
  split; [done|]. intros h Hh. apply collect_results_Ok in Eh. apply list_elem_of_lookup in Hh as [i Hi].
  eapply Forall2_lookup_r in Hi as (h0 & Hi & Hp); [|exact Eh]. cbv beta in Hp. exists h0.
  split; [by eapply list_elem_of_lookup_2|].
  destruct (header_name_from_bytes h0.1) as [n1|] eqn:En; simpl in Hp; [|done].
  destruct (header_value_from_bytes h0.2); simpl in Hp; [|done]. injection Hp as <-. by apply header_name_lower.
Qed.

(** *** Stability under reloads *)

Ltac stable_step :=
  lazymatch goal with
  | |- Stable (match ?x with _ => _ end) => destruct x
  | |- Stable (_ ≫= _) => apply bind_stable; [|intros ?]
  | |- Stable _ => apply _
  end.

#[local] Instance finish_stable started r resp : Stable (W := W) (finish started r resp).
Proof. apply _. Qed.

#[local] Instance read_body_stable cap b inc : Stable (N := N) (W := W) (read_body cap b inc).
Proof. revert b. induction inc as [|f inc IH]; intros b; simpl; repeat stable_step; apply IH. Qed.

#[local] Instance exchange_stable rt started r is_ws over b rest q s :
  Stable (W := W) (exchange rt started r is_ws over b rest q s).
Proof. unfold exchange, websocket_reply, response_stage, send_upstream, fail. repeat stable_step. Qed.

#[local] Instance handle_with_stable rt req ctx : Stable (W := W) (handle_with rt req ctx).
Proof.
  unfold handle_with, listener_reject, outcome_stage, dial_stage, dial, fail.
  repeat first [stable_step | progress cbv zeta].
Qed.

(** The host a connection stands for. *)
Definition stands_for req ctx target : Prop :=
  match forced_upstream ctx with
  | Some (h, p) => t_host target = h ∧ t_port target = p
  | None =>
      (∀ sni, cc_sni ctx = Some sni → t_host target = (split_host_port sni).1) ∧
      (∀ h p, uri_authority (rq_uri req) = Some (h, p) → t_host target = to_ascii_lowercase h) ∧
      (∀ v, header_str "host"%bs (rq_headers req) = Some v → t_host target = (split_host_port v).1) ∧
      (uri_authority (rq_uri req) = None → t_host target ≠ [])
  end.

Lemma resolve_target_stands req ctx target : resolve_target req ctx = Ok target → stands_for req ctx target.
Proof.
  unfold resolve_target, stands_for. destruct (forced_upstream ctx) as [[h p]|]; [by intros [= <-]|].
  destruct (extract_target req _) as [t|] eqn:Et; simpl; [|done]. intros H.
  assert (t = target ∧ ∀ sni, cc_sni ctx = Some sni → (split_host_port sni).1 = t_host target) as [-> Hsni].
  { destruct (cc_sni ctx) as [sni|]; [|by simplify_eq].
    case_bool_decide as E; simpl in H; [|done]. injection H as ->. split; [done|]. by intros ? [= <-]. }
  split; [intros sni Hs; by rewrite Hsni|]. clear H Hsni. unfold extract_target in Et.
  destruct (uri_authority (rq_uri req)) as [[ah ap]|], (header_str "host"%bs (rq_headers req)) as [v|];
    simpl in Et; try done.
  - destruct (split_host_port v) as [hh hp] eqn:Ev. case_bool_decide as E; simpl in Et; [|done].
    injection Et as <-. simpl. split_and!; [by intros ? ? [= <- <-]| |done]. intros ? [= <-]. by rewrite Ev.
  - injection Et as <-. simpl. split_and!; [by intros ? ? [= <- <-]|done|done].
  - destruct (split_host_port v) as [hh hp] eqn:Ev. case_bool_decide as E; simpl in Et; [done|].
    injection Et as <-. simpl. split_and!; [done| |done]. intros ? [= <-]. by rewrite Ev.
Qed.

(** A request whose host the pipeline kept is dialed as its target. *)
Lemma dial_target_resolved req ctx target (summary : RequestSummary) :
  resolve_target req ctx = Ok target → host summary = t_host target → port summary = t_port target →
  dial_target ctx summary = (t_host target, t_port target).
Proof.
  intros Ht Hh Hp. apply resolve_target_stands in Ht. unfold stands_for, dial_target in *.
  destruct (forced_upstream ctx) as [[h p]|]; [by destruct Ht as [-> ->]|congruence].
Qed.

(** The one record of a request. *)
Lemma handle_record req ctx st ex evs st' :
  handle req ctx st = (ex, evs, st') →
  ∃ r, records evs = [(r, level_for (ar_action r))] ∧
    ar_remote_addr r = Some (cc_remote_addr ctx) ∧
    match ex with
    | Done resp => status_reported r resp ∧ ar_method r = rq_method req
    | Dropped => r = drop_record (Some (cc_remote_addr ctx))
    end.
Proof.
  intros (evs0 & -> & Hp)%handle_runs. rewrite records_app.
  assert (audits (fun ex r => ∃ resp, ex = Done resp ∧ status_reported r resp ∧ ar_method r = rq_method req ∧
    ar_remote_addr r = Some (cc_remote_addr ctx)) ex evs0 st') as Ha.
  { unfold audits. destruct Hp as [[Ha _]|(target & buffered & over & rest & po & summary & _ & [Ha _] & _)];
      unfold audits in Ha; destruct (emitted st'); try done; destruct Ha as (r & Hr & HP); exists r; (split; [done|]).
    - destruct HP as (h & a & resp & -> & [(_ & -> & _ & -> & _) _] & Hs). by exists resp.
    - destruct HP as (resp & -> & [(_ & -> & _ & -> & _) _] & Hs). by exists resp. }
  unfold audits in Ha. destruct (emitted st'); simpl.
  - destruct Ha as (r & -> & resp & -> & Hs & Hm & Hra). exists r. by rewrite app_nil_r.
  - destruct Ha as [-> ->]. by exists (drop_record (Some (cc_remote_addr ctx))).
Qed.

(** ** Guarantees *)

(** C3 (INV-3): every request accepted by the handler leaves exactly one audit
    record, at the level of its action, however it ends: the record carries
    the request's method and address and the status the client sees, or it is
    the backstop record when the handler was dropped at an await. *)
Theorem one_record_per_request req ctx st ex evs st' :
  handle req ctx st = (ex, evs, st') →
  ∃ r, records evs = [(r, level_for (ar_action r))] ∧
    ar_remote_addr r = Some (cc_remote_addr ctx) ∧
    match ex with
    | Done resp => status_reported r resp ∧ ar_method r = rq_method req
    | Dropped => r = drop_record (Some (cc_remote_addr ctx))
    end.
Proof. apply handle_record. Qed.

(** C2 (INV-2, end to end): a connection attempt, a byte sent upstream or any
    change of the network happens only for a request with a resolved target
    without dot segments on which, with as much of the body as was read, every
    transform of the pipeline continued, in the world as it was or as others
    left it at an await; and each address dialed is outside the guard's
    prefixes. *)
Theorem egress_needs_permission req ctx st ex evs st' :
  handle req ctx st = (ex, evs, st') →
  (∃ e, e ∈ evs ∧ is_egress e = true) ∨ net st' ≠ net st →
  (∃ target buffered over rest trs caps summary w w',
     w ∈ worlds st ∧ resolve_target req ctx = Ok target ∧ has_dot_segment (t_path target) = false ∧
     body_read (max_request_body_bytes (shared st)) [] (rq_body req) (Ok (buffered, over, rest)) ∧
     continues (rt_pipeline (shared st))
       (request_summary ctx req target (max_request_body_bytes (shared st)) over buffered)
       w trs caps summary w') ∧
  ∀ a, Dialed a ∈ evs → permitted (rt_guard (shared st)) a.
Proof.
  intros H Hleft. destruct (egress_ran _ _ _ _ _ _ H Hleft)
    as (target & buffered & over & rest & po & summary & (Ht & Hd & Hbody & w & w' & Hw & Hev) & [proof Ho] & Hall). split.
  - apply evaluate_request_run in Hev as (caps & Hrun & _). rewrite Ho in Hrun. apply run_continue_inv in Hrun.
    by exists target, buffered, over, rest, (request_traces po), caps, summary, w, w'.
  - intros a Ha. specialize (Hall _ Ha eq_refl). simpl in Hall.
    by apply (proj1 (Forall_forall _ _) (dialed_for_permitted (shared st) ctx summary (net st))).
Qed.

(** C21 (body): the pipeline sees exactly the first bytes of the client's body,
    up to the cap, and knows whether there were more; what is sent upstream is
    then, over the cap, the client's body byte for byte, and otherwise the body
    the pipeline left. *)
Theorem body_forwarded req ctx st ex evs st' ur :
  handle req ctx st = (ex, evs, st') → Sent ur ∈ evs →
  let cap := max_request_body_bytes (shared st) in
  let client := body_data (rq_body req) in
  ∃ target buffered over po summary w w',
    let q := request_summary ctx req target cap over buffered in
    w ∈ worlds st ∧ evaluate_request (rt_pipeline (shared st)) q w = (po, summary, w') ∧
    body_bytes (body q) = take (Z.to_nat cap) client ∧ over_cap (body q) = over ∧
    (if over then (cap < Z.of_nat (length client))%Z ∧ out_data (ur_body ur) = client
     else (Z.of_nat (length client) <= cap)%Z ∧ out_data (ur_body ur) = body_bytes (body summary)).
Proof.
  intros H Hin cap client.
  destruct (egress_ran _ _ _ _ _ _ H) as (target & b & over & rest & po & summary & Hran & _ & Hall); [by eauto|].
  destruct Hran as (_ & _ & [Hb Hover] & w & w' & Hw & Hev). exists target, b, over, po, summary, w, w'.
  split; [exact Hw|]. split; [exact Hev|].
  specialize (Hall _ Hin eq_refl). simpl in Hall. simpl in Hb. fold client in Hb.
  assert (ur_body ur = if over then ChainBody (Some b) rest else FullBody (body_bytes (body summary))) as ->.
  { by apply build_upstream_Ok in Hall as [? _]. }
  fold cap in Hover. rewrite Hb. destruct over; simpl.
  - rewrite Z.min_l by lia. rewrite take_app_le by lia. rewrite length_app, polled_inner by lia.
    split_and!; [done..|lia|done].
  - destruct Hover as (Hle & -> & _). simpl. rewrite app_nil_r, take_ge by lia. done.
Qed.

(** Hygiene, end to end: outside a WebSocket handshake no header sent
    upstream is hop-by-hop or named by [Connection], except [te: trailers];
    and a buffered body goes without the client's [Content-Length]. *)
Theorem sent_headers_are_clean req ctx st ex evs st' ur n v :
  handle req ctx st = (ex, evs, st') → Sent ur ∈ evs → is_websocket req = false → (n, v) ∈ ur_headers ur →
  (n ∉ HOP_BY_HOP ∨ n = "te"%bs) ∧
  (n = "content-length"%bs → ∃ prefix inner, ur_body ur = ChainBody prefix inner).
Proof.
  intros H Hin Hws Hnv.
  destruct (egress_ran _ _ _ _ _ _ H) as (target & b & over & rest & po & summary & _ & _ & Hall); [by eauto|].
  specialize (Hall _ Hin eq_refl). simpl in Hall. apply build_upstream_Ok in Hall as [Hbody Hhs].
  destruct (Hhs _ Hnv) as ([n0 v0] & Hi & Hn0). simpl in Hn0. subst n. rewrite Hws in Hi.
  assert ((n0, v0) ∈ strip_hop_by_hop (headers summary) false ∧
    (over = true ∨ eq_ignore_ascii_case n0 "content-length"%bs = false)) as [Hs Hcl].
  { unfold out_headers in Hi. destruct over; simpl in Hi; [by auto|].
    apply list_elem_of_In, filter_In in Hi as [Hi Hneg]. apply list_elem_of_In in Hi.
    apply negb_true_iff in Hneg. auto. }
  split.
  - destruct (strip_survivor _ _ _ Hs) as [[-> _]|(Hh & _)]; auto.
  - intros Hn. destruct Hcl as [->|Hcl]; [by rewrite Hbody; eauto|]. unfold eq_ignore_ascii_case in Hcl.
    rewrite Hn in Hcl. by vm_compute in Hcl.
Qed.

(** C22 (T9): a request is processed by the runtime it started with. Whatever
    runtimes are swapped in while it waits, the response, everything it does
    and the network and resolver afterwards are the same. *)
Theorem reload_does_not_disturb req ctx st1 st2 :
  st1 ≡ st2 → shared st1 = shared st2 → run_equiv (handle req ctx st1) (handle req ctx st2).
Proof.
  intros H Hs. unfold handle, current, get, mbind, proc_bind. rewrite Hs.
  assert (Stable (with_pending (Some (cc_remote_addr ctx)) (handle_with (shared st2) req ctx))) as Hst by apply _.
  specialize (Hst _ _ H). destruct (with_pending _ _ st1) as [[ex evs] x], (with_pending _ _ st2) as [[ex' evs'] y].
  destruct Hst as [[= <- <-] Hxy]. by split.
Qed.

(** C23 (T6): the host a request is judged and dialed by is the one its
    connection stands for. With a pipeline the loader accepts, every address a
    request dials is one that dialing the host and port of its resolved target
    tries, on the network as the request found it, after the pipeline let a
    request with that host and port through; and that target is the CONNECT target inside a
    tunnel, and elsewhere the authority or the [Host] header, which agree when
    both are there, and which on a TLS leg equal the server name of the
    handshake. *)
Theorem target_is_the_connections `{RE : RegexEngine} `{CD : ConfigDecoder}
    specs (rs : option (SecretResolver W)) bp req ctx st ex evs st' a :
  build_pipeline_inner specs rs = Ok bp → rt_pipeline (shared st) = pipeline bp →
  handle req ctx st = (ex, evs, st') → Dialed a ∈ evs →
  ∃ target q w trs caps q' w', resolve_target req ctx = Ok target ∧ stands_for req ctx target ∧
    host q = t_host target ∧ port q = t_port target ∧ continues (pipeline bp) q w trs caps q' w' ∧
    a ∈ (connect_upstream MkAllowProof (t_host target) (t_port target) (scheme_https ctx)
           (rt_guard (shared st)) (net st)).1.2.
Proof.
  intros Hb Hpl H Ha. destruct (egress_ran _ _ _ _ _ _ H) as (target & buffered & over & rest & po & summary &
    (Ht & _ & _ & w & w' & _ & Hev) & [proof Ho] & Hall); [by eauto|].
  apply evaluate_request_run in Hev as (caps & Hrun & _). rewrite Hpl in Hrun.
  pose proof (run_meta _ _ _ _ _ _ _ _ _ _ Hb Hrun) as (Hh & _ & _ & Hp & _).
  rewrite Ho in Hrun. apply run_continue_inv in Hrun.
  eexists target, _, w, _, caps, summary, w'. split_and!; [done|by apply resolve_target_stands| | |exact Hrun|]; [done..|].
  specialize (Hall _ Ha eq_refl). simpl in Hall. unfold dialed_for in Hall.
  by rewrite (dial_target_resolved req ctx target) in Hall.
Qed.

(** C24 (T6): a path with a segment that means [.] or [..], however its bytes
    are escaped, is refused by the listener: the client gets a 400, the record
    says so, and neither the pipeline nor the network is reached. *)
Theorem dot_segments_refused req ctx st target s :
  resolve_target req ctx = Ok target → s ∈ split_on "/"%byte (t_path target) →
  spells s "."%bs ∨ spells s ".."%bs →
  ∃ r st', handle req ctx st = (Done (status_response 400), [Emitted r Warn], st') ∧
    ar_rejected_by r = Some "listener"%bs ∧ ar_status_code r = Some 400%Z ∧
    net st' = net st ∧ world st' = world st.
Proof.
  intros Ht Hin Hs.
  assert (has_dot_segment (t_path target) = true) as Hd.
  { apply existsb_exists. exists s. split; [by apply list_elem_of_In|].
    destruct Hs as [->%percent_decode_spells | ->%percent_decode_spells]; by vm_compute. }
  unfold handle, handle_with, with_pending, current, get, mbind, proc_bind. simpl. rewrite Ht, Hd. simpl.
  eexists _, _. split; [done|]. done.
Qed.

(** The response path of a loaded pipeline writes nothing into a record. *)
Lemma answered_quietly `{RE : RegexEngine} `{CD : ConfigDecoder} specs (rs : option (SecretResolver W)) bp rt r0 r :
  build_pipeline_inner specs rs = Ok bp → rt_pipeline rt = pipeline bp →
  answered_by rt r0 r → ar_response_transforms r0 = [] →
  ∀ tr, tr ∈ ar_response_transforms r → annotations tr = [] ∧ trace_error tr = None.
Proof.
  intros Hb Hpl [->|(q & w & ->)] H0 tr; [rewrite H0; by intros ?%elem_of_nil|].
  rewrite Hpl, (response_path_forwards specs rs) by done. simpl.
  by intros (s & -> & _)%list_elem_of_fmap.
Qed.

(** C1 (INV-1, end to end): take a pipeline the loader accepts that has at
    most one [body_capture] and whose [secrets] and [annotate] configurations
    are written with objects and without [match_headers: null]
    ([plain_spec]).  The audit record of a request carries the client's path
    and body and the annotations of INV-1, also after the credentials were
    swapped in and the request was sent; the traces of the response path carry
    nothing of it.  The conditions are needed: the kernel accepts pipelines
    without them that record a credential
    ([second_capture_records_credential], [capture_check_misses_array],
    [annotate_check_misses_null_and_array]). *)
Theorem emitted_record_holds_no_secret `{RE : RegexEngine} `{CD : ConfigDecoder} {DL : DecoderLaws}
    specs (rs : option (SecretResolver W)) bp req ctx st ex evs st' r lvl :
  build_pipeline_inner specs rs = Ok bp → forallb plain_spec specs = true →
  length (List.filter is_capture specs) ≤ 1 → rt_pipeline (shared st) = pipeline bp →
  handle req ctx st = (ex, evs, st') → (r, lvl) ∈ records evs →
  (ar_path r = uri_path (rq_uri req) ∨ r = drop_record (Some (cc_remote_addr ctx))) ∧
  (∀ tr, tr ∈ ar_request_transforms r → ∃ target over buffered,
     resolve_target req ctx = Ok target ∧ ar_host r = t_host target ∧
     Forall (safe_annotation specs
       (request_summary ctx req target (max_request_body_bytes (shared st)) over buffered)) (annotations tr)) ∧
  (∀ cap, ar_body_capture r = Some cap → ∃ kept rest,
     body_data (rq_body req) = kept ++ rest ∧ request_body cap = from_utf8_lossy kept) ∧
  (∀ tr, tr ∈ ar_response_transforms r → annotations tr = [] ∧ trace_error tr = None).
Proof.
  intros Hb Hp H1 Hpl H Hr.
  assert (Forall (fun s => plain_spec s = true) specs) as Hp'.
  { rewrite forallb_forall in Hp. apply Forall_forall. intros s Hs. by apply Hp, list_elem_of_In. }
  apply handle_runs in H as (evs0 & -> & Hpost). rewrite records_app in Hr.
  assert (records (pending_drop (Some (cc_remote_addr ctx)) (emitted st'))
    = if emitted st' then [] else [(drop_record (Some (cc_remote_addr ctx)), LError)]) as Hd
    by by destruct (emitted st').
  rewrite Hd in Hr. clear Hd.
  destruct Hpost as [[Ha _]|(target & b & over & rest & po & summary & Hran & [Ha _] & _)]; unfold audits in Ha;
    destruct (emitted st').
  - destruct Ha as (r' & Hre & h & a & resp & -> & [(Hh & _ & Hpa & _ & _ & _ & Ht & _ & Hc) Hans] & _).
    rewrite Hre, app_nil_r in Hr. apply list_elem_of_singleton in Hr as [= -> ->].
    split; [by left|]. rewrite Ht, Hc. simpl. split_and!; [by intros ? ?%elem_of_nil|done|].
    exact (answered_quietly _ _ _ _ _ _ Hb Hpl Hans eq_refl).
  - destruct Ha as [Hre ->]. rewrite Hre in Hr. apply list_elem_of_singleton in Hr as [= -> ->].
    split; [by right|]. simpl. split_and!; [by intros ? ?%elem_of_nil|done|by intros ? ?%elem_of_nil].
  - destruct Ha as (r' & Hre & resp & -> & [(Hh & _ & Hpa & _ & _ & _ & Ht & _ & Hc) Hans] & _).
    rewrite Hre, app_nil_r in Hr. apply list_elem_of_singleton in Hr as [= -> ->].
    destruct Hran as (Htg & _ & [Hbody Hover] & w & w' & _ & Hev). simpl in Hbody, Hover.
    apply evaluate_request_run in Hev as (caps & Hrun & Hcap & Hpath). rewrite Hpl in Hrun.
    destruct (run_meta _ _ _ _ _ _ _ _ _ _ Hb Hrun) as (Hhost & _).
    simpl in Hh, Hpa, Ht, Hc. rewrite Ht, Hc, Hpa, Hh, Hpath. split_and!.
    + left. by eapply resolve_target_path.
    + intros tr Htr. exists target, over, b. split_and!; [done|done|by eapply trace_annotations].
    + intros cap Hcp. rewrite Hcap in Hcp. apply last_Some_elem_of in Hcp.
      destruct (capture_own _ _ _ _ _ _ _ _ _ _ _ Hb Hp' H1 Hrun Hcp) as (kept & more & Hk & ?).
      rewrite Hbody. destruct over; simpl in Hk.
      * rewrite <- (take_drop (Z.to_nat (Z.min (max_request_body_bytes (shared st)) (Z.of_nat (length b)))) b), Hk.
        exists kept, (more ++ drop (Z.to_nat (Z.min (max_request_body_bytes (shared st)) (Z.of_nat (length b)))) b ++ body_data rest).
        by rewrite <- !app_assoc.
      * exists kept, (more ++ body_data rest). by rewrite Hk, <- app_assoc.
    + exact (answered_quietly _ _ _ _ _ _ Hb Hpl Hans eq_refl).
  - destruct Ha as [Hre ->]. rewrite Hre in Hr. apply list_elem_of_singleton in Hr as [= -> ->].
    split; [by right|]. simpl. split_and!; [by intros ? ?%elem_of_nil|done|by intros ? ?%elem_of_nil].
Qed.

End http_wp.

(** ** A proxy to run the handler on

    Every header, method and target parses; the upstream answers 200 with a
    hop-by-hop header of its own. *)
Definition echo_hyper : Hyper nat nat := {|
  clock n := (Z.of_nat n # 1)%Q;
  header_to_str v := Some v;
  method_from_bytes m := Ok m;
  uri_parse u := Ok u;
  header_name_from_bytes n := Ok (to_ascii_lowercase n);
  header_value_from_bytes v := Ok v;
  response_build s hs := if (100 <=? s)%Z && (s <? 1000)%Z then Some (s, hs) else None;
  client_handshake s n := (Ok s, S n);
  send_request s req n :=
    (Some (Ok {| us_status := 200; us_headers := [("connection"%bs, "close"%bs); ("x-id"%bs, "7"%bs)];
                 us_body := [Ok (DataFrame "ok"%bs)] |}), S n);
|}.

Lemma echo_laws : HyperLaws echo_hyper.
Proof.
  split; simpl.
  - intros s hs s' hs' H. case_match; by simplify_eq.
  - intros n n' H. by simplify_eq.
Qed.

Definition up_network : Network nat nat :=
  table_network [("api.example.com"%bs, [{| sa_ip := V4 134744072; sa_port := 443 |}])] [V4 134744072].

Definition ex_runtime : Runtime nat :=
  {| rt_pipeline := pipeline ex_built; rt_guard := default_set; max_request_body_bytes := 64;
     tls_configured := true; tunnel_passthrough := [] |}.

(** A reload is pending when the request comes in. *)
Definition ex_st (s : list (Tick nat)) : St nat nat :=
  {| emitted := false; net := 0; world := 0; shared := ex_runtime; sched := s |}.

Definition ex_http (path : bytes) : HttpRequest :=
  {| rq_method := "POST"%bs;
     rq_uri := {| uri_path := path; uri_query := Some "a=1"%bs; uri_authority := None |};
     rq_headers := [("host"%bs, "API.example.com:443"%bs); ("authorization"%bs, "Bearer tok-1"%bs);
                    ("connection"%bs, "keep-alive"%bs); ("content-length"%bs, "9"%bs)];
     rq_body := [Ok (DataFrame "key="%bs); Ok (DataFrame "tok-1"%bs)] |}.

Definition ex_ctx : ConnCtx :=
  {| cc_remote_addr := "10.0.0.7:5000"%bs; cc_mode := Https; cc_sni := Some "api.example.com"%bs;
     scheme_https := true; forced_upstream := None; tunnel_target := None; tunnel_traces := [] |}.

Definition ex_run (path : bytes) (s : list (Tick nat)) : Exit HttpResponse * list Event * St nat nat :=
  handle (NW := up_network) (HY := echo_hyper) (ex_http path) ex_ctx (ex_st s).

Lemma ex_run_eta path s :
  handle (NW := up_network) (HY := echo_hyper) (ex_http path) ex_ctx (ex_st s)
  = ((ex_run path s).1.1, (ex_run path s).1.2, (ex_run path s).2).
Proof. unfold ex_run. apply outcome_eta. Qed.

(** The example goes all the way: an answer from the upstream, its hop-by-hop
    header gone, and the credential on the wire. *)
Example ex_run_forwards :
  match (ex_run "/v1"%bs [Swap ex_runtime]).1.1 with
  | Done resp => hr_status resp = 200%Z ∧ hr_headers resp = [("x-id"%bs, "7"%bs)]
  | Dropped => False
  end ∧
  omap (fun e => match e with Sent ur => Some (ur_uri ur, ur_headers ur, ur_body ur) | _ => None end)
    (ex_run "/v1"%bs [Swap ex_runtime]).1.2
  = [("/v1?a=1"%bs, [("authorization"%bs, "Bearer s3cr3t"%bs)], FullBody "key=s3cr3t"%bs)].
Proof. vm_compute. split; [split|]; reflexivity. Qed.

Definition is_sent (e : Event) : bool := match e with Sent _ => true | _ => false end.

Lemma sent_elem evs : existsb is_sent evs = true → ∃ ur, Sent ur ∈ evs.
Proof. intros (e & Hin%list_elem_of_In & He)%existsb_exists. destruct e; try done. eauto. Qed.

Lemma ex_run_sent : ∃ ur, Sent ur ∈ (ex_run "/v1"%bs []).1.2.
Proof. apply sent_elem. vm_compute. reflexivity. Qed.

Lemma one_record_per_request_witness : length (records (ex_run "/v1"%bs [Proceed; DropFuture]).1.2) = 1.
Proof.
  destruct (one_record_per_request (NW := up_network) (HL := echo_laws) (ex_http "/v1"%bs) ex_ctx
    (ex_st [Proceed; DropFuture]) _ _ _ (ex_run_eta _ _)) as (r & Hr & _).
  rewrite Hr. reflexivity.
Defined.

Lemma egress_needs_permission_witness :
  existsb is_egress (ex_run "/v1"%bs []).1.2 = true ∧
  ∀ a, Dialed a ∈ (ex_run "/v1"%bs []).1.2 → permitted default_set a.
Proof.
  split; [vm_compute; reflexivity|].
  apply (egress_needs_permission (NW := up_network) (HL := echo_laws) (ex_http "/v1"%bs) ex_ctx (ex_st []) _ _ _
    (ex_run_eta _ _)).
  right. vm_compute. discriminate.
Defined.

Lemma body_forwarded_witness : ∃ ur po summary w w' target b over,
  Sent ur ∈ (ex_run "/v1"%bs []).1.2 ∧
  evaluate_request (pipeline ex_built) (request_summary ex_ctx (ex_http "/v1"%bs) target 64 over b) w
    = (po, summary, w') ∧
  out_data (ur_body ur) = if over : bool then "key=tok-1"%bs else body_bytes (body summary).
Proof.
  destruct ex_run_sent as [ur Hur]. exists ur.
  destruct (body_forwarded (NW := up_network) (HL := echo_laws) (ex_http "/v1"%bs) ex_ctx (ex_st []) _ _ _ ur
    (ex_run_eta _ _) Hur) as (target & b & over & po & summary & w & w' & _ & Hev & _ & _ & H).
  exists po, summary, w, w', target, b, over. split; [exact Hur|]. split; [exact Hev|].
  destruct over; exact (proj2 H).
Defined.

Lemma sent_headers_are_clean_witness : ∃ ur, Sent ur ∈ (ex_run "/v1"%bs []).1.2 ∧
  ∀ n v, (n, v) ∈ ur_headers ur → n ∉ HOP_BY_HOP ∨ n = "te"%bs.
Proof.
  destruct ex_run_sent as [ur Hur]. exists ur. split; [exact Hur|]. intros n v Hnv.
  apply (sent_headers_are_clean (NW := up_network) (HL := echo_laws) (ex_http "/v1"%bs) ex_ctx (ex_st []) _ _ _ ur n v
    (ex_run_eta _ _) Hur); [vm_compute; reflexivity|exact Hnv].
Defined.

Lemma reload_does_not_disturb_witness :
  run_equiv (ex_run "/v1"%bs []) (ex_run "/v1"%bs [Swap {| rt_pipeline := []; rt_guard := default_set;
    max_request_body_bytes := 0; tls_configured := false; tunnel_passthrough := [] |}]).
Proof.
  apply (reload_does_not_disturb (NW := up_network) (HY := echo_hyper) (ex_http "/v1"%bs) ex_ctx); [|reflexivity].
  split_and!; reflexivity.
Defined.

Definition ex_target (path : bytes) : Target :=
  {| t_host := "api.example.com"%bs; t_port := 443; t_path := path; t_query := "a=1"%bs |}.

Definition ex_addr : SocketAddr := {| sa_ip := V4 134744072; sa_port := 443 |}.

Lemma ex_run_dialed : Dialed ex_addr ∈ (ex_run "/v1"%bs []).1.2.
Proof. apply head_Some_elem_of. vm_compute. reflexivity. Qed.

Lemma target_is_the_connections_witness : ∃ target,
  resolve_target (HY := echo_hyper) (ex_http "/v1"%bs) ex_ctx = Ok target ∧
  t_host target = (split_host_port "api.example.com"%bs).1 ∧
  ex_addr ∈ (connect_upstream (NW := up_network) MkAllowProof (t_host target) (t_port target) true default_set 0).1.2.
Proof.
  destruct (target_is_the_connections (NW := up_network) (HL := echo_laws) ex_specs (Some ex_resolver) ex_built
    (ex_http "/v1"%bs) ex_ctx (ex_st []) (ex_run "/v1"%bs []).1.1 (ex_run "/v1"%bs []).1.2 (ex_run "/v1"%bs []).2 ex_addr)
    as (target & q & w & trs & caps & q' & w' & Ht & Hs & _ & _ & _ & Ha).
  - apply is_ok_unwrap. vm_compute. reflexivity.
  - reflexivity.
  - apply ex_run_eta.
  - exact ex_run_dialed.
  - exists target. split; [exact Ht|]. split; [|exact Ha]. apply (proj1 Hs). reflexivity.
Defined.

Lemma dot_segments_refused_witness :
  ∃ r st', ex_run "/a/%2e./b"%bs [] = (Done (status_response 400), [Emitted r Warn], st') ∧
    net st' = 0.
Proof.
  destruct (dot_segments_refused (NW := up_network) (HY := echo_hyper) (ex_http "/a/%2e./b"%bs) ex_ctx (ex_st [])
    (ex_target "/a/%2e./b"%bs) "%2e."%bs) as (r & st' & H & _ & _ & Hn & _).
  - vm_compute. reflexivity.
  - vm_compute (split_on _ _). right. right. left.
  - right. apply (spells_hex "2"%byte "e"%byte 2 14 "."%bs "."%bs); [reflexivity..|].
    apply (spells_raw "."%byte); [discriminate|constructor].
  - exists r, st'. split; [exact H|exact Hn].
Defined.

Lemma emitted_record_holds_no_secret_witness :
  (request_body <$> (omap (fun rl => ar_body_capture rl.1) (records (ex_run "/v1"%bs []).1.2))) = ["key=tok-1"%bs] ∧
  ∀ r lvl, (r, lvl) ∈ records (ex_run "/v1"%bs []).1.2 →
  ∀ cap, ar_body_capture r = Some cap → ∃ kept rest,
    body_data (rq_body (ex_http "/v1"%bs)) = kept ++ rest ∧ request_body cap = from_utf8_lossy kept.
Proof.
  split; [vm_compute; reflexivity|]. intros r lvl Hr.
  apply (emitted_record_holds_no_secret (NW := up_network) (HL := echo_laws) ex_specs (Some ex_resolver) ex_built
    (ex_http "/v1"%bs) ex_ctx (ex_st []) (ex_run "/v1"%bs []).1.1 (ex_run "/v1"%bs []).1.2 (ex_run "/v1"%bs []).2 r lvl).
  - apply is_ok_unwrap. vm_compute. reflexivity.
  - vm_compute. reflexivity.
  - vm_compute. lia.
  - reflexivity.
  - apply ex_run_eta.
  - exact Hr.
Defined.
