(* ===== verification/Listen.v ===== *)
(** * The HTTPS and tunnel listeners ([hematite-proxy/src/listen.rs])

    What happens on a connection before requests are served on it: the TLS
    leg, CONNECT and SOCKS5, the synthetic CONNECT request, and the splice of
    a passthrough tunnel. *)

From Stdlib Require Import QArith.
From S2P Require Import Prelude Utf8 Net Matcher Summary Pipeline KernelAudit Dial Tunnel Proxy Http.
#[local] Close Scope Q_scope.

(** ** The client's socket

    A connection is what it delivers, in order: chunks of bytes, pauses that
    outlast the handshake timeout, an error; the end of the list is the end
    of the stream. [write_results] is how the next writes to it go. *)
Inductive Delivery : Type :=
| Chunk (b : byte) (bs : bytes)
| Stall
| Reset (e : bytes).

Record Conn (N : Type) : Type := {
  wire : N;
  inp : list Delivery;
  write_results : list (result unit bytes);
}.
Arguments wire {N} c.
Arguments inp {N} c.
Arguments write_results {N} c.

Definition SNIFF_CAP : nat := 16 * 1024.

(** What rustls and the certificate cache provide on the client's leg
    ([None]: no complete ClientHello in time), and the byte copies of a
    spliced tunnel. *)
Class Leg (N Stream : Type) := {
  tls_accept : Conn N → option (option bytes) * Conn N;
  cert_get : bytes → Conn N → bool * Conn N;
  into_stream : Conn N → bool * Conn N;
  upstream_write : Stream → bytes → Conn N → result unit bytes * Conn N;
  copy_bidirectional : Stream → Conn N → result unit bytes * Conn N;
}.

(** How a connection was left: closed, or handed to the request handler with
    its context. *)
Inductive Handed : Type := Closed | Serve (ctx : ConnCtx).

(** ** Reading *)

(** Bytes put back in front of the deliveries. *)
Definition chunk (bs : bytes) (i : list Delivery) : list Delivery :=
  match bs with [] => i | b :: bs => Chunk b bs :: i end.

(** One [read] of up to [k] bytes, none at the end of the stream; [None] when
    the timeout comes first. Without a timeout pauses are waited out. *)
Fixpoint read_some (timed : bool) (k : nat) (i : list Delivery) :
    option (result bytes bytes) * list Delivery :=
  match i with
  | [] => (Some (Ok []), [])
  | Stall :: i => if timed then (None, i) else read_some timed k i
  | Reset e :: i => (Some (Err e), i)
  | Chunk b bs :: i => (Some (Ok (take k (b :: bs))), chunk (drop k (b :: bs)) i)
  end.

(** [peek] of one byte. *)
Fixpoint peek_one (timed : bool) (i : list Delivery) : option (result bytes bytes) * list Delivery :=
  match i with
  | [] => (Some (Ok []), [])
  | Stall :: i => if timed then (None, i) else peek_one timed i
  | Reset e :: i => (Some (Err e), i)
  | Chunk b bs :: i => (Some (Ok [b]), Chunk b bs :: i)
  end.

(** [read_exact] of [k] bytes. *)
Fixpoint read_bytes (k : nat) (acc : bytes) (i : list Delivery) : result bytes bytes * list Delivery :=
  if k =? 0 then (Ok acc, i)
  else match i with
       | [] => (Err "early eof"%bs, [])
       | Stall :: i => read_bytes k acc i
       | Reset e :: i => (Err e, i)
       | Chunk b bs :: i =>
           let c := b :: bs in
           if length c <=? k then read_bytes (k - length c) (acc ++ c) i
           else (Ok (acc ++ take k c), chunk (drop k c) i)
       end.

Section listen.
Context {N W Stream : Type} `{NW : !Network N Stream} `{HY : !Hyper N Stream} `{LG : !Leg N Stream}.

Definition set_wire (n : N) (c : Conn N) : Conn N :=
  {| wire := n; inp := inp c; write_results := write_results c |}.
Definition set_inp (i : list Delivery) (c : Conn N) : Conn N :=
  {| wire := wire c; inp := i; write_results := write_results c |}.

(** The network next to the client's socket. *)
#[export] Instance conn_network : Network (Conn N) Stream := {|
  lookup_host h p c := let '(r, n) := lookup_host h p (wire c) in (r, set_wire n c);
  tcp_connect a c := let '(r, n) := tcp_connect a (wire c) in (r, set_wire n c);
  valid_server_name := valid_server_name;
  tls_connect h s c := let '(r, n) := tls_connect h s (wire c) in (r, set_wire n c);
|}.

(** A computation of the listener, which may end in an I/O error, and the [?]
    after it. *)
#[local] Abbreviation Io A := (Proc (Conn N) W (result A bytes)).

Definition io_bind {A B} (m : Io A) (k : A → Io B) : Io B :=
  r ← m; match r with Ok a => k a | Err e => mret (Err e) end.

Definition io_ret {A} (a : A) : Io A := mret (Ok a).

#[local] Notation "'let!' x ':=' m 'in' k" := (io_bind m (fun x => k))
  (at level 10, x pattern, m at level 100, k at level 200).

(** Discard the result: [let _ = ...]. *)
Definition ignore {A} (m : Io A) : Io unit := m;; io_ret tt.

Definition on_inp {A} (f : list Delivery → A * list Delivery) : Proc (Conn N) W A :=
  await (fun c => let '(a, i) := f (inp c) in (a, [], set_inp i c)).

Definition on_conn {A} (evs : list Event) (f : Conn N → A * Conn N) : Proc (Conn N) W A :=
  await (fun c => let '(a, c) := f c in (a, evs, c)).

Definition read_exact (k : nat) : Io bytes := on_inp (read_bytes k []).

(** [stream.read] and [stream.peek] without a timeout. *)
Definition read_untimed (k : nat) : Io bytes :=
  r ← on_inp (read_some false k); mret (default (Ok []) r).
Definition peek_untimed : Io bytes :=
  r ← on_inp (peek_one false); mret (default (Ok []) r).

(** [stream.write_all]: the bytes are on their way only when it succeeds. *)
Definition write_all (data : bytes) : Io unit :=
  await (fun c =>
    let '(r, rest) := match write_results c with [] => (Ok tt, []) | r :: rest => (r, rest) end in
    (r, if is_ok r then [Replied data] else [],
     {| wire := wire c; inp := inp c; write_results := rest |})).

(** ** Audit records *)

(** A record made and emitted at once. *)
Definition emit_record (remote : bytes) (record : AuditRecord) : Io unit :=
  with_pending (Some remote) (pending_emit record);; io_ret tt.

Definition emit_listener_reject (remote host : bytes) (status : Z) (mode : Mode) : Io unit :=
  emit_record remote
    {| ar_host := host; ar_method := []; ar_path := []; ar_remote_addr := Some remote; ar_sni := None;
       ar_mode := mode; ar_action := AReject; ar_status_code := Some status; ar_duration_ms := 0%Q;
       ar_rejected_by := Some "listener"%bs; ar_stubbed_by := None; ar_error := None;
       ar_request_transforms := []; ar_response_transforms := []; ar_tunnel := None;
       ar_guard := None; ar_body_capture := None |}.

Definition base_tunnel_record (remote : bytes) (target : ConnectTarget) (traces : list Trace) : AuditRecord :=
  {| ar_host := ct_host target; ar_method := "CONNECT"%bs; ar_path := []; ar_remote_addr := Some remote;
     ar_sni := None; ar_mode := Tunnel; ar_action := Allow; ar_status_code := None; ar_duration_ms := 0%Q;
     ar_rejected_by := None; ar_stubbed_by := None; ar_error := None;
     ar_request_transforms := traces; ar_response_transforms := []; ar_tunnel := None;
     ar_guard := None; ar_body_capture := None |}.

Definition emit_tunnel_reject (remote : bytes) (target : ConnectTarget) (po : PipelineOutcome) : Io unit :=
  let rejected_by := match outcome po with OReject by_ _ => by_ | _ => "listener"%bs end in
  emit_record remote
    (set_status (Some 403%Z) (set_rejected_by (Some rejected_by) (set_action AReject
       (base_tunnel_record remote target (request_traces po))))).

Definition emit_tunnel_handshake (remote : bytes) (target : ConnectTarget) (traces : list Trace) : Io unit :=
  emit_record remote (set_status (Some 200%Z) (set_action Allow (base_tunnel_record remote target traces))).

(** [format!("{}:{}", host, port)]. *)
Definition show_target (t : ConnectTarget) : bytes := ct_host t ++ ":"%bs ++ show_dec (ct_port t).

(** ** The TLS leg *)

Definition terminate_and_serve (remote : bytes) (forced : option (ConnectTarget * list Trace)) : Io Handed :=
  rt ← current;
  if negb (tls_configured rt) then io_ret Closed
  else
    hello ← on_conn [] tls_accept;
    match hello with
    | None => io_ret Closed
    | Some sni =>
        let mint := match forced with
                    | Some (target, _) => Some (ct_host target, Some (ct_host target))
                    | None => match sni with Some s => Some (s, None) | None => None end
                    end in
        match mint with
        | None => let! _ := emit_listener_reject remote [] 0 Https in io_ret Closed
        | Some (mint_target, expected_host) =>
            let disagrees := match expected_host, sni with
                             | Some expected, Some sni => negb (eq_ignore_ascii_case sni expected)
                             | _, _ => false
                             end in
            if disagrees then
              let! _ := emit_listener_reject remote (default [] expected_host) 0 Tunnel in io_ret Closed
            else
              minted ← on_conn [] (cert_get mint_target);
              if negb minted then io_ret Closed
              else
                up ← on_conn [] into_stream;
                if negb up then io_ret Closed
                else
                  let ctx m fu tt_ tr :=
                    {| cc_remote_addr := remote; cc_mode := m; cc_sni := sni; scheme_https := true;
                       forced_upstream := fu; tunnel_target := tt_; tunnel_traces := tr |} in
                  io_ret (Serve (match forced with
                                 | Some (target, traces) =>
                                     ctx Tunnel (Some (ct_host target, ct_port target))
                                       (Some (show_target target)) traces
                                 | None => ctx Https None None []
                                 end))
        end
    end.

(** ** CONNECT and SOCKS5 *)

Definition CRLF2 : bytes := [Byte.x0d; Byte.x0a; Byte.x0d; Byte.x0a].

(** The loop of [read_connect]; the buffer grows by a byte per turn, so the
    cap bounds the fuel it needs. *)
Fixpoint read_head (fuel : nat) (buf : bytes) : Io (option bytes) :=
  match fuel with
  | 0 => io_ret None
  | S fuel =>
      if SNIFF_CAP <? length buf then io_ret None
      else
        let! b := read_untimed 1 in
        if length b =? 0 then io_ret None
        else
          let buf := buf ++ b in
          if ends_with CRLF2 buf then io_ret (Some buf) else read_head fuel buf
  end.

Definition read_connect : Io (option ConnectTarget) :=
  let! head := read_head (2 + SNIFF_CAP) [] in
  io_ret (buf ← head; parse_connect (from_utf8_lossy buf)).

(** The last step: parse, or tell the client why not. *)
Definition socks5_target (req : bytes) : Io (option ConnectTarget) :=
  match parse_socks5_request req with
  | Ok t => io_ret (Some t)
  | Err reject => let! _ := ignore (write_all (socks5_failure (reply_code reject))) in io_ret None
  end.

Definition socks5_handshake : Io (option ConnectTarget) :=
  let! head := read_exact 2 in
  match head with
  | [ver; nmethods] =>
      if negb (b2z ver =? 5)%Z then io_ret None
      else
        let! methods := read_exact (Z.to_nat (b2z nmethods)) in
        match parse_socks5_methods (nmethods :: methods) with
        | Some NoAuth =>
            let! _ := write_all [Byte.x05; Byte.x00] in
            let! fixed := read_exact 4 in
            match fixed with
            | [_; _; _; atyp] =>
                if (b2z atyp =? 3)%Z then
                  let! len := read_exact 1 in
                  match len with
                  | [l] => let! rest := read_exact (Z.to_nat (b2z l) + 2) in socks5_target (fixed ++ l :: rest)
                  | _ => io_ret None
                  end
                else if (b2z atyp =? 1)%Z then
                  let! rest := read_exact (4 + 2) in socks5_target (fixed ++ rest)
                else if (b2z atyp =? 4)%Z then
                  let! rest := read_exact (16 + 2) in socks5_target (fixed ++ rest)
                else
                  let! _ := ignore (write_all (socks5_failure Byte.x08)) in io_ret None
            | _ => io_ret None
            end
        | _ => let! _ := ignore (write_all [Byte.x05; Byte.xff]) in io_ret None
        end
  | _ => io_ret None
  end.

Definition synthetic_connect_summary (target : ConnectTarget) (remote : bytes) : RequestSummary :=
  {| mode := Tunnel; method := "CONNECT"%bs; host := ct_host target; port := ct_port target; path := [];
     query := []; headers := []; body := {| body_bytes := []; over_cap := false |}; sni := None;
     remote_addr := Some remote |}.

(** ** Passthrough *)

(** The client's opening bytes, until they hold a server name or cannot; each
    turn adds a byte at least, so the cap bounds the fuel. *)
Fixpoint sniff_loop (fuel : nat) (buffered : bytes) : Proc (Conn N) W (bytes * option bytes) :=
  match fuel with
  | 0 => mret (buffered, None)
  | S fuel =>
      if SNIFF_CAP <? length buffered then mret (buffered, None)
      else
        r ← on_inp (read_some true 4096);
        match r with
        | Some (Ok (b :: bs)) =>
            let buffered := buffered ++ b :: bs in
            match scan_client_hello_sni buffered with
            | Incomplete => sniff_loop fuel buffered
            | Sni name => mret (buffered, Some name)
            | NoSni | NotTls => mret (buffered, None)
            end
        | _ => mret (buffered, None)
        end
  end.

Definition HTTP_200 : bytes := "HTTP/1.1 200 Connection Established"%bs ++ CRLF2.
Definition HTTP_403 : bytes := "HTTP/1.1 403 Forbidden"%bs ++ CRLF2.
Definition HTTP_502 : bytes := "HTTP/1.1 502 Bad Gateway"%bs ++ CRLF2.

(** [started.elapsed()], in milliseconds. *)
Definition elapsed_ms (started : Q) : Proc (Conn N) W Q :=
  c ← get net; mret (ms_since started (wire c)).

(** The end of a passthrough tunnel: its duration, its group, its record. *)
Definition tunnel_finish (started : Q) (remote : bytes) (target : ConnectTarget) (r : AuditRecord) : Io unit :=
  d ← elapsed_ms started;
  emit_record remote (set_tunnel (Some {| tg_target := show_target target; tg_request_transforms := [];
                                          tg_passthrough := true |}) (set_duration d r)).

(** The scanned bytes and then the copies; a name that is not the target's
    tears the tunnel down first. *)
Definition splice_stage (started : Q) (remote : bytes) (target : ConnectTarget) (record : AuditRecord)
    (upstream : Stream) (buffered : bytes) (observed_sni : option bytes) : Io Handed :=
  let mismatch := match observed_sni with
                  | Some name => negb (name ≟ to_ascii_lowercase (ct_host target))
                  | None => false
                  end in
  if mismatch then
    let! _ := tunnel_finish started remote target
                (set_sni observed_sni (set_rejected_by (Some "listener"%bs) (set_action AReject record))) in
    io_ret Closed
  else
    let! _ := if negb (buffered ≟ []) then on_conn [Spliced buffered] (upstream_write upstream buffered)
              else io_ret tt in
    copied ← on_conn [Bridged] (copy_bidirectional upstream);
    let record := set_sni observed_sni (set_status (Some 200%Z) (set_action Allow record)) in
    let! _ := tunnel_finish started remote target
                (match copied with
                 | Err e => set_error (Some (Fmt "splice: {e}"%bs [Text e])) record
                 | Ok _ => record
                 end) in
    io_ret Closed.

Definition passthrough_tunnel (is_socks : bool) (target : ConnectTarget) (proof : AllowProof)
    (remote : bytes) (rt : Runtime W) (traces : list Trace) : Io Handed :=
  c ← get net;
  let started := clock (wire c) in
  let record := base_tunnel_record remote target traces in
  up ← dial proof (ct_host target) (ct_port target) false rt;
  match up with
  | Err e =>
      let record := match e with
                    | Denied denial => set_guard (Some denial) (set_rejected_by (Some "guard"%bs)
                                         (set_action AReject record))
                    | Failed msg => set_error (Some msg) (set_action AError record)
                    end in
      let! _ := tunnel_finish started remote target (set_status (Some 502%Z) record) in
      let! _ := ignore (write_all (if is_socks then socks5_failure Byte.x02 else HTTP_502)) in
      io_ret Closed
  | Ok upstream =>
      let! _ := write_all (if is_socks then SOCKS5_SUCCESS else HTTP_200) in
      sniffed ← sniff_loop (2 + SNIFF_CAP) [];
      let '(buffered, observed_sni) := sniffed in
      splice_stage started remote target record upstream buffered observed_sni
  end.

(** ** The tunnel *)

(** What follows a success reply: sniff the inner protocol, and serve it. *)
Definition serve_inner (remote : bytes) (target : ConnectTarget) (traces : list Trace) : Io Handed :=
  inner ← on_inp (peek_one true);
  match inner with
  | Some (Ok [b]) =>
      match sniff_inner b with
      | ITls => terminate_and_serve remote (Some (target, traces))
      | IHttp =>
          io_ret (Serve {| cc_remote_addr := remote; cc_mode := Tunnel; cc_sni := None; scheme_https := false;
                           forced_upstream := Some (ct_host target, ct_port target);
                           tunnel_target := Some (show_target target); tunnel_traces := traces |})
      | IUnknown => io_ret Closed
      end
  | _ => let! _ := emit_tunnel_handshake remote target traces in io_ret Closed
  end.

(** From the target on: the pipeline, the reply, the inner protocol. *)
Definition tunnel_to (is_socks : bool) (target : ConnectTarget) (remote : bytes) : Io Handed :=
  rt ← current;
  run ← with_world (fun w => let '(po, q, w) :=
          evaluate_request (rt_pipeline rt) (synthetic_connect_summary target remote) w in (po, w));
  let traces := request_traces run in
  match outcome run with
  | OContinue proof =>
      if passthrough_matches (tunnel_passthrough rt) (ct_host target) then
        passthrough_tunnel is_socks target proof remote rt traces
      else
        let! _ := write_all (if is_socks then SOCKS5_SUCCESS else HTTP_200) in
        serve_inner remote target traces
  | _ =>
      let! _ := emit_tunnel_reject remote target run in
      let! _ := ignore (write_all (if is_socks then socks5_failure Byte.x02 else HTTP_403)) in
      io_ret Closed
  end.

Definition handle_tunnel (remote : bytes) : Io Handed :=
  let! first := peek_untimed in
  match first with
  | [b] =>
      match dispatch b with
      | CHttp =>
          let! t := read_connect in
          match t with Some target => tunnel_to false target remote | None => io_ret Closed end
      | Socks5 =>
          let! t := socks5_handshake in
          match t with Some target => tunnel_to true target remote | None => io_ret Closed end
      | CUnknown => io_ret Closed
      end
  | _ => io_ret Closed
  end.

End listen.
