(* ===== verification/ListenTheorems.v ===== *)
(** * Guarantees of the listeners

    Handshakes over a stream delivered in any pieces, which tunnels are
    opened and what may be sent on them, and the records they leave. *)

From Stdlib Require Import QArith.
From S2P Require Import Prelude Utf8 Net Matcher Summary Pipeline KernelAudit Dial Tunnel Proxy Http HttpTheorems Listen.
#[local] Close Scope Q_scope.

(** ** Streams *)

(** The bytes a socket delivers before its end or an error. *)
Fixpoint data (i : list Delivery) : bytes :=
  match i with
  | [] | Reset _ :: _ => []
  | Stall :: i => data i
  | Chunk b bs :: i => b :: bs ++ data i
  end.

Lemma data_chunk bs i : data (chunk bs i) = bs ++ data i.
Proof. by destruct bs. Qed.

Lemma read_bytes_0 acc i : read_bytes 0 acc i = (Ok acc, i).
Proof. by destruct i. Qed.

(** However the bytes are cut into pieces, [read_exact] takes the next [k]. *)
Lemma read_bytes_enough k acc i :
  k ≤ length (data i) →
  ∃ i', read_bytes k acc i = (Ok (acc ++ take k (data i)), i') ∧ data i' = drop k (data i).
Proof.
  revert k acc. induction i as [|[b bs| |e] i IH]; intros [|k] acc Hk;
    try (rewrite read_bytes_0; eexists; split; [by rewrite app_nil_r|done]); cbn [data length] in Hk; try lia.
  - change (b :: bs ++ data i) with ((b :: bs) ++ data i) in *.
    cbn [read_bytes Nat.eqb]. rewrite length_app in Hk. destruct (Nat.leb_spec (length (b :: bs)) (S k)) as [Hl|Hl].
    + destruct (IH (S k - length (b :: bs)) (acc ++ b :: bs)) as (i' & -> & Hd); [simpl in *; lia|].
      exists i'. rewrite Hd. cbn [data]. change (b :: bs ++ data i) with ((b :: bs) ++ data i).
      rewrite take_app_ge, drop_app_ge, <- app_assoc by lia. done.
    + cbn [data]. change (b :: bs ++ data i) with ((b :: bs) ++ data i).
      rewrite take_app_le, drop_app_le by lia. eexists. split; [done|]. apply data_chunk.
  - destruct (IH (S k) acc Hk) as (i' & ? & ?). by exists i'.
Qed.

Lemma read_bytes_short k acc i :
  length (data i) < k → ∃ e i', read_bytes k acc i = (Err e, i').
Proof.
  revert k acc. induction i as [|[b bs| |e] i IH]; intros [|k] acc Hk; try lia.
  - by eexists _, _.
  - cbn [data] in Hk. change (b :: bs ++ data i) with ((b :: bs) ++ data i) in Hk.
    rewrite length_app in Hk. cbn [read_bytes Nat.eqb]. rewrite (proj2 (Nat.leb_le _ _)) by lia. apply IH. lia.
  - by apply IH.
  - by eexists _, _.
Qed.

Section io.
Context {N W Stream : Type} `{NW : !Network N Stream} `{HY : !Hyper N Stream} `{LG : !Leg N Stream}.
Implicit Types (st : St (Conn N) W) (rt : Runtime W).

Abbreviation Io A := (Proc (Conn N) W (result A bytes)).

(** The listener's tasks are not dropped, only preempted by reloads. *)
Definition no_drop st : Prop := Forall (fun t => match t with DropFuture => False | _ => True end) (sched st).

Lemma ticks_no_drop (rt : Runtime W) w s :
  Forall (fun t => match t with DropFuture => False | _ => True end) s →
  ∃ rt' w' s', ticks rt w s = (true, rt', w', s') ∧ Forall (fun t => match t with DropFuture => False | _ => True end) s'.
Proof.
  revert rt w. induction s as [|[] s IH]; intros rt w H; simpl; [by eauto 6|..]; apply Forall_cons in H as [H1 H2];
    [by eauto 6|done|by apply IH..].
Qed.

Lemma wp_await_now {A} (op : Conn N → A * list Event * Conn N) Q st :
  no_drop st →
  (∀ st' a evs, no_drop st' → op (net st) = (a, evs, net st') → emitted st' = emitted st → Q (Done a) evs st') →
  wp (await op) Q st.
Proof.
  intros (rt & w & s & Ht & Hs)%(ticks_no_drop (shared st) (world st)) Hk. unfold wp, await. rewrite Ht.
  destruct (op (net st)) as [[a evs] n] eqn:E. by apply Hk.
Qed.

Lemma wp_io_bind {A B} (m : Io A) (k : A → Io B) Q st :
  wp m (fun ex evs st' => match ex with
                          | Done (Ok a) => wp (k a) (fun ex evs' => Q ex (evs ++ evs')) st'
                          | Done (Err e) => Q (Done (Err e)) evs st'
                          | Dropped => Q Dropped evs st'
                          end) st → wp (io_bind m k) Q st.
Proof.
  intros H. apply wp_bind. eapply wp_mono; [exact H|]. intros [[a|e]|] evs st' H'; [done| |done].
  apply wp_ret. by rewrite app_nil_r.
Qed.

Lemma wp_io_ret {A} (a : A) Q st : Q (Done (Ok a)) [] st → wp (W := W) (N := Conn N) (io_ret a) Q st.
Proof. done. Qed.

(** Reading what the stream holds. *)
Lemma wp_read_exact k Q st :
  no_drop st → k ≤ length (data (inp (net st))) →
  (∀ st', no_drop st' → data (inp (net st')) = drop k (data (inp (net st))) →
     wire (net st') = wire (net st) → write_results (net st') = write_results (net st) →
     Q (Done (Ok (take k (data (inp (net st)))))) [] st') →
  wp (read_exact k) Q st.
Proof.
  intros Hd Hk HQ. apply wp_await_now; [done|]. intros st' r evs Hd' Hop He.
  destruct (read_bytes_enough k [] _ Hk) as (i' & Hr & Hi). rewrite Hr in Hop. injection Hop as <- <- Hn.
  simpl. apply HQ; rewrite <- ?Hn; done.
Qed.

(** A write that goes through. *)
Lemma wp_write_ok bs Q st :
  no_drop st → write_results (net st) = [] →
  (∀ st', no_drop st' → inp (net st') = inp (net st) → wire (net st') = wire (net st) →
     write_results (net st') = [] → Q (Done (Ok tt)) [Replied bs] st') →
  wp (write_all bs) Q st.
Proof.
  intros Hd Hw HQ. apply wp_await_now; [done|]. intros st' r evs Hd' Hop He.
  rewrite Hw in Hop. injection Hop as <- <- Hn. simpl. apply HQ; rewrite <- ?Hn; done.
Qed.

(** ** SOCKS5 over a stream *)

Lemma parse_methods_ok methods :
  length methods < 256 → Byte.x00 ∈ methods →
  parse_socks5_methods (z2b (Z.of_nat (length methods)) :: methods) = Some NoAuth.
Proof.
  intros Hlen Hin. unfold parse_socks5_methods. cbn [head mbind option_bind].
  rewrite b2z_z2b_small, Nat2Z.id by lia.
  rewrite (get_range_at [z2b (Z.of_nat (length methods))] methods []) by (by rewrite ?app_nil_r).
  cbn [mbind option_bind]. by rewrite (proj2 (contains_byte_spec _ _)).
Qed.

(** The last read of the request and its parse. *)
Lemma wp_socks5_tail (f : bytes → bytes) k tail rest rsv a p0 p1 st :
  no_drop st → data (inp (net st)) = tail ++ rest → k = length tail → socks_addr_wf a →
  f tail = socks_request_wire rsv a [p0; p1] [] →
  wp (io_bind (read_exact k) (fun r => socks5_target (f r))) (fun ex evs st' =>
    ex = Done (Ok (Some {| ct_host := socks_host a; ct_port := be16 p0 p1 |})) ∧ evs = [] ∧
    data (inp (net st')) = rest ∧ wire (net st') = wire (net st)) st.
Proof.
  intros Hd Hdata -> Hwf Hf. apply wp_io_bind, wp_read_exact; [done|rewrite Hdata, length_app; lia|].
  rewrite Hdata, take_app_length, drop_app_length. intros st1 Hd1 D1 W1 _. cbv beta iota. rewrite Hf.
  unfold socks5_target. rewrite parse_socks5_wire by done. by apply wp_io_ret.
Qed.

(** SOCKS5: a client that offers the no-authentication method and sends a
    CONNECT request gets its target through, whatever pieces and pauses the
    bytes arrive in; the reply to the greeting is sent, and what follows the
    request is left on the stream. *)
Theorem socks5_handshake_any_pieces st methods rsv a p0 p1 rest :
  no_drop st → write_results (net st) = [] → (length methods < 256) → (Byte.x00 ∈ methods) → socks_addr_wf a →
  data (inp (net st)) = Byte.x05 :: z2b (Z.of_nat (length methods)) :: methods ++
                          socks_request_wire rsv a [p0; p1] rest →
  wp (N := Conn N) socks5_handshake (fun ex evs st' =>
    ex = Done (Ok (Some {| ct_host := socks_host a; ct_port := be16 p0 p1 |})) ∧
    evs = [Replied [Byte.x05; Byte.x00]] ∧ data (inp (net st')) = rest ∧ wire (net st') = wire (net st)) st.
Proof.
  intros Hd Hw Hlen Hin Hwf Hdata.
  assert (Z.to_nat (b2z (z2b (Z.of_nat (length methods)))) = length methods) as Hn
    by (rewrite b2z_z2b_small by lia; lia).
  apply wp_io_bind, wp_read_exact; [done|rewrite Hdata; simpl; lia|]. rewrite Hdata. cbn [firstn skipn].
  intros st1 Hd1 D1 W1 R1. cbv beta iota. rewrite drop_0 in D1.
  change (b2z Byte.x05 =? 5)%Z with true. cbn [negb].
  apply wp_io_bind. rewrite Hn. apply wp_read_exact; [done|rewrite D1, length_app; lia|].
  rewrite D1, take_app_length, drop_app_length. intros st2 Hd2 D2 W2 R2. cbv beta iota.
  rewrite parse_methods_ok by done.
  apply wp_io_bind, wp_write_ok; [done|congruence|]. intros st3 Hd3 I3 W3 R3. cbv beta iota.
  rewrite <- I3 in D2. unfold socks_request_wire in D2.
  apply wp_io_bind, wp_read_exact; [done|rewrite D2; destruct a; simpl; lia|].
  rewrite D2. intros st4 Hd4 D4 W4 _. cbv beta iota.
  assert (wire (net st4) = wire (net st)) as <- by congruence. clear -D4 Hd4 Hwf.
  apply wp_mono with (P := fun ex evs st' =>
    ex = Done (Ok (Some {| ct_host := socks_host a; ct_port := be16 p0 p1 |})) ∧ evs = [] ∧
    data (inp (net st')) = rest ∧ wire (net st') = wire (net st4)); [|by intros ex evs st' (-> & -> & ? & ?)].
  destruct a as [a|name|a]; cbn in D4; rewrite ?drop_0 in D4; cbn [firstn app socks_addr_wire]; rewrite ?take_0.
  - apply (wp_socks5_tail (fun r => [Byte.x05; Byte.x01; rsv; Byte.x01] ++ r) 6 (a ++ [p0; p1]) rest rsv (SocksV4 a));
      try done; [by rewrite <- app_assoc|rewrite length_app; simpl in *; lia].
  - change (b2z Byte.x03 =? 3)%Z with true. cbv iota.
    apply wp_io_bind, wp_read_exact; [done|rewrite D4; simpl; lia|]. rewrite D4. cbn [firstn skipn].
    intros st5 Hd5 D5 W5 _. cbv beta iota. rewrite <- W5. rewrite drop_0 in D5. destruct Hwf as [Hl Hu].
    apply (wp_socks5_tail (fun r => [Byte.x05; Byte.x01; rsv; Byte.x03] ++ z2b (Z.of_nat (length name)) :: r)
             _ (name ++ [p0; p1]) rest rsv (SocksDomain name));
      try done; [by rewrite <- app_assoc|rewrite length_app, b2z_z2b_small by lia; simpl; lia].
  - apply (wp_socks5_tail (fun r => [Byte.x05; Byte.x01; rsv; Byte.x04] ++ r) 18 (a ++ [p0; p1]) rest rsv (SocksV6 a));
      try done; [by rewrite <- app_assoc|rewrite length_app; simpl in *; lia].
Qed.

(** ** CONNECT heads *)

Lemma read_some_one i b d :
  data i = b :: d → ∃ i', read_some false 1 i = (Some (Ok [b]), i') ∧ data i' = d.
Proof.
  induction i as [|[c bs| |e] i IH]; simpl; try done. intros [= -> <-].
  eexists. split; [done|]. rewrite drop_0. apply data_chunk.
Qed.

Lemma wp_read_one b d Q st :
  no_drop st → data (inp (net st)) = b :: d →
  (∀ st', no_drop st' → data (inp (net st')) = d → wire (net st') = wire (net st) → Q (Done (Ok [b])) [] st') →
  wp (read_untimed 1) Q st.
Proof.
  intros Hd Hdata HQ. apply wp_bind, wp_await_now; [done|]. intros st' r evs Hd' Hop _.
  destruct (read_some_one _ _ _ Hdata) as (i' & Hr & Hi). rewrite Hr in Hop. injection Hop as <- <- Hn.
  apply wp_ret. apply HQ; [done|by rewrite <- Hn|by rewrite <- Hn].
Qed.

(** [p] is the first prefix of the stream that ends the head. *)
Definition first_head (head : bytes) : Prop :=
  ends_with CRLF2 head = true ∧ ∀ p q, head = p ++ q → q ≠ [] → ends_with CRLF2 p = false.

Lemma wp_read_head fuel buf tail rest st :
  no_drop st → data (inp (net st)) = tail ++ rest → first_head (buf ++ tail) → tail ≠ [] →
  length tail ≤ fuel → length buf + length tail ≤ S SNIFF_CAP →
  wp (read_head fuel buf) (fun ex evs st' =>
    ex = Done (Ok (Some (buf ++ tail))) ∧ evs = [] ∧ no_drop st' ∧
    data (inp (net st')) = rest ∧ wire (net st') = wire (net st)) st.
Proof.
  revert buf fuel st. induction tail as [|b tail IH]; intros buf fuel st Hd Hdata Hh Hne Hf Hcap; [done|].
  destruct fuel as [|fuel]; [simpl in Hf; lia|]. cbn [read_head length] in *.
  rewrite (proj2 (Nat.ltb_ge SNIFF_CAP (length buf))) by lia.
  apply wp_io_bind. apply (wp_read_one b (tail ++ rest)); [done|done|]. intros st1 Hd1 D1 W1. cbv beta iota.
  cbn [length Nat.eqb app]. destruct tail as [|c tail].
  - rewrite (proj1 Hh). by apply wp_io_ret.
  - rewrite (proj2 Hh (buf ++ [b]) (c :: tail)) by (try done; by rewrite <- app_assoc).
    replace (buf ++ b :: c :: tail) with ((buf ++ [b]) ++ c :: tail) in * by (by rewrite <- app_assoc).
    rewrite <- W1. apply IH; try done; rewrite ?length_app; simpl in *; lia.
Qed.

(** CONNECT: the head of a CONNECT request is read to its blank line and
    not a byte further, whatever pieces it arrives in; what follows, such as
    the client's TLS handshake, is left on the stream. *)
Theorem connect_reads_the_head st head rest :
  no_drop st → data (inp (net st)) = head ++ rest → first_head head → head ≠ [] → length head ≤ S SNIFF_CAP →
  wp (N := Conn N) read_connect (fun ex evs st' =>
    ex = Done (Ok (parse_connect (from_utf8_lossy head))) ∧ evs = [] ∧
    data (inp (net st')) = rest ∧ wire (net st') = wire (net st)) st.
Proof.
  intros Hd Hdata Hh Hne Hl. apply wp_io_bind. eapply wp_mono; [apply (wp_read_head _ [] head rest); simpl; try done; lia|].
  intros ex evs st' (-> & -> & _ & ? & ?). by apply wp_io_ret.
Qed.

(** The fuel of the loop is enough: more changes nothing. *)
Lemma read_head_fuel fuel k buf st :
  2 + SNIFF_CAP ≤ fuel + length buf →
  read_head (N := N) (W := W) (fuel + k) buf st = read_head fuel buf st.
Proof.
  revert buf st. induction fuel as [|fuel IH]; intros buf st Hf; cbn [Nat.add read_head].
  - destruct k as [|k]; [done|]. cbn [read_head]. by rewrite (proj2 (Nat.ltb_lt _ _)) by lia.
  - destruct (SNIFF_CAP <? length buf); [done|]. unfold io_bind, mbind, proc_bind.
    destruct (read_untimed 1 st) as [[[[b|e]|] evs] st1]; try done.
    destruct (length b =? 0) eqn:Eb; [done|]. apply Nat.eqb_neq in Eb.
    destruct (ends_with CRLF2 (buf ++ b)); [done|]. rewrite IH; [done|]. rewrite length_app. lia.
Qed.

(** ** Passthrough *)

Lemma sniff_loop_fuel fuel k buf st :
  2 + SNIFF_CAP ≤ fuel + length buf →
  sniff_loop (N := N) (W := W) (fuel + k) buf st = sniff_loop fuel buf st.
Proof.
  revert buf st. induction fuel as [|fuel IH]; intros buf st Hf; cbn [Nat.add sniff_loop].
  - destruct k as [|k]; [done|]. cbn [sniff_loop]. by rewrite (proj2 (Nat.ltb_lt _ _)) by lia.
  - destruct (SNIFF_CAP <? length buf); [done|]. unfold mbind, proc_bind.
    destruct (on_inp _ st) as [[[r|] evs] st1]; [|done]. destruct r as [[[|b bs]|e]|]; try done.
    destruct (scan_client_hello_sni (buf ++ b :: bs)); try done.
    rewrite IH; [done|]. rewrite length_app. simpl. lia.
Qed.

(** What the client's opening bytes come to: the bytes up to the point where
    they hold a server name or cannot, the client pauses for the timeout, stops,
    or has sent more than the cap; and the name, if one was found. *)
Fixpoint opening (fuel : nat) (buffered : bytes) (i : list Delivery) : bytes * option bytes :=
  match fuel with
  | 0 => (buffered, None)
  | S fuel =>
      if SNIFF_CAP <? length buffered then (buffered, None)
      else match read_some true 4096 i with
           | (Some (Ok (b :: bs)), i) =>
               match scan_client_hello_sni (buffered ++ b :: bs) with
               | Incomplete => opening fuel (buffered ++ b :: bs) i
               | Sni name => (buffered ++ b :: bs, Some name)
               | NoSni | NotTls => (buffered ++ b :: bs, None)
               end
           | _ => (buffered, None)
           end
  end.

Definition client_opening (i : list Delivery) : bytes * option bytes := opening (2 + SNIFF_CAP) [] i.

(** The name found is the one the bytes hold. *)
Lemma opening_right fuel buf i name :
  (∀ name, scan_client_hello_sni buf ≠ Sni name) →
  (opening fuel buf i).2 = Some name ↔ scan_client_hello_sni (opening fuel buf i).1 = Sni name.
Proof.
  revert buf i. induction fuel as [|fuel IH]; intros buf i Hs; cbn [opening]; [split; [done|by intros ?%Hs]|].
  destruct (SNIFF_CAP <? length buf); [split; [done|by intros ?%Hs]|].
  destruct (read_some true 4096 i) as [[[[|b bs]|e]|] i1]; try (split; [done|by intros ?%Hs]).
  destruct (scan_client_hello_sni (buf ++ b :: bs)) as [| |n|] eqn:Es; simpl; try (rewrite Es; naive_solver).
  apply IH. intros n. by rewrite Es.
Qed.

Lemma client_opening_right i name :
  (client_opening i).2 = Some name ↔ scan_client_hello_sni (client_opening i).1 = Sni name.
Proof. by apply opening_right. Qed.

Lemma wp_sniff_loop fuel buf Q st :
  (∀ st', Q Dropped [] st') → (∀ st', Q (Done (opening fuel buf (inp (net st)))) [] st') →
  wp (sniff_loop fuel buf) Q st.
Proof.
  revert buf st. induction fuel as [|fuel IH]; intros buf st Hd Hk; cbn [sniff_loop opening] in *; [by apply wp_ret|].
  destruct (SNIFF_CAP <? length buf); [by apply wp_ret|].
  apply wp_bind, wp_await; [intros; by apply Hd|]. intros st1 r evs Hop He _.
  destruct (read_some true 4096 (inp (net st))) as [x i]. injection Hop as <- <- Hn. cbn [app].
  destruct x as [[[|b bs]|e]|]; try by apply wp_ret, Hk.
  destruct (scan_client_hello_sni (buf ++ b :: bs)) as [| |name|]; try by apply wp_ret, Hk.
  apply IH; [done|]. rewrite <- Hn. done.
Qed.

(** *** Where a tunnel goes

    The dial of a tunnel on the network beside the client's socket is the dial
    on the network. *)
Lemma dial_loop_conn g host https addrs le tried (c : Conn N) :
  dial_loop g host https addrs le tried c
  = let '(res, m, tried', n) := dial_loop g host https addrs le tried (wire c) in (res, m, tried', set_wire n c).
Proof.
  revert le tried c. induction addrs as [|a addrs IH]; intros le tried c; simpl; [by destruct c|].
  destruct (check g (sa_ip a)); [|by destruct c]. destruct (tcp_connect a (wire c)) as [[s|e|] n]; [|exact (IH _ _ (set_wire n c))..].
  destruct (negb https); [done|]. destruct (negb _); [done|]. simpl. by destruct (tls_connect host s n) as [[]].
Qed.

Lemma connect_conn proof host port https g (c : Conn N) :
  connect_upstream proof host port https g c
  = let '(res, m, tried, n) := connect_upstream proof host port https g (wire c) in (res, m, tried, set_wire n c).
Proof.
  unfold connect_upstream. destruct (parse_ip host) as [ip|].
  - rewrite dial_loop_conn. by destruct c.
  - simpl. destruct (lookup_host host port (wire c)) as [[[|a l]|e] n]; [done| |done]. by rewrite dial_loop_conn.
Qed.

(** How the dial for a target goes on the network [n], and the addresses it
    tries. *)
Definition target_dial rt target (n : N) : DialRun (N := N) (Stream := Stream) :=
  connect_upstream MkAllowProof (ct_host target) (ct_port target) false (rt_guard rt) n.

Definition target_up rt target (n : N) : bool := is_ok (target_dial rt target n).1.1.1.
Definition target_addrs rt target (n : N) : list SocketAddr := (target_dial rt target n).1.2.

Lemma target_addrs_permitted rt target n a : a ∈ target_addrs rt target n → permitted (rt_guard rt) a.
Proof.
  unfold target_addrs, target_dial. destruct (connect_upstream _ _ _ _ _ _) as [[[res m] tried] n'] eqn:E.
  apply (proj1 (Forall_forall _ _)). by eapply connect_permitted.
Qed.

(** How the next write to the client goes. *)
Definition next_write (c : Conn N) : bool :=
  match write_results c with [] => true | r :: _ => is_ok r end.

Lemma wp_tunnel_dial proof target rt Q st :
  (∀ pre st', pre `prefix_of` target_addrs rt target (wire (net st)) → Q Dropped (map Dialed pre) st') →
  (∀ res m st', is_ok res = target_up rt target (wire (net st)) → inp (net st') = inp (net st) →
     next_write (net st') = next_write (net st) →
     Q (Done res) (map Dialed (target_addrs rt target (wire (net st))) ++ map Counted m) st') →
  wp (dial proof (ct_host target) (ct_port target) false rt) Q st.
Proof.
  unfold target_addrs, target_up, target_dial. intros Hd Hk. destruct proof.
  pose proof (connect_conn MkAllowProof (ct_host target) (ct_port target) false (rt_guard rt) (net st)) as Hc.
  destruct (connect_upstream _ _ _ _ _ (wire (net st))) as [[[res m] tried] n] eqn:E. simpl in *.
  eapply wp_dial; [exact Hc|intros pre st' Hp _; by apply Hd|].
  intros st' _ Hn. apply Hk; [done|by rewrite Hn..].
Qed.

(** How many records a tunnel may leave, by the way it ended: an I/O error
    ends it before its record. *)
Definition tunnel_records (P : AuditRecord → Prop) (ex : Exit (result Handed bytes)) (evs : list Event) : Prop :=
  match ex with
  | Done (Ok h) => h = Closed ∧ ∃ r, records evs = [(r, level_for (ar_action r))] ∧ P r
  | Done (Err _) => records evs = []
  | Dropped => length (records evs) ≤ 1
  end.

(** The name the client asks for, if it does, is the target's. *)
Definition sni_agrees (sni : option bytes) (host : bytes) : Prop :=
  ∀ name, sni = Some name → name = to_ascii_lowercase host.

#[local] Instance sni_agrees_dec sni host : Decision (sni_agrees sni host).
Proof.
  refine (match sni with
          | Some name => cast_if (decide (name = to_ascii_lowercase host))
          | None => left _
          end); unfold sni_agrees; naive_solver.
Defined.

(** What is known when a passthrough tunnel starts: the addresses of its target
    and whether one answers, its replies and whether the client takes one, and
    how the client opens. *)
Record Passage : Type := {
  pa_addrs : list SocketAddr;
  pa_up : bool;
  pa_success : bytes;
  pa_failure : bytes;
  pa_heard : bool;
  pa_opening : bytes * option bytes;
}.

(** What it may do. *)
Definition passthrough_event (p : Passage) (host : bytes) (e : Event) : Prop :=
  match e with
  | Dialed a => a ∈ pa_addrs p
  | Replied d => d = if pa_up p then pa_success p else pa_failure p
  | Spliced d => pa_up p = true ∧ d = (pa_opening p).1 ∧ sni_agrees (pa_opening p).2 host
  | Bridged => pa_up p = true ∧ sni_agrees (pa_opening p).2 host
  | Sent _ => False
  | Counted _ | Emitted _ _ => True
  end.

(** What it does when nothing stops it, in order: it dials, replies, replays the
    opening bytes and splices; or stops after the reply when the client asks for
    another server, or after the dial with the failure reply. *)
Definition splicing (p : Passage) (host : bytes) : list Event :=
  if bool_decide (sni_agrees (pa_opening p).2 host) then
    (if negb ((pa_opening p).1 ≟ []) then [Spliced (pa_opening p).1] else []) ++ [Bridged]
  else [].

Definition itinerary (p : Passage) (host : bytes) : list Event :=
  map Dialed (pa_addrs p) ++
  if pa_up p then [Replied (pa_success p)] ++ splicing p host
  else if pa_heard p then [Replied (pa_failure p)] else [].

(** The events a peer can see. *)
Definition is_traffic (e : Event) : bool := match e with Counted _ | Emitted _ _ => false | _ => true end.

Definition traffic (evs : list Event) : list Event := List.filter is_traffic evs.

(** A plan is followed as far as the tunnel gets, and to its end when it ends
    without an I/O error. *)
Definition kept (plan : list Event) (ex : Exit (result Handed bytes)) (evs : list Event) : Prop :=
  traffic evs `prefix_of` plan ∧ ∀ h, ex = Done (Ok h) → traffic evs = plan.

(** The record it leaves: 502 when the target did not answer; a reject by the
    listener, with the name, when the client asks for another server; and 200
    for a tunnel that was spliced. *)
Definition passthrough_record (p : Passage) (remote : bytes) (target : ConnectTarget) (traces : list Trace)
    (r : AuditRecord) : Prop :=
  (ar_host r = ct_host target ∧ ar_remote_addr r = Some remote ∧ ar_request_transforms r = traces ∧
   ar_tunnel r = Some {| tg_target := show_target target; tg_request_transforms := []; tg_passthrough := true |}) ∧
  if negb (pa_up p) then ar_status_code r = Some 502%Z
  else ar_sni r = (pa_opening p).2 ∧
    if bool_decide (sni_agrees (pa_opening p).2 (ct_host target)) then
      ar_action r = Allow ∧ ar_status_code r = Some 200%Z
    else ar_action r = AReject ∧ ar_rejected_by r = Some "listener"%bs.

(** The postcondition of a stage with its part of the plan. *)
Definition plan_post p plan remote target traces
    (ex : Exit (result Handed bytes)) evs (st' : St (Conn N) W) : Prop :=
  tunnel_records (passthrough_record p remote target traces) ex evs ∧ kept plan ex evs.

Definition passthrough_post p remote target traces :=
  plan_post p (itinerary p (ct_host target)) remote target traces.

Lemma traffic_app evs evs' : traffic (evs ++ evs') = traffic evs ++ traffic evs'.
Proof. apply List.filter_app. Qed.

Lemma traffic_dialed addrs m : traffic (map Dialed addrs ++ map Counted m) = map Dialed addrs.
Proof.
  rewrite traffic_app. rewrite <- (app_nil_r (map Dialed addrs)) at 2. f_equal.
  - induction addrs; simpl; [done|by f_equal].
  - by induction m.
Qed.

Lemma plan_post_app p plan remote target traces ex pre evs st :
  records pre = [] → plan_post p plan remote target traces ex evs st →
  plan_post p (traffic pre ++ plan) remote target traces ex (pre ++ evs) st.
Proof.
  intros Hr [Ht [Hp He]]. split; [|split].
  - unfold tunnel_records in *. by rewrite records_app, Hr.
  - rewrite traffic_app. by apply prefix_app.
  - intros h Hx. by rewrite traffic_app, (He h Hx).
Qed.

(** Everything on the itinerary is allowed. *)
Lemma passthrough_events p remote target traces ex evs st :
  passthrough_post p remote target traces ex evs st → Forall (passthrough_event p (ct_host target)) evs.
Proof.
  intros [_ [Hp _]]. apply Forall_forall. intros e He.
  destruct (is_traffic e) eqn:Et; [|by destruct e].
  assert (e ∈ itinerary p (ct_host target)) as Hin.
  { eapply elem_of_prefix; [|exact Hp]. apply list_elem_of_In, filter_In. by rewrite <- list_elem_of_In. }
  unfold itinerary, splicing in Hin. apply elem_of_app in Hin as [Hin|Hin].
  { apply list_elem_of_fmap in Hin as (a & -> & Ha). done. }
  destruct (pa_up p) eqn:Eup.
  - apply elem_of_app in Hin as [->%list_elem_of_singleton|Hin]; [by simpl; rewrite Eup|].
    case_bool_decide as Hag; [|by apply elem_of_nil in Hin].
    apply elem_of_app in Hin as [Hin| ->%list_elem_of_singleton]; [|done].
    destruct (negb _); [|by apply elem_of_nil in Hin]. by apply list_elem_of_singleton in Hin as ->.
  - destruct (pa_heard p); [|by apply elem_of_nil in Hin]. apply list_elem_of_singleton in Hin as ->. simpl. by rewrite Eup.
Qed.

(** Emitting a record on the spot. *)
Lemma wp_emit_record remote r Q st :
  Q (Done (Ok tt)) [Emitted r (level_for (ar_action r))] (set_emitted true (set_emitted false st)) →
  wp (N := Conn N) (emit_record remote r) Q st.
Proof. intros H. apply wp_bind. unfold wp at 1, with_pending. simpl. by apply wp_io_ret. Qed.

Lemma wp_write_any bs Q st :
  (∀ st', Q Dropped [] st') →
  (∀ st', next_write (net st) = true → inp (net st') = inp (net st) → Q (Done (Ok tt)) [Replied bs] st') →
  (∀ e st', next_write (net st) = false → Q (Done (Err e)) [] st') →
  wp (N := Conn N) (W := W) (write_all bs) Q st.
Proof.
  intros Hd Hk He. apply wp_await; [auto|]. unfold next_write in *. intros st' r evs Hop _ _.
  destruct (write_results (net st)) as [|[[]|e] rest]; injection Hop as <- <- Hn; simpl.
  3: by apply He.
  all: apply Hk; [done|by rewrite <- Hn].
Qed.

(** A write whose outcome is ignored, and the end of the connection. *)
Lemma wp_last_words bs Q st :
  (∀ st', Q Dropped [] st') →
  (∀ st', Q (Done (Ok Closed)) (if next_write (net st) then [Replied bs] else []) st') →
  wp (N := Conn N) (W := W) (io_bind (ignore (write_all bs)) (fun _ => io_ret Closed)) Q st.
Proof.
  intros Hd Hk. apply wp_io_bind, wp_bind, wp_write_any; [auto|intros st' Hw _|intros e st' Hw];
    rewrite Hw in Hk; apply wp_io_ret, wp_io_ret, Hk.
Qed.

(** The tunnel's record, and what follows it. *)
Lemma wp_tunnel_finish p started remote target traces r (k : unit → Io Handed) Q st :
  (∀ d, passthrough_record p remote target traces
     (set_tunnel (Some {| tg_target := show_target target; tg_request_transforms := [];
                          tg_passthrough := true |}) (set_duration d r))) →
  (∀ r' st', passthrough_record p remote target traces r' → net st' = net st →
     wp (k tt) (fun ex evs => Q ex ([Emitted r' (level_for (ar_action r'))] ++ evs)) st') →
  wp (io_bind (tunnel_finish started remote target r) k) Q st.
Proof.
  intros Hr H. apply wp_io_bind, wp_bind, wp_bind, wp_get, wp_ret, wp_emit_record.
  cbn [app]. by apply H.
Qed.

(** A tunnel's own record satisfies what is asked of it. *)
Lemma plan_post_record p remote target traces r evs st :
  passthrough_record p remote target traces r → records evs = [] →
  plan_post p (traffic evs) remote target traces (Done (Ok Closed))
    ([Emitted r (level_for (ar_action r))] ++ evs) st.
Proof. intros H Hr. split; [split; [done|exists r; simpl; by rewrite Hr]|by split]. Qed.

(** Before its record is out. *)
Lemma plan_post_open p plan remote target traces (ex : Exit (result Handed bytes)) st :
  (∀ h, ex ≠ Done (Ok h)) → plan_post p plan remote target traces ex [] st.
Proof.
  intros H. split; [destruct ex as [[h|e]|]; simpl; [by destruct (H h)|done|lia]|].
  split; [apply prefix_nil|]. intros h Hx. by destruct (H h).
Qed.

Lemma sni_mismatch sni host :
  match sni with Some name => negb (name ≟ to_ascii_lowercase host) | None => false end
  = negb (bool_decide (sni_agrees sni host)).
Proof.
  unfold sni_agrees. destruct sni as [name|]; [|by rewrite bool_decide_true].
  f_equal. apply bool_decide_ext. naive_solver.
Qed.

Lemma splice_stage_post p started remote target traces upstream st :
  pa_up p = true →
  wp (splice_stage started remote target (base_tunnel_record remote target traces) upstream
        (pa_opening p).1 (pa_opening p).2)
    (plan_post p (splicing p (ct_host target)) remote target traces) st.
Proof.
  intros Hup. unfold splice_stage, splicing. rewrite sni_mismatch.
  assert (∀ r st', passthrough_record p remote target traces r →
    wp (io_ret Closed) (fun ex evs => plan_post p [] remote target traces ex ([Emitted r (level_for (ar_action r))] ++ evs))
      st') as Hend by (intros; apply wp_io_ret; by apply (plan_post_record _ _ _ _ _ [])).
  case_bool_decide as Hag; cbn [negb].
  2:{ apply (wp_tunnel_finish p _ _ _ traces); [|by auto].
      intros d. split; [by split_and!|]. rewrite Hup, bool_decide_false by done. by split_and!. }
  set (replayed := if negb (_ ≟ []) then [Spliced (pa_opening p).1] else []).
  apply wp_io_bind. apply wp_mono with (P := fun ex evs st' =>
    records evs = [] ∧ (ex = Dropped ∧ evs = [] ∨ traffic evs = replayed)).
  { unfold replayed. destruct (negb (_ ≟ [])); [|apply wp_io_ret; auto].
    apply wp_await; [auto|]. intros st' r evs Hop _ _. destruct (upstream_write _ _ _) as [x c].
    injection Hop as <- <- _. split; [done|by right]. }
  intros ex evs st1 [Hr [[-> ->]|<-]]; [by apply plan_post_open|]. destruct ex as [[[]|e]|].
  2,3: rewrite <- (app_nil_r evs) at 2; apply plan_post_app; [done|by apply plan_post_open].
  eapply wp_mono; [|intros ex evs' st' H; apply plan_post_app; [exact Hr|exact H]].
  apply wp_bind, wp_await; [intros; by apply plan_post_open|].
  intros st2 r evs2 Hop _ _. destruct (copy_bidirectional upstream (net st1)) as [x c]. injection Hop as <- <- _.
  eapply wp_mono; [|intros ex evs' st' H; apply (plan_post_app _ [] _ _ _ _ [Bridged]); [done|exact H]].
  apply (wp_tunnel_finish p _ _ _ traces); [|by auto].
  intros d. split; [by destruct x; split_and!|]. rewrite Hup, bool_decide_true by done. by destruct x; split_and!.
Qed.

(** The passage of a tunnel for the target, from the state it starts in. *)
Definition passage rt (is_socks : bool) target (c : Conn N) : Passage := {|
  pa_addrs := target_addrs rt target (wire c);
  pa_up := target_up rt target (wire c);
  pa_success := if is_socks then SOCKS5_SUCCESS else HTTP_200;
  pa_failure := if is_socks then socks5_failure Byte.x02 else HTTP_502;
  pa_heard := next_write c;
  pa_opening := client_opening (inp c);
|}.

Lemma passthrough_stages is_socks target proof remote rt traces st :
  wp (passthrough_tunnel is_socks target proof remote rt traces)
    (passthrough_post (passage rt is_socks target (net st)) remote target traces) st.
Proof.
  unfold passthrough_tunnel. apply wp_bind, wp_get. cbn [app]. apply wp_bind, wp_tunnel_dial.
  { intros pre st' [more Hp]. pose proof (traffic_dialed pre []) as Ht. rewrite app_nil_r in Ht.
    split; [by simpl; rewrite records_dialed; simpl; lia|]. split; [|done]. rewrite Ht. unfold itinerary. simpl.
    rewrite Hp, map_app, <- app_assoc. by apply prefix_app_r. }
  intros res m st1 Hres Hi Hw. set (p := passage rt is_socks target (net st)).
  eapply wp_mono; [|intros ex evs st' H; unfold passthrough_post, itinerary; rewrite <- (traffic_dialed _ m);
    apply plan_post_app; [apply records_dial|exact H]].
  change (is_ok res = pa_up p) in Hres. rewrite <- Hres.
  destruct res as [upstream|e]; cbn [is_ok] in *.
  - apply wp_io_bind, wp_write_any; [intros; by apply plan_post_open| |intros; by apply plan_post_open].
    intros st2 _ Hi2. eapply wp_mono; [|intros ex evs st' H; apply (plan_post_app p (splicing p (ct_host target)) _ _ _ _
      [Replied (pa_success p)]); [done|exact H]].
    apply wp_bind, wp_sniff_loop; [intros; by apply plan_post_open|]. intros st3. cbn [app].
    rewrite Hi2, Hi. change (opening _ _ _) with (pa_opening p). rewrite (surjective_pairing (pa_opening p)).
    by apply splice_stage_post.
  - apply (wp_tunnel_finish p _ _ _ traces).
    { intros d. split; [by destruct e; split_and!|]. rewrite <- Hres. by destruct e. }
    intros r st2 Hr Hn. apply wp_last_words; intros.
    + split; [simpl; lia|]. split; [apply prefix_nil|done].
    + rewrite Hn, Hw. change (next_write (net st)) with (pa_heard p).
      destruct (pa_heard p); [by apply (plan_post_record _ _ _ _ _ [Replied (pa_failure p)])|by apply (plan_post_record _ _ _ _ _ [])].
Qed.

(** C20 (passthrough): a spliced tunnel, exactly. When it ends without an I/O
    error it has dialed the addresses its target resolves to, as far as the dial
    goes, and then: after a failed dial it gave the failure reply, if the client
    takes it; after a successful one the success reply, and then it replayed the
    client's opening bytes and spliced the two sides, unless the server name in
    these bytes is not the target's: then neither. A tunnel that is cut short
    did a prefix of that. So nothing reaches an upstream that the guard denies
    or the client names otherwise. A tunnel that ends without an I/O error
    leaves exactly one record, marked as passthrough, with the status of how it
    went; a wrong name is a reject that carries it. The opening ends where a
    name is found or cannot be, at a pause of the handshake timeout, or over
    16 KiB; a client that hides its name that way is not checked. *)
Theorem passthrough_is_guarded is_socks target proof remote rt traces st :
  wp (passthrough_tunnel is_socks target proof remote rt traces)
    (fun ex evs st' => let p := passage rt is_socks target (net st) in
       passthrough_post p remote target traces ex evs st' ∧
       (∀ a, Dialed a ∈ evs → permitted (rt_guard rt) a) ∧
       ∀ name, scan_client_hello_sni (pa_opening p).1 = Sni name → name ≠ to_ascii_lowercase (ct_host target) →
         (Bridged ∉ evs) ∧ (∀ d, Spliced d ∉ evs)) st.
Proof.
  eapply wp_mono; [apply passthrough_stages|]. intros ex evs st' Hp. split; [done|].
  apply passthrough_events in Hp as He. rewrite Forall_forall in He. split.
  - intros a Ha%He. exact (target_addrs_permitted _ _ _ _ Ha).
  - intros name Hn Hne. apply client_opening_right in Hn.
    split; [intros [_ Hag]%He|intros d (_ & _ & Hag)%He]; by apply Hne, Hag.
Qed.

(** ** What is served *)

(** The context a TLS leg hands over: inside a tunnel it stands for the
    CONNECT target, and the server name the client sent, if any, is the
    target's; on the HTTPS listener there is a server name. *)
Definition leg_agrees (remote : bytes) (forced : option (ConnectTarget * list Trace)) (ctx : ConnCtx) : Prop :=
  cc_remote_addr ctx = remote ∧ scheme_https ctx = true ∧
  match forced with
  | Some (target, traces) =>
      cc_mode ctx = Tunnel ∧ forced_upstream ctx = Some (ct_host target, ct_port target) ∧
      tunnel_traces ctx = traces ∧
      ∀ sni, cc_sni ctx = Some sni → eq_ignore_ascii_case sni (ct_host target) = true
  | None => cc_mode ctx = Https ∧ forced_upstream ctx = None ∧ is_Some (cc_sni ctx)
  end.

(** No egress, and a context only when it agrees with the handshake. *)
Definition leg_post remote forced (ex : Exit (result Handed bytes)) (evs : list Event) (st' : St (Conn N) W) : Prop :=
  existsb is_egress evs = false ∧ ∀ ctx, ex = Done (Ok (Serve ctx)) → leg_agrees remote forced ctx.

Lemma leg_closed remote forced evs st :
  existsb is_egress evs = false → leg_post remote forced (Done (Ok Closed)) evs st.
Proof. by split. Qed.

(** An operation on the leg makes no event. *)
Lemma wp_on_conn {A} (f : Conn N → A * Conn N) Q st :
  (∀ st', Q Dropped [] st') → (∀ a st', Q (Done a) [] st') →
  wp (W := W) (on_conn [] f) Q st.
Proof.
  intros Hd Hk. apply wp_await; [auto|]. intros st' a evs Hop _ _.
  destruct (f (net st)) as [x c]. injection Hop as <- <- _. auto.
Qed.

Lemma terminate_post remote forced st :
  wp (terminate_and_serve remote forced) (leg_post remote forced) st.
Proof.
  apply wp_bind, wp_get. cbn [app]. destruct (negb (tls_configured (shared st))); [by apply wp_io_ret|].
  apply wp_bind, wp_on_conn; [done|]. intros [sni|] st1; [|by apply wp_io_ret]. cbn [app].
  destruct (match forced with Some _ => _ | None => _ end) as [[mint expected]|] eqn:Em.
  2:{ apply wp_io_bind, wp_emit_record, wp_io_ret. by apply leg_closed. }
  destruct (match expected with Some _ => _ | None => false end) eqn:Ed.
  { apply wp_io_bind, wp_emit_record, wp_io_ret. by apply leg_closed. }
  apply wp_bind, wp_on_conn; [done|]. intros minted st2. destruct (negb minted); [by apply wp_io_ret|].
  apply wp_bind, wp_on_conn; [done|]. intros up st3. destruct (negb up); [by apply wp_io_ret|].
  apply wp_io_ret. split; [done|]. intros ctx [= <-]. destruct forced as [[target traces]|].
  - injection Em as <- <-. split_and!; try done. simpl. intros s ->. by apply negb_false_iff.
  - destruct sni as [s|]; [|done]. by split_and!.
Qed.

Lemma serve_inner_post remote target traces st :
  wp (serve_inner remote target traces) (fun ex evs st' => existsb is_egress evs = false ∧
    ∀ ctx, ex = Done (Ok (Serve ctx)) → cc_mode ctx = Tunnel ∧
      forced_upstream ctx = Some (ct_host target, ct_port target) ∧ tunnel_traces ctx = traces ∧
      ∀ sni, cc_sni ctx = Some sni → eq_ignore_ascii_case sni (ct_host target) = true) st.
Proof.
  apply wp_bind, wp_await; [done|]. intros st1 r evs Hop _ _.
  destruct (peek_one true (inp (net st))) as [x i]. injection Hop as <- <- _. cbn [app].
  destruct x as [[[|b [|]]|e]|].
  2:{ destruct (sniff_inner b).
      - eapply wp_mono; [apply terminate_post|]. intros ex evs st' [He Hc]. split; [done|].
        intros ctx Hx. by destruct (Hc _ Hx) as (_ & _ & ?).
      - apply wp_io_ret. split; [done|]. by intros ctx [= <-].
      - by apply wp_io_ret. }
  all: apply wp_io_bind, wp_emit_record, wp_io_ret; by split.
Qed.

(** The events and the end of a CONNECT that was refused: the record, then the
    failure reply if the client still takes it. *)
Definition refused (is_socks : bool) (target : ConnectTarget) (po : PipelineOutcome) (c : Conn N)
    (ex : Exit (result Handed bytes)) (evs : list Event) : Prop :=
  ∃ r,
    ((ex = Dropped ∧ evs = [Emitted r Warn]) ∨
     (ex = Done (Ok Closed) ∧
      evs = Emitted r Warn :: if next_write c then [Replied (if is_socks then socks5_failure Byte.x02 else HTTP_403)]
                              else [])) ∧
    ar_action r = AReject ∧ ar_status_code r = Some 403%Z ∧
    ar_host r = ct_host target ∧ ar_request_transforms r = request_traces po ∧
    ar_rejected_by r = Some (match outcome po with OReject by_ _ => by_ | _ => "listener"%bs end).

(** A CONNECT that was let through: to a passthrough target as above; for any
    other nothing leaves, the client gets the success reply first, or the tunnel
    ends there with the error of the write, and requests are served in a context
    that stands for the target. *)
Definition admitted rt is_socks target remote (po : PipelineOutcome) (c : Conn N)
    (ex : Exit (result Handed bytes)) (evs : list Event) (st' : St (Conn N) W) : Prop :=
  if passthrough_matches (tunnel_passthrough rt) (ct_host target) then
    passthrough_post (passage rt is_socks target c) remote target (request_traces po) ex evs st'
  else existsb is_egress evs = false ∧
    (∀ h, ex = Done h → if next_write c then head evs = Some (Replied (if is_socks then SOCKS5_SUCCESS else HTTP_200))
                        else is_ok h = false ∧ evs = []) ∧
    ∀ ctx, ex = Done (Ok (Serve ctx)) →
      cc_mode ctx = Tunnel ∧ forced_upstream ctx = Some (ct_host target, ct_port target) ∧
      tunnel_traces ctx = request_traces po ∧
      ∀ sni, cc_sni ctx = Some sni → eq_ignore_ascii_case sni (ct_host target) = true.

Lemma tunnel_outcomes is_socks target remote st :
  let po := (evaluate_request (rt_pipeline (shared st)) (synthetic_connect_summary target remote) (world st)).1.1 in
  wp (tunnel_to is_socks target remote) (fun ex evs st' =>
    match outcome po with
    | OContinue _ => admitted (shared st) is_socks target remote po (net st) ex evs st'
    | _ => refused is_socks target po (net st) ex evs
    end) st.
Proof.
  intros po. apply wp_bind, wp_get, wp_bind, wp_with_world. cbn [app].
  assert (Hpo : po = (let '(po, q, w) := evaluate_request (rt_pipeline (shared st))
    (synthetic_connect_summary target remote) (world st) in (po, w)).1)
    by (unfold po; by destruct (evaluate_request _ _ _) as [[? ?] ?]).
  rewrite <- Hpo. clear Hpo.
  set (st1 := set_world _ st). assert (net st1 = net st) as Hn by done. clearbody st1.
  assert (wp (io_bind (emit_tunnel_reject remote target po) (fun _ =>
      io_bind (ignore (write_all (if is_socks then socks5_failure Byte.x02 else HTTP_403))) (fun _ => io_ret Closed)))
    (fun ex evs _ => refused is_socks target po (net st) ex evs) st1) as Hno.
  { apply wp_io_bind, wp_emit_record, wp_last_words; intros; cbn [app]; eexists.
    - by split; [left|].
    - split; [right; rewrite <- Hn; done|done]. }
  destruct (outcome po) as [proof|by_ resp|by_ resp|by_ msg] eqn:Eo; [|apply Hno..]. clear Hno.
  unfold admitted. destruct (passthrough_matches _ _).
  - rewrite <- Hn. apply passthrough_stages.
  - apply wp_io_bind, wp_write_any; rewrite ?Hn; [done| |].
    + intros st2 Hw _. eapply wp_mono; [apply serve_inner_post|]. intros ex evs st' [He H].
      split_and!; [done|by rewrite Hw|exact H].
    + intros e st2 Hw. split_and!; [done|by intros h [= <-]; rewrite Hw|done].
Qed.

(** C17 (tunnel): a tunnel is opened only with permission. When the pipeline
    does not let the CONNECT through, the tunnel makes one record with status
    403 that says who refused, then gives the client the failure reply unless
    the write fails or the task is dropped, and does nothing else; when it
    does, a passthrough target is spliced under the guard, and for any other
    nothing leaves, the client gets the success reply first (or the tunnel ends
    with the error of that write), and requests are served only in a context
    that stands for the CONNECT target, whose handshake traces it
    carries, and whose TLS name, if there is one, is the target's. *)
Theorem tunnel_needs_permission is_socks target remote st :
  let po := (evaluate_request (rt_pipeline (shared st)) (synthetic_connect_summary target remote) (world st)).1.1 in
  wp (tunnel_to is_socks target remote) (fun ex evs st' =>
    match outcome po with
    | OContinue _ => admitted (shared st) is_socks target remote po (net st) ex evs st'
    | _ => refused is_socks target po (net st) ex evs
    end) st.
Proof. apply tunnel_outcomes. Qed.

(** ** The whole listener *)

(** Handshakes: nothing leaves, nothing is recorded, the network is as it was,
    and no runtime or world comes up that was not there or put there by others. *)
Class Quiet {A} (m : Proc (Conn N) W A) : Prop := quiet st :
  wp m (fun _ evs st' => existsb is_egress evs = false ∧ records evs = [] ∧
                         runtimes st' ⊆ runtimes st ∧ worlds st' ⊆ worlds st ∧
                         wire (net st') = wire (net st)) st.

#[local] Instance ret_quiet {A} (a : A) : Quiet (mret a).
Proof. by intros st. Qed.

#[local] Instance bind_quiet {A B} (m : Proc (Conn N) W A) (k : A → Proc (Conn N) W B) :
  Quiet m → (∀ a, Quiet (k a)) → Quiet (m ≫= k).
Proof.
  intros Hm Hk st. apply wp_bind. eapply wp_mono; [apply Hm|]. intros [a|] evs st1 (He & Hr & Hi & Hw & Hn); [|done].
  eapply wp_mono; [apply Hk|]. intros ex evs' st2 (He' & Hr' & Hi' & Hw' & Hn').
  rewrite existsb_app, records_app, He, He', Hr, Hr'. split_and!; [done|done|by etrans|by etrans|by etrans].
Qed.

#[local] Instance io_bind_quiet {A B} (m : Io A) (k : A → Io B) :
  Quiet m → (∀ a, Quiet (k a)) → Quiet (io_bind m k).
Proof. intros Hm Hk. apply bind_quiet; [done|]. intros [a|e]; apply _. Qed.

Lemma await_quiet {A} (op : Conn N → A * list Event * Conn N) :
  (∀ c a evs c', op c = (a, evs, c') → existsb is_egress evs = false ∧ records evs = [] ∧ wire c' = wire c) →
  Quiet (await op).
Proof.
  intros Hop st. eapply wp_mono; [apply wp_and; [|apply wp_await_states]|].
  - apply (wp_await op (fun _ evs st' => existsb is_egress evs = false ∧ records evs = [] ∧
      wire (net st') = wire (net st))); [by intros st' _ _ ->|].
    intros st' a evs Ho _ _. by apply Hop in Ho.
  - cbv beta. tauto.
Qed.

#[local] Instance on_inp_quiet {A} (f : list Delivery → A * list Delivery) : Quiet (on_inp f).
Proof.
  apply await_quiet. intros c a evs c' Hop. destruct (f (inp c)) as [x i]. by injection Hop as <- <- <-.
Qed.

#[local] Instance write_all_quiet bs : Quiet (write_all bs).
Proof.
  apply await_quiet. intros c r evs c' Hop.
  destruct (match write_results c with [] => _ | r :: rest => _ end) as [x rest].
  injection Hop as <- <- <-. by destruct x.
Qed.

Ltac quiet_step :=
  lazymatch goal with
  | |- Quiet (match ?x with _ => _ end) => destruct x
  | |- Quiet (io_bind _ _) => apply io_bind_quiet; [|intros ?]
  | |- Quiet (_ ≫= _) => apply bind_quiet; [|intros ?]
  | |- Quiet (io_ret _) => apply ret_quiet
  | |- Quiet _ => apply _
  end.

#[local] Instance read_head_quiet fuel buf : Quiet (read_head fuel buf).
Proof.
  revert buf. induction fuel as [|fuel IH]; intros buf; cbn [read_head]; unfold read_untimed; repeat quiet_step.
Qed.

#[local] Instance handshake_quiet : Quiet socks5_handshake.
Proof. unfold socks5_handshake, socks5_target, read_exact, ignore. repeat quiet_step. Qed.

#[local] Instance read_connect_quiet : Quiet read_connect.
Proof. unfold read_connect. repeat quiet_step. Qed.

#[local] Instance peek_quiet : Quiet peek_untimed.
Proof. unfold peek_untimed. repeat quiet_step. Qed.

(** A runtime whose pipeline lets the CONNECT for the target through. *)
Definition approves (remote : bytes) (w : W) (target : ConnectTarget) (rt : Runtime W) : Prop :=
  ∃ proof, outcome (evaluate_request (rt_pipeline rt) (synthetic_connect_summary target remote) w).1.1 = OContinue proof.

(** One target, let through by the pipeline of one of the runtimes in one of
    the worlds: what is dialed are addresses of that target on the network [n],
    under the guard of that runtime; bytes are passed on only when it answered
    and is to be passed through; and requests are served only for it. *)
Definition approved_for (n : N) rt target (evs : list Event) : Prop :=
  ∀ e, e ∈ evs → match e with
                 | Dialed a => a ∈ target_addrs rt target n ∧ permitted (rt_guard rt) a
                 | Spliced _ | Bridged =>
                     passthrough_matches (tunnel_passthrough rt) (ct_host target) = true ∧ target_up rt target n = true
                 | Sent _ => False
                 | _ => True
                 end.

Definition approved_post (n : N) (rts : list (Runtime W)) (ws : list W) remote (ex : Exit (result Handed bytes))
    (evs : list Event) (st' : St (Conn N) W) : Prop :=
  (existsb is_egress evs = false ∧ ∀ ctx, ex ≠ Done (Ok (Serve ctx))) ∨
  ∃ rt w target, rt ∈ rts ∧ w ∈ ws ∧ approves remote w target rt ∧ approved_for n rt target evs ∧
    ∀ ctx, ex = Done (Ok (Serve ctx)) → forced_upstream ctx = Some (ct_host target, ct_port target).

Lemma silent_approved n rt target evs : existsb is_egress evs = false → approved_for n rt target evs.
Proof.
  intros He e Hin. destruct (is_egress e) eqn:Eb; [by rewrite (is_egress_existsb _ _ Hin Eb) in He|by destruct e].
Qed.

Lemma tunnel_to_approved is_socks target remote rts ws st :
  shared st ∈ rts → world st ∈ ws →
  wp (tunnel_to is_socks target remote) (approved_post (wire (net st)) rts ws remote) st.
Proof.
  intros Hin Hw. pose proof (tunnel_outcomes is_socks target remote st) as H. eapply wp_mono; [exact H|].
  intros ex evs st' Hpost.
  destruct (outcome (evaluate_request _ _ _).1.1) as [proof| | |] eqn:Eo.
  2-4: left; destruct Hpost as (r & [[-> ->]|[-> ->]] & _); split; try done; by destruct (next_write _).
  right. exists (shared st), (world st), target. split_and!; [done|done|by exists proof|..];
    unfold admitted in Hpost; destruct (passthrough_matches _ _) eqn:Ep.
  - apply passthrough_events in Hpost as He. intros e Hin'. rewrite Forall_forall in He. specialize (He e Hin').
    destruct e; simpl in He; try done; [|by destruct He as (? & _)..]. split; [done|by eapply target_addrs_permitted].
  - by apply silent_approved, Hpost.
  - intros ctx ->. by destruct Hpost as [[? _] _].
  - intros ctx Hx. by destruct (proj2 (proj2 Hpost) ctx Hx) as (_ & ? & _).
Qed.

(** A handshake that gave a target, then the tunnel. *)
Lemma handshake_approved (m : Io (option ConnectTarget)) is_socks remote rts ws pre st :
  Quiet m → existsb is_egress pre = false → runtimes st ⊆ rts → worlds st ⊆ ws →
  wp (io_bind m (fun t => match t with Some target => tunnel_to is_socks target remote | None => io_ret Closed end))
    (fun ex evs => approved_post (wire (net st)) rts ws remote ex (pre ++ evs)) st.
Proof.
  intros Hm Hpre Hi Hw. apply wp_io_bind. eapply wp_mono; [apply Hm|].
  intros [[[target|]|e]|] evs st2 (He & _ & Hi2 & Hw2 & Hn2).
  2-4: try apply wp_io_ret; left; split; [by rewrite ?app_nil_r, existsb_app, Hpre, He|done].
  rewrite <- Hn2.
  eapply wp_mono; [apply (tunnel_to_approved _ _ _ rts ws); [apply Hi, Hi2; left|apply Hw, Hw2, world_in_worlds]|].
  intros ex evs' st3 [[H1 H2]|(rt & w & t & ? & ? & ? & Ha & Hc)]; [left|right].
  - by rewrite !existsb_app, Hpre, He, H1.
  - exists rt, w, t. split_and!; [done..| |done]. intros x [Hx|[Hx|Hx]%elem_of_app]%elem_of_app; [..|by apply Ha].
    + by apply (silent_approved _ _ _ pre).
    + by apply (silent_approved _ _ _ evs).
Qed.

Lemma handle_tunnel_approved remote st :
  wp (handle_tunnel remote) (approved_post (wire (net st)) (runtimes st) (worlds st) remote) st.
Proof.
  apply wp_io_bind. eapply wp_mono; [apply peek_quiet|]. intros [[first|e]|] evs st1 (He & _ & Hi & Hw & Hn);
    [|by left..]. rewrite <- Hn.
  destruct first as [|b [|]]; [apply wp_io_ret; left; by rewrite app_nil_r
    | |apply wp_io_ret; left; by rewrite app_nil_r].
  destruct (dispatch b); [apply handshake_approved; [apply _|done..]|apply handshake_approved; [apply _|done..]
    |apply wp_io_ret; left; by rewrite app_nil_r].
Qed.

(** C16 (INV-2, tunnels): whatever a client sends on the tunnel port, in
    whatever pieces, either nothing leaves and nothing is served, or it is for
    one target whose CONNECT was let through by the pipeline of the runtime in
    force or of one that was swapped in meanwhile, and only to it: each address
    dialed is one that dialing this target tries, on the network as the
    connection found it, and the guard of that runtime permits; bytes are
    passed on only when the target is configured for passthrough and answered;
    requests are served only in a context bound to this target. *)
Theorem tunnel_port_needs_permission remote st :
  wp (handle_tunnel remote) (approved_post (wire (net st)) (runtimes st) (worlds st) remote) st.
Proof. apply handle_tunnel_approved. Qed.

End io.

(** ** Example connections *)

Lemma first_head_check head :
  ends_with CRLF2 head && forallb (fun n => negb (ends_with CRLF2 (take n head))) (seq 0 (length head)) = true →
  first_head head.
Proof.
  intros [H1 H2]%andb_true_iff. split; [done|]. intros p q -> Hq. rewrite forallb_forall in H2.
  specialize (H2 (length p)). rewrite take_app_length in H2. apply negb_true_iff, H2, in_seq.
  rewrite length_app. destruct q; [done|simpl; lia].
Qed.

Definition ex_conn (i : list Delivery) : St (Conn nat) nat :=
  {| emitted := false; net := {| wire := 0; inp := i; write_results := [] |}; world := 0;
     shared := ex_runtime; sched := [] |}.

(** A greeting cut in two, a pause, and a request for a domain name. *)
Definition ex_socks_client : list Delivery :=
  [Chunk Byte.x05 []; Chunk Byte.x01 [Byte.x00]; Stall; Chunk Byte.x05 [Byte.x01; Byte.x00; Byte.x03; Byte.x02];
   Chunk "E"%byte ["x"%byte; Byte.x01; Byte.xbb; Byte.x16]].

Lemma socks5_handshake_any_pieces_witness :
  (socks5_handshake (W := nat) (ex_conn ex_socks_client)).1.1
  = Done (Ok (Some {| ct_host := "ex"%bs; ct_port := 443 |})).
Proof.
  pose proof (socks5_handshake_any_pieces (ex_conn ex_socks_client) [Byte.x00] Byte.x00 (SocksDomain "Ex"%bs)
    Byte.x01 Byte.xbb [Byte.x16]) as H.
  unfold wp in H. destruct (socks5_handshake (ex_conn ex_socks_client)) as [[ex evs] st'].
  simpl. destruct H as [-> _]; [by constructor|reflexivity|simpl; lia|left|split; [simpl; lia|reflexivity]|reflexivity|].
  reflexivity.
Defined.

Definition ex_head : bytes := "CONNECT ex.com:443 HTTP/1.1"%bs ++ CRLF2.

Definition ex_connect_client : list Delivery :=
  [Chunk "C"%byte "ONNECT ex.c"%bs; Stall; Chunk "o"%byte ("m:443 HTTP/1.1"%bs ++ CRLF2 ++ [Byte.x16; Byte.x03])].

Lemma ex_head_first : first_head ex_head.
Proof. apply first_head_check. vm_compute. reflexivity. Qed.

Lemma ex_head_fits : length ex_head ≤ S SNIFF_CAP.
Proof. unfold SNIFF_CAP. change (length ex_head) with 31. lia. Qed.

Lemma connect_reads_the_head_witness :
  wp (N := Conn nat) (W := nat) read_connect (fun ex evs st' =>
    ex = Done (Ok (parse_connect (from_utf8_lossy ex_head))) ∧ evs = [] ∧
    data (inp (net st')) = [Byte.x16; Byte.x03] ∧ wire (net st') = 0) (ex_conn ex_connect_client).
Proof.
  apply (connect_reads_the_head (ex_conn ex_connect_client) ex_head [Byte.x16; Byte.x03]).
  - by constructor.
  - reflexivity.
  - exact ex_head_first.
  - discriminate.
  - exact ex_head_fits.
Defined.
