(* ===== verification/ProxyConfig.v ===== *)
(** * Configuration of the proxy ([hematite-proxy/src/config.rs])

    The load order (parse, environment overrides, defaults, validation) and
    the compilation of a loaded configuration into a runtime.  The YAML crate
    and the derived decoder of the raw shape are the class [YamlFormat]. *)

From S2P Require Import Prelude Net Json Matcher Summary Pipeline Secrets KernelConfig Resolver Dial Proxy.

(** ** YAML values *)

Inductive Yaml (F : Type) : Type :=
| YNull
| YBool (b : bool)
| YInt (n : Z)
| YFloat (f : F)
| YString (s : bytes)
| YSequence (l : list (Yaml F))
| YMapping (m : list (Yaml F * Yaml F)).
Arguments YNull {F}.
Arguments YBool {F} b.
Arguments YInt {F} n.
Arguments YFloat {F} f.
Arguments YString {F} s.
Arguments YSequence {F} l.
Arguments YMapping {F} m.

(** ** The raw shape *)

Record DnsRecord : Type := { dr_name : bytes; record_type : bytes; dr_value : bytes }.

Record DnsSection : Type := {
  dns_enabled : bool;
  dns_listen : option bytes;
  dns_proxy_ip : option bytes;
  dns_upstream_resolver : option bytes;
  dns_passthrough : list bytes;
  dns_records : list DnsRecord;
}.

Record ProxySection : Type := {
  ps_http_listen : option bytes;
  ps_https_listen : option bytes;
  ps_tunnel_listen : option bytes;
  ps_max_request_body_bytes : option Z;
  ps_max_response_body_bytes : option Z;
  ps_upstream_response_header_timeout : option bytes;
  ps_upstream_deny_cidrs : option (list bytes);
  ps_http_proxy : option bytes;
  ps_https_proxy : option bytes;
  ps_no_proxy : option bytes;
  ps_tunnel_passthrough_domains : option (list bytes);
}.

Record TlsSection : Type := {
  ts_ca_cert : bytes;
  ts_ca_key : bytes;
  ts_cert_cache_size : option Z;
  ts_leaf_cert_expiry_hours : option Z;
}.

Record ManagementSection : Type := { ms_listen : bytes; ms_api_key_env : option bytes }.

Record ObservabilitySection (F : Type) : Type := {
  metrics_enabled : bool;
  log_format : bytes;
  otlp_enabled : bool;
  otlp_endpoint : option bytes;
  sample_ratio : F;
  service_name : bytes;
}.
Arguments metrics_enabled {F} o.
Arguments log_format {F} o.
Arguments otlp_enabled {F} o.
Arguments otlp_endpoint {F} o.
Arguments sample_ratio {F} o.
Arguments service_name {F} o.

Record RawConfig (F : Type) : Type := {
  raw_dns : option DnsSection;
  raw_proxy : ProxySection;
  raw_tls : option TlsSection;
  raw_transforms : list (bytes * Yaml F);
  raw_management : option ManagementSection;
  raw_log_level : option bytes;
  raw_observability : ObservabilitySection F;
}.
Arguments raw_dns {F} r.
Arguments raw_proxy {F} r.
Arguments raw_tls {F} r.
Arguments raw_transforms {F} r.
Arguments raw_management {F} r.
Arguments raw_log_level {F} r.
Arguments raw_observability {F} r.

(** [str::parse::<f64>], the test of [0.0..=1.0], and what serde_yaml and
    serde_json do at the boundary. *)
Class YamlFormat := {
  F64 : Type;
  parse_f64 : bytes → option F64;
  in_unit : F64 → bool;
  yaml_from_str : bytes → result (Yaml F64) bytes;
  de_raw : Yaml F64 → result (RawConfig F64) bytes;
  yaml_to_value : Yaml F64 → result Value bytes;
}.

Definition LoadError : Type := message.

(** ** The resolved shape *)

Record ListenKeys : Type := {
  lk_http : bytes;
  lk_https : option bytes;
  lk_tunnel : option bytes;
  lk_dns : option bytes;
  lk_management : option bytes;
}.

#[export] Instance listen_keys_eq_dec : EqDecision ListenKeys.
Proof. solve_decision. Defined.

Record TlsResolved : Type := {
  tr_ca_cert : bytes;
  tr_ca_key : bytes;
  cert_cache_size : Z;
  leaf_cert_expiry_hours : Z;
}.

Record DnsResolved : Type := {
  dn_listen : bytes;
  dn_proxy_ip : Z;
  dn_upstream_resolver : bytes;
  dn_passthrough : list bytes;
  dn_records : list (bytes * bytes * bytes);
}.

Record Config (F : Type) : Type := {
  listen : ListenKeys;
  cfg_max_request_body_bytes : Z;
  cfg_max_response_body_bytes : Z;
  upstream_response_header_timeout : Duration;
  upstream_deny_cidrs : option (list bytes);
  management_api_key : option bytes;
  log_level : bytes;
  cfg_tls : option TlsResolved;
  cfg_dns : option DnsResolved;
  cfg_transforms : list TransformSpec;
  tunnel_passthrough_domains : list bytes;
  cfg_warnings : list message;
  observability : ObservabilitySection F;
}.
Arguments listen {F} c.
Arguments cfg_max_request_body_bytes {F} c.
Arguments cfg_max_response_body_bytes {F} c.
Arguments upstream_response_header_timeout {F} c.
Arguments upstream_deny_cidrs {F} c.
Arguments management_api_key {F} c.
Arguments log_level {F} c.
Arguments cfg_tls {F} c.
Arguments cfg_dns {F} c.
Arguments cfg_transforms {F} c.
Arguments tunnel_passthrough_domains {F} c.
Arguments cfg_warnings {F} c.
Arguments observability {F} c.

(** ** Environment overrides *)

Definition ENV_KEYS : list bytes :=
  ["dns.enabled"%bs; "dns.listen"%bs; "dns.proxy_ip"%bs; "dns.upstream_resolver"%bs;
   "proxy.http_listen"%bs; "proxy.https_listen"%bs; "proxy.tunnel_listen"%bs;
   "proxy.max_request_body_bytes"%bs; "proxy.max_response_body_bytes"%bs;
   "proxy.upstream_response_header_timeout"%bs; "proxy.http_proxy"%bs; "proxy.https_proxy"%bs;
   "proxy.no_proxy"%bs; "tls.ca_cert"%bs; "tls.ca_key"%bs; "tls.cert_cache_size"%bs;
   "tls.leaf_cert_expiry_hours"%bs; "management.listen"%bs; "management.api_key_env"%bs; "log.level"%bs;
   "observability.metrics.enabled"%bs; "observability.log.format"%bs; "observability.otlp.enabled"%bs;
   "observability.otlp.endpoint"%bs; "observability.otlp.sample_ratio"%bs;
   "observability.otlp.service_name"%bs].

Definition F64_PATHS : list bytes := ["observability.otlp.sample_ratio"%bs].

Definition env_name (path : bytes) : bytes :=
  "HEMATITE_"%bs ++ map (fun c => if c ≟ "."%byte then "_"%byte else c) (to_ascii_uppercase path).

Definition QUOTE : bytes := [Byte.x22].

(** [str::parse::<bool>]. *)
Definition parse_bool (s : bytes) : option bool :=
  if s ≟ "true"%bs then Some true else if s ≟ "false"%bs then Some false else None.

Section config.
Context `{YF : YamlFormat} `{RE : RegexEngine} `{CD : ConfigDecoder}.

Definition is_key (k : bytes) (v : Yaml F64) : bool :=
  match v with YString s => s ≟ k | _ => false end.

Definition typed (path raw : bytes) : Yaml F64 :=
  match parse_bool raw with
  | Some b => YBool b
  | None =>
      if bool_decide (path ∈ F64_PATHS) then
        match parse_f64 raw with Some f => YFloat f | None => YString raw end
      else
        match parse_u64 raw with
        | Some n => YInt n
        | None => match parse_f64 raw with Some f => YFloat f | None => YString raw end
        end
  end.

(** Insert or replace under a string key, in place. *)
Fixpoint map_set (k : bytes) (v : Yaml F64) (m : list (Yaml F64 * Yaml F64)) : list (Yaml F64 * Yaml F64) :=
  match m with
  | [] => [(YString k, v)]
  | (k', v') :: m => if is_key k k' then (k', v) :: m else (k', v') :: map_set k v m
  end.

Definition map_at (k : bytes) (m : list (Yaml F64 * Yaml F64)) : option (Yaml F64) :=
  snd <$> List.find (fun e => is_key k e.1) m.

(** Walk the parents, creating mappings that are not there, and set the leaf;
    [None] at an entry that is not a mapping, which nothing was created for. *)
Fixpoint set_at (parents : list bytes) (leaf : bytes) (v : Yaml F64) (m : list (Yaml F64 * Yaml F64)) :
    option (list (Yaml F64 * Yaml F64)) :=
  match parents with
  | [] => Some (map_set leaf v m)
  | seg :: parents =>
      match default (YMapping []) (map_at seg m) with
      | YMapping sub => sub ← set_at parents leaf v sub; Some (map_set seg (YMapping sub) m)
      | _ => None
      end
  end.

(** The loop: the first entry that cannot be walked ends it. *)
Fixpoint override_loop (paths : list bytes) (env : bytes → option bytes) (value : Yaml F64) : Yaml F64 :=
  match paths with
  | [] => value
  | path :: paths =>
      match env (env_name path) with
      | None => override_loop paths env value
      | Some raw =>
          let segments := split_on "."%byte path in
          match value with
          | YMapping m =>
              match set_at (removelast segments) (List.last segments []) (typed path raw) m with
              | Some m => override_loop paths env (YMapping m)
              | None => value
              end
          | _ => value
          end
      end
  end.

Definition apply_env_overrides (value : Yaml F64) (env : bytes → option bytes) : Yaml F64 :=
  override_loop ENV_KEYS env value.

(** ** Defaults and validation *)

(** [n * 60] on [u64], which wraps in a release build. *)
Definition proxy_parse_duration (s : bytes) : result Duration LoadError :=
  let s := trim s in
  let '(digits, unit) :=
    match find_byte (fun c => negb (is_ascii_digit c)) s with
    | Some i => (take i s, drop i s)
    | None => (s, "s"%bs)
    end in
  let? n := ok_or (parse_u64 digits) (Fmt "invalid duration: {s:?}"%bs [Text s]) in
  if unit ≟ "ms"%bs then Ok (duration_from_millis n)
  else if unit ≟ "s"%bs then Ok (duration_from_secs n)
  else if unit ≟ "m"%bs then Ok (duration_from_secs (n * 60 mod 2 ^ 64))
  else Err (Fmt "invalid duration unit: {s:?}"%bs [Text s]).

Definition check_that (b : bool) (e : LoadError) : result unit LoadError := if b then Ok tt else Err e.

Definition validate_dns (dns : option DnsSection) : result unit LoadError :=
  match dns with
  | Some dns =>
      if dns_enabled dns then
        match dns_proxy_ip dns with
        | None => Err (Text "dns.proxy_ip is required when DNS is enabled"%bs)
        | Some ip =>
            let? _ := check_that (bool_decide (is_Some (parse_ipv4 ip)))
                        (Fmt "dns.proxy_ip must be IPv4: {ip:?}"%bs [Text ip]) in
            let? _ := collect_results
                        (fun r => check_that ((record_type r ≟ "A"%bs) || (record_type r ≟ "CNAME"%bs))
                           (Fmt "dns record type {:?} is not A or CNAME (Part 06 §2)"%bs [Text (record_type r)]))
                        (dns_records dns) in
            Ok tt
        end
      else Ok tt
  | None => Ok tt
  end.

Definition validate_observability (obs : ObservabilitySection F64) : result unit LoadError :=
  let? _ := check_that (negb (otlp_enabled obs && bool_decide (otlp_endpoint obs = None)))
              (Text "observability.otlp.endpoint is required when observability.otlp.enabled"%bs) in
  let? _ := check_that (in_unit (sample_ratio obs))
              (Text "observability.otlp.sample_ratio must be within 0.0..=1.0"%bs) in
  check_that ((log_format obs ≟ "json"%bs) || (log_format obs ≟ "text"%bs))
    (Text ("observability.log.format must be "%bs ++ QUOTE ++ "json"%bs ++ QUOTE ++ " or "%bs
             ++ QUOTE ++ "text"%bs ++ QUOTE)).

Definition management_key (m : option ManagementSection) (env : bytes → option bytes) :
    result (option bytes) LoadError :=
  match m with
  | None => Ok None
  | Some m =>
      let var := default "HEMATITE_MANAGEMENT_API_KEY"%bs (ms_api_key_env m) in
      match env var with
      | Some key =>
          if negb (key ≟ []) then Ok (Some key)
          else Err (Fmt "management.listen is set but env var {var:?} is empty or unset"%bs [Text var])
      | None => Err (Fmt "management.listen is set but env var {var:?} is empty or unset"%bs [Text var])
      end
  end.

Definition dns_resolved (dns : option DnsSection) : option DnsResolved :=
  match dns with
  | Some d =>
      if dns_enabled d then
        Some {| dn_listen := default ":53"%bs (dns_listen d);
                dn_proxy_ip := default 0%Z (ip ← dns_proxy_ip d; parse_ipv4 ip);
                dn_upstream_resolver := default "1.1.1.1:53"%bs (dns_upstream_resolver d);
                dn_passthrough := dns_passthrough d;
                dn_records := map (fun r => (dr_name r, record_type r, dr_value r)) (dns_records d) |}
      else None
  | None => None
  end.

Definition listen_keys (raw : RawConfig F64) : ListenKeys :=
  {| lk_http := default ":80"%bs (ps_http_listen (raw_proxy raw));
     lk_https := ps_https_listen (raw_proxy raw);
     lk_tunnel := ps_tunnel_listen (raw_proxy raw);
     lk_dns := d ← raw_dns raw; if dns_enabled d then Some (default ":53"%bs (dns_listen d)) else None;
     lk_management := ms_listen <$> raw_management raw |}.

(** [impl From<ConfigError> for LoadError]. *)
Definition from_config_error (e : ConfigError) : LoadError := Fmt "config error: {}"%bs [e].

(** [load_str] from the decoded shape on: steps 3 and 4. *)
Definition resolve_config {W} (resolver : SecretResolver W) (raw : RawConfig F64) (env : bytes → option bytes) :
    result (Config F64) LoadError :=
  let listen := listen_keys raw in
  let? timeout := transpose (proxy_parse_duration <$> ps_upstream_response_header_timeout (raw_proxy raw)) in
  let? _ := validate_dns (raw_dns raw) in
  let? _ := check_that (negb ((bool_decide (is_Some (lk_https listen)) || bool_decide (is_Some (lk_tunnel listen)))
                              && bool_decide (raw_tls raw = None)))
              (Text "tls.ca_cert and tls.ca_key are required when the HTTPS or tunnel listener is enabled"%bs) in
  let? _ := match ps_upstream_deny_cidrs (raw_proxy raw) with
            | Some cidrs => let? _ := guard_new cidrs in Ok tt
            | None => Ok tt
            end in
  let? _ := validate_observability (raw_observability raw) in
  let? api_key := management_key (raw_management raw) env in
  let? transforms := collect_results
                       (fun t => match yaml_to_value t.2 with
                                 | Ok v => Ok {| spec_name := t.1; spec_config := v |}
                                 | Err e => Err (Fmt "transform config: {e}"%bs [Text e])
                                 end) (raw_transforms raw) in
  let? built := map_err from_config_error (build_pipeline_with_resolver transforms resolver) in
  Ok {| listen := listen;
        cfg_max_request_body_bytes := default (2 ^ 20)%Z (ps_max_request_body_bytes (raw_proxy raw));
        cfg_max_response_body_bytes := default 0%Z (ps_max_response_body_bytes (raw_proxy raw));
        upstream_response_header_timeout := default (duration_from_secs 30) timeout;
        upstream_deny_cidrs := ps_upstream_deny_cidrs (raw_proxy raw);
        management_api_key := api_key;
        log_level := default "info"%bs (raw_log_level raw);
        cfg_tls := (fun t => {| tr_ca_cert := ts_ca_cert t; tr_ca_key := ts_ca_key t;
                                cert_cache_size := default 1000%Z (ts_cert_cache_size t);
                                leaf_cert_expiry_hours := default 72%Z (ts_leaf_cert_expiry_hours t) |}) <$> raw_tls raw;
        cfg_dns := dns_resolved (raw_dns raw);
        cfg_transforms := transforms;
        tunnel_passthrough_domains := default [] (ps_tunnel_passthrough_domains (raw_proxy raw));
        cfg_warnings := warnings built;
        observability := raw_observability raw |}.

Definition load_str {W} (resolver : SecretResolver W) (yaml : bytes) (env : bytes → option bytes) :
    result (Config F64) LoadError :=
  let? value := map_err (fun e => Fmt "YAML parse error: {e}"%bs [Text e]) (yaml_from_str yaml) in
  let value := match value with YNull => YMapping [] | v => v end in
  let? raw := map_err (fun e => Fmt "config error: {e}"%bs [Text e]) (de_raw (apply_env_overrides value env)) in
  resolve_config resolver raw env.

(** ** The runtime *)

(** Every [host] string anywhere in a transform's configuration. *)
Fixpoint transform_rule_hosts (v : Value) : list bytes :=
  match v with
  | Object m =>
      flat_map (fun '(k, val) =>
        (if k ≟ "host"%bs then match val with String_ s => [s] | _ => [] end else []) ++ transform_rule_hosts val) m
  | Array items => flat_map transform_rule_hosts items
  | _ => []
  end.

(** The test at the heart of the passthrough check. *)
Definition overlap (glob : DomainGlob) (pattern host : bytes) : bool :=
  domain_matches glob host
  || match domain_parse host with Ok g => domain_matches g pattern | Err _ => false end.

Definition overlap_error (spec : TransformSpec) (host pattern : bytes) : LoadError :=
  Fmt "transform {:?} has a rule for host {:?}, which overlaps tunnel passthrough domain {:?}: the transform could never run on passthrough traffic"%bs
    [Text (spec_name spec); Text host; Text pattern].

(** The three loops: transforms, their hosts, the passthrough globs. *)
Definition check_passthrough (globs : list DomainGlob) (patterns : list bytes) (specs : list TransformSpec) :
    result unit LoadError :=
  let? _ := collect_results (fun spec =>
              if spec_name spec ≟ "allowlist"%bs then Ok []
              else collect_results (fun host =>
                     collect_results (fun gp =>
                       if overlap gp.1 gp.2 host then Err (overlap_error spec host gp.2) else Ok tt)
                       (zip globs patterns))
                     (transform_rule_hosts (spec_config spec))) specs in
  Ok tt.

(** [native_roots] is the load of the system's root certificates, [load_ca]
    that of the CA files. *)
Definition build_runtime {W} (resolver : SecretResolver W) (native_roots : result unit message)
    (load_ca : TlsResolved → result unit message) (config : Config F64) : result (Runtime W) LoadError :=
  let? built := map_err from_config_error (build_pipeline_with_resolver (cfg_transforms config) resolver) in
  let? guard := match upstream_deny_cidrs config with
                | None => Ok default_set
                | Some cidrs => guard_new cidrs
                end in
  let? _ := native_roots in
  let? globs := collect_results
                  (fun d => map_err (fun e => Fmt "proxy.tunnel_passthrough_domains {d:?}: {e}"%bs
                                                [Text d; display_match_error e]) (domain_parse d))
                  (tunnel_passthrough_domains config) in
  let? _ := if negb (bool_decide (globs = [])) then
              check_passthrough globs (tunnel_passthrough_domains config) (cfg_transforms config)
            else Ok tt in
  let? tls := match cfg_tls config with
              | Some tls =>
                  if bool_decide (is_Some (lk_https (listen config))) || bool_decide (is_Some (lk_tunnel (listen config)))
                  then let? _ := load_ca tls in Ok true
                  else Ok false
              | None => Ok false
              end in
  Ok {| rt_pipeline := pipeline built; rt_guard := guard;
        max_request_body_bytes := cfg_max_request_body_bytes config;
        tls_configured := tls; tunnel_passthrough := globs |}.

End config.
