(* ===== verification/ConfigTheorems.v ===== *)
(** * Guarantees of the configuration loader

    Which settings reach the runtime, that a loaded configuration compiles,
    and that no transform is silently bypassed by a passthrough domain. *)

From S2P Require Import Prelude Net Json Matcher Summary Pipeline Secrets KernelConfig SerdeModel KernelTheorems Resolver Dial Proxy ProxyConfig.

Section overrides.
Context `{YF : YamlFormat}.
Implicit Types (m : list (Yaml F64 * Yaml F64)) (v : Yaml F64).

Lemma map_at_set k v m : map_at k (map_set k v m) = Some v.
Proof.
  unfold map_at. induction m as [|[k' v'] m IH]; simpl.
  - by rewrite bool_decide_true.
  - destruct (is_key k k') eqn:E; simpl; by rewrite E.
Qed.

Lemma is_key_inj k k' (v : Yaml F64) : is_key k v = true → is_key k' v = true → k = k'.
Proof. destruct v; simpl; try done. intros ->%bool_decide_eq_true ->%bool_decide_eq_true. done. Qed.

Lemma map_at_set_ne k k' v m : k ≠ k' → map_at k (map_set k' v m) = map_at k m.
Proof.
  intros Hne. unfold map_at. induction m as [|[k0 v0] m IH]; simpl.
  - by rewrite bool_decide_false.
  - destruct (is_key k' k0) eqn:E; simpl.
    + destruct (is_key k k0) eqn:E'; [|done]. by destruct Hne; eapply is_key_inj.
    + by destruct (is_key k k0).
Qed.

(** The value at the end of a path of keys. *)
Fixpoint get_at (parents : list bytes) (leaf : bytes) m : option (Yaml F64) :=
  match parents with
  | [] => map_at leaf m
  | seg :: parents =>
      match map_at seg m with Some (YMapping sub) => get_at parents leaf sub | _ => None end
  end.

(** The parents on the way are mappings as far as they are there. *)
Fixpoint walkable (parents : list bytes) m : bool :=
  match parents with
  | [] => true
  | seg :: parents =>
      match map_at seg m with
      | None => true
      | Some (YMapping sub) => walkable parents sub
      | Some _ => false
      end
  end.

(** Two paths that part before either ends. *)
Fixpoint apart (p : list bytes) (l : bytes) (q : list bytes) (k : bytes) : bool :=
  match p, q with
  | [], [] => negb (l ≟ k)
  | [], s :: _ => negb (l ≟ s)
  | s :: _, [] => negb (s ≟ k)
  | s :: p, t :: q => negb (s ≟ t) || apart p l q k
  end.

Lemma apart_sym p l q k : apart p l q k = true → apart q k p l = true.
Proof.
  revert q. induction p as [|s p IH]; intros [|t q]; simpl; rewrite ?negb_true_iff, ?bool_decide_eq_false, ?orb_true_iff;
    [by intros ? ->|by intros ? ->|by intros ? ->|].
  intros [H|H]; [left|right; auto]. apply negb_true_iff, bool_decide_eq_false in H.
  apply negb_true_iff, bool_decide_eq_false. congruence.
Qed.

Lemma walkable_nil p : walkable p [] = true.
Proof. by destruct p. Qed.

Lemma get_at_nil p l : get_at p l [] = None.
Proof. by destruct p. Qed.

Lemma set_at_walkable p l v m : walkable p m = true → is_Some (set_at p l v m).
Proof.
  revert m. induction p as [|s p IH]; intros m H; simpl in *; [by eexists|].
  destruct (map_at s m) as [[]|]; simpl; try done.
  - destruct (IH _ H) as [sub ->]. by eexists.
  - destruct (IH [] (walkable_nil p)) as [sub ->]. by eexists.
Qed.

Lemma get_set_at p l v m m' : set_at p l v m = Some m' → get_at p l m' = Some v.
Proof.
  revert m m'. induction p as [|s p IH]; intros m m' H; simpl in *.
  - injection H as <-. apply map_at_set.
  - destruct (default _ (map_at s m)) as [| | | | | |sub]; try done.
    destruct (set_at p l v sub) as [sub'|] eqn:E; [|done]. injection H as <-.
    rewrite map_at_set. by eapply IH.
Qed.

Lemma get_set_at_apart p l v q k m m' :
  set_at p l v m = Some m' → apart p l q k = true →
  get_at q k m' = get_at q k m ∧ walkable q m' = walkable q m.
Proof.
  revert q m m'. induction p as [|s p IH]; intros q m m' H Ha; simpl in H.
  - injection H as <-. destruct q as [|t q]; simpl in Ha; apply negb_true_iff, bool_decide_eq_false in Ha;
      simpl; by rewrite map_at_set_ne.
  - destruct (default (YMapping []) (map_at s m)) as [| | | | | |sub] eqn:Ed; try done.
    destruct (set_at p l v sub) as [sub'|] eqn:E; [|done]. injection H as <-.
    destruct q as [|t q]; simpl in Ha |- *.
    { apply negb_true_iff, bool_decide_eq_false in Ha. by rewrite map_at_set_ne. }
    destruct (decide (t = s)) as [->|Hne]; [|by rewrite map_at_set_ne].
    rewrite bool_decide_true in Ha by done. simpl in Ha. rewrite map_at_set.
    destruct (IH q sub sub' E Ha) as [-> ->].
    destruct (map_at s m) as [w|]; simpl in Ed; [subst w; done|]. injection Ed as <-.
    by rewrite get_at_nil, walkable_nil.
Qed.

Definition key_parents (path : bytes) : list bytes := removelast (split_on "."%byte path).
Definition key_leaf (path : bytes) : bytes := List.last (split_on "."%byte path) [].

Lemma override_loop_get paths env m :
  Forall (fun p => walkable (key_parents p) m = true) paths →
  ForallOrdPairs (fun p q => apart (key_parents p) (key_leaf p) (key_parents q) (key_leaf q) = true) paths →
  ∃ m', override_loop paths env (YMapping m) = YMapping m' ∧
    (∀ q k, Forall (fun p => apart (key_parents p) (key_leaf p) q k = true) paths →
       get_at q k m' = get_at q k m) ∧
    ∀ p, p ∈ paths → get_at (key_parents p) (key_leaf p) m' =
      match env (env_name p) with Some raw => Some (typed p raw) | None => get_at (key_parents p) (key_leaf p) m end.
Proof.
  intros Hw Hap. revert m Hw. induction Hap as [|p paths Hp Hap IH]; intros m Hw; simpl.
  { exists m. split_and!; [done..|]. by intros ? ?%elem_of_nil. }
  apply Forall_cons in Hw as [Hw1 Hw2].
  destruct (env (env_name p)) as [raw|] eqn:Ee.
  - destruct (set_at_walkable _ (key_leaf p) (typed p raw) _ Hw1) as [m1 Hset].
    unfold key_parents, key_leaf in Hset. rewrite Hset.
    assert (Forall (fun q => walkable (key_parents q) m1 = true) paths) as Hw'.
    { rewrite Forall_forall in *. intros q Hq. destruct (get_set_at_apart _ _ _ _ _ _ _ Hset (Hp q Hq)) as [_ ->]. auto. }
    destruct (IH m1 Hw') as (m' & -> & Hoth & Hget). exists m'. split; [done|]. split.
    + intros q k Hq. apply Forall_cons in Hq as [Hq1 Hq2]. rewrite (Hoth q k Hq2).
      by destruct (get_set_at_apart _ _ _ _ _ _ _ Hset Hq1) as [-> _].
    + intros q [->|Hq]%elem_of_cons.
      * rewrite Ee. rewrite Hoth by (apply Forall_forall; intros r Hr; apply apart_sym; rewrite Forall_forall in Hp; auto).
        by eapply get_set_at.
      * rewrite (Hget q Hq). destruct (env (env_name q)); [done|]. rewrite Forall_forall in Hp.
        by destruct (get_set_at_apart _ _ _ _ _ _ _ Hset (Hp q Hq)) as [-> _].
  - destruct (IH m Hw2) as (m' & -> & Hoth & Hget). exists m'. split; [done|]. split.
    + intros q k Hq. apply Forall_cons in Hq as [_ Hq2]. by apply Hoth.
    + intros q [->|Hq]%elem_of_cons; [|by apply Hget]. rewrite Ee. apply Hoth.
      apply Forall_forall. intros r Hr. apply apart_sym. rewrite Forall_forall in Hp. auto.
Qed.

(** The keys are pairwise apart. *)
Fixpoint pairwise {A} (f : A → A → bool) (l : list A) : bool :=
  match l with [] => true | x :: l => forallb (f x) l && pairwise f l end.

Lemma pairwise_spec {A} (f : A → A → bool) l : pairwise f l = true → ForallOrdPairs (fun x y => f x y = true) l.
Proof.
  induction l as [|x l IH]; simpl; [constructor|]. intros [H1 H2]%andb_true_iff. constructor; [|auto].
  rewrite forallb_forall in H1. apply Forall_forall. intros y Hy. by apply H1, list_elem_of_In.
Qed.

Lemma env_keys_apart :
  ForallOrdPairs (fun p q => apart (key_parents p) (key_leaf p) (key_parents q) (key_leaf q) = true) ENV_KEYS.
Proof. apply pairwise_spec. vm_compute. reflexivity. Qed.

(** C33 (overrides): when every section of the file that is there is a mapping,
    each environment variable sets exactly its own key, to the bool, number or
    string it reads as, and every other key keeps its value. *)
Theorem overrides_take_effect env m :
  forallb (fun p => walkable (key_parents p) m) ENV_KEYS = true →
  ∃ m', apply_env_overrides (YMapping m) env = YMapping m' ∧
    (∀ p, p ∈ ENV_KEYS → get_at (key_parents p) (key_leaf p) m' =
       match env (env_name p) with
       | Some raw => Some (typed p raw)
       | None => get_at (key_parents p) (key_leaf p) m
       end) ∧
    ∀ q k, Forall (fun p => apart (key_parents p) (key_leaf p) q k = true) ENV_KEYS →
      get_at q k m' = get_at q k m.
Proof.
  intros H. destruct (override_loop_get ENV_KEYS env m) as (m' & Hm & Hoth & Hget).
  - rewrite forallb_forall in H. apply Forall_forall. intros p Hp. by apply H, list_elem_of_In.
  - apply env_keys_apart.
  - by exists m'.
Qed.

(** The environment variables of a list. *)
Definition env_of (vars : list (bytes * bytes)) (name : bytes) : option bytes :=
  snd <$> List.find (fun e => e.1 ≟ name) vars.

(** An empty section in the file ([dns:] with nothing under it is null) ends
    the overrides: one variable for it makes all later ones be ignored. *)
Theorem null_section_ends_overrides (proxy : list (Yaml F64 * Yaml F64)) raw listen :
  let env := env_of [("HEMATITE_DNS_LISTEN"%bs, raw); ("HEMATITE_PROXY_HTTP_LISTEN"%bs, listen)] in
  apply_env_overrides (YMapping [(YString "dns"%bs, YNull); (YString "proxy"%bs, YMapping proxy)]) env
  = YMapping [(YString "dns"%bs, YNull); (YString "proxy"%bs, YMapping proxy)].
Proof. reflexivity. Qed.

End overrides.

(** ** Passthrough domains *)

(** A pattern read as a host: what [overlap] matches the other glob against. *)
Lemma pattern_labels p g :
  domain_parse p = Ok g → ends_with ["."%byte] p = false →
  labels (normal_host p) = (if wildcard g then [["*"%byte]] else []) ++ labels (suffix g).
Proof.
  intros (_ & _ & Hp)%domain_parse_Ok Hdot. unfold normal_host.
  destruct (strip_suffix ["."%byte] (to_ascii_lowercase p)) as [r|] eqn:E.
  - exfalso. apply strip_suffix_Some in E. apply not_true_iff_false in Hdot. apply Hdot, ends_with_spec.
    assert (∃ q c, p = q ++ [c]) as (q & c & ->).
    { destruct p as [|c q] using rev_ind; [by destruct r|]. by exists q, c. }
    exists q. rewrite lowercase_app in E. apply app_inj_2 in E as [_ [= E]]; [|done].
    f_equal. f_equal. by apply (to_lower_eq_nonletter c "."%byte).
  - simpl. rewrite Hp. destruct (wildcard g); [|done]. unfold labels.
    change ("*."%bs ++ suffix g) with (["*"%byte] ++ "."%byte :: suffix g).
    rewrite split_on_app; [done|]. by intros [=]%list_elem_of_singleton.
Qed.

(** Two patterns some host matches both of are reported. *)
Lemma overlap_complete p g h hg x :
  domain_parse p = Ok g → domain_parse h = Ok hg →
  ends_with ["."%byte] p = false → ends_with ["."%byte] h = false →
  domain_matches g x = true → domain_matches hg x = true → overlap g p h = true.
Proof.
  intros Hg Hhg Hp Hh Hm1 Hm2. unfold overlap. rewrite Hhg.
  pose proof (pattern_labels _ _ Hg Hp) as Lp. pose proof (pattern_labels _ _ Hhg Hh) as Lh.
  apply domain_matches_labels in Hm1 as (pre1 & E1 & W1), Hm2 as (pre2 & E2 & W2). rewrite E1 in E2.
  apply orb_true_iff. rewrite !domain_matches_labels, Lp, Lh.
  apply app_eq_inv in E2 as [(mid & -> & E2)|(mid & -> & E2)].
  - (* the host's pattern has the longer suffix *)
    destruct W1 as [W1|Hnil].
    + left. exists ((if wildcard hg then [["*"%byte]] else []) ++ mid). rewrite E2, <- app_assoc. auto.
    + apply app_eq_nil in Hnil as [-> ->]. simpl in E2. destruct (wildcard g) eqn:Eg.
      * left. exists (if wildcard hg then [["*"%byte]] else []). rewrite E2. auto.
      * right. exists []. rewrite E2. auto.
  - (* the passthrough pattern has the longer suffix *)
    destruct W2 as [W2|Hnil].
    + right. exists ((if wildcard g then [["*"%byte]] else []) ++ mid). rewrite E2, <- app_assoc. auto.
    + apply app_eq_nil in Hnil as [-> ->]. simpl in E2. destruct (wildcard hg) eqn:Eh.
      * right. exists (if wildcard g then [["*"%byte]] else []). rewrite E2. auto.
      * left. exists []. rewrite E2. auto.
Qed.

Lemma collect_results_elem {A B E} (f : A → result B E) l bs x :
  collect_results f l = Ok bs → x ∈ l → ∃ b, f x = Ok b ∧ b ∈ bs.
Proof.
  intros H%collect_results_Ok Hx. apply list_elem_of_lookup in Hx as [i Hi].
  eapply Forall2_lookup_l in Hi as (b & Hb & Hf); [|exact H]. exists b. split; [done|]. by eapply list_elem_of_lookup_2.
Qed.

Section build.
Context `{YF : YamlFormat} `{RE : RegexEngine} `{CD : ConfigDecoder} {W : Type}.

Lemma check_passthrough_Ok globs patterns specs u spec host g p :
  check_passthrough globs patterns specs = Ok u → spec ∈ specs → spec_name spec ≠ "allowlist"%bs →
  host ∈ transform_rule_hosts (spec_config spec) → (g, p) ∈ zip globs patterns → overlap g p host = false.
Proof.
  unfold check_passthrough. intros H Hs Hn Hh Hg. destruct (collect_results _ specs) eqn:E1; [|done].
  destruct (collect_results_elem _ _ _ _ E1 Hs) as (l1 & E2 & _). cbv beta in E2.
  rewrite bool_decide_false in E2 by done.
  destruct (collect_results_elem _ _ _ _ E2 Hh) as (l2 & E3 & _). cbv beta in E3.
  destruct (collect_results_elem _ _ _ _ E3 Hg) as (l3 & E4 & _). cbv beta in E4. simpl in E4.
  by destruct (overlap g p host).
Qed.

(** The parts of a runtime that was built. *)
Lemma build_runtime_Ok (r : SecretResolver W) roots ca c rt :
  build_runtime r roots ca c = Ok rt →
  (∃ bp, build_pipeline_with_resolver (cfg_transforms c) r = Ok bp ∧ rt_pipeline rt = pipeline bp) ∧
  match upstream_deny_cidrs c with
  | None => rt_guard rt = default_set
  | Some cidrs => guard_new cidrs = Ok (rt_guard rt)
  end ∧
  max_request_body_bytes rt = cfg_max_request_body_bytes c ∧
  Forall2 (fun d g => domain_parse d = Ok g) (tunnel_passthrough_domains c) (tunnel_passthrough rt) ∧
  (tunnel_passthrough rt ≠ [] →
   check_passthrough (tunnel_passthrough rt) (tunnel_passthrough_domains c) (cfg_transforms c) = Ok tt) ∧
  (tls_configured rt = true ↔
   is_Some (cfg_tls c) ∧ (is_Some (lk_https (listen c)) ∨ is_Some (lk_tunnel (listen c)))).
Proof.
  unfold build_runtime. intros H.
  destruct (build_pipeline_with_resolver (cfg_transforms c) r) as [bp|] eqn:Eb; simpl in H; [|done].
  destruct (match upstream_deny_cidrs c with Some _ => _ | None => _ end) as [g|] eqn:Eg; simpl in H; [|done].
  destruct roots as [[]|]; simpl in H; [|done].
  destruct (collect_results _ (tunnel_passthrough_domains c)) as [globs|] eqn:Ed; simpl in H; [|done].
  destruct (if negb (bool_decide (globs = [])) then _ else _) as [[]|] eqn:Ec; simpl in H; [|done].
  destruct (match cfg_tls c with Some _ => _ | None => _ end) as [b|] eqn:Et; simpl in H; [|done].
  injection H as <-. simpl. split_and!.
  - eauto.
  - destruct (upstream_deny_cidrs c); [done|by injection Eg].
  - done.
  - apply collect_results_Ok in Ed. eapply Forall2_impl; [exact Ed|]. intros d g' Hd. cbv beta in Hd.
    by destruct (domain_parse d); simplify_eq/=.
  - intros Hne. rewrite bool_decide_false in Ec by done. done.
  - destruct (cfg_tls c) as [t|]; [|injection Et as <-; split; [done|by intros [[] _]]].
    destruct (bool_decide_reflect (is_Some (lk_https (listen c))));
      destruct (bool_decide_reflect (is_Some (lk_tunnel (listen c))));
      simpl in Et; try destruct (ca t) as [[]|]; simplify_eq/=; naive_solver.
Qed.

Lemma build_runtime_roots (r : SecretResolver W) roots ca c rt :
  build_runtime r roots ca c = Ok rt → roots = Ok tt.
Proof.
  unfold build_runtime. intros H.
  destruct (build_pipeline_with_resolver (cfg_transforms c) r) as [bp|]; simpl in H; [|done].
  destruct (match upstream_deny_cidrs c with Some _ => _ | None => _ end) as [g|]; simpl in H; [|done].
  by destruct roots as [[]|].
Qed.

Lemma build_runtime_ca (r : SecretResolver W) roots ca c rt t :
  build_runtime r roots ca c = Ok rt → cfg_tls c = Some t →
  is_Some (lk_https (listen c)) ∨ is_Some (lk_tunnel (listen c)) → is_ok (ca t) = true.
Proof.
  unfold build_runtime. intros H Et Hl. rewrite Et in H.
  destruct (build_pipeline_with_resolver (cfg_transforms c) r) as [bp|]; simpl in H; [|done].
  destruct (match upstream_deny_cidrs c with Some _ => _ | None => _ end) as [g|]; simpl in H; [|done].
  destruct roots as [[]|]; simpl in H; [|done].
  destruct (collect_results _ (tunnel_passthrough_domains c)) as [globs|]; simpl in H; [|done].
  destruct (if negb (bool_decide (globs = [])) then _ else _) as [[]|]; simpl in H; [|done].
  rewrite (proj2 (orb_true_iff _ _)) in H by (destruct Hl; [left|right]; by apply bool_decide_eq_true).
  by destruct (ca t).
Qed.

(** What the loader checked of a configuration it returns. *)
Lemma resolve_config_Ok (r : SecretResolver W) raw env c :
  resolve_config r raw env = Ok c →
  listen c = listen_keys raw ∧ cfg_dns c = dns_resolved (raw_dns raw) ∧
  validate_dns (raw_dns raw) = Ok tt ∧ validate_observability (observability c) = Ok tt ∧
  management_key (raw_management raw) env = Ok (management_api_key c) ∧
  (is_Some (lk_https (listen c)) ∨ is_Some (lk_tunnel (listen c)) → is_Some (cfg_tls c)).
Proof.
  unfold resolve_config. intros H.
  destruct (transpose _) as [timeout|]; simpl in H; [|done].
  destruct (validate_dns _) as [[]|]; simpl in H; [|done].
  destruct (check_that _ _) as [[]|] eqn:Et; simpl in H; [|done].
  destruct (match ps_upstream_deny_cidrs _ with Some _ => _ | None => _ end) as [[]|]; simpl in H; [|done].
  destruct (validate_observability _) as [[]|] eqn:Eo; simpl in H; [|done].
  destruct (management_key _ _) as [key|]; simpl in H; [|done].
  destruct (collect_results _ (raw_transforms raw)) as [ts|]; simpl in H; [|done].
  destruct (build_pipeline_with_resolver ts r) as [bp|]; simpl in H; [|done].
  injection H as <-. simpl. split_and!; try done.
  rewrite fmap_is_Some. unfold check_that in Et. destruct (raw_tls raw); [by eexists|].
  rewrite (bool_decide_true (None = None)), andb_true_r in Et by done.
  destruct (bool_decide_reflect (is_Some (ps_https_listen (raw_proxy raw)))); [done|].
  destruct (bool_decide_reflect (is_Some (ps_tunnel_listen (raw_proxy raw)))); [done|]. tauto.
Qed.

Lemma load_str_Ok (r : SecretResolver W) yaml env c :
  load_str r yaml env = Ok c → ∃ raw, resolve_config r raw env = Ok c.
Proof.
  unfold load_str. intros H. destruct (yaml_from_str yaml) as [v|]; simpl in H; [|done].
  destruct (de_raw _) as [raw|]; simpl in H; [|done]. by exists raw.
Qed.

(** C32 (passthrough): take the domain patterns a transform other than the
    allowlist gives as strings under a [host] key, and the passthrough
    domains, none of them ending with a dot.  A configuration in which some
    host matches one of each is refused; so in a running proxy no host that
    such a pattern matches is ever tunneled past the transform.  The check
    misses other spellings of a rule: [cidr_rule_is_bypassed],
    [array_rule_is_bypassed], [dotted_rule_is_bypassed]. *)
Theorem passthrough_hides_no_rule (r : SecretResolver W) roots ca c rt spec host clause x :
  build_runtime r roots ca c = Ok rt → spec ∈ cfg_transforms c → spec_name spec ≠ "allowlist"%bs →
  host ∈ transform_rule_hosts (spec_config spec) → host_parse host = Ok (HGlob clause) →
  ends_with ["."%byte] host = false →
  forallb (fun d => negb (ends_with ["."%byte] d)) (tunnel_passthrough_domains c) = true →
  passthrough_matches (tunnel_passthrough rt) x = true → host_matches (HGlob clause) x = false.
Proof.
  intros (_ & _ & _ & Hglobs & Hcheck & _)%build_runtime_Ok Hs Hn Hh Hp Hdot Hdots Hx.
  apply existsb_exists in Hx as (g & Hg%list_elem_of_In & Hm).
  apply list_elem_of_lookup in Hg as [i Hi].
  destruct (Forall2_lookup_r _ _ _ _ _ Hglobs Hi) as (d & Hd & Hpd). cbv beta in Hpd.
  assert (tunnel_passthrough rt ≠ []) as Hne by (intros E; by rewrite E in Hi).
  assert ((g, d) ∈ zip (tunnel_passthrough rt) (tunnel_passthrough_domains c)) as Hz.
  { apply list_elem_of_lookup. exists i. apply lookup_zip_with_Some. eauto. }
  pose proof (check_passthrough_Ok _ _ _ _ _ _ _ _ (Hcheck Hne) Hs Hn Hh Hz) as Hov.
  apply not_true_iff_false. simpl. intros Hm2. apply not_true_iff_false in Hov. apply Hov.
  rewrite forallb_forall in Hdots. apply list_elem_of_lookup_2, list_elem_of_In, Hdots, negb_true_iff in Hd.
  unfold host_parse in Hp. destruct (contains_byte _ host); [by destruct (cidr_parse host)|].
  destruct (domain_parse host) as [hg|] eqn:Ehg; simpl in Hp; [|done]. injection Hp as <-.
  by eapply overlap_complete.
Qed.

(** Boot: what the loader accepts compiles. A loaded configuration
    without passthrough domains can only fail to become a runtime because the
    system's roots or the CA files cannot be loaded; and the guard it runs with
    is the default set exactly when the key is absent. *)
Theorem loaded_config_compiles (r : SecretResolver W) raw env c roots ca :
  resolve_config r raw env = Ok c → tunnel_passthrough_domains c = [] →
  is_ok roots = true → (∀ t, is_ok (ca t) = true) →
  ∃ rt, build_runtime r roots ca c = Ok rt ∧
    match upstream_deny_cidrs c with
    | None => rt_guard rt = default_set
    | Some cidrs => map snd (deny (rt_guard rt)) = cidrs
    end.
Proof.
  intros H Hp Hr Hca. unfold resolve_config in H.
  destruct (transpose _) as [timeout|]; simpl in H; [|done].
  destruct (validate_dns _) as [[]|]; simpl in H; [|done].
  destruct (check_that _ _) as [[]|]; simpl in H; [|done].
  destruct (match ps_upstream_deny_cidrs _ with Some _ => _ | None => _ end) as [[]|] eqn:Eg; simpl in H; [|done].
  destruct (validate_observability _) as [[]|]; simpl in H; [|done].
  destruct (management_key _ _) as [key|]; simpl in H; [|done].
  destruct (collect_results _ (raw_transforms raw)) as [ts|] eqn:Et; simpl in H; [|done].
  destruct (build_pipeline_with_resolver ts r) as [bp|] eqn:Eb; simpl in H; [|done].
  injection H as <-. simpl in Hp |- *. unfold build_runtime. simpl. rewrite Eb, Hp. simpl.
  destruct roots as [[]|]; [|done]. simpl.
  assert (∃ g, match ps_upstream_deny_cidrs (raw_proxy raw) with Some cidrs => guard_new cidrs | None => Ok default_set end
    = Ok g ∧ match ps_upstream_deny_cidrs (raw_proxy raw) with Some cidrs => map snd (deny g) = cidrs | None => g = default_set end)
    as (g & -> & Hg).
  { destruct (ps_upstream_deny_cidrs (raw_proxy raw)) as [cidrs|]; [|by eexists].
    destruct (guard_new cidrs) as [g|] eqn:E; [|done]. exists g. split; [done|]. by apply guard_new_prefixes. }
  simpl. match goal with |- ∃ rt, result_bind ?t _ = _ ∧ _ => assert (∃ b, t = Ok b) as [b ->] end.
  { destruct (raw_tls raw) as [t|]; simpl; [|by eexists]. destruct (bool_decide _ || bool_decide _); [|by eexists].
    match goal with |- context [ca ?t] => specialize (Hca t); destruct (ca t) as [[]|]; [by eexists|done] end. }
  simpl. eexists. split; [done|]. simpl. done.
Qed.

End build.

(** ** Example configurations *)

Definition ex_raw : RawConfig Z :=
  {| raw_dns := None;
     raw_proxy := {| ps_http_listen := None; ps_https_listen := None; ps_tunnel_listen := None;
                     ps_max_request_body_bytes := None; ps_max_response_body_bytes := None;
                     ps_upstream_response_header_timeout := Some "5s"%bs;
                     ps_upstream_deny_cidrs := Some ["10.0.0.0/8"%bs];
                     ps_http_proxy := None; ps_https_proxy := None; ps_no_proxy := None;
                     ps_tunnel_passthrough_domains := None |};
     raw_tls := None;
     raw_transforms := [("allowlist"%bs, YMapping [(YString "domains"%bs, YSequence [YString "*.example.com"%bs])])];
     raw_management := None; raw_log_level := None;
     raw_observability := {| metrics_enabled := true; log_format := "json"%bs; otlp_enabled := false;
                             otlp_endpoint := None; sample_ratio := 1%Z; service_name := "hematite"%bs |} |}.

(** A format whose only number is the integer and whose only file is the
    given one: enough to run the loader. *)
Definition yaml_of (raw : RawConfig Z) : YamlFormat := {|
  F64 := Z;
  parse_f64 := parse_u64;
  in_unit z := (0 <=? z)%Z && (z <=? 1)%Z;
  yaml_from_str _ := Ok YNull;
  de_raw _ := Ok raw;
  yaml_to_value v :=
    let fix go (v : Yaml Z) : Value :=
      match v with
      | YNull => Null
      | YBool b => Bool b
      | YInt n | YFloat n => Number (PosInt n)
      | YString s => String_ s
      | YSequence l => Array (map go l)
      | YMapping m =>
          Object (flat_map (fun '(k, v) => match k with YString k => [(k, go v)] | _ => [] end) m)
      end in
    Ok (go v);
|}.

Definition plain_yaml : YamlFormat := yaml_of ex_raw.

Definition no_config : Config Z :=
  {| listen := {| lk_http := []; lk_https := None; lk_tunnel := None; lk_dns := None; lk_management := None |};
     cfg_max_request_body_bytes := 0; cfg_max_response_body_bytes := 0; upstream_response_header_timeout := 0%Z;
     upstream_deny_cidrs := None; management_api_key := None; log_level := []; cfg_tls := None; cfg_dns := None;
     cfg_transforms := []; tunnel_passthrough_domains := []; cfg_warnings := [];
     observability := raw_observability ex_raw |}.

Definition ex_config : Config Z :=
  unwrap_or no_config (resolve_config (YF := plain_yaml) ex_resolver ex_raw (fun _ => None)).

(** The same transforms with tunnels passed through for the given domains. *)
Definition with_passthrough (specs : list TransformSpec) (domains : list bytes) : Config Z :=
  {| listen := listen ex_config; cfg_max_request_body_bytes := 64; cfg_max_response_body_bytes := 0;
     upstream_response_header_timeout := 0%Z; upstream_deny_cidrs := None; management_api_key := None;
     log_level := "info"%bs; cfg_tls := None; cfg_dns := None; cfg_transforms := specs;
     tunnel_passthrough_domains := domains; cfg_warnings := []; observability := raw_observability ex_raw |}.

Definition no_runtime : Runtime nat :=
  {| rt_pipeline := []; rt_guard := default_set; max_request_body_bytes := 0; tls_configured := false;
     tunnel_passthrough := [] |}.

Definition built_runtime (c : Config Z) : Runtime nat :=
  unwrap_or no_runtime (build_runtime (YF := plain_yaml) ex_resolver (Ok tt) (fun _ => Ok tt) c).

Lemma overrides_take_effect_witness :
  ∃ m', apply_env_overrides (YF := plain_yaml) (YMapping []) (env_of [("HEMATITE_LOG_LEVEL"%bs, "warn"%bs)])
        = YMapping m' ∧
    get_at (YF := plain_yaml) ["log"%bs] "level"%bs m' = Some (YString "warn"%bs).
Proof.
  destruct (overrides_take_effect (YF := plain_yaml) (env_of [("HEMATITE_LOG_LEVEL"%bs, "warn"%bs)]) []
    ltac:(vm_compute; reflexivity)) as (m' & Hm & Hget & _).
  exists m'. split; [exact Hm|].
  apply (Hget "log.level"%bs). apply (bool_decide_unpack _). vm_compute. exact I.
Defined.

Lemma passthrough_hides_no_rule_witness :
  host_matches (HGlob {| suffix := "example.com"%bs; wildcard := true |}) "cdn.other.test"%bs = false.
Proof.
  apply (passthrough_hides_no_rule (YF := plain_yaml) ex_resolver (Ok tt) (fun _ => Ok tt)
    (with_passthrough ex_specs ["*.other.test"%bs])
    (built_runtime (with_passthrough ex_specs ["*.other.test"%bs])) ex_secrets "*.example.com"%bs).
  - apply is_ok_unwrap. vm_compute. reflexivity.
  - right. right. right. right. left.
  - discriminate.
  - apply (bool_decide_unpack _). vm_compute. exact I.
  - vm_compute. reflexivity.
  - vm_compute. reflexivity.
  - vm_compute. reflexivity.
  - vm_compute. reflexivity.
Defined.

Lemma loaded_config_compiles_witness :
  ∃ rt, build_runtime (YF := plain_yaml) ex_resolver (Ok tt) (fun _ => Ok tt) ex_config = Ok rt ∧
    map snd (deny (rt_guard rt)) = ["10.0.0.0/8"%bs].
Proof.
  destruct (loaded_config_compiles (YF := plain_yaml) ex_resolver ex_raw (fun _ => None) ex_config
    (Ok tt) (fun _ => Ok tt)) as (rt & Hrt & Hg).
  - apply is_ok_unwrap. vm_compute. reflexivity.
  - vm_compute. reflexivity.
  - reflexivity.
  - intros t. reflexivity.
  - exists rt. split; [exact Hrt|]. exact Hg.
Defined.

(** A rule given as an address prefix is not looked at by the check: traffic
    to an address that is passed through escapes a transform that names it. *)
Definition cidr_capture : TransformSpec :=
  {| spec_name := "body_capture"%bs;
     spec_config := Object [("max_request_body_bytes"%bs, Number (PosInt 64)); ("rules"%bs, rule_all "10.0.0.0/8"%bs)] |}.

Theorem cidr_rule_is_bypassed :
  let c := with_passthrough [{| spec_name := "allowlist"%bs;
                                spec_config := Object [("cidrs"%bs, Array [String_ "10.0.0.0/8"%bs])] |};
                             cidr_capture] ["10.1.2.3"%bs] in
  is_ok (build_runtime (YF := plain_yaml) ex_resolver (Ok tt) (fun _ => Ok tt) c) = true ∧
  passthrough_matches (tunnel_passthrough (built_runtime c)) "10.1.2.3"%bs = true ∧
  "10.0.0.0/8"%bs ∈ transform_rule_hosts (spec_config cidr_capture) ∧
  ∃ clause, host_parse "10.0.0.0/8"%bs = Ok clause ∧ host_matches clause "10.1.2.3"%bs = true.
Proof.
  split; [vm_compute; reflexivity|]. split; [vm_compute; reflexivity|].
  split; [apply (bool_decide_unpack _); vm_compute; exact I|].
  eexists. split; [vm_compute; reflexivity|]. vm_compute. reflexivity.
Qed.

(** A rule whose struct is given as an array has no [host] key, so the check
    does not look at it; the transform applies it to the host all the same. *)
Definition array_capture : TransformSpec :=
  {| spec_name := "body_capture"%bs;
     spec_config := Object [("max_request_body_bytes"%bs, Number (PosInt 64));
                            ("rules"%bs, Array [Array [String_ "*.example.com"%bs]])] |}.

Definition bypassed (capture : TransformSpec) (domain x : bytes) : Prop :=
  let c := with_passthrough [ex_allowlist; capture] [domain] in
  is_ok (build_runtime (YF := plain_yaml) ex_resolver (Ok tt) (fun _ => Ok tt) c) = true ∧
  passthrough_matches (tunnel_passthrough (built_runtime c)) x = true.

Example array_rule_is_bypassed : bypassed array_capture "*.example.com"%bs "api.example.com"%bs ∧
  host ex_request = "api.example.com"%bs ∧ bool_decide (is_Some (body_capture (leak_outcome [ex_allowlist; array_capture]))) = true.
Proof. by vm_compute. Qed.

(** Patterns that end with a dot: one trailing dot is taken off the pattern
    read as a host, none off the glob, so the two never meet in the check;
    but a request names such a host with one dot more. *)
Definition dotted_capture : TransformSpec :=
  {| spec_name := "body_capture"%bs;
     spec_config := Object [("max_request_body_bytes"%bs, Number (PosInt 64)); ("rules"%bs, rule_all "a.com."%bs)] |}.

Example dotted_rule_is_bypassed : bypassed dotted_capture "*.com."%bs "a.com.."%bs ∧
  ∃ clause, host_parse "a.com."%bs = Ok clause ∧ host_matches clause "a.com.."%bs = true.
Proof. split; [by vm_compute|]. eexists. split; [vm_compute; reflexivity|by vm_compute]. Qed.
