(* ===== verification/Management.v ===== *)
(** * The management API ([hematite-proxy/src/management.rs])

    The constant-time comparison of the key, the reload decision and the
    routes of the service. *)

From S2P Require Import Prelude Net Json Matcher Summary Pipeline Secrets KernelConfig SerdeModel KernelTheorems Resolver Dial Proxy Http HttpTheorems ProxyConfig ConfigTheorems.

(** ** Comparing the key *)

(** [a.get(i).copied().unwrap_or(0)]. *)
Definition byte_or_zero (s : bytes) (i : nat) : Z := default 0%Z (b2z <$> s !! i).

(** The accumulator after the indices of the list. *)
Fixpoint diff_loop (a b : bytes) (is_ : list nat) (diff : Z) : Z :=
  match is_ with
  | [] => diff
  | i :: is_ => diff_loop a b is_ (Z.lor diff (Z.lxor (byte_or_zero a i) (byte_or_zero b i)))
  end.

Definition constant_time_eq (a b : bytes) : bool :=
  (diff_loop a b (seq 0 (length a `max` length b))
     (Z.lxor (Z.of_nat (length a)) (Z.of_nat (length b))) =? 0)%Z.

(** ** Reloading *)

Section management.
Context `{YF : YamlFormat} `{RE : RegexEngine} `{CD : ConfigDecoder} {N W Stream : Type} `{HY : !Hyper N Stream}.
Context (resolver : SecretResolver W) (roots : result unit message) (ca : TlsResolved → result unit message).

(** The answer, the runtime served from then on, and the outcome counted;
    [file] is what reading the configuration file gives. *)
Definition reload (file : result bytes bytes) (current_listen : ListenKeys) (shared : Runtime W)
    (env : bytes → option bytes) : (Z * message) * Runtime W * bool :=
  match file with
  | Err e => ((500%Z, Fmt "cannot read config: {e}"%bs [Text e]), shared, false)
  | Ok yaml =>
      match load_str resolver yaml env with
      | Err e => ((422%Z, e), shared, false)
      | Ok config =>
          if negb (listen config ≟ current_listen) then
            ((422%Z, Text "listener addresses are not reloadable in v1 (Part 09 §4)"%bs), shared, false)
          else
            match build_runtime resolver roots ca config with
            | Ok runtime => ((200%Z, Text "reloaded"%bs), runtime, true)
            | Err e => ((422%Z, e), shared, false)
            end
      end
  end.

(** ** The service *)

(** The answer to a request, the runtime afterwards, and the reload counted,
    if there was one; [rendered] is the metrics page. *)
Definition service (metrics_enabled : bool) (rendered : bytes) (api_key : bytes)
    (file : result bytes bytes) (current_listen : ListenKeys) (env : bytes → option bytes)
    (req : HttpRequest) (shared : Runtime W) : (Z * message) * Runtime W * option bool :=
  let path := uri_path (rq_uri req) in
  if (rq_method req ≟ "GET"%bs) && (path ≟ "/metrics"%bs) then
    if negb metrics_enabled then ((404%Z, Text "not found"%bs), shared, None)
    else ((200%Z, Text rendered), shared, None)
  else if negb (rq_method req ≟ "POST"%bs) || negb (path ≟ "/v1/reload"%bs) then
    ((404%Z, Text "not found"%bs), shared, None)
  else
    let authorized :=
      match (v ← header_str "authorization"%bs (rq_headers req); strip_prefix "Bearer "%bs v) with
      | Some token => constant_time_eq token api_key
      | None => false
      end in
    if negb authorized then ((401%Z, Text "unauthorized"%bs), shared, None)
    else
      let '(answer, shared, ok) := reload file current_listen shared env in
      (answer, shared, Some ok).

End management.

(** ** Lemmas *)

Lemma lor_zero a b : Z.lor a b = 0%Z ↔ a = 0%Z ∧ b = 0%Z.
Proof. apply Z.lor_eq_0_iff. Qed.

Lemma diff_loop_zero a b is_ diff :
  diff_loop a b is_ diff = 0%Z ↔
  diff = 0%Z ∧ Forall (fun i => byte_or_zero a i = byte_or_zero b i) is_.
Proof.
  revert diff. induction is_ as [|i is_ IH]; intros diff; simpl.
  - split; [by intros ->|by intros [-> _]].
  - rewrite IH, lor_zero, Z.lxor_eq_0_iff, Forall_cons. tauto.
Qed.

Lemma bytes_eq_pointwise a b :
  length a = length b → (∀ i, i < length a → byte_or_zero a i = byte_or_zero b i) → a = b.
Proof.
  revert b. induction a as [|x a IH]; intros [|y b] Hl H; try done. f_equal.
  - specialize (H 0 ltac:(simpl; lia)). by apply b2z_inj.
  - apply IH; [by injection Hl|]. intros i Hi. by apply (H (S i)); simpl; lia.
Qed.

Lemma constant_time_eq_true a b : constant_time_eq a b = true ↔ a = b.
Proof.
  unfold constant_time_eq. rewrite Z.eqb_eq, diff_loop_zero, Z.lxor_eq_0_iff. split.
  - intros [Hl%Nat2Z.inj H]. rewrite Forall_forall in H. apply bytes_eq_pointwise; [done|].
    intros i Hi. apply H, elem_of_seq. lia.
  - intros ->. split; [done|]. by apply Forall_forall.
Qed.

(** ** Guarantees *)

(** The comparison of the key is equality, also for keys of different
    lengths and for keys that end in zero bytes. *)
Theorem constant_time_eq_is_equality a b : constant_time_eq a b = true ↔ a = b.
Proof. apply constant_time_eq_true. Qed.

Section guarantees.
Context `{YF : YamlFormat} `{RE : RegexEngine} `{CD : ConfigDecoder} {N W Stream : Type} `{HY : !Hyper N Stream}.
Context (resolver : SecretResolver W) (roots : result unit message) (ca : TlsResolved → result unit message).

(** What a call of the API may lead to. *)
Lemma service_cases metrics rendered key file keys env req (shared : Runtime W) code msg shared' counted :
  service resolver roots ca metrics rendered key file keys env req shared = ((code, msg), shared', counted) →
  match counted with
  | Some true => code = 200%Z ∧ ∃ yaml c, file = Ok yaml ∧ load_str resolver yaml env = Ok c ∧
      listen c = keys ∧ build_runtime resolver roots ca c = Ok shared'
  | Some false => (code = 422%Z ∨ code = 500%Z) ∧ shared' = shared
  | None => shared' = shared
  end ∧
  (is_Some counted → rq_method req = "POST"%bs ∧ uri_path (rq_uri req) = "/v1/reload"%bs ∧
     header_str "authorization"%bs (rq_headers req) = Some ("Bearer "%bs ++ key)).
Proof.
  unfold service. intros H.
  destruct ((rq_method req ≟ "GET"%bs) && _).
  { destruct (negb metrics); injection H as <- <- <- <-; (split; [done|by intros []]). }
  destruct (negb (rq_method req ≟ "POST"%bs) || _) eqn:Er.
  { injection H as <- <- <- <-. split; [done|by intros []]. }
  apply orb_false_iff in Er as [Em%negb_false_iff%bool_decide_eq_true Ep%negb_false_iff%bool_decide_eq_true].
  destruct (match _ ≫= _ with Some _ => _ | None => _ end) eqn:Ea; simpl in H.
  2:{ injection H as <- <- <- <-. split; [done|by intros []]. }
  assert (header_str "authorization"%bs (rq_headers req) = Some ("Bearer "%bs ++ key)) as Hauth.
  { destruct (header_str _ _) as [v|]; [|done]. cbn [mbind option_bind] in Ea.
    destruct (strip_prefix "Bearer "%bs v) as [token|] eqn:Ev; [|done].
    apply constant_time_eq_true in Ea as ->. by apply strip_prefix_Some in Ev as ->. }
  split; [|done]. unfold reload in H. destruct file as [yaml|e]; [|injection H as <- <- <- <-; auto].
  destruct (load_str resolver yaml env) as [c|e] eqn:El; [|injection H as <- <- <- <-; auto].
  destruct (listen c ≟ keys) eqn:Ek; simpl in H; [|injection H as <- <- <- <-; auto].
  destruct (build_runtime resolver roots ca c) as [rt|e] eqn:Eb; injection H as <- <- <- <-; [|auto].
  apply bool_decide_eq_true in Ek. eauto 8.
Qed.

(** The two routes, and who holds the key. *)
Definition scrapes (req : HttpRequest) : Prop := rq_method req = "GET"%bs ∧ uri_path (rq_uri req) = "/metrics"%bs.
Definition asks_reload (req : HttpRequest) : Prop :=
  rq_method req = "POST"%bs ∧ uri_path (rq_uri req) = "/v1/reload"%bs.
#[local] Instance scrapes_dec req : Decision (scrapes req).
Proof. unfold scrapes. apply _. Defined.
#[local] Instance asks_reload_dec req : Decision (asks_reload req).
Proof. unfold asks_reload. apply _. Defined.

Definition holds_key (key : bytes) (req : HttpRequest) : Prop :=
  header_str "authorization"%bs (rq_headers req) = Some ("Bearer "%bs ++ key).

(** The file holds a configuration with these listeners that loads and
    compiles to the runtime. *)
Definition reloads (file : result bytes bytes) (keys : ListenKeys) (env : bytes → option bytes) (rt : Runtime W) : Prop :=
  ∃ yaml c, file = Ok yaml ∧ load_str resolver yaml env = Ok c ∧ listen c = keys ∧
    build_runtime resolver roots ca c = Ok rt.

Lemma reloads_det file keys env rt rt' : reloads file keys env rt → reloads file keys env rt' → rt = rt'.
Proof.
  intros (y & c & Hf & Hl & _ & Hb) (y' & c' & Hf' & Hl' & _ & Hb').
  assert (y = y') as <- by congruence. assert (c = c') as <- by congruence. congruence.
Qed.

Lemma reload_outcome file keys (shared : Runtime W) env :
  let '((code, _), shared', ok) := reload resolver roots ca file keys shared env in
  (∃ rt, reloads file keys env rt ∧ code = 200%Z ∧ shared' = rt ∧ ok = true) ∨
  ((∀ rt, ¬ reloads file keys env rt) ∧ code = (if is_ok file then 422 else 500)%Z ∧ shared' = shared ∧ ok = false).
Proof.
  unfold reload, reloads. destruct file as [yaml|e].
  2:{ right. split; [by intros rt (? & ? & ? & _)|done]. }
  destruct (load_str resolver yaml env) as [c|e] eqn:El.
  2:{ right. split; [|done]. intros rt (y & c & [= <-] & Hl & _). congruence. }
  case_bool_decide as Ek; simpl.
  2:{ right. split; [|done]. intros rt (y & c' & [= <-] & Hl & Hk & _). congruence. }
  destruct (build_runtime resolver roots ca c) as [rt|e] eqn:Eb; [left; eauto 10|right].
  split; [|done]. intros rt (y & c' & [= <-] & Hl & _ & Hb). congruence.
Qed.

Lemma authorized_holds_key key req :
  match (v ← header_str "authorization"%bs (rq_headers req); strip_prefix "Bearer "%bs v) with
  | Some token => constant_time_eq token key
  | None => false
  end = true ↔ holds_key key req.
Proof.
  unfold holds_key. destruct (header_str _ _) as [v|]; [|done]. cbn [mbind option_bind].
  destruct (strip_prefix "Bearer "%bs v) as [token|] eqn:Ev.
  - apply strip_prefix_Some in Ev as ->. rewrite constant_time_eq_true.
    split; [by intros ->|]. intros H%(inj Some). by apply app_inv_head in H.
  - split; [done|]. intros H%(inj Some). apply (strip_prefix_Some "Bearer "%bs v key) in H. congruence.
Qed.

(** C31 (reload): a reload is all or nothing, and only for who holds the key.
    A POST to [/v1/reload] with the key is answered 200 exactly when the file
    holds a configuration with the same listener addresses that loads and
    compiles, and then its runtime is the one served and a success is counted;
    otherwise it is answered 500 when the file cannot be read and 422 when it
    is refused, a failure is counted and the runtime stays. Without the key it
    is answered 401. A GET of [/metrics] is answered with the page, or 404
    when metrics are off, and everything else 404. None of these is counted or
    touches the runtime. *)
Theorem reload_is_atomic_and_keyed metrics rendered key file keys env req (shared : Runtime W) :
  let '((code, msg), shared', counted) :=
    service resolver roots ca metrics rendered key file keys env req shared in
  (asks_reload req → holds_key key req →
     (∀ rt, reloads file keys env rt → code = 200%Z ∧ shared' = rt ∧ counted = Some true) ∧
     ((∀ rt, ¬ reloads file keys env rt) →
        code = (if is_ok file then 422 else 500)%Z ∧ shared' = shared ∧ counted = Some false)) ∧
  (asks_reload req → ¬ holds_key key req → code = 401%Z ∧ shared' = shared ∧ counted = None) ∧
  (scrapes req → code = (if metrics then 200 else 404)%Z ∧ (metrics = true → msg = Text rendered) ∧
     shared' = shared ∧ counted = None) ∧
  (¬ asks_reload req → ¬ scrapes req → code = 404%Z ∧ shared' = shared ∧ counted = None).
Proof.
  unfold service. destruct (bool_decide_reflect (asks_reload req)) as [Ha|Ha].
  - pose proof Ha as [Hm Hp]. rewrite Hm, Hp. cbn [bool_decide andb negb orb].
    assert (¬ scrapes req) as Hs by (intros [Hm' _]; by rewrite Hm in Hm').
    pose proof (authorized_holds_key key req) as Hk.
    destruct (match _ ≫= _ with Some _ => _ | None => _ end); cbn [negb].
    + pose proof (reload_outcome file keys shared env) as Hr.
      destruct (reload resolver roots ca file keys shared env) as [[[code msg] rt'] ok].
      assert (holds_key key req) as Hh by (by apply Hk).
      split; [|by split_and!; intros]. intros _ _.
      destruct Hr as [(rt & Hrt & -> & -> & ->)|(Hno & -> & -> & ->)]; split; try done.
      * intros rt2 H2. by rewrite (reloads_det _ _ _ _ _ H2 Hrt).
      * intros Hno. by destruct (Hno rt).
      * intros rt H. by destruct (Hno rt).
    + assert (¬ holds_key key req) as Hh by (by intros ?%Hk). by split_and!; intros.
  - destruct (bool_decide_reflect (scrapes req)) as [Hs|Hs].
    + pose proof Hs as [Hm Hp]. rewrite Hm, Hp. cbn [bool_decide andb]. destruct metrics; cbn [negb]; by split_and!; intros.
    + assert ((rq_method req ≟ "GET"%bs) && (uri_path (rq_uri req) ≟ "/metrics"%bs) = false) as ->.
      { apply not_true_is_false. intros [H1%bool_decide_eq_true H2%bool_decide_eq_true]%andb_true_iff. by apply Hs. }
      assert (negb (rq_method req ≟ "POST"%bs) || negb (uri_path (rq_uri req) ≟ "/v1/reload"%bs) = true) as ->.
      { rewrite <- negb_andb. apply negb_true_iff, not_true_is_false.
        intros [H1%bool_decide_eq_true H2%bool_decide_eq_true]%andb_true_iff. by apply Ha. }
      by split_and!; intros.
Qed.

End guarantees.

(** ** An example *)

Definition reload_request (token : bytes) : HttpRequest :=
  {| rq_method := "POST"%bs;
     rq_uri := {| uri_path := "/v1/reload"%bs; uri_query := None; uri_authority := None |};
     rq_headers := [("authorization"%bs, "Bearer "%bs ++ token)]; rq_body := [] |}.

Definition ex_service (token : bytes) : (Z * message) * Runtime nat * option bool :=
  service (YF := plain_yaml) (HY := echo_hyper) ex_resolver (Ok tt) (fun _ => Ok tt) true [] "k3y"%bs (Ok [])
    (listen ex_config) (fun _ => None) (reload_request token) no_runtime.

(** Before the key is checked nothing is read: the file is the empty one of
    the example, whose runtime is taken over with the right key only. *)
Lemma reload_is_atomic_and_keyed_witness :
  (ex_service "k3y"%bs).2 = Some true ∧ (ex_service "wrong"%bs).1.1.1 = 401%Z.
Proof.
  split; [vm_compute; reflexivity|].
  pose proof (reload_is_atomic_and_keyed (YF := plain_yaml) (HY := echo_hyper) ex_resolver (Ok tt) (fun _ => Ok tt)
    true [] "k3y"%bs (Ok []) (listen ex_config) (fun _ => None) (reload_request "wrong"%bs) no_runtime) as H.
  unfold ex_service. destruct (service _ _ _ _ _ _ _ _ _ _ _) as [[[code msg] rt] counted].
  destruct H as (_ & H & _). apply H; [split; reflexivity|]. vm_compute. discriminate.
Defined.
