(* ===== verification/Serial.v ===== *)
(** * Serial numbers of minted leaves ([hematite-proxy/src/tls.rs])

    [SigningCa::next_serial] is a xorshift generator on 64 bits, said not to
    repeat.  The step is linear over bits, so its powers are evaluated as
    polynomials modulo its characteristic polynomial; that the period is
    2^64 - 1 from every seed but zero then follows from the factors of that
    number. *)

From Stdlib Require Import Zdivisibility.
From S2P Require Import Prelude.

(** The xorshift step on [u64]: a left shift loses the bits shifted out. *)
Definition xorshift (x : Z) : Z :=
  let x := Z.lxor x (Z.shiftl x 13 mod 2 ^ 64) in
  let x := Z.lxor x (Z.shiftr x 7) in
  Z.lxor x (Z.shiftl x 17 mod 2 ^ 64).

(** [next_serial]: the serial's eight bytes, and the seed for the next. *)
Definition next_serial (seed : Z) : bytes * Z :=
  let x := xorshift seed in
  (to_be32 (x / 2 ^ 32) ++ to_be32 x, x).

(** The serials from a seed on, in order. *)
Definition nth_seed (seed : Z) (n : nat) : Z := Nat.iter n (fun s => (next_serial s).2) seed.
Definition nth_serial (seed : Z) (n : nat) : bytes := (next_serial (nth_seed seed n)).1.

(** ** Linearity *)

Definition u64 (x : Z) : Prop := (0 <= x < 2 ^ 64)%Z.

Lemma u64_bits x : u64 x ↔ (0 <= x)%Z ∧ ∀ i, (64 <= i)%Z → Z.testbit x i = false.
Proof.
  split.
  - intros [H0 H1]. split; [done|]. intros i Hi. apply Z.bits_above_log2; [done|].
    destruct (Z.eq_dec x 0) as [->|]; [simpl; lia|]. apply Z.log2_lt_pow2; [lia|].
    eapply Z.lt_le_trans; [exact H1|]. by apply Z.pow_le_mono_r.
  - intros [H0 Hb]. split; [done|]. destruct (Z.eq_dec x 0) as [->|]; [lia|].
    apply Z.log2_lt_pow2; [lia|]. destruct (Z.lt_ge_cases (Z.log2 x) 64); [done|].
    specialize (Hb (Z.log2 x) ltac:(lia)). by rewrite (Z.bit_log2 x ltac:(lia)) in Hb.
Qed.

Lemma u64_lxor x y : u64 x → u64 y → u64 (Z.lxor x y).
Proof.
  rewrite !u64_bits. intros [Hx Bx] [Hy By]. split; [by apply Z.lxor_nonneg|].
  intros i Hi. by rewrite Z.lxor_spec, Bx, By.
Qed.

Lemma mod_pow2_bits z i : (0 <= i)%Z → Z.testbit (z mod 2 ^ 64) i = (i <? 64)%Z && Z.testbit z i.
Proof.
  intros Hi. destruct (Z.ltb_spec i 64); [by rewrite Z.mod_pow2_bits_low|by rewrite Z.mod_pow2_bits_high].
Qed.

Lemma shl_linear k x y :
  (Z.shiftl (Z.lxor x y) k mod 2 ^ 64 = Z.lxor (Z.shiftl x k mod 2 ^ 64) (Z.shiftl y k mod 2 ^ 64))%Z.
Proof.
  apply Z.bits_inj'. intros i Hi. rewrite Z.lxor_spec, !mod_pow2_bits, Z.shiftl_lxor, Z.lxor_spec by done.
  by destruct (i <? 64)%Z.
Qed.

Lemma lxor_swap a b c d : Z.lxor (Z.lxor a b) (Z.lxor c d) = Z.lxor (Z.lxor a c) (Z.lxor b d).
Proof. rewrite !Z.lxor_assoc. f_equal. rewrite <- !Z.lxor_assoc. f_equal. apply Z.lxor_comm. Qed.

Lemma xorshift_linear x y : xorshift (Z.lxor x y) = Z.lxor (xorshift x) (xorshift y).
Proof.
  unfold xorshift. rewrite shl_linear, (lxor_swap x y), Z.shiftr_lxor, lxor_swap, shl_linear, lxor_swap. done.
Qed.

Lemma xorshift_zero : xorshift 0 = 0%Z.
Proof. reflexivity. Qed.

Lemma u64_mod z : u64 (z mod 2 ^ 64).
Proof. apply Z.mod_pos_bound. lia. Qed.

Lemma xorshift_u64 x : u64 x → u64 (xorshift x).
Proof.
  intros Hx. unfold xorshift. pose proof (u64_lxor _ _ Hx (u64_mod (Z.shiftl x 13))) as H1.
  assert (u64 (Z.shiftr (Z.lxor x (Z.shiftl x 13 mod 2 ^ 64)) 7)) as H2.
  { rewrite Z.shiftr_div_pow2 by lia. destruct H1 as [H1 H1']. split; [apply Z.div_pos; lia|].
    apply Z.div_lt_upper_bound; lia. }
  apply u64_lxor; [by apply u64_lxor|apply u64_mod].
Qed.

(** ** Polynomials in the step *)

(** A polynomial over bits, evaluated at the step and applied. *)
Fixpoint eval_pos (p : positive) (x : Z) : Z :=
  match p with
  | xH => x
  | xO p => eval_pos p (xorshift x)
  | xI p => Z.lxor x (eval_pos p (xorshift x))
  end.

Definition eval (q : N) (x : Z) : Z := match q with N0 => 0%Z | Npos p => eval_pos p x end.

Lemma eval_double q x : eval (N.double q) x = eval q (xorshift x).
Proof. by destruct q. Qed.

Lemma eval_succ_double q x : eval (N.succ_double q) x = Z.lxor x (eval q (xorshift x)).
Proof. destruct q; [simpl; by rewrite Z.lxor_0_r|done]. Qed.

Lemma eval_linear q x y : eval q (Z.lxor x y) = Z.lxor (eval q x) (eval q y).
Proof.
  destruct q as [|p]; [done|]. simpl. revert x y. induction p as [p IH|p IH|]; intros x y; simpl; [| |done].
  - rewrite xorshift_linear, IH. apply lxor_swap.
  - by rewrite xorshift_linear, IH.
Qed.

Lemma eval_zero q : eval q 0 = 0%Z.
Proof. pose proof (eval_linear q 0 0) as H. change (Z.lxor 0 0) with 0%Z in H.
  by rewrite Z.lxor_nilpotent in H.
Qed.

Lemma eval_step q x : eval q (xorshift x) = xorshift (eval q x).
Proof.
  destruct q as [|p]; [done|]. simpl. revert x. induction p as [p IH|p IH|]; intros x; simpl; [| |done].
  - by rewrite xorshift_linear, IH.
  - by rewrite IH.
Qed.

Lemma eval_u64 q x : u64 x → u64 (eval q x).
Proof.
  destruct q as [|p]; [done|]. simpl. revert x. induction p as [p IH|p IH|]; intros x Hx; simpl; [| |done].
  - apply u64_lxor; [done|]. by apply IH, xorshift_u64.
  - by apply IH, xorshift_u64.
Qed.

Lemma eval_add a b x : eval (N.lxor a b) x = Z.lxor (eval a x) (eval b x).
Proof.
  destruct a as [|p]; [done|]. destruct b as [|q]; [simpl; by rewrite Z.lxor_0_r|]. revert q x.
  induction p as [p IH|p IH|]; intros [q|q|] x.
  - change (N.lxor _ _) with (N.double (N.lxor (N.pos p) (N.pos q))). rewrite eval_double, IH. simpl.
    by rewrite lxor_swap, Z.lxor_nilpotent, Z.lxor_0_l.
  - change (N.lxor _ _) with (N.succ_double (N.lxor (N.pos p) (N.pos q))). rewrite eval_succ_double, IH. simpl.
    by rewrite Z.lxor_assoc.
  - simpl. by rewrite Z.lxor_comm, <- Z.lxor_assoc, Z.lxor_nilpotent.
  - change (N.lxor _ _) with (N.succ_double (N.lxor (N.pos p) (N.pos q))). rewrite eval_succ_double, IH. simpl.
    rewrite <- !Z.lxor_assoc. f_equal. apply Z.lxor_comm.
  - change (N.lxor _ _) with (N.double (N.lxor (N.pos p) (N.pos q))). by rewrite eval_double, IH.
  - simpl. apply Z.lxor_comm.
  - simpl. by rewrite <- Z.lxor_assoc, Z.lxor_nilpotent.
  - done.
  - simpl. by rewrite Z.lxor_nilpotent.
Qed.

(** *** Modulo the characteristic polynomial *)

Definition CHAR : N := 18536486914334208513.

(** Multiplication by the variable, by a polynomial, and powers. *)
Definition times_t (r : N) : N :=
  let r := N.double r in if N.testbit r 64 then N.lxor r CHAR else r.

Fixpoint mul_pos (a : positive) (b : N) : N :=
  match a with
  | xH => b
  | xO a => times_t (mul_pos a b)
  | xI a => N.lxor b (times_t (mul_pos a b))
  end.

Definition mul (a b : N) : N := match a with N0 => N0 | Npos a => mul_pos a b end.

Fixpoint pow_pos (a : N) (n : positive) : N :=
  match n with
  | xH => a
  | xO n => pow_pos (mul a a) n
  | xI n => mul a (pow_pos (mul a a) n)
  end.

(** A linear map that is zero on the powers of two is zero. *)
Lemma linear_zero (g : Z → Z) n :
  (∀ x y, g (Z.lxor x y) = Z.lxor (g x) (g y)) → g 0%Z = 0%Z →
  (∀ i, i < n → g (2 ^ Z.of_nat i)%Z = 0%Z) → ∀ x, (0 <= x < 2 ^ Z.of_nat n)%Z → g x = 0%Z.
Proof.
  intros Hlin H0. induction n as [|n IH]; intros Hb x Hx.
  { by replace x with 0%Z by (simpl in Hx; lia). }
  destruct (Z.lt_ge_cases x (2 ^ Z.of_nat n)) as [Hlt|Hge]; [apply IH; [intros; apply Hb; lia|lia]|].
  rewrite Nat2Z.inj_succ, Z.pow_succ_r in Hx by lia.
  assert (x = Z.lxor (2 ^ Z.of_nat n) (x - 2 ^ Z.of_nat n))%Z as ->.
  { rewrite <- Z.add_nocarry_lxor; [lia|]. apply Z.bits_inj'. intros i Hi. rewrite Z.land_spec, Z.bits_0.
    destruct (Z.eq_dec i (Z.of_nat n)) as [->|Hne]; [|by rewrite Z.pow2_bits_false by lia].
    rewrite (proj2 (Z.testbit_false (x - 2 ^ Z.of_nat n) _ Hi)); [apply andb_false_r|].
    by rewrite Z.div_small by lia. }
  rewrite Hlin, Hb, IH; [done|intros; apply Hb; lia|lia|lia].
Qed.

(** The step with masks in place of divisions, to evaluate. *)
Definition xorshift_mask (x : Z) : Z :=
  let mask := 18446744073709551615%Z in
  let x := Z.lxor x (Z.land (Z.shiftl x 13) mask) in
  let x := Z.lxor x (Z.shiftr x 7) in
  Z.lxor x (Z.land (Z.shiftl x 17) mask).

Lemma xorshift_mask_eq x : xorshift_mask x = xorshift x.
Proof. unfold xorshift_mask. change 18446744073709551615%Z with (Z.ones 64). by rewrite !Z.land_ones by lia. Qed.

Fixpoint eval_mask (p : positive) (x : Z) : Z :=
  match p with
  | xH => x
  | xO p => eval_mask p (xorshift_mask x)
  | xI p => Z.lxor x (eval_mask p (xorshift_mask x))
  end.

Lemma eval_mask_eq p x : eval_mask p x = eval_pos p x.
Proof. revert x. induction p as [p IH|p IH|]; intros x; simpl; by rewrite ?IH, ?xorshift_mask_eq. Qed.

Lemma char_on_basis :
  forallb (fun i => (eval_mask 18536486914334208513 (2 ^ Z.of_nat i) =? 0)%Z) (seq 0 64) = true.
Proof. vm_compute. reflexivity. Qed.

(** Cayley-Hamilton. *)
Lemma char_annihilates x : u64 x → eval CHAR x = 0%Z.
Proof.
  intros Hx. apply (linear_zero (eval CHAR) 64); [apply eval_linear|apply eval_zero| |exact Hx].
  intros i Hi. change (eval CHAR ?x) with (eval_pos 18536486914334208513 x). rewrite <- eval_mask_eq. apply Z.eqb_eq.
  pose proof char_on_basis as H. rewrite forallb_forall in H. apply (H i), in_seq. lia.
Qed.

Lemma eval_times_t r x : u64 x → eval (times_t r) x = eval r (xorshift x).
Proof.
  intros Hx. unfold times_t. cbv zeta. case_match; [|apply eval_double].
  by rewrite eval_add, eval_double, char_annihilates, Z.lxor_0_r.
Qed.

Lemma eval_mul a b x : u64 x → eval (mul a b) x = eval a (eval b x).
Proof.
  destruct a as [|p]; [done|]. simpl. revert x. induction p as [p IH|p IH|]; intros x Hx; simpl; [| |done].
  - by rewrite eval_add, eval_times_t, IH, eval_step by (done || by apply xorshift_u64).
  - by rewrite eval_times_t, IH, eval_step by (done || by apply xorshift_u64).
Qed.

Lemma iter_square (g : Z → Z) n x : Pos.iter (fun y => g (g y)) x n = Pos.iter g x n~0.
Proof.
  revert x. induction n as [|n IH] using Pos.peano_ind; intros x; [done|].
  replace (Pos.succ n)~0%positive with (Pos.succ (Pos.succ n~0)) by lia.
  by rewrite !Pos.iter_succ, IH.
Qed.

Lemma iter_ext_u64 (g h : Z → Z) n x :
  (∀ y, u64 y → g y = h y) → (∀ y, u64 y → u64 (g y)) → u64 x →
  Pos.iter g x n = Pos.iter h x n ∧ u64 (Pos.iter g x n).
Proof.
  intros He Hu Hx. induction n as [|n [IH1 IH2]] using Pos.peano_ind; [simpl; auto|].
  rewrite !Pos.iter_succ, <- IH1. split; auto.
Qed.

Lemma eval_pow a n x : u64 x → eval (pow_pos a n) x = Pos.iter (eval a) x n.
Proof.
  revert a x. induction n as [n IH|n IH|]; intros a x Hx; cbn [pow_pos]; [| |done].
  - rewrite eval_mul, IH by done. rewrite Pos.xI_succ_xO, Pos.iter_succ. f_equal. rewrite <- iter_square.
    apply (iter_ext_u64 (eval (mul a a))); [intros; by apply eval_mul|intros; by apply eval_u64|done].
  - rewrite IH by done. rewrite <- iter_square.
    apply (iter_ext_u64 (eval (mul a a))); [intros; by apply eval_mul|intros; by apply eval_u64|done].
Qed.

(** ** The period *)

Definition PERIOD : positive := 18446744073709551615.
Definition FACTORS : list positive := [3; 5; 17; 257; 641; 65537; 6700417]%positive.

Lemma FACTORS_product : fold_right Pos.mul 1%positive FACTORS = PERIOD.
Proof. reflexivity. Qed.

(** The variable has order dividing the period, and no quotient of the period
    by a factor is an exponent of it: the difference is a unit. *)
Lemma t_power_period : pow_pos 2 PERIOD = 1%N.
Proof. vm_compute. reflexivity. Qed.

Lemma t_power_factors :
  forallb (fun p => pow_pos (N.lxor (pow_pos 2 (Z.to_pos (Z.pos PERIOD / Z.pos p))) 1) PERIOD =? 1)%N
    FACTORS = true.
Proof. vm_compute. reflexivity. Qed.

Lemma iter_xorshift_pow n x : u64 x → Pos.iter xorshift x n = eval (pow_pos 2 n) x.
Proof. intros Hx. by rewrite eval_pow. Qed.

Lemma iter_Npos n x : N.iter (Npos n) xorshift x = Pos.iter xorshift x n.
Proof. reflexivity. Qed.

(** From [x] the step comes back after [n] turns. *)
Definition returns (x : Z) (n : N) : Prop := N.iter n xorshift x = x.

Lemma returns_period x : u64 x → returns x (Npos PERIOD).
Proof. intros Hx. unfold returns. by rewrite iter_Npos, iter_xorshift_pow, t_power_period. Qed.

Lemma returns_factor x p :
  u64 x → p ∈ FACTORS → returns x (Npos (Z.to_pos (Z.pos PERIOD / Z.pos p))) → x = 0%Z.
Proof.
  intros Hx Hp Hr. pose proof t_power_factors as Hf. rewrite forallb_forall in Hf.
  specialize (Hf p (proj1 (list_elem_of_In _ _) Hp)). apply N.eqb_eq in Hf.
  unfold returns in Hr. rewrite iter_Npos, iter_xorshift_pow in Hr by done.
  set (a := N.lxor (pow_pos 2 (Z.to_pos (Z.pos PERIOD / Z.pos p))) 1) in *.
  assert (eval a x = 0%Z) as Ha by (unfold a; rewrite eval_add, Hr; simpl; apply Z.lxor_nilpotent).
  pose proof (eval_pow a PERIOD x Hx) as H. rewrite Hf in H. simpl eval in H. rewrite H.
  clear -Ha. generalize PERIOD. intros n. induction n as [|n IH] using Pos.peano_ind; [done|].
  rewrite Pos.iter_succ, IH. apply eval_zero.
Qed.

Lemma returns_add x a b : returns x a → returns x b → returns x (a + b).
Proof. unfold returns. intros Ha Hb. by rewrite N.iter_add, Hb. Qed.

Lemma returns_add_inv x a b : returns x (a + b) → returns x b → returns x a.
Proof. unfold returns. intros Hab Hb. by rewrite N.iter_add, Hb in Hab. Qed.

Lemma returns_mul x a k : returns x a → returns x (k * a).
Proof.
  intros Ha. induction k as [|k IH] using N.peano_ind; [done|].
  rewrite N.mul_succ_l. by apply returns_add.
Qed.

Lemma returns_gcd x a b : returns x a → returns x b → returns x (N.gcd a b).
Proof.
  intros Ha Hb. destruct (N.gcd_bezout a b) as [(u & v & H)|(u & v & H)];
    (eapply returns_add_inv; [rewrite <- H; by apply returns_mul|by apply returns_mul]).
Qed.

(** *** The factors are prime *)

Fixpoint no_divisor (p : Z) (k : nat) : bool :=
  match k with
  | 0 | 1 => true
  | S k' => negb (p mod Z.of_nat k =? 0)%Z && no_divisor p k'
  end.

Lemma no_divisor_spec p k d : no_divisor p k = true → (1 < d <= Z.of_nat k)%Z → ¬ (d | p)%Z.
Proof.
  induction k as [|[|k] IH]; intros H Hd; [lia..|]. cbn [no_divisor] in H.
  apply andb_true_iff in H as [Hn H]. destruct (Z.eq_dec d (Z.of_nat (S (S k)))) as [->|Hne].
  - intros Hdiv. apply Z.mod_divide in Hdiv; [|lia]. by rewrite Hdiv in Hn.
  - apply IH; [done|lia].
Qed.

Lemma prime_by_trial p k :
  (1 < p)%Z → (p < (Z.of_nat k + 1) * (Z.of_nat k + 1))%Z → no_divisor p k = true → Z.prime p.
Proof.
  intros Hp Hk Hn. split; [lia|]. intros d Hd [e He].
  destruct (Z.le_gt_cases d (Z.of_nat k)) as [Hle|Hgt].
  - apply (no_divisor_spec p k d Hn); [lia|]. by exists e.
  - assert (1 < e)%Z by nia. assert (e <= Z.of_nat k)%Z by nia.
    apply (no_divisor_spec p k e Hn); [lia|]. exists d. lia.
Qed.

Lemma FACTORS_prime p : p ∈ FACTORS → Z.prime (Z.pos p).
Proof.
  intros Hp. unfold FACTORS in Hp. rewrite !elem_of_cons, elem_of_nil in Hp.
  destruct Hp as [->|[->|[->|[->|[->|[->|[->|[]]]]]]]].
  - by apply (prime_by_trial 3 1).
  - by apply (prime_by_trial 5 2).
  - by apply (prime_by_trial 17 4).
  - by apply (prime_by_trial 257 16).
  - by apply (prime_by_trial 641 25).
  - by apply (prime_by_trial 65537 256).
  - by apply (prime_by_trial 6700417 2588); vm_compute.
Qed.

(** A divisor of the period other than one shares a factor with it. *)
Lemma period_divisor q : (1 < q)%Z → (q | Z.pos PERIOD)%Z → ∃ p, p ∈ FACTORS ∧ (Z.pos p | q)%Z.
Proof.
  intros Hq Hdiv. destruct (existsb (fun p => q mod Z.pos p =? 0)%Z FACTORS) eqn:E.
  - apply existsb_exists in E as (p & Hp & Hm%Z.eqb_eq). exists p.
    split; [by apply list_elem_of_In|]. by apply Z.mod_divide.
  - exfalso. assert (∀ p, p ∈ FACTORS → Z.coprime (Z.pos p) q) as Hall.
    { intros p Hp. apply Z.coprime_prime_l; [by apply FACTORS_prime|]. intros Hd%Z.mod_divide; [|done].
      rewrite (proj2 (existsb_exists _ FACTORS)) in E; [done|]. exists p.
      split; [by apply list_elem_of_In|]. by apply Z.eqb_eq. }
    assert (Z.coprime (Z.pos (fold_right Pos.mul 1%positive FACTORS)) q) as Hrel.
    { revert Hall. generalize FACTORS. intros ps. induction ps as [|p ps IH]; intros Hall; [apply Z.coprime_1_l|].
      simpl. rewrite Pos2Z.inj_mul. apply Z.coprime_mul_l; [apply Hall; left|apply IH; intros; apply Hall; by right]. }
    rewrite FACTORS_product in Hrel. unfold Z.coprime in Hrel.
    pose proof (Z.gcd_greatest _ _ _ Hdiv (Z.divide_refl q)) as Hg. rewrite Hrel in Hg.
    apply Z.divide_1_r_nonneg in Hg; lia.
Qed.

(** From a seed other than zero, no shorter way round. *)
Lemma no_early_return x d : u64 x → x ≠ 0%Z → (0 < d < Npos PERIOD)%N → ¬ returns x d.
Proof.
  intros Hx Hx0 Hd Hr. pose proof (returns_gcd x d _ Hr (returns_period x Hx)) as Hg.
  set (g := N.gcd d (Npos PERIOD)) in *.
  destruct (N.gcd_divide_r d (Npos PERIOD)) as [q Hq]. fold g in Hq.
  assert (g <= d)%N as Hgd.
  { apply N.divide_pos_le; [lia|]. apply N.gcd_divide_l. }
  destruct (period_divisor (Z.of_N q)) as (p & Hp & r & Hr').
  { assert (q ≠ 0 ∧ q ≠ 1)%N by (split; intros ->; lia). lia. }
  { exists (Z.of_N g). change (Z.pos PERIOD) with (Z.of_N (Npos PERIOD)). rewrite Hq. lia. }
  apply Hx0, (returns_factor x p Hx Hp).
  assert (Z.pos PERIOD / Z.pos p = r * Z.of_N g)%Z as E.
  { change (Z.pos PERIOD) with (Z.of_N (Npos PERIOD)). rewrite Hq, N2Z.inj_mul, Hr'.
    rewrite <- Z.mul_assoc, (Z.mul_comm (Z.pos p)), Z.mul_assoc. apply Z.div_mul. lia. }
  assert (0 < r)%Z as Hr0 by (assert (q ≠ 0)%N by (intros ->; lia); nia).
  rewrite E. replace (Npos (Z.to_pos (r * Z.of_N g))) with (Z.to_N r * g)%N; [by apply returns_mul|].
  assert (0 < Z.of_N g)%Z by (destruct g; [simpl in Hq; lia|lia]).
  apply N2Z.inj. rewrite N2Z.inj_mul, Z2N.id by lia. simpl. rewrite Z2Pos.id by nia. done.
Qed.

(** Turns before and after coming back. *)
Lemma iter_nat n x : Nat.iter n xorshift x = N.iter (N.of_nat n) xorshift x.
Proof.
  induction n as [|n IH]; [done|]. rewrite Nat2N.inj_succ, N.iter_succ, <- IH. done.
Qed.

Lemma iter_u64 n x : u64 x → u64 (N.iter n xorshift x).
Proof. intros Hx. induction n as [|n IH] using N.peano_ind; [done|]. rewrite N.iter_succ. by apply xorshift_u64. Qed.

Lemma iter_zero n : N.iter n xorshift 0%Z = 0%Z.
Proof. induction n as [|n IH] using N.peano_ind; [done|]. by rewrite N.iter_succ, IH. Qed.

Lemma iter_not_zero n x : u64 x → x ≠ 0%Z → N.iter n xorshift x ≠ 0%Z.
Proof.
  intros Hx Hx0 H. apply Hx0.
  pose proof (returns_mul x _ n (returns_period x Hx)) as Hr. unfold returns in Hr.
  replace (n * Npos PERIOD)%N with ((n * Npos PERIOD - n) + n)%N in Hr by (unfold PERIOD; lia).
  rewrite N.iter_add, H, iter_zero in Hr. done.
Qed.

Lemma nth_seed_iter seed n : nth_seed seed n = N.iter (N.of_nat n) xorshift seed.
Proof. rewrite <- iter_nat. done. Qed.

(** The bytes determine the number. *)
Lemma be32_inj a b : (0 <= a < 2 ^ 32)%Z → (0 <= b < 2 ^ 32)%Z → to_be32 a = to_be32 b → a = b.
Proof.
  intros Ha Hb H. unfold to_be32 in H. injection H as H1 H2 H3 H4.
  apply (f_equal b2z) in H1, H2, H3, H4. rewrite !b2z_z2b in H1, H2, H3, H4.
  Z.to_euclidean_division_equations. lia.
Qed.

Lemma serial_inj a b : u64 a → u64 b →
  to_be32 (a / 2 ^ 32) ++ to_be32 a = to_be32 (b / 2 ^ 32) ++ to_be32 b → a = b.
Proof.
  intros Ha Hb [Hh Hl]%app_inj_1; [|done]. unfold u64 in *.
  assert (∀ z, to_be32 z = to_be32 (z mod 2 ^ 32)) as Hm.
  { intros z. unfold to_be32.
    f_equal; [|f_equal; [|f_equal; [|f_equal]]]; apply b2z_inj; rewrite !b2z_z2b; Z.to_euclidean_division_equations; lia. }
  rewrite (Hm a), (Hm b) in Hl. apply be32_inj in Hh, Hl; Z.to_euclidean_division_equations; lia.
Qed.

(** From every seed but zero, no two of 2^64 - 1 serials in a row are equal. *)
Lemma nth_serial_distinct seed i j :
  (0 < seed < 2 ^ 64)%Z → i < j → (Z.of_nat (j - i) < 2 ^ 64 - 1)%Z → nth_serial seed i ≠ nth_serial seed j.
Proof.
  intros Hseed Hij Hd Heq. assert (u64 seed) as Hu by (unfold u64; lia).
  set (y := N.iter (N.of_nat (S i)) xorshift seed).
  apply (no_early_return y (N.of_nat (j - i))).
  - by apply iter_u64.
  - apply iter_not_zero; [done|lia].
  - unfold PERIOD. lia.
  - unfold returns, y. rewrite <- N.iter_add. replace (N.of_nat (j - i) + N.of_nat (S i))%N with (N.of_nat (S j)) by lia.
    unfold nth_serial, next_serial in Heq. simpl in Heq. rewrite !nth_seed_iter, <- !N.iter_succ, <- !Nat2N.inj_succ in Heq.
    symmetry. by apply serial_inj; [apply iter_u64..|].
Qed.
