(* ===== verification/Tls.v ===== *)
(** * The signing authority ([hematite-proxy/src/tls.rs])

    Reading the CA's certificate from PEM, and what is put in a minted leaf.
    Keys, signatures and DER are the class [Rcgen]. *)

From Stdlib Require Import Sorting.Sorted.
From S2P Require Import Prelude Utf8 Net Summary Codec Serial.

Definition TlsError : Type := message.
Definition display_tls_error (e : TlsError) : message := Fmt "tls: {}"%bs [e].

(** ** The CA's certificate *)

Definition BEGIN_CERT : bytes := "-----BEGIN CERTIFICATE-----"%bs.
Definition END_CERT : bytes := "-----END CERTIFICATE-----"%bs.

Definition pem_cert_to_der (pem : bytes) : result bytes TlsError :=
  let? start := ok_or (find_sub BEGIN_CERT pem) (Text "ca_cert PEM has no CERTIFICATE block"%bs) in
  let after := drop (start + length BEGIN_CERT) pem in
  let? end_ := ok_or (find_sub END_CERT after) (Text "ca_cert PEM CERTIFICATE block unterminated"%bs) in
  let b64 := concat (split_whitespace (take end_ after)) in
  ok_or (base64_decode b64) (Text "ca_cert PEM body is not valid base64"%bs).

(** ** Leaves *)

Inductive SanType : Type := IpAddress (ip : IpAddr) | DnsName (name : bytes).

Inductive KeyUsagePurpose : Type := DigitalSignature.
Inductive ExtendedKeyUsagePurpose : Type := ServerAuth.

(** The fields of [CertificateParams] that [mint] sets; times are nanoseconds
    since the epoch. *)
Record LeafParams : Type := {
  subject_alt_names : list SanType;
  common_name : bytes;
  is_ca : bool;
  key_usages : list KeyUsagePurpose;
  extended_key_usages : list ExtendedKeyUsagePurpose;
  serial_number : bytes;
  not_before : Z;
  not_after : Z;
}.

(** What is used of rcgen: the check of an IA5 string, a key pair, its DER,
    and the signature. *)
Class Rcgen (Key : Type) := {
  ia5_try_from : bytes → option bytes;
  generate : result Key bytes;
  signed_by : LeafParams → Key → result bytes bytes;
  serialize_key : Key → result bytes bytes;
}.

Record SigningCa : Type := { ca_der : bytes; expiry_hours : Z; serial_seed : Z }.
Record CertifiedLeaf : Type := { chain : list bytes; leaf_key : bytes }.

(** ** Loading the authority *)

(** What is used of rcgen to load a CA; its key and issuer certificate are
    part of [signed_by] afterwards. *)
Class CaFormat (CaKey CaParams : Type) := {
  key_from_pem : bytes → result CaKey bytes;
  from_ca_cert_pem : bytes → result CaParams bytes;
  self_signed : CaParams → CaKey → result unit bytes;
}.

(** The seed for a clock that is before the epoch. *)
Definition FALLBACK_SEED : Z := 1592614637.

Section load.
Context {CaKey CaParams : Type} `{CF : !CaFormat CaKey CaParams}.

(** [since_epoch] is the clock in nanoseconds, or nothing before the epoch. *)
Definition from_pem (cert_pem key_pem : bytes) (hours : Z) (since_epoch : option Z) : result SigningCa TlsError :=
  let? key := map_err (fun e => Fmt "ca key: {e}"%bs [Text e]) (key_from_pem key_pem) in
  let? params := map_err (fun e => Fmt "ca cert: {e}"%bs [Text e]) (from_ca_cert_pem cert_pem) in
  let? _ := map_err (fun e => Fmt "ca reconstruct: {e}"%bs [Text e]) (self_signed params key) in
  let? der := pem_cert_to_der cert_pem in
  let seed := match since_epoch with Some n => (n mod 2 ^ 64)%Z | None => FALLBACK_SEED end in
  Ok {| ca_der := der; expiry_hours := hours; serial_seed := seed |}.

End load.

Section mint.
Context {Key : Type} `{RC : !Rcgen Key}.

Definition leaf_san (target : bytes) : result SanType TlsError :=
  match parse_ip target with
  | Some ip => Ok (IpAddress ip)
  | None =>
      match ia5_try_from target with
      | Some n => Ok (DnsName n)
      | None => Err (Fmt "invalid dNSName: {target:?}"%bs [Text target])
      end
  end.

(** The parameters of a leaf minted at [now], and the seed afterwards; the
    seconds of its life are computed on 64 bits. (A time that is beyond the
    clock's range, which panics, is not told apart.) *)
Definition leaf_params (ca : SigningCa) (target : bytes) (now : Z) (san : SanType) : LeafParams * Z :=
  let '(serial, seed) := next_serial (serial_seed ca) in
  ({| subject_alt_names := [san]; common_name := target; is_ca := false;
      key_usages := [DigitalSignature]; extended_key_usages := [ServerAuth]; serial_number := serial;
      not_before := now - duration_from_secs 60;
      not_after := now + duration_from_secs ((expiry_hours ca * 3600) mod 2 ^ 64) |}, seed).

Definition mint (ca : SigningCa) (target : bytes) (now : Z) : result (CertifiedLeaf * LeafParams) TlsError * SigningCa :=
  match leaf_san target with
  | Err e => (Err e, ca)
  | Ok san =>
      let '(params, seed) := leaf_params ca target now san in
      let ca := {| ca_der := ca_der ca; expiry_hours := expiry_hours ca; serial_seed := seed |} in
      (let? key := map_err (fun e => Fmt "leaf keygen: {e}"%bs [Text e]) generate in
       let? leaf := map_err (fun e => Fmt "leaf sign: {e}"%bs [Text e]) (signed_by params key) in
       let? der := map_err (fun e => Fmt "leaf key der: {e}"%bs [Text e]) (serialize_key key) in
       Ok ({| chain := [leaf; ca_der ca]; leaf_key := der |}, params), ca)
  end.

(** The TLS configuration that serves a leaf: its chain and what it offers by
    ALPN; [with_single_cert] is rustls' check of chain and key. *)
Definition ALPN : list bytes := ["h2"%bs; "http/1.1"%bs].

Definition server_config (with_single_cert : list bytes → bytes → result unit bytes) (leaf : CertifiedLeaf) :
    result (list bytes * list bytes) TlsError :=
  let? _ := map_err (fun e => Fmt "server config: {e}"%bs [Text e]) (with_single_cert (chain leaf) (leaf_key leaf)) in
  Ok (chain leaf, ALPN).

End mint.

(** [CertCache::new]: a capacity of zero means a thousand. *)
Definition cache_capacity (capacity : Z) : Z := if (capacity =? 0)%Z then 1000 else capacity.

(** ** Lemmas *)

Lemma find_sub_first c needle pre post :
  c ∉ pre → find_sub (c :: needle) (pre ++ (c :: needle) ++ post) = Some (length pre).
Proof.
  intros Hc. induction pre as [|b pre IH].
  - cbn [app find_sub length]. by rewrite (proj2 (starts_with_spec _ _)) by (by exists post).
  - apply not_elem_of_cons in Hc as [Hb Hc]. specialize (IH Hc). revert IH. generalize ((c :: needle) ++ post). intros x IH.
    cbn [app find_sub length]. rewrite IH. case_match eqn:E; [|done].
    apply starts_with_spec in E as [r E]. by injection E.
Qed.

(** A byte of a PEM body. *)
Definition pem_byte (b : byte) : bool := is_ascii_ws b || is_ascii_graphic b.

Lemma ws_head_ascii b s : is_ascii_ws b = true → ws_head (b :: s) = 1.
Proof. intros H. unfold ws_head. cbn [map]. unfold is_ascii_ws, byte_in in H. by rewrite H. Qed.

Lemma split_ws_concat cur s :
  Forall (fun b => pem_byte b = true) s →
  concat (split_ws 0 cur s) = cur ++ List.filter (fun b => negb (is_ascii_ws b)) s.
Proof.
  intros Hs. revert cur. induction Hs as [|b s Hb Hs IH]; intros cur.
  - destruct cur; simpl; by rewrite ?app_nil_r.
  - cbn [split_ws List.filter]. unfold pem_byte in Hb. destruct (is_ascii_ws b) eqn:E; simpl negb; cbv iota.
    + rewrite ws_head_ascii by done. destruct cur; simpl; by rewrite IH.
    + simpl in Hb. rewrite ws_head_graphic, IH by done. by rewrite <- app_assoc.
Qed.

(** One call of [mint]: the serial it used, if it got that far. *)
Lemma mint_serial {Key} (RC : Rcgen Key) ca target now res ca' :
  mint ca target now = (res, ca') →
  (serial_seed ca' = serial_seed ca ∧ is_ok res = false) ∨
  (serial_seed ca' = nth_seed (serial_seed ca) 1 ∧
   ∀ leaf params, res = Ok (leaf, params) → serial_number params = nth_serial (serial_seed ca) 0).
Proof.
  unfold mint. destruct (leaf_san target) as [san|e]; [|intros [= <- <-]; by left].
  intros [= <- <-]. right. split; [done|]. intros leaf params.
  destruct generate as [key|]; [simpl|done]. destruct (signed_by _ key); [simpl|done].
  destruct (serialize_key key); [simpl|done]. by intros [= _ <-].
Qed.

(** A history of calls, each with its own keys and signatures. *)
Fixpoint mint_all {Key} (ca : SigningCa) (calls : list (Rcgen Key * bytes * Z)) : list LeafParams :=
  match calls with
  | [] => []
  | (RC, target, now) :: calls =>
      let '(res, ca) := mint ca target now in
      match res with
      | Ok (_, params) => params :: mint_all ca calls
      | Err _ => mint_all ca calls
      end
  end.

Lemma nth_seed_add seed a b : nth_seed (nth_seed seed a) b = nth_seed seed (a + b).
Proof. unfold nth_seed. by rewrite (Nat.add_comm a b), Nat.iter_add. Qed.

(** The leaves carry serials of the sequence, at increasing places. *)
Lemma mint_all_serials {Key} seed k ca (calls : list (Rcgen Key * bytes * Z)) :
  serial_seed ca = nth_seed seed k →
  ∃ is_, map serial_number (mint_all ca calls) = map (nth_serial seed) is_ ∧
    StronglySorted lt is_ ∧ Forall (fun i => k ≤ i < k + length calls) is_.
Proof.
  revert k ca. induction calls as [|[[RC target] now] calls IH]; intros k ca Hk; simpl.
  { exists []. by repeat constructor. }
  destruct (mint ca target now) as [res ca'] eqn:E.
  destruct (mint_serial RC _ _ _ _ _ E) as [[Hs Hr]|[Hs Hser]].
  - destruct res as [[leaf params]|e]; [done|]. destruct (IH k ca' ltac:(congruence)) as (is_ & Hi & Hsort & Hb).
    exists is_. split_and!; [done..|]. eapply Forall_impl; [exact Hb|]. simpl. lia.
  - rewrite Hk, nth_seed_add in Hs. destruct (IH (k + 1) ca' Hs) as (is_ & Hi & Hsort & Hb).
    destruct res as [[leaf params]|e].
    + exists (k :: is_). split_and!.
      * simpl. rewrite Hi. f_equal. rewrite (Hser _ _ eq_refl), Hk. unfold nth_serial. by rewrite nth_seed_add, Nat.add_0_r.
      * constructor; [done|]. eapply Forall_impl; [exact Hb|]. simpl. lia.
      * constructor; [lia|]. eapply Forall_impl; [exact Hb|]. simpl. lia.
    + exists is_. split_and!; [done..|]. eapply Forall_impl; [exact Hb|]. simpl. lia.
Qed.

(** ** Guarantees *)

(** PEM: a certificate written as PEM is read back: whatever comes before
    and after the block, and however its base64 is broken into lines. *)
Theorem pem_round_trip pre body post der :
  "-"%byte ∉ pre → "-"%byte ∉ body → Forall (fun b => pem_byte b = true) body →
  List.filter (fun b => negb (is_ascii_ws b)) body = base64_encode der →
  pem_cert_to_der (pre ++ BEGIN_CERT ++ body ++ END_CERT ++ post) = Ok der.
Proof.
  intros Hpre Hbody Hb Hf. unfold pem_cert_to_der.
  rewrite (find_sub_first "-"%byte "----BEGIN CERTIFICATE-----"%bs) by done. cbn [result_bind ok_or]. cbv zeta.
  rewrite (app_assoc pre), drop_app_length' by (by rewrite length_app).
  rewrite (find_sub_first "-"%byte "----END CERTIFICATE-----"%bs) by done. cbn [result_bind ok_or]. cbv zeta.
  rewrite take_app_length. unfold split_whitespace. rewrite split_ws_concat by done. cbn [app].
  by rewrite Hf, base64_decode_encode.
Qed.

Lemma pem_round_trip_witness :
  pem_cert_to_der ("CA"%bs ++ BEGIN_CERT ++ [Byte.x0a] ++ "aGVt"%bs ++ [Byte.x0d; Byte.x0a] ++ "YQ=="%bs ++ [Byte.x0a] ++ END_CERT ++ []) = Ok "hema"%bs.
Proof.
  apply (pem_round_trip "CA"%bs ([Byte.x0a] ++ "aGVt"%bs ++ [Byte.x0d; Byte.x0a] ++ "YQ=="%bs ++ [Byte.x0a])).
  - apply (bool_decide_unpack _). reflexivity.
  - apply (bool_decide_unpack _). reflexivity.
  - repeat constructor.
  - reflexivity.
Defined.

(** C30 (serials): the leaves of a signing authority have pairwise distinct
    serial numbers, whatever is minted and whatever fails in between: from
    every seed but zero and for fewer than 2^64 - 1 calls. *)
Theorem minted_serials_distinct {Key} ca (calls : list (Rcgen Key * bytes * Z)) :
  (0 < serial_seed ca < 2 ^ 64)%Z → (Z.of_nat (length calls) < 2 ^ 64 - 1)%Z →
  NoDup (map serial_number (mint_all ca calls)).
Proof.
  intros Hseed Hlen. destruct (mint_all_serials (serial_seed ca) 0 ca calls eq_refl) as (is_ & -> & Hsort & Hb).
  clear -Hseed Hlen Hsort Hb. induction Hsort as [|i is_ _ IH Hi]; simpl; [constructor|].
  apply Forall_cons in Hb as [Hib Hb]. constructor; [|by apply IH].
  intros (j & Hj & Hin)%list_elem_of_fmap. rewrite Forall_forall in Hi, Hb. specialize (Hi j Hin). specialize (Hb j Hin).
  apply (nth_serial_distinct (serial_seed ca) i j); [done|done|lia|done].
Qed.

(** Leaf: a minted leaf is for its target: its one subject alternative
    name is the address the target spells, or else the target as a DNS name;
    it is no CA, is for server authentication, is valid from a minute ago for
    the configured hours (as long as the seconds fit 64 bits), and is served
    with the operator's certificate behind it. *)
Theorem leaf_names_its_target {Key} (RC : Rcgen Key) ca target now leaf params ca' :
  mint ca target now = (Ok (leaf, params), ca') →
  match parse_ip target with
  | Some ip => subject_alt_names params = [IpAddress ip]
  | None => ∃ n, ia5_try_from target = Some n ∧ subject_alt_names params = [DnsName n]
  end ∧
  common_name params = target ∧ is_ca params = false ∧ extended_key_usages params = [ServerAuth] ∧
  (∃ der, chain leaf = [der; ca_der ca]) ∧
  not_before params = (now - duration_from_secs 60)%Z ∧
  ((0 <= expiry_hours ca * 3600 < 2 ^ 64)%Z → not_after params = (now + duration_from_secs (expiry_hours ca * 3600))%Z).
Proof.
  unfold mint. destruct (leaf_san target) as [san|e] eqn:Es; [|done]. intros [= H <-]. cbn [ca_der] in H.
  destruct generate as [key|]; [simpl in H|done]. destruct (signed_by _ key) as [der|]; [simpl in H|done].
  destruct (serialize_key key); [simpl in H|done]. injection H as <- <-. simpl. split_and!; try done; [| |].
  - unfold leaf_san in Es. destruct (parse_ip target); [by injection Es as <-|].
    destruct (ia5_try_from target) as [n|]; [|done]. injection Es as <-. eauto.
  - eauto.
  - intros Hh. by rewrite Z.mod_small.
Qed.

(** *** An authority to run on *)

Definition ex_rcgen : Rcgen nat := {|
  ia5_try_from s := if forallb is_ascii_graphic s then Some s else None;
  generate := Ok 7;
  signed_by p k := Ok (common_name p ++ serial_number p);
  serialize_key k := Ok "key"%bs;
|}.

Definition ex_ca : SigningCa := {| ca_der := "ca"%bs; expiry_hours := 72; serial_seed := 1 |}.

Lemma minted_serials_distinct_witness :
  NoDup (map serial_number (mint_all ex_ca [(ex_rcgen, "a.test"%bs, 0%Z); (ex_rcgen, "10.0.0.1"%bs, 5%Z)])).
Proof. apply (minted_serials_distinct ex_ca); simpl; lia. Defined.

Lemma leaf_names_its_target_witness :
  ∃ params, is_ok (mint (RC := ex_rcgen) ex_ca "a.test"%bs 0).1 = true ∧ subject_alt_names params = [DnsName "a.test"%bs].
Proof.
  destruct (mint (RC := ex_rcgen) ex_ca "a.test"%bs 0) as [[[leaf params]|e] ca'] eqn:E; [|by vm_compute in E].
  exists params. split; [reflexivity|].
  destruct (leaf_names_its_target ex_rcgen ex_ca "a.test"%bs 0 leaf params ca' E) as [(n & Hn & Hs) _].
  injection Hn as <-. exact Hs.
Defined.
