(* ===== verification/CertCache.v ===== *)
(** * The leaf certificate cache ([hematite-proxy/src/tls.rs])

    [CertCache::get] run by many tasks at once: a step is what one task does
    between taking and releasing a lock, and tasks are interleaved in any way. *)

From S2P Require Import Prelude.

(** ** The cache *)

(** What is used of the [lru] crate: a bounded map that may forget entries. *)
Class Lru (C V : Type) := {
  lru_get : bytes → C → option V * C;
  lru_put : bytes → V → C → C;
  lru_has : C → bytes → V → Prop;
}.

Class LruLaws {C V} (L : Lru C V) : Prop := {
  lru_get_has k c v c' : lru_get k c = (Some v, c') → lru_has c k v;
  lru_get_keeps k c o c' k' v : lru_get k c = (o, c') → lru_has c' k' v → lru_has c k' v;
  lru_put_has k v c k' v' : lru_has (lru_put k v c) k' v' → (k' = k ∧ v' = v) ∨ lru_has c k' v';
}.

(** Where a task is in [get]. *)
Inductive Task (V : Type) : Type :=
| Start (target : bytes)
| Missed (target : bytes)
| Minting (target : bytes) (chan : nat)
| Publishing (target : bytes) (chan : nat) (published : option V)
| Sending (target : bytes) (chan : nat) (published : option V)
| Awaiting (target : bytes) (chan : nat)
| Returned (target : bytes) (result : option V).
Arguments Start {V} target.
Arguments Missed {V} target.
Arguments Minting {V} target chan.
Arguments Publishing {V} target chan published.
Arguments Sending {V} target chan published.
Arguments Awaiting {V} target chan.
Arguments Returned {V} target result.

(** [inflight] maps a target to its channel; [sent] holds what a channel's
    sender published before it was dropped; [fresh] names the next channel. *)
Record CacheState (C V : Type) : Type := {
  lru : C;
  inflight : gmap bytes nat;
  sent : gmap nat (option V);
  fresh : nat;
  tasks : list (Task V);
  hits : nat;
  misses : nat;
}.
Arguments lru {C V} c.
Arguments inflight {C V} c.
Arguments sent {C V} c.
Arguments fresh {C V} c.
Arguments tasks {C V} c.
Arguments hits {C V} c.
Arguments misses {C V} c.

Section cache.
Context {C V : Type} `{L : !Lru C V}.
Implicit Types (s : CacheState C V) (t : Task V).

Definition with_task (i : nat) t s : CacheState C V :=
  {| lru := lru s; inflight := inflight s; sent := sent s; fresh := fresh s; tasks := <[i := t]> (tasks s);
     hits := hits s; misses := misses s |}.
Definition with_lru (c : C) s : CacheState C V :=
  {| lru := c; inflight := inflight s; sent := sent s; fresh := fresh s; tasks := tasks s;
     hits := hits s; misses := misses s |}.
Definition with_inflight (m : gmap bytes nat) s : CacheState C V :=
  {| lru := lru s; inflight := m; sent := sent s; fresh := fresh s; tasks := tasks s;
     hits := hits s; misses := misses s |}.
Definition with_sent (m : gmap nat (option V)) s : CacheState C V :=
  {| lru := lru s; inflight := inflight s; sent := m; fresh := fresh s; tasks := tasks s;
     hits := hits s; misses := misses s |}.
Definition count (hit : bool) s : CacheState C V :=
  {| lru := lru s; inflight := inflight s; sent := sent s; fresh := fresh s; tasks := tasks s;
     hits := (if hit then S else id) (hits s); misses := (if hit then id else S) (misses s) |}.
Definition with_channel s : CacheState C V :=
  {| lru := lru s; inflight := inflight s; sent := sent s; fresh := S (fresh s); tasks := tasks s;
     hits := hits s; misses := misses s |}.

(** One step of task [i]; [mint] is what minting and building the server
    configuration gives if the step does it. [None]: the task cannot move,
    it has returned or waits for a channel that is still open and empty. *)
Definition advance (i : nat) (mint : bytes → option V) s : option (CacheState C V) :=
  t ← tasks s !! i;
  match t with
  | Start target =>
      let '(hit, c) := lru_get target (lru s) in
      let s := with_lru c s in
      Some (match hit with
            | Some v => with_task i (Returned target (Some v)) (count true s)
            | None => with_task i (Missed target) s
            end)
  | Missed target =>
      let s := count false s in
      Some (match inflight s !! target with
            | Some ch => with_task i (Awaiting target ch) s
            | None =>
                let ch := fresh s in
                with_task i (Minting target ch)
                  (with_inflight (<[target := ch]> (inflight s)) (with_channel s))
            end)
  | Minting target ch =>
      let published := mint target in
      let s := match published with Some v => with_lru (lru_put target v (lru s)) s | None => s end in
      Some (with_task i (Publishing target ch published) s)
  | Publishing target ch published =>
      Some (with_task i (Sending target ch published) (with_inflight (delete target (inflight s)) s))
  | Sending target ch published =>
      Some (with_task i (Returned target published) (with_sent (<[ch := published]> (sent s)) s))
  | Awaiting target ch =>
      published ← sent s !! ch; Some (with_task i (Returned target published) s)
  | Returned _ _ => None
  end.

(** Any task takes the next step; a minted configuration is one for the
    target it was minted for. *)
Definition step (minted : bytes → V → Prop) s s' : Prop :=
  ∃ i mint, (∀ k v, mint k = Some v → minted k v) ∧ advance i mint s = Some s'.

(** The calls of [get] at the start. *)
Definition initial (c : C) (targets : list bytes) : CacheState C V :=
  {| lru := c; inflight := ∅; sent := ∅; fresh := 0; tasks := map Start targets; hits := 0; misses := 0 |}.

End cache.

(** ** The invariant *)

Section invariant.
Context {C V : Type} `{L : !Lru C V} {LL : LruLaws L} (minted : bytes → V → Prop).
Implicit Types (s : CacheState C V) (t : Task V).

(** The channel a task is to publish on. *)
Definition works t : option nat :=
  match t with Minting _ ch | Publishing _ ch _ | Sending _ ch _ => Some ch | _ => None end.

(** The entry of the in-flight map a task is responsible for. *)
Definition registers t : option (bytes * nat) :=
  match t with Minting k ch | Publishing k ch _ => Some (k, ch) | _ => None end.

(** Some task has the given value of [f]. *)
Definition has {X} (f : Task V → option X) (ts : list (Task V)) (x : X) : Prop :=
  ∃ j t, ts !! j = Some t ∧ f t = Some x.

Definition all_minted (target : bytes) (o : option V) : Prop := ∀ v, o = Some v → minted target v.

(** What is known of a task; [own] gives the target of a channel. *)
Definition task_ok (own : nat → bytes) s t : Prop :=
  match t with
  | Start _ | Missed _ => True
  | Minting k ch => own ch = k ∧ ch < fresh s ∧ inflight s !! k = Some ch ∧ sent s !! ch = None
  | Publishing k ch o =>
      own ch = k ∧ ch < fresh s ∧ inflight s !! k = Some ch ∧ sent s !! ch = None ∧ all_minted k o
  | Sending k ch o => own ch = k ∧ ch < fresh s ∧ sent s !! ch = None ∧ all_minted k o
  | Awaiting k ch => own ch = k ∧ ch < fresh s ∧ (is_Some (sent s !! ch) ∨ has works (tasks s) ch)
  | Returned k o => all_minted k o
  end.

Record inv (own : nat → bytes) s : Prop := {
  inv_tasks i t : tasks s !! i = Some t → task_ok own s t;
  inv_unique i j t t' ch :
    tasks s !! i = Some t → tasks s !! j = Some t' → works t = Some ch → works t' = Some ch → i = j;
  inv_inflight k ch : inflight s !! k = Some ch → own ch = k ∧ ch < fresh s ∧ has registers (tasks s) (k, ch);
  inv_lru k v : lru_has (lru s) k v → minted k v;
  inv_sent ch o : sent s !! ch = Some o → ch < fresh s ∧ all_minted (own ch) o;
}.

Lemma lookup_update {A} (l : list A) i x j y :
  <[i := x]> l !! j = Some y → (j = i ∧ y = x) ∨ (j ≠ i ∧ l !! j = Some y).
Proof.
  destruct (decide (i = j)) as [->|Hne].
  - intros H. destruct (decide (j < length l)) as [Hl|Hl].
    + rewrite list_lookup_insert_eq in H by done. injection H as <-. by left.
    + rewrite list_insert_ge in H by lia. rewrite lookup_ge_None_2 in H by lia. done.
  - rewrite list_lookup_insert_ne by done. by right.
Qed.

Lemma has_update {X} (f : Task V → option X) ts i t t' x :
  ts !! i = Some t → (f t = Some x → f t' = Some x) → has f ts x → has f (<[i := t']> ts) x.
Proof.
  intros Hi Hw (j & u & Hj & Hu). destruct (decide (i = j)) as [->|Hne].
  - exists j, t'. rewrite list_lookup_insert_eq by (by eapply lookup_lt_Some). split; [done|].
    apply Hw. congruence.
  - exists j, u. by rewrite list_lookup_insert_ne.
Qed.

(** A task moves without touching the shared maps and its channel. *)
Lemma inv_move own s i t t' c n m :
  inv own s → tasks s !! i = Some t → works t' = works t → registers t' = registers t →
  (∀ k v, lru_has c k v → minted k v) → task_ok own s t' →
  inv own {| lru := c; inflight := inflight s; sent := sent s; fresh := fresh s; tasks := <[i := t']> (tasks s);
             hits := n; misses := m |}.
Proof.
  intros Hinv Hi Hw Hreg Hc Ht.
  assert (∀ ch, has works (tasks s) ch → has works (<[i := t']> (tasks s)) ch) as Hk.
  { intros ch. apply (has_update _ _ _ t); [done|]. by rewrite Hw. }
  assert (∀ u, task_ok own s u → task_ok own {| lru := c; inflight := inflight s; sent := sent s; fresh := fresh s;
    tasks := <[i := t']> (tasks s); hits := n; misses := m |} u) as Hok.
  { intros [] Hu; simpl in *; try done. naive_solver. }
  split; simpl.
  - intros j u [[-> ->]|[_ Hj]]%lookup_update; apply Hok; [done|by eapply inv_tasks].
  - intros j1 j2 u1 u2 ch [[-> ->]|[_ Hj1]]%lookup_update [[-> ->]|[_ Hj2]]%lookup_update W1 W2.
    + done.
    + rewrite Hw in W1. by eapply (inv_unique _ _ Hinv).
    + rewrite Hw in W2. by eapply (inv_unique _ _ Hinv).
    + by eapply (inv_unique _ _ Hinv).
  - intros k ch H. destruct (inv_inflight _ _ Hinv _ _ H) as (? & ? & ?). split_and!; [done..|].
    apply (has_update _ _ _ t); [done|by rewrite Hreg|done].
  - done.
  - apply (inv_sent _ _ Hinv).
Qed.

(** A miss that finds no mint in flight starts one on a new channel. *)
Lemma inv_new_channel own s i k m :
  inv own s → tasks s !! i = Some (Missed k) → inflight s !! k = None →
  inv (fun ch => if decide (ch = fresh s) then k else own ch)
    {| lru := lru s; inflight := <[k := fresh s]> (inflight s); sent := sent s; fresh := S (fresh s);
       tasks := <[i := Minting k (fresh s)]> (tasks s); hits := hits s; misses := m |}.
Proof.
  intros Hinv Hi Hk. set (own' := fun ch => if decide (ch = fresh s) then k else own ch).
  assert (∀ ch, ch < fresh s → own' ch = own ch) as Hown.
  { intros ch Hch. unfold own'. rewrite decide_False by lia. done. }
  assert (own' (fresh s) = k) as Hnew by (unfold own'; by rewrite decide_True).
  assert (sent s !! fresh s = None) as Hs.
  { destruct (sent s !! fresh s) eqn:E; [|done]. apply (inv_sent _ _ Hinv) in E as [? _]. lia. }
  assert (∀ j t ch, tasks s !! j = Some t → works t = Some ch → ch < fresh s) as Hlt.
  { intros j t ch Hj Hw. pose proof (inv_tasks _ _ Hinv _ _ Hj) as Ht. destruct t; simplify_eq/=; naive_solver. }
  assert (∀ X (f : Task V → option X) x, f (Missed k) = None →
    has f (tasks s) x → has f (<[i := Minting k (fresh s)]> (tasks s)) x) as Hwk.
  { intros X f x Hf. apply (has_update _ _ _ (Missed k)); [done|]. by rewrite Hf. }
  assert (i < length (tasks s)) as Hil by (by eapply lookup_lt_Some).
  split; simpl.
  - intros j t [[-> ->]|[_ Hj]]%lookup_update.
    { simpl. split_and!; [done|lia|apply lookup_insert_eq|done]. }
    pose proof (inv_tasks _ _ Hinv _ _ Hj) as Ht.
    destruct t as [k'|k'|k' ch|k' ch o|k' ch o|k' ch|k' o]; simpl in *; try done.
    + destruct Ht as (? & ? & Hin & ?). rewrite Hown by done.
      rewrite lookup_insert_ne by congruence. split_and!; try done; lia.
    + destruct Ht as (? & ? & Hin & ? & ?). rewrite Hown by done.
      rewrite lookup_insert_ne by congruence. split_and!; try done; lia.
    + destruct Ht as (? & ? & ? & ?). rewrite Hown by done. split_and!; try done; lia.
    + destruct Ht as (? & ? & Hor). rewrite Hown by done. split_and!; [done|lia|]. destruct Hor; auto.
  - intros j1 j2 u1 u2 ch [[-> ->]|[_ Hj1]]%lookup_update [[-> ->]|[_ Hj2]]%lookup_update W1 W2; [done|..].
    + injection W1 as <-. pose proof (Hlt _ _ _ Hj2 W2). lia.
    + injection W2 as <-. pose proof (Hlt _ _ _ Hj1 W1). lia.
    + by eapply (inv_unique _ _ Hinv).
  - intros k' ch H. destruct (decide (k' = k)) as [->|Hne].
    + rewrite lookup_insert_eq in H. injection H as <-. split_and!; [done|lia|].
      exists i, (Minting k (fresh s)). by rewrite list_lookup_insert_eq.
    + rewrite lookup_insert_ne in H by done. destruct (inv_inflight _ _ Hinv _ _ H) as (? & ? & ?).
      rewrite Hown by done. split_and!; [done|lia|auto].
  - apply (inv_lru _ _ Hinv).
  - intros ch o H. apply (inv_sent _ _ Hinv) in H as [? ?]. rewrite Hown by done. split; [lia|done].
Qed.

(** The mint leaves the in-flight map. *)
Lemma inv_unflight own s i k ch o :
  inv own s → tasks s !! i = Some (Publishing k ch o) →
  inv own (with_task i (Sending k ch o) (with_inflight (delete k (inflight s)) s)).
Proof.
  intros Hinv Hi. destruct (inv_tasks _ _ Hinv _ _ Hi) as (Ho & Hf & Hin & Hs & Hm).
  assert (∀ c, has works (tasks s) c → has works (<[i := Sending k ch o]> (tasks s)) c) as Hwk.
  { intros c. by apply (has_update _ _ _ (Publishing k ch o)). }
  assert (∀ j t k' c, j ≠ i → tasks s !! j = Some t → works t = Some c → inflight s !! k' = Some c → k' ≠ k) as Hne.
  { intros j t k' c Hji Hj Hw Hk' ->. apply Hji. rewrite Hin in Hk'. injection Hk' as <-.
    by eapply (inv_unique _ _ Hinv). }
  split; simpl.
  - intros j t [[-> ->]|[Hji Hj]]%lookup_update; [by split_and!|].
    pose proof (inv_tasks _ _ Hinv _ _ Hj) as Ht.
    destruct t as [k'|k'|k' c|k' c o'|k' c o'|k' c|k' o']; simpl in *; try done.
    + destruct Ht as (? & ? & Hin' & ?). rewrite lookup_delete_ne by (symmetry; by eapply Hne). done.
    + destruct Ht as (? & ? & Hin' & ? & ?). rewrite lookup_delete_ne by (symmetry; by eapply Hne). done.
    + naive_solver.
  - intros j1 j2 u1 u2 c [[-> ->]|[_ Hj1]]%lookup_update [[-> ->]|[_ Hj2]]%lookup_update W1 W2; [done|..].
    + eapply (inv_unique _ _ Hinv); [exact Hi|exact Hj2|exact W1|exact W2].
    + eapply (inv_unique _ _ Hinv); [exact Hj1|exact Hi|exact W1|exact W2].
    + by eapply (inv_unique _ _ Hinv).
  - intros k' c [Hk' H]%lookup_delete_Some. destruct (inv_inflight _ _ Hinv _ _ H) as (? & ? & ?).
    split_and!; [done..|]. apply (has_update _ _ _ (Publishing k ch o)); [done| |done]. intros [= <- _]. done.
  - apply (inv_lru _ _ Hinv).
  - apply (inv_sent _ _ Hinv).
Qed.

(** Publishing on a channel wakes its waiters. *)
Lemma inv_publish own s i k ch o :
  inv own s → tasks s !! i = Some (Sending k ch o) →
  inv own (with_task i (Returned k o) (with_sent (<[ch := o]> (sent s)) s)).
Proof.
  intros Hinv Hi. destruct (inv_tasks _ _ Hinv _ _ Hi) as (Ho & Hf & Hs & Hm).
  assert (∀ j t c, j ≠ i → tasks s !! j = Some t → works t = Some c → c ≠ ch) as Hne.
  { intros j t c Hji Hj Hw ->. apply Hji. by eapply (inv_unique _ _ Hinv). }
  split; simpl.
  - intros j t [[-> ->]|[Hji Hj]]%lookup_update; [done|]. pose proof (inv_tasks _ _ Hinv _ _ Hj) as Ht.
    destruct t as [k'|k'|k' c|k' c o'|k' c o'|k' c|k' o']; simpl in *; try done.
    1-3: assert (c ≠ ch) by (by eapply Hne); rewrite lookup_insert_ne by done; done.
    destruct Ht as (? & ? & Hor). split_and!; [done..|].
    destruct (decide (c = ch)) as [->|Hc]; [left; by rewrite lookup_insert_eq|].
    rewrite lookup_insert_ne by done. destruct Hor as [?|Hw]; [by left|right].
    apply (has_update _ _ _ (Sending k ch o)); [done| |done]. simpl. congruence.
  - intros j1 j2 u1 u2 c [[-> ->]|[_ Hj1]]%lookup_update [[-> ->]|[_ Hj2]]%lookup_update W1 W2; try done.
    by eapply (inv_unique _ _ Hinv).
  - intros k' c H. destruct (inv_inflight _ _ Hinv _ _ H) as (? & ? & ?). split_and!; [done..|].
    by apply (has_update _ _ _ (Sending k ch o)).
  - apply (inv_lru _ _ Hinv).
  - intros c o' H. destruct (decide (c = ch)) as [->|Hc].
    + rewrite lookup_insert_eq in H. injection H as <-. split; [done|by rewrite Ho].
    + rewrite lookup_insert_ne in H by done. by apply (inv_sent _ _ Hinv).
Qed.

Lemma inv_advance own s i mint s' :
  inv own s → (∀ k v, mint k = Some v → minted k v) → advance i mint s = Some s' → ∃ own', inv own' s'.
Proof.
  intros Hinv Hmint H. unfold advance in H. destruct (tasks s !! i) as [t|] eqn:Hi; [|done]. cbn [mbind option_bind] in H.
  pose proof (inv_tasks _ _ Hinv _ _ Hi) as Ht.
  destruct t as [k|k|k ch|k ch o|k ch o|k ch|k o]; [| | | | | |done].
  - destruct (lru_get k (lru s)) as [[v|] c] eqn:Eg; injection H as <-; exists own.
    + apply (inv_move own s i (Start k)); try done.
      * intros k' v' Hv. by eapply (inv_lru _ _ Hinv), lru_get_keeps.
      * intros v' [= <-]. eapply (inv_lru _ _ Hinv), lru_get_has, Eg.
    + apply (inv_move own s i (Start k)); try done.
      intros k' v' Hv. by eapply (inv_lru _ _ Hinv), lru_get_keeps.
  - simpl in H. destruct (inflight s !! k) as [ch|] eqn:Ek; injection H as <-.
    + exists own. apply (inv_move own s i (Missed k)); try done; [apply (inv_lru _ _ Hinv)|].
      destruct (inv_inflight _ _ Hinv _ _ Ek) as (? & ? & j & u & Hj & Hu). split_and!; [done..|]. right.
      exists j, u. split; [done|]. destruct u; by simplify_eq/=.
    + eexists. exact (inv_new_channel own s i k (S (misses s)) Hinv Hi Ek).
  - simpl in Ht. destruct Ht as (? & ? & ? & ?).
    assert (task_ok own s (Publishing k ch (mint k))) as Hp by (split_and!; try done; intros v; apply Hmint).
    exists own. destruct (mint k) as [v|] eqn:Em; injection H as <-; apply (inv_move own s i (Minting k ch)); try done.
    + intros k' v' [[-> ->]|Hv]%lru_put_has; [by apply Hmint|by apply (inv_lru _ _ Hinv)].
    + apply (inv_lru _ _ Hinv).
  - injection H as <-. exists own. by apply inv_unflight.
  - injection H as <-. exists own. by apply inv_publish.
  - destruct (sent s !! ch) as [o|] eqn:Es; [|done]. injection H as <-. exists own.
    apply (inv_move own s i (Awaiting k ch)); try done; [apply (inv_lru _ _ Hinv)|].
    destruct (inv_sent _ _ Hinv _ _ Es) as [_ Hm]. destruct Ht as (<- & _). done.
Qed.

Lemma inv_initial (c : C) targets : (∀ k v, lru_has c k v → minted k v) → inv (fun _ => []) (initial c targets).
Proof.
  intros Hc. split; simpl.
  - intros i t Hi. rewrite list_lookup_fmap in Hi. by destruct (targets !! i); simplify_eq/=.
  - intros i j t t' ch Hi. rewrite list_lookup_fmap in Hi. by destruct (targets !! i); simplify_eq/=.
  - intros k ch H. by rewrite lookup_empty in H.
  - done.
  - intros ch o H. by rewrite lookup_empty in H.
Qed.

Lemma inv_reachable (c : C) targets s :
  (∀ k v, lru_has c k v → minted k v) → rtc (step minted) (initial c targets) s → ∃ own, inv own s.
Proof.
  intros Hc Hr. revert Hr. apply (rtc_ind_r (fun s => ∃ own, inv own s)).
  - eexists. by apply inv_initial.
  - intros s1 s2 _ (i & mint & Hm & Ha) [own Hinv]. by eapply inv_advance.
Qed.

(** *** Progress *)

Definition task_target t : bytes :=
  match t with
  | Start k | Missed k | Minting k _ | Publishing k _ _ | Sending k _ _ | Awaiting k _ | Returned k _ => k
  end.

Definition returned t : bool := match t with Returned _ _ => true | _ => false end.

(** The steps a task has left at most, and whether it was counted. *)
Definition weight t : nat :=
  match t with
  | Start _ => 5 | Missed _ => 4 | Minting _ _ => 3 | Publishing _ _ _ => 2
  | Sending _ _ _ | Awaiting _ _ => 1 | Returned _ _ => 0
  end.
Definition uncounted t : nat := match t with Start _ | Missed _ => 1 | _ => 0 end.

Lemma sum_list_update (f : Task V → nat) ts i t t' :
  ts !! i = Some t → sum_list_with f (<[i := t']> ts) + f t = sum_list_with f ts + f t'.
Proof.
  revert i. induction ts as [|u ts IH]; intros [|i] H; simplify_eq/=; [lia|]. specialize (IH _ H). lia.
Qed.

(** A step changes the one task, in these ways. *)
Lemma advance_task s i mint s' :
  advance i mint s = Some s' → ∃ t t', tasks s !! i = Some t ∧ tasks s' = <[i := t']> (tasks s) ∧
    task_target t' = task_target t ∧ weight t' < weight t ∧
    hits s' + misses s' + uncounted t' = hits s + misses s + uncounted t.
Proof.
  unfold advance. intros H. destruct (tasks s !! i) as [t|] eqn:Hi; [|done]. cbn [mbind option_bind] in H.
  exists t. destruct t as [k|k|k ch|k ch o|k ch o|k ch|k o]; [| | | | | |done].
  - destruct (lru_get k (lru s)) as [[v|] c]; injection H as <-; eexists; (split_and!; [done..|simpl; lia|simpl; lia]).
  - simpl in H. destruct (inflight s !! k) as [ch|]; injection H as <-; eexists; (split_and!; [done..|simpl; lia|simpl; lia]).
  - destruct (mint k); injection H as <-; eexists; (split_and!; [done..|simpl; lia|simpl; lia]).
  - injection H as <-. eexists. split_and!; [done..|simpl; lia|simpl; lia].
  - injection H as <-. eexists. split_and!; [done..|simpl; lia|simpl; lia].
  - destruct (sent s !! ch); [|done]. injection H as <-. eexists. split_and!; [done..|simpl; lia|simpl; lia].
Qed.

Lemma advance_measure s i mint s' :
  advance i mint s = Some s' →
  map task_target (tasks s') = map task_target (tasks s) ∧
  sum_list_with weight (tasks s') < sum_list_with weight (tasks s) ∧
  hits s' + misses s' + sum_list_with uncounted (tasks s') = hits s + misses s + sum_list_with uncounted (tasks s).
Proof.
  intros (t & t' & Hi & -> & Ht & Hw & Hu)%advance_task.
  pose proof (sum_list_update weight _ _ _ t' Hi). pose proof (sum_list_update uncounted _ _ _ t' Hi). split_and!; [|lia..].
  change (map task_target) with (fmap (M := list) task_target). rewrite list_fmap_insert, Ht.
  apply list_insert_id. by rewrite list_lookup_fmap, Hi.
Qed.

(** As long as a task has not returned, some task can move. *)
Lemma inv_progress own s i t (mint : bytes → option V) :
  inv own s → tasks s !! i = Some t → returned t = false → ∃ j s', advance j mint s = Some s'.
Proof.
  intros Hinv Hi Hr.
  assert (∀ j u, tasks s !! j = Some u → (is_Some (works u) ∨ u = Start (task_target u) ∨ u = Missed (task_target u)) →
    ∃ s', advance j mint s = Some s') as Hgo.
  { intros j u Hj Hu. unfold advance. rewrite Hj. cbn [mbind option_bind]. destruct u; try by eexists.
    - destruct (lru_get target (lru s)). by eexists.
    - by destruct Hu as [[? ?]|[|]].
    - by destruct Hu as [[? ?]|[|]]. }
  pose proof (inv_tasks _ _ Hinv _ _ Hi) as Ht.
  destruct t as [k|k|k ch|k ch o|k ch o|k ch|k o]; try done; try (exists i; apply (Hgo _ _ Hi); by eauto).
  destruct Ht as (_ & _ & [[o Hs]|(j & u & Hj & Hu)]).
  - exists i. eexists. unfold advance. rewrite Hi. cbn [mbind option_bind]. by rewrite Hs.
  - exists j. apply (Hgo _ _ Hj). left. by rewrite Hu.
Qed.

Lemma nsteps_measure n s0 s :
  nsteps (step minted) n s0 s →
  map task_target (tasks s) = map task_target (tasks s0) ∧
  n + sum_list_with weight (tasks s) ≤ sum_list_with weight (tasks s0) ∧
  hits s + misses s + sum_list_with uncounted (tasks s)
    = hits s0 + misses s0 + sum_list_with uncounted (tasks s0).
Proof.
  induction 1 as [s|n s1 s2 s3 (i & mint & _ & Ha) _ IH]; [done|].
  apply advance_measure in Ha as (H1 & H2 & H3). destruct IH as (I1 & I2 & I3). split_and!; [congruence|lia|lia].
Qed.

Lemma initial_measure (c : C) targets :
  map task_target (tasks (initial (V := V) c targets)) = targets ∧
  sum_list_with weight (tasks (initial (V := V) c targets)) = 5 * length targets ∧
  sum_list_with uncounted (tasks (initial (V := V) c targets)) = length targets.
Proof. simpl. induction targets as [|k ks (H1 & H2 & H3)]; simpl; [done|]. split_and!; [by f_equal|lia|lia]. Qed.

Lemma returned_counted (ts : list (Task V)) :
  Forall (fun t => returned t = true) ts → sum_list_with uncounted ts = 0.
Proof. induction 1 as [|t ts Ht _ IH]; simpl; [done|]. rewrite IH. by destruct t. Qed.

(** ** Guarantees *)

(** C27 (custody): whatever the interleaving, a call of [get] that returns a
    server configuration returns one that was minted for its own target,
    whether it came from the cache, from its own mint or from another task's. *)
Theorem leaf_is_for_its_target (c : C) targets s i k v :
  (∀ k v, lru_has c k v → minted k v) → rtc (step minted) (initial c targets) s →
  tasks s !! i = Some (Returned k (Some v)) → targets !! i = Some k ∧ minted k v.
Proof.
  intros Hc Hr Hi. destruct (inv_reachable _ _ _ Hc Hr) as [own Hinv]. split.
  - apply rtc_nsteps in Hr as [n Hn]. apply nsteps_measure in Hn as (Ht & _).
    destruct (initial_measure c targets) as (H1 & _). rewrite <- H1, <- Ht.
    rewrite (list_lookup_fmap task_target). by rewrite Hi.
  - by apply (inv_tasks _ _ Hinv _ _ Hi).
Qed.

(** C28 (T8): at any time at most one task is minting a leaf for a target. *)
Theorem minting_is_single_flight (c : C) targets s i j k ch ch' :
  (∀ k v, lru_has c k v → minted k v) → rtc (step minted) (initial c targets) s →
  tasks s !! i = Some (Minting k ch) → tasks s !! j = Some (Minting k ch') → i = j.
Proof.
  intros Hc Hr Hi Hj. destruct (inv_reachable _ _ _ Hc Hr) as [own Hinv].
  destruct (inv_tasks _ _ Hinv _ _ Hi) as (_ & _ & H1 & _), (inv_tasks _ _ Hinv _ _ Hj) as (_ & _ & H2 & _).
  rewrite H1 in H2. injection H2 as <-. by eapply (inv_unique _ _ Hinv); [exact Hi|exact Hj|..].
Qed.

(** C29 (liveness): every call returns. No interleaving takes more than five
    steps per call, as long as a call has not returned some task can move, so
    no waiter is left behind; and at the end each call was counted once, as a
    hit or as a miss. *)
Theorem every_get_returns (c : C) targets n s :
  (∀ k v, lru_has c k v → minted k v) → nsteps (step minted) n (initial c targets) s →
  n ≤ 5 * length targets ∧
  ((∀ s', ¬ step minted s s') →
   Forall (fun t => returned t = true) (tasks s) ∧ hits s + misses s = length targets).
Proof.
  intros Hc Hn. destruct (initial_measure c targets) as (_ & M2 & M3).
  destruct (nsteps_measure _ _ _ Hn) as (_ & H2 & H3). split; [lia|]. intros Hstop.
  destruct (inv_reachable c targets s Hc) as [own Hinv]; [by eapply rtc_nsteps_2|].
  assert (Forall (fun t => returned t = true) (tasks s)) as Hall.
  { apply Forall_lookup. intros i t Hi. destruct (returned t) eqn:E; [done|]. exfalso.
    destruct (inv_progress own s i t (fun _ => None) Hinv Hi E) as (j & s' & Ha).
    apply (Hstop s'). by exists j, (fun _ => None). }
  split; [done|]. rewrite (returned_counted _ Hall), M3 in H3. simpl in H3. lia.
Qed.

End invariant.

(** ** A cache to run on *)

(** Most recent first, and no more than [cap] entries. *)
Definition list_lru (V : Type) (cap : nat) : Lru (list (bytes * V)) V := {|
  lru_get k c :=
    match List.find (fun e => e.1 ≟ k) c with
    | Some e => (Some e.2, e :: List.filter (fun e => negb (e.1 ≟ k)) c)
    | None => (None, c)
    end;
  lru_put k v c := take cap ((k, v) :: List.filter (fun e => negb (e.1 ≟ k)) c);
  lru_has c k v := (k, v) ∈ c;
|}.

Lemma list_lru_laws V cap : LruLaws (list_lru V cap).
Proof.
  split; simpl.
  - intros k c v c' H. destruct (List.find _ c) as [[k' v']|] eqn:E; [|done]. injection H as <- _.
    apply find_some in E as [Hin Hk]. apply bool_decide_eq_true in Hk. simpl in *. subst. by apply list_elem_of_In.
  - intros k c o c' k' v H. destruct (List.find _ c) as [e|] eqn:E; injection H as <- <-; [|done].
    apply find_some in E as [Hin _]. intros [->|Hf]%elem_of_cons; apply list_elem_of_In; [done|].
    by apply list_elem_of_In, filter_In in Hf as [? _].
  - intros k v c k' v' H. assert ((k', v') ∈ (k, v) :: List.filter (fun e => negb (e.1 ≟ k)) c) as Hin.
    { rewrite <- (take_drop cap). apply elem_of_app. by left. }
    apply elem_of_cons in Hin as [[= -> ->]|Hf]; [by left|]. right.
    by apply list_elem_of_In, filter_In in Hf as [Hf _]; apply list_elem_of_In.
Qed.

(** A leaf that says what it was minted for, and in which step. *)
Definition leaf : Type := bytes * nat.
Definition for_target (k : bytes) (v : leaf) : Prop := v.1 = k.
#[local] Instance two_leaves : Lru (list (bytes * leaf)) leaf := list_lru leaf 2.

(** The tasks move in the given order. *)
Fixpoint run_tasks (is_ : list nat) (n : nat) (s : CacheState (list (bytes * leaf)) leaf) :
    option (CacheState (list (bytes * leaf)) leaf) :=
  match is_ with
  | [] => Some s
  | i :: is_ => s ← advance i (fun k => Some (k, n)) s; run_tasks is_ (S n) s
  end.

Lemma run_tasks_nsteps is_ n s s' :
  run_tasks is_ n s = Some s' → nsteps (step for_target) (length is_) s s'.
Proof.
  revert n s. induction is_ as [|i is_ IH]; intros n s H; simpl in H; [injection H as <-; constructor|].
  destruct (advance i (fun k => Some (k, n)) s) as [s1|] eqn:E; [|done]. econstructor; [|by eapply IH].
  exists i, (fun k => Some (k, n)). split; [|done]. intros k v [= <-]. reflexivity.
Qed.

Definition ex_start : CacheState (list (bytes * leaf)) leaf := initial [] ["a.test"%bs; "a.test"%bs; "b.test"%bs].

(** The second task awaits the first one's mint. *)
Definition ex_order : list nat := [0; 1; 0; 1; 2; 0; 2; 0; 0; 1; 2; 2; 2].

Definition ex_cache_end : CacheState (list (bytes * leaf)) leaf := default ex_start (run_tasks ex_order 0 ex_start).

Example ex_cache_tasks :
  tasks ex_cache_end =
    [Returned "a.test"%bs (Some ("a.test"%bs, 5)); Returned "a.test"%bs (Some ("a.test"%bs, 5));
     Returned "b.test"%bs (Some ("b.test"%bs, 10))].
Proof. vm_compute. reflexivity. Qed.

Lemma ex_cache_run : nsteps (step for_target) 13 ex_start ex_cache_end.
Proof. apply (run_tasks_nsteps ex_order 0). vm_compute. reflexivity. Qed.

Lemma leaf_is_for_its_target_witness :
  ["a.test"%bs; "a.test"%bs; "b.test"%bs] !! 2 = Some "b.test"%bs ∧ for_target "b.test"%bs ("b.test"%bs, 10).
Proof.
  apply (leaf_is_for_its_target (LL := list_lru_laws leaf 2) for_target [] ["a.test"%bs; "a.test"%bs; "b.test"%bs]
    ex_cache_end 2 "b.test"%bs ("b.test"%bs, 10)).
  - intros k v Hin. by apply elem_of_nil in Hin.
  - eapply rtc_nsteps_2, ex_cache_run.
  - vm_compute. reflexivity.
Defined.

Definition ex_cache_mid : CacheState (list (bytes * leaf)) leaf := default ex_start (run_tasks [0; 1; 0; 1] 0 ex_start).

Lemma ex_cache_mid_run : nsteps (step for_target) 4 ex_start ex_cache_mid.
Proof. apply (run_tasks_nsteps [0; 1; 0; 1] 0). vm_compute. reflexivity. Qed.

Lemma minting_is_single_flight_witness :
  tasks ex_cache_mid !! 0 = Some (Minting "a.test"%bs 0) ∧
  ∀ j ch, tasks ex_cache_mid !! j = Some (Minting "a.test"%bs ch) → 0 = j.
Proof.
  split; [vm_compute; reflexivity|]. intros j ch Hj.
  apply (minting_is_single_flight (LL := list_lru_laws leaf 2) for_target [] ["a.test"%bs; "a.test"%bs; "b.test"%bs]
    ex_cache_mid 0 j "a.test"%bs 0 ch).
  - intros k v Hin. by apply elem_of_nil in Hin.
  - eapply rtc_nsteps_2, ex_cache_mid_run.
  - vm_compute. reflexivity.
  - exact Hj.
Defined.

Lemma every_get_returns_witness : 13 ≤ 5 * 3 ∧
  ((∀ s', ¬ step for_target ex_cache_end s') →
   Forall (fun t => returned t = true) (tasks ex_cache_end) ∧ hits ex_cache_end + misses ex_cache_end = 3).
Proof.
  apply (every_get_returns (LL := list_lru_laws leaf 2) for_target [] ["a.test"%bs; "a.test"%bs; "b.test"%bs] 13 ex_cache_end).
  - intros k v Hin. by apply elem_of_nil in Hin.
  - exact ex_cache_run.
Defined.

(** A task that missed the cache before another task's mint completed, and
    looks at the in-flight map after it did, mints a second leaf. *)
Theorem late_miss_mints_again :
  ∃ s, nsteps (step for_target) 7 (initial [] ["a.test"%bs; "a.test"%bs]) s ∧
    tasks s = [Returned "a.test"%bs (Some ("a.test"%bs, 3)); Minting "a.test"%bs 1] ∧
    lru_has (lru s) "a.test"%bs ("a.test"%bs, 3).
Proof.
  destruct (run_tasks [0; 1; 0; 0; 0; 0; 1] 0 (initial [] ["a.test"%bs; "a.test"%bs])) as [s|] eqn:E; [|by vm_compute in E].
  exists s. split; [by apply (run_tasks_nsteps [0; 1; 0; 0; 0; 0; 1] 0)|].
  vm_compute in E. injection E as <-. split; [reflexivity|]. by left.
Qed.
