(* ===== verification/Emission.v ===== *)
(** * The records the listeners emit

    A logic over the handlers for a property of every record they emit, at
    whatever reloads and cancellations: who is named as rejecting, which of
    [rejected_by], [stubbed_by] and [error] a record has, where its status
    comes from, and that its traces carry no time. *)

From Stdlib Require Import QArith.
From S2P Require Import Prelude Utf8 Net Json Matcher Summary Pipeline Transforms Secrets KernelConfig Custody KernelAudit Dial Tunnel Proxy Http Listen.
#[local] Close Scope Q_scope.

(** ** What a record says *)

(** Who a record may say has rejected a request. *)
Definition REGISTRY : list bytes :=
  ["allowlist"%bs; "annotate"%bs; "header_allowlist"%bs; "body_capture"%bs; "secrets"%bs].
Definition REJECTERS : list bytes := "listener"%bs :: "guard"%bs :: REGISTRY.

(** The statuses the proxy gives a record itself. *)
Definition OWN_STATUSES : list Z := [0; 101; 200; 400; 403; 502]%Z.

Definition timeless (trs : list Trace) : Prop := Forall (fun tr => trace_duration_ms tr = 0%Q) trs.

(** The traces of a record, with those of the tunnel it came through. *)
Definition all_traces (r : AuditRecord) : list Trace :=
  ar_request_transforms r ++ ar_response_transforms r ++ default [] (tg_request_transforms <$> ar_tunnel r).

(** A record that is not finished: nobody is blamed yet. *)
Definition fresh (r : AuditRecord) : Prop :=
  ar_rejected_by r = None ∧ ar_stubbed_by r = None ∧ ar_error r = None ∧ ar_status_code r = None ∧
  timeless (all_traces r).

Section described.
Context {N Stream : Type} `{HY : !Hyper N Stream}.

(** A status an upstream answered with. *)
Definition upstream_status (s : Z) : Prop :=
  ∃ sender req n resp, (send_request sender req n).1 = Some (Ok resp) ∧ s = us_status resp.

(** A record that may be emitted. *)
Record described (r : AuditRecord) : Prop := {
  rejected_iff : is_Some (ar_rejected_by r) ↔ ar_action r = AReject;
  rejecter_known : ∀ by_, ar_rejected_by r = Some by_ → by_ ∈ REJECTERS;
  stubbed_iff : is_Some (ar_stubbed_by r) ↔ ar_action r = AStub;
  error_told : ar_action r = AError → is_Some (ar_error r);
  status_known : ∀ s, ar_status_code r = Some s → s ∈ OWN_STATUSES ∨ upstream_status s;
  traces_timeless : timeless (all_traces r);
}.

End described.

Section closed.
Context {N Stream : Type} `{HY : !Hyper N Stream} {W : Type}.

(** A transform of the registry: it never answers in place of the upstream. *)
Definition plain (t : Transform W) : Prop :=
  name t ∈ REGISTRY ∧ on_response t = on_response_default ∧
  ∀ ctx q w, match (on_request t ctx q w).1.1.1 with
             | Ok (Reject (Some _)) | Ok (Stub _) => False
             | _ => True
             end.

Definition registered (rt : Runtime W) : Prop := Forall plain (rt_pipeline rt).

(** The runtimes that may be in force. *)
Context (G : Runtime W → Prop).

Class PlainPipelines : Prop := plain_pipelines rt : G rt → registered rt.

Definition governed_tick (t : Tick W) : Prop := match t with Swap rt => G rt | _ => True end.

Definition governed {M} (st : St M W) : Prop := G (shared st) ∧ Forall governed_tick (sched st).

(** A record may be emitted; an address may be dialed under the guard of some
    runtime in force. *)
Definition describes (e : Event) : Prop :=
  match e with
  | Emitted r _ => described r
  | Dialed a => ∃ rt, G rt ∧ permitted (rt_guard rt) a
  | _ => True
  end.

(** From a state with such runtimes only, now and at every reload to come,
    what a computation does is described. *)
Definition closed {M A} (m : Proc M W A) (R : A → Prop) : Prop := ∀ st, governed st →
  let '(ex, evs, st') := m st in
  Forall describes evs ∧ governed st' ∧ match ex with Done a => R a | Dropped => True end.

Context {M : Type}.

Lemma closed_ret {A} (a : A) (R : A → Prop) : R a → closed (M := M) (mret a) R.
Proof. by intros Ha st Hst. Qed.

Lemma closed_mono {A} (m : Proc M W A) (R S : A → Prop) : closed m R → (∀ a, R a → S a) → closed m S.
Proof.
  intros Hm HRS st Hst. specialize (Hm st Hst). destruct (m st) as [[ex evs] st'].
  destruct Hm as (? & ? & ?). split_and!; [done..|]. destruct ex; auto.
Qed.

Lemma closed_bind {A B} (m : Proc M W A) (k : A → Proc M W B) R S :
  closed m R → (∀ a, R a → closed (k a) S) → closed (m ≫= k) S.
Proof.
  intros Hm Hk st Hst. specialize (Hm st Hst). unfold mbind, proc_bind.
  destruct (m st) as [[ex evs] st1]. destruct Hm as (He & Hst1 & Hex). destruct ex as [a|]; [|by split_and!].
  specialize (Hk a Hex st1 Hst1). destruct (k a st1) as [[ex evs'] st2]. destruct Hk as (? & ? & ?).
  split_and!; [by apply Forall_app|done..].
Qed.

Lemma closed_any {A B} (m : Proc M W A) (k : A → Proc M W B) S :
  closed m (fun _ => True) → (∀ a, closed (k a) S) → closed (m ≫= k) S.
Proof. intros Hm Hk. by eapply closed_bind; [exact Hm|]. Qed.

Lemma closed_get {A} (f : St M W → A) : closed (get f) (fun _ => True).
Proof. by intros st Hst. Qed.

Lemma closed_current : closed (M := M) current G.
Proof. by intros st [Hst ?]. Qed.

Lemma closed_log evs : Forall describes evs → closed (M := M) (log evs) (fun _ => True).
Proof. by intros He st Hst. Qed.

Lemma closed_with_world {A} (f : W → A * W) (R : A → Prop) :
  (∀ w, R (f w).1) → closed (M := M) (with_world f) R.
Proof. intros Hf st Hst. unfold with_world. specialize (Hf (world st)). by destruct (f (world st)). Qed.

Lemma ticks_governed (rt : Runtime W) w s :
  G rt → Forall governed_tick s →
  G (ticks rt w s).1.1.2 ∧ Forall governed_tick (ticks rt w s).2.
Proof.
  revert rt w. induction s as [|t s IH]; intros rt w Hrt Hs; [done|].
  apply Forall_cons in Hs as [Ht Hs]. destruct t; simpl; [done..|by apply IH|by apply IH].
Qed.

Lemma closed_await_R {A} (op : M → A * list Event * M) (R : A → Prop) :
  (∀ n, Forall describes (op n).1.2 ∧ R (op n).1.1) → closed (await op) R.
Proof.
  intros Hop st [Hrt Hs]. unfold await. destruct (ticks_governed _ (world st) _ Hrt Hs) as [Hrt' Hs'].
  destruct (ticks (shared st) (world st) (sched st)) as [[[[] rt] w] s]; [|by split_and!; [constructor|split|]].
  specialize (Hop (net st)). destruct (op (net st)) as [[a evs] n]. by destruct Hop; split_and!; [|split|].
Qed.

Lemma closed_await {A} (op : M → A * list Event * M) :
  (∀ n, Forall describes (op n).1.2) → closed (await op) (fun _ => True).
Proof. intros Hop. by apply closed_await_R. Qed.

Lemma closed_emit r : described r → closed (M := M) (pending_emit r) (fun _ => True).
Proof. intros Hr st Hst. split_and!; [by apply Forall_singleton|done|done]. Qed.

Lemma described_drop remote : described (drop_record remote).
Proof. split; simpl; try done; try naive_solver; [by split; intros []..|constructor]. Qed.

Lemma closed_pending {A} remote (m : Proc M W A) R : closed m R → closed (with_pending remote m) R.
Proof.
  intros Hm st [Hrt Hs]. specialize (Hm (set_emitted false st) (conj Hrt Hs)). unfold with_pending.
  destruct (m _) as [[ex evs] st']. destruct Hm as (? & ? & ?). split_and!; [|done..].
  apply Forall_app. split; [done|]. unfold pending_drop. destruct (emitted st'); [done|].
  apply Forall_singleton, described_drop.
Qed.

(** How a pipeline of the registry may end. *)
Definition outcome_plain (o : Outcome) : Prop :=
  match o with
  | OContinue _ | OError _ _ => True
  | OReject n response => n ∈ REGISTRY ∧ response = None
  | OStub _ _ => False
  end.

Lemma timeless_snoc trs n v e a : timeless trs → timeless (trs ++ [trace n v e a]).
Proof. intros Ht. apply Forall_app. split; [done|]. by apply Forall_singleton. Qed.

Lemma request_loop_plain ts trs cap p (q : RequestSummary) (w : W) :
  Forall plain ts → timeless trs →
  outcome_plain (outcome (request_loop ts trs cap p q w).1.1) ∧
  timeless (request_traces (request_loop ts trs cap p q w).1.1).
Proof.
  intros Hts. revert trs cap q w. induction Hts as [|t ts (Hn & _ & Ht) _ IH]; intros trs cap q w Htr; [done|]. simpl.
  specialize (Ht ctx_default q w). destruct (on_request t ctx_default q w) as [[[res ctx] q1] w1]. simpl in Ht.
  destruct res as [[|[response|]|response]|msg]; simpl; try done.
  - by apply IH, timeless_snoc.
  - by split; [|apply timeless_snoc].
  - by split; [|apply timeless_snoc].
Qed.

Lemma response_loop_plain ts trs (q : RequestSummary) (w : W) :
  Forall plain ts → timeless trs →
  action (response_loop ts trs q w).1 = Forward ∧ timeless (traces (response_loop ts trs q w).1).
Proof.
  intros Hts. revert trs w. induction Hts as [|t ts (_ & Hr & _) _ IH]; intros trs w Htr; [done|]. simpl.
  rewrite Hr. simpl. by apply IH, timeless_snoc.
Qed.

Lemma evaluate_request_plain rt q w :
  registered rt →
  let po := (evaluate_request (rt_pipeline rt) q w).1.1 in outcome_plain (outcome po) ∧ timeless (request_traces po).
Proof. intros Hrt. by apply request_loop_plain; [|constructor]. Qed.

End closed.
Arguments PlainPipelines {W} G.

(** ** The request handler *)

(** A fresh record that was given its last fields. *)
Ltac describe := match goal with
  | H : fresh ?r |- _ =>
      destruct r; destruct H as (? & ? & ? & ? & ?); simpl in *; subst; split; simpl; try done;
      try (by split; [intros []|]); try (by split; [|by eexists]); try (by intros ? [= <-]); try (by eexists)
  end.

Ltac own := left; unfold OWN_STATUSES; set_solver.

Section records.
Context {N Stream : Type} `{HY : !Hyper N Stream}.
Implicit Types (r : AuditRecord).

Lemma described_duration d r : described r → described (set_duration d r).
Proof. destruct r. by intros []. Qed.

Lemma described_allow s r :
  fresh r → s ∈ OWN_STATUSES ∨ upstream_status s → described (set_status (Some s) (set_action Allow r)).
Proof. intros Hr Hs. describe. Qed.

Lemma described_error m r :
  fresh r → described (set_error (Some m) (set_status (Some 502%Z) (set_action AError r))).
Proof. intros Hr. describe. intros ? [= <-]. own. Qed.

Lemma described_reject by_ s r :
  fresh r → by_ ∈ REJECTERS → s ∈ OWN_STATUSES →
  described (set_rejected_by (Some by_) (set_status (Some s) (set_action AReject r))).
Proof. intros Hr Hb Hs. describe. intros ? [= <-]. by left. Qed.

Lemma described_cancel r : fresh r → ar_action r = ClientCancel → described r.
Proof. intros Hr Ha. describe. Qed.

Lemma registry_rejecter n : n ∈ REGISTRY → n ∈ REJECTERS.
Proof. intros Hn. by do 2 right. Qed.

End records.

(** The traces a connection brings along carry no time either. *)
Definition ctx_timeless (ctx : ConnCtx) : Prop := timeless (tunnel_traces ctx).

Section dialing.
Context {N M W Stream : Type} `{HY : !Hyper N Stream} `{NW : !Network M Stream} {G : Runtime W → Prop}.
Implicit Types (rt : Runtime W).

Lemma closed_op {A} (f : M → A * M) :
  closed (HY := HY) G (await (fun n => let '(r, n) := f n in (r, [], n))) (fun _ => True).
Proof. apply closed_await. intros n. by destruct (f n). Qed.

Lemma closed_counted m r : closed (HY := HY) G (counted (N := M) (Stream := Stream) m r) (fun _ => True).
Proof. apply closed_any; [by apply closed_log, Forall_singleton|intros []; by apply closed_ret]. Qed.

Lemma closed_dial_addrs host https addrs last_err rt :
  G rt → closed (HY := HY) G (dial_addrs (N := M) rt host https addrs last_err) (fun _ => True).
Proof.
  intros Hrt. revert last_err. induction addrs as [|a addrs IH]; intros last_err; simpl; [apply closed_counted|].
  destruct (check (rt_guard rt) (sa_ip a)) as [u|d] eqn:Ec; [|apply closed_counted].
  apply closed_any; [|intros []].
  { apply closed_log, Forall_singleton. exists rt. split; [done|by eapply check_permitted]. }
  apply closed_any; [apply closed_op|intros [s|e|]; [|apply IH..]].
  destruct (negb https); [apply closed_counted|]. destruct (negb _); [by apply closed_ret|].
  apply closed_any; [apply closed_op|intros [s'|e]; apply closed_counted].
Qed.

Lemma closed_dial proof h p https rt :
  G rt → closed (HY := HY) G (dial (N := M) proof h p https rt) (fun _ => True).
Proof.
  intros Hrt. apply closed_any; [destruct (parse_ip h); [by apply closed_ret|apply closed_op]|].
  intros [[|a addrs]|e]; [apply closed_counted|by apply closed_dial_addrs|apply closed_counted].
Qed.

End dialing.

Section handler.
Context {N W Stream : Type} `{NW : !Network N Stream} `{HY : !Hyper N Stream}.
Context {G : Runtime W → Prop} {HG : PlainPipelines G}.
Implicit Types (rt : Runtime W).

Lemma closed_finish started r resp : described r → closed G (finish started r resp) (fun _ => True).
Proof.
  intros Hr. apply closed_any; [apply closed_get|intros n]. apply closed_any; [|intros []; by apply closed_ret].
  by apply closed_emit, described_duration.
Qed.

Lemma closed_fail started r msg : fresh r → closed G (fail started r msg) (fun _ => True).
Proof. intros Hr. by apply closed_finish, described_error. Qed.

Lemma fresh_response r trs : fresh r → ar_response_transforms r = [] → timeless trs → fresh (set_response_transforms trs r).
Proof.
  destruct r. intros (? & ? & ? & ? & Ht) Hr Htr. simpl in *. subst. split_and!; try done.
  unfold all_traces in *. simpl in *. apply Forall_app in Ht as [? ?]. by repeat (apply Forall_app; split).
Qed.

(** A record nothing was answered on yet. *)
Definition opened r : Prop := fresh r ∧ ar_response_transforms r = [].

Lemma closed_response_stage rt started r q resp :
  G rt → opened r → upstream_status (us_status resp) →
  closed G (response_stage (N := N) rt started r q resp) (fun _ => True).
Proof.
  intros Hrt [Hr He] Hs. eapply closed_bind with (R := fun out => action out = Forward ∧ timeless (traces out)).
  { apply closed_with_world. intros w. apply response_loop_plain; [by apply HG|constructor]. }
  intros out [-> Ht]. apply closed_finish, described_allow; [by apply fresh_response|by right].
Qed.

Lemma closed_exchange rt started r is_ws over b rest q s :
  G rt → opened r → closed G (exchange rt started r is_ws over b rest q s) (fun _ => True).
Proof.
  intros Hrt Hr. pose proof Hr as [Hf _]. unfold exchange.
  destruct (build_upstream _ _ _ _ _) as [ur|e]; [|by apply closed_fail].
  eapply closed_bind with (R := fun resp => match resp with Ok resp => upstream_status (us_status resp) | Err _ => True end).
  { apply closed_any; [apply closed_await; intros n; by destruct (client_handshake _ _)|].
    intros [sender|e]; [|by apply closed_ret].
    eapply closed_bind with (R := fun o => match o with Some (Ok resp) => upstream_status (us_status resp) | _ => True end).
    - apply closed_await_R. intros n. destruct (send_request sender ur n) as [o n'] eqn:E. split; [by apply Forall_singleton|].
      simpl. destruct o as [[resp|]|]; [|done..]. exists sender, ur, n, resp. by rewrite E.
    - intros [[resp|e]|] Ho; by apply closed_ret. }
  intros [resp|msg] Hs; [|by apply closed_fail]. case_match; [|by apply closed_response_stage].
  apply closed_any; [by apply closed_log, Forall_singleton|]. intros [].
  apply closed_finish, described_allow; [done|own].
Qed.

Lemma closed_outcome rt ctx started r is_ws over b rest q o :
  G rt → opened r → outcome_plain o →
  closed G (outcome_stage rt ctx started r is_ws over b rest q o) (fun _ => True).
Proof.
  intros Hrt Hr Ho. pose proof Hr as [Hf _]. destruct o as [proof|n response|n response|n msg]; simpl; [| |done|by apply closed_fail].
  - unfold dial_stage. destruct (match forced_upstream ctx with Some _ => _ | None => _ end) as [h p].
    apply closed_any; [by apply closed_dial|]. intros [s|[denial|msg]]; [by apply closed_exchange| |by apply closed_fail].
    apply closed_finish. describe; [intros ? [= <-]; by right; left|intros ? [= <-]; own].
  - destruct Ho as [Hn ->]. apply closed_finish, described_reject; [done|by apply registry_rejecter|unfold OWN_STATUSES; set_solver].
Qed.

Lemma closed_read_body cap b inc : closed (HY := HY) G (read_body (N := N) cap b inc) (fun _ => True).
Proof.
  revert b. induction inc as [|f inc IH]; intros b; simpl; (case_match; [by apply closed_ret|]);
    (apply closed_any; [by apply closed_await|intros []]); [by apply closed_ret|].
  destruct f as [[d|t]|e]; [apply IH..|by apply closed_ret].
Qed.

Lemma opened_base ctx h m p a : ctx_timeless ctx → opened (base_record ctx h m p a).
Proof.
  intros Hc. split; [|done]. split_and!; try done. unfold all_traces. simpl. by destruct (tunnel_target ctx); [|constructor].
Qed.

Lemma closed_listener_reject ctx started h m p :
  ctx_timeless ctx → closed (HY := HY) G (listener_reject (N := N) ctx started h m p) (fun _ => True).
Proof.
  intros Hc. apply closed_finish, (described_reject _ _ (base_record ctx h m p AReject));
    [by apply opened_base|by left|unfold OWN_STATUSES; set_solver].
Qed.

Lemma closed_handle req ctx :
  ctx_timeless ctx → closed (HY := HY) G (handle (N := N) req ctx) (fun _ => True).
Proof.
  intros Hc. eapply closed_bind; [apply closed_current|]. intros rt Hrt. apply closed_pending.
  apply closed_any; [apply closed_get|]. intros n. cbv zeta.
  destruct (resolve_target req ctx) as [target|[reason h]]; [|by apply closed_listener_reject].
  case_match; [by apply closed_listener_reject|].
  apply closed_any; [apply closed_read_body|]. intros [[[b over] rest]|[]].
  2:{ apply closed_finish, described_cancel; [by apply opened_base|done]. }
  eapply closed_bind with (R := fun run => outcome_plain (outcome run.1) ∧ timeless (request_traces run.1)).
  { apply closed_with_world. intros w. pose proof (evaluate_request_plain rt
      (request_summary ctx req target (max_request_body_bytes rt) over b) w (HG _ Hrt)) as Hn. cbv zeta in Hn.
    by destruct (evaluate_request _ _ _) as [[po q] w']. }
  intros [po q] [Ho Ht]. apply closed_outcome; [done| |done]. split; [|done]. split_and!; try done.
  unfold all_traces. simpl. apply Forall_app. split; [done|]. simpl.
  by destruct (tunnel_target ctx); [|constructor].
Qed.

End handler.

(** ** The listeners *)

Section listeners.
Context {N W Stream : Type} `{NW : !Network N Stream} `{HY : !Hyper N Stream} `{LG : !Leg N Stream}.
Context {G : Runtime W → Prop} {HG : PlainPipelines G}.
Implicit Types (rt : Runtime W).
#[local] Abbreviation Io A := (Proc (Conn N) W (result A bytes)).
#[local] Abbreviation silent_io m := (closed (HY := HY) G m (fun _ => True)).

(** A connection that was handed over brings timeless traces. *)
Definition handed_timeless (r : result Handed bytes) : Prop :=
  match r with Ok (Serve ctx) => ctx_timeless ctx | _ => True end.
#[local] Abbreviation hands m := (closed (HY := HY) G m handed_timeless).

Lemma closed_io_bind {A B} (m : Io A) (k : A → Io B) (S : result B bytes → Prop) :
  silent_io m → (∀ a, closed (HY := HY) G (k a) S) → (∀ e, S (Err e)) → closed (HY := HY) G (io_bind m k) S.
Proof. intros Hm Hk He. apply closed_any; [done|]. intros [a|e]; [apply Hk|by apply closed_ret]. Qed.

Lemma closed_io_ret {A} (a : A) : silent_io (io_ret (N := N) a).
Proof. by apply closed_ret. Qed.

Lemma hands_closed : hands (io_ret (N := N) Closed).
Proof. by apply closed_ret. Qed.

Lemma closed_on_inp {A} (f : list Delivery → A * list Delivery) : silent_io (on_inp (N := N) f).
Proof. apply closed_await. intros c. by destruct (f (inp c)). Qed.

Lemma closed_on_conn {A} evs (f : Conn N → A * Conn N) : Forall (describes (HY := HY) G) evs → silent_io (on_conn evs f).
Proof. intros He. apply closed_await. intros c. by destruct (f c). Qed.

Lemma closed_write_all d : silent_io (write_all (N := N) d).
Proof.
  apply closed_await. intros c. destruct (match write_results c with [] => _ | _ :: _ => _ end) as [r rest].
  simpl. destruct (is_ok r); [by apply Forall_singleton|constructor].
Qed.

Lemma closed_ignore {A} (m : Io A) : silent_io m → silent_io (ignore m).
Proof. intros Hm. apply closed_any; [done|]. intros _. apply closed_io_ret. Qed.

Lemma closed_emit_record remote r : described r → silent_io (emit_record (N := N) remote r).
Proof. intros Hr. apply closed_any; [|intros []; apply closed_io_ret]. by apply closed_pending, closed_emit. Qed.

Ltac closed_tac :=
  repeat first
    [ progress intros
    | done
    | apply closed_io_ret | apply hands_closed | apply closed_write_all | apply closed_on_inp | by apply closed_dial
    | apply closed_on_conn; first [done | by apply Forall_singleton]
    | apply closed_ignore
    | lazymatch goal with
      | |- closed _ (io_bind _ _) _ => apply closed_io_bind
      | |- closed _ (_ ≫= _) _ => apply closed_any
      | |- closed _ (mret _) _ => by apply closed_ret
      | |- closed _ (match ?x with _ => _ end) _ => destruct x
      end ].

Lemma closed_listener_emit remote h mode : silent_io (emit_listener_reject (N := N) remote h 0 mode).
Proof.
  apply closed_emit_record. split; simpl.
  - split; [done|intros _; by eexists].
  - intros ? [= <-]. by left.
  - split; [by intros []|done].
  - done.
  - intros ? [= <-]. own.
  - constructor.
Qed.

Lemma hands_terminate remote forced :
  match forced with Some (_, trs) => timeless trs | None => True end →
  hands (terminate_and_serve (N := N) remote forced).
Proof.
  intros Hf. unfold terminate_and_serve. apply closed_any; [|intros rt].
  { eapply closed_mono; [apply closed_current|done]. }
  cbv zeta. closed_tac; try apply closed_listener_emit.
  apply closed_ret. unfold handed_timeless, ctx_timeless. destruct forced as [[? ?]|]; [done|constructor].
Qed.

Lemma closed_read_head fuel buf : silent_io (read_head (N := N) fuel buf).
Proof.
  revert buf. induction fuel as [|fuel IH]; intros buf; [apply closed_io_ret|]. cbn [read_head].
  unfold read_untimed. cbv zeta. closed_tac.
Qed.

Lemma closed_socks5 : silent_io (socks5_handshake (N := N)).
Proof. unfold socks5_handshake, read_exact, socks5_target. closed_tac. Qed.

Lemma closed_sniff fuel buf : silent_io (sniff_loop (N := N) fuel buf).
Proof.
  revert buf. induction fuel as [|fuel IH]; intros buf; [by apply closed_ret|]. cbn [sniff_loop].
  cbv zeta. closed_tac.
Qed.

(** The group of a passthrough tunnel adds no trace. *)
Lemma described_tunnel t r : described r → ar_tunnel r = None → tg_request_transforms t = [] → described (set_tunnel (Some t) r).
Proof.
  destruct r. intros [? ? ? ? ? Ht] Hn Hg. simpl in *. subst. split; try done. unfold all_traces in *. simpl in *. by rewrite Hg.
Qed.

Lemma closed_tunnel_finish started remote target r :
  described r → ar_tunnel r = None → silent_io (tunnel_finish (N := N) started remote target r).
Proof.
  intros Hr Hn. unfold tunnel_finish, elapsed_ms. apply closed_any.
  { apply closed_any; [apply closed_get|intros c; by apply closed_ret]. }
  intros d. apply closed_emit_record, described_tunnel; [by apply described_duration| |done]. by destruct r.
Qed.

Lemma fresh_tunnel remote target trs : timeless trs → fresh (base_tunnel_record remote target trs).
Proof. intros Ht. split_and!; try done. unfold all_traces. simpl. by rewrite app_nil_r. Qed.

Lemma hands_splice started remote target trs up b sni :
  timeless trs →
  hands (splice_stage (N := N) started remote target (base_tunnel_record remote target trs) up b sni).
Proof.
  intros Ht. pose proof (fresh_tunnel remote target trs Ht) as Hr. unfold splice_stage. cbv zeta. case_match.
  - apply closed_io_bind; [|intros; apply hands_closed|done]. apply closed_tunnel_finish; [|done].
    generalize dependent (base_tunnel_record remote target trs). intros r Hr. describe. intros ? [= <-]. by left.
  - apply closed_io_bind; [closed_tac|intros _|done]. apply closed_any; [closed_tac|]. intros copied.
    apply closed_io_bind; [|intros; apply hands_closed|done].
    destruct copied; (apply closed_tunnel_finish; [|done]);
      generalize dependent (base_tunnel_record remote target trs); intros r Hr; describe; intros ? [= <-]; own.
Qed.

Lemma hands_passthrough is_socks target proof remote rt trs :
  G rt → timeless trs → hands (passthrough_tunnel (N := N) is_socks target proof remote rt trs).
Proof.
  intros Hrt Ht. pose proof (fresh_tunnel remote target trs Ht) as Hr.
  unfold passthrough_tunnel. apply closed_any; [apply closed_get|intros c]. cbv zeta.
  apply closed_any; [by apply closed_dial|]. intros [up|e].
  - apply closed_io_bind; [closed_tac|intros _|done]. apply closed_any; [apply closed_sniff|].
    intros [b sni]. by apply hands_splice.
  - apply closed_io_bind; [|intros; closed_tac|done]. destruct e; (apply closed_tunnel_finish; [|done]);
      generalize dependent (base_tunnel_record remote target trs); intros r Hr; describe.
    + intros ? [= <-]. by right; left.
    + intros ? [= <-]. own.
    + intros ? [= <-]. own.
Qed.

Lemma hands_tunnel_to is_socks target remote : hands (tunnel_to (N := N) is_socks target remote).
Proof.
  unfold tunnel_to. eapply closed_bind; [apply closed_current|]. intros rt Hrt.
  eapply closed_bind with (R := fun po => outcome_plain (outcome po) ∧ timeless (request_traces po)).
  { apply closed_with_world. intros w. pose proof (evaluate_request_plain rt (synthetic_connect_summary target remote) w (HG _ Hrt)) as Hn.
    cbv zeta in Hn. by destruct (evaluate_request _ _ _) as [[po q] w']. }
  intros po [Ho Ht]. cbv zeta. pose proof (fresh_tunnel remote target _ Ht) as Hr.
  destruct (outcome po) as [proof|n response|n response|n msg] eqn:Eo; [| |done|].
  2-3: (apply closed_io_bind; [|intros; closed_tac|done]); apply closed_emit_record; rewrite Eo;
    generalize dependent (base_tunnel_record remote target (request_traces po)); intros r Hr; describe; intros ? [= <-];
    first [own|by left|apply registry_rejecter; by destruct Ho].
  case_match; [by apply hands_passthrough|]. apply closed_io_bind; [closed_tac|intros _|done].
  unfold serve_inner. apply closed_any; [closed_tac|]. intros inner.
  assert (silent_io (emit_tunnel_handshake (N := N) remote target (request_traces po))) as He.
  { apply closed_emit_record, described_allow; [done|own]. }
  closed_tac; try exact He. by apply hands_terminate.
Qed.

Lemma hands_handle_tunnel remote : hands (handle_tunnel (N := N) remote).
Proof.
  unfold handle_tunnel, peek_untimed, read_connect. closed_tac;
    first [apply hands_tunnel_to|apply closed_read_head|apply closed_socks5].
Qed.

End listeners.

(** ** The accept loops ([serve_http], [serve_https], [serve_tunnel]) *)

(** The context of a connection of the plain listener. *)
Definition http_ctx (remote : bytes) : ConnCtx :=
  {| cc_remote_addr := remote; cc_mode := Http; cc_sni := None; scheme_https := false;
     forced_upstream := None; tunnel_target := None; tunnel_traces := [] |}.

Section served.
Context {N W Stream : Type} `{NW : !Network N Stream} `{HY : !Hyper N Stream} `{LG : !Leg N Stream}.
Context `{RE : RegexEngine} `{CD : ConfigDecoder}.

(** A runtime with a pipeline the loader built. *)
Definition loaded (rt : Runtime W) : Prop :=
  ∃ specs (rs : option (SecretResolver W)) bp, build_pipeline_inner specs rs = Ok bp ∧ rt_pipeline rt = pipeline bp.

Definition loaded_st {M} (st : St M W) : Prop := governed loaded st.

(** The connections requests are served on: those of the plain listener, and
    those the other two hand over. *)
Inductive accepted : ConnCtx → Prop :=
| accept_http remote : accepted (http_ctx remote)
| accept_tunnel remote (st : St (Conn N) W) ctx :
    loaded_st st → (handle_tunnel remote st).1.1 = Done (Ok (Serve ctx)) → accepted ctx
| accept_https remote (st : St (Conn N) W) ctx :
    loaded_st st → (terminate_and_serve remote None st).1.1 = Done (Ok (Serve ctx)) → accepted ctx.

(** The records of the listeners: of a request, of a tunnel, of a TLS leg. *)
Inductive served (r : AuditRecord) : Prop :=
| served_request req ctx (st : St N W) :
    accepted ctx → loaded_st st → r ∈ map fst (records (handle req ctx st).1.2) → served r
| served_tunnel remote (st : St (Conn N) W) :
    loaded_st st → r ∈ map fst (records (handle_tunnel remote st).1.2) → served r
| served_https remote (st : St (Conn N) W) :
    loaded_st st → r ∈ map fst (records (terminate_and_serve remote None st).1.2) → served r.

(** The transforms the loader builds are plain. *)
Lemma built_plain (rs : option (SecretResolver W)) spec t : built rs spec t → plain t.
Proof.
  intros Hb. split; [by destruct Hb; repeat first [left|right]|]. split; [by destruct Hb|].
  intros ctx q w. destruct Hb; simpl.
  - unfold allowlist_on_request. by repeat case_match.
  - done.
  - unfold header_allowlist_on_request. by repeat case_match.
  - unfold body_capture_on_request. by repeat case_match.
  - destruct (secrets_on_request _ ctx q w) as [[[res ctx'] q'] w'] eqn:E. simpl.
    destruct res as [[|[response|]|response]|msg]; try done;
      by apply secrets_loop_stop in E as (_ & s & _ & [[? _]|[? _]]).
Qed.

#[global] Instance loaded_registered : PlainPipelines loaded.
Proof.
  intros rt (specs & rs & bp & Hb & Hp). unfold registered. rewrite Hp.
  apply build_pipeline_Ok in Hb as (_ & _ & Hb & _). apply Forall_lookup. intros i t Ht.
  eapply Forall2_lookup_r in Ht as (spec & _ & Hbuilt); [|exact Hb]. by eapply built_plain.
Qed.


(** What a closed computation does, from a state with the runtimes of [G]. *)
Lemma closed_run {M A} (G : Runtime W → Prop) (p : Proc M W A) R st :
  closed (HY := HY) G p R → governed G st →
  (∀ r, r ∈ map fst (records (p st).1.2) → described r) ∧ (∀ a, (p st).1.1 = Done a → R a) ∧
  (∀ a, Dialed a ∈ (p st).1.2 → ∃ rt, G rt ∧ permitted (rt_guard rt) a) ∧ governed G (p st).2.
Proof.
  intros Hc Hst. specialize (Hc st Hst). destruct (p st) as [[ex evs] st'].
  destruct Hc as (He & Hst' & Hex). rewrite Forall_forall in He. simpl. split_and!; [|by intros a ->|intros a Ha; exact (He _ Ha)|done].
  intros r ((r' & l) & -> & Hin)%list_elem_of_fmap. apply list_elem_of_omap in Hin as (e & Hin & Hr).
  specialize (He e Hin). destruct e; by simplify_eq/=.
Qed.

Lemma accepted_timeless ctx : accepted ctx → ctx_timeless ctx.
Proof.
  intros [remote|remote st ctx' Hst Hr|remote st ctx' Hst Hr]; [constructor| |].
  - by apply (proj1 (proj2 (closed_run _ _ _ _ (hands_handle_tunnel remote) Hst))) in Hr.
  - by apply (proj1 (proj2 (closed_run _ _ _ _ (hands_terminate remote None I) Hst))) in Hr.
Qed.

Lemma served_described r : served r → described r.
Proof.
  intros [req ctx st Hc Hst Hr|remote st Hst Hr|remote st Hst Hr].
  - apply accepted_timeless in Hc. exact (proj1 (closed_run _ _ _ _ (closed_handle req ctx Hc) Hst) r Hr).
  - exact (proj1 (closed_run _ _ _ _ (hands_handle_tunnel remote) Hst) r Hr).
  - exact (proj1 (closed_run _ _ _ _ (hands_terminate remote None I) Hst) r Hr).
Qed.

End served.
