(* ===== verification/AuditSchema.v ===== *)
(** * The serialized audit record and its published schema

    The JSON form of a record, as the [Serialize] derives of
    [hematite-kernel/src/audit.rs], [verdict.rs], [pipeline.rs] and [summary.rs]
    are annotated, the normative schema of [spec/schema/audit-record.schema.json],
    and which records conform to it. *)

From Stdlib Require Import QArith.
From S2P Require Import Prelude Utf8 Net Json Matcher Summary Pipeline Secrets KernelConfig Custody SerdeModel KernelTheorems KernelAudit Dial Tunnel Proxy Http HttpTheorems Listen Emission.
#[local] Close Scope Q_scope.

(** ** JSON documents *)

(** A document: an [f64] is its rational value, a float inside an annotation
    its text. *)
Inductive Json : Type :=
| JNull
| JBool (b : bool)
| JInt (n : Z)
| JF64 (q : Q)
| JRaw (repr : bytes)
| JString (s : bytes)
| JArray (l : list Json)
| JObject (m : list (bytes * Json)).

Fixpoint of_value (v : Value) : Json :=
  match v with
  | Null => JNull
  | Bool b => JBool b
  | Number (PosInt n) | Number (NegInt n) => JInt n
  | Number (Float repr) => JRaw repr
  | String_ s => JString s
  | Array l => JArray (map of_value l)
  | Object m => JObject (map (fun e => (e.1, of_value e.2)) m)
  end.

(** [skip_serializing_if = "Option::is_none"]. *)
Definition optional {A} (key : bytes) (f : A → Json) (o : option A) : list (bytes * Json) :=
  match o with Some a => [(key, f a)] | None => [] end.

(** [skip_serializing_if] of a [bool]. *)
Definition when (b : bool) (key : bytes) (v : Json) : list (bytes * Json) := if b then [(key, v)] else [].

Definition mode_json (m : Mode) : Json :=
  JString (match m with Http => "http"%bs | Https => "https"%bs | Tunnel => "tunnel"%bs end).

Definition action_json (a : Action) : Json :=
  JString (match a with
           | Allow => "allow"%bs | AReject => "reject"%bs | AStub => "stub"%bs | AError => "error"%bs
           | ClientCancel => "client_cancel"%bs
           end).

Definition verdict_json (v : TraceVerdict) : Json :=
  JString (match v with
           | TContinue => "continue"%bs | TReject => "reject"%bs | TStub => "stub"%bs | TError => "error"%bs
           end).

Section json.
(** The text of a message. *)
Context (show : message → bytes).

Definition trace_json (tr : Trace) : Json :=
  JObject ([("name"%bs, JString (trace_name tr)); ("verdict"%bs, verdict_json (trace_verdict tr));
            ("duration_ms"%bs, JF64 (trace_duration_ms tr))]
    ++ optional "error"%bs (fun m => JString (show m)) (trace_error tr)
    ++ when (negb (bool_decide (annotations tr = []))) "annotations"%bs
         (JObject (map (fun e => (e.1, of_value e.2)) (annotations tr)))).

Definition traces_json (trs : list Trace) : Json := JArray (map trace_json trs).

Definition tunnel_json (t : TunnelGroup) : Json :=
  JObject ([("target"%bs, JString (tg_target t)); ("request_transforms"%bs, traces_json (tg_request_transforms t))]
    ++ when (tg_passthrough t) "passthrough"%bs (JBool true)).

Definition guard_json (g : GuardDenial) : Json :=
  JObject [("denied_addr"%bs, JString (denied_addr g)); ("prefix"%bs, JString (denied_prefix g))].

Definition capture_json (c : BodyCapture) : Json :=
  JObject [("request_body"%bs, JString (request_body c));
           ("request_body_truncated"%bs, JBool (request_body_truncated c))].

Definition record_fields (r : AuditRecord) : list (bytes * Json) :=
  [("host"%bs, JString (ar_host r)); ("method"%bs, JString (ar_method r)); ("path"%bs, JString (ar_path r))]
  ++ optional "remote_addr"%bs JString (ar_remote_addr r)
  ++ optional "sni"%bs JString (ar_sni r)
  ++ [("mode"%bs, mode_json (ar_mode r)); ("action"%bs, action_json (ar_action r))]
  ++ optional "status_code"%bs JInt (ar_status_code r)
  ++ [("duration_ms"%bs, JF64 (ar_duration_ms r))]
  ++ optional "rejected_by"%bs JString (ar_rejected_by r)
  ++ optional "stubbed_by"%bs JString (ar_stubbed_by r)
  ++ optional "error"%bs (fun m => JString (show m)) (ar_error r)
  ++ [("request_transforms"%bs, traces_json (ar_request_transforms r));
      ("response_transforms"%bs, traces_json (ar_response_transforms r))]
  ++ optional "tunnel"%bs tunnel_json (ar_tunnel r)
  ++ optional "guard"%bs guard_json (ar_guard r)
  ++ optional "body_capture"%bs capture_json (ar_body_capture r).

Definition record_json (r : AuditRecord) : Json := JObject (record_fields r).

End json.

(** ** Schemas *)

Inductive JsonType : Type := TString | TBoolean | TInteger | TNumber | TArray | TObject.

(** The keywords of JSON Schema the published schema uses; a schema is the
    conjunction of its keywords. [properties] is [closed_] under
    [additionalProperties: false]. *)
Inductive Keyword : Type :=
| KType (t : JsonType)
| KEnum (values : list bytes)
| KConst (v : bytes)
| KTrue
| KMinimum (n : Z)
| KMaximum (n : Z)
| KRequired (names : list bytes)
| KProperties (closed_ : bool) (props : list (bytes * list Keyword))
| KItems (items : list Keyword)
| KIfThen (if_ then_ : list Keyword).

Definition Schema : Type := list Keyword.

Definition has_type (t : JsonType) (v : Json) : bool :=
  match t, v with
  | TString, JString _ | TBoolean, JBool _ | TArray, JArray _ | TObject, JObject _ => true
  | TInteger, JInt _ => true
  | TInteger, JF64 q => (Z.pos (Qden (Qred q)) =? 1)%Z
  | TNumber, (JInt _ | JF64 _ | JRaw _) => true
  | _, _ => false
  end.

(** The bounds of a number that is no annotation. *)
Definition at_least (n : Z) (v : Json) : bool :=
  match v with JInt z => (n <=? z)%Z | JF64 q => Qle_bool (inject_Z n) q | _ => true end.
Definition at_most (n : Z) (v : Json) : bool :=
  match v with JInt z => (z <=? n)%Z | JF64 q => Qle_bool q (inject_Z n) | _ => true end.

Definition is_string (s : bytes) (v : Json) : bool :=
  match v with JString s' => s' ≟ s | _ => false end.

Fixpoint holds (k : Keyword) (v : Json) : bool :=
  match k with
  | KType t => has_type t v
  | KEnum values => existsb (fun s => is_string s v) values
  | KConst s => is_string s v
  | KTrue => match v with JBool true => true | _ => false end
  | KMinimum n => at_least n v
  | KMaximum n => at_most n v
  | KRequired names =>
      match v with JObject m => forallb (fun n => existsb (fun e => e.1 ≟ n) m) names | _ => true end
  | KProperties closed_ props =>
      match v with
      | JObject m =>
          forallb (fun e =>
            (fix look ps := match ps with
                            | [] => negb closed_
                            | (n, s) :: ps => if n ≟ e.1 then forallb (fun k => holds k e.2) s else look ps
                            end) props) m
      | _ => true
      end
  | KItems items =>
      match v with JArray l => forallb (fun x => forallb (fun k => holds k x) items) l | _ => true end
  | KIfThen if_ then_ =>
      negb (forallb (fun k => holds k v) if_) || forallb (fun k => holds k v) then_
  end.

Definition valid (s : Schema) (v : Json) : bool := forallb (fun k => holds k v) s.

(** ** The published schema *)

Definition STRING : Schema := [KType TString].

(** [$defs/traces]. *)
Definition TRACE : Schema :=
  [KType TObject; KRequired ["name"%bs; "verdict"%bs; "duration_ms"%bs];
   KProperties true
     [("name"%bs, STRING);
      ("verdict"%bs, [KEnum ["continue"%bs; "reject"%bs; "stub"%bs; "error"%bs]]);
      ("duration_ms"%bs, [KType TNumber; KMinimum 0]);
      ("error"%bs, STRING);
      ("annotations"%bs, [KType TObject])]].

Definition TRACES : Schema := [KType TArray; KItems TRACE].

Definition TUNNEL : Schema :=
  [KType TObject; KRequired ["target"%bs; "request_transforms"%bs];
   KProperties true [("target"%bs, STRING); ("request_transforms"%bs, TRACES); ("passthrough"%bs, [KTrue])]].

Definition GUARD : Schema :=
  [KType TObject; KRequired ["denied_addr"%bs; "prefix"%bs];
   KProperties true [("denied_addr"%bs, STRING); ("prefix"%bs, STRING)]].

Definition BODY_CAPTURE : Schema :=
  [KType TObject; KRequired ["request_body"%bs; "request_body_truncated"%bs];
   KProperties true [("request_body"%bs, STRING); ("request_body_truncated"%bs, [KType TBoolean])]].

Definition PROPERTIES : list (bytes * Schema) :=
  [("host"%bs, STRING); ("method"%bs, STRING); ("path"%bs, STRING); ("remote_addr"%bs, STRING); ("sni"%bs, STRING);
   ("mode"%bs, [KEnum ["http"%bs; "https"%bs; "tunnel"%bs]]);
   ("action"%bs, [KEnum ["allow"%bs; "reject"%bs; "stub"%bs; "error"%bs; "client_cancel"%bs]]);
   ("status_code"%bs, [KType TInteger; KMinimum 100; KMaximum 599]);
   ("duration_ms"%bs, [KType TNumber; KMinimum 0]);
   ("rejected_by"%bs, STRING); ("stubbed_by"%bs, STRING); ("error"%bs, STRING);
   ("request_transforms"%bs, TRACES); ("response_transforms"%bs, TRACES);
   ("tunnel"%bs, TUNNEL); ("guard"%bs, GUARD); ("body_capture"%bs, BODY_CAPTURE)].

(** A field that the action requires. *)
Definition requires (act field : bytes) : Keyword :=
  KIfThen [KProperties false [("action"%bs, [KConst act])]] [KRequired [field]].

Definition AUDIT_SCHEMA : Schema :=
  [KType TObject;
   KRequired ["host"%bs; "method"%bs; "path"%bs; "mode"%bs; "action"%bs; "duration_ms"%bs;
              "request_transforms"%bs; "response_transforms"%bs];
   KProperties true PROPERTIES;
   requires "reject"%bs "rejected_by"%bs; requires "stub"%bs "stubbed_by"%bs; requires "error"%bs "error"%bs].

(** ** Conformance of a field *)

Lemma holds_properties c ps m :
  holds (KProperties c ps) (JObject m) =
  forallb (fun e => match List.find (fun p => p.1 ≟ e.1) ps with
                    | Some p => valid p.2 e.2
                    | None => negb c
                    end) m.
Proof.
  cbn [holds]. induction m as [|e m IH]; [done|]. cbn [forallb]. f_equal; [|exact IH]. clear.
  induction ps as [|[n s] ps IH]; [done|]. cbn [List.find fst]. by destruct (n ≟ e.1).
Qed.

Lemma forallb_optional {A} (P : bytes * Json → bool) key (f : A → Json) o :
  forallb P (optional key f o) = match o with Some a => P (key, f a) | None => true end.
Proof. destruct o; simpl; [apply andb_true_r|done]. Qed.

Lemma forallb_when (P : bytes * Json → bool) b key v :
  forallb P (when b key v) = negb b || P (key, v).
Proof. destruct b; simpl; [apply andb_true_r|done]. Qed.

Lemma existsb_optional {A} (P : bytes * Json → bool) key (f : A → Json) o :
  existsb P (optional key f o) = match o with Some a => P (key, f a) | None => false end.
Proof. destruct o; simpl; [apply orb_false_r|done]. Qed.

(** Evaluate the look-ups of concrete names. *)
Ltac names :=
  cbn [fst snd];
  repeat match goal with
    | |- context [List.find ?f ?ps] =>
        let r := eval hnf in (List.find f ps) in change (List.find f ps) with r; cbn [fst snd]
    end.

Lemma valid_string s : valid STRING (JString s) = true.
Proof. done. Qed.

(** A trace conforms when its time is not negative. *)
Definition timed (tr : Trace) : bool := Qle_bool 0 (trace_duration_ms tr).

Lemma optional_true {A} (f : A → bool) o :
  (∀ a, f a = true) → match o with Some a => f a | None => true end = true.
Proof. destruct o; auto. Qed.

Section conformance.
Context (show : message → bytes).

Lemma valid_trace tr : valid TRACE (trace_json show tr) = timed tr.
Proof.
  unfold valid, TRACE, trace_json. cbn [forallb]. rewrite holds_properties, !forallb_app, forallb_optional, forallb_when.
  cbn [forallb]. names. rewrite (optional_true (fun a => valid STRING (JString (show a)))) by done.
  match goal with |- context [holds (KRequired ?ns) ?o] => change (holds (KRequired ns) o) with true end.
  match goal with |- context [negb ?b || _] => generalize b end. intros b.
  assert (valid [KEnum ["continue"%bs; "reject"%bs; "stub"%bs; "error"%bs]] (verdict_json (trace_verdict tr)) = true) as ->
    by by destruct (trace_verdict tr); vm_compute.
  unfold valid, timed. cbn. by rewrite orb_true_r, !andb_true_r.
Qed.

Lemma valid_traces trs : valid TRACES (traces_json show trs) = forallb timed trs.
Proof.
  unfold valid, TRACES, traces_json. cbn [forallb has_type holds]. rewrite !andb_true_r. cbn [andb].
  induction trs as [|tr trs IH]; [done|]. cbn [map forallb]. f_equal; [|exact IH]. apply valid_trace.
Qed.

Lemma valid_tunnel t : valid TUNNEL (tunnel_json show t) = forallb timed (tg_request_transforms t).
Proof.
  unfold valid, TUNNEL, tunnel_json. cbn [forallb]. rewrite holds_properties, forallb_app, forallb_when.
  cbn [forallb]. names. rewrite valid_traces. destruct t as [h trs []]; cbn [tg_request_transforms tg_passthrough tg_target];
    destruct (forallb timed trs); by vm_compute.
Qed.

Lemma valid_guard g : valid GUARD (guard_json g) = true.
Proof. by destruct g; vm_compute. Qed.

Lemma valid_capture c : valid BODY_CAPTURE (capture_json c) = true.
Proof. by destruct c; vm_compute. Qed.

Lemma valid_mode m : valid [KEnum ["http"%bs; "https"%bs; "tunnel"%bs]] (mode_json m) = true.
Proof. by destruct m; vm_compute. Qed.

Lemma valid_action a :
  valid [KEnum ["allow"%bs; "reject"%bs; "stub"%bs; "error"%bs; "client_cancel"%bs]] (action_json a) = true.
Proof. by destruct a; vm_compute. Qed.

Definition status_in_range (r : AuditRecord) : bool :=
  match ar_status_code r with Some s => (100 <=? s)%Z && (s <=? 599)%Z | None => true end.

Lemma holds_record_properties r :
  holds (KProperties true PROPERTIES) (record_json show r) =
  status_in_range r && Qle_bool 0 (ar_duration_ms r) && forallb timed (all_traces r).
Proof.
  unfold record_json, record_fields. rewrite holds_properties, !forallb_app, !forallb_optional. cbn [forallb]. names.
  rewrite valid_mode, valid_action, !valid_traces, !valid_string.
  rewrite !(optional_true (fun a => valid STRING (JString a))), (optional_true (fun a => valid STRING (JString (show a)))) by done.
  rewrite (optional_true (fun a => valid GUARD (guard_json a))), (optional_true (fun a => valid BODY_CAPTURE (capture_json a)))
    by (intros; apply valid_guard || apply valid_capture).
  rewrite !andb_true_r, !andb_true_l. unfold all_traces, status_in_range. rewrite !forallb_app.
  destruct (ar_tunnel r) as [t|]; cbn [fmap option_fmap option_map default]; [rewrite valid_tunnel|];
    destruct (ar_status_code r) as [c|]; unfold valid; cbn; rewrite ?andb_true_r; by rewrite ?andb_assoc.
Qed.

(** Which fields a record has. *)
Lemma has_optional {A} n key (f : A → Json) o :
  existsb (fun e => e.1 ≟ n) (optional key f o) = (key ≟ n) && bool_decide (is_Some o).
Proof. destruct o; simpl; [by rewrite orb_false_r, andb_true_r|by rewrite andb_false_r]. Qed.

Lemma required_present r :
  holds (KRequired ["host"%bs; "method"%bs; "path"%bs; "mode"%bs; "action"%bs; "duration_ms"%bs;
                    "request_transforms"%bs; "response_transforms"%bs]) (record_json show r) = true.
Proof.
  unfold record_json, record_fields. cbn [holds forallb]. rewrite !existsb_app, !has_optional. by vm_compute.
Qed.

(** The string of an action, and the field it requires. *)
Lemma holds_requires act field r :
  holds (requires act field) (record_json show r) =
  negb (is_string act (action_json (ar_action r))) || existsb (fun e => e.1 ≟ field) (record_fields show r).
Proof.
  unfold requires. cbn [holds]. fold (holds (KProperties false [("action"%bs, [KConst act])]) (record_json show r)).
  f_equal; [f_equal|unfold record_json; cbn [forallb holds]; by rewrite !andb_true_r].
  cbn [forallb]. rewrite andb_true_r. unfold record_json, record_fields.
  rewrite holds_properties, !forallb_app, !forallb_optional. cbn [forallb]. names.
  rewrite !(optional_true (fun _ => negb false)) by done. unfold valid. cbn [forallb holds]. cbn [negb].
  by rewrite !andb_true_r.
Qed.

(** ** The records that conform *)

Theorem conforms_iff r :
  valid AUDIT_SCHEMA (record_json show r) =
  status_in_range r && Qle_bool 0 (ar_duration_ms r) && forallb timed (all_traces r)
  && match ar_action r with
     | AReject => bool_decide (is_Some (ar_rejected_by r))
     | AStub => bool_decide (is_Some (ar_stubbed_by r))
     | AError => bool_decide (is_Some (ar_error r))
     | _ => true
     end.
Proof.
  unfold valid, AUDIT_SCHEMA. cbn [forallb]. rewrite required_present, holds_record_properties, !holds_requires.
  rewrite andb_true_r. change (holds (KType TObject) (record_json show r)) with true. rewrite !andb_true_l. f_equal.
  unfold record_fields. rewrite !existsb_app, !has_optional. by destruct (ar_action r); vm_compute; repeat case_match.
Qed.

End conformance.

(** ** Guarantees *)

Section guarantees.
Context {N W Stream : Type} `{NW : !Network N Stream} `{HY : !Hyper N Stream} `{LG : !Leg N Stream}.
Context `{RE : RegexEngine} `{CD : ConfigDecoder}.

Lemma described_conforms show r :
  described r → (valid AUDIT_SCHEMA (record_json show r) = true ↔ status_in_range r = true ∧ (0 <= ar_duration_ms r)%Q).
Proof.
  intros [Hrej _ Hstub Herr _ Ht]. rewrite conforms_iff, !andb_true_iff, Qle_bool_iff.
  assert (forallb timed (all_traces r) = true) as Htr.
  { apply forallb_forall. intros tr Hin%list_elem_of_In. unfold timeless in Ht. rewrite Forall_forall in Ht.
    unfold timed. by rewrite (Ht tr Hin). }
  assert (match ar_action r with
          | AReject => bool_decide (is_Some (ar_rejected_by r))
          | AStub => bool_decide (is_Some (ar_stubbed_by r))
          | AError => bool_decide (is_Some (ar_error r))
          | _ => true
          end = true) as Ha.
  { destruct (ar_action r); try done; apply bool_decide_eq_true; tauto. }
  tauto.
Qed.

(** C8 (schema): every record the proxy emits is described by the published
    schema, whatever requests, tunnels, reloads and cancellations there are,
    except for its two numbers: it conforms exactly when its status, if it has
    one, is between 100 and 599 and its duration is not negative. The status is
    one of the proxy's own or one an upstream sent. *)
Theorem emitted_records_conform show r :
  served (W := W) r →
  (valid AUDIT_SCHEMA (record_json show r) = true ↔
   (∀ s, ar_status_code r = Some s → 100 <= s <= 599)%Z ∧ (0 <= ar_duration_ms r)%Q) ∧
  (∀ s, ar_status_code r = Some s → s ∈ OWN_STATUSES ∨ upstream_status s).
Proof.
  intros Hr%served_described. split; [|apply Hr]. rewrite described_conforms by done.
  unfold status_in_range. destruct (ar_status_code r) as [s|]; [|naive_solver].
  rewrite andb_true_iff, !Z.leb_le. naive_solver.
Qed.

End guarantees.

(** ** Records on a run *)

Definition ex_leg : Leg nat nat := {|
  tls_accept c := (Some None, c);
  cert_get _ c := (false, c);
  into_stream c := (false, c);
  upstream_write _ _ c := (Ok tt, c);
  copy_bidirectional _ c := (Ok tt, c);
|}.

(** The example request on a connection of the plain listener. *)
Definition plain_run (p : bytes) : Exit HttpResponse * list Event * St nat nat :=
  handle (NW := up_network) (HY := echo_hyper) (ex_http p) (http_ctx "10.0.0.9:4000"%bs) (ex_st []).

Definition no_record : AuditRecord := drop_record None.
Definition plain_record : AuditRecord := List.hd no_record (map fst (records (plain_run "/v1"%bs).1.2)).

Lemma ex_loaded : loaded ex_runtime.
Proof. exists ex_specs, (Some ex_resolver), ex_built. split; [apply is_ok_unwrap; vm_compute; reflexivity|done]. Qed.

Lemma emitted_records_conform_witness : valid AUDIT_SCHEMA (record_json (fun _ => []) plain_record) = true.
Proof.
  apply (emitted_records_conform (NW := up_network) (HY := echo_hyper) (LG := ex_leg) (W := nat)).
  - apply (served_request (NW := up_network) (HY := echo_hyper) (LG := ex_leg) plain_record (ex_http "/v1"%bs)
      (http_ctx "10.0.0.9:4000"%bs) (ex_st [])); [apply accept_http|split; [exact ex_loaded|constructor]|].
    fold (plain_run "/v1"%bs). unfold plain_record.
    assert (length (map fst (records (plain_run "/v1"%bs).1.2)) = 1) as H by (vm_compute; reflexivity).
    destruct (map fst (records (plain_run "/v1"%bs).1.2)) as [|r l]; [discriminate H|left].
  - split; [|vm_compute; discriminate].
    assert (ar_status_code plain_record = Some 200%Z) as -> by (vm_compute; reflexivity). intros s [= <-]. lia.
Defined.

(** A TLS client without SNI is turned away with a record of status 0, which
    the schema does not allow. *)
Example sni_less_record_breaks_schema :
  let rs := map fst (records (terminate_and_serve (LG := ex_leg) "10.0.0.9:4000"%bs None
              {| emitted := false; net := {| wire := 0; inp := []; write_results := [] |}; world := 0;
                 shared := ex_runtime; sched := [] |}).1.2) in
  map ar_status_code rs = [Some 0%Z] ∧
  forallb (fun r => valid AUDIT_SCHEMA (record_json (fun _ => []) r)) rs = false.
Proof. vm_compute. split; reflexivity. Qed.
