(* ===== verification/Metrics.v ===== *)
(** * The metrics registry ([hematite-proxy/src/metrics.rs])

    Counter families keyed by their rendered labels, the duration histogram
    and the text exposition.  Counters are kept on 64 bits; durations and
    bounds ([f64]) are exact rationals, so rounding is not modelled, and the
    decimal text of an [f64] is the parameter [show_f64]. *)

From Stdlib Require Import QArith Sorting.Sorted.
From S2P Require Import Prelude Json Summary KernelAudit Dial.
#[local] Close Scope Q_scope.

Definition wrap64 (z : Z) : Z := (z mod 2 ^ 64)%Z.

(** ** Labels *)

Definition dial_label (r : DialResult) : bytes :=
  match r with
  | DialOk => "ok"%bs
  | GuardDenied => "guard-denied"%bs
  | DnsFailed => "dns-error"%bs
  | ConnectError => "connect-error"%bs
  | TlsError => "tls-error"%bs
  end.

Inductive DnsOutcome : Type := OutIntercept | OutStatic | OutPassthrough | OutError.

Definition dns_label (o : DnsOutcome) : bytes :=
  match o with
  | OutIntercept => "intercept"%bs
  | OutStatic => "static"%bs
  | OutPassthrough => "passthrough"%bs
  | OutError => "error"%bs
  end.

Definition mode_label (m : Mode) : bytes :=
  match m with Http => "http"%bs | Https => "https"%bs | Tunnel => "tunnel"%bs end.

Definition action_label (a : Action) : bytes :=
  match a with
  | Allow => "allow"%bs
  | AReject => "reject"%bs
  | AStub => "stub"%bs
  | AError => "error"%bs
  | ClientCancel => "client-cancel"%bs
  end.

Definition DQ : byte := Byte.x22.
Definition BSL : byte := Byte.x5c.
Definition NL : byte := Byte.x0a.

Definition escape_byte (b : byte) : bytes :=
  if b ≟ BSL then [BSL; BSL]
  else if b ≟ DQ then [BSL; DQ]
  else if b ≟ NL then [BSL; "n"%byte]
  else [b].

Definition escape_label (s : bytes) : bytes := concat (map escape_byte s).

(** [name="value"], the value as it is or escaped. *)
Definition raw_label (name value : bytes) : bytes := name ++ "="%bs ++ [DQ] ++ value ++ [DQ].
Definition label (name value : bytes) : bytes := raw_label name (escape_label value).

Definition req_key (m : Mode) (a : Action) (rejected_by : bytes) : bytes :=
  label "mode"%bs (mode_label m) ++ ","%bs ++ label "action"%bs (action_label a) ++ ","%bs
    ++ label "rejected_by"%bs rejected_by.

Definition dur_key (m : Mode) (a : Action) : bytes :=
  label "mode"%bs (mode_label m) ++ ","%bs ++ label "action"%bs (action_label a).

(** ** The histogram *)

Definition BUCKETS : list Q :=
  [5 # 1000; 1 # 100; 25 # 1000; 5 # 100; 1 # 10; 25 # 100; 5 # 10; 1 # 1; 25 # 10; 5 # 1; 10 # 1; 30 # 1]%Q.

Record Histogram : Type := { counts : list Z; hsum : Q; hcount : Z }.

Definition histogram_new : Histogram := {| counts := replicate 12 0%Z; hsum := 0; hcount := 0 |}.

(** The first bucket whose bound is not below the value. *)
Fixpoint bump_band (bounds : list Q) (cs : list Z) (value : Q) : list Z :=
  match bounds, cs with
  | bound :: bounds, c :: cs =>
      if Qle_bool value bound then wrap64 (c + 1) :: cs else c :: bump_band bounds cs value
  | _, _ => cs
  end.

Definition observe (h : Histogram) (value : Q) : Histogram :=
  {| counts := bump_band BUCKETS (counts h) value; hsum := (hsum h + value)%Q; hcount := wrap64 (hcount h + 1) |}.

(** ** The registry *)

Definition Counter : Type := list (bytes * Z).

(** [*map.entry(key).or_insert(0) += n]. *)
Definition bump (key : bytes) (n : Z) (m : Counter) : Counter :=
  map_insert key (wrap64 (default 0%Z (map_get key m) + n)) m.

Record Metrics : Type := {
  version : bytes;
  requests : Counter;
  duration : list (bytes * Histogram);
  secrets_swaps : Counter;
  dials : Counter;
  dns : Counter;
  tls_cache : Counter;
  reloads : Counter;
}.

Definition metrics_new (v : bytes) : Metrics :=
  {| version := v; requests := []; duration := []; secrets_swaps := []; dials := []; dns := [];
     tls_cache := []; reloads := [] |}.

Definition set_requests (c : Counter) (m : Metrics) : Metrics :=
  {| version := version m; requests := c; duration := duration m; secrets_swaps := secrets_swaps m;
     dials := dials m; dns := dns m; tls_cache := tls_cache m; reloads := reloads m |}.
Definition set_durations (d : list (bytes * Histogram)) (m : Metrics) : Metrics :=
  {| version := version m; requests := requests m; duration := d; secrets_swaps := secrets_swaps m;
     dials := dials m; dns := dns m; tls_cache := tls_cache m; reloads := reloads m |}.
Definition set_swaps (c : Counter) (m : Metrics) : Metrics :=
  {| version := version m; requests := requests m; duration := duration m; secrets_swaps := c;
     dials := dials m; dns := dns m; tls_cache := tls_cache m; reloads := reloads m |}.

(** [if n > 0 { .. += n }]. *)
Definition bump_pos (key : bytes) (n : Z) (c : Counter) : Counter :=
  if (0 <? n)%Z then bump key n c else c.

(** The length of an annotation that is an array; [usize as u64]. *)
Definition annotated (key : bytes) (tr : Trace) : Z :=
  match (v ← map_get key (annotations tr); as_array v) with
  | Some l => wrap64 (Z.of_nat (length l))
  | None => 0
  end.

(** One trace of the [request_transforms] loop. *)
Definition observe_trace (rejected_by : option bytes) (c : Counter) (tr : Trace) : Counter :=
  if negb (trace_name tr ≟ "secrets"%bs) then c
  else
    let c := bump_pos (raw_label "result"%bs "swapped"%bs) (annotated "swapped"%bs tr) c in
    let c := bump_pos (raw_label "result"%bs "source-error"%bs) (annotated "secret_unavailable"%bs tr) c in
    if (rejected_by ≟ Some "secrets"%bs) && (trace_verdict tr ≟ TReject)
    then bump (raw_label "result"%bs "missing-required"%bs) 1 c else c.

Definition observe_record (m : Metrics) (r : AuditRecord) : Metrics :=
  let rejected_by := default [] (ar_rejected_by r) in
  let m := set_requests (bump (req_key (ar_mode r) (ar_action r) rejected_by) 1 (requests m)) m in
  let key := dur_key (ar_mode r) (ar_action r) in
  let seconds := (ar_duration_ms r / 1000)%Q in
  let h := observe (default histogram_new (map_get key (duration m))) seconds in
  let m := set_durations (map_insert key h (duration m)) m in
  set_swaps (fold_left (observe_trace (ar_rejected_by r)) (ar_request_transforms r) (secrets_swaps m)) m.

Definition inc_dial (r : DialResult) (m : Metrics) : Metrics :=
  {| version := version m; requests := requests m; duration := duration m; secrets_swaps := secrets_swaps m;
     dials := bump (label "result"%bs (dial_label r)) 1 (dials m); dns := dns m;
     tls_cache := tls_cache m; reloads := reloads m |}.
Definition inc_dns (o : DnsOutcome) (m : Metrics) : Metrics :=
  {| version := version m; requests := requests m; duration := duration m; secrets_swaps := secrets_swaps m;
     dials := dials m; dns := bump (label "outcome"%bs (dns_label o)) 1 (dns m);
     tls_cache := tls_cache m; reloads := reloads m |}.
Definition inc_tls_cache (hit : bool) (m : Metrics) : Metrics :=
  {| version := version m; requests := requests m; duration := duration m; secrets_swaps := secrets_swaps m;
     dials := dials m; dns := dns m;
     tls_cache := bump (label "event"%bs (if hit then "hit"%bs else "miss"%bs)) 1 (tls_cache m);
     reloads := reloads m |}.
Definition inc_reload (ok : bool) (m : Metrics) : Metrics :=
  {| version := version m; requests := requests m; duration := duration m; secrets_swaps := secrets_swaps m;
     dials := dials m; dns := dns m; tls_cache := tls_cache m;
     reloads := bump (label "result"%bs (if ok then "ok"%bs else "error"%bs)) 1 (reloads m) |}.

(** ** The exposition *)

Section render.
Context (show_f64 : Q → bytes).

(** [{name}{{{labels}}} {value}\n]. *)
Definition sample (name labels value : bytes) : bytes :=
  name ++ "{"%bs ++ labels ++ "} "%bs ++ value ++ [NL].

Definition type_line (name kind : bytes) : bytes := "# TYPE "%bs ++ name ++ " "%bs ++ kind ++ [NL].

(** The buckets from a running total on. *)
Fixpoint render_buckets (name labels : bytes) (bounds : list Q) (cs : list Z) (cumulative : Z) : bytes :=
  match bounds, cs with
  | bound :: bounds, c :: cs =>
      let cumulative := wrap64 (cumulative + c) in
      sample (name ++ "_bucket"%bs) (labels ++ ","%bs ++ raw_label "le"%bs (show_f64 bound)) (show_dec cumulative)
      ++ render_buckets name labels bounds cs cumulative
  | _, _ => []
  end.

Definition render_histogram (name labels : bytes) (h : Histogram) : bytes :=
  render_buckets name labels BUCKETS (counts h) 0
  ++ sample (name ++ "_bucket"%bs) (labels ++ ","%bs ++ raw_label "le"%bs "+Inf"%bs) (show_dec (hcount h))
  ++ sample (name ++ "_sum"%bs) labels (show_f64 (hsum h))
  ++ sample (name ++ "_count"%bs) labels (show_dec (hcount h)).

Definition render_family (name : bytes) (c : Counter) : bytes :=
  type_line name "counter"%bs ++ concat (map (fun e => sample name e.1 (show_dec e.2)) c).

Definition render (m : Metrics) : bytes :=
  type_line "hematite_build_info"%bs "gauge"%bs
  ++ sample "hematite_build_info"%bs (label "version"%bs (version m)) "1"%bs
  ++ render_family "hematite_requests_total"%bs (requests m)
  ++ type_line "hematite_request_duration_seconds"%bs "histogram"%bs
  ++ concat (map (fun e => render_histogram "hematite_request_duration_seconds"%bs e.1 e.2) (duration m))
  ++ render_family "hematite_secrets_swaps_total"%bs (secrets_swaps m)
  ++ render_family "hematite_upstream_dials_total"%bs (dials m)
  ++ render_family "hematite_dns_queries_total"%bs (dns m)
  ++ render_family "hematite_tls_leaf_cache_events_total"%bs (tls_cache m)
  ++ render_family "hematite_config_reloads_total"%bs (reloads m).

End render.

(** ** Reading the exposition back *)

(** A reader of a quoted label value: the value, and what follows its closing
    quote. *)
Fixpoint read_value (s : bytes) : option (bytes * bytes) :=
  match s with
  | [] => None
  | b :: s =>
      if b ≟ DQ then Some ([], s)
      else if b ≟ BSL then
        match s with
        | c :: s =>
            '(v, rest) ← read_value s;
            if c ≟ "n"%byte then Some (NL :: v, rest) else Some (c :: v, rest)
        | [] => None
        end
      else '(v, rest) ← read_value s; Some (b :: v, rest)
  end.

Lemma escape_label_cons b s : escape_label (b :: s) = escape_byte b ++ escape_label s.
Proof. done. Qed.

Lemma read_value_escape v rest : read_value (escape_label v ++ DQ :: rest) = Some (v, rest).
Proof.
  induction v as [|b v IH]; [done|]. rewrite escape_label_cons, <- app_assoc. unfold escape_byte.
  repeat case_bool_decide; subst; simpl; try (by rewrite IH).
  rewrite !bool_decide_false by done. by rewrite IH.
Qed.

Lemma escape_label_one_line v : NL ∉ escape_label v.
Proof.
  induction v as [|b v IH]; [apply not_elem_of_nil|].
  rewrite escape_label_cons, not_elem_of_app. split; [|done].
  unfold escape_byte. repeat case_bool_decide; subst; rewrite ?not_elem_of_cons; split_and!; try done;
    by apply not_elem_of_nil.
Qed.

Lemma label_app_inj name v v' s s' : label name v ++ s = label name v' ++ s' → v = v' ∧ s = s'.
Proof.
  unfold label, raw_label. rewrite <- !app_assoc. intros H. repeat apply app_inv_head in H.
  pose proof (read_value_escape v s) as E. change ([DQ] ++ s) with (DQ :: s) in H.
  rewrite H in E. change ([DQ] ++ s') with (DQ :: s') in E. rewrite read_value_escape in E. by injection E.
Qed.

Lemma label_inj name v v' : label name v = label name v' → v = v'.
Proof. intros H. by apply (label_app_inj name v v' [] []); rewrite !app_nil_r. Qed.

Lemma mode_label_inj a b : mode_label a = mode_label b → a = b.
Proof. by destruct a, b. Qed.

Lemma action_label_inj a b : action_label a = action_label b → a = b.
Proof. by destruct a, b. Qed.

Lemma req_key_inj m a rb m' a' rb' : req_key m a rb = req_key m' a' rb' → m = m' ∧ a = a' ∧ rb = rb'.
Proof.
  unfold req_key. intros [Hm H]%label_app_inj. apply app_inv_head, label_app_inj in H as [Ha H].
  apply app_inv_head in H. apply label_inj in H. split_and!; [by apply mode_label_inj|by apply action_label_inj|done].
Qed.

Lemma dur_key_inj m a m' a' : dur_key m a = dur_key m' a' → m = m' ∧ a = a'.
Proof.
  unfold dur_key. intros [Hm H]%label_app_inj. apply app_inv_head, label_inj in H.
  split; [by apply mode_label_inj|by apply action_label_inj].
Qed.

(** ** Counting *)

#[export] Instance action_eq_dec : EqDecision Action.
Proof. solve_decision. Defined.

Lemma wrap64_add a b : wrap64 (wrap64 a + b) = wrap64 (a + b).
Proof. unfold wrap64. apply Z.add_mod_idemp_l. lia. Qed.

Lemma wrap64_add_r a b : wrap64 (a + wrap64 b) = wrap64 (a + b).
Proof. unfold wrap64. apply Z.add_mod_idemp_r. lia. Qed.

Lemma wrap64_idemp a : wrap64 (wrap64 a) = wrap64 a.
Proof. unfold wrap64. apply Z.mod_mod. lia. Qed.

(** A counter that has counted [n] things, if there was one. *)
Definition counted (n : nat) : option Z := if n =? 0 then None else Some (wrap64 (Z.of_nat n)).

Lemma bump_counted k c n :
  map_get k c = counted n → map_get k (bump k 1 c) = counted (S n).
Proof.
  intros H. unfold bump. rewrite map_get_insert_eq, H. unfold counted. f_equal.
  destruct (Nat.eqb_spec n 0) as [->|Hn]; [done|]. simpl default. rewrite wrap64_add. f_equal. lia.
Qed.

Lemma filter_snoc {A} (f : A → bool) l x :
  List.filter f (l ++ [x]) = List.filter f l ++ (if f x then [x] else []).
Proof. rewrite List.filter_app. simpl. by destruct (f x). Qed.

(** The records that are counted under the labels. *)
Definition same_request (m : Mode) (a : Action) (rb : bytes) (r : AuditRecord) : bool :=
  (ar_mode r ≟ m) && (ar_action r ≟ a) && (default [] (ar_rejected_by r) ≟ rb).
Definition same_duration (m : Mode) (a : Action) (r : AuditRecord) : bool :=
  (ar_mode r ≟ m) && (ar_action r ≟ a).

Definition observe_all (rs : list AuditRecord) (v : bytes) : Metrics :=
  fold_left observe_record rs (metrics_new v).

Lemma observe_all_snoc rs r v : observe_all (rs ++ [r]) v = observe_record (observe_all rs v) r.
Proof. apply fold_left_app. Qed.

Definition seconds (r : AuditRecord) : Q := (ar_duration_ms r / 1000)%Q.

Lemma requests_counts rs v m a rb :
  map_get (req_key m a rb) (requests (observe_all rs v)) = counted (length (List.filter (same_request m a rb) rs)).
Proof.
  induction rs as [|r rs IH] using rev_ind; [done|].
  rewrite observe_all_snoc, filter_snoc, length_app. simpl.
  destruct (same_request m a rb r) eqn:E; simpl.
  - unfold same_request in E. rewrite !andb_true_iff, !bool_decide_eq_true in E.
    destruct E as [[-> ->] ->]. rewrite Nat.add_1_r. by apply bump_counted.
  - rewrite Nat.add_0_r. unfold bump. rewrite map_get_insert_ne; [done|].
    intros (-> & -> & ->)%req_key_inj. unfold same_request in E. by rewrite !bool_decide_true in E.
Qed.

Lemma durations_observed rs v m a :
  let seen := List.filter (same_duration m a) rs in
  map_get (dur_key m a) (duration (observe_all rs v)) =
  if seen ≟ [] then None else Some (fold_left observe (map seconds seen) histogram_new).
Proof.
  induction rs as [|r rs IH] using rev_ind; [done|].
  rewrite observe_all_snoc, filter_snoc. simpl.
  destruct (same_duration m a r) eqn:E; simpl.
  - unfold same_duration in E. rewrite !andb_true_iff, !bool_decide_eq_true in E.
    destruct E as [-> ->]. rewrite map_get_insert_eq, bool_decide_false by (by destruct (List.filter _ rs)).
    rewrite map_app, fold_left_app. simpl. do 2 f_equal. rewrite IH. case_bool_decide as Hs; [by rewrite Hs|done].
  - rewrite app_nil_r, map_get_insert_ne; [done|].
    intros (-> & ->)%dur_key_inj. unfold same_duration in E. by rewrite !bool_decide_true in E.
Qed.

(** *** The buckets *)

(** The running totals of the bands, as they are printed. *)
Fixpoint totals (cs : list Z) (cumulative : Z) : list Z :=
  match cs with
  | [] => []
  | c :: cs => let cumulative := wrap64 (cumulative + c) in cumulative :: totals cs cumulative
  end.

Lemma render_buckets_totals show name labels bs cs cum :
  render_buckets show name labels bs cs cum =
  concat (zip_with (fun b c => sample (name ++ "_bucket"%bs) (labels ++ ","%bs ++ raw_label "le"%bs (show b)) (show_dec c))
            bs (totals cs cum)).
Proof. revert cs cum. induction bs as [|b bs IH]; intros [|c cs] cum; simpl; [done..|]. by rewrite IH. Qed.

Lemma totals_shift cs cum : totals cs (wrap64 (cum + 1)) = map (fun t => wrap64 (t + 1)) (totals cs cum).
Proof.
  revert cum. induction cs as [|c cs IH]; intros cum; [done|]. simpl.
  rewrite wrap64_add. replace (cum + 1 + c)%Z with (cum + c + 1)%Z by lia.
  rewrite <- (wrap64_add (cum + c)), IH. by rewrite wrap64_add.
Qed.

Lemma totals_length cs cum : length (totals cs cum) = length cs.
Proof. revert cum. induction cs; intros; simpl; auto. Qed.

(** One observation adds one to the totals of the bounds it does not exceed. *)
Lemma totals_bump bs cs cum v :
  StronglySorted Qle bs → length cs = length bs →
  totals (bump_band bs cs v) cum =
  zip_with (fun b t => wrap64 (t + Z.b2z (Qle_bool v b))) bs (totals cs cum).
Proof.
  revert cs cum. induction bs as [|b bs IH]; intros [|c cs] cum Hs Hl; try done.
  apply StronglySorted_inv in Hs as [Hs Hb]. simpl. destruct (Qle_bool v b) eqn:E; simpl.
  - rewrite wrap64_add_r, Z.add_assoc, wrap64_add. f_equal.
    rewrite <- (wrap64_add (cum + c)), totals_shift.
    assert (length (totals cs (wrap64 (cum + c))) = length bs) as Ht by (rewrite totals_length; by injection Hl).
    revert Ht. generalize (totals cs (wrap64 (cum + c))). clear -Hb E.
    induction Hb as [|b' bs Hb' _ IH]; intros [|t ts] Ht; try done. simpl. injection Ht as Ht. f_equal; [|by apply IH].
    apply Qle_bool_iff in E. rewrite (proj2 (Qle_bool_iff v b')); [done|by eapply Qle_trans].
  - rewrite Z.add_0_r, wrap64_idemp. f_equal. apply IH; [done|by injection Hl].
Qed.

Lemma bump_band_length bs cs v : length (bump_band bs cs v) = length cs.
Proof. revert cs. induction bs as [|b bs IH]; intros [|c cs]; simpl; [done..|]. case_match; simpl; auto. Qed.

Lemma zip_with_map_self {A B C} (f : A → B → C) (g : A → B) l :
  zip_with f l (map g l) = map (fun x => f x (g x)) l.
Proof. induction l; simpl; congruence. Qed.

Lemma BUCKETS_sorted : StronglySorted Qle BUCKETS.
Proof. repeat constructor; by apply Qle_bool_iff. Qed.

Definition at_most (b : Q) (vs : list Q) : nat := length (List.filter (fun v => Qle_bool v b) vs).

Lemma observed_totals vs :
  let h := fold_left observe vs histogram_new in
  length (counts h) = 12 ∧
  totals (counts h) 0 = map (fun b => wrap64 (Z.of_nat (at_most b vs))) BUCKETS.
Proof.
  induction vs as [|v vs IH] using rev_ind; [by split|].
  rewrite fold_left_app. cbv zeta in *. destruct IH as [Hl Ht]. cbn [fold_left observe counts].
  rewrite bump_band_length. split; [done|].
  rewrite totals_bump, Ht; [|apply BUCKETS_sorted|done]. unfold at_most.
  rewrite zip_with_map_self. apply map_ext. intros b.
  rewrite wrap64_add, filter_snoc, length_app, Nat2Z.inj_add. do 2 f_equal. by destruct (Qle_bool v b).
Qed.

Lemma observed_count vs : hcount (fold_left observe vs histogram_new) = wrap64 (Z.of_nat (length vs)).
Proof.
  induction vs as [|v vs IH] using rev_ind; [done|]. rewrite fold_left_app, length_app. cbn [fold_left observe hcount].
  rewrite IH, wrap64_add. f_equal. simpl. lia.
Qed.

Lemma observed_sum vs : hsum (fold_left observe vs histogram_new) = fold_left Qplus vs 0%Q.
Proof.
  induction vs as [|v vs IH] using rev_ind; [done|]. rewrite !fold_left_app. cbn [fold_left observe hsum]. by rewrite IH.
Qed.

(** *** Lines *)

(** The text is [n] lines, each ended by its newline. *)
Definition is_lines (n : nat) (s : bytes) : Prop :=
  ∃ ls, s = concat (map (fun l => l ++ [NL]) ls) ∧ Forall (fun l => NL ∉ l) ls ∧ length ls = n.

Lemma is_lines_app n m s t : is_lines n s → is_lines m t → is_lines (n + m) (s ++ t).
Proof.
  intros (ls & -> & Hls & <-) (lt & -> & Hlt & <-). exists (ls ++ lt).
  by rewrite map_app, concat_app, length_app, Forall_app.
Qed.

Lemma is_lines_concat {A} (f : A → bytes) n l :
  (∀ x, x ∈ l → is_lines n (f x)) → is_lines (length l * n) (concat (map f l)).
Proof.
  induction l as [|x l IH]; intros H; simpl; [by exists []|].
  apply is_lines_app; [apply H; left|apply IH]. intros y Hy. apply H. by right.
Qed.

Lemma is_lines_one l : NL ∉ l → is_lines 1 (l ++ [NL]).
Proof. intros H. exists [l]. split; [simpl; by rewrite app_nil_r|]. by split; [constructor|]. Qed.

Lemma sample_line name labels value :
  NL ∉ name → NL ∉ labels → NL ∉ value → is_lines 1 (sample name labels value).
Proof.
  intros Hn Hl Hv. unfold sample. rewrite (app_assoc "} "%bs), !app_assoc. apply is_lines_one.
  rewrite !not_elem_of_app. split_and!; try done; by apply (bool_decide_unpack _).
Qed.

Lemma type_line_line name kind : NL ∉ name → NL ∉ kind → is_lines 1 (type_line name kind).
Proof.
  intros Hn Hk. unfold type_line. rewrite !app_assoc. apply is_lines_one.
  rewrite !not_elem_of_app. split_and!; try done; by apply (bool_decide_unpack _).
Qed.

Lemma raw_label_line name value : NL ∉ name → NL ∉ value → NL ∉ raw_label name value.
Proof.
  intros Hn Hv. unfold raw_label. rewrite !not_elem_of_app.
  split_and!; try done; by apply (bool_decide_unpack _).
Qed.

Lemma label_line name value : NL ∉ name → NL ∉ label name value.
Proof. intros Hn. apply raw_label_line; [done|apply escape_label_one_line]. Qed.

Lemma show_dec_line z : NL ∉ show_dec z.
Proof.
  intros H. assert (Forall (fun b => is_digit 10 b = true) (show_dec z)) as Hd
    by (apply show_radix_digits; [lia..|constructor]).
  rewrite Forall_forall in Hd. by apply Hd in H.
Qed.

(** ** What the registry goes through *)

(** A call of one of its operations. *)
Inductive MetricsOp : Type :=
| OpRecord (r : AuditRecord)
| OpDial (r : DialResult)
| OpDns (o : DnsOutcome)
| OpCache (hit : bool)
| OpReload (ok : bool).

Definition apply_op (m : Metrics) (op : MetricsOp) : Metrics :=
  match op with
  | OpRecord r => observe_record m r
  | OpDial r => inc_dial r m
  | OpDns o => inc_dns o m
  | OpCache hit => inc_tls_cache hit m
  | OpReload ok => inc_reload ok m
  end.

Definition run_ops (ops : list MetricsOp) (v : bytes) : Metrics := fold_left apply_op ops (metrics_new v).

(** No key holds a newline, and every histogram has its twelve bands. *)
Definition keys_line {A} (c : list (bytes * A)) : Prop := Forall (fun k => NL ∉ k) (map fst c).

Record metrics_wf (m : Metrics) : Prop := {
  wf_requests : keys_line (requests m);
  wf_duration : keys_line (duration m);
  wf_bands : Forall (fun h => length (counts h) = 12) (map snd (duration m));
  wf_swaps : keys_line (secrets_swaps m);
  wf_dials : keys_line (dials m);
  wf_dns : keys_line (dns m);
  wf_tls : keys_line (tls_cache m);
  wf_reloads : keys_line (reloads m);
}.

Lemma map_insert_values {A} (P : A → Prop) k v (m : list (bytes * A)) :
  P v → Forall P (map snd m) → Forall P (map snd (map_insert k v m)).
Proof.
  intros Hv. induction m as [|[k' v'] m IH]; simpl; [by repeat constructor|].
  intros [? ?]%Forall_cons. destruct (bytes_compare k k'); simpl; repeat constructor; auto.
Qed.

Lemma map_get_values {A} (P : A → Prop) k (m : list (bytes * A)) v :
  map_get k m = Some v → Forall P (map snd m) → P v.
Proof.
  induction m as [|[k' v'] m IH]; simpl; [done|]. intros H [Hv Hm]%Forall_cons.
  case_bool_decide; [by simplify_eq|by apply IH].
Qed.

Lemma bump_line k n c : NL ∉ k → keys_line c → keys_line (bump k n c).
Proof. intros Hk Hc. by apply map_insert_Forall. Qed.

Lemma bump_pos_line k n c : NL ∉ k → keys_line c → keys_line (bump_pos k n c).
Proof. intros Hk Hc. unfold bump_pos. case_match; [by apply bump_line|done]. Qed.

Ltac no_newline := by apply (bool_decide_unpack _).

Lemma observe_trace_line rb c tr : keys_line c → keys_line (observe_trace rb c tr).
Proof.
  intros Hc. unfold observe_trace. case_match; [done|].
  assert (keys_line (bump_pos (raw_label "result"%bs "source-error"%bs) (annotated "secret_unavailable"%bs tr)
    (bump_pos (raw_label "result"%bs "swapped"%bs) (annotated "swapped"%bs tr) c)))
    by (repeat apply bump_pos_line; [no_newline..|done]).
  cbv zeta. case_match; [|done]. apply bump_line; [no_newline|done].
Qed.

Lemma observe_traces_line rb trs c : keys_line c → keys_line (fold_left (observe_trace rb) trs c).
Proof. revert c. induction trs as [|tr trs IH]; intros c Hc; [done|]. by apply IH, observe_trace_line. Qed.

Lemma req_key_line m a rb : NL ∉ req_key m a rb.
Proof.
  unfold req_key. rewrite !not_elem_of_app. split_and!; try (apply label_line; no_newline); no_newline.
Qed.

Lemma dur_key_line m a : NL ∉ dur_key m a.
Proof. unfold dur_key. rewrite !not_elem_of_app. split_and!; try (apply label_line; no_newline); no_newline. Qed.

Lemma observe_bands h v : length (counts h) = 12 → length (counts (observe h v)) = 12.
Proof. intros H. cbn [observe counts]. by rewrite bump_band_length. Qed.

Lemma apply_op_wf m op : metrics_wf m → metrics_wf (apply_op m op).
Proof.
  intros [H1 H2 H3 H4 H5 H6 H7 H8]. destruct op as [r|r|o|hit|ok]; cbn [apply_op].
  2-5: split; try done; (apply bump_line; [|done]); apply label_line; no_newline.
  split; try done.
  - apply bump_line; [apply req_key_line|done].
  - apply map_insert_Forall; [apply dur_key_line|done].
  - apply map_insert_values; [|done]. apply observe_bands. cbn [duration set_requests].
    destruct (map_get (dur_key (ar_mode r) (ar_action r)) (duration m)) as [h|] eqn:E;
      [exact (map_get_values _ _ _ _ E H3)|done].
  - by apply observe_traces_line.
Qed.

Lemma run_ops_wf ops v : metrics_wf (run_ops ops v).
Proof.
  unfold run_ops. assert (metrics_wf (metrics_new v)) as Hm by (split; constructor).
  revert Hm. generalize (metrics_new v). induction ops as [|op ops IH]; intros m Hm; [done|].
  by apply IH, apply_op_wf.
Qed.

Lemma family_lines name c :
  NL ∉ name → keys_line c → is_lines (1 + length c) (render_family name c).
Proof.
  intros Hn Hc. apply is_lines_app; [by apply type_line_line; [|no_newline]|].
  rewrite <- (Nat.mul_1_r (length c)). apply is_lines_concat. intros e He. apply sample_line; [done| |apply show_dec_line].
  unfold keys_line in Hc. rewrite Forall_forall in Hc. apply Hc. by apply list_elem_of_fmap_2.
Qed.

Section exposition.
Context (show_f64 : Q → bytes) (show_line : ∀ q, NL ∉ show_f64 q).

Lemma buckets_lines name labels bs cs cum :
  NL ∉ name → NL ∉ labels → length cs = length bs →
  is_lines (length bs) (render_buckets show_f64 name labels bs cs cum).
Proof using show_line.
  intros Hn Hl. revert cs cum. induction bs as [|b bs IH]; intros [|c cs] cum H; try done; [by exists []|].
  cbn [render_buckets]. apply (is_lines_app 1); [|apply IH; by injection H].
  apply sample_line; [|rewrite !not_elem_of_app; split_and!|apply show_dec_line]; try done.
  - rewrite not_elem_of_app. split; [done|no_newline].
  - no_newline.
  - apply raw_label_line; [no_newline|done].
Qed.

Lemma histogram_lines name labels h :
  NL ∉ name → NL ∉ labels → length (counts h) = 12 → is_lines 15 (render_histogram show_f64 name labels h).
Proof using show_line.
  intros Hn Hl Hc. unfold render_histogram.
  apply (is_lines_app 12); [by apply buckets_lines|].
  apply (is_lines_app 1); [|apply (is_lines_app 1)]; apply sample_line; try apply show_dec_line; try done;
    rewrite ?not_elem_of_app; split_and!; try done; no_newline.
Qed.

(** Exposition: however the registry was used, the exposition is made of
    whole lines, one per sample and family, so no label value, such as a name
    a transform or a peer chose, can add or break a line; [show_line] is a
    decimal number on one line. *)
Theorem exposition_is_line_based ops v :
  let m := run_ops ops v in
  is_lines (9 + length (requests m) + 15 * length (duration m) + length (secrets_swaps m) + length (dials m)
            + length (dns m) + length (tls_cache m) + length (reloads m)) (render show_f64 m).
Proof using show_line.
  intros m. destruct (run_ops_wf ops v) as [H1 H2 H3 H4 H5 H6 H7 H8]. fold m in H1, H2, H3, H4, H5, H6, H7, H8.
  unfold render.
  replace (9 + _ + _ + _ + _ + _ + _ + _) with
    (1 + (1 + ((1 + length (requests m)) + (1 + (length (duration m) * 15 + ((1 + length (secrets_swaps m))
     + ((1 + length (dials m)) + ((1 + length (dns m)) + ((1 + length (tls_cache m)) + (1 + length (reloads m))))))))))) by lia.
  repeat first [ by (apply family_lines; [no_newline|]) | by (apply type_line_line; no_newline)
               | apply sample_line; [no_newline|apply label_line; no_newline|no_newline] | apply is_lines_app ].
  apply is_lines_concat. intros e He. apply histogram_lines; [no_newline| |].
  - unfold keys_line in H2. rewrite Forall_forall in H2. by apply H2, list_elem_of_fmap_2.
  - rewrite Forall_forall in H3. by apply H3, list_elem_of_fmap_2.
Qed.

End exposition.

(** ** Guarantees *)

(** Labels: an escaped label value stays on its line and is read back as
    it was, whatever follows its closing quote. *)
Theorem label_value_round_trip v rest :
  read_value (escape_label v ++ DQ :: rest) = Some (v, rest) ∧ NL ∉ escape_label v.
Proof. split; [apply read_value_escape|apply escape_label_one_line]. Qed.

(** Counters: after any sequence of records, the request counter of a
    label combination is the number of records with that mode, action and
    rejecter (modulo 2^64, and absent when there are none), and the histogram
    of a mode and action has observed exactly the durations of its records, in
    seconds and in order. *)
Theorem records_are_counted rs v m a rb :
  map_get (req_key m a rb) (requests (observe_all rs v)) = counted (length (List.filter (same_request m a rb) rs)) ∧
  let seen := List.filter (same_duration m a) rs in
  map_get (dur_key m a) (duration (observe_all rs v)) =
    if seen ≟ [] then None else Some (fold_left observe (map seconds seen) histogram_new).
Proof. split; [apply requests_counts|apply durations_observed]. Qed.

(** C26 (histogram): the bucket lines of a histogram are cumulative: each bound
    is printed with the number of observed values it is not below, [+Inf] and
    the count with the number of all values (modulo 2^64), and the sum is their
    sum in the order of observation. *)
Theorem histogram_is_cumulative show name labels vs :
  render_histogram show name labels (fold_left observe vs histogram_new) =
  concat (map (fun b => sample (name ++ "_bucket"%bs) (labels ++ ","%bs ++ raw_label "le"%bs (show b))
                          (show_dec (wrap64 (Z.of_nat (at_most b vs))))) BUCKETS)
  ++ sample (name ++ "_bucket"%bs) (labels ++ ","%bs ++ raw_label "le"%bs "+Inf"%bs)
       (show_dec (wrap64 (Z.of_nat (length vs))))
  ++ sample (name ++ "_sum"%bs) labels (show (fold_left Qplus vs 0%Q))
  ++ sample (name ++ "_count"%bs) labels (show_dec (wrap64 (Z.of_nat (length vs)))).
Proof.
  unfold render_histogram. rewrite render_buckets_totals, (proj2 (observed_totals vs)), zip_with_map_self.
  rewrite observed_sum, observed_count. done.
Qed.

Lemma exposition_is_line_based_witness :
  is_lines 11 (render (fun _ => "0"%bs) (run_ops [OpDial DialOk; OpReload false; OpDial DialOk] "1.0"%bs)).
Proof.
  apply (exposition_is_line_based (fun _ => "0"%bs)). intros _. apply (bool_decide_unpack _). reflexivity.
Defined.
