(* ===== verification/MetricsTheorems.v ===== *)
(** * What reaches the metrics

    The registry seen from the handlers: the events of a request move its
    counters once, and the labels it can ever hold are drawn from a fixed
    list, whatever requests, tunnels and reloads there are. *)

From Stdlib Require Import QArith Sorting.Sorted.
From S2P Require Import Prelude Utf8 Net Json Matcher Summary Pipeline Secrets KernelConfig Custody SerdeModel KernelTheorems KernelAudit Dial Tunnel Proxy Http HttpTheorems Listen Emission AuditSchema Metrics.
#[local] Close Scope Q_scope.

(** ** The sink *)

(** [MetricsSink::emit] and the dialer's counting, on the events of a handler
    in their order. *)
Definition metrics_event (m : Metrics) (e : Event) : Metrics :=
  match e with
  | Emitted r _ => observe_record m r
  | Counted d => inc_dial d m
  | _ => m
  end.

Definition account (evs : list Event) (m : Metrics) : Metrics := fold_left metrics_event evs m.

Lemma account_app a b m : account (a ++ b) m = account b (account a m).
Proof. apply fold_left_app. Qed.

(** Only records move the request counters and the histograms. *)
Lemma account_requests evs m :
  requests (account evs m) = requests (fold_left observe_record (map fst (records evs)) m) ∧
  duration (account evs m) = duration (fold_left observe_record (map fst (records evs)) m).
Proof.
  revert m. induction evs as [|e evs IH]; intros m; [done|]. change (account (e :: evs) m) with (account evs (metrics_event m e)).
  destruct (IH (metrics_event m e)) as [-> ->]. destruct e; try done. cbn [records omap list_omap map metrics_event].
  fold (records evs). generalize (map fst (records evs)). intros rs.
  assert (∀ m m', requests m = requests m' → duration m = duration m' →
    requests (fold_left observe_record rs m) = requests (fold_left observe_record rs m') ∧
    duration (fold_left observe_record rs m) = duration (fold_left observe_record rs m')) as Hext.
  { clear. induction rs as [|r rs IH]; intros m m' H1 H2; [done|]. apply IH; simpl; by rewrite ?H1, ?H2. }
  by apply Hext.
Qed.

(** ** Cardinality *)

Lemma bytes_lt_irrefl k : ¬ bytes_lt k k.
Proof. unfold bytes_lt. by rewrite (proj2 (bytes_compare_eq k k) eq_refl). Qed.

Lemma sorted_NoDup l : StronglySorted bytes_lt l → NoDup l.
Proof.
  induction 1 as [|k l _ IH Hk]; constructor; [|done]. intros Hin.
  rewrite Forall_forall in Hk. by apply (bytes_lt_irrefl k), Hk.
Qed.

(** A sorted map with keys from a list is no longer than the list. *)
Lemma keys_bound {A} (c : list (bytes * A)) ks :
  StronglySorted bytes_lt (map fst c) → Forall (fun k => k ∈ ks) (map fst c) → length c ≤ length ks.
Proof.
  intros Hs Hk. rewrite <- (length_map fst c). rewrite Forall_forall in Hk.
  apply submseteq_length, NoDup_submseteq; [by apply sorted_NoDup|done].
Qed.

Definition MODES : list Mode := [Http; Https; Tunnel].
Definition ACTIONS : list Action := [Allow; AReject; AStub; AError; ClientCancel].

Definition DURATION_KEYS : list bytes := m ← MODES; a ← ACTIONS; [dur_key m a].
Definition REQUEST_KEYS : list bytes := m ← MODES; a ← ACTIONS; rb ← []%bs :: REJECTERS; [req_key m a rb].

Lemma modes_all m : m ∈ MODES.
Proof. destruct m; repeat first [left|right]. Qed.

Lemma actions_all a : a ∈ ACTIONS.
Proof. destruct a; repeat first [left|right]. Qed.

Lemma observe_all_keys rs v :
  Forall (fun r => default [] (ar_rejected_by r) ∈ []%bs :: REJECTERS) rs →
  Forall (fun k => k ∈ REQUEST_KEYS) (map fst (requests (observe_all rs v))) ∧
  StronglySorted bytes_lt (map fst (requests (observe_all rs v))) ∧
  Forall (fun k => k ∈ DURATION_KEYS) (map fst (duration (observe_all rs v))) ∧
  StronglySorted bytes_lt (map fst (duration (observe_all rs v))).
Proof.
  induction rs as [|r rs IH] using rev_ind; [by intros _; split_and!; constructor|].
  intros [Hrs [Hr _]%Forall_cons]%Forall_app. rewrite observe_all_snoc. destruct (IH Hrs) as (H1 & H2 & H3 & H4).
  split_and!.
  - apply map_insert_Forall; [|done]. apply list_elem_of_bind. exists (ar_mode r). split; [|apply modes_all].
    apply list_elem_of_bind. exists (ar_action r). split; [|apply actions_all].
    apply list_elem_of_bind. exists (default [] (ar_rejected_by r)). split; [left|exact Hr].
  - by apply map_insert_keys.
  - apply map_insert_Forall; [|done]. apply list_elem_of_bind. exists (ar_mode r). split; [|apply modes_all].
    apply list_elem_of_bind. exists (ar_action r). split; [left|apply actions_all].
  - by apply map_insert_keys.
Qed.

Section guarantees.
Context {N W Stream : Type} `{NW : !Network N Stream} `{HY : !Hyper N Stream} `{LG : !Leg N Stream}.
Context `{RE : RegexEngine} `{CD : ConfigDecoder}.

(** Cardinality: whatever requests and tunnels are served, under whatever
    configurations are loaded in between and in whatever order their records
    come in, the request counter has at most 120 label combinations and the
    duration histogram at most 15, each of the fixed lists. *)
Theorem metrics_cardinality_bounded rs v :
  Forall (served (W := W)) rs →
  length (requests (observe_all rs v)) ≤ 120 ∧ length (duration (observe_all rs v)) ≤ 15 ∧
  Forall (fun k => k ∈ REQUEST_KEYS) (map fst (requests (observe_all rs v))).
Proof.
  intros Hrs. destruct (observe_all_keys rs v) as (H1 & H2 & H3 & H4).
  { eapply Forall_impl; [exact Hrs|]. intros r Hr%served_described. destruct (ar_rejected_by r) as [n|] eqn:E; [|left].
    right. by apply Hr. }
  split_and!; [|by apply (keys_bound _ DURATION_KEYS)|done].
  by apply (keys_bound _ REQUEST_KEYS).
Qed.

(** C25 (accounting): a request moves the request counters once. Whatever way
    it ends, the counter of its record's labels goes up by one, the duration of
    the record is observed once, and no other request counter or histogram
    moves. *)
Theorem request_is_counted_once {HL : HyperLaws HY} req ctx (st : St N W) ex evs st' m :
  handle req ctx st = (ex, evs, st') →
  ∃ r, records evs = [(r, level_for (ar_action r))] ∧
    requests (account evs m) = bump (req_key (ar_mode r) (ar_action r) (default [] (ar_rejected_by r))) 1 (requests m) ∧
    duration (account evs m) =
      let key := dur_key (ar_mode r) (ar_action r) in
      map_insert key (observe (default histogram_new (map_get key (duration m))) (seconds r)) (duration m).
Proof.
  intros (r & Hr & _)%handle_record. exists r. split; [done|].
  destruct (account_requests evs m) as [-> ->]. by rewrite Hr.
Qed.

End guarantees.

(** ** A run *)

(** The record of the example request: it is let through. *)
Definition ex_records : list AuditRecord := map fst (records (plain_run "/v1"%bs).1.2).

Example ex_records_counted : map fst (requests (observe_all ex_records "1.0"%bs)) = [req_key Http Allow []].
Proof. vm_compute. reflexivity. Qed.

Lemma metrics_cardinality_bounded_witness : length (requests (observe_all ex_records "1.0"%bs)) ≤ 120.
Proof.
  apply (metrics_cardinality_bounded (NW := up_network) (HY := echo_hyper) (LG := ex_leg) (W := nat)).
  apply Forall_forall. intros r Hr. eapply (served_request (NW := up_network) (HY := echo_hyper) (LG := ex_leg)); [apply accept_http| |exact Hr].
  split; [exact ex_loaded|constructor].
Defined.

Lemma request_is_counted_once_witness :
  ∃ r, records (ex_run "/v1"%bs []).1.2 = [(r, level_for (ar_action r))] ∧
    requests (account (ex_run "/v1"%bs []).1.2 (metrics_new []))
    = bump (req_key (ar_mode r) (ar_action r) (default [] (ar_rejected_by r))) 1 [].
Proof.
  destruct (request_is_counted_once (NW := up_network) (HL := echo_laws) (ex_http "/v1"%bs) ex_ctx (ex_st []) _ _ _
    (metrics_new []) (ex_run_eta _ _)) as (r & Hr & Hq & _).
  exists r. split; [exact Hr|exact Hq].
Defined.
