(* ===== verification/AuditSink.v ===== *)
(** * Where audit records go ([hematite-proxy/src/audit.rs], [metrics.rs])

    The trait [AuditSink] with its two implementations: stderr, one line of
    JSON per record, and the decorator that counts each record first.  The text
    [serde_json] gives a document is a parameter. *)

From S2P Require Import Prelude Utf8 Net Json Summary KernelAudit Dial Proxy AuditSchema Metrics MetricsTheorems.

Definition NEWLINE : byte := Byte.x0a.

(** [serde_json::to_string]. *)
Class JsonText := to_string : Json → result bytes bytes.

(** Compact output: control characters of strings are escaped and nothing is
    written between tokens, so there is no line break; documents whose keys are
    strings do not fail. *)
Class JsonTextLaws (JT : JsonText) : Prop :=
  to_string_line v : ∃ line, to_string v = Ok line ∧ NEWLINE ∉ line.

(** The trait: the sink's state after a record. *)
Class AuditSink (S : Type) := sink_emit : AuditRecord → Level → S → S.

Section sinks.
Context `{JT : JsonText} (show : message → bytes).

(** [StderrSink]: what stderr holds. A record that does not serialize is
    dropped; a failing write, which is ignored, is not modelled. *)
#[export] Instance StderrSink : AuditSink bytes := fun record _ err =>
  match to_string (record_json show record) with
  | Ok line => err ++ line ++ [NEWLINE]
  | Err _ => err
  end.

(** [MetricsSink]: the registry first, then the inner sink. *)
#[export] Instance MetricsSink {S} `{inner : AuditSink S} : AuditSink (Metrics * S) := fun record level s =>
  (observe_record s.1 record, inner record level s.2).

(** The sink after the events of the handlers, in the order they emit. *)
Definition drain {S} `{AuditSink S} (evs : list Event) (s : S) : S :=
  fold_left (fun s r => sink_emit r.1 r.2 s) (records evs) s.

Lemma drain_app {S} `{AuditSink S} a b (s : S) : drain (a ++ b) s = drain b (drain a s).
Proof. unfold drain. by rewrite records_app, fold_left_app. Qed.

(** The decorator is transparent: the inner sink gets what it would get alone,
    and the registry counts the same records. *)
Lemma metrics_sink_transparent {S} `{inner : AuditSink S} evs m (s : S) :
  drain evs (m, s) = (fold_left observe_record (map fst (records evs)) m, drain evs s).
Proof.
  unfold drain. generalize (records evs). intros rs. revert m s.
  induction rs as [|r rs IH]; intros m s; [done|]. apply IH.
Qed.

Context {JL : JsonTextLaws JT}.

(** The text of a record. *)
Definition text_of (r : AuditRecord) : bytes := unwrap_or [] (to_string (record_json show r)).

Lemma text_of_line r : to_string (record_json show r) = Ok (text_of r) ∧ NEWLINE ∉ text_of r.
Proof. unfold text_of. by destruct (to_string_line (record_json show r)) as (line & -> & ?). Qed.

Lemma drain_stderr evs err :
  drain evs err = err ++ concat (map (fun r => text_of r.1 ++ [NEWLINE]) (records evs)).
Proof.
  unfold drain. generalize (records evs). intros rs. revert err.
  induction rs as [|r rs IH]; intros err; simpl; [by rewrite app_nil_r|].
  rewrite IH. unfold sink_emit, StderrSink. by rewrite (proj1 (text_of_line r.1)), <- !app_assoc.
Qed.

(** What is printed with [eprintln!] on the same stream. *)
Definition printed (texts : list bytes) : bytes := concat (map (fun t => t ++ [NEWLINE]) texts).

(** A printed text may have line breaks of its own. *)
Lemma split_printed texts rest :
  split_on NEWLINE (printed texts ++ rest) = (texts ≫= split_on NEWLINE) ++ split_on NEWLINE rest.
Proof.
  unfold printed. induction texts as [|t texts IH]; [done|]. cbn [map concat mbind list_bind].
  rewrite <- !app_assoc. cbn [app]. rewrite split_on_app_sep. by f_equal.
Qed.

(** The lines of a stream that had some texts printed on it before the records:
    one line each for these. *)
Lemma sink_lines texts evs m :
  split_on NEWLINE (drain evs (m, printed texts)).2
    = (texts ≫= split_on NEWLINE) ++ map (fun r => text_of r.1) (records evs) ++ [[]] ∧
  (drain evs (m, printed texts)).1 = fold_left observe_record (map fst (records evs)) m.
Proof.
  rewrite metrics_sink_transparent. cbn [fst snd]. split; [|done].
  rewrite drain_stderr, split_printed. f_equal.
  change (concat _) with (concat (map (fun r => text_of r.1 ++ [NEWLINE]) (records evs))).
  rewrite <- (map_map (fun r => text_of r.1) (fun w => w ++ [NEWLINE])). fold (printed (map (fun r => text_of r.1) (records evs))).
  rewrite <- (app_nil_r (printed _)), split_printed. f_equal.
  induction (records evs) as [|r rs IH]; [done|]. cbn [map]. rewrite bind_cons, IH.
  by rewrite (split_on_no_byte NEWLINE (text_of r.1)) by apply text_of_line.
Qed.

End sinks.

(** ** A text for documents

    Compact JSON with the escapes of strings; numbers that are no integers are
    written as fractions, which is enough for an example. *)

Definition escape (b : byte) : bytes :=
  if b ≟ Byte.x22 then [Byte.x5c; Byte.x22]
  else if b ≟ Byte.x5c then [Byte.x5c; Byte.x5c]
  else if b ≟ Byte.x0a then "\n"%bs
  else if b ≟ Byte.x0d then "\r"%bs
  else if b ≟ Byte.x09 then "\t"%bs
  else if (b2z b <? 32)%Z then "\u00"%bs ++ [digit (b2z b / 16); digit (b2z b mod 16)]
  else [b].

Definition quoted (s : bytes) : bytes := [Byte.x22] ++ concat (map escape s) ++ [Byte.x22].

Definition show_int (z : Z) : bytes := if (z <? 0)%Z then "-"%bs ++ show_dec (- z) else show_dec z.

Fixpoint json_text (v : Json) : bytes :=
  match v with
  | JNull => "null"%bs
  | JBool b => if b then "true"%bs else "false"%bs
  | JInt n => show_int n
  | JF64 q => show_int (QArith_base.Qnum q) ++ "/"%bs ++ show_int (Z.pos (QArith_base.Qden q))
  | JRaw repr => concat (map escape repr)
  | JString s => quoted s
  | JArray l => "["%bs ++ join_with ","%bs (map json_text l) ++ "]"%bs
  | JObject m => "{"%bs ++ join_with ","%bs (map (fun e => quoted e.1 ++ ":"%bs ++ json_text e.2) m) ++ "}"%bs
  end.

Lemma escape_line b : NEWLINE ∉ escape b.
Proof. intros H%list_elem_of_In. byte_cases b; vm_compute in H; intuition discriminate. Qed.

Lemma concat_line {A} (f : A → bytes) l : (∀ a, a ∈ l → NEWLINE ∉ f a) → NEWLINE ∉ concat (map f l).
Proof. intros Hf. induction l as [|a l IH]; simpl; [apply not_elem_of_nil|]. set_solver. Qed.

Lemma join_line ws : (∀ w, w ∈ ws → NEWLINE ∉ w) → NEWLINE ∉ join_with ","%bs ws.
Proof.
  intros Hw. induction ws as [|w [|w' ws] IH]; [apply not_elem_of_nil|by apply Hw; left|].
  change (join_with ","%bs (w :: w' :: ws)) with (w ++ ","%bs ++ join_with ","%bs (w' :: ws)).
  rewrite !elem_of_app. intros [H|[H|H]]; [by apply (Hw w); [left|]|by apply list_elem_of_singleton in H|].
  revert H. apply IH. intros x Hx. apply Hw. by right.
Qed.

Lemma quoted_line s : NEWLINE ∉ quoted s.
Proof.
  unfold quoted. rewrite !elem_of_app. intros [H|[H|H]]; [by apply list_elem_of_singleton in H| |by apply list_elem_of_singleton in H].
  revert H. apply concat_line. intros b _. apply escape_line.
Qed.

Lemma show_int_line z : NEWLINE ∉ show_int z.
Proof.
  assert (∀ z, (0 <= z)%Z → NEWLINE ∉ show_dec z) as Hd.
  { intros n Hn Hin. pose proof (show_dec_digits n Hn) as H. rewrite Forall_forall in H. by apply H in Hin. }
  unfold show_int. destruct (Z.ltb_spec z 0); [|by apply Hd].
  rewrite elem_of_app. intros [H'|H']; [by apply list_elem_of_singleton in H'|]. by apply Hd in H'; [|lia].
Qed.

Lemma between_line a s b : NEWLINE ≠ a → NEWLINE ≠ b → NEWLINE ∉ s → NEWLINE ∉ [a] ++ s ++ [b].
Proof. set_solver. Qed.

(** Induction over the documents inside a document. *)
Lemma json_nested_ind (P : Json → Prop) :
  (∀ v, match v with JArray l => Forall P l | JObject m => Forall (fun e => P e.2) m | _ => True end → P v) →
  ∀ v, P v.
Proof.
  intros H. fix IH 1. intros v. apply H. destruct v as [| | | | | |l|m]; try exact I.
  - induction l as [|v l IHl]; constructor; [apply IH|exact IHl].
  - induction m as [|[k v] m IHm]; constructor; [apply IH|exact IHm].
Qed.

Lemma json_text_line v : NEWLINE ∉ json_text v.
Proof.
  induction v as [v Hv] using json_nested_ind. destruct v as [|b|n|q|repr|s|l|m]; cbn [json_text].
  - set_solver.
  - destruct b; set_solver.
  - apply show_int_line.
  - pose proof (show_int_line (QArith_base.Qnum q)). pose proof (show_int_line (Z.pos (QArith_base.Qden q))). set_solver.
  - apply concat_line. intros b _. apply escape_line.
  - apply quoted_line.
  - apply between_line; [done|done|]. apply join_line. intros w (v & -> & Hin)%list_elem_of_fmap.
    rewrite Forall_forall in Hv. by apply Hv.
  - apply between_line; [done|done|]. apply join_line. intros w (e & -> & Hin)%list_elem_of_fmap.
    rewrite Forall_forall in Hv. specialize (Hv e Hin). pose proof (quoted_line e.1). set_solver.
Qed.

Definition compact_text : JsonText := fun v => Ok (json_text v).

#[export] Instance compact_laws : JsonTextLaws compact_text.
Proof. intros v. exists (json_text v). split; [done|]. apply json_text_line. Qed.

(** An address that tries to start a line of its own. *)
Definition forged_record : AuditRecord := drop_record (Some ([NEWLINE] ++ "{}"%bs)).
