(* ===== verification/Boot.v ===== *)
(** * The binary ([hematite/src/main.rs], [telemetry.rs])

    One run of the process: the arguments, the configuration file, the
    compilation, the telemetry, then the listeners in the order [main] binds
    them.  What the process does is a trace of events, oldest first.  The
    operating system is a set of parameters: what reading a file gives, the
    environment, and the outcome of a bind, which may depend on everything
    done before.  The telemetry crates are the class [TelemetrySdk]. *)

From S2P Require Import Prelude Net Json Matcher Summary Pipeline Secrets KernelConfig SerdeModel KernelTheorems DnsWire DnsServer Resolver Dial Proxy ProxyConfig ConfigTheorems Codec Serial Tls Metrics.

(** ** Addresses *)

Definition listen_addr (key : bytes) : bytes :=
  if starts_with [":"%byte] key then "0.0.0.0"%bs ++ key else key.

(** [str::trim_end_matches('.')]. *)
Fixpoint trim_dots_rev (s : bytes) : bytes :=
  match s with b :: r => if b ≟ "."%byte then trim_dots_rev r else s | [] => [] end.

Definition trim_end_dots (s : bytes) : bytes := reverse (trim_dots_rev (reverse s)).

Inductive StdSocketAddr : Type :=
| SocketV4 (ip port : Z)
| SocketV6 (ip scope_id port : Z).

(** [Parser::read_port], [read_scope_id]: any number of digits, also zeros. *)
Definition read_port (s : bytes) : option (Z * bytes) :=
  r ← read_given_char ":"%byte s; read_number 10 u16_max (length r) true r.

Definition read_scope_id (s : bytes) : option (Z * bytes) :=
  r ← read_given_char "%"%byte s; read_number 10 (2 ^ 32 - 1) (length r) true r.

Definition read_socket_addr_v4 (s : bytes) : option (StdSocketAddr * bytes) :=
  '(ip, r) ← read_ipv4_addr s;
  '(port, r) ← read_port r;
  Some (SocketV4 ip port, r).

Definition read_socket_addr_v6 (s : bytes) : option (StdSocketAddr * bytes) :=
  r ← read_given_char "["%byte s;
  '(ip, r) ← read_ipv6_addr r;
  let '(scope, r) := default (0%Z, r) (read_scope_id r) in
  r ← read_given_char "]"%byte r;
  '(port, r) ← read_port r;
  Some (SocketV6 ip scope port, r).

(** [str::parse::<SocketAddr>()]: IPv4 first, and nothing may follow. *)
Definition parse_socket_addr (s : bytes) : option StdSocketAddr :=
  '(a, r) ← match read_socket_addr_v4 s with Some x => Some x | None => read_socket_addr_v6 s end;
  if r ≟ [] then Some a else None.

(** ** The DNS server's configuration ([spawn_dns] up to the binds) *)

Definition canonical_name (name : bytes) : bytes := to_ascii_lowercase (trim_end_dots name).

Definition static_record (rtype value : bytes) : result StaticRecord message :=
  if rtype ≟ "A"%bs then
    match parse_ipv4 value with
    | Some ip => Ok (RecordA ip)
    | None => Err (Fmt "bad A value {value:?}"%bs [Text value])
    end
  else if rtype ≟ "CNAME"%bs then Ok (RecordCname (canonical_name value))
  else Err (Fmt "unsupported record type {other:?}"%bs [Text rtype]).

(** The loop: a later record of a name replaces an earlier one. *)
Fixpoint insert_records (l : list (bytes * bytes * bytes)) (records : gmap bytes StaticRecord) :
    result (gmap bytes StaticRecord) message :=
  match l with
  | [] => Ok records
  | (name, rtype, value) :: l =>
      let? record := static_record rtype value in
      insert_records l (<[canonical_name name := record]> records)
  end.

Definition DNS_TTL : Z := 60.

Definition dns_server (dns : DnsResolved) (on_decision : bool) : result (DnsServer * StdSocketAddr) message :=
  let? recs := insert_records (dn_records dns) ∅ in
  let? zones := collect_results (fun g => map_err display_match_error (domain_parse g)) (dn_passthrough dns) in
  let? upstream := ok_or (parse_socket_addr (dn_upstream_resolver dns))
                     (Fmt "bad upstream_resolver {:?}"%bs [Text (dn_upstream_resolver dns)]) in
  Ok ({| ds_config := {| proxy_ip := dn_proxy_ip dns; passthrough := zones; DnsServer.records := recs;
                         dns_ttl := DNS_TTL |};
         ds_on_decision := on_decision |}, upstream).

(** What the decision callback counts. *)
Definition dns_outcome (k : DnsDecisionKind) : DnsOutcome :=
  match k with
  | Static => OutStatic
  | Intercept => OutIntercept
  | Passthrough => OutPassthrough
  | DnsError => OutError
  end.

(** ** The CA files ([build_runtime] in [config.rs]) *)

(** The argument [load_ca] of [build_runtime], over a file system and a clock. *)
Definition load_ca `{CF : CaFormat} (read_to_string : bytes → result bytes bytes) (since_epoch : option Z)
    (tls : TlsResolved) : result SigningCa LoadError :=
  let? cert_pem := map_err (fun e => Fmt "tls.ca_cert {:?}: {e}"%bs [Text (tr_ca_cert tls); Text e])
                     (read_to_string (tr_ca_cert tls)) in
  let? key_pem := map_err (fun e => Fmt "tls.ca_key {:?}: {e}"%bs [Text (tr_ca_key tls); Text e])
                    (read_to_string (tr_ca_key tls)) in
  map_err display_tls_error (from_pem cert_pem key_pem (leaf_cert_expiry_hours tls) since_epoch).

(** ** The system's root certificates ([state.rs]) *)

(** [native_upstream_config], the argument [roots] of [build_runtime]: the
    certificates that were loaded and the errors on the way. *)
Definition native_upstream_config (certs : list bytes) (errors : bytes) : result unit message :=
  if certs ≟ [] then Err (Fmt "no system root certificates: {:?}"%bs [Text errors]) else Ok tt.

(** ** Telemetry ([telemetry.rs]) *)

(** How [provider.shutdown()] on a blocking thread ends within five seconds. *)
Inductive ShutdownResult : Type :=
| TimedOut
| TaskPanicked (e : bytes)
| ShutdownFailed (e : bytes)
| Flushed.

(** [EnvFilter::try_new] accepting a directive, the build of the span exporter
    for an endpoint, and the flush of what is left to send there. *)
Class TelemetrySdk := {
  filter_valid : bytes → bool;
  build_exporter : bytes → result unit bytes;
  provider_shutdown : bytes → ShutdownResult;
}.

(** The tracer provider: where spans go, how they are sampled, who sends them. *)
Record Provider (F : Type) : Type := { pv_endpoint : bytes; pv_sample_ratio : F; pv_service_name : bytes }.
Arguments pv_endpoint {F} p.
Arguments pv_sample_ratio {F} p.
Arguments pv_service_name {F} p.

(** The subscriber installed: the shape of its lines, its filter, whether the
    filter also decides about spans, and the provider the guard keeps. *)
Record Subscriber (F : Type) : Type := {
  sb_json : bool;
  sb_filter : bytes;
  sb_filter_spans : bool;
  sb_provider : option (Provider F);
}.
Arguments sb_json {F} s.
Arguments sb_filter {F} s.
Arguments sb_filter_spans {F} s.
Arguments sb_provider {F} s.

Section telemetry.
Context {F : Type} `{TS : TelemetrySdk}.

Definition build_otlp_provider (obs : ObservabilitySection F) : result (Provider F) message :=
  let endpoint := default "http://localhost:4318"%bs (otlp_endpoint obs) in
  let? _ := map_err (fun e => Fmt "failed to build OTLP span exporter: {e}"%bs [Text e]) (build_exporter endpoint) in
  Ok {| pv_endpoint := endpoint; pv_sample_ratio := sample_ratio obs; pv_service_name := service_name obs |}.

Definition build_otlp_provider_if_enabled (obs : ObservabilitySection F) : result (option (Provider F)) message :=
  if otlp_enabled obs then let? p := build_otlp_provider obs in Ok (Some p) else Ok None.

Definition init_telemetry (format level : bytes) (obs : ObservabilitySection F) : result (Subscriber F) message :=
  let filter := if filter_valid level then level else "info"%bs in
  let? provider := build_otlp_provider_if_enabled obs in
  match provider with
  | Some p => Ok {| sb_json := format ≟ "json"%bs; sb_filter := filter; sb_filter_spans := false;
                    sb_provider := Some p |}
  | None => Ok {| sb_json := format ≟ "json"%bs; sb_filter := filter; sb_filter_spans := true;
                  sb_provider := None |}
  end.

(** The warning of [TelemetryGuard::shutdown], if there is one. *)
Definition shutdown (guard : Subscriber F) : option message :=
  match sb_provider guard with
  | Some provider =>
      match provider_shutdown (pv_endpoint provider) with
      | TimedOut => Some (Text "OTLP provider shutdown timed out after 5s — spans may be lost"%bs)
      | TaskPanicked e => Some (Fmt "OTLP provider shutdown task panicked"%bs [Text e])
      | ShutdownFailed e => Some (Fmt "OTLP provider shutdown error"%bs [Text e])
      | Flushed => None
      end
  | None => None
  end.

End telemetry.

(** ** The run of the process *)

Inductive Socket : Type := Udp | Tcp.

(** The tasks [main] spawns, with what each is given. *)
Inductive Task (W : Type) : Type :=
| ServeHttp (state : Runtime W)
| ServeHttps (state : Runtime W)
| ServeTunnel (state : Runtime W)
| ServeDnsUdp (server : DnsServer) (upstream : StdSocketAddr)
| ServeDnsTcp (server : DnsServer) (upstream : StdSocketAddr)
| ServeManagement (state : Runtime W) (api_key config_path : bytes) (current_listen : ListenKeys) (metrics_enabled : bool).
Arguments ServeHttp {W} state.
Arguments ServeHttps {W} state.
Arguments ServeTunnel {W} state.
Arguments ServeDnsUdp {W} server upstream.
Arguments ServeDnsTcp {W} server upstream.
Arguments ServeManagement {W} state api_key config_path current_listen metrics_enabled.

Inductive TracingLevel : Type := INFO | WARN | ERROR.

Inductive BootEvent (F W : Type) : Type :=
| Stderr (m : message)
| Subscribe (s : Subscriber F)
| Bind (k : Socket) (addr : bytes) (bound : bool)
| Log (l : TracingLevel) (m : message)
| Spawn (t : Task W)
| CtrlC
| Shutdown.
Arguments Stderr {F W} m.
Arguments Subscribe {F W} s.
Arguments Bind {F W} k addr bound.
Arguments Log {F W} l m.
Arguments Spawn {F W} t.
Arguments CtrlC {F W}.
Arguments Shutdown {F W}.

Section main.
Context `{YF : YamlFormat} `{RE : RegexEngine} `{CD : ConfigDecoder} `{TS : TelemetrySdk} {W : Type}.
Context (resolver : SecretResolver W) (roots : result unit message) (ca : TlsResolved → result unit message).
Context (read_to_string : bytes → result bytes bytes) (os_env : bytes → option bytes) (tokio_new : result unit bytes).
Context (bind : list (BootEvent F64 W) → Socket → bytes → result unit bytes).

Abbreviation trace := (list (BootEvent F64 W)).

(** Bind an address; the attempt is part of the trace. *)
Definition bind_at (k : Socket) (addr : bytes) (tr : trace) : result unit bytes * trace :=
  let r := bind tr k addr in (r, tr ++ [Bind k addr (is_ok r)]).

Definition bind_failed (what listener e : bytes) : BootEvent F64 W :=
  Log ERROR (Fmt "bind {} failed"%bs [Text what; Text listener; Text e]).

Definition spawn_dns (dns : DnsResolved) (on_decision : bool) (tr : trace) : result unit message * trace :=
  match dns_server dns on_decision with
  | Err e => (Err e, tr)
  | Ok (server, upstream) =>
      let '(udp, tr) := bind_at Udp (listen_addr (dn_listen dns)) tr in
      match udp with
      | Err e => (Err (Fmt "bind dns udp {}: {e}"%bs [Text (dn_listen dns); Text e]), tr)
      | Ok _ =>
          let '(tcp, tr) := bind_at Tcp (listen_addr (dn_listen dns)) tr in
          match tcp with
          | Err e => (Err (Fmt "bind dns tcp {}: {e}"%bs [Text (dn_listen dns); Text e]), tr)
          | Ok _ =>
              (Ok tt, tr ++ [Log INFO (Fmt "dns server listening"%bs [Text (dn_listen dns)]);
                             Spawn (ServeDnsUdp server upstream); Spawn (ServeDnsTcp server upstream)])
          end
      end
  end.

(** A TLS or tunnel listener: a failed bind is logged and the boot goes on. *)
Definition start_optional (what bound listen : bytes) (task : Task W) (tr : trace) : trace :=
  let '(r, tr) := bind_at Tcp (listen_addr listen) tr in
  match r with
  | Ok _ => tr ++ [Log INFO (Fmt bound [Text listen]); Spawn task]
  | Err e => tr ++ [bind_failed what listen e]
  end.

Definition start_https (config : Config F64) (runtime : Runtime W) (tr : trace) : trace :=
  match lk_https (listen config) with
  | Some l => if tls_configured runtime then start_optional "https"%bs "https (MITM) listener bound"%bs l (ServeHttps runtime) tr else tr
  | None => tr
  end.

Definition start_tunnel (config : Config F64) (runtime : Runtime W) (tr : trace) : trace :=
  match lk_tunnel (listen config) with
  | Some l => start_optional "tunnel"%bs "tunnel listener bound"%bs l (ServeTunnel runtime) tr
  | None => tr
  end.

Definition start_dns (config : Config F64) (tr : trace) : trace :=
  match cfg_dns config with
  | Some dns =>
      let '(r, tr) := spawn_dns dns true tr in
      match r with
      | Ok _ => tr
      | Err e => tr ++ [Log ERROR (Fmt "dns server failed to start"%bs [e])]
      end
  | None => tr
  end.

(** Whether the boot goes on. *)
Definition start_management (config : Config F64) (config_path : bytes) (runtime : Runtime W) (tr : trace) :
    bool * trace :=
  match lk_management (listen config), management_api_key config with
  | Some l, Some api_key =>
      let '(r, tr) := bind_at Tcp (listen_addr l) tr in
      match r with
      | Err e => (false, tr ++ [bind_failed "management"%bs l e])
      | Ok _ =>
          (true, tr ++ [Log INFO (Fmt "management API bound"%bs [Text l]);
                        Spawn (ServeManagement runtime api_key config_path (listen config)
                                 (metrics_enabled (observability config)))])
      end
  | _, _ => (true, tr)
  end.

Definition EXIT_SUCCESS : Z := 0.
Definition EXIT_FAILURE : Z := 1.
Definition EXIT_USAGE : Z := 2.

(** The body of [block_on]. *)
Definition serve (config : Config F64) (config_path : bytes) (runtime : Runtime W) (guard : Subscriber F64)
    (tr : trace) : Z * trace :=
  let http := lk_http (listen config) in
  let '(r, tr) := bind_at Tcp (listen_addr http) tr in
  match r with
  | Err e => (EXIT_FAILURE, tr ++ [bind_failed "http"%bs http e])
  | Ok _ =>
      let tr := tr ++ [Log INFO (Fmt "http listener bound"%bs [Text http]); Spawn (ServeHttp runtime)] in
      let tr := start_dns config (start_tunnel config runtime (start_https config runtime tr)) in
      let '(go, tr) := start_management config config_path runtime tr in
      if go then
        (EXIT_SUCCESS, tr ++ [CtrlC; Log INFO (Text "shutting down"%bs); Shutdown]
                          ++ match shutdown guard with Some m => [Log WARN m] | None => [] end)
      else (EXIT_FAILURE, tr)
  end.

(** The path given on the command line; what follows it is not looked at. *)
Definition config_arg (args : list bytes) : option bytes :=
  match args with
  | flag :: path :: _ => if (flag ≟ "-config"%bs) || (flag ≟ "--config"%bs) then Some path else None
  | _ => None
  end.

Definition main (args : list bytes) : Z * trace :=
  match config_arg args with
  | None => (EXIT_USAGE, [Stderr (Text "usage: hematite -config <path.yaml>"%bs)])
  | Some path =>
      match read_to_string path with
      | Err e => (EXIT_FAILURE, [Stderr (Fmt "hematite: cannot read {}: {e}"%bs [Text path; Text e])])
      | Ok yaml =>
          match load_str resolver yaml os_env with
          | Err e => (EXIT_FAILURE, [Stderr (Fmt "hematite: {e}"%bs [e])])
          | Ok config =>
              let tr := map (fun w => Stderr (Fmt "hematite: warning: {warning}"%bs [w])) (cfg_warnings config) in
              match build_runtime resolver roots ca config with
              | Err e => (EXIT_FAILURE, tr ++ [Stderr (Fmt "hematite: {e}"%bs [e])])
              | Ok runtime =>
                  match tokio_new with
                  | Err e => (EXIT_FAILURE, tr ++ [Stderr (Fmt "hematite: runtime: {e}"%bs [Text e])])
                  | Ok _ =>
                      match init_telemetry (log_format (observability config)) (log_level config) (observability config) with
                      | Err e => (EXIT_FAILURE, tr ++ [Stderr (Fmt "hematite: telemetry init failed: {e}"%bs [e])])
                      | Ok guard => serve config path runtime guard (tr ++ [Subscribe guard])
                      end
                  end
              end
          end
      end
  end.

End main.

(** ** The DNS server that was configured *)

(** The record of the file that counts for a name: the last one. *)
Definition last_record (l : list (bytes * bytes * bytes)) (name : bytes) : option (bytes * bytes * bytes) :=
  last (filter (fun r => canonical_name r.1.1 = name) l).

Lemma insert_records_lookup l acc m name :
  insert_records l acc = Ok m →
  match last_record l name with
  | Some (_, rtype, value) => ∃ r, static_record rtype value = Ok r ∧ m !! name = Some r
  | None => m !! name = acc !! name
  end.
Proof.
  unfold last_record. revert acc. induction l as [|[[n t] v] l IH]; intros acc H; cbn [insert_records] in H.
  { injection H as <-. done. }
  destruct (static_record t v) as [r|] eqn:Er; simpl in H; [|done]. specialize (IH _ H).
  rewrite filter_cons. cbn [fst]. case_decide as Hn; subst.
  - rewrite last_cons. destruct (last (filter _ l)) as [[[? ?] ?]|]; [done|]. exists r. split; [done|].
    by rewrite IH, lookup_insert_eq.
  - destruct (last (filter _ l)) as [[[? ?] ?]|]; [done|]. by rewrite IH, lookup_insert_ne.
Qed.

Lemma dns_server_Ok d cb s up :
  dns_server d cb = Ok (s, up) →
  insert_records (dn_records d) ∅ = Ok (DnsServer.records (ds_config s)) ∧
  Forall2 (fun p g => domain_parse p = Ok g) (dn_passthrough d) (passthrough (ds_config s)) ∧
  parse_socket_addr (dn_upstream_resolver d) = Some up ∧
  proxy_ip (ds_config s) = dn_proxy_ip d ∧ dns_ttl (ds_config s) = DNS_TTL ∧ ds_on_decision s = cb.
Proof.
  unfold dns_server. intros H.
  destruct (insert_records _ _) as [m|] eqn:Em; simpl in H; [|done].
  destruct (collect_results _ _) as [gs|] eqn:Eg; simpl in H; [|done].
  destruct (parse_socket_addr _) as [a|]; simpl in H; [|done]. injection H as <- <-. simpl.
  split_and!; try done. apply collect_results_Ok in Eg. eapply Forall2_impl; [exact Eg|].
  intros p g Hp. cbv beta in Hp. by destruct (domain_parse p); simplify_eq/=.
Qed.

(** C38 (DNS boot): the server that was started answers what the file says.
    The last record of a name decides, compared without case and trailing
    dots; a name without a record is forwarded exactly when a passthrough
    pattern of the file covers it; every other A query gets the proxy's
    address, and what is not an A query gets an empty answer. *)
Theorem configured_names_answered d cb s up query :
  dns_server d cb = Ok (s, up) →
  let name := normalize (q_name query) in
  match last_record (dn_records d) name with
  | Some (_, rtype, value) => ∃ r, static_record rtype value = Ok r ∧ local_kind s query = Static ∧
      DnsServer.resolve (ds_config s) query =
        match r with
        | RecordA ip => if (q_type query =? TYPE_A)%Z then DAnswer [AnswerA ip DNS_TTL] else DEmptyNoError
        | RecordCname target =>
            if (q_type query =? TYPE_CNAME)%Z || (q_type query =? TYPE_A)%Z then DAnswer [AnswerCname target DNS_TTL]
            else DEmptyNoError
        end
  | None =>
      DnsServer.resolve (ds_config s) query =
        if existsb (fun p => match domain_parse p with Ok g => domain_matches g name | Err _ => false end)
             (dn_passthrough d)
        then DPassthrough
        else if (q_type query =? TYPE_A)%Z then DAnswer [AnswerA (dn_proxy_ip d) DNS_TTL] else DEmptyNoError
  end.
Proof.
  intros (Hm & Hg & _ & Hip & Httl & _)%dns_server_Ok name.
  pose proof (insert_records_lookup _ _ _ name Hm) as Hl. unfold DnsServer.resolve, local_kind.
  fold (normalize (q_name query)). fold name. rewrite Hip, Httl.
  destruct (last_record (dn_records d) name) as [[[n t] v]|].
  - destruct Hl as (r & Hr & Hl). exists r. split; [done|]. rewrite Hl. split; [done|]. by destruct r.
  - rewrite Hl, lookup_empty. clear -Hg. induction Hg as [|p g ps gs Hp Hg IH]; [done|]. simpl. rewrite Hp.
    destruct (domain_matches g name); [done|exact IH].
Qed.

(** The address of an upstream resolver is read as it is written. *)
Theorem socket_addr_round_trip ip port :
  (0 <= ip < 2 ^ 32)%Z → (0 <= port <= u16_max)%Z →
  parse_socket_addr (show_ipv4 ip ++ [":"%byte] ++ show_dec port) = Some (SocketV4 ip port).
Proof.
  intros Hip Hport. unfold parse_socket_addr, read_socket_addr_v4.
  rewrite read_ipv4_addr_show by done. cbn [mbind option_bind]. unfold read_port. cbn [app read_given_char].
  rewrite bool_decide_true by done. cbn [mbind option_bind].
  assert (read_number 10 u16_max (length (show_dec port)) true (show_dec port) = Some (port, [])) as ->; [|done].
  unfold read_number. rewrite <- (app_nil_r (show_dec port)) at 2.
  rewrite (read_digits_parse _ _ _ _ _ _ _ port); [|unfold show_dec; by rewrite parse_digits_show_radix by (unfold u16_max in *; lia)|done|done].
  cbn [mbind option_bind Nat.add negb andb]. destruct (show_dec port) as [|b r] eqn:E; [|done].
  by destruct (show_radix_S_not_nil 10 19 port []).
Qed.

Lemma socket_addr_round_trip_witness : parse_socket_addr "1.1.1.1:53"%bs = Some (SocketV4 16843009 53).
Proof. apply (socket_addr_round_trip 16843009 53); unfold u16_max; lia. Defined.

(** The registry after the calls of the decision callback. *)
Definition count_decisions (ks : list DnsDecisionKind) (m : Metrics) : Metrics :=
  fold_left (fun m k => inc_dns (dns_outcome k) m) ks m.

(** A request to the server that was started is counted once when it is
    answered, as an error exactly when the upstream exchange failed, and not at
    all when it is dropped. *)
Theorem dns_request_counted {W} (forward : bytes → W → option bytes * W) d s up request w m :
  dns_server d true = Ok (s, up) →
  let '(response, ks, _) := respond forward s request w in
  match response with
  | None => parse_query request = None ∧ count_decisions ks m = m
  | Some r => ∃ query k, parse_query request = Some query ∧ count_decisions ks m = inc_dns (dns_outcome k) m ∧
      (dns_outcome k = OutError → (forward request w).1 = None ∧ r = build_servfail query)
  end.
Proof.
  intros (_ & _ & _ & _ & _ & Hcb)%dns_server_Ok. pose proof (respond_total forward s request w) as H.
  destruct (parse_query request) as [query|]; [|by rewrite H].
  destruct H as (r & k & w' & -> & He & _). exists query, k. unfold callback. rewrite Hcb.
  split_and!; [done|done|]. destruct k; try done. intros _. by apply He.
Qed.

(** ** The run *)

Section guarantees.
Context `{YF : YamlFormat} `{RE : RegexEngine} `{CD : ConfigDecoder} {W : Type}.
Context (resolver : SecretResolver W) (roots : result unit message) (ca : TlsResolved → result unit message).
Context (os_env : bytes → option bytes).

Abbreviation trace := (list (BootEvent F64 W)).

(** A loaded configuration serves TLS where it listens for it, and has a key,
    which is not empty, exactly where it has a management listener. *)
Lemma loaded_listeners yaml c rt :
  load_str resolver yaml os_env = Ok c → build_runtime resolver roots ca c = Ok rt →
  (is_Some (lk_https (listen c)) ∨ is_Some (lk_tunnel (listen c)) → tls_configured rt = true) ∧
  (is_Some (lk_management (listen c)) ↔ is_Some (management_api_key c)) ∧
  (∀ key, management_api_key c = Some key → key ≠ []).
Proof.
  intros [raw (Hl & _ & _ & _ & Hk & Ht)%resolve_config_Ok]%load_str_Ok
    (_ & _ & _ & _ & _ & Hrt)%build_runtime_Ok. split; [tauto|].
  rewrite Hl. simpl. rewrite fmap_is_Some. unfold management_key in Hk.
  destruct (raw_management raw) as [m|]; [|injection Hk as <-; split; [by split; intros []|done]].
  destruct (os_env _) as [key|]; [|done]. destruct (bool_decide_reflect (key = [])); [done|].
  simpl in Hk. injection Hk as <-. split; [by split; eexists|]. by intros ? [= <-].
Qed.

(** A runtime that serves TLS was built from CA files that were read: leaves
    are served with the certificate of the file behind them and expire after
    the configured hours. *)
Theorem tls_needs_readable_ca `{CF : CaFormat} read now c rt :
  build_runtime resolver roots (fun t => let? _ := load_ca read now t in Ok tt) c = Ok rt →
  tls_configured rt = true →
  ∃ t pem s, cfg_tls c = Some t ∧ read (tr_ca_cert t) = Ok pem ∧ load_ca read now t = Ok s ∧
    pem_cert_to_der pem = Ok (ca_der s) ∧ expiry_hours s = leaf_cert_expiry_hours t.
Proof.
  intros Hb Ht. pose proof Hb as (_ & _ & _ & _ & _ & Htls)%build_runtime_Ok.
  apply Htls in Ht as [[t Et] Hl]. apply (build_runtime_ca _ _ _ _ _ _ Hb Et) in Hl. unfold load_ca, from_pem in *.
  destruct (read (tr_ca_cert t)) as [pem|] eqn:Er; simpl in Hl; [|done].
  destruct (read (tr_ca_key t)) as [kp|] eqn:Ek; simpl in Hl; [|done].
  destruct (key_from_pem kp) as [k|] eqn:Efk; simpl in Hl; [|done].
  destruct (from_ca_cert_pem pem) as [p|] eqn:Efp; simpl in Hl; [|done].
  destruct (self_signed p k) eqn:Es; simpl in Hl; [|done].
  destruct (pem_cert_to_der pem) as [der|] eqn:Ed; simpl in Hl; [|done].
  eexists t, pem, _. rewrite Er, Ek. simpl. rewrite Efk. simpl. rewrite Efp. simpl. rewrite Es. simpl. rewrite Ed. done.
Qed.

(** What a task needs: the configuration asked for it, and its sockets are
    bound by then. *)
Definition granted (config : Config F64) (path : bytes) (runtime : Runtime W) (pre : trace) (t : Task W) : Prop :=
  match t with
  | ServeHttp rt => rt = runtime ∧ Bind Tcp (listen_addr (lk_http (listen config))) true ∈ pre
  | ServeHttps rt => rt = runtime ∧ tls_configured runtime = true ∧
      ∃ l, lk_https (listen config) = Some l ∧ Bind Tcp (listen_addr l) true ∈ pre
  | ServeTunnel rt => rt = runtime ∧
      ∃ l, lk_tunnel (listen config) = Some l ∧ Bind Tcp (listen_addr l) true ∈ pre
  | ServeDnsUdp s up | ServeDnsTcp s up =>
      ∃ d, cfg_dns config = Some d ∧ dns_server d true = Ok (s, up) ∧
        Bind Udp (listen_addr (dn_listen d)) true ∈ pre ∧ Bind Tcp (listen_addr (dn_listen d)) true ∈ pre
  | ServeManagement rt key p keys metrics => rt = runtime ∧ p = path ∧ keys = listen config ∧
      management_api_key config = Some key ∧ metrics = metrics_enabled (observability config) ∧
      ∃ l, lk_management (listen config) = Some l ∧ Bind Tcp (listen_addr l) true ∈ pre
  end.

(** Every task of a trace was granted when it was spawned. *)
Definition all_granted (config : Config F64) (path : bytes) (runtime : Runtime W) (tr : trace) : Prop :=
  ∀ pre t post, tr = pre ++ Spawn t :: post → granted config path runtime pre t.

Lemma all_granted_snoc config path runtime tr e :
  all_granted config path runtime tr → (∀ t, e = Spawn t → granted config path runtime tr t) →
  all_granted config path runtime (tr ++ [e]).
Proof.
  intros Htr He pre t post H. destruct post as [|x post _] using rev_ind.
  - apply app_inj_tail in H as [-> ->]. by apply He.
  - rewrite app_comm_cons, app_assoc in H. apply app_inj_tail in H as [-> _]. by eapply Htr.
Qed.

Lemma all_granted_other config path runtime tr e :
  all_granted config path runtime tr → (∀ t, e ≠ Spawn t) → all_granted config path runtime (tr ++ [e]).
Proof. intros Htr He. apply all_granted_snoc; [done|]. intros t ->. by destruct (He t). Qed.

Lemma all_granted_quiet config path runtime tr :
  Forall (fun e => ∀ t, e ≠ Spawn t) tr → all_granted config path runtime tr.
Proof. intros Htr pre t post ->. apply Forall_app in Htr as [_ Ht]. inversion_clear Ht as [|? ? H]. by destruct (H t). Qed.

End guarantees.

(** One event more: split a longer tail, then decide what the event is. *)
Ltac grant_step :=
  match goal with
  | |- all_granted _ _ _ (?tr ++ ?x :: ?y :: ?r) =>
      change (tr ++ x :: y :: r) with (tr ++ [x] ++ (y :: r)); rewrite (app_assoc tr [x] (y :: r))
  | |- all_granted _ _ _ (_ ++ [Spawn _]) => apply all_granted_snoc; [|intros ? [= <-]; cbn [granted]]
  | |- all_granted _ _ _ (_ ++ [_]) => apply all_granted_other; [|done]
  end.
Ltac grant := repeat grant_step; try assumption.

Section runs.
Context `{YF : YamlFormat} `{RE : RegexEngine} `{CD : ConfigDecoder} `{TS : TelemetrySdk} {W : Type}.
Context (resolver : SecretResolver W) (roots : result unit message) (ca : TlsResolved → result unit message).
Context (read_to_string : bytes → result bytes bytes) (os_env : bytes → option bytes) (tokio_new : result unit bytes).
Context (bind : list (BootEvent F64 W) → Socket → bytes → result unit bytes).

Section stages.
Context (config : Config F64) (path : bytes) (runtime : Runtime W).

Lemma start_optional_granted what bound l task tr :
  all_granted config path runtime tr →
  (∀ pre, Bind Tcp (listen_addr l) true ∈ pre → granted config path runtime pre task) →
  all_granted config path runtime (start_optional bind what bound l task tr).
Proof.
  intros Htr Ht. unfold start_optional, bind_at. destruct (bind _ _ _) as [u|e]; grant.
  apply Ht. set_solver.
Qed.

Lemma start_dns_granted tr :
  all_granted config path runtime tr → all_granted config path runtime (start_dns bind config tr).
Proof.
  intros Htr. unfold start_dns. destruct (cfg_dns config) as [d|] eqn:Ed; [|done].
  unfold spawn_dns. destruct (dns_server d true) as [[s up]|e] eqn:Es; [|by grant].
  unfold bind_at. destruct (bind tr _ _) as [u|e]; simpl; [|by grant].
  destruct (bind _ Tcp _) as [v|e]; simpl; [|by grant].
  grant; exists d; (split_and!; [done|done|set_solver|set_solver]).
Qed.

Lemma serve_granted guard tr :
  all_granted config path runtime tr → all_granted config path runtime (serve bind config path runtime guard tr).2.
Proof.
  intros Htr. unfold serve, bind_at. destruct (bind _ _ _) as [u|e]; [|cbn [snd]; by grant].
  match goal with |- context [start_dns bind config (start_tunnel bind config runtime (start_https bind config runtime ?t))] =>
    assert (all_granted config path runtime t) as H0 by (grant; split; [done|set_solver]); revert H0; generalize t end.
  clear tr Htr u. intros tr Htr.
  assert (all_granted config path runtime (start_https bind config runtime tr)) as H1.
  { unfold start_https. destruct (lk_https _) as [l|] eqn:El; [|done]. destruct (tls_configured runtime) eqn:Et; [|done].
    apply start_optional_granted; [done|]. intros pre Hp. simpl. eauto 6. }
  assert (all_granted config path runtime (start_tunnel bind config runtime (start_https bind config runtime tr))) as H2.
  { unfold start_tunnel. destruct (lk_tunnel _) as [l|] eqn:El; [|done].
    apply start_optional_granted; [done|]. intros pre Hp. simpl. eauto. }
  apply start_dns_granted in H2. revert H2. generalize (start_dns bind config (start_tunnel bind config runtime
    (start_https bind config runtime tr))). clear. intros tr Htr. unfold start_management.
  generalize (shutdown guard). intros o.
  destruct (lk_management _) as [l|] eqn:El; [|destruct o; simpl; by grant].
  destruct (management_api_key config) as [key|] eqn:Ek; [|destruct o; simpl; by grant].
  unfold bind_at. destruct (bind _ _ _) as [u|e]; destruct o; simpl; grant; (split_and!; try done; exists l; set_solver).
Qed.

End stages.

(** A run that gets as far as its listeners. *)
Definition booted (args : list bytes) (path : bytes) (config : Config F64) (runtime : Runtime W) (s : Subscriber F64) : Prop :=
  ∃ yaml, config_arg args = Some path ∧ read_to_string path = Ok yaml ∧ load_str resolver yaml os_env = Ok config ∧
    build_runtime resolver roots ca config = Ok runtime ∧ is_ok tokio_new = true ∧
    init_telemetry (log_format (observability config)) (log_level config) (observability config) = Ok s.

(** What is written before the telemetry is there. *)
Definition warned (config : Config F64) : list (BootEvent F64 W) :=
  map (fun w => Stderr (Fmt "hematite: warning: {warning}"%bs [w])) (cfg_warnings config).

Abbreviation run := (main resolver roots ca read_to_string os_env tokio_new bind).

Lemma warned_quiet config : Forall (fun e => ∀ t, e ≠ Spawn t) (warned config).
Proof. unfold warned. apply Forall_map, Forall_true. done. Qed.

(** Either the run got to its listeners, or it ended with an error on stderr
    and has spawned nothing. *)
Lemma main_cases args :
  (∃ path config runtime s, booted args path config runtime s ∧
     run args = serve bind config path runtime s (warned config ++ [Subscribe s])) ∨
  (∃ code m tr, run args = (code, tr ++ [Stderr m]) ∧ Forall (fun e => ∀ t, e ≠ Spawn t) tr ∧
     code = if bool_decide (config_arg args = None) then EXIT_USAGE else EXIT_FAILURE).
Proof.
  unfold main, booted. destruct (config_arg args) as [path|]; [|right; by eexists _, _, []].
  destruct (read_to_string path) as [yaml|e] eqn:Er; [|right; by eexists _, _, []].
  destruct (load_str resolver yaml os_env) as [c|e] eqn:El; [|right; by eexists _, _, []].
  destruct (build_runtime resolver roots ca c) as [rt|e] eqn:Eb.
  2:{ right. eexists _, _, _. split; [done|]. split; [apply warned_quiet|done]. }
  destruct tokio_new as [[]|e].
  2:{ right. eexists _, _, _. split; [done|]. split; [apply warned_quiet|done]. }
  destruct (init_telemetry _ _ _) as [s|e] eqn:Ei.
  2:{ right. eexists _, _, _. split; [done|]. split; [apply warned_quiet|done]. }
  left. exists path, c, rt, s. split; [|done]. by exists yaml.
Qed.

Lemma spawn_granted args pre t post :
  (run args).2 = pre ++ Spawn t :: post →
  ∃ path config runtime s, booted args path config runtime s ∧ granted config path runtime pre t ∧
    match t with
    | ServeHttps rt | ServeTunnel rt => tls_configured rt = true
    | ServeManagement _ key _ _ _ => key ≠ []
    | _ => True
    end.
Proof.
  intros H. destruct (main_cases args) as [(path & c & rt & s & Hb & Hrun)|(code & m & tr & Hrun & Hq & _)]; rewrite Hrun in H.
  - assert (granted c path rt pre t) as Hg.
    { eapply (serve_granted c path rt); [|exact H]. apply all_granted_other; [|done].
      apply all_granted_quiet, warned_quiet. }
    exists path, c, rt, s. split; [done|]. split; [done|].
    destruct Hb as (yaml & _ & _ & Hl & Hrt & _). destruct (loaded_listeners _ _ _ _ _ _ _ Hl Hrt) as (Ht & _ & Hk).
    destruct t; simpl in Hg; try done.
    + destruct Hg as (-> & ? & ?). done.
    + destruct Hg as (-> & l & El & _). apply Ht. right. by eexists.
    + destruct Hg as (_ & _ & _ & Hkey & _). by apply Hk in Hkey.
  - simpl in H. exfalso.
    assert (Forall (fun e => ∀ t, e ≠ Spawn t) (tr ++ [Stderr m])) as Hf by (apply Forall_app; split; [done|by constructor]).
    rewrite H in Hf. apply Forall_app in Hf as [_ Hf]. inversion_clear Hf as [|? ? Hx]. by destruct (Hx t).
Qed.

(** Nothing is served by a process that has no roots to check upstreams with. *)
Lemma spawn_needs_roots args t : Spawn t ∈ (run args).2 → roots = Ok tt.
Proof.
  intros (pre & post & H)%list_elem_of_split.
  apply spawn_granted in H as (path & c & rt & s & (yaml & _ & _ & _ & Hb & _) & _). by eapply build_runtime_roots.
Qed.

(** Spans leave the process only when the file enables the export, and then
    they go to the endpoint the file names, sampled with a ratio between zero
    and one: the built-in default endpoint is never used. *)
Theorem spans_go_where_configured yaml c s :
  load_str resolver yaml os_env = Ok c →
  init_telemetry (log_format (observability c)) (log_level c) (observability c) = Ok s →
  match sb_provider s with
  | None => otlp_enabled (observability c) = false
  | Some p => otlp_enabled (observability c) = true ∧ otlp_endpoint (observability c) = Some (pv_endpoint p) ∧
      in_unit (pv_sample_ratio p) = true ∧ pv_service_name p = service_name (observability c) ∧
      sb_filter_spans s = false
  end.
Proof.
  intros [raw (_ & _ & _ & Ho & _)%resolve_config_Ok]%load_str_Ok.
  unfold validate_observability, check_that in Ho. unfold init_telemetry, build_otlp_provider_if_enabled, build_otlp_provider.
  destruct (otlp_enabled (observability c)); [|by intros [= <-]].
  destruct (otlp_endpoint (observability c)) as [e|]; [|done].
  destruct (in_unit (sample_ratio (observability c))) eqn:Er; [|done].
  simpl. destruct (build_exporter e); simpl; [|done]. by intros [= <-].
Qed.

(** ** What a process prints on stderr *)

Definition eprinted (tr : list (BootEvent F64 W)) : list message :=
  omap (fun e => match e with Stderr m => Some m | _ => None end) tr.

Lemma eprinted_app tr tr' : eprinted (tr ++ tr') = eprinted tr ++ eprinted tr'.
Proof. apply omap_app. Qed.

Lemma eprinted_optional what bound l task tr : eprinted (start_optional bind what bound l task tr) = eprinted tr.
Proof.
  unfold start_optional, bind_at. destruct (bind _ _ _); rewrite !eprinted_app; simpl; by rewrite !app_nil_r.
Qed.

Lemma eprinted_dns config tr : eprinted (start_dns bind config tr) = eprinted tr.
Proof.
  unfold start_dns, spawn_dns, bind_at. destruct (cfg_dns config) as [d|]; [|done].
  destruct (dns_server d true) as [[s up]|e]; [|rewrite eprinted_app; simpl; by rewrite app_nil_r].
  destruct (bind _ Udp _); simpl; [|rewrite !eprinted_app; simpl; by rewrite !app_nil_r].
  destruct (bind _ Tcp _); simpl; rewrite !eprinted_app; simpl; by rewrite !app_nil_r.
Qed.

(** Once the subscriber is there nothing is printed. *)
Lemma eprinted_serve config path runtime guard tr :
  eprinted (serve bind config path runtime guard tr).2 = eprinted tr.
Proof.
  unfold serve, bind_at. destruct (bind tr _ _); [|cbn [snd]; rewrite !eprinted_app; simpl; by rewrite !app_nil_r].
  match goal with |- context [start_https bind config runtime ?t] => set (tr1 := t) end.
  assert (eprinted tr1 = eprinted tr) as H1 by (unfold tr1; rewrite !eprinted_app; simpl; by rewrite !app_nil_r).
  assert (eprinted (start_dns bind config (start_tunnel bind config runtime (start_https bind config runtime tr1)))
    = eprinted tr) as H2.
  { rewrite eprinted_dns, <- H1. unfold start_tunnel, start_https.
    destruct (lk_tunnel _), (lk_https _), (tls_configured runtime); by rewrite ?eprinted_optional. }
  revert H2. generalize (start_dns bind config (start_tunnel bind config runtime (start_https bind config runtime tr1))).
  intros tr2 H2. generalize (shutdown guard). intros o. unfold start_management, bind_at.
  destruct (lk_management _), (management_api_key config); try destruct (bind _ _ _); destruct o;
    cbn [snd]; rewrite !eprinted_app, H2; simpl; by rewrite ?app_nil_r.
Qed.

(** A process that gets to its listeners has printed the warnings of its
    configuration and nothing else. *)
Lemma booted_eprinted args path config runtime s :
  booted args path config runtime s →
  eprinted (run args).2 = map (fun w => Fmt "hematite: warning: {warning}"%bs [w]) (cfg_warnings config).
Proof.
  intros (yaml & Ha & Hr & Hl & Hrt & Ht & Hs). unfold main. rewrite Ha, Hr, Hl, Hrt, Hs.
  destruct tokio_new as [[]|]; [|done]. rewrite eprinted_serve, eprinted_app. simpl. rewrite app_nil_r.
  induction (cfg_warnings config) as [|w ws IH]; [done|]. simpl. by f_equal.
Qed.

(** ** Everything the file asks for is served *)

Definition spawned (tr : list (BootEvent F64 W)) : list (Task W) :=
  omap (fun e => match e with Spawn t => Some t | _ => None end) tr.

(** The tasks of a configuration, in the order they are spawned. *)
Definition configured_tasks (config : Config F64) (path : bytes) (runtime : Runtime W) : list (Task W) :=
  [ServeHttp runtime]
  ++ match lk_https (listen config) with Some _ => [ServeHttps runtime] | None => [] end
  ++ match lk_tunnel (listen config) with Some _ => [ServeTunnel runtime] | None => [] end
  ++ match cfg_dns config with
     | Some d => match dns_server d true with
                 | Ok (s, up) => [ServeDnsUdp s up; ServeDnsTcp s up]
                 | Err _ => []
                 end
     | None => []
     end
  ++ match lk_management (listen config) with
     | Some _ => [ServeManagement runtime (default [] (management_api_key config)) path (listen config)
                    (metrics_enabled (observability config))]
     | None => []
     end.

Lemma spawned_app tr tr' : spawned (tr ++ tr') = spawned tr ++ spawned tr'.
Proof. apply omap_app. Qed.

Lemma spawned_quiet tr : Forall (fun e => ∀ t, e ≠ Spawn t) tr → spawned tr = [].
Proof. induction 1 as [|e tr He _ IH]; [done|]. destruct e; simpl; try done. by edestruct He. Qed.

Section bound.
Context (Hbind : ∀ tr k addr, bind tr k addr = Ok tt).

Lemma spawned_optional what bound l task tr :
  spawned (start_optional bind what bound l task tr) = spawned tr ++ [task].
Proof. unfold start_optional, bind_at. rewrite Hbind, !spawned_app. simpl. by rewrite app_nil_r. Qed.

Lemma spawned_dns config tr :
  spawned (start_dns bind config tr) = spawned tr ++
    match cfg_dns config with
    | Some d => match dns_server d true with Ok (s, up) => [ServeDnsUdp s up; ServeDnsTcp s up] | Err _ => [] end
    | None => []
    end.
Proof.
  unfold start_dns, spawn_dns, bind_at. destruct (cfg_dns config) as [d|]; [|by rewrite app_nil_r].
  destruct (dns_server d true) as [[s up]|e]; [|by rewrite spawned_app].
  rewrite Hbind. simpl. rewrite Hbind, !spawned_app. simpl. by rewrite !app_nil_r.
Qed.

Lemma booted_spawns args path config runtime s :
  booted args path config runtime s →
  (run args).1 = EXIT_SUCCESS ∧ spawned (run args).2 = configured_tasks config path runtime.
Proof.
  intros (yaml & Ha & Hr & Hl & Hrt & Ht & Hs). unfold main. rewrite Ha, Hr, Hl, Hrt, Hs.
  destruct tokio_new as [[]|]; [|done].
  destruct (loaded_listeners _ _ _ _ _ _ _ Hl Hrt) as (Htls & Hm & _).
  unfold serve, bind_at. rewrite Hbind. fold (warned config).
  assert (∀ m : option message, spawned (match m with Some m => [Log WARN m] | None => [] end) = []) as Hw by (by intros []).
  match goal with |- context [start_https bind config runtime ?t] => set (tr := t) end.
  assert (spawned tr = [ServeHttp runtime]) as Htr.
  { unfold tr. rewrite !spawned_app, spawned_quiet by apply warned_quiet. done. }
  assert (spawned (start_dns bind config (start_tunnel bind config runtime (start_https bind config runtime tr))) = _) as Hd
    by (rewrite spawned_dns; reflexivity).
  assert (spawned (start_tunnel bind config runtime (start_https bind config runtime tr)) = [ServeHttp runtime]
    ++ match lk_https (listen config) with Some _ => [ServeHttps runtime] | None => [] end
    ++ match lk_tunnel (listen config) with Some _ => [ServeTunnel runtime] | None => [] end) as H2.
  { rewrite <- Htr. unfold start_tunnel, start_https. destruct (lk_https _) as [h|] eqn:Eh.
    - rewrite Htls by (left; by eexists). destruct (lk_tunnel _); rewrite !spawned_optional; [by rewrite <- app_assoc|done].
    - destruct (lk_tunnel _); [by rewrite spawned_optional|by rewrite app_nil_r]. }
  rewrite H2 in Hd. unfold configured_tasks, start_management.
  destruct (lk_management (listen config)) as [l|].
  - destruct (management_api_key config) as [key|]; [|destruct Hm as [[? ?] _]; [by eexists|done]].
    unfold bind_at. rewrite Hbind. split; [done|]. cbn [snd]. rewrite !spawned_app, Hd, Hw.
    cbn [spawned omap list_omap default]. rewrite ?app_nil_r, <- !app_assoc. done.
  - split; [done|]. cbn [snd]. rewrite !spawned_app, Hd, Hw. cbn [spawned omap list_omap]. rewrite !app_nil_r, <- !app_assoc. done.
Qed.

(** C19 (boot): take a run whose configuration loads and compiles, whose async
    runtime and telemetry start and whose binds all succeed.  It spawns the
    plain HTTP listener, the TLS and tunnel listeners the file asks for, both
    DNS listeners when the file has a DNS section that compiles, and the
    management listener if the file asks for it, in this order and nothing
    else; and it exits with success.  A DNS section that does not compile is
    left out without ending the process. *)
Theorem boot_serves_configured args path config runtime s :
  booted args path config runtime s →
  (run args).1 = EXIT_SUCCESS ∧ spawned (run args).2 = configured_tasks config path runtime.
Proof. apply booted_spawns. Qed.

End bound.
End runs.

(** The authority as [main] has it loaded: from the files, at a time. *)
Definition ca_loader `{CF : CaFormat} (read_to_string : bytes → result bytes bytes) (since_epoch : option Z)
    (tls : TlsResolved) : result unit message :=
  let? _ := load_ca read_to_string since_epoch tls in Ok tt.

(** C18 (boot): the process fails closed. A task is only ever spawned after
    the configuration file was read, loaded and compiled; it serves the runtime
    compiled from it, and only what the file listens for, on a socket bound
    before. TLS and tunnels are served only when the file has a [tls] section
    whose certificate and key files were read and hold a signing authority,
    and the management API only with a key that is not empty. *)
Theorem boot_fails_closed `{YF : YamlFormat} `{RE : RegexEngine} `{CD : ConfigDecoder} `{TS : TelemetrySdk} `{CF : CaFormat}
    {W : Type} (resolver : SecretResolver W) roots read_to_string now os_env tokio_new bind args pre t post :
  (main resolver roots (ca_loader read_to_string now) read_to_string os_env tokio_new bind args).2
    = pre ++ Spawn t :: post →
  ∃ path config runtime s,
    booted resolver roots (ca_loader read_to_string now) read_to_string os_env tokio_new args path config runtime s ∧
    granted config path runtime pre t ∧
    match t with
    | ServeHttps rt | ServeTunnel rt => tls_configured rt = true ∧
        ∃ tls pem key_pem signer, cfg_tls config = Some tls ∧
          read_to_string (tr_ca_cert tls) = Ok pem ∧ read_to_string (tr_ca_key tls) = Ok key_pem ∧
          from_pem pem key_pem (leaf_cert_expiry_hours tls) now = Ok signer ∧ pem_cert_to_der pem = Ok (ca_der signer)
    | ServeManagement _ key _ _ _ => key ≠ []
    | _ => True
    end.
Proof.
  intros (path & c & rt & s & Hb & Hg & Ht)%spawn_granted. exists path, c, rt, s. split; [done|]. split; [done|].
  destruct Hb as (yaml & _ & _ & _ & Hrt & _).
  assert (tls_configured rt = true → ∃ tls pem key_pem signer, cfg_tls c = Some tls ∧
    read_to_string (tr_ca_cert tls) = Ok pem ∧ read_to_string (tr_ca_key tls) = Ok key_pem ∧
    from_pem pem key_pem (leaf_cert_expiry_hours tls) now = Ok signer ∧ pem_cert_to_der pem = Ok (ca_der signer)) as Hca.
  { intros H. destruct (tls_needs_readable_ca resolver roots read_to_string now c rt Hrt H)
      as (tls & pem & signer & Htls & Hp & Hl & Hd & _). unfold load_ca in Hl. rewrite Hp in Hl. simpl in Hl.
    destruct (read_to_string (tr_ca_key tls)) as [kp|] eqn:Ek; simpl in Hl; [|done].
    destruct (from_pem _ _ _ _) as [s'|] eqn:Ef; [|done]. injection Hl as ->.
    by exists tls, pem, kp, signer. }
  destruct t; simpl in Hg; try done; destruct Hg as [-> _]; eauto.
Qed.

Theorem served_with_roots `{YF : YamlFormat} `{RE : RegexEngine} `{CD : ConfigDecoder} `{TS : TelemetrySdk} {W : Type}
    (resolver : SecretResolver W) certs errors ca read env tokio bind args t :
  Spawn t ∈ (main resolver (native_upstream_config certs errors) ca read env tokio bind args).2 → certs ≠ [].
Proof.
  intros H%spawn_needs_roots. unfold native_upstream_config in H. by case_bool_decide.
Qed.

(** ** An example *)

Definition ex_dns_section : DnsSection :=
  {| dns_enabled := true; dns_listen := None; dns_proxy_ip := Some "10.0.0.1"%bs; dns_upstream_resolver := None;
     dns_passthrough := ["*.corp.test"%bs];
     dns_records := [{| dr_name := "Api.Example.com."%bs; record_type := "A"%bs; dr_value := "10.0.0.7"%bs |};
                     {| dr_name := "api.example.com"%bs; record_type := "A"%bs; dr_value := "10.0.0.8"%bs |}] |}.

(** The file of [plain_yaml], with every listener. *)
Definition full_raw : RawConfig Z :=
  {| raw_dns := Some ex_dns_section;
     raw_proxy := {| ps_http_listen := Some ":8080"%bs; ps_https_listen := Some ":8443"%bs;
                     ps_tunnel_listen := Some "127.0.0.1:1080"%bs;
                     ps_max_request_body_bytes := None; ps_max_response_body_bytes := None;
                     ps_upstream_response_header_timeout := None; ps_upstream_deny_cidrs := None;
                     ps_http_proxy := None; ps_https_proxy := None; ps_no_proxy := None;
                     ps_tunnel_passthrough_domains := None |};
     raw_tls := Some {| ts_ca_cert := "ca.pem"%bs; ts_ca_key := "ca.key"%bs; ts_cert_cache_size := None;
                        ts_leaf_cert_expiry_hours := None |};
     raw_transforms := raw_transforms ex_raw;
     raw_management := Some {| ms_listen := ":9000"%bs; ms_api_key_env := Some "KEY"%bs |};
     raw_log_level := None; raw_observability := raw_observability ex_raw |}.

#[export] Instance quiet_sdk : TelemetrySdk := {| filter_valid _ := true; build_exporter _ := Ok tt; provider_shutdown _ := Flushed |}.

Definition full_env (name : bytes) : option bytes := if name ≟ "KEY"%bs then Some "k3y"%bs else None.

Definition full_config : Config Z :=
  unwrap_or no_config (load_str (YF := yaml_of full_raw) ex_resolver [] full_env).
Definition full_runtime : Runtime nat := built_runtime full_config.
Definition full_subscriber : Subscriber Z :=
  {| sb_json := true; sb_filter := "info"%bs; sb_filter_spans := true; sb_provider := None |}.

Definition full_args : list bytes := ["-config"%bs; "hematite.yaml"%bs].

Definition full_run : Z * list (BootEvent Z nat) :=
  main (YF := yaml_of full_raw) ex_resolver (Ok tt) (fun _ => Ok tt) (fun _ => Ok []) full_env (Ok tt)
    (fun _ _ _ => Ok tt) full_args.

(** The task spawned at a position of a trace. *)
Definition task_at (n : nat) (tr : list (BootEvent Z nat)) : option (Task nat) :=
  match tr !! n with Some (Spawn t) => Some t | _ => None end.

Lemma task_at_split n tr t : task_at n tr = Some t → tr = take n tr ++ Spawn t :: drop (S n) tr.
Proof.
  unfold task_at. destruct (tr !! n) as [[]|] eqn:E; intros [= <-]. symmetry. by apply take_drop_middle.
Qed.

Definition full_task (n : nat) : Task nat := default (ServeHttp no_runtime) (task_at n full_run.2).

Lemma full_booted :
  booted (YF := yaml_of full_raw) ex_resolver (Ok tt) (fun _ => Ok tt) (fun _ => Ok []) full_env (Ok tt)
    full_args "hematite.yaml"%bs full_config full_runtime full_subscriber.
Proof.
  exists []. split; [vm_compute; reflexivity|]. split; [reflexivity|].
  split; [apply is_ok_unwrap; vm_compute; reflexivity|].
  split; [apply is_ok_unwrap; vm_compute; reflexivity|]. split; vm_compute; reflexivity.
Qed.

Lemma boot_serves_configured_witness :
  full_run.1 = EXIT_SUCCESS ∧ length (spawned (YF := yaml_of full_raw) full_run.2) = 6 ∧
  spawned (YF := yaml_of full_raw) full_run.2
    = configured_tasks (YF := yaml_of full_raw) full_config "hematite.yaml"%bs full_runtime.
Proof.
  destruct (boot_serves_configured (YF := yaml_of full_raw) ex_resolver (Ok tt) (fun _ => Ok tt) (fun _ => Ok [])
    full_env (Ok tt) (fun _ _ _ => Ok tt) ltac:(intros; reflexivity) full_args "hematite.yaml"%bs full_config
    full_runtime full_subscriber) as [H1 H2].
  - exact full_booted.
  - split; [exact H1|]. split; [|exact H2]. vm_compute. reflexivity.
Defined.

(** Files whose certificate block holds three bytes, and an rcgen that takes
    what it is given. *)
Definition ex_files (path : bytes) : result bytes bytes :=
  if path ≟ "ca.pem"%bs then Ok (BEGIN_CERT ++ "QUJD"%bs ++ END_CERT) else Ok [].

#[export] Instance trusting_ca : CaFormat unit unit :=
  {| key_from_pem _ := Ok tt; from_ca_cert_pem _ := Ok tt; self_signed _ _ := Ok tt |}.

Definition tls_run : Z * list (BootEvent Z nat) :=
  main (YF := yaml_of full_raw) ex_resolver (Ok tt) (ca_loader ex_files (Some 1%Z)) ex_files full_env (Ok tt)
    (fun _ _ _ => Ok tt) full_args.

Definition tls_task : Task nat := default (ServeHttp no_runtime) (task_at 6 tls_run.2).

Lemma boot_fails_closed_witness :
  match tls_task with
  | ServeHttps rt => tls_configured rt = true ∧ ∃ der, pem_cert_to_der (BEGIN_CERT ++ "QUJD"%bs ++ END_CERT) = Ok der
  | _ => False
  end.
Proof.
  destruct (boot_fails_closed (YF := yaml_of full_raw) ex_resolver (Ok tt) ex_files (Some 1%Z) full_env (Ok tt)
    (fun _ _ _ => Ok tt) full_args (take 6 tls_run.2) tls_task (drop 7 tls_run.2))
    as (path & c & rt & s & Hb & Hg & Ht).
  - apply (task_at_split 6). unfold tls_task.
    assert (bool_decide (is_Some (task_at 6 tls_run.2)) = true) as H by (vm_compute; reflexivity).
    destruct (task_at 6 tls_run.2); [reflexivity|discriminate H].
  - assert (match tls_task with ServeHttps _ => true | _ => false end = true) as H by (vm_compute; reflexivity).
    destruct tls_task; try discriminate H. destruct Ht as [Ht _]. split; [exact Ht|].
    eexists. vm_compute. reflexivity.
Defined.

(** Both records name the same host: the later one answers. *)
Lemma configured_names_answered_witness :
  match dns_server {| dn_listen := ":53"%bs; dn_proxy_ip := 167772161; dn_upstream_resolver := "1.1.1.1:53"%bs;
                      dn_passthrough := dns_passthrough ex_dns_section;
                      dn_records := map (fun r => (dr_name r, record_type r, dr_value r)) (dns_records ex_dns_section) |} true with
  | Ok (s, up) =>
      up = SocketV4 16843009 53 ∧
      DnsServer.resolve (ds_config s)
        {| q_id := 1; q_rd := true; q_name := "api.example.com."%bs; q_type := TYPE_A; q_class := 1; question_raw := [] |}
      = DAnswer [AnswerA 167772168 DNS_TTL]
  | Err _ => False
  end.
Proof.
  destruct (dns_server _ true) as [[s up]|e] eqn:E; [|vm_compute in E; discriminate E].
  split; [vm_compute in E; congruence|].
  destruct (configured_names_answered _ _ _ _
    {| q_id := 1; q_rd := true; q_name := "api.example.com."%bs; q_type := TYPE_A; q_class := 1; question_raw := [] |} E)
    as (r & Hr & _ & H). vm_compute in Hr. injection Hr as <-. exact H.
Defined.

Lemma spans_go_where_configured_witness : otlp_enabled (observability full_config) = false.
Proof.
  apply (spans_go_where_configured (YF := yaml_of full_raw) ex_resolver full_env [] full_config full_subscriber).
  - apply is_ok_unwrap. vm_compute. reflexivity.
  - vm_compute. reflexivity.
Defined.
