(* ===== verification/System.v ===== *)
(** * The running process

    What [main] leaves behind, as a whole: the listeners serve connections and
    requests, the management API swaps the runtime under them at any await, and
    every effect of any of it is traced back to a configuration file that was
    loaded.  A step is a whole handler, with what happens while it waits: calls
    of the management API, and other handlers using the resolver's cache.  The
    network and the cache are whatever the other tasks left, so each step starts
    from any and the cache may be any other after each await. *)

From S2P Require Import Prelude Net Json Matcher Summary Pipeline Secrets KernelConfig Custody SerdeModel KernelTheorems KernelAudit Resolver Dial Tunnel Proxy Http HttpTheorems Listen ListenTheorems ProxyConfig ConfigTheorems Management Emission AuditSchema Metrics MetricsTheorems AuditSink Boot.

Section process.
Context `{YF : YamlFormat} `{RE : RegexEngine} `{CD : ConfigDecoder}.
Context {N W Stream : Type} `{NW : !Network N Stream} `{HY : !Hyper N Stream} `{LG : !Leg N Stream}.
Context (resolver : SecretResolver W) (roots : result unit message) (ca : TlsResolved → result unit message).
Context (os_env : bytes → option bytes).

(** What [serve_management] is given at boot, in a process that has it. *)
Record Api : Type := { api_key : bytes; api_listen : ListenKeys; api_metrics : bool }.

Context (api : option Api).

(** A request to the management API, the configuration file as it is then, and
    the metrics page as it is rendered then. *)
Record Call : Type := { cl_request : HttpRequest; cl_file : result bytes bytes; cl_page : bytes }.

(** The runtime in force after a call; without the API nobody listens. *)
Definition call (c : Call) (rt : Runtime W) : Runtime W :=
  match api with
  | Some a => (service resolver roots ca (api_metrics a) (cl_page c) (api_key a) (cl_file c) (api_listen a) os_env
                 (cl_request c) rt).1.2
  | None => rt
  end.

(** What happens while a handler awaits: also what the other tasks do to the
    world its secrets are resolved in. *)
Inductive Beat : Type := Go | Gone | Moved (w : W) | Managed (c : Call).

(** The ticks the handler sees, and the runtime in force at the end. *)
Fixpoint schedule (beats : list Beat) (rt : Runtime W) : list (Tick W) * Runtime W :=
  match beats with
  | [] => ([], rt)
  | Go :: beats => let '(ticks, rt) := schedule beats rt in (Proceed :: ticks, rt)
  | Gone :: beats => let '(ticks, rt) := schedule beats rt in (DropFuture :: ticks, rt)
  | Moved w :: beats => let '(ticks, rt) := schedule beats rt in (Others w :: ticks, rt)
  | Managed c :: beats =>
      let rt := call c rt in
      let '(ticks, rt') := schedule beats rt in (Swap rt :: ticks, rt')
  end.

(** A request comes over a plain connection, or over the [k]-th connection the
    other two listeners handed over. *)
Inductive Via : Type := Plain (remote : bytes) | HandedOver (k : nat).

Inductive Step : Type :=
| Manage (c : Call)
| Request (via : Via) (req : HttpRequest) (n : N) (w : W) (beats : list Beat)
| TunnelConn (remote : bytes) (n : Conn N) (w : W) (beats : list Beat)
| HttpsConn (remote : bytes) (n : Conn N) (w : W) (beats : list Beat).

(** The runtime in force, the connections handed over, and the log: each step
    with what it did. *)
Record Process : Type := {
  p_runtime : Runtime W;
  p_conns : list ConnCtx;
  p_log : list (Step * list Event);
}.

Definition enter {M} (n : M) (w : W) (rt : Runtime W) (ticks : list (Tick W)) : St M W :=
  {| emitted := false; net := n; world := w; shared := rt; sched := ticks |}.

Definition via_conn (p : Process) (via : Via) : option ConnCtx :=
  match via with Plain remote => Some (http_ctx remote) | HandedOver k => p_conns p !! k end.

Definition handed_conn (ex : Exit (result Handed bytes)) : list ConnCtx :=
  match ex with Done (Ok (Serve ctx)) => [ctx] | _ => [] end.

(** The process after a step; [None] for a connection that is not there. *)
Definition perform (s : Step) (p : Process) : option Process :=
  match s with
  | Manage c =>
      Some {| p_runtime := call c (p_runtime p); p_conns := p_conns p; p_log := p_log p ++ [(s, [])] |}
  | Request via req n w beats =>
      ctx ← via_conn p via;
      let '(ticks, rt) := schedule beats (p_runtime p) in
      let run := handle req ctx (enter n w (p_runtime p) ticks) in
      Some {| p_runtime := rt; p_conns := p_conns p; p_log := p_log p ++ [(s, run.1.2)] |}
  | TunnelConn remote n w beats =>
      let '(ticks, rt) := schedule beats (p_runtime p) in
      let run := handle_tunnel remote (enter n w (p_runtime p) ticks) in
      Some {| p_runtime := rt; p_conns := p_conns p ++ handed_conn run.1.1; p_log := p_log p ++ [(s, run.1.2)] |}
  | HttpsConn remote n w beats =>
      let '(ticks, rt) := schedule beats (p_runtime p) in
      let run := terminate_and_serve remote None (enter n w (p_runtime p) ticks) in
      Some {| p_runtime := rt; p_conns := p_conns p ++ handed_conn run.1.1; p_log := p_log p ++ [(s, run.1.2)] |}
  end.

Fixpoint performs (steps : list Step) (p : Process) : option Process :=
  match steps with
  | [] => Some p
  | s :: steps => p ← perform s p; performs steps p
  end.

(** The process when its listeners are spawned. *)
Definition started (rt : Runtime W) : Process := {| p_runtime := rt; p_conns := []; p_log := [] |}.

(** ** Where a runtime comes from *)

(** The text a call with the key reloads from. *)
Definition keyed (c : Call) (yaml : bytes) : Prop :=
  ∃ a, api = Some a ∧ cl_file c = Ok yaml ∧ rq_method (cl_request c) = "POST"%bs ∧
    uri_path (rq_uri (cl_request c)) = "/v1/reload"%bs ∧
    header_str "authorization"%bs (rq_headers (cl_request c)) = Some ("Bearer "%bs ++ api_key a).

Definition beat_calls (beats : list Beat) : list Call :=
  omap (fun b => match b with Managed c => Some c | _ => None end) beats.

Definition step_calls (s : Step) : list Call :=
  match s with
  | Manage c => [c]
  | Request _ _ _ _ beats | TunnelConn _ _ _ beats | HttpsConn _ _ _ beats => beat_calls beats
  end.

(** A text the process may run on: the one it booted with, or one that was in
    the file when somebody with the key asked for a reload. *)
Definition source (boot : bytes) (calls : list Call) (yaml : bytes) : Prop :=
  yaml = boot ∨ ∃ c, c ∈ calls ∧ keyed c yaml.

(** The listeners of the boot, which the API is given. *)
Context (current_listen : ListenKeys) (Hlisten : ∀ a, api = Some a → api_listen a = current_listen).

(** The runtime of such a text, with the listeners of the boot. *)
Definition configured (src : bytes → Prop) (rt : Runtime W) : Prop :=
  ∃ yaml c, src yaml ∧ load_str resolver yaml os_env = Ok c ∧ listen c = current_listen ∧
    build_runtime resolver roots ca c = Ok rt.

Lemma configured_mono (src src' : bytes → Prop) rt :
  (∀ yaml, src yaml → src' yaml) → configured src rt → configured src' rt.
Proof. intros Hs (yaml & c & ? & ?). exists yaml, c. auto. Qed.

Lemma configured_loaded src rt : configured src rt → loaded rt.
Proof.
  intros (yaml & c & _ & _ & _ & ((bp & Hb & Hp) & _)%build_runtime_Ok).
  unfold build_pipeline_with_resolver in Hb. by eexists _, _, bp.
Qed.

#[local] Instance configured_plain src : PlainPipelines (configured src).
Proof. intros rt Hrt. by eapply loaded_registered, configured_loaded. Qed.

(** A call swaps the runtime only with the key, and then to that of the file. *)
Lemma call_cases c rt :
  call c rt = rt ∨ ∃ a yaml cfg, api = Some a ∧ keyed c yaml ∧ load_str resolver yaml os_env = Ok cfg ∧
    listen cfg = api_listen a ∧ build_runtime resolver roots ca cfg = Ok (call c rt).
Proof.
  unfold call, keyed. destruct api as [a|]; [|by left].
  destruct (service resolver roots ca (api_metrics a) (cl_page c) (api_key a) (cl_file c) (api_listen a) os_env
    (cl_request c) rt) as [[[code msg] rt'] counted] eqn:E.
  apply service_cases in E as [Hc Hkey]. simpl. destruct counted as [[]|]; [|left; tauto|by left]. right.
  destruct Hc as (_ & yaml & cfg & Hf & Hl & Hlk & Hb). destruct Hkey as (Hm & Hp & Ha); [done|].
  exists a, yaml, cfg. split_and!; try done. by exists a.
Qed.

Lemma call_configured src c rt :
  (∀ yaml, keyed c yaml → src yaml) → configured src rt → configured src (call c rt).
Proof.
  intros Hk Hrt. destruct (call_cases c rt) as [->|(a & yaml & cfg & Ha & Hkd & Hl & Hlk & Hb)]; [done|].
  exists yaml, cfg. split_and!; [by apply Hk|done| |done]. rewrite Hlk. by apply Hlisten.
Qed.

(** Every runtime of the schedule is one of a source. *)
Lemma schedule_configured src beats rt :
  (∀ c yaml, c ∈ beat_calls beats → keyed c yaml → src yaml) → configured src rt →
  Forall (governed_tick (configured src)) (schedule beats rt).1 ∧ configured src (schedule beats rt).2.
Proof.
  revert rt. induction beats as [|b beats IH]; intros rt Hk Hrt; [done|].
  assert (∀ c yaml, c ∈ beat_calls beats → keyed c yaml → src yaml) as Hk'.
  { intros c yaml Hc. apply Hk. destruct b; [done..|]. by right. }
  destruct b as [| |w|c]; simpl.
  1-3: specialize (IH rt Hk' Hrt); destruct (schedule beats rt) as [ticks rt']; destruct IH; (split; [by constructor|done]).
  assert (configured src (call c rt)) as Hc.
  { apply call_configured; [|done]. intros yaml. apply Hk. left. }
  specialize (IH _ Hk' Hc). destruct (schedule beats (call c rt)) as [ticks rt']. destruct IH. split; [by constructor|done].
Qed.

(** ** Without the key *)

Lemma call_unkeyed c rt : (∀ yaml, ¬ keyed c yaml) → call c rt = rt.
Proof. intros Hk. destruct (call_cases c rt) as [?|(a & yaml & cfg & _ & Hkd & _)]; [done|]. by destruct (Hk yaml). Qed.

Lemma schedule_unkeyed beats rt :
  (∀ c yaml, c ∈ beat_calls beats → ¬ keyed c yaml) → (schedule beats rt).2 = rt.
Proof.
  intros Hk. induction beats as [|b beats IH]; [done|].
  assert ((schedule beats rt).2 = rt) as IH' by (apply IH; intros c yaml Hc; apply Hk; destruct b; [done..|by right]).
  destruct b as [| |w|c]; simpl; [by destruct (schedule beats rt)..|].
  rewrite call_unkeyed by (intros yaml; apply Hk; left). by destruct (schedule beats rt).
Qed.

Lemma performs_unkeyed steps p p' :
  (∀ s c yaml, s ∈ steps → c ∈ step_calls s → ¬ keyed c yaml) →
  performs steps p = Some p' → p_runtime p' = p_runtime p.
Proof.
  revert p. induction steps as [|s steps IH]; intros p Hk H; simpl in H; [by simplify_eq|].
  destruct (perform s p) as [p1|] eqn:E; [|done]. simpl in H. rewrite (IH p1); [|set_solver|done].
  assert (∀ c yaml, c ∈ step_calls s → ¬ keyed c yaml) as Hs by set_solver.
  destruct s as [c|via req n w beats|remote n w beats|remote n w beats]; simpl in E, Hs.
  - injection E as <-. apply call_unkeyed. intros yaml. apply Hs. left.
  - destruct (via_conn p via); [|done]. simpl in E. pose proof (schedule_unkeyed beats (p_runtime p) Hs).
    destruct (schedule beats (p_runtime p)). by simplify_eq/=.
  - pose proof (schedule_unkeyed beats (p_runtime p) Hs). destruct (schedule beats (p_runtime p)). by simplify_eq/=.
  - pose proof (schedule_unkeyed beats (p_runtime p) Hs). destruct (schedule beats (p_runtime p)). by simplify_eq/=.
Qed.

(** ** What a process has done *)

Context `{HL : !HyperLaws HY}.

(** The worlds secrets are resolved in during a step. *)
Definition beat_world (b : Beat) : option W := match b with Moved w => Some w | _ => None end.

Definition step_worlds (s : Step) : list W :=
  match s with
  | Manage _ => []
  | Request _ _ _ w beats | TunnelConn _ _ w beats | HttpsConn _ _ w beats =>
      w :: omap beat_world beats
  end.

Lemma schedule_worlds beats (rt : Runtime W) : omap moved_to (schedule beats rt).1 = omap beat_world beats.
Proof.
  revert rt. induction beats as [|[| |w|c] beats IH]; intros rt; [done|..]; simpl.
  1-3: specialize (IH rt); destruct (schedule beats rt); simpl; first [exact IH|f_equal; exact IH].
  specialize (IH (call c rt)). destruct (schedule beats (call c rt)). exact IH.
Qed.

(** A connection that was handed over after some steps: it stands for a tunnel
    target only when one of them was a tunnel connection whose CONNECT for this
    target a runtime of a source let through. *)
Definition opened (src : bytes → Prop) (done : list Step) (ctx : ConnCtx) : Prop :=
  accepted (W := W) ctx ∧
  ∀ h port, forced_upstream ctx = Some (h, port) →
    ∃ remote c w beats rt target w', TunnelConn remote c w beats ∈ done ∧ configured src rt ∧
      w' ∈ w :: omap beat_world beats ∧ approves remote w' target rt ∧ h = ct_host target ∧ port = ct_port target.

(** The context of the connection a request came over, of the connections
    [conns] that were handed over. *)
Definition came_via (src : bytes → Prop) (done : list Step) (conns : list ConnCtx) (via : Via) (ctx : ConnCtx) : Prop :=
  match via with
  | Plain remote => ctx = http_ctx remote
  | HandedOver k => conns !! k = Some ctx ∧ opened src done ctx
  end.

Lemma came_via_accepted src done conns via ctx : came_via src done conns via ctx → accepted (W := W) ctx.
Proof. destruct via; [intros ->; apply accept_http|by intros [_ [? _]]]. Qed.

(** A step was let through by the pipeline of a runtime, and did no more than
    that. A request: every transform continued on it, with its resolved target;
    it dialed addresses of this target only, which the guard permits, and sent
    what is built from the request the pipeline left. A tunnel connection: its
    CONNECT was let through, and what left went to its target. *)
Definition let_through (src : bytes → Prop) (done : list Step) (conns : list ConnCtx) (rt : Runtime W) (s : Step)
    (evs : list Event) : Prop :=
  match s with
  | Request via req n _ _ => ∃ ctx target buffered over rest trs caps summary w w',
      w ∈ step_worlds s ∧ came_via src done conns via ctx ∧
      resolve_target req ctx = Ok target ∧ has_dot_segment (t_path target) = false ∧
      body_read (max_request_body_bytes rt) [] (rq_body req) (Ok (buffered, over, rest)) ∧
      continues (rt_pipeline rt) (request_summary ctx req target (max_request_body_bytes rt) over buffered)
        w trs caps summary w' ∧
      ∀ e, e ∈ evs →
        match e with
        | Dialed a => permitted (rt_guard rt) a ∧
            a ∈ (connect_upstream MkAllowProof (t_host target) (t_port target) (scheme_https ctx) (rt_guard rt) n).1.2
        | Sent ur => build_upstream summary (is_websocket req) over buffered rest = Ok ur
        | Bridged => is_websocket req = true
        | Spliced _ => False
        | _ => True
        end
  | TunnelConn remote c _ _ => ∃ target w, w ∈ step_worlds s ∧ approves remote w target rt ∧
      approved_for (wire c) rt target evs
  | Manage _ | HttpsConn _ _ _ _ => False
  end.

(** What a step did is accounted for, after the steps before it: when anything
    left, a runtime of a source let this very step through; records are those
    of the listeners. *)
Definition accounted (src : bytes → Prop) (done : list Step) (conns : list ConnCtx) (s : Step) (evs : list Event) : Prop :=
  (existsb is_egress evs = true → ∃ rt, configured src rt ∧ let_through src done conns rt s evs) ∧
  (∀ r l, Emitted r l ∈ evs → served (W := W) r).

(** The texts a process booted with [boot] may run on after some steps. *)
Definition sources (boot : bytes) (done : list Step) : bytes → Prop := source boot (done ≫= step_calls).

Record sound (boot : bytes) (done : list Step) (p : Process) : Prop := {
  sound_runtime : configured (sources boot done) (p_runtime p);
  sound_conns : Forall (opened (sources boot done) done) (p_conns p);
  sound_steps : map fst (p_log p) = done;
  sound_log i s evs : p_log p !! i = Some (s, evs) →
    accounted (sources boot (take (S i) done)) (take i done) (p_conns p) s evs;
}.

Lemma sources_app boot done s yaml : sources boot done yaml → sources boot (done ++ [s]) yaml.
Proof.
  intros [->|(c & Hc & Hk)]; [by left|]. right. exists c. split; [|done].
  apply list_elem_of_bind in Hc as (x & Hx & Hin). apply list_elem_of_bind. exists x. split; [done|].
  apply elem_of_app. by left.
Qed.

Lemma sources_own boot done s c yaml : c ∈ step_calls s → keyed c yaml → sources boot (done ++ [s]) yaml.
Proof.
  intros Hc Hk. right. exists c. split; [|done]. apply list_elem_of_bind. exists s. split; [done|].
  apply elem_of_app. right. by apply list_elem_of_singleton.
Qed.

Lemma opened_mono (src src' : bytes → Prop) done done' ctx :
  (∀ yaml, src yaml → src' yaml) → done ⊆ done' → opened src done ctx → opened src' done' ctx.
Proof.
  intros Hs Hd [Ha Ho]. split; [done|]. intros h port Hf.
  destruct (Ho h port Hf) as (remote & c & w & beats & rt & target & w' & Hin & Hc & ?).
  exists remote, c, w, beats, rt, target, w'. split_and!; try tauto; [by apply Hd|by eapply configured_mono].
Qed.

Lemma governed_runtimes (G : Runtime W → Prop) {M} (st : St M W) rt : governed G st → rt ∈ runtimes st → G rt.
Proof.
  intros [Hs Ht] [->|Hin]%elem_of_cons; [done|]. apply list_elem_of_omap in Hin as (t & Hin & Hr).
  rewrite Forall_forall in Ht. specialize (Ht t Hin). by destruct t; simplify_eq/=.
Qed.

Lemma governed_loaded src {M} (st : St M W) : governed (configured src) st → loaded_st st.
Proof.
  intros [Hs Ht]. split; [by eapply configured_loaded|]. eapply Forall_impl; [exact Ht|].
  intros [| |rt|w] Hrt; try done. by eapply configured_loaded.
Qed.

Lemma record_of evs r l : Emitted r l ∈ evs → r ∈ map fst (records evs).
Proof.
  intros Hin. apply list_elem_of_fmap. exists (r, l). split; [done|].
  apply list_elem_of_omap. by exists (Emitted r l).
Qed.

Lemma egress_some evs : existsb is_egress evs = true → ∃ e, e ∈ evs ∧ is_egress e = true.
Proof. intros (e & Hin%list_elem_of_In & He)%existsb_exists. eauto. Qed.

Lemma accounted_more src done conns more s evs : accounted src done conns s evs → accounted src done (conns ++ more) s evs.
Proof.
  intros [Hl Hr]. split; [|done]. intros He. destruct (Hl He) as (rt & Hrt & H). exists rt. split; [done|].
  destruct s as [|via req n w beats| |]; simpl in *; try done.
  destruct H as (ctx & target & buffered & over & rest & trs & caps & summary & w1 & w' & Hw & Hc & H).
  exists ctx, target, buffered, over, rest, trs, caps, summary, w1, w'. split; [done|]. split; [|done].
  destruct via as [|k]; [done|]. destruct Hc as [Hk Ho]. split; [by apply lookup_app_l_Some|done].
Qed.

Lemma request_accounted src done conns via req ctx n w beats (st : St N W) :
  let s := Request via req n w beats in
  came_via src done conns via ctx → governed (configured src) st → worlds st = step_worlds s → net st = n →
  accounted src done conns s (handle req ctx st).1.2.
Proof.
  intros s Hc Hst Hw Hn. split.
  - intros He%egress_some. destruct (handle req ctx st) as [[ex evs] st'] eqn:Eh.
    destruct (egress_ran req ctx st ex evs st' Eh (or_introl He)) as
      (target & buffered & over & rest & po & summary & (Ht & Hd & Hbody & w1 & w' & Hin & Hr) & [proof Ho] & Hev).
    exists (shared st). destruct Hst as [Hrt _]. split; [done|].
    apply evaluate_request_run in Hr as (caps & Hrun & _).
    destruct (configured_loaded _ _ Hrt) as (specs & rs & bp & Hb & Hp).
    pose proof Hrun as Hmeta. rewrite Hp in Hmeta.
    apply (run_meta _ _ _ _ _ _ _ _ _ _ Hb) in Hmeta as (Hh & _ & _ & Hpt & _).
    rewrite Ho in Hrun. apply run_continue_inv in Hrun. rewrite Hw in Hin.
    exists ctx, target, buffered, over, rest, (request_traces po), caps, summary, w1, w'. split_and!; try done.
    intros e Hine. destruct e; try done; specialize (Hev _ Hine eq_refl); simpl in Hev; try done.
    split; [by apply (proj1 (Forall_forall _ _) (dialed_for_permitted (shared st) ctx summary (net st)))|].
    unfold dialed_for in Hev. rewrite (dial_target_resolved req ctx target) in Hev by done. by rewrite <- Hn.
  - intros r l Hin. eapply served_request; [by eapply came_via_accepted|by eapply governed_loaded|by eapply record_of].
Qed.

Lemma tunnel_accounted src done conns remote c w beats (st : St (Conn N) W) :
  let s := TunnelConn remote c w beats in
  governed (configured src) st → worlds st = step_worlds s → net st = c →
  accounted src done conns s (handle_tunnel remote st).1.2 ∧
  Forall (opened src (done ++ [s])) (handed_conn (handle_tunnel remote st).1.1).
Proof.
  intros s Hst Hw Hn. pose proof (governed_loaded _ _ Hst) as Hl.
  pose proof (handle_tunnel_approved remote st) as Ha. unfold wp in Ha.
  pose proof (λ r, served_tunnel r remote st Hl) as Hserved. pose proof (λ ctx, accept_tunnel remote st ctx Hl) as Hacc.
  destruct (handle_tunnel remote st) as [[ex evs] st']. simpl in *.
  assert (∀ rt w1 target, rt ∈ runtimes st → w1 ∈ worlds st → approves remote w1 target rt →
    configured src rt ∧ w1 ∈ step_worlds s) as Hfrom.
  { intros rt w1 target Hrt Hw1 _. split; [by eapply governed_runtimes|by rewrite Hw in Hw1]. }
  split; [split|].
  - intros He. destruct Ha as [[Ha _]|(rt & w1 & target & Hrt & Hw1 & Happ & Hfor & _)]; [congruence|].
    destruct (Hfrom rt w1 target) as [? ?]; [done..|]. exists rt. split; [done|]. exists target, w1. by rewrite <- Hn.
  - intros r l Hin. eapply Hserved, record_of, Hin.
  - unfold handed_conn. destruct ex as [[[|ctx]|]|]; try constructor; [|constructor]. split; [by apply Hacc|].
    intros h port Hf. destruct Ha as [[_ Ha]|(rt & w1 & target & Hrt & Hw1 & Happ & _ & Hc)]; [by destruct (Ha ctx)|].
    destruct (Hfrom rt w1 target) as [? ?]; [done..|]. rewrite (Hc ctx eq_refl) in Hf. injection Hf as <- <-.
    exists remote, c, w, beats, rt, target, w1. split_and!; try done. apply elem_of_app. right. by apply list_elem_of_singleton.
Qed.

Lemma https_accounted src done conns remote c w beats (st : St (Conn N) W) :
  governed (configured src) st →
  accounted src done conns (HttpsConn remote c w beats) (terminate_and_serve remote None st).1.2 ∧
  ∀ done', Forall (opened src done') (handed_conn (terminate_and_serve remote None st).1.1).
Proof.
  intros Hst. pose proof (governed_loaded _ _ Hst) as Hl. pose proof (terminate_post remote None st) as Ha. unfold wp in Ha.
  pose proof (λ r, served_https r remote st Hl) as Hserved. pose proof (λ ctx, accept_https remote st ctx Hl) as Hacc.
  destruct (terminate_and_serve remote None st) as [[ex evs] st']. destruct Ha as [Ha Hc]. simpl in *.
  split; [split|].
  - intros He. congruence.
  - intros r l Hin. eapply Hserved, record_of, Hin.
  - intros done'. unfold handed_conn. destruct ex as [[[|ctx]|]|]; try constructor; [|constructor]. split; [by apply Hacc|].
    destruct (Hc ctx eq_refl) as (_ & _ & _ & -> & _). done.
Qed.

(** One more step in the log. *)
Lemma sound_step boot done p s evs rt conns :
  sound boot done p →
  configured (sources boot (done ++ [s])) rt →
  Forall (opened (sources boot (done ++ [s])) (done ++ [s])) conns →
  accounted (sources boot (done ++ [s])) done (p_conns p) s evs →
  sound boot (done ++ [s])
    {| p_runtime := rt; p_conns := p_conns p ++ conns; p_log := p_log p ++ [(s, evs)] |}.
Proof.
  intros [_ Hc Hsteps Hlog] Hrt Hconns Hacc. split; simpl; [done|..].
  - apply Forall_app. split; [|done]. eapply Forall_impl; [exact Hc|]. intros ctx. apply opened_mono; [|set_solver].
    intros yaml. apply sources_app.
  - rewrite map_app, Hsteps. done.
  - assert (length (p_log p) = length done) as Hlen by (by rewrite <- Hsteps, length_map).
    intros i s' evs' [Hi|[Hge Hi]]%lookup_app_Some.
    + pose proof (lookup_lt_Some _ _ _ Hi) as Hlt. rewrite !take_app_le by lia. by apply accounted_more, Hlog.
    + apply list_lookup_singleton_Some in Hi as [Hi [= <- <-]]. assert (i = length done) as -> by lia.
      rewrite take_app_length, take_ge by (rewrite length_app; simpl; lia). by apply accounted_more.
Qed.

Lemma perform_sound boot done s p p' :
  sound boot done p → perform s p = Some p' → sound boot (done ++ [s]) p'.
Proof.
  intros Hp H. pose proof Hp as [Hrt Hc _ _].
  assert (configured (sources boot (done ++ [s])) (p_runtime p)) as Hrt1
    by (eapply configured_mono; [|exact Hrt]; intros yaml; apply sources_app).
  assert (∀ c yaml, c ∈ step_calls s → keyed c yaml → sources boot (done ++ [s]) yaml) as Hk
    by (intros c yaml; apply sources_own).
  destruct s as [c|via req n w beats|remote n w beats|remote n w beats]; simpl in H, Hk.
  - injection H as <-. rewrite <- (app_nil_r (p_conns p)). apply sound_step; [done| |apply Forall_nil_2|split; [done|by intros r l ?%elem_of_nil]].
    apply call_configured; [|done]. intros yaml. apply Hk. left.
  - destruct (via_conn p via) as [ctx|] eqn:Ev; [|done]. simpl in H.
    pose proof (schedule_configured _ beats _ Hk Hrt1) as [Ht Hrt']. pose proof (schedule_worlds beats (p_runtime p)) as Hw.
    destruct (schedule beats (p_runtime p)) as [ticks rt]. injection H as <-.
    rewrite <- (app_nil_r (p_conns p)). apply sound_step; [done|done|constructor|].
    apply request_accounted; [|by split|unfold worlds; simpl in *; by rewrite Hw|done].
    destruct via as [remote|k]; simpl in Ev; [by injection Ev as <-|].
    split; [done|]. eapply opened_mono; [intros yaml; apply sources_app|reflexivity|by eapply Forall_lookup_1].
  - pose proof (schedule_configured _ beats _ Hk Hrt1) as [Ht Hrt']. pose proof (schedule_worlds beats (p_runtime p)) as Hw.
    destruct (schedule beats (p_runtime p)) as [ticks rt]. injection H as <-.
    destruct (tunnel_accounted (sources boot (done ++ [TunnelConn remote n w beats])) done (p_conns p) remote n w beats
      (enter n w (p_runtime p) ticks)) as [H1 H2]; [by split|unfold worlds; simpl in *; by rewrite Hw|done|].
    by apply sound_step.
  - pose proof (schedule_configured _ beats _ Hk Hrt1) as [Ht Hrt']. destruct (schedule beats (p_runtime p)) as [ticks rt].
    injection H as <-.
    destruct (https_accounted (sources boot (done ++ [HttpsConn remote n w beats])) done (p_conns p) remote n w beats
      (enter n w (p_runtime p) ticks)) as [H1 H2]; [by split|]. by apply sound_step.
Qed.

Lemma performs_sound boot done todo p p' :
  sound boot done p → performs todo p = Some p' → sound boot (done ++ todo) p'.
Proof.
  revert done p. induction todo as [|s todo IH]; intros done p Hp H; simpl in H.
  { injection H as <-. by rewrite app_nil_r. }
  destruct (perform s p) as [p1|] eqn:E; [|done]. simpl in H.
  rewrite (cons_middle s done todo), app_assoc. eapply IH; [by eapply perform_sound|done].
Qed.

End process.

(** ** From the command line to the wire *)

Section run.
Context `{YF : YamlFormat} `{RE : RegexEngine} `{CD : ConfigDecoder} `{TS : TelemetrySdk}.
Context {N W Stream : Type} `{NW : !Network N Stream} `{HY : !Hyper N Stream} `{LG : !Leg N Stream} `{HL : !HyperLaws HY}.
Context (resolver : SecretResolver W) (roots : result unit message) (ca : TlsResolved → result unit message).
Context (read_to_string : bytes → result bytes bytes) (os_env : bytes → option bytes) (tokio_new : result unit bytes).
Context (bind : list (BootEvent F64 W) → Socket → bytes → result unit bytes).

Abbreviation run := (main resolver roots ca read_to_string os_env tokio_new bind).

(** The management API of a process, when its file has one. *)
Definition serves_api args (runtime : Runtime W) (api : option Api) : Prop :=
  match api with
  | Some a => ∃ path, Spawn (ServeManagement runtime (api_key a) path (api_listen a) (api_metrics a)) ∈ (run args).2
  | None => True
  end.

(** What the process writes to stderr: what [main] prints, then what the sink
    is given, counted on the way. *)
Definition stderr_after `{JT : JsonText} (show : message → bytes) args (evs : list Event) (m : Metrics) : Metrics * bytes :=
  drain (H := MetricsSink (inner := StderrSink show)) evs (m, printed (map show (eprinted (run args).2))).


(** C4 (composition): the whole process, from the command line on, with or
    without a management API, after any sequence of requests, tunnels, TLS
    connections and management calls, calls and other tasks also coming in at
    the awaits of the handlers. The runtime in force is compiled from the file
    the process booted with or from what the file held when somebody who has
    the key, which is not empty, asked for a reload, with the listeners of the
    boot. Each step is in the log with what it did, and when anything left in a
    step then a runtime compiled from the boot file or from a file reloaded no
    later let this very step through: its pipeline continued on the request, or
    on the CONNECT, and what was dialed are addresses of the target it let
    through, which its guard permits; a request over a connection that was handed over
    runs in the context of that connection, which stands for a tunnel target
    only when its CONNECT was let through in an earlier step. Every record is
    one of the listeners'. Without a reload with the key the runtime of the
    boot stays. *)
Theorem process_follows_its_files args runtime api steps p :
  Spawn (ServeHttp runtime) ∈ (run args).2 → serves_api args runtime api →
  performs resolver roots ca os_env api steps (started runtime) = Some p →
  ∃ path boot config, config_arg args = Some path ∧ read_to_string path = Ok boot ∧
    load_str resolver boot os_env = Ok config ∧ (∀ a, api = Some a → api_key a ≠ []) ∧
    let keys := listen config in
    configured resolver roots ca os_env keys (sources api boot steps) (p_runtime p) ∧
    map fst (p_log p) = steps ∧
    (∀ i s evs, p_log p !! i = Some (s, evs) →
       accounted resolver roots ca os_env keys (sources api boot (take (S i) steps)) (take i steps)
         (p_conns p) s evs) ∧
    ((∀ c yaml, c ∈ steps ≫= step_calls → ¬ keyed api c yaml) → p_runtime p = runtime).
Proof.
  intros (pre & post & Htr)%list_elem_of_split Hapi Hp.
  apply spawn_granted in Htr as (path & config & rt & s & (boot & Ha & Hf & Hl & Hb & _) & [<- _] & _).
  assert (∀ a, api = Some a → api_listen a = listen config ∧ api_key a ≠ []) as Hkey.
  { intros a ->. destruct Hapi as (path' & (pre' & post' & Htr)%list_elem_of_split).
    apply spawn_granted in Htr as (path2 & config2 & rt2 & s2 & (boot2 & Ha2 & Hf2 & Hl2 & _) & Hg & Hne).
    destruct Hg as (_ & _ & Hls & _). assert (path2 = path) as -> by congruence. assert (boot2 = boot) as -> by congruence.
    assert (config2 = config) as -> by congruence. done. }
  exists path, boot, config. split_and!; [done..|by intros a [_ ?]%Hkey|]. intros keys.
  assert (sound resolver roots ca os_env api keys boot ([] ++ steps) p) as [H1 _ H3 H4].
  { eapply performs_sound; [by intros a [? _]%Hkey|done| |exact Hp]. split; [|constructor|done|done].
    exists boot, config. split; [by left|done]. }
  split_and!; [done|done|done|]. intros Hk. change runtime with (p_runtime (started (N := N) runtime)).
  eapply performs_unkeyed; [by intros a [? _]%Hkey| |exact Hp]. intros st c yaml Hs Hc. apply Hk, list_elem_of_bind. by exists st.
Qed.

End run.

(** ** A run *)

(** A reload with the key comes while a request is being served. *)
Definition ex_call (token : bytes) : Call :=
  {| cl_request := reload_request token; cl_file := Ok "next"%bs; cl_page := [] |}.

Definition ex_steps : list (Step (N := nat) (W := nat)) :=
  [Request (Plain "10.0.0.9:4000"%bs) (ex_http "/v1"%bs) 0 0 [Managed (ex_call "k3y"%bs); Moved 7; Go];
   Manage (ex_call "wrong"%bs)].

Definition ex_api : Api := {| api_key := "k3y"%bs; api_listen := listen full_config; api_metrics := true |}.

Definition ex_performs : option (Process (N := nat) (W := nat)) :=
  performs (YF := yaml_of full_raw) (NW := up_network) (HY := echo_hyper) (LG := ex_leg)
    ex_resolver (Ok tt) (fun _ => Ok tt) full_env (Some ex_api) ex_steps (started full_runtime).

Definition ex_process : Process (N := nat) (W := nat) := default (started no_runtime) ex_performs.

Lemma ex_performs_some : ex_performs = Some ex_process.
Proof.
  unfold ex_process. assert (bool_decide (is_Some ex_performs) = true) as H by (vm_compute; reflexivity).
  by destruct ex_performs.
Qed.

(** The tasks of the example boot. *)
Lemma full_task_in t :
  t ∈ configured_tasks (YF := yaml_of full_raw) full_config "hematite.yaml"%bs full_runtime → Spawn t ∈ full_run.2.
Proof.
  destruct (booted_spawns (YF := yaml_of full_raw) _ _ _ _ _ _ (fun _ _ _ => Ok tt) ltac:(intros; reflexivity)
    _ _ _ _ _ full_booted) as [_ H]. intros Ht.
  assert (t ∈ spawned (YF := yaml_of full_raw) full_run.2) as Hin
    by (by rewrite (H : spawned (YF := yaml_of full_raw) full_run.2 = _)).
  apply list_elem_of_omap in Hin as (e & Hin & He). destruct e as [| | | |t'| |]; try discriminate He.
  injection He as ->. exact Hin.
Qed.

Lemma full_management :
  Spawn (ServeManagement full_runtime "k3y"%bs "hematite.yaml"%bs (listen full_config) true) ∈ full_run.2.
Proof.
  apply full_task_in. unfold configured_tasks. rewrite !elem_of_app. do 4 right.
  destruct (lk_management _) eqn:Hm; [|vm_compute in Hm; discriminate Hm].
  apply list_elem_of_singleton. f_equal; vm_compute; reflexivity.
Qed.

(** The request of the run reached the upstream, and its own entry of the log
    accounts for it. *)
Lemma process_follows_its_files_witness :
  match p_log ex_process !! 0 with
  | Some (s, evs) => existsb is_egress evs = true ∧ ∃ path boot (config : Config Z),
      config_arg full_args = Some path ∧
      accounted (YF := yaml_of full_raw) (NW := up_network) (HY := echo_hyper) (LG := ex_leg)
        ex_resolver (Ok tt) (fun _ => Ok tt) full_env (listen config)
        (sources (HY := echo_hyper) (Some ex_api) boot (take 1 ex_steps)) [] (p_conns ex_process) s evs
  | None => False
  end.
Proof.
  destruct (process_follows_its_files (YF := yaml_of full_raw) (NW := up_network) (HY := echo_hyper) (LG := ex_leg)
    (HL := echo_laws) ex_resolver (Ok tt) (fun _ => Ok tt) (fun _ => Ok []) full_env (Ok tt) (fun _ _ _ => Ok tt)
    full_args full_runtime (Some ex_api) ex_steps ex_process) as (path & boot & config & Ha & _ & _ & _ & _ & _ & H & _).
  - apply full_task_in. left.
  - exists "hematite.yaml"%bs. exact full_management.
  - exact ex_performs_some.
  - assert (match p_log ex_process !! 0 with Some (_, evs) => existsb is_egress evs | None => false end = true) as He
      by (vm_compute; reflexivity).
    specialize (H 0). destruct (p_log ex_process !! 0) as [[s evs]|]; [|discriminate He].
    split; [exact He|]. exists path, boot, config. split; [exact Ha|]. exact (H s evs eq_refl).
Defined.

(** ** Its stderr *)

(** An address that tries to start a line of its own. *)
Definition forged_record : AuditRecord := drop_record (Some ([NEWLINE] ++ "{}"%bs)).

Definition forged_events : list Event := [Emitted forged_record LError; Replied "x"%bs; Emitted forged_record LError].

Definition show_nothing (m : message) : bytes := [].

